(* ===== verification/_CoqProject ===== *)
-Q . S2P
Prelude.v
IoError.v
Geometry.v
SharedBudget.v
Interfaces.v
Instances.v
Pending.v
ReadRun.v
TurnBudget.v
Wakeup.v
SubmitRing.v
World.v
Driver.v
Ownership.v
System.v
Safety.v
Turn.v
Guarantees.v
Liveness.v
Shutdown.v
Cancel.v
Admission.v
Startup.v
ProbeFile.v
Client.v
Requests.v
AsyncShutdown.v
ClientRefines.v
Closing.v
Answers.v
Diagnostics.v
OrderedReader.v
Prefetch.v
Traced.v
StageCounts.v
Settings.v
FaultInjection.v
Pattern.v
Streaming.v
StreamingMain.v
Concurrent.v
ConcurrentMain.v
Percentile.v
OrderedMain.v
