(* ===== verification/Prelude.v ===== *)
(** * Verification of the rustfs-uring read driver

    A model of the crate under [src/src/] (and of the logic of its examples),
    with the theorems that make it correct. The
    definitions are translated from the Rust code and keep its names; every
    file's own comment says which functions it models.

    ** The program

    A [UringDriver] owns one or more shards. A shard is an [io_uring] instance
    and the thread that drives it ([drive]). Callers submit reads to a shard
    through a queue of messages and hold a [ReadHandle]; the thread owns each
    accepted read's buffer and file in its pending table until the kernel's
    completion, and answers the caller over a one-shot channel. Reads are
    admitted by a count semaphore per shard and an optional byte semaphore per
    driver, whose size may in turn be reserved from a pool several drivers
    share.

    ** The files

    - [Prelude]: machine integers with an explicit maximum, slices and
      in-place writes, sums over a table, automation and hint databases.
    - [IoError]: [io::Error] and [io::Result].
    - [Geometry]: [aligned_geometry] and its constants.
    - [SharedBudget]: [SharedReadBudget] and its reservations.
    - [Interfaces]: type classes with laws for what the code calls and does
      not contain: Tokio's one-shot channel and semaphore, the [io_uring] crate
      with the kernel behind it, and the order of a [HashMap]'s keys;
      [Instances] has an implementation of each with its laws.
    - [Pending]: a pending entry, [read_sqe], [reap_read], [deliver], and the
      part of the intake that builds an entry. [ReadRun] runs one entry from
      its first submission to its result.
    - [TurnBudget], [SubmitRing]: the budget of a turn; the backlog, the cancel
      queue, submission and its error classification, the counters.
    - [Wakeup]: [EventFd], [wait_for_events] and the wakeup protocol.
    - [World]: the objects a thread shares with its callers (semaphores, pool,
      channels) and its messages.
    - [Driver]: one iteration of [drive]'s loop ([turn]), phase by phase, and
      the exits of the thread.
    - [Ownership]: the invariant of the driver's state alone.
    - [System]: a shard with its callers and the kernel, as a step relation:
      one step per message, submission, completion and exit of the thread, per
      sent message, and per action of callers and kernel. [Safety] proves its
      invariant by rule induction; [Turn] proves that [turn] is a sequence of
      its steps.
    - [Guarantees], [Shutdown], [Cancel]: what follows of every reachable state;
      [Liveness]: what follows of every fair execution.
    - [Admission], [Startup], [ProbeFile], [Client]: the code of the caller's
      thread: semaphore admission, probing and starting shards, the creation of
      the probe's file, [submit], [poll], dropping a handle, shutdown.
      [Requests] has the theorems about requests; [ClientRefines] proves that
      each call is a sequence of steps of [System]; [Closing] has what callers
      can do once a shutdown was requested. [AsyncShutdown]: [shutdown_async]
      and the drop of a driver.
    - [Answers]: what a caller receives, from its call to the polled result.
    - [Diagnostics]: the histograms and traces of [src/src/diagnostics.rs].
      [Traced]: the driver's loop and its callers with the records a build with
      the [diagnostics] feature takes, related to those of [Driver] and
      [Client]; [StageCounts]: what the histograms of a shard count.
    - [FaultInjection]: the loop of [drive] with the code of the
      [fault-injection] feature, related to [turn] of [Driver].
    - [OrderedReader]: [src/examples/ordered_prefetch/reader.rs], over any
      source of reads; [Prefetch]: the reader over the driver itself, in
      executions of the client, the threads and the kernel; [OrderedMain]: the
      program around it, which compares what it delivers with a reference read.
    - [Settings], [Pattern], [Streaming], [Concurrent]: the benchmarks of
      [src/examples/]: settings from the environment, the content of the files
      they read and the check of it, and their reading loops; [StreamingMain]
      and [ConcurrentMain]: their set-up and the outcome of their processes;
      [Percentile]: the latencies the concurrent one reports, with [f64] as
      binary64.

    ** What is proved

    Memory safety of the asynchronous reads: in every reachable state each read
    the kernel may still perform writes inside a buffer the thread owns, with
    the file it reads held open ([kernel_writes_owned_buffers],
    [read_sqe_in_buffer], [one_submission_per_read]); what an exiting thread
    frees or leaks ([exit_accounts]), also when it panics
    ([test_panic_aborts]) or never sees its completions
    ([stuck_drain_leaks]); the startup probe likewise
    ([probe_frees_only_after_completion]), whose file nobody else can have
    named ([probe_file_private]).

    Functional correctness: what polling a read's handle gives is what the file
    holds, whatever is interleaved ([reads_return_file_bytes], on top of the
    layers below); a single read is [pread] whatever sequence of short reads
    and transient errors the kernel answers with ([read_at_refines_pread]),
    it ends ([read_finishes]), its errors have a cause, streams are read once,
    cancellation only stops continuation; a batch sends its requests in order
    ([batch_signals_once]); the geometry of aligned reads; the
    ordered reader delivers what its source serves in order
    ([ordered_delivery]), and over the driver that is the file
    ([prefetch_reads_file]); the streaming benchmark's verification is exact
    ([verified_stream_exact]).

    Answers and shutdown: every caller is answered
    ([every_caller_is_answered]), in every fair execution each read that was
    sent ends ([every_read_completes]), a cancel that was queued is on its way to
    the kernel or answered and never queued twice ([cancels_are_deduplicated]), a
    shutdown sends one for everything ([shutdown_cancels_everything]) and drains
    within its deadline, no call submits a read at any time after the request
    ([no_read_after_shutdown]), persistent submit errors shut the shard down, no wakeup is lost ([no_lost_wakeup]) and the thread never
    sleeps on ready work. A shutdown handed to another thread closes admission
    at once and joins every thread whether it runs or is discarded
    ([async_shutdown_hands_off]).

    Resources: limits on counts and bytes hold in every reachable state, the
    statistics add up, admission takes all or nothing and is closed for all
    shards, the shared pool is never oversubscribed, each loop of a turn is
    bounded.

    The link between the layers: [turn_runs_steps] (the loop the code runs is
    made of the system's steps and never panics) and [calls_refine_steps] (so
    is every call of the client, and what it sends is validated). A build with
    fault injection and no fault requested runs the same loop
    ([fault_free_turn]), and one with diagnostics does the same to everything
    but its records, none of which panics ([diagnostics_transparent]); their
    stages count the same reads ([stages_conserved]) and a difference of
    snapshots is what was recorded between them ([since_is_exact]).

    ** How effects are modelled

    State is passed explicitly. A Rust panic is [None] where the code can
    reach one, and theorems prove that it is not reached. What the code asks of
    its environment (the clock, the allocator's addresses, a file's length,
    whether a receiver closes during a call, the answers of system calls) is an
    argument, over which theorems quantify; a theorem that needs a file's
    metadata to be true says so by the predicate on inputs of [step_of]
    ([true_lengths]). Integers are [Z] with the wrap,
    saturation or check of each operation written out; [usize] has a maximum
    given by the class [Target], with instances for 64 and 32 bits.

    Memory: a buffer is an address and its bytes. A completion carries the
    address of its submission and the bytes the kernel stored, and they land in
    the buffer of the entry where that address says, in part or not at all if
    it points elsewhere ([vec_store], [kernel_store]); that no submission points
    outside its entry's buffer is [kernel_writes_owned_buffers]. What the bytes
    are is a function of the submission - its descriptor, offset and length -
    and of the contents of the files ([reads_content]), never of the entry.

    Fuel: [turn]'s intake and reap loops take the budget's 64 messages and 64
    completions as fuel, and [turn_runs_steps] proves that they end within
    it; [fill_window] takes one more than the window
    ([prefetch_window_bounded]); the loops of the examples take the size of
    the file or the length of the plan, and [verified_stream_exact],
    [sequential_run_total], [create_file_pattern] and [reference_read_pread]
    prove that they end within it. The concurrent benchmark's creation of its
    file ends within the same fuel where [usize] has 64 bits
    ([create_file_wide]) and never for 4 GiB or more where it has 32
    ([create_file_narrow]). [eventfd_transfer] retries interrupted calls
    without bound in the code, so its runs are those that end. A read's run is
    a list of completions, and [read_finishes] bounds its length.

    ** What is not modelled

    System calls and the Tokio runtime, behind an interface or an input;
    logging; re-exports; the timing and printing of the examples with the rates
    they print (their percentiles are modelled, [percentile_total]);
    the unit tests inside [driver.rs] and [diagnostics.rs]. Memory ordering of atomics is
    that of an interleaving. *)

From stdpp Require Export base gmap sets list strings fin_maps fin_sets.
From Stdlib Require Export ZArith Lia.
From stdpp Require Import options.

Declare Scope uring_scope.
Delimit Scope uring_scope with uring.
Open Scope uring_scope.
Open Scope Z_scope.

(** ** Machine integers

    A value of a [w]-bit unsigned Rust type is a [Z] between 0 and the type's
    maximum; the operations below are the [checked_*], [saturating_*] and
    wrapping ones of the standard library, with the maximum as an argument. *)

Definition u32_max : Z := 2 ^ 32 - 1.
Definition u64_max : Z := 2 ^ 64 - 1.
Definition i64_max : Z := 2 ^ 63 - 1.
Definition i32_max : Z := 2 ^ 31 - 1.

(** [usize] has the width of the target: the crate builds for 32 and 64 bit
    Linux. *)
Class Target := {
  usize_max : Z;
  usize_max_ok : usize_max = u32_max \/ usize_max = u64_max
}.

Definition checked_add (max a b : Z) : option Z :=
  if a + b <=? max then Some (a + b) else None.

Definition checked_sub (a b : Z) : option Z :=
  if b <=? a then Some (a - b) else None.

Definition saturating_add (max a b : Z) : Z := Z.min max (a + b).

Definition saturating_sub (a b : Z) : Z := Z.max 0 (a - b).

(** [n as uW] keeps the low bits. *)
Definition wrap (max a : Z) : Z := a mod (max + 1).

(** [u64::is_power_of_two] and [usize::is_power_of_two]. *)
Definition is_power_of_two (a : Z) : bool := (0 <? a) && (2 ^ Z.log2 a =? a).

(** [checked_next_multiple_of]; the divisor is nonzero at every use. *)
Definition checked_next_multiple_of (max a m : Z) : option Z :=
  match a mod m with
  | 0 => Some a
  | r => checked_add max a (m - r)
  end.

(** [u64]'s bitwise complement. *)
Definition lnot64 (a : Z) : Z := Z.lxor a u64_max.

(** A value in the range of an unsigned type. *)
Definition in_range (max a : Z) : Prop := 0 <= a <= max.

(** ** Lists of bytes *)

(** [l[start..start + n]], as far as it lies in [l]. *)
Definition slice {A} (l : list A) (start n : Z) : list A :=
  take (Z.to_nat n) (drop (Z.to_nat start) l).

Definition zlen {A} (l : list A) : Z := Z.of_nat (length l).

(** [copy_within(start..start + n, 0)]: panics (here [None]) when the range
    does not lie in the slice. *)
Definition copy_within_front {A} (l : list A) (start n : Z) : option (list A) :=
  if start + n <=? zlen l
  then Some (slice l start n ++ drop (Z.to_nat n) l)
  else None.

(** Overwriting part of an allocation in place, as a raw-pointer write does. *)
Definition splice {A} (l : list A) (at_ : Z) (new : list A) : list A :=
  take (Z.to_nat at_) l ++ new ++ drop (Z.to_nat at_ + length new) l.

(** A store of [new] at position [at_] of a block it may overlap in part or not
    at all. *)
Definition overlay {A} (l : list A) (at_ : Z) (new : list A) : list A :=
  imap (fun i b =>
    if at_ <=? Z.of_nat i then default b (new !! Z.to_nat (Z.of_nat i - at_)) else b) l.

#[export] Instance byte_eq_decision : EqDecision Byte.byte := Byte.byte_eq_dec.

(** ** Sums over a table *)

Definition sum_map {V} (f : V -> Z) (m : gmap Z V) : Z :=
  map_fold (fun _ v acc => f v + acc) 0 m.

(** ** Automation *)

(** Turns boolean guards of the code into propositions. *)
Ltac bools :=
  repeat match goal with
  | H : (_ && _)%bool = true |- _ => apply andb_true_iff in H as [? ?]
  | H : (_ && _)%bool = false |- _ => apply andb_false_iff in H
  | H : (_ || _)%bool = true |- _ => apply orb_true_iff in H
  | H : (_ || _)%bool = false |- _ => apply orb_false_iff in H as [? ?]
  | H : negb _ = true |- _ => apply negb_true_iff in H
  | H : negb _ = false |- _ => apply negb_false_iff in H
  | H : (_ <=? _) = true |- _ => apply Z.leb_le in H
  | H : (_ <=? _) = false |- _ => apply Z.leb_gt in H
  | H : (_ <? _) = true |- _ => apply Z.ltb_lt in H
  | H : (_ <? _) = false |- _ => apply Z.ltb_ge in H
  | H : (_ =? _) = true |- _ => apply Z.eqb_eq in H
  | H : (_ =? _) = false |- _ => apply Z.eqb_neq in H
  | H : (_ <=? _)%nat = true |- _ => apply Nat.leb_le in H
  | H : (_ <=? _)%nat = false |- _ => apply Nat.leb_gt in H
  | H : bool_decide _ = true |- _ => apply bool_decide_eq_true in H
  | H : bool_decide _ = false |- _ => apply bool_decide_eq_false in H
  end.

(** Case analysis on the scrutinee of the first [if] or [match]. *)
Ltac split_match :=
  match goal with
  | |- context [match ?x with _ => _ end] =>
      lazymatch x with
      | context [match _ with _ => _ end] => fail
      | _ => destruct x eqn:?
      end
  end.

Ltac split_match_in H :=
  match type of H with
  | context [match ?x with _ => _ end] =>
      lazymatch x with
      | context [match _ with _ => _ end] => fail
      | _ => destruct x eqn:?
      end
  end.

(** ** Lemmas on machine integers *)

Create HintDb uring discriminated.
Create Rewrite HintDb uring_rw.

Lemma checked_add_Some max a b c :
  checked_add max a b = Some c <-> c = a + b /\ a + b <= max.
Proof. unfold checked_add. split_match; bools; intuition (congruence || lia). Qed.

Lemma checked_add_None max a b : checked_add max a b = None <-> max < a + b.
Proof. unfold checked_add. split_match; bools; intuition (congruence || lia). Qed.

Lemma checked_sub_Some a b c : checked_sub a b = Some c <-> c = a - b /\ b <= a.
Proof. unfold checked_sub. split_match; bools; intuition (congruence || lia). Qed.

Lemma checked_sub_None a b : checked_sub a b = None <-> a < b.
Proof. unfold checked_sub. split_match; bools; intuition (congruence || lia). Qed.

Lemma wrap_small max a : in_range max a -> wrap max a = a.
Proof. unfold wrap, in_range. intros. apply Z.mod_small. lia. Qed.

Lemma is_power_of_two_spec a :
  is_power_of_two a = true <-> exists k, 0 <= k /\ a = 2 ^ k.
Proof.
  unfold is_power_of_two. split.
  - intros H. bools. exists (Z.log2 a). split; [apply Z.log2_nonneg | lia].
  - intros [k [Hk ->]]. rewrite Z.log2_pow2 by done. rewrite Z.eqb_refl.
    pose proof (Z.pow_pos_nonneg 2 k). rewrite (proj2 (Z.ltb_lt _ _)); [done | lia].
Qed.

(** Masking with the complement of [2^k - 1] rounds down to a multiple of [2^k]. *)
Lemma land_lnot64_ones a k :
  in_range u64_max a -> 0 <= k <= 64 ->
  Z.land a (lnot64 (2 ^ k - 1)) = a - a mod 2 ^ k.
Proof.
  intros Ha Hk. rewrite <-Z.land_ones by lia.
  assert (Hl : lnot64 (2 ^ k - 1) = Z.ldiff (Z.ones 64) (Z.ones k)).
  { unfold lnot64. replace u64_max with (Z.ones 64) by done.
    replace (2 ^ k - 1) with (Z.ones k) by (rewrite Z.ones_equiv; lia).
    apply Z.bits_inj'. intros n Hn. rewrite Z.lxor_spec, Z.ldiff_spec.
    rewrite !Z.testbit_ones_nonneg by lia.
    destruct (Z.ltb_spec n k), (Z.ltb_spec n 64); (done || lia). }
  rewrite Hl.
  rewrite Z.sub_nocarry_ldiff.
  - apply Z.bits_inj'. intros n Hn. rewrite !Z.land_spec, !Z.ldiff_spec, Z.land_spec.
    rewrite !Z.testbit_ones_nonneg by lia.
    destruct (Z.ltb_spec n 64).
    + destruct (Z.testbit a n), (n <? k); done.
    + rewrite (Z.bits_above_log2 a n); [done | unfold in_range in Ha; lia |].
      destruct (decide (a = 0)) as [->|]; [simpl; lia|].
      apply Z.log2_lt_pow2; [unfold in_range in Ha; lia|].
      apply Z.lt_le_trans with (2 ^ 64); [unfold in_range, u64_max in Ha; lia|].
      apply Z.pow_le_mono_r; lia.
  - apply Z.bits_inj'. intros n Hn. rewrite Z.ldiff_spec, Z.land_spec, Z.bits_0.
    destruct (Z.testbit a n), (Z.testbit (Z.ones k) n); done.
Qed.

Lemma checked_next_multiple_of_Some max a m c :
  0 < m -> 0 <= a ->
  checked_next_multiple_of max a m = Some c ->
  a <= c < a + m /\ (m | c) /\ (c <= max \/ c = a).
Proof.
  intros Hm Ha. unfold checked_next_multiple_of.
  pose proof (Z.mod_pos_bound a m Hm). pose proof (Z.div_mod a m ltac:(lia)).
  destruct (a mod m) as [|r|r] eqn:E; intros Hc.
  - injection Hc as <-. split_and!; [lia | lia | | lia].
    apply Z.mod_divide; lia.
  - apply checked_add_Some in Hc as [-> ?]. split_and!; [lia | lia | | lia].
    exists (a / m + 1). lia.
  - lia.
Qed.

Lemma checked_next_multiple_of_None max a m :
  0 < m -> 0 <= a <= max ->
  checked_next_multiple_of max a m = None -> max < a + m - 1.
Proof.
  intros Hm Ha. unfold checked_next_multiple_of.
  pose proof (Z.mod_pos_bound a m Hm).
  destruct (a mod m) as [|r|r] eqn:E; [done | | lia].
  rewrite checked_add_None. lia.
Qed.

(** ** Lemmas on lists *)

Lemma zlen_nonneg {A} (l : list A) : 0 <= zlen l.
Proof. unfold zlen. lia. Qed.

Lemma zlen_slice {A} (l : list A) s n :
  0 <= s -> 0 <= n -> zlen (slice l s n) = Z.min n (Z.max 0 (zlen l - s)).
Proof. intros. unfold zlen, slice. rewrite length_take, length_drop. lia. Qed.

Lemma slice_slice {A} (l : list A) s n s' n' :
  0 <= s -> 0 <= s' -> s' + n' <= n ->
  slice (slice l s n) s' n' = slice l (s + s') n'.
Proof.
  intros. unfold slice. rewrite skipn_firstn_comm, take_take, drop_drop.
  f_equal; [lia | f_equal; lia].
Qed.

(** Past the end, a slice does not depend on the length asked for. *)
Lemma slice_past_end {A} (l : list A) s n n' :
  0 <= s -> zlen l <= s + n -> zlen l <= s + n' -> slice l s n = slice l s n'.
Proof.
  intros. unfold zlen in *. unfold slice.
  rewrite !take_ge by (rewrite length_drop; lia). done.
Qed.

Lemma slice_app {A} (l : list A) s n n' :
  0 <= s -> 0 <= n -> 0 <= n' ->
  slice l s (n + n') = slice l s n ++ slice l (s + n) n'.
Proof.
  intros. unfold slice. rewrite !Z2Nat.inj_add by lia. rewrite <-drop_drop.
  rewrite take_take_drop. done.
Qed.

Lemma slice_0 {A} (l : list A) s : slice l s 0 = [].
Proof. done. Qed.

Lemma length_splice {A} (l : list A) n new :
  0 <= n -> n + zlen new <= zlen l -> zlen (splice l n new) = zlen l.
Proof.
  intros. unfold splice, zlen in *. rewrite !length_app, length_take, length_drop. lia.
Qed.

Lemma length_overlay {A} (l : list A) n new : zlen (overlay l n new) = zlen l.
Proof. unfold overlay, zlen. by rewrite length_imap. Qed.

(** Inside the block a store overwrites in place. *)
Lemma overlay_splice {A} (l : list A) n new :
  0 <= n -> n + zlen new <= zlen l -> overlay l n new = splice l n new.
Proof.
  unfold zlen. intros Hn Hl. unfold overlay, splice. apply list_eq. intros i.
  rewrite list_lookup_imap, !lookup_app, lookup_take, lookup_drop, length_take, Nat.min_l by lia.
  destruct (Z.leb_spec n (Z.of_nat i)) as [Hle|Hlt].
  - rewrite decide_False by lia. replace (Z.to_nat (Z.of_nat i - n)) with (i - Z.to_nat n)%nat by lia.
    destruct (new !! (i - Z.to_nat n)%nat) as [b|] eqn:Hb.
    + apply lookup_lt_Some in Hb as Hlt. destruct (lookup_lt_is_Some_2 l i ltac:(lia)) as [x ->]. done.
    + apply lookup_ge_None in Hb. replace (Z.to_nat n + length new + _)%nat with i by lia.
      by destruct (l !! i).
  - rewrite decide_True by lia. destruct (lookup_lt_is_Some_2 l i ltac:(lia)) as [x ->]. done.
Qed.

Lemma slice_splice_eq {A} (l : list A) n new :
  0 <= n -> n <= zlen l -> slice (splice l n new) n (zlen new) = new.
Proof.
  intros. unfold slice, splice, zlen in *.
  rewrite drop_app_ge by (rewrite length_take; lia).
  rewrite length_take, Nat.min_l by lia.
  replace (Z.to_nat n - Z.to_nat n)%nat with 0%nat by lia.
  rewrite drop_0, Nat2Z.id. apply take_app_length.
Qed.

(** A write at or after the end of a window leaves the window alone. *)
Lemma slice_splice_before {A} (l : list A) s n at_ new :
  0 <= s -> 0 <= n -> s + n <= at_ -> at_ <= zlen l ->
  slice (splice l at_ new) s n = slice l s n.
Proof.
  intros. unfold slice, splice, zlen in *.
  rewrite drop_app_le by (rewrite length_take; lia).
  rewrite take_app_le by (rewrite length_drop, length_take; lia).
  rewrite skipn_firstn_comm, take_take. f_equal. lia.
Qed.

Lemma copy_within_front_spec {A} (l : list A) s n :
  0 <= s -> 0 <= n -> s + n <= zlen l ->
  exists l', copy_within_front l s n = Some l' /\ slice l' 0 n = slice l s n /\
             zlen l' = zlen l.
Proof.
  intros. unfold copy_within_front. rewrite (proj2 (Z.leb_le _ _)) by done.
  eexists. split; [done|]. split.
  - unfold slice at 1. rewrite drop_0. rewrite take_app_le.
    + apply take_ge. pose proof (zlen_slice l s n). unfold zlen in *. lia.
    + pose proof (zlen_slice l s n). unfold zlen in *. lia.
  - pose proof (zlen_slice l s n). unfold zlen in *. rewrite length_app, length_drop. lia.
Qed.

Lemma filter_ext_in {A} (P Q : A -> Prop) `{!forall x, Decision (P x)}
    `{!forall x, Decision (Q x)} (l : list A) :
  (forall x, x ∈ l -> P x <-> Q x) -> filter P l = filter Q l.
Proof.
  induction l as [|x l IH]; intros HPQ; [done|].
  rewrite !filter_cons, IH by (intros; apply HPQ; by right).
  pose proof (HPQ x ltac:(by left)). do 2 case_decide; tauto.
Qed.

Lemma splice_all {A} (l new : list A) : (length l <= length new)%nat -> splice l 0 new = new.
Proof. intros Hl. unfold splice. simpl. by rewrite drop_ge, app_nil_r by done. Qed.

(** ** Lemmas on table sums *)

Lemma foldr_add_app (l l' : list Z) :
  foldr Z.add 0 (l ++ l') = foldr Z.add 0 l + foldr Z.add 0 l'.
Proof. induction l as [|x l IH]; simpl; [done|]. rewrite IH. lia. Qed.

#[export] Instance foldr_add_perm : Proper ((≡ₚ) ==> (=)) (foldr Z.add 0).
Proof. induction 1; simpl; lia. Qed.

Lemma sum_map_empty {V} (f : V -> Z) : sum_map f ∅ = 0.
Proof. apply map_fold_empty. Qed.

Lemma sum_map_insert {V} (f : V -> Z) (m : gmap Z V) i v :
  m !! i = None -> sum_map f (<[i := v]> m) = f v + sum_map f m.
Proof.
  intros Hi. unfold sum_map. rewrite (map_fold_insert_L _ 0 i v m); [done | | done].
  intros. lia.
Qed.

Lemma sum_map_delete {V} (f : V -> Z) (m : gmap Z V) i v :
  m !! i = Some v -> sum_map f m = f v + sum_map f (delete i m).
Proof.
  intros Hi. rewrite <-(insert_delete_id m i v Hi) at 1.
  apply sum_map_insert. apply lookup_delete_eq.
Qed.

Lemma sum_map_replace {V} (f : V -> Z) (m : gmap Z V) i v v' :
  m !! i = Some v -> sum_map f (<[i := v']> m) = f v' - f v + sum_map f m.
Proof.
  intros Hi. rewrite (sum_map_delete f m i v Hi).
  rewrite <-insert_delete_eq, sum_map_insert by apply lookup_delete_eq. lia.
Qed.

Lemma sum_map_fmap {V W} (f : W -> Z) (g : V -> W) (m : gmap Z V) :
  sum_map f (g <$> m) = sum_map (fun v => f (g v)) m.
Proof. unfold sum_map. by rewrite map_fold_fmap. Qed.

Lemma sum_map_nonneg {V} (f : V -> Z) (m : gmap Z V) :
  (forall i v, m !! i = Some v -> 0 <= f v) -> 0 <= sum_map f m.
Proof.
  induction m as [|i v m Hi IH] using map_ind; intros Hf.
  - by rewrite sum_map_empty.
  - rewrite sum_map_insert by done.
    pose proof (Hf i v ltac:(apply lookup_insert_eq)).
    enough (0 <= sum_map f m) by lia. apply IH. intros j w Hj. apply (Hf j).
    rewrite lookup_insert_ne; naive_solver.
Qed.

Lemma sum_map_lookup_le {V} (f : V -> Z) (m : gmap Z V) i v :
  (forall i v, m !! i = Some v -> 0 <= f v) -> m !! i = Some v -> f v <= sum_map f m.
Proof.
  intros Hf Hi. rewrite (sum_map_delete f m i v Hi).
  enough (0 <= sum_map f (delete i m)) by lia.
  apply sum_map_nonneg. intros j w [_ Hj]%lookup_delete_Some. eauto.
Qed.

Lemma sum_map_const {V} (m : gmap Z V) : sum_map (fun _ => 1) m = Z.of_nat (size m).
Proof.
  induction m as [|i v m Hi IH] using map_ind; [done|].
  rewrite sum_map_insert, map_size_insert_None by done. lia.
Qed.

#[export] Hint Resolve wrap_small : uring.
#[export] Hint Rewrite @length_splice using lia : uring_rw.
