(* ===== verification/IoError.v ===== *)
(** * [std::io::Error] and [io::Result]

    The errors the driver builds: [from_raw_os_error] (an errno) and [new]
    or [other] (an [ErrorKind] with a message), with the observations the
    driver makes of them, and the errno values it names. *)

From S2P Require Import Prelude.

(** The [io::ErrorKind]s the crate names. *)
Inductive ErrorKind := InvalidInput | InvalidData | WouldBlock | Other.

Inductive IoError :=
| Os (errno : Z)
| Custom (kind : ErrorKind) (msg : string).

(** [io::Result<T>]. *)
Inductive io_result (A : Type) :=
| Ok (v : A)
| Err (e : IoError).
Arguments Ok {_} v.
Arguments Err {_} e.

#[export] Instance ErrorKind_eq_dec : EqDecision ErrorKind.
Proof. solve_decision. Defined.
#[export] Instance IoError_eq_dec : EqDecision IoError.
Proof. solve_decision. Defined.
#[export] Instance io_result_eq_dec {A} `{EqDecision A} : EqDecision (io_result A).
Proof. solve_decision. Defined.

Definition other (msg : string) : IoError := Custom Other msg.

Definition from_raw_os_error (errno : Z) : IoError := Os errno.

Definition raw_os_error (e : IoError) : option Z :=
  match e with Os errno => Some errno | Custom _ _ => None end.

Definition is_ok {A} (r : io_result A) : bool :=
  match r with Ok _ => true | Err _ => false end.

(** The [?] operator. *)
Definition io_bind {A B} (r : io_result A) (k : A -> io_result B) : io_result B :=
  match r with Ok v => k v | Err e => Err e end.

Notation "'let?' x := r 'in' k" := (io_bind r (fun x => k))
  (at level 10, x pattern, r at level 100, k at level 200) : uring_scope.

(** ** Linux errno values *)

Definition EPERM : Z := 1.
Definition ENOENT : Z := 2.
Definition EINTR : Z := 4.
Definition EAGAIN : Z := 11.
Definition EACCES : Z := 13.
Definition EBUSY : Z := 16.
Definition EINVAL : Z := 22.
Definition ENOSYS : Z := 38.
Definition ETIME : Z := 62.
Definition EOPNOTSUPP : Z := 95.
Definition EALREADY : Z := 114.
Definition ECANCELED : Z := 125.

Lemma is_ok_iff {A} (r : io_result A) : is_ok r = true <-> exists v, r = Ok v.
Proof. destruct r; split; [eauto | done | done | by intros [? ?]]. Qed.

Lemma io_bind_Ok {A B} (r : io_result A) (k : A -> io_result B) b :
  io_bind r k = Ok b <-> exists a, r = Ok a /\ k a = Ok b.
Proof. destruct r; simpl; split; [eauto | by intros (? & [= <-] & ?) | done | by intros (? & ? & _)]. Qed.
