(* ===== verification/Geometry.v ===== *)
(** * Read geometry

    [aligned_geometry] and the constants of [src/src/driver.rs] that bound
    a read, with the arithmetic of the block-aligned superset range. *)

From S2P Require Import Prelude.

(** [1 << 63]: marks the CQE of an [AsyncCancel]. *)
Definition CANCEL_BIT : Z := Z.shiftl 1 63.

(** [u64::MAX]: read at the file's current position. *)
Definition CURRENT_POSITION : Z := u64_max.

(** The kernel's single-read cap. *)
Definition MAX_READ_LEN : Z := 0x7ffff000.

(** The superset geometry: kernel offset, head and region length. *)
Definition aligned_geometry `{Target} (offset len align : Z) : option (Z * Z * Z) :=
  if (align =? 0) || negb (is_power_of_two align) || (MAX_READ_LEN <? align) then None
  else if align =? 1 then Some (offset, 0, len)
  else
    let mask := align - 1 in
    let kernel_offset := Z.land offset (lnot64 mask) in
    head ← (if offset - kernel_offset <=? usize_max
            then Some (offset - kernel_offset) else None);
    sum ← checked_add usize_max head len;
    region_len ← checked_next_multiple_of usize_max sum align;
    Some (kernel_offset, head, region_len).

(** An alignment the driver accepts. *)
Definition valid_align (align : Z) : Prop :=
  is_power_of_two align = true /\ align <= MAX_READ_LEN.

(** The length [submit] charges for a read, and the length of the buffer the
    driver thread allocates. *)
Definition allocation_len (region_len align : Z) : Z := region_len + align - 1.

(** The longest buffer of one read. *)
Definition max_allocation : Z := MAX_READ_LEN + 2 ^ 30 - 1.

(** What [aligned_geometry] promises: an aligned range of the file that holds
    the logical range, starts less than one block before it and ends less
    than one block after it. *)
Record covers (offset len align : Z) (g : Z * Z * Z) : Prop := {
  cov_nonneg : 0 <= g.1.1;
  cov_start : g.1.1 + g.1.2 = offset;
  cov_head : 0 <= g.1.2 < align;
  cov_end : g.1.2 + len <= g.2;
  cov_tight : g.2 < g.1.2 + len + align;
  cov_aligned : (align | g.1.1) /\ (align | g.2)
}.

(** ** Lemmas *)

Lemma MAX_READ_LEN_usize `{Target} : MAX_READ_LEN <= usize_max.
Proof. destruct usize_max_ok as [-> | ->]; unfold MAX_READ_LEN, u32_max, u64_max; lia. Qed.

Lemma usize_max_le_u64 `{Target} : usize_max <= u64_max.
Proof. destruct usize_max_ok as [-> | ->]; unfold u32_max, u64_max; lia. Qed.

Lemma valid_align_pos align : valid_align align -> 1 <= align <= MAX_READ_LEN.
Proof.
  intros [[k [Hk ->]]%is_power_of_two_spec ?].
  pose proof (Z.pow_pos_nonneg 2 k). lia.
Qed.

Lemma valid_align_guard align :
  (align =? 0) || negb (is_power_of_two align) || (MAX_READ_LEN <? align) = false <->
  valid_align align.
Proof.
  unfold valid_align. split.
  - intros H. bools. tauto.
  - intros [Hp Hm]. rewrite Hp. destruct (Z.eqb_spec align 0) as [->|]; [done|].
    simpl. by apply Z.ltb_ge.
Qed.

Lemma valid_align_one : valid_align 1.
Proof. done. Qed.

Lemma valid_align_pow2 align :
  valid_align align -> exists k, 0 <= k <= 64 /\ align = 2 ^ k.
Proof.
  intros [[k [Hk ->]]%is_power_of_two_spec Hm]. exists k. split; [|done]. split; [done|].
  destruct (Z.le_gt_cases k 64); [done|].
  assert (2 ^ 64 <= 2 ^ k) by (apply Z.pow_le_mono_r; lia).
  unfold MAX_READ_LEN in Hm. lia.
Qed.

Lemma valid_align_le align : valid_align align -> align <= 2 ^ 30.
Proof.
  intros Hv. destruct (valid_align_pow2 _ Hv) as [k [Hk ->]].
  destruct (Z.le_gt_cases k 30); [by apply Z.pow_le_mono_r; lia|].
  assert (2 ^ 31 <= 2 ^ k) by (apply Z.pow_le_mono_r; lia).
  destruct Hv as [_ Hm]. unfold MAX_READ_LEN in Hm. lia.
Qed.

(** The mask of [aligned_geometry] rounds down to the block. *)
Lemma kernel_offset_round_down offset align :
  valid_align align -> in_range u64_max offset ->
  Z.land offset (lnot64 (align - 1)) = offset - offset mod align.
Proof.
  intros Hv Ho. destruct (valid_align_pow2 _ Hv) as [k [Hk ->]].
  by apply land_lnot64_ones.
Qed.

(** The three checks of the direct case, with the masking resolved. *)
Lemma aligned_geometry_direct `{Target} offset len align :
  valid_align align -> align <> 1 -> in_range u64_max offset ->
  aligned_geometry offset len align =
    (sum ← checked_add usize_max (offset mod align) len;
     region_len ← checked_next_multiple_of usize_max sum align;
     Some (offset - offset mod align, offset mod align, region_len)).
Proof.
  intros Hv Hne Ho. unfold aligned_geometry.
  rewrite (proj2 (valid_align_guard _) Hv). apply Z.eqb_neq in Hne as ->.
  rewrite kernel_offset_round_down by done.
  replace (offset - (offset - offset mod align)) with (offset mod align) by lia.
  pose proof (valid_align_pos _ Hv). pose proof MAX_READ_LEN_usize.
  pose proof (Z.mod_pos_bound offset align ltac:(lia)).
  rewrite (proj2 (Z.leb_le _ _)) by lia. done.
Qed.

Lemma aligned_geometry_valid `{Target} offset len align g :
  aligned_geometry offset len align = Some g -> valid_align align.
Proof.
  unfold aligned_geometry. case_match eqn:E; [done|]. intros _.
  by apply valid_align_guard.
Qed.

Lemma aligned_geometry_buffered `{Target} offset len :
  aligned_geometry offset len 1 = Some (offset, 0, len).
Proof. done. Qed.

Lemma aligned_geometry_covers `{Target} offset len align g :
  in_range u64_max offset -> in_range usize_max len ->
  aligned_geometry offset len align = Some g ->
  covers offset len align g /\ in_range usize_max g.2.
Proof.
  intros Ho Hl Hg. pose proof (aligned_geometry_valid _ _ _ _ Hg) as Hv.
  pose proof (valid_align_pos _ Hv) as Ha.
  destruct (decide (align = 1)) as [->|Hne].
  { rewrite aligned_geometry_buffered in Hg. injection Hg as <-.
    unfold in_range in Ho.
    split; [|done]. constructor; simpl; try lia. split; apply Z.divide_1_l. }
  rewrite aligned_geometry_direct in Hg by done.
  pose proof (Z.mod_pos_bound offset align ltac:(lia)) as Hm.
  destruct (checked_add _ _ _) as [sum|] eqn:Hs; simpl in Hg; [|done].
  apply checked_add_Some in Hs as [-> Hs].
  destruct (checked_next_multiple_of _ _ _) as [rl|] eqn:Hr; simpl in Hg; [|done].
  injection Hg as <-. unfold in_range in *.
  pose proof (Z.mod_le offset align ltac:(lia) ltac:(lia)).
  apply checked_next_multiple_of_Some in Hr as (Hb & Hd & Hmax); [|lia|lia].
  simpl. split; [|lia]. constructor; simpl; try lia. split; [|done].
  exists (offset / align). pose proof (Z.div_mod offset align ltac:(lia)). lia.
Qed.

Lemma aligned_geometry_Some `{Target} offset len align :
  in_range u64_max offset -> in_range usize_max len ->
  valid_align align -> offset mod align + len + align <= usize_max + 1 ->
  is_Some (aligned_geometry offset len align).
Proof.
  intros Ho Hl Hv Hfit. pose proof (valid_align_pos _ Hv) as Ha.
  destruct (decide (align = 1)) as [->|Hne]; [done|].
  rewrite aligned_geometry_direct by done.
  pose proof (Z.mod_pos_bound offset align ltac:(lia)) as Hm. unfold in_range in *.
  destruct (checked_add _ _ _) as [sum|] eqn:Hs; simpl.
  2: { apply checked_add_None in Hs. lia. }
  apply checked_add_Some in Hs as [-> Hs].
  destruct (checked_next_multiple_of _ _ _) as [rl|] eqn:Hr; simpl; [done|].
  apply checked_next_multiple_of_None in Hr; unfold in_range; lia.
Qed.

(** ** Targets *)

#[export, refine] Instance x86_64 : Target := {| usize_max := u64_max |}.
Proof. by right. Defined.

Definition i686 : Target.
Proof. refine {| usize_max := u32_max |}. by left. Defined.

(** ** Properties *)

(** [C26] A successful [aligned_geometry] describes a block-aligned range of the file that
    contains the caller's logical range, begins less than one block before it and
    ends less than one block after it, and whose length is a [usize]. *)
Theorem geometry_covers `{Target} offset len align ko head region_len :
  in_range u64_max offset -> in_range usize_max len ->
  aligned_geometry offset len align = Some (ko, head, region_len) ->
  ko + head = offset /\ 0 <= head < align /\
  head + len <= region_len < head + len + align /\
  (align | ko) /\ (align | region_len) /\ region_len <= usize_max.
Proof.
  intros Ho Hl Hg.
  destruct (aligned_geometry_covers _ _ _ _ Ho Hl Hg) as [[? ? ? ? ? [? ?]] [? ?]].
  simpl in *. split_and!; (done || lia).
Qed.

Lemma geometry_covers_witness :
  @aligned_geometry x86_64 4608 1000 512 = Some (4608, 0, 1024) /\
  (@aligned_geometry x86_64 4700 1000 512 = Some (4608, 92, 1536)) /\
  4608 + 92 = 4700.
Proof.
  split_and!; [reflexivity | reflexivity |].
  pose proof (@geometry_covers x86_64 4700 1000 512 4608 92 1536
    ltac:(unfold in_range, u64_max; lia) ltac:(unfold in_range; simpl; unfold u64_max; lia)
    eq_refl) as H.
  exact (proj1 H).
Defined.
