(* ===== verification/SharedBudget.v ===== *)
(** * Shared driver read budgets

    [SharedReadBudget], its reservations ([Arc<SharedReadReservation>]) and
    the refund in [Drop for SharedReadReservation], all of
    [src/src/driver.rs]. The pool's counter is one [AtomicUsize]; each
    operation below touches it by a single atomic read-modify-write, so a
    list of operations is any interleaving of the calling threads. A
    reservation is named by a number and carries its [Arc] strong count. *)

From S2P Require Import Prelude IoError Geometry.

(** [SharedReadBudgetInner], with the live reservations: their bytes and
    strong counts. *)
Record Pool := mkPool {
  capacity : Z;
  available : Z;
  receipts : gmap Z (Z * nat)
}.

(** [SharedReadBudget::new]. *)
Definition new (total : Z) : io_result Pool :=
  if total =? 0 then Err (Custom InvalidInput "shared read budget must be nonzero")
  else Ok (mkPool total total ∅).

(** [SharedReadBudget::reserve]: a checked subtraction by [fetch_update]. *)
Definition reserve (p : Pool) (bytes : Z) : Pool * io_result Z :=
  if (bytes =? 0) || (capacity p <? bytes) then
    (p, Err (Custom InvalidInput "driver read limit must fit the shared read budget"))
  else match checked_sub (available p) bytes with
       | None => (p, Err (Custom WouldBlock
                            "shared read budget has insufficient unreserved capacity"))
       | Some left_ =>
           let r := fresh (dom (receipts p)) in
           (mkPool (capacity p) left_ (<[r := (bytes, 1%nat)]> (receipts p)), Ok r)
       end.

(** [Arc::clone] of a reservation. *)
Definition arc_clone (p : Pool) (r : Z) : Pool :=
  mkPool (capacity p) (available p)
    (alter (fun '(bytes, strong) => (bytes, S strong)) r (receipts p)).

(** Dropping a clone; the last one runs [SharedReadReservation::drop], whose
    [fetch_add] wraps like every atomic addition. *)
Definition arc_drop `{Target} (p : Pool) (r : Z) : Pool :=
  match receipts p !! r with
  | None => p
  | Some (bytes, strong) =>
      if (strong <=? 1)%nat
      then mkPool (capacity p) (wrap usize_max (available p + bytes)) (delete r (receipts p))
      else mkPool (capacity p) (available p) (<[r := (bytes, (strong - 1)%nat)]> (receipts p))
  end.

(** ** The pool under any interleaving of its users *)

Inductive pool_op :=
| Reserve (bytes : Z)
| Clone (r : Z)
| Drop (r : Z).

Definition run_op `{Target} (p : Pool) (o : pool_op) : Pool :=
  match o with
  | Reserve bytes => (reserve p bytes).1
  | Clone r => arc_clone p r
  | Drop r => arc_drop p r
  end.

Definition run_ops `{Target} (p : Pool) (os : list pool_op) : Pool := fold_left run_op os p.

(** The bytes of the live reservations. *)
Definition reserved (p : Pool) : Z := sum_map fst (receipts p).

(** Every byte is either available or in exactly one live reservation. *)
Record pool_wf `{Target} (p : Pool) : Prop := {
  wf_conserved : available p + reserved p = capacity p;
  wf_capacity : 0 < capacity p <= usize_max;
  wf_available : 0 <= available p;
  wf_receipts : forall r bytes strong,
    receipts p !! r = Some (bytes, strong) -> 0 < bytes /\ (1 <= strong)%nat
}.

(** ** Lemmas *)

Section Pool.
Context `{Target}.

Lemma reserved_nonneg p : pool_wf p -> 0 <= reserved p.
Proof.
  intros Hp. apply sum_map_nonneg. intros i [b s] Hi.
  destruct (wf_receipts p Hp i b s Hi). simpl. lia.
Qed.

Lemma receipt_le_reserved p r bytes strong :
  pool_wf p -> receipts p !! r = Some (bytes, strong) -> bytes <= reserved p.
Proof.
  intros Hp Hr. apply (sum_map_lookup_le fst _ r (bytes, strong)); [|done].
  intros i [b s] Hi. destruct (wf_receipts p Hp i b s Hi). simpl. lia.
Qed.

Lemma new_wf total p :
  0 <= total <= usize_max -> new total = Ok p -> pool_wf p.
Proof.
  unfold new. intros Ht. case_match; [done|]. bools. intros [= <-].
  constructor; simpl; [unfold reserved; simpl; rewrite sum_map_empty; lia | lia | lia |].
  intros r b s. by rewrite lookup_empty.
Qed.

Lemma fresh_receipt p : receipts p !! fresh (dom (receipts p)) = None.
Proof. apply not_elem_of_dom, is_fresh. Qed.

(** The three outcomes of [reserve]. *)
Lemma reserve_cases p bytes :
  0 <= bytes ->
  (bytes = 0 \/ capacity p < bytes) /\
    (exists m, reserve p bytes = (p, Err (Custom InvalidInput m)))
  \/ 0 < bytes <= capacity p /\ available p < bytes /\
    (exists m, reserve p bytes = (p, Err (Custom WouldBlock m)))
  \/ 0 < bytes <= capacity p /\ bytes <= available p /\
    reserve p bytes =
      (mkPool (capacity p) (available p - bytes)
         (<[fresh (dom (receipts p)) := (bytes, 1%nat)]> (receipts p)),
       Ok (fresh (dom (receipts p)))).
Proof.
  intros Hb. unfold reserve. case_match eqn:E.
  - left. bools. split; [destruct E; bools; auto | eauto].
  - bools. destruct (checked_sub _ _) eqn:Hs.
    + apply checked_sub_Some in Hs as [-> ?]. right. right. split_and!; (done || lia).
    + apply checked_sub_None in Hs. right. left. split_and!; (lia || eauto).
Qed.

Lemma reserve_wf p bytes : 0 <= bytes -> pool_wf p -> pool_wf (reserve p bytes).1.
Proof.
  intros Hb Hp. destruct (reserve_cases p bytes Hb)
    as [(? & m & ->)|[(? & ? & m & ->)|(? & ? & ->)]]; [done..|].
  destruct Hp as [Hc Hcap Ha Hr]. constructor; simpl; try lia.
  - unfold reserved in *. simpl. rewrite sum_map_insert by apply fresh_receipt.
    simpl. lia.
  - intros r b s. rewrite lookup_insert_Some. intros [[<- [= <- <-]]|[_ ?]]; [lia | eauto].
Qed.

Lemma arc_clone_wf p r : pool_wf p -> pool_wf (arc_clone p r).
Proof.
  intros [Hc Hcap Ha Hr]. constructor; simpl; try done.
  - unfold reserved in *. simpl. rewrite alter_alt.
    destruct (receipts p !! r) as [[b s]|] eqn:E; [|done].
    rewrite (sum_map_replace _ _ _ _ _ E). simpl. lia.
  - intros i b s. rewrite lookup_alter. case_decide; subst; [|eauto].
    destruct (receipts p !! i) as [[b' s']|] eqn:E; simpl; [|done].
    intros [= <- <-]. destruct (Hr _ _ _ E). lia.
Qed.

Lemma arc_drop_last p r bytes :
  pool_wf p -> receipts p !! r = Some (bytes, 1%nat) ->
  arc_drop p r = mkPool (capacity p) (available p + bytes) (delete r (receipts p)).
Proof.
  intros Hp Hr. unfold arc_drop. rewrite Hr. simpl. f_equal. apply wrap_small.
  pose proof (receipt_le_reserved _ _ _ _ Hp Hr).
  destruct Hp as [Hc Hcap Ha Hrs], (Hrs _ _ _ Hr). unfold in_range. lia.
Qed.

Lemma arc_drop_wf p r : pool_wf p -> pool_wf (arc_drop p r).
Proof.
  intros Hp. destruct (receipts p !! r) as [[bytes strong]|] eqn:Hr.
  2: { unfold arc_drop. by rewrite Hr. }
  destruct (wf_receipts p Hp _ _ _ Hr) as [Hb Hs].
  destruct (decide (strong = 1%nat)) as [->|Hne].
  - rewrite (arc_drop_last _ _ _ Hp Hr). destruct Hp as [Hc Hcap Ha Hrs].
    constructor; simpl; try lia.
    + unfold reserved in *. simpl. rewrite (sum_map_delete _ _ _ _ Hr) in Hc.
      simpl in Hc. lia.
    + intros i b s [_ ?]%lookup_delete_Some. eauto.
  - unfold arc_drop. rewrite Hr. rewrite (proj2 (Nat.leb_gt _ _)) by lia.
    destruct Hp as [Hc Hcap Ha Hrs]. constructor; simpl; try lia.
    + unfold reserved in *. simpl. rewrite (sum_map_replace _ _ _ _ _ Hr). simpl. lia.
    + intros i b s. rewrite lookup_insert_Some.
      intros [[<- [= <- <-]]|[_ ?]]; [lia | eauto].
Qed.

Definition op_in_range (o : pool_op) : Prop :=
  match o with Reserve b => 0 <= b | _ => True end.

Lemma run_ops_wf p os :
  pool_wf p -> Forall op_in_range os -> pool_wf (run_ops p os).
Proof.
  unfold run_ops. revert p. induction os as [|o os IH]; intros p Hp Hos; simpl; [done|].
  inversion_clear Hos. apply IH; [|done]. destruct o; simpl in *;
    auto using reserve_wf, arc_clone_wf, arc_drop_wf.
Qed.

Lemma run_op_capacity p o : capacity (run_op p o) = capacity p.
Proof.
  destruct o; simpl; [unfold reserve | done | unfold arc_drop]; by repeat case_match.
Qed.

Lemma run_ops_capacity p os : capacity (run_ops p os) = capacity p.
Proof.
  unfold run_ops. revert p. induction os as [|o os IH]; intros p; simpl; [done|].
  rewrite IH. apply run_op_capacity.
Qed.
End Pool.

#[export] Hint Resolve new_wf reserve_wf arc_clone_wf arc_drop_wf : uring.

(** ** Properties *)

(** [C36] Whatever the interleaving of reservations, clones and drops by the users of a
    pool created with [SharedReadBudget::new], the bytes of the live reservations never
    exceed the pool's capacity and what they leave is exactly what [available] reports:
    no reservation is lost, refunded twice, or wrapped. *)
Theorem pool_never_oversubscribed `{Target} total os p0 :
  0 <= total <= usize_max -> new total = Ok p0 -> Forall op_in_range os ->
  let p := run_ops p0 os in
  available p + reserved p = total /\ 0 <= reserved p <= total.
Proof.
  intros Ht Hn Hos p. pose proof (new_wf _ _ Ht Hn) as Hwf.
  pose proof (run_ops_wf _ _ Hwf Hos) as Hp. fold p in Hp.
  pose proof (reserved_nonneg _ Hp). destruct Hp as [Hc Hcap Ha _].
  assert (capacity p = total) as Hcap'.
  { unfold p. rewrite run_ops_capacity. unfold new in Hn. case_match; [done|].
    by injection Hn as <-. }
  lia.
Qed.

Lemma pool_never_oversubscribed_witness :
  let p := @run_ops x86_64 (mkPool 12 12 ∅)
             [Reserve 8; Reserve 5; Reserve 4; Clone 0; Drop 0] in
  available p + reserved p = 12 /\ 0 <= reserved p <= 12.
Proof.
  apply (@pool_never_oversubscribed x86_64).
  - simpl. unfold u64_max. lia.
  - reflexivity.
  - repeat constructor; simpl; lia.
Defined.

(** A reservation succeeds exactly when its bytes are nonzero and fit what is left
    of the pool; the refusal is [InvalidInput] when no state of the pool could grant it
    and [WouldBlock] when only other drivers stand in the way, and a refusal changes
    nothing. *)
Theorem reserve_spec `{Target} p bytes :
  pool_wf p -> 0 <= bytes ->
  match reserve p bytes return Prop with
  | (p', Ok r) => 0 < bytes <= available p /\ receipts p !! r = None /\
    available p' = available p - bytes /\
    receipts p' = <[r := (bytes, 1%nat)]> (receipts p)
  | (p', Err (Custom InvalidInput _)) => p' = p /\ (bytes = 0 \/ capacity p < bytes)
  | (p', Err (Custom WouldBlock _)) =>
      p' = p /\ 0 < bytes <= capacity p /\ capacity p - reserved p < bytes
  | _ => False
  end.
Proof.
  intros Hp Hb. destruct (reserve_cases p bytes Hb)
    as [(? & m & ->)|[(? & ? & m & ->)|(? & ? & ->)]]; [done | |].
  - pose proof (wf_conserved _ Hp). split_and!; (done || lia).
  - split_and!; [lia | lia | apply fresh_receipt | done | done].
Qed.

Lemma reserve_spec_witness :
  (reserve (mkPool 12 12 ∅) 13).1 = mkPool 12 12 ∅ /\ 13 > 12.
Proof.
  pose proof (@reserve_spec x86_64 (mkPool 12 12 ∅) 13
    (new_wf (H := x86_64) 12 _ ltac:(simpl; unfold u64_max; lia) eq_refl)
    ltac:(lia)) as H.
  split; [exact (proj1 H) | lia].
Defined.

(** The reservation's bytes return to the pool at the drop of its last clone, and
    not before: while another owner is left, dropping a clone leaves [available] alone. *)
Lemma refund_at_last_drop `{Target} p r bytes strong :
  pool_wf p -> receipts p !! r = Some (bytes, strong) ->
  available (arc_drop p r) =
    available p + (if decide (strong = 1%nat) then bytes else 0) /\
    (is_Some (receipts (arc_drop p r) !! r) <-> strong <> 1%nat).
Proof.
  intros Hp Hr. destruct (wf_receipts _ Hp _ _ _ Hr) as [_ Hs]. case_decide as Hd.
  - subst. rewrite (arc_drop_last _ _ _ Hp Hr). simpl. split; [done|].
    rewrite lookup_delete_eq. split; [by intros []|done].
  - unfold arc_drop. rewrite Hr, (proj2 (Nat.leb_gt _ _)) by lia. simpl.
    split; [lia|]. rewrite lookup_insert_eq. split; [done|eauto].
Qed.

Lemma refund_at_last_drop_witness :
  available (@arc_drop x86_64 (mkPool 12 4 {[0 := (8, 1%nat)]}) 0) = 12.
Proof.
  refine (proj1 (@refund_at_last_drop x86_64 _ 0 8 1 _ _)); [|reflexivity].
  constructor; simpl; [reflexivity | unfold u64_max; lia | lia |].
  intros r b s [<- [= <- <-]]%lookup_singleton_Some. lia.
Defined.
