(* ===== verification/Interfaces.v ===== *)
(** * The code the driver calls but does not contain

    Type classes for the third-party code: Tokio's oneshot channel and
    semaphore, and the [io_uring] crate with the kernel behind it. Each class
    has the operations the driver uses and a class of laws with the
    documented behaviour the proofs rely on. The model is parametric in the
    implementations; [Instances.v] has concrete ones. *)

From S2P Require Import Prelude IoError Geometry.

(** ** [tokio::sync::oneshot]

    A channel is named by the operation [submit] created it for. The
    receiver's view of a channel: nothing yet, a value, or a sender that was
    dropped unsent. *)
Inductive rx_state (V : Type) :=
| RxEmpty
| RxValue (v : V)
| RxSenderDropped.
Arguments RxEmpty {_}.
Arguments RxValue {_} v.
Arguments RxSenderDropped {_}.

(** The value the driver's channels carry: [io::Result<Vec<u8>>]. *)
Abbreviation read_result := (io_result (list Byte.byte)).

Class Oneshot (O : Type) := {
  os_channel : O -> Z -> O;
  (** [Sender::is_closed]: the receiver was closed or dropped. *)
  os_is_closed : O -> Z -> bool;
  (** [Sender::send]: whether the receiver got the value. *)
  os_send : O -> Z -> read_result -> O * bool;
  (** Dropping the sender unsent. *)
  os_drop_tx : O -> Z -> O;
  (** [Receiver::close]. *)
  os_close : O -> Z -> O;
  os_rx : O -> Z -> rx_state read_result
}.

Class OneshotLaws (O : Type) `{Oneshot O} := {
  os_channel_open o c : os_is_closed (os_channel o c) c = false;
  os_channel_rx o c : os_rx (os_channel o c) c = RxEmpty;
  os_channel_frame o c c' : c' <> c ->
    os_is_closed (os_channel o c) c' = os_is_closed o c' /\
    os_rx (os_channel o c) c' = os_rx o c';
  os_send_ok o c v : (os_send o c v).2 = negb (os_is_closed o c);
  os_send_value o c v : os_is_closed o c = false -> os_rx (os_send o c v).1 c = RxValue v;
  os_send_lost o c v : os_is_closed o c = true -> os_rx (os_send o c v).1 c = os_rx o c;
  os_send_closed o c v c' : os_is_closed (os_send o c v).1 c' = os_is_closed o c';
  os_send_frame o c v c' : c' <> c -> os_rx (os_send o c v).1 c' = os_rx o c';
  os_drop_tx_rx o c : os_rx o c = RxEmpty -> os_is_closed o c = false ->
    os_rx (os_drop_tx o c) c = RxSenderDropped;
  os_drop_tx_value o c v : os_rx (os_drop_tx o c) c = RxValue v -> os_rx o c = RxValue v;
  os_drop_tx_frame o c c' : c' <> c -> os_rx (os_drop_tx o c) c' = os_rx o c';
  os_drop_tx_closed o c c' : os_is_closed (os_drop_tx o c) c' = os_is_closed o c';
  os_close_closed o c : os_is_closed (os_close o c) c = true;
  os_close_frame o c c' : c' <> c -> os_is_closed (os_close o c) c' = os_is_closed o c';
  os_close_rx o c c' : os_rx (os_close o c) c' = os_rx o c'
}.

(** ** [tokio::sync::Semaphore] *)

(** [TryAcquireError]. *)
Inductive try_error := NoPermits | Closed.

(** [Poll<Result<OwnedSemaphorePermit, AcquireError>>]. *)
Inductive acquire_poll := AcqPending | AcqReady | AcqClosed.

Class Semaphore (S : Type) := {
  (** [Semaphore::MAX_PERMITS]. *)
  sem_max_permits : Z;
  sem_new : Z -> S;
  (** [try_acquire_many_owned]; [None] is success. *)
  sem_try_acquire : S -> Z -> S * option try_error;
  (** Dropping an [OwnedSemaphorePermit]. *)
  sem_release : S -> Z -> S;
  sem_close : S -> S;
  sem_is_closed : S -> bool;
  (** The future of [acquire_many_owned], its poll and its drop. *)
  sem_waiter : Type;
  sem_acquire : Z -> sem_waiter;
  sem_poll : S -> sem_waiter -> S * sem_waiter * acquire_poll;
  sem_drop_waiter : S -> sem_waiter -> S;
  (** The number of permits a waiter asks for. *)
  sem_wants : sem_waiter -> Z;
  (** Permits not owned by any [OwnedSemaphorePermit]. *)
  sem_free : S -> Z;
  (** No acquire future is queued. *)
  sem_idle : S -> bool
}.

Class SemaphoreLaws (S : Type) `{Semaphore S} := {
  sem_new_free n : sem_free (sem_new n) = n;
  sem_new_open n : sem_is_closed (sem_new n) = false;
  sem_new_idle n : sem_idle (sem_new n) = true;
  sem_try_closed s n :
    sem_is_closed s = true -> sem_try_acquire s n = (s, Some Closed);
  sem_try_open s n : sem_is_closed s = false ->
    (exists s', sem_try_acquire s n = (s', None) /\ n <= sem_free s /\
       sem_free s' = sem_free s - n /\ sem_is_closed s' = false /\ sem_idle s' = sem_idle s)
    \/ sem_try_acquire s n = (s, Some NoPermits) /\
       (sem_idle s = true -> sem_free s < n);
  sem_release_free s n : sem_free (sem_release s n) = sem_free s + n;
  sem_release_closed s n : sem_is_closed (sem_release s n) = sem_is_closed s;
  sem_close_free s : sem_free (sem_close s) = sem_free s;
  sem_close_closed s : sem_is_closed (sem_close s) = true;
  sem_acquire_wants n : sem_wants (sem_acquire n) = n;
  sem_poll_closed s w : sem_is_closed s = true -> (sem_poll s w).2 = AcqClosed;
  sem_poll_free s w s' w' r : sem_poll s w = (s', w', r) ->
    sem_is_closed s' = sem_is_closed s /\ sem_wants w' = sem_wants w /\
    match r with
    | AcqReady => sem_is_closed s = false /\ sem_wants w <= sem_free s /\
                  sem_free s' = sem_free s - sem_wants w
    | AcqPending => sem_free s' = sem_free s
    | AcqClosed => sem_free s' = sem_free s /\ sem_is_closed s = true
    end;
  sem_drop_waiter_free s w : sem_free (sem_drop_waiter s w) = sem_free s;
  sem_drop_waiter_closed s w : sem_is_closed (sem_drop_waiter s w) = sem_is_closed s
}.

(** ** The [io_uring] crate and the kernel *)

(** A submission entry: [opcode::Read] with its file descriptor, buffer
    address, length and file offset, or [opcode::AsyncCancel]. *)
Inductive opcode :=
| Read (fd addr len off : Z)
| AsyncCancel (target : Z).

Record Sqe := mkSqe { sqe_op : opcode; sqe_user_data : Z }.

(** A completion entry, with the bytes the kernel stored by the time it posted
    the completion and the address it stored them at. *)
Record Cqe := mkCqe {
  cqe_user_data : Z;
  cqe_result : Z;
  cqe_addr : Z;
  cqe_stored : list Byte.byte
}.

#[export] Instance opcode_eq_dec : EqDecision opcode.
Proof. solve_decision. Defined.
#[export] Instance Sqe_eq_dec : EqDecision Sqe.
Proof. solve_decision. Defined.

Definition is_read (s : Sqe) : Prop :=
  match sqe_op s with Read _ _ _ _ => True | AsyncCancel _ => False end.

#[export] Instance is_read_dec s : Decision (is_read s).
Proof. unfold is_read. destruct (sqe_op s); apply _. Defined.

(** A completion of [s]: its user data, and for a read at most the requested
    bytes, stored at the address of the submission and nowhere else, and as many
    as a successful result says. *)
Definition answers (s : Sqe) (c : Cqe) : Prop :=
  cqe_user_data c = sqe_user_data s /\
  match sqe_op s with
  | Read _ addr len _ =>
      cqe_addr c = addr /\ cqe_result c <= len /\ Z.of_nat (length (cqe_stored c)) <= len /\
      (0 <= cqe_result c -> Z.of_nat (length (cqe_stored c)) = cqe_result c)
  | AsyncCancel _ => True
  end.

Class Ring (R : Type) := {
  (** [submission().push]: [None] when the submission queue is full. *)
  sq_push : R -> Sqe -> option R;
  sq_is_empty : R -> bool;
  sq_cq_overflow : R -> bool;
  sq_taskrun : R -> bool;
  (** [IoUring::submit]: one [io_uring_enter]. *)
  ring_submit : R -> R * io_result Z;
  (** [completion().next], [is_empty] and [overflow]. *)
  cq_next : R -> option (Cqe * R);
  cq_is_empty : R -> bool;
  cq_overflow : R -> Z;
  (** Entries pushed whose completion was not consumed yet: the kernel may
      store into the buffers of the reads among them. *)
  outstanding : R -> list Sqe
}.

Class RingLaws (R : Type) `{Ring R} := {
  sq_push_outstanding r s r' :
    sq_push r s = Some r' -> outstanding r' ≡ₚ s :: outstanding r;
  ring_submit_outstanding r : outstanding (ring_submit r).1 ≡ₚ outstanding r;
  ring_submit_count r n : (ring_submit r).2 = Ok n -> 0 <= n;
  cq_next_outstanding r c r' : cq_next r = Some (c, r') ->
    exists s, outstanding r ≡ₚ s :: outstanding r' /\ answers s c;
  cq_next_None r : cq_next r = None <-> cq_is_empty r = true
}.

(** A completion of a read of regular files with the given contents, by
    descriptor: a positive result stored the file's bytes at the offset asked
    for, zero is the end of the file or an empty request. A read at the
    current position has no offset. *)
Definition reads_content (contents : Z -> list Byte.byte) (s : Sqe) (c : Cqe) : Prop :=
  match sqe_op s with
  | Read fd _ len off =>
      0 <= off -> off <> CURRENT_POSITION ->
      (0 < cqe_result c -> cqe_stored c = slice (contents fd) off (cqe_result c)) /\
      (cqe_result c = 0 -> len = 0 \/ zlen (contents fd) <= off)
  | AsyncCancel _ => True
  end.

(** A kernel whose descriptors are regular files that do not change. *)
Class RegularFiles (R : Type) `{Ring R} (contents : Z -> list Byte.byte) := {
  cq_next_content r c r' : cq_next r = Some (c, r') ->
    exists s, outstanding r ≡ₚ s :: outstanding r' /\ answers s c /\ reads_content contents s c
}.

(** ** The standard library's [HashMap]

    The iteration order of a [HashMap] is unspecified. *)
Class HashOrder := {
  key_order : gset Z -> list Z;
  key_order_perm s : key_order s ≡ₚ elements s
}.
