(* ===== verification/Instances.v ===== *)
(** * Concrete instances of the interfaces

    Executable implementations of the classes of [Interfaces.v] with proofs
    of their laws. They show that the laws are consistent and let the
    witnesses evaluate. *)

From S2P Require Import Prelude IoError Geometry Interfaces.

(** ** A oneshot channel: closed flag and receiver state, by name *)

Abbreviation chans := (gmap Z (bool * rx_state read_result)).

Definition chan_at (o : chans) (c : Z) : bool * rx_state read_result :=
  default (false, RxEmpty) (o !! c).

Definition chan_drop_tx (o : chans) (c : Z) : chans :=
  match chan_at o c with
  | (false, RxEmpty) => <[c := (false, RxSenderDropped)]> o
  | _ => o
  end.

#[export] Instance chans_oneshot : Oneshot chans := {|
  os_channel o c := <[c := (false, RxEmpty)]> o;
  os_is_closed o c := (chan_at o c).1;
  os_send o c v := if (chan_at o c).1 then (o, false) else (<[c := (false, RxValue v)]> o, true);
  os_drop_tx := chan_drop_tx;
  os_close o c := <[c := (true, (chan_at o c).2)]> o;
  os_rx o c := (chan_at o c).2
|}.

Lemma chan_at_eq o c x : chan_at (<[c := x]> o) c = x.
Proof. unfold chan_at. by rewrite lookup_insert_eq. Qed.

Lemma chan_at_ne o c c' x : c <> c' -> chan_at (<[c := x]> o) c' = chan_at o c'.
Proof. intros. unfold chan_at. by rewrite lookup_insert_ne. Qed.

#[export] Instance chans_laws : OneshotLaws chans.
Proof.
  constructor; simpl; intros o c; intros;
    repeat match goal with
    | |- context [chan_at (<[?c := ?x]> ?o) ?c] => rewrite (chan_at_eq o c x)
    | H : ?c' <> ?c |- context [chan_at (<[?c := ?x]> ?o) ?c'] =>
        rewrite (chan_at_ne o c c' x) by congruence
    end; try done.
  - by destruct (chan_at o c) as [[] ?].
  - rewrite H. simpl. by rewrite chan_at_eq.
  - by rewrite H.
  - destruct (chan_at o c) as [[] r] eqn:E; simpl; [done|].
    destruct (decide (c = c')) as [<-|?]; [by rewrite chan_at_eq, E | by rewrite chan_at_ne].
  - destruct (chan_at o c) as [[] r] eqn:E; simpl; [done|]. by rewrite chan_at_ne.
  - unfold chan_drop_tx. destruct (chan_at o c) as [b r] eqn:E; simpl in *. subst.
    by rewrite chan_at_eq.
  - unfold chan_drop_tx in *. destruct (chan_at o c) as [[] [| |]] eqn:E; simpl in *;
      rewrite ?E in *; try done. by rewrite chan_at_eq in *.
  - unfold chan_drop_tx. destruct (chan_at o c) as [[] [| |]]; simpl; try done.
    by rewrite chan_at_ne.
  - unfold chan_drop_tx. destruct (chan_at o c) as [[] [| |]] eqn:E; simpl; try done.
    destruct (decide (c = c')) as [<-|?]; [by rewrite chan_at_eq, E | by rewrite chan_at_ne].
  - destruct (decide (c = c')) as [<-|?]; [by rewrite chan_at_eq | by rewrite chan_at_ne].
Qed.

(** ** A fair semaphore: free permits and a queue of tickets *)

Record sem := mkSem {
  s_free : Z;
  s_closed : bool;
  s_queue : list Z;
  s_next : Z
}.

(** An acquire future: the permits wanted and its ticket once it has queued. *)
Record waiter := mkWaiter { wt_wants : Z; wt_ticket : option Z }.

Definition sem_leave (s : sem) (t : Z) : list Z := filter (fun x => x <> t) (s_queue s).

(** No other ticket is ahead of the waiter. *)
Definition sem_first (s : sem) (w : waiter) : bool :=
  match s_queue s, wt_ticket w with
  | [], _ => true
  | t :: _, Some t' => bool_decide (t = t')
  | _ :: _, None => false
  end.

Definition sem_take (s : sem) (n : Z) : sem * option try_error :=
  if s_closed s then (s, Some Closed)
  else if bool_decide (s_queue s = []) && (n <=? s_free s)
  then (mkSem (s_free s - n) false (s_queue s) (s_next s), None)
  else (s, Some NoPermits).

Definition sem_poll_waiter (s : sem) (w : waiter) : sem * waiter * acquire_poll :=
  if s_closed s then (s, w, AcqClosed)
  else if sem_first s w && (wt_wants w <=? s_free s)
  then (mkSem (s_free s - wt_wants w) false
          (match wt_ticket w with Some t => sem_leave s t | None => s_queue s end) (s_next s),
        w, AcqReady)
  else match wt_ticket w with
       | Some _ => (s, w, AcqPending)
       | None => (mkSem (s_free s) false (s_queue s ++ [s_next s]) (s_next s + 1),
                  mkWaiter (wt_wants w) (Some (s_next s)), AcqPending)
       end.

#[export] Instance sem_semaphore : Semaphore sem := {|
  sem_max_permits := 2 ^ 61 - 1;
  sem_new n := mkSem n false [] 0;
  sem_try_acquire := sem_take;
  sem_release s n := mkSem (s_free s + n) (s_closed s) (s_queue s) (s_next s);
  sem_close s := mkSem (s_free s) true [] (s_next s);
  sem_is_closed := s_closed;
  sem_waiter := waiter;
  sem_acquire n := mkWaiter n None;
  sem_poll := sem_poll_waiter;
  sem_drop_waiter s w :=
    match wt_ticket w with
    | Some t => mkSem (s_free s) (s_closed s) (sem_leave s t) (s_next s)
    | None => s
    end;
  sem_wants := wt_wants;
  sem_free := s_free;
  sem_idle s := bool_decide (s_queue s = [])
|}.

#[export] Instance sem_laws : SemaphoreLaws sem.
Proof.
  constructor; simpl; try done.
  - intros s n. unfold sem_take. by intros ->.
  - intros s n Hs. unfold sem_take. rewrite Hs. case_match eqn:E.
    + apply andb_true_iff in E as [_ E]. bools. left. eexists. split; [done|]. simpl.
      split_and!; done || lia.
    + right. split; [done|]. intros Hi. rewrite Hi in E. simpl in E. bools. lia.
  - intros s w. unfold sem_poll_waiter. by intros ->.
  - intros s w s' w' r. unfold sem_poll_waiter. destruct (s_closed s) eqn:Hs.
    { intros [= <- <- <-]. by rewrite Hs. }
    case_match eqn:E.
    { apply andb_true_iff in E as [_ E]. bools. intros [= <- <- <-]. simpl. split_and!; done || lia. }
    case_match; intros [= <- <- <-]; simpl; by rewrite ?Hs.
  - intros s w. by destruct (wt_ticket w).
  - intros s w. by destruct (wt_ticket w).
Qed.

(** ** A simulated ring

    The kernel of this instance completes a submitted read from the content of
    one file, and answers a cancel with [-ENOENT]; while [rg_hold] is set it
    keeps what was submitted in flight. Each of [rg_errors] makes one submit
    fail. *)
Record ring := mkRing {
  rg_file : list Byte.byte;
  rg_capacity : nat;
  rg_sq : list Sqe;
  rg_held : list Sqe;
  rg_cq : list Sqe;
  rg_hold : bool;
  rg_errors : list IoError
}.

Definition new_ring (content : list Byte.byte) (entries : nat) : ring :=
  mkRing content entries [] [] [] false [].

Definition ring_sq (r : ring) (sq held cq : list Sqe) : ring :=
  mkRing (rg_file r) (rg_capacity r) sq held cq (rg_hold r) (rg_errors r).

Definition ring_answer (content : list Byte.byte) (s : Sqe) : option Cqe :=
  match sqe_op s with
  | Read _ addr len off =>
      if 0 <=? len
      then
        let bytes := if off <? zlen content
                     then take (Z.to_nat len) (drop (Z.to_nat off) content) else [] in
        Some (mkCqe (sqe_user_data s) (zlen bytes) addr bytes)
      else None
  | AsyncCancel _ => Some (mkCqe (sqe_user_data s) (- ENOENT) 0 [])
  end.

Definition ring_next (r : ring) : option (Cqe * ring) :=
  match rg_cq r with
  | [] => None
  | s :: rest =>
      c ← ring_answer (rg_file r) s; Some (c, ring_sq r (rg_sq r) (rg_held r) rest)
  end.

Definition ring_enter (r : ring) : ring * io_result Z :=
  match rg_errors r with
  | e :: es => (mkRing (rg_file r) (rg_capacity r) (rg_sq r) (rg_held r) (rg_cq r) (rg_hold r) es,
                Err e)
  | [] =>
      (if rg_hold r then ring_sq r [] (rg_held r ++ rg_sq r) (rg_cq r)
       else ring_sq r [] [] (rg_cq r ++ rg_held r ++ rg_sq r), Ok (zlen (rg_sq r)))
  end.

#[export] Instance ring_ring : Ring ring := {|
  sq_push r s :=
    if (length (rg_sq r) <? rg_capacity r)%nat
    then Some (ring_sq r (rg_sq r ++ [s]) (rg_held r) (rg_cq r))
    else None;
  sq_is_empty r := bool_decide (rg_sq r = []);
  sq_cq_overflow r := false;
  sq_taskrun r := false;
  ring_submit := ring_enter;
  cq_next := ring_next;
  cq_is_empty r := match ring_next r with None => true | Some _ => false end;
  cq_overflow r := 0;
  outstanding r := rg_sq r ++ rg_held r ++ rg_cq r
|}.

Lemma ring_answer_answers content s c : ring_answer content s = Some c -> answers s c.
Proof.
  unfold ring_answer, answers, zlen. destruct (sqe_op s) as [fd addr len off|t].
  - case_match; [|done]. bools. intros [= <-]. simpl.
    assert (Z.of_nat (length (if off <? Z.of_nat (length content)
      then take (Z.to_nat len) (drop (Z.to_nat off) content) else [])) <= len).
    { case_match; simpl; rewrite ?length_take; lia. }
    split_and!; done.
  - by intros [= <-].
Qed.

#[export] Instance ring_laws : RingLaws ring.
Proof.
  constructor; simpl.
  - intros r s r'. case_match; [|done]. intros [= <-]. simpl. rewrite <-app_assoc. simpl.
    by rewrite <-Permutation_middle.
  - intros r. unfold ring_enter. destruct (rg_errors r); [|done].
    destruct (rg_hold r); simpl; solve_Permutation.
  - intros r n. unfold ring_enter, zlen. destruct (rg_errors r), (rg_hold r); try done;
      intros [= <-]; lia.
  - intros r c r'. unfold ring_next. destruct (rg_cq r) as [|s rest]; [done|].
    destruct (ring_answer (rg_file r) s) as [c0|] eqn:Ha; [|done]. simpl. intros [= <- <-]. simpl.
    exists s. split; [solve_Permutation | by eapply ring_answer_answers].
  - intros r. destruct (ring_next r); by split.
Qed.

(** ** A ring over files that do not change

    The kernel of this instance completes what is submitted in order, from the
    contents of its type. *)
Record file_ring (contents : Z -> list Byte.byte) := mkFileRing {
  fr_sq : list Sqe;
  fr_cq : list Sqe
}.
Arguments mkFileRing {_}.
Arguments fr_sq {_}.
Arguments fr_cq {_}.

Definition sqe_content (contents : Z -> list Byte.byte) (s : Sqe) : list Byte.byte :=
  match sqe_op s with Read fd _ _ _ => contents fd | AsyncCancel _ => [] end.

Definition file_ring_next {contents} (r : file_ring contents) : option (Cqe * file_ring contents) :=
  match fr_cq r with
  | [] => None
  | s :: rest => c ← ring_answer (sqe_content contents s) s; Some (c, mkFileRing (fr_sq r) rest)
  end.

#[export] Instance file_ring_ring contents : Ring (file_ring contents) := {|
  sq_push r s := Some (mkFileRing (fr_sq r ++ [s]) (fr_cq r));
  sq_is_empty r := bool_decide (fr_sq r = []);
  sq_cq_overflow r := false;
  sq_taskrun r := false;
  ring_submit r := (mkFileRing [] (fr_cq r ++ fr_sq r), Ok (zlen (fr_sq r)));
  cq_next := file_ring_next;
  cq_is_empty r := match file_ring_next r with None => true | Some _ => false end;
  cq_overflow r := 0;
  outstanding r := fr_sq r ++ fr_cq r
|}.

Lemma ring_answer_content contents s c :
  ring_answer (sqe_content contents s) s = Some c -> reads_content contents s c.
Proof.
  unfold ring_answer, reads_content, sqe_content. destruct (sqe_op s) as [fd addr len off|t]; [|done].
  case_match; [|done]. bools. intros [= <-] ? _. simpl.
  case_match; bools; [|simpl; unfold zlen; simpl; split; [lia|]; intros _; by right].
  unfold slice, zlen in *. split.
  - intros _. rewrite Nat2Z.id. by rewrite length_take, <-take_take, firstn_all.
  - rewrite length_take, length_drop. lia.
Qed.

Lemma file_ring_next_spec contents (r r' : file_ring contents) c :
  file_ring_next r = Some (c, r') ->
  exists s, outstanding r ≡ₚ s :: outstanding r' /\ answers s c /\ reads_content contents s c.
Proof.
  unfold file_ring_next. destruct (fr_cq r) as [|s rest] eqn:Hcq; [done|].
  destruct (ring_answer _ s) as [c0|] eqn:Ha; [|done]. simpl. intros [= <- <-].
  exists s. split_and!; [|by eapply ring_answer_answers|by apply ring_answer_content].
  simpl. rewrite Hcq. solve_Permutation.
Qed.

#[export] Instance file_ring_laws contents : RingLaws (file_ring contents).
Proof.
  constructor; simpl.
  - intros r s r' [= <-]. simpl. rewrite <-app_assoc. simpl. by rewrite <-Permutation_middle.
  - intros r. solve_Permutation.
  - intros r n [= <-]. apply zlen_nonneg.
  - intros r c r' (s & ? & ? & _)%file_ring_next_spec. eauto.
  - intros r. destruct (file_ring_next r); by split.
Qed.

#[export] Instance file_ring_files contents : RegularFiles (file_ring contents) contents.
Proof. constructor. intros r c r'. apply file_ring_next_spec. Qed.

(** ** An iteration order *)

#[export] Instance sorted_keys : HashOrder := {|
  key_order s := elements s;
  key_order_perm s := reflexivity (elements s)
|}.
