(* ===== verification/Pending.v ===== *)
(** * The pending table's entries

    [Pending], its [read_sqe], and what a read completion does to an entry:
    [reap_read], [deliver] and [finish_direct_short_read] of
    [src/src/driver.rs], with the part of the driver's intake that builds an
    entry. A Rust panic is [None]. The kernel's store into the buffer of an
    entry lands at the address of the submission. *)

From S2P Require Import Prelude IoError Geometry Interfaces.

(** A heap-allocated [Vec<u8>]: the address of its block and its bytes. *)
Record Vec := mkVec { vec_ptr : Z; vec_data : list Byte.byte }.

(** [Vec::new()]: no block. *)
Definition empty_vec : Vec := mkVec 0 [].

(** An open file, by its descriptor ([Arc<File>]). *)
Record File := mkFile { raw_fd : Z }.

(** [ReadPermits]: one count permit, the byte permits and the shared
    reservation it carries. *)
Record ReadPermits := mkPermits {
  permit_bytes : option Z;
  permit_shared : option Z
}.

Record Pending := mkPending {
  buf : Vec;
  file : File;
  done_tx : option Z;
  offset : Z;
  nread : Z;
  permit : ReadPermits;
  pad : Z;
  head : Z;
  want : Z;
  region_len : Z;
  align : Z;
  transient_retries : Z;
  cancel_requested : bool
}.

Definition set_buf (p : Pending) (v : Vec) : Pending :=
  mkPending v (file p) (done_tx p) (offset p) (nread p) (permit p) (pad p) (head p)
    (want p) (region_len p) (align p) (transient_retries p) (cancel_requested p).

Definition set_progress (p : Pending) (n retries : Z) : Pending :=
  mkPending (buf p) (file p) (done_tx p) (offset p) n (permit p) (pad p) (head p)
    (want p) (region_len p) (align p) retries (cancel_requested p).

Definition set_cancel_requested (p : Pending) : Pending :=
  mkPending (buf p) (file p) (done_tx p) (offset p) (nread p) (permit p) (pad p) (head p)
    (want p) (region_len p) (align p) (transient_retries p) true.

Definition take_done (p : Pending) : Pending :=
  mkPending (buf p) (file p) None (offset p) (nread p) (permit p) (pad p) (head p)
    (want p) (region_len p) (align p) (transient_retries p) (cancel_requested p).

Definition MAX_TRANSIENT_RETRIES : Z := 16.

(** [Pending::read_sqe]: the read of the remainder, with its [u32] length and
    [u64] offset. *)
Definition read_sqe (p : Pending) (ud : Z) : Sqe :=
  let remaining := region_len p - nread p in
  let ptr := vec_ptr (buf p) + (pad p + nread p) in
  let next_off := wrap u64_max (offset p + nread p) in
  mkSqe (Read (raw_fd (file p)) ptr (wrap u32_max remaining) next_off) ud.

(** What the driver observes of the world during one [reap_read]: whether the
    receiver is closed, and the file's length from [metadata]. *)
Record ReapEnv := mkReapEnv { rx_closed : bool; file_len : io_result Z }.

(** [deliver]: the logical range, cut to what was read. *)
Definition deliver (p : Pending) (e : ReapEnv) : option (Pending * list Byte.byte) :=
  if match done_tx p with None => true | Some _ => rx_closed e end then Some (p, [])
  else
    let avail := Z.min (saturating_sub (nread p) (head p)) (want p) in
    let start := pad p + head p in
    data ← (if negb (start =? 0) && negb (avail =? 0)
            then copy_within_front (vec_data (buf p)) start avail
            else Some (vec_data (buf p)));
    Some (set_buf p empty_vec, take (Z.to_nat avail) data).

(** [finish_direct_short_read]: a non-aligned [O_DIRECT] short read is final
    only at the end of the file. *)
Definition finish_direct_short_read (p : Pending) (e : ReapEnv) :
    option (Pending * read_result) :=
  match file_len e with
  | Err err => Some (p, Err err)
  | Ok flen =>
      if offset p + nread p <? flen then
        Some (p, Err (other "io_uring O_DIRECT: non-block-aligned short read before EOF"))
      else '(p', bytes) ← deliver p e; Some (p', Ok bytes)
  end.

Inductive ReapStep :=
| Finish (r : read_result)
| Resubmit (s : Sqe).

(** [reap_read]: what follows a read completion. *)
Definition reap_read (p : Pending) (id res : Z) (shutting_down : bool) (e : ReapEnv) :
    option (Pending * ReapStep) :=
  let stop_continuation := cancel_requested p || shutting_down in
  if res <? 0 then
    let err := - res in
    let transient := (err =? EINTR) || (err =? EAGAIN) in
    if transient && negb (offset p =? CURRENT_POSITION) && (nread p <? region_len p) then
      if stop_continuation then Some (p, Finish (Err (from_raw_os_error ECANCELED)))
      else if transient_retries p <? MAX_TRANSIENT_RETRIES then
        let p' := set_progress p (nread p) (transient_retries p + 1) in
        Some (p', Resubmit (read_sqe p' id))
      else Some (p, Finish (Err (from_raw_os_error err)))
    else Some (p, Finish (Err (from_raw_os_error err)))
  else if res =? 0 then
    '(p', bytes) ← deliver p e; Some (p', Finish (Ok bytes))
  else
    let p' := set_progress p (nread p + res) 0 in
    let is_stream := offset p' =? CURRENT_POSITION in
    let covered := head p' + want p' <=? nread p' in
    if is_stream || covered || (region_len p' <=? nread p') then
      '(p'', bytes) ← deliver p' e; Some (p'', Finish (Ok bytes))
    else if stop_continuation then
      Some (p', Finish (Err (from_raw_os_error ECANCELED)))
    else if (1 <? align p') && negb (nread p' mod align p' =? 0) then
      '(p'', r) ← finish_direct_short_read p' e; Some (p'', Finish r)
    else Some (p', Resubmit (read_sqe p' id)).

(** [align_offset]: the bytes to skip to reach an aligned address. *)
Definition align_offset (addr a : Z) : Z := (a - addr mod a) mod a.

(** The outcome of preparing an accepted read. *)
Inductive prepared :=
| PrepPanic
| PrepReject (e : IoError) (allocated : Z)
| PrepEntry (p : Pending) (allocated : Z).

(** The entry [drive] builds for [Msg::Read], with its buffer at an address
    the allocator chose. [allocated] is what the turn's budget is charged. *)
Definition prepare_read `{Target} (addr : Z) (f : File) (off length_ align_ done_ : Z)
    (pm : ReadPermits) : prepared :=
  match aligned_geometry off length_ align_ with
  | None => PrepPanic
  | Some (kernel_offset, hd, rl) =>
      match checked_add usize_max rl (align_ - 1) with
      | None => PrepReject (other "aligned O_DIRECT allocation size overflow") 0
      | Some cap =>
          let data := repeat Byte.x00 (Z.to_nat cap) in
          let pd := align_offset addr align_ in
          if (pd =? usize_max) ||
             match checked_add usize_max pd rl with
             | None => true
             | Some end_ => zlen data <? end_
             end
          then PrepReject (other "could not align O_DIRECT read buffer") cap
          else PrepEntry
                 (mkPending (mkVec addr data) f (Some done_) kernel_offset 0 pm pd hd
                    length_ rl align_ 0 false) cap
      end
  end.

(** What [submit] has checked of a request that reaches the driver thread. *)
Definition request_ok `{Target} (off length_ align_ : Z) : Prop :=
  in_range u64_max off /\ in_range usize_max length_ /\
  exists ko hd rl, aligned_geometry off length_ align_ = Some (ko, hd, rl) /\
    rl <= MAX_READ_LEN /\
    (off = CURRENT_POSITION /\ align_ = 1 \/ off <= i64_max /\ ko + rl <= i64_max).

(** ** The entry's invariant

    While an entry's read is outstanding its region lies in its buffer, every
    address, offset and length handed to the kernel is block-aligned, and
    what is read so far lies in the region. *)
Record entry_wf (p : Pending) : Prop := {
  ew_align : valid_align (align p);
  ew_pad : 0 <= pad p;
  ew_region : pad p + region_len p <= zlen (vec_data (buf p));
  ew_head : 0 <= head p < align p;
  ew_want : 0 <= want p;
  ew_covers : head p + want p <= region_len p < head p + want p + align p;
  ew_cap : region_len p <= MAX_READ_LEN;
  ew_nread : 0 <= nread p <= region_len p;
  ew_more : 0 < nread p -> nread p < region_len p;
  ew_position :
    offset p = CURRENT_POSITION /\ nread p = 0 /\ align p = 1
    \/ 0 <= offset p /\ offset p + region_len p <= i64_max;
  ew_aligned : (align p | vec_ptr (buf p) + pad p) /\ (align p | region_len p) /\
               (align p | nread p) /\ (offset p <> CURRENT_POSITION -> (align p | offset p));
  ew_retries : 0 <= transient_retries p <= MAX_TRANSIENT_RETRIES
}.

(** The kernel's store of [bytes] at [addr], as far as it hits the block of [v]. *)
Definition vec_store (v : Vec) (addr : Z) (bytes : list Byte.byte) : Vec :=
  mkVec (vec_ptr v) (overlay (vec_data v) (addr - vec_ptr v) bytes).

(** The store becomes visible in an entry's buffer: where it lands there is
    decided by the address alone, which the kernel has from the submission. *)
Definition kernel_store (p : Pending) (addr : Z) (bytes : list Byte.byte) : Pending :=
  set_buf p (vec_store (buf p) addr bytes).

(** How many more completions a read can consume. *)
Definition read_measure (p : Pending) : nat :=
  Z.to_nat ((region_len p - nread p) * (MAX_TRANSIENT_RETRIES + 1) +
            (MAX_TRANSIENT_RETRIES - transient_retries p)).

(** ** Lemmas: the submission entry *)

(** Nothing wraps in the entry handed to the kernel. *)
Lemma read_sqe_exact p ud :
  entry_wf p ->
  read_sqe p ud =
    mkSqe (Read (raw_fd (file p)) (vec_ptr (buf p) + pad p + nread p)
             (region_len p - nread p) (offset p + nread p)) ud.
Proof.
  intros []. unfold read_sqe. unfold MAX_READ_LEN, i64_max, CURRENT_POSITION in *.
  rewrite !wrap_small.
  - f_equal. f_equal. lia.
  - unfold in_range, u64_max in *. lia.
  - unfold in_range, u32_max. lia.
Qed.

Lemma answers_read_bounds p id c :
  entry_wf p -> answers (read_sqe p id) c ->
  cqe_result c <= region_len p - nread p /\
  zlen (cqe_stored c) <= region_len p - nread p /\
  (0 <= cqe_result c -> zlen (cqe_stored c) = cqe_result c).
Proof.
  intros Hp [_ Ha]. rewrite read_sqe_exact in Ha by done. simpl in Ha. unfold zlen. tauto.
Qed.

(** ** Lemmas: the kernel's stores *)

Lemma zlen_kernel_store p addr bytes :
  zlen (vec_data (buf (kernel_store p addr bytes))) = zlen (vec_data (buf p)).
Proof. apply length_overlay. Qed.

Lemma kernel_store_wf p addr bytes : entry_wf p -> entry_wf (kernel_store p addr bytes).
Proof.
  intros Hp. pose proof (zlen_kernel_store p addr bytes) as Hl.
  destruct Hp. constructor; simpl in *; rewrite ?Hl; done.
Qed.

(** A completion of the entry's own submission stores behind what is read. *)
Lemma kernel_store_answer p id c :
  entry_wf p -> answers (read_sqe p id) c ->
  vec_data (buf (kernel_store p (cqe_addr c) (cqe_stored c))) =
  splice (vec_data (buf p)) (pad p + nread p) (cqe_stored c).
Proof.
  intros Hp Ha. destruct (answers_read_bounds _ _ _ Hp Ha) as (_ & Hl & _).
  destruct Ha as [_ Ha]. rewrite read_sqe_exact in Ha by done. simpl in Ha. destruct Ha as [-> _].
  simpl. replace (vec_ptr (buf p) + pad p + nread p - vec_ptr (buf p)) with (pad p + nread p) by lia.
  apply overlay_splice; destruct Hp; lia.
Qed.

(** ** Lemmas: [deliver] *)

(** [deliver] neither panics nor touches more than the buffer. *)
Lemma deliver_total p e :
  0 <= pad p -> 0 <= head p -> 0 <= want p ->
  pad p + head p + want p <= zlen (vec_data (buf p)) ->
  exists v bytes, deliver p e = Some (set_buf p v, bytes) /\
    (match done_tx p with None => true | Some _ => rx_closed e end = true ->
     v = buf p /\ bytes = []) /\
    (match done_tx p with None => true | Some _ => rx_closed e end = false ->
     bytes = slice (vec_data (buf p)) (pad p + head p)
               (Z.min (saturating_sub (nread p) (head p)) (want p))).
Proof.
  intros Hpad Hhead Hwant Hlen. unfold deliver.
  destruct (match done_tx p with None => true | Some _ => rx_closed e end).
  { exists (buf p), []. split_and!; [|done..]. by destruct p. }
  set (avail := Z.min _ _). assert (0 <= avail <= want p) by (unfold avail, saturating_sub; lia).
  destruct (Z.eqb_spec (pad p + head p) 0) as [Hz|Hz]; simpl.
  { eexists _, _. split_and!; [done..|]. intros _. unfold slice. by rewrite Hz. }
  destruct (Z.eqb_spec avail 0) as [Ha|Ha]; simpl.
  { eexists _, _. split_and!; [done..|]. intros _. unfold slice. by rewrite Ha. }
  destruct (copy_within_front_spec (vec_data (buf p)) (pad p + head p) avail)
    as (l' & -> & Hs & _); [lia..|]. simpl.
  eexists _, _. split_and!; [done..|]. intros _. rewrite <-Hs. done.
Qed.

Lemma deliver_wf p e :
  entry_wf p -> exists v bytes, deliver p e = Some (set_buf p v, bytes).
Proof.
  intros []. destruct (deliver_total p e) as (v & b & ? & _); eauto; lia.
Qed.

(** ** Lemmas: [reap_read] *)

(** The entry with the bytes of a completion counted. *)
Lemma set_progress_wf p n :
  entry_wf p -> nread p < n < region_len p -> offset p <> CURRENT_POSITION ->
  (align p | n) -> entry_wf (set_progress p n 0).
Proof.
  intros [] Hn Ho Ha. destruct ew_position0 as [[? _]|?]; [done|].
  constructor; simpl; unfold MAX_TRANSIENT_RETRIES; try (done || lia).
  tauto.
Qed.

Lemma set_progress_retry_wf p :
  entry_wf p -> transient_retries p < MAX_TRANSIENT_RETRIES ->
  entry_wf (set_progress p (nread p) (transient_retries p + 1)).
Proof. intros [] ?. constructor; simpl; (done || lia). Qed.

Lemma read_measure_progress p n :
  entry_wf p -> nread p < n < region_len p ->
  (read_measure (set_progress p n 0) < read_measure p)%nat.
Proof. intros [] ?. unfold read_measure, MAX_TRANSIENT_RETRIES in *. simpl. lia. Qed.

Lemma read_measure_retry p :
  entry_wf p -> transient_retries p < MAX_TRANSIENT_RETRIES ->
  (read_measure (set_progress p (nread p) (transient_retries p + 1)) < read_measure p)%nat.
Proof. intros [] ?. unfold read_measure, MAX_TRANSIENT_RETRIES in *. simpl. lia. Qed.

(** The entry's identity: what no completion changes. *)
Definition same_op (p p' : Pending) : Prop :=
  file p' = file p /\ done_tx p' = done_tx p /\ permit p' = permit p /\
  cancel_requested p' = cancel_requested p /\ offset p' = offset p /\ pad p' = pad p /\
  head p' = head p /\ want p' = want p /\ region_len p' = region_len p /\ align p' = align p.

(** Closes [same_op p p' /\ True] for a field update [p'] of [p]. *)
Ltac done_op := split; [unfold same_op; split_and!; reflexivity | exact I].

(** What one completion does to a well-formed entry: it never panics; it either
    finishes the read or resubmits the remainder, and then the entry stays
    well-formed, keeps its buffer, and is closer to its end. *)
Lemma reap_read_step p id res sd e :
  entry_wf p -> res <= region_len p - nread p ->
  exists p' step, reap_read p id res sd e = Some (p', step) /\ same_op p p' /\
    match step with
    | Finish _ => True
    | Resubmit s =>
        s = read_sqe p' id /\ entry_wf p' /\ buf p' = buf p /\
        (read_measure p' < read_measure p)%nat /\
        sd = false /\ cancel_requested p = false /\ offset p <> CURRENT_POSITION
    end.
Proof.
  intros Hp Hres. unfold reap_read.
  destruct (Z.ltb_spec res 0) as [Hneg|Hneg].
  - case_match eqn:Ht.
    2: { eexists _, _. split; [done|]. done_op. }
    apply andb_true_iff in Ht as [Ht _]. apply andb_true_iff in Ht as [_ Ho].
    bools. case_match eqn:Hstop.
    { eexists _, _. split; [done|]. done_op. }
    bools. case_match eqn:Hr.
    2: { eexists _, _. split; [done|]. done_op. }
    bools. eexists _, _. split; [done|]. split; [unfold same_op; by split_and!|].
    split_and!; auto using set_progress_retry_wf, read_measure_retry.
  - destruct (Z.eqb_spec res 0) as [->|Hpos].
    { destruct (deliver_wf p e Hp) as (v & b & ->). simpl.
      eexists _, _. split; [done|]. done_op. }
    pose proof (set_progress_wf p (nread p + res) Hp) as Hwf.
    pose proof (read_measure_progress p (nread p + res) Hp) as Hm.
    case_match eqn:Hfin.
    { destruct (deliver_total (set_progress p (nread p + res) 0) e) as (v & b & -> & _);
        [destruct Hp; simpl; lia..|]. simpl.
      eexists _, _. split; [done|]. done_op. }
    bools. simpl in *. case_match eqn:Hstop.
    { eexists _, _. split; [done|]. done_op. }
    bools. case_match eqn:Hal.
    + destruct Hp. unfold finish_direct_short_read.
      destruct (file_len e) as [flen|err]; [case_match|]; simpl;
        [eexists _, _; split; [done|]; done_op | | eexists _, _; split; [done|]; done_op].
      destruct (deliver_total (set_progress p (nread p + res) 0) e) as (v & b & -> & _);
        [simpl; lia..|]. simpl. eexists _, _. split; [done|]. done_op.
    + eexists _, _. split; [done|]. split; [unfold same_op; by split_and!|]. simpl.
      assert (Hdiv : (align p | nread p + res)).
      { bools. destruct Hal as [?|?]; bools.
        - replace (align p) with 1 by (destruct Hp; lia). apply Z.divide_1_l.
        - apply Z.mod_divide; [destruct Hp; lia | done]. }
      assert (nread p < nread p + res < region_len p) by lia.
      split_and!; auto.
Qed.

(** ** Lemmas: [prepare_read] *)

Lemma align_offset_spec addr a :
  0 < a -> 0 <= align_offset addr a < a /\ (a | addr + align_offset addr a).
Proof.
  intros Ha. unfold align_offset. pose proof (Z.mod_pos_bound (a - addr mod a) a Ha).
  split; [done|]. apply Z.mod_divide; [lia|].
  rewrite Z.add_mod_idemp_r by lia. rewrite <-Zplus_mod_idemp_l.
  replace (addr mod a + (a - addr mod a)) with a by lia. apply Z.mod_same. lia.
Qed.

(** A request [submit] let through becomes an entry: intake neither panics on
    its geometry nor rejects its buffer. *)
Lemma prepare_read_entry `{Target} addr f off n a ch pm :
  request_ok off n a -> 0 <= addr ->
  exists p ko hd rl, prepare_read addr f off n a ch pm = PrepEntry p (allocation_len rl a) /\
    aligned_geometry off n a = Some (ko, hd, rl) /\
    entry_wf p /\ file p = f /\ done_tx p = Some ch /\ permit p = pm /\
    offset p + head p = off /\ want p = n /\ nread p = 0 /\ align p = a /\
    cancel_requested p = false /\
    (offset p = CURRENT_POSITION <-> off = CURRENT_POSITION) /\
    vec_ptr (buf p) = addr /\ zlen (vec_data (buf p)) = allocation_len rl a.
Proof.
  intros (Ho & Hn & ko & hd & rl & Hg & Hcap & Hpos) Haddr.
  pose proof (aligned_geometry_valid _ _ _ _ Hg) as Hv.
  pose proof (valid_align_pos _ Hv) as Ha. pose proof MAX_READ_LEN_usize as Hmax.
  destruct (aligned_geometry_covers _ _ _ _ Ho Hn Hg) as [[Hko Hs Hh He Ht [Hd1 Hd2]] Hr].
  simpl in *. unfold in_range in *.
  destruct (align_offset_spec addr a) as [Hao Hdiv]; [lia|].
  assert (Hsmall : MAX_READ_LEN + MAX_READ_LEN - 1 <= u32_max) by done.
  assert (Hu : u32_max <= usize_max)
    by (destruct usize_max_ok as [-> | ->]; unfold u32_max, u64_max; lia).
  unfold prepare_read. rewrite Hg. unfold checked_add.
  rewrite (proj2 (Z.leb_le _ _)) by lia.
  assert (Hdata : zlen (repeat Byte.x00 (Z.to_nat (rl + (a - 1)))) = rl + (a - 1)).
  { unfold zlen. rewrite repeat_length. lia. }
  rewrite (proj2 (Z.eqb_neq _ _)) by lia. rewrite (proj2 (Z.leb_le _ _)) by lia.
  rewrite Hdata, (proj2 (Z.ltb_ge _ _)) by lia. simpl.
  assert (Hcur : ko = CURRENT_POSITION <-> off = CURRENT_POSITION).
  { unfold CURRENT_POSITION, u64_max, i64_max in *. destruct Hpos as [[-> ->]|?]; [|lia].
    rewrite aligned_geometry_buffered in Hg. injection Hg as <- _ _. done. }
  eexists _, ko, hd, rl. split; [unfold allocation_len; do 2 f_equal; lia|].
  split; [done|]. simpl. rewrite Hdata. unfold allocation_len.
  split_and!; try (done || lia); try apply Hcur.
  constructor; simpl; rewrite ?Hdata; unfold MAX_TRANSIENT_RETRIES; try (done || lia).
  split_and!; try done. apply Z.divide_0_r.
Qed.

#[export] Hint Resolve kernel_store_wf : uring.

(** ** Properties *)

(** The read submission entry of a pending read writes inside that entry's own buffer
    and nothing in it is truncated: the address range it gives the kernel lies in the
    buffer, the [u32] length and [u64] offset are the exact remainder of the region, and
    for an [O_DIRECT] read the address, file offset and length are all multiples of the
    block size. *)
Lemma read_sqe_in_buffer p ud fd addr n off :
  entry_wf p -> sqe_op (read_sqe p ud) = Read fd addr n off ->
  fd = raw_fd (file p) /\
  vec_ptr (buf p) <= addr /\ 0 <= n /\
  addr + n <= vec_ptr (buf p) + zlen (vec_data (buf p)) /\
  off = offset p + nread p /\ n = region_len p - nread p /\
  (offset p <> CURRENT_POSITION ->
     off + n <= i64_max /\ (align p | off) /\ (align p | addr) /\ (align p | n)).
Proof.
  intros Hp. rewrite read_sqe_exact by done. intros [= <- <- <- <-].
  destruct Hp as [Hv ? ? ? ? ? ? ? ? Hpos (Hd1 & Hd2 & Hd3 & Hd4) ?].
  split_and!; try lia. intros Ho.
  destruct Hpos as [[? _]|[? ?]]; [done|].
  split_and!; [lia | by apply Z.divide_add_r, Hd3; apply Hd4 | |].
  - apply Z.divide_add_r; done.
  - by apply Z.divide_sub_r.
Qed.

(** [C25] Every request that passed the checks of [submit] becomes a pending entry on the
    driver thread: the intake's [expect] on the geometry cannot panic, neither of its
    buffer-allocation errors can occur on a 32 or 64 bit target, and the buffer it
    allocates is exactly as long as what admission charged. *)
Theorem intake_accepts_validated `{Target} addr f off n a ch pm :
  request_ok off n a -> 0 <= addr ->
  exists p ko hd rl, prepare_read addr f off n a ch pm = PrepEntry p (allocation_len rl a) /\
    aligned_geometry off n a = Some (ko, hd, rl) /\ entry_wf p /\
    zlen (vec_data (buf p)) = allocation_len rl a /\ allocation_len rl a <= u32_max.
Proof.
  intros Hok Ha. destruct (prepare_read_entry addr f off n a ch pm Hok Ha)
    as (p & ko & hd & rl & Hp & Hg & Hwf & _ & _ & _ & _ & _ & _ & _ & _ & _ & _ & Hz).
  exists p, ko, hd, rl. split_and!; try done.
  destruct Hok as (_ & _ & ko' & hd' & rl' & Hg' & Hcap & _).
  pose proof (valid_align_pos _ (aligned_geometry_valid _ _ _ _ Hg)).
  rewrite Hg in Hg'. injection Hg' as <- <- <-.
  unfold allocation_len, u32_max, MAX_READ_LEN in *. lia.
Qed.

(** ** Witnesses *)

(** 1000 bytes at 4700 with 512-byte blocks, the allocator answering 1000. *)
Definition sample_prepared : prepared :=
  @prepare_read x86_64 1000 (mkFile 3) 4700 1000 512 7 (mkPermits None None).

Definition sample_pending : Pending :=
  match sample_prepared with
  | PrepEntry p _ => p
  | _ => mkPending empty_vec (mkFile 0) None 0 0 (mkPermits None None) 0 0 0 0 1 0 false
  end.

Lemma sample_request : @request_ok x86_64 4700 1000 512.
Proof.
  split; [split; [lia | by vm_compute]|]. split; [split; [lia | by vm_compute]|].
  exists 4608, 92, 1536. split; [reflexivity|]. split; [by vm_compute|].
  right. split; by vm_compute.
Qed.

Lemma sample_pending_wf : entry_wf sample_pending.
Proof.
  destruct (@prepare_read_entry x86_64 1000 (mkFile 3) 4700 1000 512 7 (mkPermits None None))
    as (p & ko & hd & rl & Hp & _ & Hwf & _); [apply sample_request | lia |].
  unfold sample_pending, sample_prepared. by rewrite Hp.
Qed.

Lemma read_sqe_in_buffer_witness :
  sqe_op (read_sqe sample_pending 7) = Read 3 1024 1536 4608 /\
  vec_ptr (buf sample_pending) <= 1024 /\ (align sample_pending | 1024).
Proof.
  assert (Heq : sqe_op (read_sqe sample_pending 7) = Read 3 1024 1536 4608)
    by (vm_compute; reflexivity).
  pose proof (read_sqe_in_buffer sample_pending 7 3 1024 1536 4608 sample_pending_wf Heq)
    as (_ & Hp & _ & _ & _ & _ & Hal).
  split; [exact Heq|]. split; [exact Hp|]. apply Hal. vm_compute. discriminate.
Defined.

Lemma intake_accepts_validated_witness :
  exists p ko hd rl, @prepare_read x86_64 1000 (mkFile 3) 4700 1000 512 7 (mkPermits None None) =
    PrepEntry p (allocation_len rl 512) /\
    @aligned_geometry x86_64 4700 1000 512 = Some (ko, hd, rl) /\ entry_wf p /\
    zlen (vec_data (buf p)) = allocation_len rl 512 /\ allocation_len rl 512 <= u32_max.
Proof.
  exact (@intake_accepts_validated x86_64 1000 (mkFile 3) 4700 1000 512 7 (mkPermits None None)
    sample_request ltac:(lia)).
Defined.
