(* ===== verification/ReadRun.v ===== *)
(** * One logical read, from its entry to its result

    The completions of one entry in order, each one first making the kernel's
    stores visible and then running [reap_read], until the read finishes: the
    short-read and transient-error loop of [src/src/driver.rs] seen from one
    operation. The specification is [pread] on the bytes of a file. *)

From S2P Require Import Prelude IoError Geometry Interfaces Pending.

(** One completion as the driver meets it: whether a [Msg::Cancel] arrived
    since the last one, the entry itself, whether the shard is shutting down,
    and what the driver sees of the receiver and the file. *)
Record Completion := mkCompletion {
  co_cancelled : bool;
  co_cqe : Cqe;
  co_shutting_down : bool;
  co_env : ReapEnv
}.

Inductive run_result :=
| Running (p : Pending)
| Finished (r : read_result)
| Panicked.

(** The entry just before [reap_read]. *)
Definition at_completion (p : Pending) (c : Completion) : Pending :=
  kernel_store (if co_cancelled c then set_cancel_requested p else p)
    (cqe_addr (co_cqe c)) (cqe_stored (co_cqe c)).

Definition reap_completion (p : Pending) (id : Z) (c : Completion) :=
  reap_read (at_completion p c) id (cqe_result (co_cqe c)) (co_shutting_down c) (co_env c).

Fixpoint run_read (p : Pending) (id : Z) (cs : list Completion) : run_result :=
  match cs with
  | [] => Running p
  | c :: cs =>
      match reap_completion p id c with
      | None => Panicked
      | Some (_, Finish r) => Finished r
      | Some (p', Resubmit _) => run_read p' id cs
      end
  end.

(** [pread(2)] on a file's bytes. *)
Definition pread (F : list Byte.byte) (off n : Z) : list Byte.byte := slice F off n.

(** A completion of [p]'s outstanding read, whatever it reads from. *)
Definition completion_answers (p : Pending) (id : Z) (c : Completion) : Prop :=
  answers (read_sqe p id) (co_cqe c).

(** A completion of the submission [s] of an entry, by a kernel whose
    descriptors are regular files: its bytes are those [s] asks for, and
    [metadata] reports the length of the entry's file. *)
Definition completion_of (contents : Z -> list Byte.byte) (p : Pending) (s : Sqe)
    (c : Completion) : Prop :=
  reads_content contents s (co_cqe c) /\
  (forall n, file_len (co_env c) = Ok n -> n = zlen (contents (raw_fd (file p)))).

(** Each completion of a run answers the submission [s] that is outstanding
    then, the first one or what the completion before it resubmitted, and
    satisfies [P] of the entry and the submission. *)
Fixpoint along_from (P : Pending -> Sqe -> Completion -> Prop) (p : Pending) (s : Sqe) (id : Z)
    (cs : list Completion) : Prop :=
  match cs with
  | [] => True
  | c :: cs =>
      answers s (co_cqe c) /\ P p s c /\
      match reap_completion p id c with
      | Some (p', Resubmit s') => along_from P p' s' id cs
      | _ => True
      end
  end.

Definition along P (p : Pending) (id : Z) : list Completion -> Prop :=
  along_from P p (read_sqe p id) id.

(** What is read so far is the file's. *)
Definition content (F : list Byte.byte) (p : Pending) : Prop :=
  slice (vec_data (buf p)) (pad p) (nread p) = slice F (offset p) (nread p) /\
  (0 < nread p -> offset p + nread p <= zlen F).

(** ** Lemmas *)

Lemma set_cancel_requested_wf p : entry_wf p -> entry_wf (set_cancel_requested p).
Proof. intros []. by constructor. Qed.

Lemma at_completion_wf p id c :
  entry_wf p -> completion_answers p id c ->
  entry_wf (at_completion p c) /\
  cqe_result (co_cqe c) <= region_len p - nread p /\
  (0 <= cqe_result (co_cqe c) -> zlen (cqe_stored (co_cqe c)) = cqe_result (co_cqe c)).
Proof.
  intros Hp Ha. pose proof (answers_read_bounds _ _ _ Hp Ha) as (? & ? & ?).
  split_and!; [|done..]. unfold at_completion. destruct (co_cancelled c);
    apply kernel_store_wf; auto using set_cancel_requested_wf.
Qed.

Lemma at_completion_data p id c :
  entry_wf p -> completion_answers p id c ->
  vec_data (buf (at_completion p c)) =
  splice (vec_data (buf p)) (pad p + nread p) (cqe_stored (co_cqe c)).
Proof.
  intros Hp Ha. rewrite <-(kernel_store_answer p id) by done.
  unfold at_completion. by destruct (co_cancelled c).
Qed.

Lemma at_completion_fields p c :
  let q := at_completion p c in
  file q = file p /\ done_tx q = done_tx p /\ permit q = permit p /\ offset q = offset p /\
  pad q = pad p /\ head q = head p /\ want q = want p /\ region_len q = region_len p /\
  align q = align p /\ nread q = nread p /\ vec_ptr (buf q) = vec_ptr (buf p) /\
  transient_retries q = transient_retries p.
Proof. unfold at_completion. by destruct (co_cancelled c). Qed.

Lemma at_completion_measure p c : read_measure (at_completion p c) = read_measure p.
Proof.
  destruct (at_completion_fields p c) as (_&_&_&_&_&_&_&Hr&_&Hn&_&Ht).
  unfold read_measure. by rewrite Hr, Hn, Ht.
Qed.

(** One completion of a well-formed entry: no panic, and a resubmission is
    closer to the end. *)
Lemma reap_completion_step p id c :
  entry_wf p -> completion_answers p id c ->
  exists p' step, reap_completion p id c = Some (p', step) /\
    match step with
    | Finish _ => True
    | Resubmit s => s = read_sqe p' id /\ entry_wf p' /\
                    (read_measure p' < read_measure p)%nat /\
                    same_op (at_completion p c) p' /\ buf p' = buf (at_completion p c) /\
                    offset p <> CURRENT_POSITION
    end.
Proof.
  intros Hp Ha. destruct (at_completion_wf _ _ _ Hp Ha) as (Hq & Hres & _).
  destruct (at_completion_fields p c) as (_&_&_&Ho&_&_&_&Hr&_&Hn&_).
  destruct (reap_read_step (at_completion p c) id (cqe_result (co_cqe c))
    (co_shutting_down c) (co_env c) Hq) as (p' & step & Heq & Hsame & Hstep);
    [rewrite Hr, Hn; done|].
  exists p', step. split; [done|]. destruct step; [done|].
  destruct Hstep as (Hs & Hwf & Hb & Hm & _ & _ & Hpos).
  rewrite at_completion_measure in Hm. rewrite Ho in Hpos. by split_and!.
Qed.

(** What the kernel reads for an entry's submission is the file's, from where
    the entry goes on. *)
Lemma reads_content_entry contents p id c :
  entry_wf p -> offset p <> CURRENT_POSITION -> reads_content contents (read_sqe p id) c ->
  let F := contents (raw_fd (file p)) in
  (0 < cqe_result c -> cqe_stored c = slice F (offset p + nread p) (cqe_result c)) /\
  (cqe_result c = 0 -> nread p = region_len p \/ zlen F <= offset p + nread p).
Proof.
  intros Hp Ho Hk. rewrite read_sqe_exact in Hk by done. simpl in Hk.
  assert (0 <= offset p + nread p /\ offset p + nread p <> CURRENT_POSITION) as [Hlo Hne].
  { destruct (ew_position _ Hp) as [[? _]|?]; [done|]. destruct Hp.
    unfold CURRENT_POSITION, i64_max, u64_max in *. lia. }
  destruct (Hk Hlo Hne) as [Hst Hz]. split; [done|].
  intros Hres. destruct (Hz Hres); [left; lia | by right].
Qed.

(** The kernel's stores extend the part of the region that is read. *)
Lemma content_at_completion F p id c :
  entry_wf p -> completion_answers p id c ->
  (0 < cqe_result (co_cqe c) ->
   cqe_stored (co_cqe c) = slice F (offset p + nread p) (cqe_result (co_cqe c))) ->
  content F p -> 0 < cqe_result (co_cqe c) ->
  content F (set_progress (at_completion p c) (nread p + cqe_result (co_cqe c)) 0).
Proof.
  intros Hp Ha Hst [Hc Hle] Hpos.
  destruct (answers_read_bounds _ _ _ Hp Ha) as (Hr & _ & Hl).
  specialize (Hl ltac:(lia)). specialize (Hst Hpos).
  destruct (at_completion_fields p c) as (_&_&_&Ho&Hpad&_&_&_&_&_&_).
  pose proof (at_completion_data p id c Hp Ha) as Hd.
  assert (0 <= offset p) by (destruct (ew_position _ Hp) as [(-> & _)|]; [done|lia]).
  destruct Hp. unfold content. cbn [set_progress buf pad nread offset].
  rewrite Ho, Hpad, Hd.
  rewrite !(slice_app _ _ (nread p)) by lia. rewrite slice_splice_before by lia.
  rewrite Hc, <-Hl at 1. rewrite slice_splice_eq by lia. rewrite Hst. split; [done|].
  intros _. rewrite Hst, zlen_slice in Hl by lia. lia.
Qed.

(** A completion that stores nothing the entry counts keeps what is read. *)
Lemma content_at_completion_same F p id c :
  entry_wf p -> completion_answers p id c -> content F p -> content F (at_completion p c).
Proof.
  intros Hp Ha [Hc Hle]. destruct (answers_read_bounds _ _ _ Hp Ha) as (_ & Hl & _).
  destruct (at_completion_fields p c) as (_&_&_&Ho&Hpad&_&_&_&_&Hn&_).
  pose proof (at_completion_data p id c Hp Ha) as Hd.
  destruct Hp. unfold content. rewrite Ho, Hpad, Hd, Hn.
  rewrite slice_splice_before by lia. done.
Qed.

(** [deliver] gives the file's bytes from the logical start, as many as were
    read and asked for. *)
Lemma deliver_content F p e v bytes :
  0 <= pad p -> 0 <= head p -> 0 <= want p -> 0 <= nread p -> 0 <= offset p ->
  pad p + head p + want p <= zlen (vec_data (buf p)) ->
  content F p -> is_Some (done_tx p) -> rx_closed e = false ->
  deliver p e = Some (v, bytes) ->
  bytes = slice F (offset p + head p) (Z.min (saturating_sub (nread p) (head p)) (want p)).
Proof.
  intros Hpad Hhead Hwant Hn Ho Hlen [Hc Hle] [d Hd] He Hdel.
  destruct (deliver_total p e) as (v' & b & Hdel' & _ & Hval); [done..|].
  rewrite Hdel in Hdel'. injection Hdel' as _ <-.
  rewrite Hval by by rewrite Hd. clear Hval Hdel. unfold saturating_sub.
  set (avail := Z.min _ _).
  destruct (decide (avail = 0)) as [->|H0]; [by rewrite !slice_0|].
  assert (avail + head p <= nread p) by (unfold avail in *; lia).
  rewrite <-(slice_slice _ (pad p) (nread p)) by lia. rewrite Hc.
  by rewrite slice_slice by lia.
Qed.

(** At the end of the logical range or of the file that is [pread]. *)
Lemma deliver_pread F p e v bytes :
  0 <= pad p -> 0 <= head p -> 0 <= want p -> 0 <= nread p -> 0 <= offset p ->
  pad p + head p + want p <= zlen (vec_data (buf p)) ->
  content F p -> is_Some (done_tx p) -> rx_closed e = false ->
  head p + want p <= nread p \/ zlen F <= offset p + nread p ->
  deliver p e = Some (v, bytes) ->
  bytes = pread F (offset p + head p) (want p).
Proof.
  intros Hpad Hhead Hwant Hn Ho Hlen Hc Hd He Hend Hdel.
  rewrite (deliver_content F p e v bytes) by done. unfold pread, saturating_sub.
  destruct (Z.min_spec (Z.max 0 (nread p - head p)) (want p)) as [[? ->]|[_ ->]]; [|done].
  destruct Hend as [Hend|Hend]; [lia|]. apply slice_past_end; lia.
Qed.

(** In any case it is the beginning of [pread]. *)
Lemma deliver_prefix F p e v bytes :
  0 <= pad p -> 0 <= head p -> 0 <= want p -> 0 <= nread p -> 0 <= offset p ->
  pad p + head p + want p <= zlen (vec_data (buf p)) ->
  content F p -> is_Some (done_tx p) -> rx_closed e = false ->
  deliver p e = Some (v, bytes) ->
  bytes `prefix_of` pread F (offset p + head p) (want p).
Proof.
  intros. rewrite (deliver_content F p e v bytes) by done. unfold pread, slice.
  etrans; [|apply (prefix_take _ (Z.to_nat (Z.min (saturating_sub (nread p) (head p)) (want p))))].
  rewrite take_take. by replace (_ `min` _)%nat with
    (Z.to_nat (Z.min (saturating_sub (nread p) (head p)) (want p))) by lia.
Qed.

(** One completion of a read of [F]: a success is the beginning of [pread], and
    all of it for a buffered read or when [metadata] reports the length of
    [F]; a resubmission keeps the content. *)
Lemma reap_read_content F q id res sd e p' step :
  entry_wf q -> offset q <> CURRENT_POSITION -> is_Some (done_tx q) ->
  res <= region_len q - nread q ->
  content F q -> (0 < res -> content F (set_progress q (nread q + res) 0)) ->
  (res = 0 -> nread q = region_len q \/ zlen F <= offset q + nread q) ->
  reap_read q id res sd e = Some (p', step) ->
  match step with
  | Finish (Ok v) =>
      rx_closed e = false ->
      v `prefix_of` pread F (offset q + head q) (want q) /\
      (align q = 1 \/ (forall n, file_len e = Ok n -> n = zlen F) ->
       v = pread F (offset q + head q) (want q))
  | Finish (Err _) => True
  | Resubmit _ => content F p'
  end.
Proof.
  intros Hq Ho Hd Hres Hc Hc' Hz. unfold reap_read.
  assert (0 <= offset q) by (destruct (ew_position _ Hq) as [[? _]|]; [done|lia]).
  pose proof Hq as Hq'. destruct Hq'.
  destruct (Z.ltb_spec res 0) as [Hneg|Hneg].
  { repeat case_match; intros [= <- <-]; (done || apply Hc). }
  assert (Hall : forall v, v = pread F (offset q + head q) (want q) ->
    v `prefix_of` pread F (offset q + head q) (want q) /\
    (align q = 1 \/ (forall n, file_len e = Ok n -> n = zlen F) ->
     v = pread F (offset q + head q) (want q))) by by intros v ->.
  destruct (Z.eqb_spec res 0) as [->|Hpos].
  { destruct (deliver q e) as [[v bytes]|] eqn:Hdel; [|done]. intros [= <- <-] He.
    apply Hall. eapply deliver_pread; eauto; [lia..|].
    destruct (Hz eq_refl) as [?|?]; [left; lia | by right]. }
  specialize (Hc' ltac:(lia)). set (q' := set_progress q (nread q + res) 0) in *.
  assert (Hend : head q + want q <= nread q + res \/ zlen F <= offset q + (nread q + res) ->
     forall v bytes, deliver q' e = Some (v, bytes) -> rx_closed e = false ->
     bytes = pread F (offset q + head q) (want q)).
  { intros Hcov v bytes Hdel He. apply (deliver_pread F q' e v bytes); simpl; eauto; lia. }
  case_match eqn:Hfin.
  { destruct (deliver q' e) as [[v bytes]|] eqn:Hdel; [|done]. intros [= <- <-] He.
    apply Hall. eapply Hend; [|done..]. bools. simpl in Hfin. destruct Hfin as [Hfin|Hfin]; bools; [|lia].
    destruct Hfin as [Hfin|Hfin]; bools; [done|lia]. }
  case_match; [by intros [= <- <-]|]. case_match eqn:Hal.
  2: { intros [= <- <-]. apply Hc'. }
  unfold finish_direct_short_read. destruct (file_len e) as [flen|err] eqn:Hfl.
  2: { by intros [= <- <-]. }
  case_match eqn:Hlt; [by intros [= <- <-]|]. bools. simpl in *.
  destruct (deliver q' e) as [[v bytes]|] eqn:Hdel; [|done]. intros [= <- <-] He.
  split; [apply (deliver_prefix F q' e v bytes); simpl; eauto; lia|].
  intros [Hone|Hf]; [lia|]. rewrite (Hf _ eq_refl) in Hlt.
  eapply Hend; [by right | done..].
Qed.

(** What a run against files asks of each completion: its bytes are the
    file's and the caller still listens. *)
Definition from_file (contents : Z -> list Byte.byte) (p : Pending) (s : Sqe) (c : Completion) :
    Prop :=
  completion_of contents p s c /\ rx_closed (co_env c) = false.

Lemma run_read_pread contents p id cs v :
  let F := contents (raw_fd (file p)) in
  entry_wf p -> offset p <> CURRENT_POSITION -> is_Some (done_tx p) -> content F p ->
  along (from_file contents) p id cs -> run_read p id cs = Finished (Ok v) ->
  v = pread F (offset p + head p) (want p).
Proof.
  cbv zeta. revert p. induction cs as [|c cs IH]; intros p Hp Ho Hd Hc; [done|].
  intros (Ha & [[Hof Hf] He] & Hrest) Hrun. simpl in Hrun. set (F := contents _) in *.
  destruct (reads_content_entry contents p id (co_cqe c) Hp Ho Hof) as [Hst Hz].
  destruct (reap_completion_step p id c Hp Ha) as (p' & step & Heq & Hstep).
  rewrite Heq in Hrest, Hrun. pose proof (at_completion_fields p c) as Hfields. cbv zeta in Hfields.
  destruct (at_completion_wf _ _ _ Hp Ha) as (Hq & Hres & _).
  destruct Hfields as (Hfi & Hdt & _ & Hoff & _ & Hh & Hw & Hr & _ & Hn & _ & _).
  pose proof (reap_read_content F (at_completion p c) id
    (cqe_result (co_cqe c)) (co_shutting_down c) (co_env c) p' step Hq) as Hcont.
  rewrite Hdt, Hoff, Hh, Hw, Hr, Hn in Hcont.
  specialize (Hcont Ho Hd Hres (content_at_completion_same _ _ _ _ Hp Ha Hc)
    (fun Hpos => content_at_completion F p id c Hp Ha Hst Hc Hpos) Hz Heq).
  destruct step as [r|s].
  - injection Hrun as ->. apply Hcont; [done|]. by right.
  - destruct Hstep as (-> & Hwf & _ & (Hsf & Hsd & _ & _ & Hso & _ & Hsh & Hsw & _) & _ & _).
    assert (HF : F = contents (raw_fd (file p'))) by (unfold F; by rewrite Hsf, Hfi).
    rewrite <-Hoff, <-Hh, <-Hw, <-Hso, <-Hsh, <-Hsw, HF. rewrite HF in Hcont. apply IH; try done.
    + by rewrite Hso, Hoff.
    + by rewrite Hsd, Hdt.
Qed.

(** A resubmission leaves something to read. *)
Lemma reap_read_unfinished p id res sd e p' s :
  entry_wf p -> reap_read p id res sd e = Some (p', Resubmit s) -> nread p' < region_len p'.
Proof.
  intros Hp. unfold reap_read, finish_direct_short_read.
  repeat (case_match; try done); intros Hs; simplify_option_eq; bools; simpl in *;
    try lia; by destruct_and?; case_match.
Qed.

(** No run panics, and a run longer than the measure of its entry is over. *)
Lemma run_read_total P p id cs :
  entry_wf p -> along P p id cs ->
  match run_read p id cs with
  | Running p' => entry_wf p' /\ (length cs + read_measure p' <= read_measure p)%nat /\
      (cs <> [] -> nread p' < region_len p')
  | Finished _ => True
  | Panicked => False
  end.
Proof.
  revert p. induction cs as [|c cs IH]; intros p Hp; simpl; [intros _; split_and!; (done || lia)|].
  intros (Ha & _ & Hrest).
  destruct (reap_completion_step p id c Hp Ha) as (p' & step & Heq & Hstep).
  rewrite Heq in *. destruct step as [r|s]; [done|].
  pose proof (reap_read_unfinished _ _ _ _ _ _ _ (proj1 (at_completion_wf _ _ _ Hp Ha)) Heq) as Hlt.
  destruct Hstep as (-> & Hwf & Hm & _). specialize (IH p' Hwf Hrest).
  destruct cs as [|c' cs]; [simpl; split_and!; [done|lia|done]|].
  destruct (run_read p' id (c' :: cs)); [|done..]. destruct IH as (? & ? & Hx).
  split_and!; [done|simpl in *; lia|]. intros _. by apply Hx.
Qed.

(** A prepared entry has read nothing. *)
Lemma content_prepared F p : nread p = 0 -> content F p.
Proof. intros Hn. unfold content. rewrite Hn. by split. Qed.

(** The outcome of a completion that stops the read, branch by branch. *)
Definition stopped_outcome (p : Pending) (res : Z) (r : read_result) : Prop :=
  let positioned := negb (offset p =? CURRENT_POSITION) in
  if res <? 0 then
    r = Err (Os (if positioned && (nread p <? region_len p) &&
                    ((- res =? EINTR) || (- res =? EAGAIN))
                 then ECANCELED else - res))
  else if (res =? 0) || negb positioned || (head p + want p <=? nread p + res)
  then is_ok r = true
  else r = Err (Os ECANCELED).

Lemma reap_read_stopped p id res sd e p' step :
  entry_wf p -> res <= region_len p - nread p ->
  cancel_requested p || sd = true ->
  reap_read p id res sd e = Some (p', step) ->
  exists r, step = Finish r /\ stopped_outcome p res r.
Proof.
  intros Hp Hres Hstop. unfold reap_read, stopped_outcome. rewrite Hstop.
  destruct (Z.ltb_spec res 0) as [Hneg|Hneg].
  { destruct (offset p =? CURRENT_POSITION), (nread p <? region_len p),
      ((- res =? EINTR) || (- res =? EAGAIN)); simpl; intros [= <- <-]; eauto. }
  destruct (Z.eqb_spec res 0) as [->|Hpos].
  { destruct (deliver p e) as [[v b]|]; [|done]. intros [= <- <-]. by eexists. }
  cbn [set_progress offset head want nread region_len align]. rewrite negb_involutive.
  assert (Hrl : (region_len p <=? nread p + res) = true ->
                (head p + want p <=? nread p + res) = true).
  { intros Hl. apply Z.leb_le in Hl. apply Z.leb_le. destruct Hp. lia. }
  destruct ((offset p =? CURRENT_POSITION) || (head p + want p <=? nread p + res))
    eqn:Hcov; simpl.
  { destruct (deliver _ e) as [[v b]|]; [|done]. intros [= <- <-].
    destruct (offset p =? CURRENT_POSITION); simpl in *; rewrite ?Hcov; by eexists. }
  destruct (region_len p <=? nread p + res); simpl.
  { apply orb_false_iff in Hcov as [_ Hcov]. rewrite Hrl in Hcov by done. done. }
  apply orb_false_iff in Hcov as [Ho Hcov]. rewrite Ho, Hcov. simpl.
  intros [= <- <-]. eauto.
Qed.

Lemma stream_reap p id res sd e :
  entry_wf p -> offset p = CURRENT_POSITION -> is_Some (done_tx p) -> rx_closed e = false ->
  res <= region_len p -> zlen (vec_data (buf p)) = region_len p ->
  exists p', reap_read p id res sd e =
    Some (p', Finish (if res <? 0 then Err (Os (- res))
                      else Ok (slice (vec_data (buf p)) 0 res))).
Proof.
  intros Hp Ho [d Hd] He Hres Hz.
  assert (Hs : nread p = 0 /\ pad p = 0 /\ head p = 0 /\ want p = region_len p).
  { destruct (ew_position _ Hp) as [(_ & Hn & Ha)|(_ & Hoff)].
    - destruct Hp. lia.
    - destruct Hp. rewrite Ho in Hoff. unfold CURRENT_POSITION, u64_max, i64_max in Hoff. lia. }
  destruct Hs as (Hn & Hpad & Hh & Hw). unfold reap_read. rewrite Ho, Z.eqb_refl.
  destruct (Z.ltb_spec res 0) as [Hneg|Hneg]; [rewrite andb_false_r; eauto|].
  destruct (Z.eqb_spec res 0) as [->|Hpos].
  - destruct (deliver_total p e) as (v & b & -> & _ & Hb); [destruct Hp; lia..|].
    simpl. eexists. do 3 f_equal. rewrite Hb by by rewrite Hd.
    rewrite Hpad, Hh, Hn. unfold saturating_sub.
    rewrite Z.min_l by (destruct Hp; lia). done.
  - cbn [set_progress offset]. rewrite Ho, Z.eqb_refl. simpl.
    destruct (deliver_total (set_progress p (nread p + res) 0) e) as (v & b & -> & _ & Hb);
      [destruct Hp; simpl; lia..|].
    simpl. eexists. do 3 f_equal. rewrite Hb by (simpl; by rewrite Hd). simpl.
    rewrite Hpad, Hh, Hn. unfold saturating_sub.
    rewrite Z.min_l, Z.max_r by lia. by replace (0 + res - 0) with res by lia.
Qed.

(** Where the error of a failed read comes from. *)
Definition error_of (p : Pending) (cs : list Completion) (err : IoError) : Prop :=
  (err = Os ECANCELED /\
     (cancel_requested p = true \/
      Exists (fun c => co_cancelled c = true \/ co_shutting_down c = true) cs))
  \/ Exists (fun c => cqe_result (co_cqe c) < 0 /\ err = Os (- cqe_result (co_cqe c))) cs
  \/ (1 < align p /\
      (err = other "io_uring O_DIRECT: non-block-aligned short read before EOF"
       \/ Exists (fun c => file_len (co_env c) = Err err) cs)).

Lemma reap_read_error q id res sd e p' err :
  reap_read q id res sd e = Some (p', Finish (Err err)) ->
  (err = Os ECANCELED /\ (cancel_requested q = true \/ sd = true)) \/
  (res < 0 /\ err = Os (- res)) \/
  (1 < align q /\ (err = other "io_uring O_DIRECT: non-block-aligned short read before EOF"
                   \/ file_len e = Err err)).
Proof.
  unfold reap_read. destruct (Z.ltb_spec res 0) as [Hneg|Hneg].
  { repeat case_match; intros [= <- <-]; bools; eauto 6. }
  destruct (Z.eqb_spec res 0) as [->|Hpos].
  { destruct (deliver q e) as [[v b]|]; [|done]. by intros [= <- <-]. }
  case_match. { destruct (deliver _ e) as [[v b]|]; [|done]. by intros [= <- <-]. }
  case_match eqn:Hs. { intros [= <- <-]. bools. eauto. }
  case_match eqn:Hal; [|done]. simpl in Hal. bools. unfold finish_direct_short_read.
  destruct (file_len e) as [n|err'] eqn:Hf.
  - case_match; [intros [= <- <-]; eauto 6|].
    destruct (deliver _ e) as [[v b]|]; [|done]. by intros [= <- <-].
  - intros [= <- <-]. eauto 6.
Qed.

Lemma run_read_error P p id cs err :
  entry_wf p -> along P p id cs -> run_read p id cs = Finished (Err err) ->
  error_of p cs err.
Proof.
  revert p. induction cs as [|c cs IH]; intros p Hp; [done|].
  intros (Ha & _ & Hrest) Hrun. simpl in Hrun.
  destruct (reap_completion_step p id c Hp Ha) as (p' & step & Heq & Hstep).
  rewrite Heq in *. unfold error_of. destruct step as [r|s].
  - injection Hrun as ->. apply reap_read_error in Heq.
    destruct (at_completion_fields p c) as (_ & _ & _ & _ & _ & _ & _ & _ & Hal & _).
    rewrite Hal in Heq. destruct Heq as [[-> Hc]|[[? ->]|[? [->|?]]]].
    + left. split; [done|]. unfold at_completion in Hc. simpl in Hc.
      destruct (co_cancelled c) eqn:Hcc; [right; by constructor; left|].
      destruct Hc as [Hc|Hc]; [by left | right; constructor; by right].
    + right. left. by constructor.
    + right. right. auto.
    + right. right. auto using Exists_cons_hd.
  - destruct Hstep as (-> & Hwf & _ & (_ & _ & _ & Hcr & _ & _ & _ & _ & _ & Hal) & _ & _).
    destruct (at_completion_fields p c) as (_ & _ & _ & _ & _ & _ & _ & _ & Hal' & _).
    specialize (IH p' Hwf Hrest Hrun). unfold error_of in IH.
    rewrite Hal, Hal', Hcr in IH. unfold at_completion in IH. simpl in IH.
    destruct IH as [[-> Hc]|[Hc|[? Hc]]].
    + left. split; [done|]. destruct (co_cancelled c) eqn:Hcc.
      { right. constructor. by left. }
      destruct Hc as [Hc|Hc]; [by left | right; by apply Exists_cons_tl].
    + right. left. by apply Exists_cons_tl.
    + right. right. split; [done|]. destruct Hc; auto using Exists_cons_tl.
Qed.

(** ** Properties *)

(** [C6] Positioned reads are [pread]: the kernel does what each submission says - it reads
    the file of its descriptor at its offset and stores at its address, up to its length -
    and answers with whatever sequence of short reads, transient errors and O_DIRECT tails;
    then a read that succeeds with its caller listening returns exactly the bytes [pread]
    returns for the logical range of its file, at any alignment - never padding, never a
    prefix short of the end of the file. *)
Theorem read_at_refines_pread `{Target} contents addr f off n a ch pm p cap id cs v :
  request_ok off n a -> off <> CURRENT_POSITION -> 0 <= addr ->
  prepare_read addr f off n a ch pm = PrepEntry p cap ->
  along (from_file contents) p id cs ->
  run_read p id cs = Finished (Ok v) ->
  v = pread (contents (raw_fd f)) off n.
Proof.
  intros Hok Hoff Ha Hprep Hcs Hrun.
  destruct (prepare_read_entry addr f off n a ch pm Hok Ha)
    as (p' & ko & hd & rl & Hp & _ & Hwf & Hf & Hd & _ & Ho & Hw & Hn & _ & _ & Hcur & _).
  rewrite Hprep in Hp. injection Hp as -> _. rewrite <-Ho, <-Hw, <-Hf.
  eapply run_read_pread; eauto using content_prepared. by intros ?%Hcur.
Qed.

(** [C12] A read terminates and never panics the driver: once its entry is prepared, after
    at most [17 * region_len + 16] completions - each a legal answer to the entry's
    outstanding submission - it has finished with a result. *)
Theorem read_finishes `{Target} addr f off n a ch pm p cap id cs :
  request_ok off n a -> 0 <= addr ->
  prepare_read addr f off n a ch pm = PrepEntry p cap ->
  along (fun _ _ _ => True) p id cs ->
  17 * region_len p + 16 <= zlen cs ->
  exists r, run_read p id cs = Finished r.
Proof.
  intros Hok Ha Hprep Hcs Hlen.
  destruct (prepare_read_entry addr f off n a ch pm Hok Ha)
    as (p' & ko & hd & rl & Hp & _ & Hwf & _ & _ & _ & _ & _ & Hn & _).
  rewrite Hprep in Hp. injection Hp as -> _.
  destruct cs as [|c cs]; [destruct Hwf; unfold zlen in Hlen; cbn [length] in Hlen; lia|].
  pose proof (run_read_total _ p' id _ Hwf Hcs) as Ht.
  destruct (run_read p' id (c :: cs)); [|eauto|done]. destruct Ht as (Hwf' & Hm & Hlt).
  specialize (Hlt ltac:(done)). unfold read_measure, MAX_TRANSIENT_RETRIES in Hm. rewrite Hn in Hm.
  pose proof (ew_retries _ Hwf). pose proof (ew_retries _ Hwf'). pose proof (ew_nread _ Hwf).
  unfold MAX_TRANSIENT_RETRIES, zlen in *. lia.
Qed.

(** [C23] Every error that the completions of an accepted read give its caller has a cause: [ECANCELED] only after an explicit cancel
    or a shutdown, a kernel errno only if a completion carried it, and the two direct-I/O
    errors (a misaligned short read before the end of the file, a failed metadata lookup)
    only for an aligned read. *)
Theorem read_errors_have_a_cause `{Target} addr f off n a ch pm p cap id cs err :
  request_ok off n a -> 0 <= addr ->
  prepare_read addr f off n a ch pm = PrepEntry p cap ->
  along (fun _ _ _ => True) p id cs ->
  run_read p id cs = Finished (Err err) ->
  (err = Os ECANCELED /\
     Exists (fun c => co_cancelled c = true \/ co_shutting_down c = true) cs)
  \/ Exists (fun c => cqe_result (co_cqe c) < 0 /\ err = Os (- cqe_result (co_cqe c))) cs
  \/ (1 < a /\
      (err = other "io_uring O_DIRECT: non-block-aligned short read before EOF"
       \/ Exists (fun c => file_len (co_env c) = Err err) cs)).
Proof.
  intros Hok Ha Hprep Hcs Hrun.
  destruct (prepare_read_entry addr f off n a ch pm Hok Ha)
    as (p' & ko & hd & rl & Hp & _ & Hwf & _ & _ & _ & _ & _ & _ & Hal & Hcr & _).
  rewrite Hprep in Hp. injection Hp as -> _.
  apply (run_read_error _ _ _ _ _ Hwf Hcs) in Hrun. unfold error_of in Hrun.
  rewrite Hal, Hcr in Hrun.
  destruct Hrun as [[? [?|?]]|[?|?]]; (done || auto).
Qed.

(** [C24] A stream read ([read_current]) is one [read(2)]: its first completion ends it,
    with exactly the bytes the kernel stored or the kernel's errno, no matter whether a
    cancel or a shutdown raced with it; it is never resubmitted. *)
Theorem stream_read_is_one_read `{Target} addr f n ch pm p cap id c cs :
  request_ok CURRENT_POSITION n 1 -> 0 <= addr ->
  prepare_read addr f CURRENT_POSITION n 1 ch pm = PrepEntry p cap ->
  completion_answers p id c -> rx_closed (co_env c) = false ->
  run_read p id (c :: cs) =
    Finished (if cqe_result (co_cqe c) <? 0 then Err (Os (- cqe_result (co_cqe c)))
              else Ok (cqe_stored (co_cqe c))).
Proof.
  intros Hok Ha Hprep Hans He.
  destruct (prepare_read_entry addr f CURRENT_POSITION n 1 ch pm Hok Ha)
    as (p' & ko & hd & rl & Hp & Hg & Hwf & _ & Hd & _ & _ & Hw & Hn & Hal & _ & Hcur & _ & Hz).
  rewrite Hprep in Hp. injection Hp as -> _.
  rewrite aligned_geometry_buffered in Hg. injection Hg as <- <- <-.
  unfold allocation_len in Hz. replace (n + 1 - 1) with n in Hz by lia.
  destruct (at_completion_wf _ _ _ Hwf Hans) as (Hq & Hres & Hst).
  destruct (at_completion_fields p' c) as (_ & Hd' & _ & Ho' & Hpad' & _ & _ & Hr' & _ & Hn' & _).
  assert (Hgeom : pad p' = 0 /\ region_len p' = n) by (destruct Hwf; lia).
  destruct Hgeom as [Hpad Hrl].
  pose proof (at_completion_data p' id c Hwf Hans) as Hdata.
  pose proof (answers_read_bounds _ _ _ Hwf Hans) as (_ & Hstl & _).
  destruct (stream_reap (at_completion p' c) id (cqe_result (co_cqe c))
    (co_shutting_down c) (co_env c) Hq) as [q Heq].
  - rewrite Ho'. by apply Hcur.
  - by rewrite Hd', Hd.
  - done.
  - rewrite Hr', Hrl. lia.
  - rewrite Hdata, length_splice, Hr'; destruct Hwf; lia.
  - simpl. unfold reap_completion. rewrite Heq.
    destruct (Z.ltb_spec (cqe_result (co_cqe c)) 0) as [|Hpos]; [done|].
    specialize (Hst Hpos). rewrite Hdata, Hpad, Hn.
    rewrite <-Hst, slice_splice_eq by (unfold zlen in *; lia). done.
Qed.

(** [C22] Cancellation only stops continuation. When a cancel or a shutdown has been
    recorded, a completion always ends the read; it still succeeds if it reached the end
    of the logical range, the end of the file or belongs to a stream, a partial prefix is
    reported as [ECANCELED] and never as data, and a kernel error other than a retryable
    one keeps its errno. *)
Theorem cancel_stops_continuation p id res sd e p' step :
  entry_wf p -> res <= region_len p - nread p ->
  cancel_requested p || sd = true ->
  reap_read p id res sd e = Some (p', step) ->
  exists r, step = Finish r /\ stopped_outcome p res r.
Proof. apply reap_read_stopped. Qed.

(** *** Witnesses *)

(** A ten-byte file, a four-byte read at offset 5 with block size 4 into a buffer at
    address 2: the kernel is asked for the blocks [4, 12), answers 4 bytes, then EAGAIN,
    then the 2 bytes to the end of the file. *)
Definition demo_file : list Byte.byte :=
  [Byte.x00; Byte.x01; Byte.x02; Byte.x03; Byte.x04; Byte.x05; Byte.x06; Byte.x07;
   Byte.x08; Byte.x09].

Definition demo_env : ReapEnv := mkReapEnv false (Ok 10).

Definition demo_run : list Completion :=
  [mkCompletion false (mkCqe 7 4 4 [Byte.x04; Byte.x05; Byte.x06; Byte.x07]) false demo_env;
   mkCompletion false (mkCqe 7 (-11) 8 []) false demo_env;
   mkCompletion false (mkCqe 7 2 8 [Byte.x08; Byte.x09]) false demo_env].

Definition demo_entry (off n a : Z) : Pending :=
  match @prepare_read x86_64 2 (mkFile 9) off n a 7 (mkPermits None None) with
  | PrepEntry p _ => p
  | _ => mkPending empty_vec (mkFile 0) None 0 0 (mkPermits None None) 0 0 0 0 0 0 false
  end.

Lemma demo_request : @request_ok x86_64 5 4 4.
Proof.
  split; [split; [lia | unfold u64_max; lia]|].
  split; [split; [lia | simpl; unfold u64_max; lia]|].
  exists 4, 1, 8. split; [reflexivity|]. split; [unfold MAX_READ_LEN; lia|].
  right. unfold i64_max. lia.
Defined.

Lemma read_at_refines_pread_witness :
  run_read (demo_entry 5 4 4) 7 demo_run = Finished (Ok [Byte.x05; Byte.x06; Byte.x07; Byte.x08])
  /\ [Byte.x05; Byte.x06; Byte.x07; Byte.x08] = pread demo_file 5 4.
Proof.
  split; [vm_compute; reflexivity|].
  refine (@read_at_refines_pread x86_64 (fun _ => demo_file) 2 (mkFile 9) 5 4 4 7 (mkPermits None None)
    (demo_entry 5 4 4) 11 7 demo_run _ demo_request _ _ _ _ _);
    [discriminate | lia | vm_compute; reflexivity | | vm_compute; reflexivity].
  vm_compute. intuition (try discriminate; try congruence).
Defined.

Lemma read_finishes_witness :
  exists r, run_read (demo_entry 5 0 1) 7
    (repeat (mkCompletion false (mkCqe 7 0 2 []) false demo_env) 16) = Finished r.
Proof.
  refine (@read_finishes x86_64 2 (mkFile 9) 5 0 1 7 (mkPermits None None)
    (demo_entry 5 0 1) 0 7 _ _ _ _ _ _);
    [| lia | vm_compute; reflexivity | | vm_compute; discriminate].
  - split; [split; [lia | unfold u64_max; lia]|].
    split; [split; [lia | simpl; unfold u64_max; lia]|].
    exists 5, 0, 0. split; [reflexivity|]. split; [unfold MAX_READ_LEN; lia|].
    right. unfold i64_max. lia.
  - vm_compute. intuition (try discriminate; try congruence).
Defined.

Lemma read_errors_have_a_cause_witness :
  let cs := [mkCompletion false (mkCqe 7 4 4 [Byte.x04; Byte.x05; Byte.x06; Byte.x07]) true demo_env] in
  run_read (demo_entry 5 4 4) 7 cs = Finished (Err (Os ECANCELED)) /\
  Exists (fun c => co_cancelled c = true \/ co_shutting_down c = true) cs.
Proof.
  split; [vm_compute; reflexivity|].
  destruct (@read_errors_have_a_cause x86_64 2 (mkFile 9) 5 4 4 7 (mkPermits None None)
    (demo_entry 5 4 4) 11 7
    [mkCompletion false (mkCqe 7 4 4 [Byte.x04; Byte.x05; Byte.x06; Byte.x07]) true demo_env]
    (Os ECANCELED) demo_request) as [[_ H]|_].
  - lia.
  - vm_compute. reflexivity.
  - vm_compute. intuition (try discriminate; try congruence).
  - vm_compute. reflexivity.
  - exact H.
  - constructor. right. reflexivity.
Defined.

Lemma stream_read_is_one_read_witness :
  run_read (demo_entry CURRENT_POSITION 4 1) 7
    [mkCompletion true (mkCqe 7 2 2 [Byte.x41; Byte.x42]) true demo_env] =
  Finished (Ok [Byte.x41; Byte.x42]).
Proof.
  refine (@stream_read_is_one_read x86_64 2 (mkFile 9) 4 7 (mkPermits None None)
    (demo_entry CURRENT_POSITION 4 1) 4 7
    (mkCompletion true (mkCqe 7 2 2 [Byte.x41; Byte.x42]) true demo_env) [] _ _ _ _ _);
    [| lia | vm_compute; reflexivity | | reflexivity].
  - split; [split; [unfold CURRENT_POSITION, u64_max; lia | reflexivity]|].
    split; [split; [lia | simpl; unfold u64_max; lia]|].
    exists CURRENT_POSITION, 0, 4. split; [reflexivity|]. split; [unfold MAX_READ_LEN; lia|].
    left. split; reflexivity.
  - vm_compute. intuition (try discriminate; try congruence).
Defined.

Lemma demo_entry_wf : entry_wf (demo_entry 5 4 4).
Proof.
  destruct (@prepare_read_entry x86_64 2 (mkFile 9) 5 4 4 7 (mkPermits None None)
    demo_request) as (p & ko & hd & rl & Hp & _ & Hwf & _); [lia|].
  unfold demo_entry. rewrite Hp. exact Hwf.
Defined.

Lemma cancel_stops_continuation_witness :
  exists r, Finish (Err (Os ECANCELED)) = Finish r /\ stopped_outcome (demo_entry 5 4 4) 4 r.
Proof.
  refine (cancel_stops_continuation (demo_entry 5 4 4) 7 4 true demo_env _ _
    demo_entry_wf _ _ _); [vm_compute; discriminate | reflexivity | vm_compute; reflexivity].
Defined.
