(* ===== verification/TurnBudget.v ===== *)
(** * The budget of one driver turn

    [TurnBudget] of [src/src/driver.rs]: how many messages and completions
    one turn of the driver loop takes, and when the next turn starts without
    waiting. *)

From S2P Require Import Prelude.

Definition TURN_MESSAGES : Z := 64.
Definition TURN_COMPLETIONS : Z := 64.
Definition TURN_ALLOCATION_BYTES : Z := 8 * 1024 * 1024.

Record TurnBudget := mkBudget {
  messages : Z;
  completions : Z;
  allocation_bytes : Z
}.

(** [TurnBudget::default]. *)
Definition default_budget : TurnBudget := mkBudget 0 0 0.

Definition can_take_message (b : TurnBudget) : bool :=
  (messages b <? TURN_MESSAGES) && (allocation_bytes b <? TURN_ALLOCATION_BYTES).

Definition can_reap (b : TurnBudget) : bool := completions b <? TURN_COMPLETIONS.

Definition continue_without_wait (b : TurnBudget) (ready_cqe queued_submission : bool)
    (submitted : Z) : bool :=
  negb (can_take_message b) || negb (can_reap b) || ready_cqe ||
  (queued_submission && (0 <? submitted)).

(** [budget.messages += 1]. *)
Definition count_message (b : TurnBudget) : TurnBudget :=
  mkBudget (messages b + 1) (completions b) (allocation_bytes b).

(** [budget.completions += 1]. *)
Definition count_completion (b : TurnBudget) : TurnBudget :=
  mkBudget (messages b) (completions b + 1) (allocation_bytes b).

(** [budget.allocation_bytes.saturating_add(cap)]. *)
Definition count_allocation `{Target} (b : TurnBudget) (cap : Z) : TurnBudget :=
  mkBudget (messages b) (completions b) (saturating_add usize_max (allocation_bytes b) cap).

Lemma can_take_message_lt b : can_take_message b = true ->
  messages b < TURN_MESSAGES /\ allocation_bytes b < TURN_ALLOCATION_BYTES.
Proof. unfold can_take_message. intros. by bools. Qed.

Lemma can_reap_lt b : can_reap b = true -> completions b < TURN_COMPLETIONS.
Proof. unfold can_reap. intros. by bools. Qed.
