(* ===== verification/Wakeup.v ===== *)
(** * Waking the driver thread

    [EventFd] and [wait_for_events] of [src/src/driver.rs], and the protocol by
    which senders and the kernel wake the driver loop: a message or completion
    is published first and signalled after, the loop drains the signals before
    it looks. *)

From S2P Require Import Prelude IoError Geometry TurnBudget.

(** ** The system calls

    An [eventfd(2)] descriptor opened with [EFD_NONBLOCK]: [write] of a 1,
    [read], the kernel's own signal at a completion, and readiness for
    [poll(2)]. *)
Class EventfdOs (E : Type) := {
  ef_write : E -> E * io_result Z;
  ef_read : E -> E * io_result Z;
  ef_notify : E -> E;
  ef_readable : E -> bool
}.

Class EventfdLaws (E : Type) `{EventfdOs E} := {
  ef_write_done e e' : ef_write e = (e', Ok 8) -> ef_readable e' = true;
  ef_write_again e e' : ef_write e = (e', Err (Os EAGAIN)) -> ef_readable e' = true;
  ef_read_done e e' : ef_read e = (e', Ok 8) -> ef_readable e' = false;
  ef_read_again e e' : ef_read e = (e', Err (Os EAGAIN)) -> ef_readable e' = false;
  ef_notify_readable e : ef_readable (ef_notify e) = true
}.

(** [EventFd]. *)
Record EventFd (E : Type) := mkEventFd { ev_fd : E; ev_error_logged : bool }.
Arguments mkEventFd {_}.
Arguments ev_fd {_}.
Arguments ev_error_logged {_}.

Section EventFd.
Context {E : Type} `{EventfdOs E}.

(** [eventfd_transfer]: the loop over a system call, out of fuel at [None]. *)
Fixpoint eventfd_transfer (fuel : nat) (syscall : E -> E * io_result Z) (e : E) :
    option (E * io_result unit) :=
  match fuel with
  | O => None
  | S fuel =>
      let '(e, r) := syscall e in
      match r with
      | Ok n =>
          if n =? 8 then Some (e, Ok tt)
          else Some (e, Err (other "eventfd transferred an unexpected byte count"))
      | Err err =>
          if bool_decide (raw_os_error err = Some EINTR) then eventfd_transfer fuel syscall e
          else if bool_decide (raw_os_error err = Some EAGAIN) then Some (e, Ok tt)
          else Some (e, Err err)
      end
  end.

(** [EventFd::transfer]: the first error is logged, and whether this one is. *)
Definition transfer (fuel : nat) (syscall : E -> E * io_result Z) (f : EventFd E) :
    option (EventFd E * bool) :=
  '(e, r) ← eventfd_transfer fuel syscall (ev_fd f);
  match r with
  | Ok _ => Some (mkEventFd e (ev_error_logged f), false)
  | Err _ => Some (mkEventFd e true, negb (ev_error_logged f))
  end.

Definition signal (fuel : nat) (f : EventFd E) : option (EventFd E * bool) :=
  transfer fuel ef_write f.

Definition drain (fuel : nat) (f : EventFd E) : option (EventFd E * bool) :=
  transfer fuel ef_read f.

(** [wait_for_events]: how many milliseconds the thread may block. *)
Definition wait_for_events (cq wake : EventFd E) (timeout : Z) : Z :=
  if ef_readable (ev_fd cq) || ef_readable (ev_fd wake) then 0 else Z.min timeout i32_max.
End EventFd.

(** ** The protocol

    Where the loop is between two of its looks at the shared state; the turn's
    budget decides whether the next turn waits. *)
Inductive phase :=
| AtWait
| AtDrainCq
| AtDrainWake
| AtIntake (b : TurnBudget)
| AtReap (b : TurnBudget)
| AtPace (b : TurnBudget).

(** The wake and completion descriptors, the messages queued, the completions
    ready, the senders and kernel completions that have published and not
    signalled yet, and the loop. *)
Record Loop (E : Type) := mkLoop {
  lp_wake : EventFd E;
  lp_cq : EventFd E;
  lp_queue : nat;
  lp_ready : nat;
  lp_owed : nat;
  lp_cq_owed : nat;
  lp_continue : bool;
  lp_phase : phase
}.
Arguments mkLoop {_}.
Arguments lp_wake {_}.
Arguments lp_cq {_}.
Arguments lp_queue {_}.
Arguments lp_ready {_}.
Arguments lp_owed {_}.
Arguments lp_cq_owed {_}.
Arguments lp_continue {_}.
Arguments lp_phase {_}.

Section Protocol.
Context {E : Type} `{EventfdOs E} `{Target}.
Implicit Types l : Loop E.

Definition with_phase l (ph : phase) : Loop E :=
  mkLoop (lp_wake l) (lp_cq l) (lp_queue l) (lp_ready l) (lp_owed l) (lp_cq_owed l)
    (lp_continue l) ph.

(** The driver's actions. [LoopTake]'s capacity is the buffer of an accepted
    read, if the message is one. *)
Inductive driver_step l : Loop E -> Prop :=
| LoopWake :
    lp_phase l = AtWait -> driver_step l (with_phase l AtDrainCq)
| LoopDrainCq fuel f warn :
    lp_phase l = AtDrainCq -> drain fuel (lp_cq l) = Some (f, warn) ->
    driver_step l (mkLoop (lp_wake l) f (lp_queue l) (lp_ready l) (lp_owed l) (lp_cq_owed l)
                     (lp_continue l) AtDrainWake)
| LoopDrainWake fuel f warn :
    lp_phase l = AtDrainWake -> drain fuel (lp_wake l) = Some (f, warn) ->
    driver_step l (mkLoop f (lp_cq l) (lp_queue l) (lp_ready l) (lp_owed l) (lp_cq_owed l)
                     (lp_continue l) (AtIntake default_budget))
| LoopTake b n (cap : option Z) :
    lp_phase l = AtIntake b -> can_take_message b = true -> lp_queue l = S n ->
    driver_step l (mkLoop (lp_wake l) (lp_cq l) n (lp_ready l) (lp_owed l) (lp_cq_owed l)
                     (lp_continue l)
                     (AtIntake (match cap with
                                | Some c => count_allocation (count_message b) c
                                | None => count_message b
                                end)))
| LoopEmpty b :
    lp_phase l = AtIntake b -> can_take_message b = true -> lp_queue l = 0%nat ->
    driver_step l (with_phase l (AtReap b))
| LoopFull b :
    lp_phase l = AtIntake b -> can_take_message b = false ->
    driver_step l (with_phase l (AtReap b))
| LoopReap b n :
    lp_phase l = AtReap b -> can_reap b = true -> lp_ready l = S n ->
    driver_step l (mkLoop (lp_wake l) (lp_cq l) (lp_queue l) n (lp_owed l) (lp_cq_owed l)
                     (lp_continue l) (AtReap (count_completion b)))
| LoopReaped b :
    lp_phase l = AtReap b -> can_reap b = false \/ lp_ready l = 0%nat ->
    driver_step l (with_phase l (AtPace b))
| LoopPace b (queued_submission : bool) (submitted : Z) :
    lp_phase l = AtPace b ->
    driver_step l (mkLoop (lp_wake l) (lp_cq l) (lp_queue l) (lp_ready l) (lp_owed l)
                     (lp_cq_owed l)
                     (continue_without_wait b (negb (lp_ready l =? 0)%nat) queued_submission
                        submitted) AtWait).

(** The senders' and the kernel's: a sender sends one message, or the
    messages of a batch, and then signals. *)
Inductive outside_step l : Loop E -> Prop :=
| LoopSend :
    outside_step l (mkLoop (lp_wake l) (lp_cq l) (S (lp_queue l)) (lp_ready l) (S (lp_owed l))
                      (lp_cq_owed l) (lp_continue l) (lp_phase l))
| LoopSendMore :
    lp_owed l <> 0%nat ->
    outside_step l (mkLoop (lp_wake l) (lp_cq l) (S (lp_queue l)) (lp_ready l) (lp_owed l)
                      (lp_cq_owed l) (lp_continue l) (lp_phase l))
| LoopSignal fuel f warn n :
    lp_owed l = S n -> signal fuel (lp_wake l) = Some (f, warn) ->
    outside_step l (mkLoop f (lp_cq l) (lp_queue l) (lp_ready l) n (lp_cq_owed l)
                      (lp_continue l) (lp_phase l))
| LoopPost :
    outside_step l (mkLoop (lp_wake l) (lp_cq l) (lp_queue l) (S (lp_ready l)) (lp_owed l)
                      (S (lp_cq_owed l)) (lp_continue l) (lp_phase l))
| LoopNotify n :
    lp_cq_owed l = S n ->
    outside_step l (mkLoop (lp_wake l)
                      (mkEventFd (ef_notify (ev_fd (lp_cq l))) (ev_error_logged (lp_cq l)))
                      (lp_queue l) (lp_ready l) (lp_owed l) n (lp_continue l) (lp_phase l)).

Definition loop_step l l' : Prop := driver_step l l' \/ outside_step l l'.

(** A fresh thread: nothing queued, nothing ready. *)
Definition loop_start (wake cq : E) : Loop E :=
  mkLoop (mkEventFd wake false) (mkEventFd cq false) 0 0 0 0 false AtWait.

(** A queued message is, or is about to be, signalled. *)
Definition wake_pending l : Prop :=
  ef_readable (ev_fd (lp_wake l)) = true \/ lp_owed l <> 0%nat \/
  ev_error_logged (lp_wake l) = true.

Definition cq_pending l : Prop :=
  ef_readable (ev_fd (lp_cq l)) = true \/ lp_cq_owed l <> 0%nat.

(** What the loop may rely on where it is. *)
Definition loop_inv l : Prop :=
  match lp_phase l with
  | AtReap b | AtPace b =>
      lp_queue l <> 0%nat -> wake_pending l \/ can_take_message b = false
  | AtWait =>
      (lp_queue l <> 0%nat -> wake_pending l \/ lp_continue l = true) /\
      (lp_ready l <> 0%nat -> cq_pending l \/ lp_continue l = true)
  | _ => True
  end.
End Protocol.

(** ** Lemmas *)

Section Lemmas.
Context {E : Type} `{EventfdLaws E} `{Target}.
Implicit Types l : Loop E.

(** A transfer that reports success ended on a full transfer or on [EAGAIN]. *)
Lemma eventfd_transfer_Ok fuel (syscall : E -> E * io_result Z) e e' :
  eventfd_transfer fuel syscall e = Some (e', Ok tt) ->
  exists e0, syscall e0 = (e', Ok 8) \/ syscall e0 = (e', Err (Os EAGAIN)).
Proof.
  revert e. induction fuel as [|fuel IH]; intros e; simpl; [done|].
  destruct (syscall e) as [e1 [n|err]] eqn:Es.
  - destruct (Z.eqb_spec n 8) as [->|]; intros [= <-]. eauto.
  - case_bool_decide; [by apply IH|]. case_bool_decide as Ha; intros [= <-].
    exists e. right. rewrite Es. destruct err as [errno|]; [|done]. simpl in Ha. congruence.
Qed.

Lemma transfer_spec fuel syscall (f f' : EventFd E) warn :
  transfer fuel syscall f = Some (f', warn) ->
  ev_error_logged f' = true \/
  exists e0, syscall e0 = (ev_fd f', Ok 8) \/ syscall e0 = (ev_fd f', Err (Os EAGAIN)).
Proof.
  unfold transfer. destruct (eventfd_transfer _ _ _) as [[e [[]|err]]|] eqn:Ht; simpl;
    intros [= <- <-]; [|by left]. right. by eapply eventfd_transfer_Ok.
Qed.

Lemma signal_readable fuel (f f' : EventFd E) warn :
  signal fuel f = Some (f', warn) ->
  ef_readable (ev_fd f') = true \/ ev_error_logged f' = true.
Proof.
  intros [?|(e & [?|?])]%transfer_spec; [by right | left..].
  - by eapply ef_write_done.
  - by eapply ef_write_again.
Qed.

Lemma drain_unreadable fuel (f f' : EventFd E) warn :
  drain fuel f = Some (f', warn) -> ev_error_logged f' = false ->
  ef_readable (ev_fd f') = false.
Proof.
  intros [?|(e & [?|?])]%transfer_spec ?; [congruence | |].
  - by eapply ef_read_done.
  - by eapply ef_read_again.
Qed.

Lemma driver_step_inv l l' : loop_inv l -> driver_step l l' -> loop_inv l'.
Proof.
  intros Hinv Hstep. unfold loop_inv in *.
  destruct Hstep as [Hp|fuel f w Hp _|fuel f w Hp _|b n cap Hp _ _|b Hp _ Hq|b Hp Hb
    |b n Hp _ _|b Hp _|b queued sub Hp]; rewrite Hp in Hinv; simpl; try done.
  - intros _. by right.
  - unfold continue_without_wait. split.
    + intros Hq. destruct (Hinv Hq) as [?| ->]; [by left | by right].
    + intros Hr. right. apply Nat.eqb_neq in Hr. rewrite Hr. simpl.
      by rewrite orb_true_r.
Qed.

(** What an action outside the thread leaves pending. *)
Lemma outside_step_pending l l' :
  outside_step l l' ->
  lp_phase l' = lp_phase l /\ lp_continue l' = lp_continue l /\
  (lp_queue l' <> 0%nat -> (lp_queue l <> 0%nat -> wake_pending l) -> wake_pending l') /\
  (lp_ready l' <> 0%nat -> (lp_ready l <> 0%nat -> cq_pending l) -> cq_pending l').
Proof.
  unfold wake_pending, cq_pending.
  intros [|Ho|fuel f w n Ho Hs| |n Ho]; simpl;
    try (apply signal_readable in Hs); try (rewrite ef_notify_readable); intuition congruence.
Qed.

Lemma outside_step_inv l l' : loop_inv l -> outside_step l l' -> loop_inv l'.
Proof.
  intros Hinv (Hp & Hc & Hq & Hr)%outside_step_pending.
  unfold loop_inv in *. rewrite Hp, Hc. destruct (lp_phase l); try done.
  - destruct Hinv as [Hiq Hir]. split; intros Hne.
    + destruct (lp_continue l); [by right | left]. apply Hq; [done|]. intros [?|?]%Hiq; done.
    + destruct (lp_continue l); [by right | left]. apply Hr; [done|]. intros [?|?]%Hir; done.
  - intros Hne. destruct (can_take_message b); [left | by right].
    apply Hq; [done|]. intros [?|?]%Hinv; done.
  - intros Hne. destruct (can_take_message b); [left | by right].
    apply Hq; [done|]. intros [?|?]%Hinv; done.
Qed.

Lemma loop_reachable_inv wake cq l : rtc loop_step (loop_start wake cq) l -> loop_inv l.
Proof.
  intros Hr. assert (Hinv : loop_inv (loop_start wake cq : Loop E)) by done.
  revert Hinv. induction Hr as [l|l1 l2 l3 [Hd|Ho] _ IH]; intros Hinv; [done|apply IH..].
  - by eapply driver_step_inv.
  - by eapply outside_step_inv.
Qed.
End Lemmas.

(** ** Properties *)

(** [C18] No wakeup is lost: however sends, batches, completions and signals
    interleave with the loop's draining and looking, whenever the thread is
    about to block (no continuation was requested), a queued message has its
    descriptor readable or its signal still to come (or a signal failed, which
    was logged), and so does a ready completion; and a drain without an error
    leaves a descriptor unreadable, so the wait does not spin on old signals. *)
Theorem no_lost_wakeup {E} `{EventfdLaws E} `{Target} (wake cq : E) l :
  rtc loop_step (loop_start wake cq) l ->
  (lp_phase l = AtWait -> lp_continue l = false ->
   (lp_queue l <> 0%nat -> wake_pending l) /\ (lp_ready l <> 0%nat -> cq_pending l)) /\
  (forall fuel f f' warn, drain fuel f = Some (f', warn) ->
   ev_error_logged f' = false -> ef_readable (ev_fd f') = false).
Proof.
  intros Hr. split; [|apply drain_unreadable]. intros Hp Hc.
  pose proof (loop_reachable_inv _ _ _ Hr) as Hinv. unfold loop_inv in Hinv.
  rewrite Hp, Hc in Hinv. naive_solver.
Qed.

(** ** Witnesses *)

(** A descriptor as its counter, which stays below [2^64 - 1]. *)
Definition counter_max : N := 2 ^ 64 - 2.

#[export] Instance counter_os : EventfdOs N := {|
  ef_write e := if (e <? counter_max)%N then ((e + 1)%N, Ok 8) else (N.max e 1, Err (Os EAGAIN));
  ef_read e := if (0 <? e)%N then (0%N, Ok 8) else (0%N, Err (Os EAGAIN));
  ef_notify e := N.max 1 (N.min counter_max (e + 1));
  ef_readable e := (0 <? e)%N
|}.

#[export] Instance counter_laws : EventfdLaws N.
Proof.
  split; simpl; intros e.
  - intros e'. destruct (_ <? _)%N; intros [= <-]. apply N.ltb_lt. lia.
  - intros e'. destruct (_ <? _)%N; intros [= <-]. apply N.ltb_lt. lia.
  - intros e'. by destruct (_ <? _)%N; intros [= <-].
  - intros e'. by destruct (_ <? _)%N; intros [= <-].
  - apply N.ltb_lt. lia.
Qed.

(** A message sent and signalled after the loop found its queue empty. *)
Definition demo_late : Loop N :=
  mkLoop (mkEventFd 1%N false) (mkEventFd 0%N false) 1 0 0 0 false AtWait.

Lemma demo_late_reachable :
  rtc (loop_step (H0 := x86_64)) (loop_start (E := N) 0%N 0%N) demo_late.
Proof.
  eapply rtc_l; [left; by apply LoopWake|].
  eapply rtc_l; [left; by apply (LoopDrainCq _ 1 (mkEventFd 0%N false) false)|].
  eapply rtc_l; [left; by apply (LoopDrainWake _ 1 (mkEventFd 0%N false) false)|].
  eapply rtc_l; [left; by apply (LoopEmpty _ default_budget)|].
  eapply rtc_l; [right; apply LoopSend|].
  eapply rtc_l; [left; apply (LoopReaped _ default_budget); [done | by right]|].
  eapply rtc_l; [left; by apply (LoopPace _ default_budget false 0)|].
  eapply rtc_l; [right; by apply (LoopSignal _ 1 (mkEventFd 1%N false) false 0)|].
  apply rtc_refl.
Qed.

Lemma no_lost_wakeup_witness :
  lp_queue demo_late <> 0%nat /\ wake_pending demo_late /\
  wait_for_events (lp_cq demo_late) (lp_wake demo_late) 1000 = 0.
Proof.
  assert (Hq : lp_queue demo_late <> 0%nat) by (vm_compute; discriminate).
  split; [exact Hq|]. split; [|vm_compute; reflexivity].
  exact (proj1 (proj1 (no_lost_wakeup (H0 := counter_laws) (H1 := x86_64) 0%N 0%N demo_late
    demo_late_reachable) eq_refl eq_refl) Hq).
Defined.
