(* ===== verification/SubmitRing.v ===== *)
(** * Submitting to the ring

    [queue_cancel], [flush_backlog], [submit_if_needed],
    [handle_submit_result], [submit_ring] and [update_cq_overflow] of
    [src/src/driver.rs], over the driver thread's state, and the counters of
    [DriverStats]. *)

From S2P Require Import Prelude IoError Geometry Interfaces Pending.

(** [DriverStats]: [AtomicU64] counters. *)
Record Stats := mkStats {
  submitted : Z;
  delivered : Z;
  orphan_reclaimed : Z;
  in_flight : Z;
  cancel_succeeded : Z;
  cancel_not_found : Z;
  cancel_already : Z;
  cq_overflows : Z;
  submit_errors : Z
}.

Definition default_stats : Stats := mkStats 0 0 0 0 0 0 0 0 0.

(** [fetch_add] and [fetch_sub] wrap. *)
Definition wadd (a b : Z) : Z := wrap u64_max (a + b).
Definition wsub (a b : Z) : Z := wrap u64_max (a - b).

Definition count_accepted (s : Stats) : Stats :=
  mkStats (wadd (submitted s) 1) (delivered s) (orphan_reclaimed s) (wadd (in_flight s) 1)
    (cancel_succeeded s) (cancel_not_found s) (cancel_already s) (cq_overflows s)
    (submit_errors s).

(** A finished read: delivered or reclaimed as an orphan, and no longer in flight. *)
Definition count_finished (s : Stats) (ok : bool) : Stats :=
  mkStats (submitted s) (if ok then wadd (delivered s) 1 else delivered s)
    (if ok then orphan_reclaimed s else wadd (orphan_reclaimed s) 1) (wsub (in_flight s) 1)
    (cancel_succeeded s) (cancel_not_found s) (cancel_already s) (cq_overflows s)
    (submit_errors s).

(** The outcome of an [AsyncCancel], by its result. *)
Definition count_cancel (s : Stats) (res : Z) : Stats :=
  if res =? 0 then
    mkStats (submitted s) (delivered s) (orphan_reclaimed s) (in_flight s)
      (wadd (cancel_succeeded s) 1) (cancel_not_found s) (cancel_already s) (cq_overflows s)
      (submit_errors s)
  else if res =? - ENOENT then
    mkStats (submitted s) (delivered s) (orphan_reclaimed s) (in_flight s)
      (cancel_succeeded s) (wadd (cancel_not_found s) 1) (cancel_already s) (cq_overflows s)
      (submit_errors s)
  else if res =? - EALREADY then
    mkStats (submitted s) (delivered s) (orphan_reclaimed s) (in_flight s)
      (cancel_succeeded s) (cancel_not_found s) (wadd (cancel_already s) 1) (cq_overflows s)
      (submit_errors s)
  else s.

Definition set_cq_overflows (s : Stats) (n : Z) : Stats :=
  mkStats (submitted s) (delivered s) (orphan_reclaimed s) (in_flight s) (cancel_succeeded s)
    (cancel_not_found s) (cancel_already s) n (submit_errors s).

Definition count_submit_error (s : Stats) : Stats :=
  mkStats (submitted s) (delivered s) (orphan_reclaimed s) (in_flight s) (cancel_succeeded s)
    (cancel_not_found s) (cancel_already s) (cq_overflows s) (wadd (submit_errors s) 1).

(** [DriverState] and the local variables of [drive]. *)
Record Drive (R : Type) := mkDrive {
  d_ring : R;
  d_pending : gmap Z Pending;
  d_backlog : list Sqe;
  d_queued_cancels : gset Z;
  d_shutting_down : bool;
  d_drain_deadline : option Z;
  d_submit_errors : Z;
  d_error_logged : bool;
  d_previous_overflow : Z;
  d_continue : bool;
  d_stats : Stats
}.
Arguments mkDrive {_}.
Arguments d_ring {_}.
Arguments d_pending {_}.
Arguments d_backlog {_}.
Arguments d_queued_cancels {_}.
Arguments d_shutting_down {_}.
Arguments d_drain_deadline {_}.
Arguments d_submit_errors {_}.
Arguments d_error_logged {_}.
Arguments d_previous_overflow {_}.
Arguments d_continue {_}.
Arguments d_stats {_}.

Section Setters.
Context {R : Type}.
Implicit Types d : Drive R.

(** The state [drive] starts with, around a fresh ring. *)
Definition new_drive (r : R) : Drive R :=
  mkDrive r ∅ [] ∅ false None 0 false 0 false default_stats.

Definition set_ring d (r : R) (bl : list Sqe) : Drive R :=
  mkDrive r (d_pending d) bl (d_queued_cancels d) (d_shutting_down d) (d_drain_deadline d)
    (d_submit_errors d) (d_error_logged d) (d_previous_overflow d) (d_continue d) (d_stats d).

Definition set_table d (m : gmap Z Pending) (bl : list Sqe) (q : gset Z) (st : Stats) : Drive R :=
  mkDrive (d_ring d) m bl q (d_shutting_down d) (d_drain_deadline d)
    (d_submit_errors d) (d_error_logged d) (d_previous_overflow d) (d_continue d) st.

Definition set_shutting_down d : Drive R :=
  mkDrive (d_ring d) (d_pending d) (d_backlog d) (d_queued_cancels d) true
    (d_drain_deadline d) (d_submit_errors d) (d_error_logged d) (d_previous_overflow d)
    (d_continue d) (d_stats d).

Definition set_deadline d (t : Z) : Drive R :=
  mkDrive (d_ring d) (d_pending d) (d_backlog d) (d_queued_cancels d) (d_shutting_down d)
    (Some t) (d_submit_errors d) (d_error_logged d) (d_previous_overflow d)
    (d_continue d) (d_stats d).

Definition set_continue d (b : bool) : Drive R :=
  mkDrive (d_ring d) (d_pending d) (d_backlog d) (d_queued_cancels d) (d_shutting_down d)
    (d_drain_deadline d) (d_submit_errors d) (d_error_logged d) (d_previous_overflow d)
    b (d_stats d).

Definition set_submit_state d (st : Stats) (errs : Z) (logged shutting : bool) : Drive R :=
  mkDrive (d_ring d) (d_pending d) (d_backlog d) (d_queued_cancels d) shutting
    (d_drain_deadline d) errs logged (d_previous_overflow d) (d_continue d) st.

Definition set_overflow d (st : Stats) (prev : Z) : Drive R :=
  mkDrive (d_ring d) (d_pending d) (d_backlog d) (d_queued_cancels d) (d_shutting_down d)
    (d_drain_deadline d) (d_submit_errors d) (d_error_logged d) prev (d_continue d) st.
End Setters.

Definition MAX_CONSECUTIVE_SUBMIT_ERRORS : Z := 128.

(** The [AsyncCancel] of an operation. *)
Definition cancel_sqe (id : Z) : Sqe := mkSqe (AsyncCancel id) (Z.lor id CANCEL_BIT).

(** [queue_cancel]: at most one [AsyncCancel] per operation. *)
Definition queue_cancel (bl : list Sqe) (queued : gset Z) (id : Z) : list Sqe * gset Z :=
  if decide (id ∈ queued) then (bl, queued) else (bl ++ [cancel_sqe id], {[id]} ∪ queued).

(** The sweep of a shutdown: one [queue_cancel] per key. *)
Definition queue_cancels (bl : list Sqe) (queued : gset Z) (ids : list Z) : list Sqe * gset Z :=
  fold_left (fun '(bl, q) id => queue_cancel bl q id) ids (bl, queued).

(** Classification of a submit syscall: the counters and latches after it, the
    number of accepted entries, and whether the shutdown callback runs. *)
Record submit_outcome := mkSubmitOutcome {
  so_submitted : Z;
  so_stats : Stats;
  so_errors : Z;
  so_logged : bool;
  so_shutting_down : bool;
  so_on_shutdown : bool
}.

(** [handle_submit_result]. *)
Definition handle_submit_result (result : io_result Z) (st : Stats) (errs : Z)
    (logged shutting : bool) : submit_outcome :=
  match result with
  | Ok n => mkSubmitOutcome n st 0 logged shutting false
  | Err e =>
      if bool_decide (raw_os_error e = Some EBUSY \/ raw_os_error e = Some EINTR)
      then mkSubmitOutcome 0 st 0 logged shutting false
      else
        let errs' := wrap u32_max (errs + 1) in
        let fire := negb shutting && (MAX_CONSECUTIVE_SUBMIT_ERRORS <=? errs') in
        mkSubmitOutcome 0 (count_submit_error st) errs' true (shutting || fire) fire
  end.

(** [update_cq_overflow]: the counters, the last observation, and whether to warn. *)
Definition update_cq_overflow (st : Stats) (previous observed : Z) : Stats * Z * bool :=
  if observed =? previous then (st, previous, false)
  else (set_cq_overflows st observed, observed, negb (observed =? 0)).

Section Submit.
Context {R : Type} `{Ring R} `{HashOrder}.

(** [flush_backlog]: push until the submission queue is full. *)
Fixpoint flush_backlog (r : R) (bl : list Sqe) : R * list Sqe :=
  match bl with
  | [] => (r, [])
  | s :: rest =>
      match sq_push r s with
      | None => (r, s :: rest)
      | Some r' => flush_backlog r' rest
      end
  end.

(** [submit_if_needed]: enter the kernel for submissions or completion work. *)
Definition submit_if_needed (r : R) : R * option (io_result Z) :=
  if negb (sq_is_empty r) || sq_cq_overflow r || sq_taskrun r
  then let '(r', res) := ring_submit r in (r', Some res)
  else (r, None).

(** [submit_ring]: flush, submit, classify. *)
Definition submit_ring (d : Drive R) : Drive R * Z :=
  let '(r, bl) := flush_backlog (d_ring d) (d_backlog d) in
  let '(r', res) := submit_if_needed r in
  let d1 := set_ring d r' bl in
  match res with
  | None => (d1, 0)
  | Some result =>
      let o := handle_submit_result result (d_stats d) (d_submit_errors d)
                 (d_error_logged d) (d_shutting_down d) in
      let d2 := set_submit_state d1 (so_stats o) (so_errors o) (so_logged o)
                  (so_shutting_down o) in
      if so_on_shutdown o then
        let '(bl', q') := queue_cancels (d_backlog d2) (d_queued_cancels d2)
                            (key_order (dom (d_pending d2))) in
        (set_table d2 (d_pending d2) bl' q' (d_stats d2), so_submitted o)
      else (d2, so_submitted o)
  end.
End Submit.

(** ** Lemmas *)

Lemma queue_cancel_queued bl q id : id ∈ (queue_cancel bl q id).2.
Proof. unfold queue_cancel. case_decide; simpl; set_solver. Qed.

(** What a sweep appends: one cancel per key not queued before. *)
Lemma queue_cancels_spec bl q ids :
  NoDup ids ->
  queue_cancels bl q ids =
    (bl ++ (cancel_sqe <$> filter (fun id => id ∉ q) ids), list_to_set ids ∪ q).
Proof.
  unfold queue_cancels. revert bl q. induction ids as [|id ids IH]; intros bl q Hnd; simpl.
  { rewrite app_nil_r. f_equal. set_solver. }
  inversion_clear Hnd as [|? ? Hid Hids]. unfold queue_cancel at 2. case_decide as Hq.
  - rewrite IH by done. rewrite filter_cons_False by tauto. f_equal. set_solver.
  - rewrite IH by done. rewrite filter_cons_True by done. simpl.
    rewrite <-app_assoc. simpl. f_equal; [|set_solver]. do 3 f_equal.
    apply filter_ext_in. intros x Hx. set_solver.
Qed.
