(* ===== verification/World.v ===== *)
(** * What a driver thread shares with its callers

    The shard's count semaphore, the driver's byte semaphore and shared
    reservation pool, and the oneshot channels of the results, with the
    release of a read's permits ([ReadPermits] of [src/src/driver.rs]). *)

From S2P Require Import Prelude IoError Geometry Interfaces SharedBudget Pending.

Record World (Sm Ch : Type) := mkWorld {
  w_count : Sm;
  w_bytes : option Sm;
  w_shared : Pool;
  w_chan : Ch
}.
Arguments mkWorld {_ _}.
Arguments w_count {_ _}.
Arguments w_bytes {_ _}.
Arguments w_shared {_ _}.
Arguments w_chan {_ _}.

(** A message to the driver thread ([Msg]). *)
Inductive Msg :=
| MsgRead (id : Z) (f : File) (off len : Z) (done_ : Z) (pm : ReadPermits) (align_ : Z)
| MsgCancel (id : Z)
| MsgShutdown.

Section World.
Context {Sm Ch : Type} `{Semaphore Sm} `{Oneshot Ch} `{Target}.
Implicit Types w : World Sm Ch.

(** Dropping [ReadPermits]: its count permit, byte permits and reservation. *)
Definition drop_permits w (pm : ReadPermits) : World Sm Ch :=
  mkWorld (sem_release (w_count w) 1)
    (match permit_bytes pm with
     | None => w_bytes w
     | Some n => (fun b => sem_release b n) <$> w_bytes w
     end)
    (match permit_shared pm with
     | None => w_shared w
     | Some r => arc_drop (w_shared w) r
     end)
    (w_chan w).

(** [done.send(r)]. *)
Definition send w (c : Z) (r : read_result) : World Sm Ch * bool :=
  let '(o, ok) := os_send (w_chan w) c r in
  (mkWorld (w_count w) (w_bytes w) (w_shared w) o, ok).

(** Dropping [done] unsent. *)
Definition drop_sender w (c : Z) : World Sm Ch :=
  mkWorld (w_count w) (w_bytes w) (w_shared w) (os_drop_tx (w_chan w) c).

(** [sem.close()] on the shard's count semaphore. *)
Definition close_count w : World Sm Ch :=
  mkWorld (sem_close (w_count w)) (w_bytes w) (w_shared w) (w_chan w).

(** Dropping a message unprocessed, as the receiver of the queue does when it is dropped. *)
Definition drop_msg w (m : Msg) : World Sm Ch :=
  match m with
  | MsgRead _ _ _ _ c pm _ => drop_permits (drop_sender w c) pm
  | _ => w
  end.

Definition drop_queue w (q : list Msg) : World Sm Ch := fold_left drop_msg q w.
End World.

(** The reads of a queue, by operation. *)
Definition msg_read_id (m : Msg) : option Z :=
  match m with MsgRead id _ _ _ _ _ _ => Some id | _ => None end.

Definition queued_ids (q : list Msg) : list Z := omap msg_read_id q.

(** ** Lemmas *)

Section Lemmas.
Context {Sm Ch : Type} `{SemaphoreLaws Sm} `{OneshotLaws Ch} `{Target}.
Implicit Types w : World Sm Ch.

Lemma drop_permits_count w pm :
  sem_free (w_count (drop_permits w pm)) = sem_free (w_count w) + 1.
Proof. simpl. apply sem_release_free. Qed.

Lemma drop_permits_chan w pm : w_chan (drop_permits w pm) = w_chan w.
Proof. done. Qed.

Lemma send_spec w c r :
  (send w c r).2 = negb (os_is_closed (w_chan w) c) /\
  w_count (send w c r).1 = w_count w /\ w_bytes (send w c r).1 = w_bytes w /\
  w_shared (send w c r).1 = w_shared w /\
  w_chan (send w c r).1 = (os_send (w_chan w) c r).1.
Proof.
  unfold send. pose proof (os_send_ok (w_chan w) c r) as Hok.
  destruct (os_send _ _ _) as [o b]. by split_and!.
Qed.

Lemma drop_msg_count w m :
  sem_free (w_count (drop_msg w m)) =
  sem_free (w_count w) + (match msg_read_id m with Some _ => 1 | None => 0 end).
Proof. destruct m; simpl; rewrite ?sem_release_free; simpl; lia. Qed.

Lemma drop_queue_count w q :
  sem_free (w_count (drop_queue w q)) = sem_free (w_count w) + zlen (queued_ids q).
Proof.
  unfold drop_queue, zlen. revert w.
  induction q as [|m q IH]; intros w; simpl; [lia|].
  rewrite IH, drop_msg_count. unfold queued_ids. simpl.
  destruct (msg_read_id m); simpl; lia.
Qed.
End Lemmas.
