(* ===== verification/Driver.v ===== *)
(** * The driver thread

    [drive] of [src/src/driver.rs]: intake of messages, submission, reaping
    of completions, and the exit of a drained or hung shard, one function
    per phase and [turn] for one iteration of the loop. A Rust panic is
    [None]. What the thread reads from outside (allocator addresses,
    [metadata], clock) is an argument. *)

From S2P Require Import Prelude IoError Geometry Interfaces SharedBudget Pending World.
From S2P Require Import TurnBudget SubmitRing.

(** [DRAIN_TIMEOUT], [LOOP_HEARTBEAT] and [IDLE_HEARTBEAT], in milliseconds. *)
Definition DRAIN_TIMEOUT : Z := 5000.
Definition LOOP_HEARTBEAT : Z := 50.
Definition IDLE_HEARTBEAT : Z := 1000.

(** What one reaped completion reads from outside: the length [metadata]
    reports for a descriptor, and whether the receiver closes between [deliver]'s
    [is_closed] and the final [send]. *)
Record ReapInput := mkReapInput { ri_file_len : Z -> io_result Z; ri_race : bool }.

Record TurnEnv := mkTurnEnv {
  te_addr : Z -> Z;
  te_reap : Z -> ReapInput;
  te_now1 : Z;
  te_now2 : Z
}.

Section Driver.
Context {R Sm Ch : Type} `{Ring R} `{Semaphore Sm} `{Oneshot Ch} `{Target} `{HashOrder}.
Implicit Types (d : Drive R) (w : World Sm Ch) (b : TurnBudget).

(** The sweep of [Msg::Shutdown]. *)
Definition cancel_all d : Drive R :=
  let '(bl, q) := queue_cancels (d_backlog d) (d_queued_cancels d)
                    (key_order (dom (d_pending d))) in
  set_table d (d_pending d) bl q (d_stats d).

(** A read the thread does not accept: its error is sent, its permits drop. *)
Definition refuse w (c : Z) (pm : ReadPermits) (e : IoError) : World Sm Ch :=
  drop_permits (send w c (Err e)).1 pm.

(** [Msg::Read]: refuse while shutting down, else allocate, insert, queue the
    first submission entry. *)
Definition intake_read d w b (addr id : Z) (f : File) (off n c : Z) (pm : ReadPermits)
    (al : Z) : option (Drive R * World Sm Ch * TurnBudget) :=
  if d_shutting_down d then Some (d, refuse w c pm (other "uring driver shutting down"), b)
  else match prepare_read addr f off n al c pm with
       | PrepPanic => None
       | PrepReject e allocated => Some (d, refuse w c pm e, count_allocation b allocated)
       | PrepEntry p allocated =>
           Some (set_table d (<[id := p]> (d_pending d)) (d_backlog d ++ [read_sqe p id])
                   (d_queued_cancels d) (count_accepted (d_stats d)),
                 w, count_allocation b allocated)
       end.

(** [Msg::Cancel]: record the intent and queue the [AsyncCancel]. *)
Definition intake_cancel d (id : Z) : Drive R :=
  match d_pending d !! id with
  | None => d
  | Some p =>
      let '(bl, q) := queue_cancel (d_backlog d) (d_queued_cancels d) id in
      set_table d (<[id := set_cancel_requested p]> (d_pending d)) bl q (d_stats d)
  end.

(** One message. *)
Definition intake_msg d w b (addr : Z) (m : Msg) : option (Drive R * World Sm Ch * TurnBudget) :=
  match m with
  | MsgRead id f off n c pm al => intake_read d w b addr id f off n c pm al
  | MsgCancel id => Some (intake_cancel d id, w, b)
  | MsgShutdown => Some (cancel_all (set_shutting_down d), w, b)
  end.

(** The bounded intake loop; [disconnected] says that every sender is gone. *)
Fixpoint intake (fuel : nat) (env : TurnEnv) (disconnected : bool) d w b (q : list Msg) :
    option (Drive R * World Sm Ch * TurnBudget * list Msg) :=
  match fuel with
  | O => Some (d, w, b, q)
  | S fuel =>
      if can_take_message b then
        match q with
        | [] => Some (if disconnected then set_shutting_down d else d, w, b, [])
        | m :: q =>
            let b1 := count_message b in
            '(d', w', b') ← intake_msg d w b1 (te_addr env (messages b)) m;
            intake fuel env disconnected d' w' b' q
        end
      else Some (d, w, b, q)
  end.

(** A read completion: decide with [reap_read], then finish or resubmit. *)
Definition reap_entry d w (p : Pending) (c : Cqe) (inp : ReapInput) :
    option (Drive R * World Sm Ch) :=
  let id := cqe_user_data c in
  let closed := match done_tx p with
                | None => true
                | Some ch => os_is_closed (w_chan w) ch && negb (ri_race inp)
                end in
  '(p', step) ← reap_read (kernel_store p (cqe_addr c) (cqe_stored c)) id (cqe_result c)
                  (d_shutting_down d) (mkReapEnv closed (ri_file_len inp (raw_fd (file p))));
  match step with
  | Finish outcome =>
      ch ← done_tx p';
      let '(w', ok) := send w ch outcome in
      Some (set_table d (delete id (d_pending d)) (d_backlog d)
              (d_queued_cancels d ∖ {[id]}) (count_finished (d_stats d) ok),
            drop_permits w' (permit p'))
  | Resubmit s =>
      Some (set_table d (<[id := p']> (d_pending d)) (d_backlog d ++ [s])
              (d_queued_cancels d) (d_stats d), w)
  end.

(** One completion: a cancel's outcome is counted, a read's is reaped, and one
    of an operation no longer pending is ignored. *)
Definition reap_one d w (c : Cqe) (inp : ReapInput) : option (Drive R * World Sm Ch) :=
  if negb (Z.land (cqe_user_data c) CANCEL_BIT =? 0) then
    Some (set_table d (d_pending d) (d_backlog d) (d_queued_cancels d)
            (count_cancel (d_stats d) (cqe_result c)), w)
  else match d_pending d !! cqe_user_data c with
       | None => Some (d, w)
       | Some p => reap_entry d w p c inp
       end.

(** The bounded reap loop. *)
Fixpoint reap (fuel : nat) (env : TurnEnv) d w b : option (Drive R * World Sm Ch * TurnBudget) :=
  match fuel with
  | O => Some (d, w, b)
  | S fuel =>
      if can_reap b then
        match cq_next (d_ring d) with
        | None => Some (d, w, b)
        | Some (c, r') =>
            '(d', w') ← reap_one (set_ring d r' (d_backlog d)) w c
                          (te_reap env (completions b));
            reap fuel env d' w' (count_completion b)
        end
      else Some (d, w, b)
  end.

(** Failing the callers of a shard that leaks. *)
Definition strand_error : IoError := other "uring driver leaked op on bounded-drain timeout".

Definition strand_one w (po : option Pending) : World Sm Ch :=
  match po with
  | Some p => match done_tx p with
              | Some ch => (send w ch (Err strand_error)).1
              | None => w
              end
  | None => w
  end.

Definition strand_callers w (m : gmap Z Pending) : World Sm Ch :=
  fold_left (fun w id => strand_one w (m !! id)) (key_order (dom m)) w.

Inductive turn_end :=
| Continue (d : Drive R) (w : World Sm Ch)
| CleanExit (d : Drive R) (w : World Sm Ch)
| LeakExit (d : Drive R) (w : World Sm Ch).

(** The exit check of a shutting-down shard. *)
Definition check_exit d w (env : TurnEnv) : turn_end :=
  if d_shutting_down d then
    if bool_decide (d_pending d = ∅) && bool_decide (d_backlog d = []) then
      CleanExit d (close_count w)
    else
      let deadline := match d_drain_deadline d with
                      | Some t => t
                      | None => te_now1 env + DRAIN_TIMEOUT
                      end in
      let d' := set_deadline d deadline in
      if deadline <=? te_now2 env then
        LeakExit (set_table d' (take_done <$> d_pending d') (d_backlog d')
                    (d_queued_cancels d') (d_stats d'))
          (close_count (strand_callers w (d_pending d')))
      else Continue d' w
  else Continue d w.

Inductive turn_result :=
| TurnEnd (e : turn_end) (q : list Msg)
| TurnPanic.

(** One iteration of the loop in [drive], after its wait. *)
Definition turn (env : TurnEnv) (disconnected : bool) d w (q : list Msg) : turn_result :=
  match intake (Z.to_nat TURN_MESSAGES) env disconnected d w default_budget q with
  | None => TurnPanic
  | Some (d1, w1, b1, q1) =>
      let '(d2, submitted_before) := submit_ring d1 in
      match reap (Z.to_nat TURN_COMPLETIONS) env d2 w1 b1 with
      | None => TurnPanic
      | Some (d3, w3, b3) =>
          let '(d4, submitted_after) := submit_ring d3 in
          let '(st, prev, _) := update_cq_overflow (d_stats d4) (d_previous_overflow d4)
                                  (cq_overflow (d_ring d4)) in
          let d5 := set_overflow d4 st prev in
          TurnEnd
            (match check_exit d5 w3 env with
             | Continue d6 w6 =>
                 let ready_cqe := negb (cq_is_empty (d_ring d6)) in
                 let queued := negb (bool_decide (d_backlog d6 = [])) ||
                               negb (sq_is_empty (d_ring d6)) in
                 Continue (set_continue d6
                   (continue_without_wait b3 ready_cqe queued
                      (saturating_add usize_max submitted_before submitted_after))) w6
             | e => e
             end) q1
      end
  end.

(** How long the next turn may block: not at all, or up to a heartbeat. *)
Definition heartbeat d : Z :=
  if d_shutting_down d || negb (bool_decide (d_pending d = ∅))
  then LOOP_HEARTBEAT else IDLE_HEARTBEAT.

Definition next_wait d : option Z := if d_continue d then None else Some (heartbeat d).

(** [Drop for DriverState]: an unwinding thread aborts the process before any
    field is dropped; otherwise the table's entries are freed. *)
Inductive drop_outcome := Aborted (d : Drive R) | Dropped.

Definition drop_driver_state d (panicking : bool) : drop_outcome :=
  if panicking then Aborted d else Dropped.

(** The thread's result: the driver state after a clean exit is dropped, after
    a leak it is forgotten, and in both cases the queue's receiver is dropped
    with what is still in it. *)
Inductive thread_end :=
| Drained (o : drop_outcome) (w : World Sm Ch)
| Leaked (d : Drive R) (w : World Sm Ch)
| Panicking (o : drop_outcome).

Definition thread_exit (t : turn_result) (d_panic : Drive R) : option thread_end :=
  match t with
  | TurnEnd (Continue _ _) _ => None
  | TurnEnd (CleanExit d w) q => Some (Drained (drop_driver_state d false) (drop_queue w q))
  | TurnEnd (LeakExit d w) q => Some (Leaked d (drop_queue w q))
  | TurnPanic => Some (Panicking (drop_driver_state d_panic true))
  end.
End Driver.
