(* ===== verification/Ownership.v ===== *)
(** * Who owns a read's buffer

    The ownership invariant of a driver thread's state and its preservation
    by every phase of [Driver.v]: the read entries the kernel may still act
    on are exactly the remainders of the pending table, one per entry, so a
    buffer in use by the kernel is always owned by the table. *)

From S2P Require Import Prelude IoError Geometry Interfaces SharedBudget Pending ReadRun.
From S2P Require Import World TurnBudget SubmitRing Driver.

(** Operation identifiers: they never carry the cancel bit. *)
Definition op_id (id : Z) : Prop := 0 <= id < 2 ^ 63.

(** The reads of a list of submission entries. *)
Definition reads (l : list Sqe) : list Sqe := filter is_read l.

(** The submission entry of every entry of the table. *)
Definition table_sqes (m : gmap Z Pending) : list Sqe :=
  (fun '(id, p) => read_sqe p id) <$> map_to_list m.

(** Entries handed to the ring or still queued for it. *)
Definition in_kernel_or_backlog {R} `{Ring R} (d : Drive R) : list Sqe :=
  d_backlog d ++ outstanding (d_ring d).

Record drive_inv {R} `{Ring R} (d : Drive R) : Prop := {
  di_reads : reads (in_kernel_or_backlog d) ≡ₚ table_sqes (d_pending d);
  di_cancels : Forall (fun s => is_read s \/ exists id, op_id id /\ s = cancel_sqe id)
                 (in_kernel_or_backlog d);
  di_entries : map_Forall (fun id p => op_id id /\ entry_wf p) (d_pending d);
  di_queued : d_queued_cancels d ⊆ dom (d_pending d);
  di_in_flight : in_flight (d_stats d) = wrap u64_max (Z.of_nat (size (d_pending d)));
  di_submitted : submitted (d_stats d) =
    wrap u64_max (delivered (d_stats d) + orphan_reclaimed (d_stats d) + in_flight (d_stats d))
}.

(** While the thread runs every entry still has its sender, on the channel
    named by the operation. *)
Definition table_open (m : gmap Z Pending) : Prop :=
  map_Forall (fun id p => done_tx p = Some id) m.

(** The same operation with the same buffer block. *)
Definition same_buffer (p p' : Pending) : Prop :=
  file p' = file p /\ done_tx p' = done_tx p /\ permit p' = permit p /\
  vec_ptr (buf p') = vec_ptr (buf p) /\
  zlen (vec_data (buf p')) = zlen (vec_data (buf p)).

(** What reaping one completion does to the table and the world: nothing
    visible, one entry resubmitted in place, or one entry finished, its result
    sent and its permits returned. *)
Inductive reap_effect {R Sm Ch} `{Semaphore Sm} `{Oneshot Ch} `{Target}
    (d : Drive R) (w : World Sm Ch) : Drive R -> World Sm Ch -> Prop :=
| EffectNone d' :
    d_pending d' = d_pending d -> reap_effect d w d' w
| EffectResubmit d' id p p' :
    d_pending d !! id = Some p -> same_buffer p p' ->
    d_pending d' = <[id := p']> (d_pending d) -> reap_effect d w d' w
| EffectFinish d' id p outcome :
    d_pending d !! id = Some p ->
    d_pending d' = delete id (d_pending d) ->
    reap_effect d w d' (drop_permits (send w id outcome).1 (permit p)).

(** ** Lemmas: the cancel bit *)

Lemma op_id_no_cancel_bit id : op_id id -> Z.land id CANCEL_BIT = 0.
Proof.
  intros Hid. apply Z.bits_inj'. intros n Hn. rewrite Z.land_spec, Z.bits_0.
  unfold CANCEL_BIT. rewrite Z.shiftl_mul_pow2, Z.mul_1_l, Z.pow2_bits_eqb by lia.
  destruct (Z.eqb_spec 63 n) as [<-|]; [|apply andb_false_r]. unfold op_id in Hid.
  destruct (decide (id = 0)) as [->|]; [done|].
  rewrite Z.bits_above_log2; [done | lia | apply Z.log2_lt_pow2; lia].
Qed.

Lemma cancel_user_data id : op_id id -> Z.land (Z.lor id CANCEL_BIT) CANCEL_BIT <> 0.
Proof.
  intros Hid. rewrite Z.land_lor_distr_l, (op_id_no_cancel_bit _ Hid), Z.lor_0_l,
    Z.land_diag. done.
Qed.

(** ** Lemmas: reads and the table's entries *)

Lemma reads_app l l' : reads (l ++ l') = reads l ++ reads l'.
Proof. apply filter_app. Qed.

#[export] Instance reads_perm : Proper ((≡ₚ) ==> (≡ₚ)) reads.
Proof. intros l l' Hl. unfold reads. by rewrite Hl. Qed.

Lemma reads_cancels ids : reads (cancel_sqe <$> ids) = [].
Proof.
  unfold reads. induction ids as [|id ids IH]; [done|]. simpl.
  rewrite filter_cons_False; [done | by intros []].
Qed.

Lemma reads_read_sqe p id l : reads (read_sqe p id :: l) = read_sqe p id :: reads l.
Proof. unfold reads. by rewrite filter_cons_True. Qed.

Lemma table_sqes_insert m id p :
  m !! id = None -> table_sqes (<[id := p]> m) ≡ₚ read_sqe p id :: table_sqes m.
Proof. intros Hm. unfold table_sqes. by rewrite map_to_list_insert. Qed.

Lemma table_sqes_delete m id p :
  m !! id = Some p -> table_sqes m ≡ₚ read_sqe p id :: table_sqes (delete id m).
Proof.
  intros Hm. rewrite <-table_sqes_insert by apply lookup_delete_eq.
  by rewrite insert_delete_id.
Qed.

Lemma table_sqes_replace m id p p' :
  m !! id = Some p ->
  table_sqes (<[id := p']> m) ≡ₚ read_sqe p' id :: table_sqes (delete id m).
Proof.
  intros Hm. rewrite <-insert_delete_eq. apply table_sqes_insert, lookup_delete_eq.
Qed.

Lemma elem_of_table_sqes m s :
  s ∈ table_sqes m <-> exists id p, m !! id = Some p /\ s = read_sqe p id.
Proof.
  unfold table_sqes. rewrite list_elem_of_fmap. split.
  - intros [[id p] [-> Hin]]. exists id, p. split; [|done]. by apply elem_of_map_to_list.
  - intros (id & p & Hm & ->). exists (id, p). split; [done|]. by apply elem_of_map_to_list.
Qed.

(** ** Lemmas: statistics *)

Lemma wrap_idemp a : wrap u64_max (wrap u64_max a) = wrap u64_max a.
Proof. unfold wrap, u64_max. apply Z.mod_mod. lia. Qed.

Lemma wadd_wrap a b : wadd (wrap u64_max a) b = wrap u64_max (a + b).
Proof. unfold wadd, wrap, u64_max. by rewrite Z.add_mod_idemp_l by lia. Qed.

Lemma wsub_wrap a b : wsub (wrap u64_max a) b = wrap u64_max (a - b).
Proof. unfold wsub, wrap, u64_max. by rewrite Zminus_mod_idemp_l. Qed.

Lemma count_accepted_conserves st :
  submitted st = wrap u64_max (delivered st + orphan_reclaimed st + in_flight st) ->
  let st' := count_accepted st in
  submitted st' = wrap u64_max (delivered st' + orphan_reclaimed st' + in_flight st').
Proof.
  intros Hs. simpl. rewrite Hs. unfold wadd, wrap, u64_max.
  Z.to_euclidean_division_equations. lia.
Qed.

Lemma count_finished_conserves st ok :
  submitted st = wrap u64_max (delivered st + orphan_reclaimed st + in_flight st) ->
  let st' := count_finished st ok in
  submitted st' = wrap u64_max (delivered st' + orphan_reclaimed st' + in_flight st').
Proof.
  intros Hs. simpl. rewrite Hs. destruct ok; unfold wadd, wsub, wrap, u64_max;
    Z.to_euclidean_division_equations; lia.
Qed.

Lemma count_cancel_frame st res :
  let st' := count_cancel st res in
  submitted st' = submitted st /\ delivered st' = delivered st /\
  orphan_reclaimed st' = orphan_reclaimed st /\ in_flight st' = in_flight st.
Proof. unfold count_cancel. repeat case_match; by split_and!. Qed.

(** ** Lemmas: preservation *)

Section Preservation.
Context {R Sm Ch : Type} `{RingLaws R} `{Semaphore Sm} `{Oneshot Ch} `{Target} `{HashOrder}.
Implicit Types (d : Drive R) (w : World Sm Ch).

(** The invariant reads only these components of the state. *)
Lemma drive_inv_ext d d' :
  drive_inv d ->
  reads (in_kernel_or_backlog d') ≡ₚ reads (in_kernel_or_backlog d) ->
  Forall (fun s => is_read s \/ exists id, op_id id /\ s = cancel_sqe id)
    (in_kernel_or_backlog d') ->
  d_pending d' = d_pending d -> d_queued_cancels d' ⊆ dom (d_pending d) ->
  submitted (d_stats d') = submitted (d_stats d) ->
  delivered (d_stats d') = delivered (d_stats d) ->
  orphan_reclaimed (d_stats d') = orphan_reclaimed (d_stats d) ->
  in_flight (d_stats d') = in_flight (d_stats d) ->
  drive_inv d'.
Proof.
  intros [] Hr Hc Hp Hq Es Ed Eo Ef. constructor; rewrite ?Hp, ?Es, ?Ed, ?Eo, ?Ef; try done.
  by rewrite Hr.
Qed.

Lemma Forall_cancels_app l ids :
  Forall (fun s => is_read s \/ exists id, op_id id /\ s = cancel_sqe id) l ->
  Forall op_id ids ->
  Forall (fun s => is_read s \/ exists id, op_id id /\ s = cancel_sqe id)
    (l ++ (cancel_sqe <$> ids)).
Proof.
  intros Hl Hids. apply Forall_app. split; [done|]. apply Forall_fmap.
  eapply Forall_impl; [done|]. intros id Hid. right. eauto.
Qed.

(** Queueing cancels of pending operations. *)
Lemma queue_cancels_inv d ids :
  drive_inv d -> NoDup ids -> (forall id, id ∈ ids -> id ∈ dom (d_pending d)) ->
  let '(bl, q) := queue_cancels (d_backlog d) (d_queued_cancels d) ids in
  drive_inv (set_table d (d_pending d) bl q (d_stats d)).
Proof.
  intros Hd Hnd Hids. rewrite queue_cancels_spec by done.
  assert (Hop : Forall op_id (filter (fun id => id ∉ d_queued_cancels d) ids)).
  { apply Forall_forall. intros id [_ Hin]%list_elem_of_filter.
    apply Hids, elem_of_dom in Hin as [p Hp]. by apply (di_entries d Hd) in Hp as [? _]. }
  apply (drive_inv_ext d); try done.
  - unfold in_kernel_or_backlog. simpl. rewrite !reads_app, reads_cancels.
    by rewrite app_nil_r.
  - unfold in_kernel_or_backlog. simpl. rewrite <-app_assoc.
    rewrite (Permutation_app_comm (cancel_sqe <$> _)), app_assoc.
    apply Forall_cancels_app; [apply Hd | done].
  - simpl. pose proof (di_queued d Hd). set_solver.
Qed.

Lemma cancel_all_inv d : drive_inv d -> drive_inv (cancel_all d).
Proof.
  intros Hd. unfold cancel_all.
  pose proof (queue_cancels_inv d (key_order (dom (d_pending d))) Hd) as Hq.
  destruct (queue_cancels _ _ _) as [bl q]. apply Hq.
  - rewrite key_order_perm. apply NoDup_elements.
  - intros id. rewrite key_order_perm. by rewrite elem_of_elements.
Qed.

Lemma set_shutting_down_inv d : drive_inv d -> drive_inv (set_shutting_down d).
Proof. intros Hd. by apply (drive_inv_ext d); try apply Hd. Qed.

Lemma intake_cancel_inv d id : drive_inv d -> drive_inv (intake_cancel d id).
Proof.
  intros Hd. unfold intake_cancel. destruct (d_pending d !! id) as [p|] eqn:Hp; [|done].
  pose proof (queue_cancels_inv d [id] Hd (NoDup_singleton id)) as Hq.
  unfold queue_cancels in Hq. simpl in Hq.
  destruct (queue_cancel _ _ _) as [bl q].
  assert (Hd' : drive_inv (set_table d (d_pending d) bl q (d_stats d))).
  { apply Hq. intros id' ->%list_elem_of_singleton. apply elem_of_dom. eauto. }
  clear Hq. destruct Hd'. simpl in *. unfold in_kernel_or_backlog in *. simpl in *.
  destruct (di_entries0 id p Hp) as [Hid Hwf].
  constructor; simpl; try done.
  - rewrite di_reads0. by rewrite (table_sqes_delete _ _ _ Hp), (table_sqes_replace _ _ _ _ Hp).
  - apply map_Forall_insert_2; [|done]. split; [done|]. by apply set_cancel_requested_wf.
  - rewrite dom_insert_lookup_L; eauto.
  - by rewrite map_size_insert_Some.
Qed.

(** An accepted read joins the table and the backlog. *)
Lemma intake_entry_inv d id p :
  drive_inv d -> d_pending d !! id = None -> op_id id -> entry_wf p ->
  drive_inv (set_table d (<[id := p]> (d_pending d)) (d_backlog d ++ [read_sqe p id])
               (d_queued_cancels d) (count_accepted (d_stats d))).
Proof.
  intros [] Hnone Hid Hp. unfold in_kernel_or_backlog in *.
  constructor; unfold in_kernel_or_backlog; simpl.
  - rewrite table_sqes_insert by done. rewrite <-di_reads0, <-app_assoc. simpl.
    rewrite <-Permutation_middle. by rewrite reads_read_sqe.
  - rewrite <-app_assoc. simpl. rewrite <-Permutation_middle. constructor; [by left|done].
  - by apply map_Forall_insert_2.
  - rewrite dom_insert_L. set_solver.
  - rewrite map_size_insert_None, di_in_flight0, wadd_wrap by done. f_equal. lia.
  - by apply count_accepted_conserves.
Qed.

Lemma flush_backlog_perm (r : R) bl :
  let '(r', bl') := flush_backlog r bl in bl' ++ outstanding r' ≡ₚ bl ++ outstanding r.
Proof.
  revert r. induction bl as [|s bl IH]; intros r; simpl; [done|].
  destruct (sq_push r s) as [r'|] eqn:Hpush; [|done].
  specialize (IH r'). destruct (flush_backlog r' bl) as [r'' bl'].
  rewrite IH, (sq_push_outstanding _ _ _ Hpush). by rewrite <-Permutation_middle.
Qed.

Lemma submit_if_needed_perm (r : R) :
  outstanding (submit_if_needed r).1 ≡ₚ outstanding r.
Proof.
  unfold submit_if_needed. case_match; [|done].
  pose proof (ring_submit_outstanding r). by destruct (ring_submit r).
Qed.

(** A ring that moved entries around keeps the invariant. *)
Lemma set_ring_inv d r bl :
  drive_inv d -> bl ++ outstanding r ≡ₚ in_kernel_or_backlog d -> drive_inv (set_ring d r bl).
Proof.
  intros Hd Hperm. apply (drive_inv_ext d); try done.
  - unfold in_kernel_or_backlog at 1. simpl. by rewrite Hperm.
  - unfold in_kernel_or_backlog. simpl. rewrite Hperm. apply Hd.
  - apply Hd.
Qed.

Lemma handle_submit_result_frame res st errs logged sh :
  let st' := so_stats (handle_submit_result res st errs logged sh) in
  submitted st' = submitted st /\ delivered st' = delivered st /\
  orphan_reclaimed st' = orphan_reclaimed st /\ in_flight st' = in_flight st.
Proof. destruct res as [n|e]; simpl; [done|]. case_match; by simpl. Qed.

Lemma submit_ring_inv d : drive_inv d -> drive_inv (submit_ring d).1.
Proof.
  intros Hd. unfold submit_ring.
  pose proof (flush_backlog_perm (d_ring d) (d_backlog d)) as Hf.
  destruct (flush_backlog _ _) as [r bl].
  pose proof (submit_if_needed_perm r) as Hs. destruct (submit_if_needed r) as [r' res].
  simpl in Hs. assert (Hd1 : drive_inv (set_ring d r' bl)).
  { apply set_ring_inv; [done|]. by rewrite Hs. }
  destruct res as [res|]; [|done].
  set (o := handle_submit_result _ _ _ _ _).
  assert (Hd2 : drive_inv (set_submit_state (set_ring d r' bl) (so_stats o) (so_errors o)
                             (so_logged o) (so_shutting_down o))).
  { destruct (handle_submit_result_frame res (d_stats d) (d_submit_errors d)
      (d_error_logged d) (d_shutting_down d)) as (? & ? & ? & ?).
    apply (drive_inv_ext (set_ring d r' bl)); try done; apply Hd1. }
  destruct (so_on_shutdown o); [|done].
  pose proof (cancel_all_inv _ Hd2) as Hc. unfold cancel_all in Hc. simpl in Hc.
  simpl. by destruct (queue_cancels _ _ _).
Qed.

Lemma reap_resubmit_inv d r' p p' id s :
  drive_inv d -> d_pending d !! id = Some p -> op_id id -> entry_wf p' ->
  outstanding (d_ring d) ≡ₚ read_sqe p id :: outstanding r' -> s = read_sqe p' id ->
  let d0 := set_ring d r' (d_backlog d) in
  drive_inv (set_table d0 (<[id := p']> (d_pending d0)) (d_backlog d0 ++ [s])
               (d_queued_cancels d0) (d_stats d0)).
Proof.
  intros [] Hp Hid Hwf Hout -> d0. unfold in_kernel_or_backlog in *. rewrite Hout in *.
  rewrite <-Permutation_middle in *.
  constructor; unfold in_kernel_or_backlog; simpl; try done.
  - rewrite <-app_assoc. simpl. rewrite <-Permutation_middle, reads_read_sqe.
    rewrite (table_sqes_replace _ _ _ _ Hp). apply perm_skip.
    rewrite reads_read_sqe, (table_sqes_delete _ _ _ Hp) in di_reads0.
    by apply Permutation_cons_inv in di_reads0.
  - rewrite <-app_assoc. simpl. rewrite <-Permutation_middle.
    inversion_clear di_cancels0. constructor; [by left|done].
  - by apply map_Forall_insert_2.
  - rewrite dom_insert_lookup_L; eauto.
  - by rewrite map_size_insert_Some.
Qed.

Lemma reap_finish_inv d r' p id ok :
  drive_inv d -> d_pending d !! id = Some p ->
  outstanding (d_ring d) ≡ₚ read_sqe p id :: outstanding r' ->
  let d0 := set_ring d r' (d_backlog d) in
  drive_inv (set_table d0 (delete id (d_pending d0)) (d_backlog d0)
               (d_queued_cancels d0 ∖ {[id]}) (count_finished (d_stats d0) ok)).
Proof.
  intros [] Hp Hout d0. unfold in_kernel_or_backlog in *. rewrite Hout in *.
  rewrite <-Permutation_middle in *.
  constructor; unfold in_kernel_or_backlog; simpl.
  - rewrite reads_read_sqe, (table_sqes_delete _ _ _ Hp) in di_reads0.
    by apply Permutation_cons_inv in di_reads0.
  - by inversion_clear di_cancels0.
  - by apply map_Forall_delete.
  - rewrite dom_delete_L. set_solver.
  - rewrite map_size_delete_Some by eauto. rewrite di_in_flight0, wsub_wrap. f_equal.
    assert (size (d_pending d) <> 0%nat); [|lia].
    intros Hz%map_size_empty_inv. by rewrite Hz in Hp.
  - by apply count_finished_conserves.
Qed.

(** An entry the ring gives back is a cancel, or the remainder of one pending entry. *)
Lemma consumed_entry d s r' :
  drive_inv d -> outstanding (d_ring d) ≡ₚ s :: outstanding r' ->
  (exists id, op_id id /\ s = cancel_sqe id)
  \/ (exists id p, op_id id /\ d_pending d !! id = Some p /\ entry_wf p /\ s = read_sqe p id).
Proof.
  intros Hd Hout. assert (Hs : s ∈ in_kernel_or_backlog d).
  { unfold in_kernel_or_backlog. rewrite Hout. set_solver. }
  pose proof (di_cancels _ Hd) as Hc. rewrite Forall_forall in Hc.
  destruct (decide (is_read s)) as [Hread|Hread]; [right|left].
  - assert (Hin : s ∈ reads (in_kernel_or_backlog d)) by by apply list_elem_of_filter.
    rewrite (di_reads _ Hd) in Hin. apply elem_of_table_sqes in Hin as (id & p & Hp & ->).
    destruct (di_entries _ Hd _ _ Hp). eauto 10.
  - destruct (Hc s Hs) as [?|?]; done.
Qed.

(** A consumed completion answers such an entry. *)
Lemma consumed_cases d c r' :
  drive_inv d -> cq_next (d_ring d) = Some (c, r') ->
  (exists id, op_id id /\ cqe_user_data c = Z.lor id CANCEL_BIT /\
     outstanding (d_ring d) ≡ₚ cancel_sqe id :: outstanding r')
  \/ (exists id p, op_id id /\ cqe_user_data c = id /\ d_pending d !! id = Some p /\
        entry_wf p /\ answers (read_sqe p id) c /\
        outstanding (d_ring d) ≡ₚ read_sqe p id :: outstanding r').
Proof.
  intros Hd Hnext. destruct (cq_next_outstanding _ _ _ Hnext) as (s & Hout & Hans).
  pose proof Hans as [Hud _].
  destruct (consumed_entry d s r' Hd Hout) as [(id & ? & ->)|(id & p & ? & ? & ? & ->)];
    [left|right]; eauto 10.
Qed.

Lemma reap_one_spec d w c r' inp :
  drive_inv d -> table_open (d_pending d) -> cq_next (d_ring d) = Some (c, r') ->
  exists d' w', reap_one (set_ring d r' (d_backlog d)) w c inp = Some (d', w') /\
    drive_inv d' /\ reap_effect d w d' w'.
Proof.
  intros Hd Hopen Hnext. unfold reap_one.
  destruct (consumed_cases d c r' Hd Hnext) as
    [(id & Hid & Hud & Hout)|(id & p & Hid & Hud & Hp & Hwf & Hans & Hout)].
  - rewrite Hud, (proj2 (Z.eqb_neq _ _)) by by apply cancel_user_data. simpl.
    eexists _, _. split; [done|]. split; [|by apply EffectNone].
    destruct (count_cancel_frame (d_stats d) (cqe_result c)) as (? & ? & ? & ?).
    assert (Hd1 : drive_inv (set_ring d r' (d_backlog d)) ).
    { destruct Hd. unfold in_kernel_or_backlog in *. rewrite Hout in *.
      rewrite <-Permutation_middle in *.
      constructor; unfold in_kernel_or_backlog; simpl; try done.
      by inversion_clear di_cancels0. }
    apply (drive_inv_ext (set_ring d r' (d_backlog d))); try done; apply Hd1.
  - rewrite Hud, op_id_no_cancel_bit by done. simpl. rewrite Hp.
    unfold reap_entry. rewrite Hud, (Hopen _ _ Hp).
    pose proof (answers_read_bounds _ _ _ Hwf Hans) as (Hres & _).
    set (e := mkReapEnv _ _).
    destruct (reap_read_step (kernel_store p (cqe_addr c) (cqe_stored c)) id (cqe_result c)
      (d_shutting_down (set_ring d r' (d_backlog d))) e (kernel_store_wf _ _ _ Hwf))
      as (p' & step & -> & Hsame & Hstep); [done|].
    destruct Hsame as (Hf & Hd' & Hpm & _). simpl in Hf, Hd', Hpm.
    simpl. destruct step as [outcome|s].
    + rewrite Hd', (Hopen _ _ Hp). simpl.
      destruct (send w id outcome) as [w' ok] eqn:Hsw. rewrite Hpm.
      eexists _, _. split; [done|]. split.
      * by apply (reap_finish_inv d r' p id ok).
      * replace w' with (send w id outcome).1 by by rewrite Hsw.
        by eapply EffectFinish.
    + destruct Hstep as (Hs & Hwf' & Hbuf & _).
      eexists _, _. split; [done|]. split.
      * by apply (reap_resubmit_inv d r' p p' id s).
      * eapply EffectResubmit; [done | | done]. unfold same_buffer. rewrite Hbuf.
        split_and!; try done. apply zlen_kernel_store.
Qed.
End Preservation.
