(* ===== verification/System.v ===== *)
(** * A shard and its callers

    One driver thread with its message queue, running concurrently with the
    callers that admit, send, cancel and abandon reads and with the kernel.
    Each step is one atomic action of one of them; the driver's steps are the
    phases of [Driver.v]. *)

From S2P Require Import Prelude IoError Geometry Interfaces SharedBudget Pending ReadRun.
From S2P Require Import World TurnBudget SubmitRing Driver Ownership.

(** Whether the thread still runs, has drained and dropped its state, or has
    leaked it. *)
Inductive status := Running_ | Drained_ | Leaked_.

#[export] Instance status_eq_dec : EqDecision status.
Proof. solve_decision. Defined.

(** The shard, with the operations sent to it so far and the permits its
    callers hold outside the queue and the table: count permits, and byte
    permits (of this shard's callers and of every other shard). *)
Record Sys (R Sm Ch : Type) := mkSys {
  sy_drive : Drive R;
  sy_world : World Sm Ch;
  sy_queue : list Msg;
  sy_used : gset Z;
  sy_held : Z;
  sy_elsewhere : Z;
  sy_status : status
}.
Arguments mkSys {_ _ _}.
Arguments sy_drive {_ _ _}.
Arguments sy_world {_ _ _}.
Arguments sy_queue {_ _ _}.
Arguments sy_used {_ _ _}.
Arguments sy_held {_ _ _}.
Arguments sy_elsewhere {_ _ _}.
Arguments sy_status {_ _ _}.

(** The bytes a request is charged. *)
Definition charge_of `{Target} (off n a : Z) : Z :=
  match aligned_geometry off n a with
  | Some (_, _, rl) => allocation_len rl a
  | None => 0
  end.

(** The byte permits a read carries under an optional driver-wide limit. *)
Definition charged (limit : option Z) (bytes : Z) : option Z :=
  match limit with Some _ => Some bytes | None => None end.

(** What [submit] guarantees of a message: a fresh channel per operation, a
    validated request, and permits for exactly its allocation. *)
Definition msg_ok `{Target} (limit : option Z) (m : Msg) : Prop :=
  match m with
  | MsgRead id _ off n c pm al =>
      op_id id /\ c = id /\ request_ok off n al /\
      permit_bytes pm = charged limit (charge_of off n al)
  | _ => True
  end.

Definition msg_bytes (m : Msg) : Z :=
  match m with
  | MsgRead _ _ _ _ _ pm _ => default 0 (permit_bytes pm)
  | _ => 0
  end.

Definition queue_bytes (q : list Msg) : Z := foldr (fun m acc => msg_bytes m + acc) 0 q.

Definition entry_bytes (p : Pending) : Z := zlen (vec_data (buf p)).

(** The read buffers a driver thread owns, in bytes. *)
Definition table_bytes (m : gmap Z Pending) : Z := sum_map entry_bytes m.

(** The caller of a channel has an answer or has gone. *)
Definition answered {Ch} `{Oneshot Ch} (o : Ch) (c : Z) : Prop :=
  os_rx o c <> RxEmpty \/ os_is_closed o c = true.

Section System.
Context {R Sm Ch : Type} `{Ring R} `{Semaphore Sm} `{Oneshot Ch} `{Target} `{HashOrder}.
Context (limit : option Z) (ok : ReapInput -> Prop).
Implicit Types s : Sys R Sm Ch.

(** Actions of the callers and of other shards: they move permits between the
    semaphores and themselves, close semaphores, create channels for
    operations not sent yet, and close receivers. *)
Record callers_act (used : gset Z) (w w' : World Sm Ch) (held held' els els' : Z) : Prop := {
  ca_count : sem_free (w_count w') + held' = sem_free (w_count w) + held /\
             0 <= held' /\ 0 <= sem_free (w_count w');
  ca_closed : sem_is_closed (w_count w) = true -> sem_is_closed (w_count w') = true;
  ca_bytes : match w_bytes w, w_bytes w' with
             | Some b, Some b' => sem_free b' + els' = sem_free b + els /\
                                  0 <= els' /\ 0 <= sem_free b'
             | None, None => els' = els
             | _, _ => False
             end;
  ca_chan : forall c, c ∈ used ->
    os_rx (w_chan w') c = os_rx (w_chan w) c /\
    (os_is_closed (w_chan w) c = true -> os_is_closed (w_chan w') c = true)
}.

Definition with_drive s (d : Drive R) (w : World Sm Ch) (q : list Msg) : Sys R Sm Ch :=
  mkSys d w q (sy_used s) (sy_held s) (sy_elsewhere s) (sy_status s).

(** One action, where what completions read from outside is as [ok] says. *)
Inductive step_of (s : Sys R Sm Ch) : Sys R Sm Ch -> Prop :=
| StepCallers w' held' els' :
    callers_act (sy_used s) (sy_world s) w' (sy_held s) held' (sy_elsewhere s) els' ->
    step_of s (mkSys (sy_drive s) w' (sy_queue s) (sy_used s) held' els' (sy_status s))
| StepSend id f off n c pm al :
    sy_status s = Running_ ->
    msg_ok limit (MsgRead id f off n c pm al) -> id ∉ sy_used s ->
    os_rx (w_chan (sy_world s)) id = RxEmpty ->
    os_is_closed (w_chan (sy_world s)) id = false ->
    1 <= sy_held s -> default 0 (permit_bytes pm) <= sy_elsewhere s ->
    step_of s (mkSys (sy_drive s) (sy_world s) (sy_queue s ++ [MsgRead id f off n c pm al])
              ({[id]} ∪ sy_used s) (sy_held s - 1)
              (sy_elsewhere s - default 0 (permit_bytes pm)) (sy_status s))
| StepNotify m :
    sy_status s = Running_ -> msg_read_id m = None ->
    step_of s (with_drive s (sy_drive s) (sy_world s) (sy_queue s ++ [m]))
| StepKernel r' :
    outstanding r' ≡ₚ outstanding (d_ring (sy_drive s)) ->
    step_of s (with_drive s (set_ring (sy_drive s) r' (d_backlog (sy_drive s))) (sy_world s)
              (sy_queue s))
| StepIntake m q d' w' b b' addr :
    sy_status s = Running_ -> sy_queue s = m :: q -> 0 <= addr ->
    intake_msg (sy_drive s) (sy_world s) b addr m = Some (d', w', b') ->
    step_of s (with_drive s d' w' q)
| StepDisconnect :
    sy_status s = Running_ ->
    step_of s (with_drive s (set_shutting_down (sy_drive s)) (sy_world s) (sy_queue s))
| StepSubmit :
    sy_status s = Running_ ->
    step_of s (with_drive s (submit_ring (sy_drive s)).1 (sy_world s) (sy_queue s))
| StepReap c r' inp d' w' :
    sy_status s = Running_ -> cq_next (d_ring (sy_drive s)) = Some (c, r') ->
    ok inp ->
    reap_one (set_ring (sy_drive s) r' (d_backlog (sy_drive s))) (sy_world s) c inp =
      Some (d', w') ->
    step_of s (with_drive s d' w' (sy_queue s))
| StepOverflow st prev warn :
    sy_status s = Running_ ->
    update_cq_overflow (d_stats (sy_drive s)) (d_previous_overflow (sy_drive s))
      (cq_overflow (d_ring (sy_drive s))) = (st, prev, warn) ->
    step_of s (with_drive s (set_overflow (sy_drive s) st prev) (sy_world s) (sy_queue s))
| StepCheck env d' w' :
    sy_status s = Running_ -> check_exit (sy_drive s) (sy_world s) env = Continue d' w' ->
    step_of s (with_drive s d' w' (sy_queue s))
| StepPace b :
    sy_status s = Running_ ->
    step_of s (with_drive s (set_continue (sy_drive s) b) (sy_world s) (sy_queue s))
| StepDrained env d' w' :
    sy_status s = Running_ -> check_exit (sy_drive s) (sy_world s) env = CleanExit d' w' ->
    step_of s (mkSys d' (drop_queue w' (sy_queue s)) [] (sy_used s) (sy_held s)
              (sy_elsewhere s) Drained_)
| StepLeak env d' w' :
    sy_status s = Running_ -> check_exit (sy_drive s) (sy_world s) env = LeakExit d' w' ->
    step_of s (mkSys d' (drop_queue w' (sy_queue s)) [] (sy_used s) (sy_held s)
              (sy_elsewhere s) Leaked_).

(** A freshly started shard of the given depth. *)
Definition start (entries : Z) (r : R) (pool : Pool) (o : Ch) : Sys R Sm Ch :=
  mkSys (new_drive r) (mkWorld (sem_new entries) (sem_new <$> limit) pool o) [] ∅ 0 0 Running_.

(** The states of a shard whose configuration passed [validate_read_limits]. *)
Definition reachable_of (entries : Z) s : Prop :=
  0 <= entries /\ (forall total, limit = Some total -> 0 <= total) /\
  exists r pool o, outstanding r = [] /\ rtc step_of (start entries r pool o) s.

(** ** The invariant *)

(** Accounts of the table, the queue and the world: every operation is in one
    place, every permit is accounted for, every caller is answered or waiting
    on a sender the thread still holds. *)
Record accounts (entries : Z) (leaked : bool) (m : gmap Z Pending) (q : list Msg)
    (w : World Sm Ch) (used : gset Z) (held els : Z) : Prop := {
  ac_nodup : NoDup (queued_ids q);
  ac_queued : forall id, id ∈ queued_ids q -> id ∈ used /\ m !! id = None;
  ac_used : dom m ⊆ used;
  ac_msgs : Forall (msg_ok limit) q;
  ac_done : leaked = false -> table_open m;
  ac_permit : map_Forall (fun _ p => permit_bytes (permit p) = charged limit (entry_bytes p)) m;
  ac_count : sem_free (w_count w) + held + zlen (queued_ids q) + Z.of_nat (size m) = entries;
  ac_count_nonneg : 0 <= sem_free (w_count w) /\ 0 <= held;
  ac_bytes : match limit, w_bytes w with
             | Some total, Some b =>
                 sem_free b + els + queue_bytes q + table_bytes m = total /\
                 0 <= sem_free b /\ 0 <= els
             | None, None => els = 0
             | _, _ => False
             end;
  ac_waiting : forall id, id ∈ used ->
    id ∈ queued_ids q \/ leaked = false /\ id ∈ dom m -> os_rx (w_chan w) id = RxEmpty;
  ac_answered : forall id, id ∈ used ->
    ~ (id ∈ queued_ids q \/ leaked = false /\ id ∈ dom m) -> answered (w_chan w) id
}.

Record sys_inv (entries : Z) s : Prop := {
  si_drive : drive_inv (sy_drive s);
  si_accounts : accounts entries (bool_decide (sy_status s = Leaked_))
    (d_pending (sy_drive s)) (sy_queue s) (sy_world s) (sy_used s) (sy_held s)
    (sy_elsewhere s);
  si_drained : sy_status s = Drained_ -> d_pending (sy_drive s) = ∅;
  si_exited : sy_status s <> Running_ ->
    sy_queue s = [] /\ sem_is_closed (w_count (sy_world s)) = true
}.
End System.

(** No assumption on what completions read. *)
Definition any_input (_ : ReapInput) : Prop := True.

Abbreviation step limit := (step_of limit any_input).
Abbreviation reachable limit := (reachable_of limit any_input).

Section Inputs.
Context {R Sm Ch : Type} `{Ring R} `{Semaphore Sm} `{Oneshot Ch} `{Target} `{HashOrder}.
Context (limit : option Z).

Lemma step_of_mono (ok ok' : ReapInput -> Prop) (s s' : Sys R Sm Ch) :
  (forall i, ok i -> ok' i) -> step_of limit ok s s' -> step_of limit ok' s s'.
Proof.
  intros Hok [];
    [eapply StepCallers|eapply StepSend|eapply StepNotify|eapply StepKernel|eapply StepIntake
    |eapply StepDisconnect|eapply StepSubmit|eapply StepReap|eapply StepOverflow|eapply StepCheck
    |eapply StepPace|eapply StepDrained|eapply StepLeak]; eauto.
Qed.

Lemma steps_of_any ok (s s' : Sys R Sm Ch) : rtc (step_of limit ok) s s' -> rtc (step limit) s s'.
Proof. apply rtc_subrel. intros ??. by apply step_of_mono. Qed.

Lemma reachable_of_any ok n (s : Sys R Sm Ch) : reachable_of limit ok n s -> reachable limit n s.
Proof.
  intros (Hn & Hl & r & pool & o & Hr & Hs). split_and!; [done..|].
  exists r, pool, o. eauto using steps_of_any.
Qed.
End Inputs.
