(* ===== verification/Safety.v ===== *)
(** * Safety of a shard

    The invariant of [System.v] holds in every reachable state, whatever the
    callers, the kernel and the driver's phases interleave; from it the
    guarantees a caller and the kernel rely on. *)

From S2P Require Import Prelude IoError Geometry Interfaces SharedBudget Pending ReadRun.
From S2P Require Import World TurnBudget SubmitRing Driver Ownership System.

(** Operation [id], which carried permits [pm], is over: its caller is
    answered and its permits are back, and no other channel has changed. *)
Record settles {Sm Ch} `{Semaphore Sm} `{Oneshot Ch} (w w' : World Sm Ch) (id : Z)
    (bytes : option Z) : Prop := {
  st_count : sem_free (w_count w') = sem_free (w_count w) + 1;
  st_bytes : match w_bytes w, w_bytes w' with
             | Some b, Some b' => sem_free b' = sem_free b + default 0 bytes
             | None, None => True
             | _, _ => False
             end;
  st_answered : os_rx (w_chan w) id = RxEmpty -> answered (w_chan w') id;
  st_frame c : c <> id -> os_rx (w_chan w') c = os_rx (w_chan w) c;
  st_closed c : os_is_closed (w_chan w') c = os_is_closed (w_chan w) c
}.

Section Worlds.
Context {Sm Ch : Type} `{SemaphoreLaws Sm} `{OneshotLaws Ch} `{Target}.
Context (limit : option Z).
Implicit Types w : World Sm Ch.

Lemma sent_answered o c r : answered (os_send o c r).1 c.
Proof.
  unfold answered. rewrite os_send_closed. destruct (os_is_closed o c) eqn:Hc; [by right|].
  left. by rewrite os_send_value.
Qed.

Lemma send_settles w id r pm : settles w (drop_permits (send w id r).1 pm) id (permit_bytes pm).
Proof.
  unfold send. pose proof (sent_answered (w_chan w) id r) as Ha.
  pose proof (os_send_closed (w_chan w) id r) as Hc.
  pose proof (os_send_frame (w_chan w) id r) as Hf.
  destruct (os_send _ _ _) as [o ok]. simpl in *. constructor; simpl; auto.
  - apply sem_release_free.
  - destruct (permit_bytes pm), (w_bytes w); simpl; rewrite ?sem_release_free; lia || done.
Qed.

Lemma drop_msg_settles w id f off n pm al :
  settles w (drop_msg w (MsgRead id f off n id pm al)) id (permit_bytes pm).
Proof.
  constructor; simpl.
  - apply sem_release_free.
  - destruct (permit_bytes pm), (w_bytes w); simpl; rewrite ?sem_release_free; lia || done.
  - intros He. unfold answered. rewrite os_drop_tx_closed.
    destruct (os_is_closed (w_chan w) id) eqn:Hc; [by right|]. left.
    by rewrite os_drop_tx_rx.
  - intros c Hc. by apply os_drop_tx_frame.
  - intros c. apply os_drop_tx_closed.
Qed.

Lemma answered_frame (w w' : World Sm Ch) c :
  os_rx (w_chan w') c = os_rx (w_chan w) c ->
  (os_is_closed (w_chan w) c = true -> os_is_closed (w_chan w') c = true) ->
  answered (w_chan w) c -> answered (w_chan w') c.
Proof. unfold answered. intros -> ? [?|?]; auto. Qed.

(** ** Accounts under the transitions *)

Implicit Types (m : gmap Z Pending) (q : list Msg) (used : gset Z).

Lemma queued_ids_read id f off n c pm al q :
  queued_ids (MsgRead id f off n c pm al :: q) = id :: queued_ids q.
Proof. done. Qed.

Lemma queued_ids_snoc q msg :
  queued_ids (q ++ [msg]) = queued_ids q ++ queued_ids [msg].
Proof. apply omap_app. Qed.

Lemma queue_bytes_snoc q msg : queue_bytes (q ++ [msg]) = queue_bytes q + msg_bytes msg.
Proof. induction q as [|x q IH]; simpl; [lia|]. fold (queue_bytes q). unfold queue_bytes in *. lia. Qed.

(** A message that carries no read comes or goes. *)
Lemma accounts_requeue n l m q q' w used h e :
  accounts limit n l m q w used h e ->
  queued_ids q' = queued_ids q -> queue_bytes q' = queue_bytes q ->
  Forall (msg_ok limit) q' -> accounts limit n l m q' w used h e.
Proof. intros [] Hi Hb Hf. constructor; rewrite ?Hi, ?Hb; done. Qed.

Lemma charge_of_nonneg off n a : request_ok off n a -> 0 <= charge_of off n a <= u32_max.
Proof.
  intros (Ho & Hn & ko & hd & rl & Hg & Hcap & _). unfold charge_of. rewrite Hg.
  destruct (aligned_geometry_covers _ _ _ _ Ho Hn Hg) as [[] _].
  pose proof (valid_align_pos _ (aligned_geometry_valid _ _ _ _ Hg)).
  unfold in_range, allocation_len, MAX_READ_LEN, u32_max in *. simpl in *. lia.
Qed.

Lemma msg_bytes_ok msg :
  msg_ok limit msg -> msg_bytes msg = 0 \/ 0 <= msg_bytes msg /\ limit <> None.
Proof.
  destruct msg as [id f off n c pm al| |]; simpl; [|by left..].
  intros (_ & _ & Hok & ->). apply charge_of_nonneg in Hok as [? _].
  destruct limit; simpl; [by right | by left].
Qed.

(** The read at the head of the queue is over. *)
Lemma accounts_unqueue n l m q w w' used h e id f off len c pm al :
  accounts limit n l m (MsgRead id f off len c pm al :: q) w used h e ->
  settles w w' id (permit_bytes pm) -> accounts limit n l m q w' used h e.
Proof.
  intros [] [Hc Hb Ha Hf Hcl]. rewrite queued_ids_read in *. simpl in *.
  apply NoDup_cons in ac_nodup as [Hnew Hnd].
  assert (Hid : id ∈ used /\ m !! id = None) by (apply ac_queued; left).
  assert (Hm : id ∉ dom m) by (apply not_elem_of_dom; tauto).
  pose proof (Forall_inv ac_msgs) as Hmsg. apply Forall_inv_tail in ac_msgs.
  pose proof (msg_bytes_ok _ Hmsg) as Hmb. simpl in Hmb.
  unfold zlen in *. simpl in *. constructor; try done.
  - intros id' ?. apply ac_queued. by right.
  - unfold zlen. lia.
  - lia.
  - destruct limit, (w_bytes w), (w_bytes w'); try done. fold (queue_bytes q) in *.
    split_and!; lia.
  - intros id' Hu Hin. rewrite Hf by (intros ->; naive_solver).
    apply ac_waiting; [done|]. destruct Hin; [left; by right | by right].
  - intros id' Hu Hin. destruct (decide (id' = id)) as [->|Hne].
    + apply Ha, ac_waiting; [done|]. left. by left.
    + apply (answered_frame w); [auto | by rewrite Hcl |].
      apply ac_answered; [done|]. intros [Hq|?]; [|auto].
      apply elem_of_cons in Hq as [?|?]; auto.
Qed.

(** Dropping the queue settles every read in it. *)
Lemma accounts_drop_queue n l m q w used h e :
  accounts limit n l m q w used h e -> accounts limit n l m [] (drop_queue w q) used h e.
Proof.
  revert w. induction q as [|[id f off len c pm al| |] q IH]; intros w Ha; [done|..].
  - apply IH. pose proof (Forall_inv (ac_msgs _ _ _ _ _ _ _ _ _ Ha)) as (_ & -> & _).
    eapply accounts_unqueue; [done|]. apply drop_msg_settles.
  - apply IH. eapply accounts_requeue; [done..|]. by eapply Forall_inv_tail, ac_msgs.
  - apply IH. eapply accounts_requeue; [done..|]. by eapply Forall_inv_tail, ac_msgs.
Qed.

(** The callers and the other shards act. *)
Lemma accounts_callers n l m q w w' used h e h' e' :
  accounts limit n l m q w used h e -> callers_act used w w' h h' e e' ->
  accounts limit n l m q w' used h' e'.
Proof.
  intros [] [Hc _ Hb Hch]. constructor; try done.
  - lia.
  - lia.
  - destruct limit, (w_bytes w), (w_bytes w'); try done; lia.
  - intros id Hu Hin. destruct (Hch id Hu) as [-> _]. auto.
  - intros id Hu Hin. destruct (Hch id Hu) as [Hr Hcl].
    apply (answered_frame w); auto.
Qed.

(** A caller sends a read. *)
Lemma accounts_send n m q w used h e id f off len c pm al :
  accounts limit n false m q w used h e -> msg_ok limit (MsgRead id f off len c pm al) ->
  id ∉ used -> os_rx (w_chan w) id = RxEmpty -> 1 <= h -> default 0 (permit_bytes pm) <= e ->
  accounts limit n false m (q ++ [MsgRead id f off len c pm al]) w ({[id]} ∪ used) (h - 1)
    (e - default 0 (permit_bytes pm)).
Proof.
  intros [] Hmsg Hid Hrx Hh He.
  assert (Hm : id ∉ dom m) by set_solver.
  assert (Hq : id ∉ queued_ids q) by (intros []%ac_queued; done).
  constructor; rewrite ?queued_ids_snoc; try done.
  - simpl. apply NoDup_app. split_and!; [done| |apply NoDup_singleton].
    intros x Hx ->%list_elem_of_singleton. done.
  - intros x [Hx| ->%list_elem_of_singleton]%elem_of_app.
    + destruct (ac_queued x Hx). set_solver.
    + split; [set_solver|]. by apply not_elem_of_dom.
  - set_solver.
  - apply Forall_app. split; [done|]. by constructor.
  - unfold zlen in *. rewrite length_app. simpl. lia.
  - lia.
  - rewrite queue_bytes_snoc. simpl. destruct Hmsg as (_ & _ & _ & Hpm).
    destruct limit, (w_bytes w); try done; [lia|]. rewrite Hpm. simpl. lia.
  - intros x Hx Hin. destruct (decide (x = id)) as [->|Hne]; [done|].
    apply ac_waiting; [set_solver|]. rewrite elem_of_app in Hin. set_solver.
  - intros x Hx Hin. destruct (decide (x = id)) as [->|Hne].
    + destruct Hin. left. apply elem_of_app. right. by left.
    + apply ac_answered; [set_solver|]. rewrite elem_of_app in Hin. naive_solver.
Qed.

(** The table changes in place: entries keep their sender, permits and buffer. *)
Lemma accounts_same n l m m' q w used h e id p p' :
  accounts limit n l m q w used h e -> m !! id = Some p -> m' = <[id := p']> m ->
  done_tx p' = done_tx p -> permit p' = permit p -> entry_bytes p' = entry_bytes p ->
  accounts limit n l m' q w used h e.
Proof.
  intros [] Hp -> Hd Hpm Hb.
  assert (Hdom : dom (<[id := p']> m) = dom m) by (apply dom_insert_lookup_L; eauto).
  constructor; rewrite ?Hdom; try done.
  - intros x Hx. destruct (ac_queued x Hx) as [? Hn]. split; [done|].
    rewrite lookup_insert_ne; [done|]. congruence.
  - intros Hl. specialize (ac_done Hl). apply map_Forall_insert_2; [|done].
    rewrite Hd. by apply ac_done.
  - apply map_Forall_insert_2; [|done]. rewrite Hpm, Hb. exact (ac_permit _ _ Hp).
  - by rewrite map_size_insert_Some.
  - destruct limit, (w_bytes w); try done. unfold table_bytes in *.
    rewrite (sum_map_replace _ _ _ _ _ Hp). fold (table_bytes m) in *. lia.
Qed.

(** The read at the head of the queue joins the table. *)
Lemma accounts_entry n m q w used h e id f off len c pm al p :
  accounts limit n false m (MsgRead id f off len c pm al :: q) w used h e ->
  done_tx p = Some id -> permit p = pm -> entry_bytes p = charge_of off len al ->
  accounts limit n false (<[id := p]> m) q w used h e.
Proof.
  intros [] Hd Hpm Hb. rewrite queued_ids_read in *. simpl in *.
  apply NoDup_cons in ac_nodup as [Hnew Hnd].
  assert (Hid : id ∈ used /\ m !! id = None) by (apply ac_queued; left).
  destruct Hid as [Hid Hm].
  pose proof (Forall_inv ac_msgs) as (_ & _ & _ & Hmp). apply Forall_inv_tail in ac_msgs.
  constructor; rewrite ?dom_insert_L; try done.
  - intros x Hx. destruct (ac_queued x) as [? Hn]; [by right|]. split; [done|].
    rewrite lookup_insert_ne; [done|]. intros <-. done.
  - set_solver.
  - intros _. apply map_Forall_insert_2; [done|]. by apply ac_done.
  - apply map_Forall_insert_2; [|done]. by rewrite Hpm, Hmp, Hb.
  - rewrite map_size_insert_None by done. unfold zlen in *. simpl in *. lia.
  - destruct limit, (w_bytes w); try done. unfold table_bytes in *.
    rewrite sum_map_insert, Hb by done. rewrite Hmp in ac_bytes. simpl in *.
    fold (queue_bytes q) in *. lia.
  - intros x Hx Hin. apply ac_waiting; [done|]. set_solver.
  - intros x Hx Hin. apply ac_answered; [done|]. set_solver.
Qed.

(** An entry of the table is over. *)
Lemma accounts_finish n m q w w' used h e id p :
  accounts limit n false m q w used h e -> m !! id = Some p ->
  settles w w' id (permit_bytes (permit p)) ->
  accounts limit n false (delete id m) q w' used h e.
Proof.
  intros [] Hp [Hc Hb Ha Hf Hcl].
  assert (Hdom : id ∈ dom m) by (apply elem_of_dom; eauto).
  assert (Hq : id ∉ queued_ids q) by (intros [_ ?]%ac_queued; congruence).
  constructor; rewrite ?dom_delete_L; try done.
  - intros x Hx. destruct (ac_queued x Hx) as [? Hn]. split; [done|].
    by apply lookup_delete_None; right.
  - set_solver.
  - intros _. by apply map_Forall_delete, ac_done.
  - by apply map_Forall_delete.
  - rewrite map_size_delete_Some by eauto.
    assert (size m <> 0%nat); [|lia]. intros Hz%map_size_empty_inv. by rewrite Hz in Hp.
  - lia.
  - destruct limit, (w_bytes w), (w_bytes w'); try done. unfold table_bytes in *.
    rewrite (sum_map_delete _ _ _ _ Hp) in ac_bytes.
    rewrite (ac_permit _ _ Hp) in Hb. unfold entry_bytes, charged, zlen in *. simpl in *. lia.
  - intros x Hx Hin. rewrite Hf by set_solver. apply ac_waiting; set_solver.
  - intros x Hx Hin. destruct (decide (x = id)) as [->|Hne].
    + apply Ha, ac_waiting; auto.
    + apply (answered_frame w); [auto | by rewrite Hcl |]. apply ac_answered; set_solver.
Qed.

(** ** The exits *)

Lemma strand_one_spec w po :
  w_count (strand_one w po) = w_count w /\ w_bytes (strand_one w po) = w_bytes w /\
  (forall c, os_is_closed (w_chan (strand_one w po)) c = os_is_closed (w_chan w) c) /\
  (forall c, (p ← po; done_tx p) <> Some c ->
     os_rx (w_chan (strand_one w po)) c = os_rx (w_chan w) c) /\
  (forall c, (p ← po; done_tx p) = Some c -> answered (w_chan (strand_one w po)) c).
Proof.
  unfold strand_one. destruct po as [p|]; [|by split_and!]. simpl.
  destruct (done_tx p) as [ch|]; [|by split_and!].
  destruct (send_spec w ch (Err strand_error)) as (_ & Hc & Hb & _ & ->). split_and!; try done.
  - intros c. apply os_send_closed.
  - intros c Hne. apply os_send_frame. congruence.
  - intros c [= ->]. apply sent_answered.
Qed.

Lemma strand_fold_spec m ids w :
  table_open m ->
  let w' := fold_left (fun w id => strand_one w (m !! id)) ids w in
  w_count w' = w_count w /\ w_bytes w' = w_bytes w /\
  (forall c, os_is_closed (w_chan w') c = os_is_closed (w_chan w) c) /\
  (forall c, c ∉ ids \/ c ∉ dom m -> os_rx (w_chan w') c = os_rx (w_chan w) c) /\
  (forall c, answered (w_chan w) c \/ c ∈ ids /\ c ∈ dom m -> answered (w_chan w') c).
Proof.
  intros Hopen. revert w. induction ids as [|id ids IH]; intros w; simpl.
  { split_and!; try done. intros c [?|[?%not_elem_of_nil ?]]; done. }
  destruct (IH (strand_one w (m !! id))) as (-> & -> & Hcl & Hf & Ha).
  destruct (strand_one_spec w (m !! id)) as (-> & -> & Hcl' & Hf' & Ha').
  assert (Hkey : forall c, (p ← m !! id; done_tx p) = Some c <-> c = id /\ c ∈ dom m).
  { intros c. rewrite elem_of_dom. destruct (m !! id) as [p|] eqn:Hp; simpl.
    - rewrite (Hopen _ _ Hp). split; [intros [= <-]; eauto | by intros [-> _]].
    - split; [done | intros [-> [? ?]]; congruence]. }
  split_and!; try done.
  - intros c. by rewrite Hcl, Hcl'.
  - intros c Hc. rewrite Hf by set_solver. apply Hf'. rewrite Hkey. set_solver.
  - intros c Hc. apply Ha. destruct (decide (c = id /\ c ∈ dom m)) as [Hk|Hk].
    + left. apply Ha'. by rewrite Hkey.
    + destruct Hc as [Hc|[Hc ?]].
      * left. apply (answered_frame w); [|by rewrite Hcl'|done]. apply Hf'. by rewrite Hkey.
      * right. set_solver.
Qed.

(** Leaking answers every caller of the table and forgets its entries. *)
Lemma accounts_leak `{HashOrder} n m q w used h e :
  accounts limit n false m q w used h e ->
  accounts limit n true (take_done <$> m) q (close_count (strand_callers w m)) used h e.
Proof.
  intros []. unfold strand_callers.
  destruct (strand_fold_spec m (key_order (dom m)) w (ac_done eq_refl))
    as (Hc & Hb & Hcl & Hf & Ha). simpl in *.
  assert (Hk : forall c, c ∈ key_order (dom m) <-> c ∈ dom m)
    by (intros c; by rewrite key_order_perm, elem_of_elements).
  set (w' := fold_left _ _ _) in *. constructor; rewrite ?dom_fmap_L; try done.
  - intros x Hx. destruct (ac_queued x Hx) as [? Hn]. split; [done|].
    by rewrite lookup_fmap, Hn.
  - intros x p. rewrite lookup_fmap. destruct (m !! x) as [p0|] eqn:Hp; [|done].
    intros [= <-]. by apply ac_permit in Hp.
  - simpl. rewrite sem_close_free, Hc, map_size_fmap. done.
  - simpl. rewrite sem_close_free, Hc. done.
  - simpl. rewrite Hb. destruct limit, (w_bytes w); try done. unfold table_bytes in *.
    by rewrite sum_map_fmap.
  - intros x Hx Hin. simpl. destruct Hin as [Hin|[? _]]; [|done].
    destruct (ac_queued _ Hin) as [_ Hn]. apply not_elem_of_dom in Hn.
    rewrite Hf by auto. by apply ac_waiting; [|left].
  - intros x Hx Hin. simpl. apply Ha. destruct (decide (x ∈ dom m)) as [Hd|Hd].
    + right. by rewrite Hk.
    + left. apply ac_answered; [done|]. naive_solver.
Qed.
End Worlds.

Section Invariant.
Context {R Sm Ch : Type} `{RingLaws R} `{SemaphoreLaws Sm} `{OneshotLaws Ch} `{Target}
  `{HashOrder}.
Context (limit : option Z).
Implicit Types (d : Drive R) (w : World Sm Ch) (s : Sys R Sm Ch).

(** ** The phases that leave the table's keys alone *)

Lemma take_done_inv d :
  drive_inv d ->
  drive_inv (set_table d (take_done <$> d_pending d) (d_backlog d) (d_queued_cancels d)
               (d_stats d)).
Proof.
  intros []. constructor; simpl; rewrite ?dom_fmap_L, ?map_size_fmap; try done.
  - unfold table_sqes in *. rewrite map_to_list_fmap, <-list_fmap_compose.
    unfold in_kernel_or_backlog in *. simpl. rewrite di_reads.
    apply reflexive_eq, list_fmap_ext. intros i [id p] _. done.
  - intros id p. rewrite lookup_fmap. destruct (d_pending d !! id) as [p0|] eqn:Hp; [|done].
    intros [= <-]. destruct (di_entries _ _ Hp) as [? []]. split; [done|]. by constructor.
Qed.

Lemma set_overflow_inv d st prev warn ov :
  drive_inv d -> update_cq_overflow (d_stats d) (d_previous_overflow d) ov = (st, prev, warn) ->
  drive_inv (set_overflow d st prev).
Proof.
  intros Hd. unfold update_cq_overflow. case_match; intros [= <- <- <-];
    apply (drive_inv_ext d); try done; apply Hd.
Qed.

Lemma set_continue_inv d b : drive_inv d -> drive_inv (set_continue d b).
Proof. intros Hd. apply (drive_inv_ext d); try done; apply Hd. Qed.

Lemma set_deadline_inv d t : drive_inv d -> drive_inv (set_deadline d t).
Proof. intros Hd. apply (drive_inv_ext d); try done; apply Hd. Qed.

Lemma submit_ring_table d : d_pending (submit_ring d).1 = d_pending d.
Proof.
  unfold submit_ring. repeat (case_match; simpl; try done).
Qed.

(** The three outcomes of the exit check. *)
Lemma check_exit_cases d w env :
  match check_exit d w env with
  | Continue d' w' => w' = w /\ (d' = d \/ exists t, d' = set_deadline d t)
  | CleanExit d' w' => d' = d /\ w' = close_count w /\ d_pending d = ∅ /\ d_backlog d = []
  | LeakExit d' w' =>
      exists t, let d1 := set_deadline d t in
      d' = set_table d1 (take_done <$> d_pending d) (d_backlog d) (d_queued_cancels d)
             (d_stats d) /\
      w' = close_count (strand_callers w (d_pending d)) /\ t <= te_now2 env
  end.
Proof.
  unfold check_exit. destruct (d_shutting_down d); [|split; [done|by left]].
  destruct (bool_decide (d_pending d = ∅) && _) eqn:He.
  - apply andb_true_iff in He as [?%bool_decide_eq_true ?%bool_decide_eq_true]. done.
  - destruct (_ <=? te_now2 env) eqn:Ht; bools; eauto 10.
Qed.

Lemma drop_queue_closed w q :
  sem_is_closed (w_count (drop_queue w q)) = sem_is_closed (w_count w).
Proof.
  unfold drop_queue. revert w. induction q as [|m q IH]; intros w; [done|]. simpl.
  rewrite IH. destruct m; simpl; by rewrite ?sem_release_closed.
Qed.

Lemma close_count_closed w q : sem_is_closed (w_count (drop_queue (close_count w) q)) = true.
Proof. rewrite drop_queue_closed. apply sem_close_closed. Qed.

Lemma accounts_close n l m q w used h e :
  accounts limit n l m q w used h e -> accounts limit n l m q (close_count w) used h e.
Proof.
  intros []. constructor; simpl; rewrite ?sem_close_free; done.
Qed.

(** ** The whole step *)

(** What every transition of the table has to show. *)
Definition table_step (n : Z) (used : gset Z) (h e : Z) (d : Drive R) (w : World Sm Ch)
    (q : list Msg) : Prop :=
  drive_inv d /\ accounts limit n false (d_pending d) q w used h e.

(** Intake of one message. *)
Lemma intake_msg_step n used h e d w b addr m q :
  table_step n used h e d w (m :: q) -> 0 <= addr ->
  exists d' w' b', intake_msg d w b addr m = Some (d', w', b') /\
    table_step n used h e d' w' q.
Proof.
  intros [Hd Ha] Haddr. destruct m as [id f off len c pm al|id|]; simpl.
  - pose proof (Forall_inv (ac_msgs _ _ _ _ _ _ _ _ _ Ha)) as (Hid & -> & Hok & Hpm).
    unfold intake_read. destruct (d_shutting_down d).
    { eexists _, _, _. split; [done|]. split; [done|].
      eapply accounts_unqueue; [done|]. apply send_settles. }
    destruct (prepare_read_entry addr f off len al id pm Hok Haddr)
      as (p & ko & hd & rl & -> & Hg & Hwf & _ & Hdone & Hperm & _ & _ & _ & _ & _ & _ & _ & Hlen).
    eexists _, _, _. split; [done|].
    assert (Hnone : d_pending d !! id = None).
    { apply (ac_queued _ _ _ _ _ _ _ _ _ Ha). by left. }
    split; [by apply intake_entry_inv|]. simpl.
    eapply accounts_entry; [done..|]. unfold entry_bytes, charge_of. by rewrite Hg, Hlen.
  - eexists _, _, _. split; [done|]. split; [by apply intake_cancel_inv|].
    unfold intake_cancel. destruct (d_pending d !! id) as [p|] eqn:Hp.
    + destruct (queue_cancel _ _ _) as [bl qc]. simpl.
      eapply (accounts_same _ _ _ (d_pending d)); try done.
      eapply accounts_requeue; [done..|]. by eapply Forall_inv_tail, ac_msgs.
    + eapply accounts_requeue; [done..|]. by eapply Forall_inv_tail, ac_msgs.
  - eexists _, _, _. split; [done|]. split; [by apply cancel_all_inv, set_shutting_down_inv|].
    assert (d_pending (cancel_all (set_shutting_down d)) = d_pending d) as ->.
    { unfold cancel_all. by destruct (queue_cancels _ _ _). }
    eapply accounts_requeue; [done..|]. by eapply Forall_inv_tail, ac_msgs.
Qed.

(** One completion. *)
Lemma reap_one_step n used h e d w c r' inp q :
  table_step n used h e d w q -> cq_next (d_ring d) = Some (c, r') ->
  exists d' w', reap_one (set_ring d r' (d_backlog d)) w c inp = Some (d', w') /\
    table_step n used h e d' w' q.
Proof.
  intros [Hd Ha] Hnext.
  destruct (reap_one_spec d w c r' inp Hd (ac_done _ _ _ _ _ _ _ _ _ Ha eq_refl) Hnext)
    as (d' & w' & -> & Hd' & He).
  eexists _, _. split; [done|]. split; [done|].
  destruct He as [d' ->|d' id p p' Hp (_ & Hdn & Hpm & _ & Hl) ->|d' id p outcome Hp ->]; [done|..].
  - eapply accounts_same; try done.
  - eapply accounts_finish; [done..|]. apply send_settles.
Qed.

(** The exit check, whichever way it goes. *)
Lemma check_exit_inv n s env :
  sys_inv limit n s -> sy_status s = Running_ ->
  match check_exit (sy_drive s) (sy_world s) env with
  | Continue d w => sys_inv limit n (with_drive s d w (sy_queue s))
  | CleanExit d w => sys_inv limit n (mkSys d (drop_queue w (sy_queue s)) [] (sy_used s)
                                       (sy_held s) (sy_elsewhere s) Drained_)
  | LeakExit d w => sys_inv limit n (mkSys d (drop_queue w (sy_queue s)) [] (sy_used s)
                                      (sy_held s) (sy_elsewhere s) Leaked_)
  end.
Proof.
  intros [Hd Ha _ _] Hs. rewrite Hs in Ha. simpl in Ha.
  pose proof (check_exit_cases (sy_drive s) (sy_world s) env) as Hcases.
  destruct (check_exit _ _ _) as [d w|d w|d w].
  - assert (Hc : drive_inv d /\ d_pending d = d_pending (sy_drive s)).
    { destruct Hcases as (_ & [->|[t ->]]); split; auto using set_deadline_inv. }
    destruct Hcases as [-> _], Hc as [Hd' Hp].
    constructor; simpl; rewrite ?Hs, ?Hp; done.
  - destruct Hcases as (-> & -> & Hp & _). constructor; simpl; try done.
    + by apply accounts_drop_queue, accounts_close.
    + intros _. split; [done | apply close_count_closed].
  - destruct Hcases as (t & -> & -> & _). constructor; simpl; try done.
    + apply (take_done_inv (set_deadline (sy_drive s) t)). by apply set_deadline_inv.
    + by apply accounts_drop_queue, accounts_leak.
    + intros _. split; [done | apply close_count_closed].
Qed.

Lemma step_inv {ok} n s s' : sys_inv limit n s -> step_of limit ok s s' -> sys_inv limit n s'.
Proof.
  intros Hsys Hstep. pose proof Hsys as [Hd Ha Hdr Hex].
  assert (Hrun : sy_status s = Running_ ->
    table_step n (sy_used s) (sy_held s) (sy_elsewhere s) (sy_drive s) (sy_world s) (sy_queue s)).
  { intros Hs. split; [done|]. by rewrite Hs in Ha. }
  assert (Hgo : forall d w q, sy_status s = Running_ ->
    table_step n (sy_used s) (sy_held s) (sy_elsewhere s) d w q ->
    sys_inv limit n (with_drive s d w q)).
  { intros d w q Hs [? ?]. constructor; simpl; rewrite ?Hs; done. }
  destruct Hstep as
    [w' h' e' Hact|id f off len c pm al Hs Hm Hid Hrx Hcl Hh He|m Hs Hm|r' Hr
    |m q d' w' b b' addr Hs Hq Haddr Hi|Hs|Hs|c r' inp d' w' Hs Hnext Hok Hr
    |st prev warn Hs Hu|env d' w' Hs Hc|b Hs|env d' w' Hs Hc|env d' w' Hs Hc].
  - constructor; simpl; try done; [by eapply accounts_callers|].
    intros Hs. destruct (Hex Hs). split; [done|]. by apply Hact.
  - destruct (Hrun Hs) as [_ Ha']. constructor; simpl; try done.
    rewrite Hs. simpl. destruct Hm as (? & -> & ?). apply accounts_send; done.
  - apply Hgo; [done|]. destruct (Hrun Hs) as [_ Ha']. split; [done|].
    eapply accounts_requeue; [done|..].
    + rewrite queued_ids_snoc. destruct m; try done; by rewrite app_nil_r.
    + rewrite queue_bytes_snoc. destruct m; simpl; done || lia.
    + apply Forall_app. split; [apply Ha'|]. constructor; [|done]. by destruct m.
  - constructor; simpl; try done. apply set_ring_inv; [done|].
    unfold in_kernel_or_backlog. by rewrite Hr.
  - apply Hgo; [done|]. specialize (Hrun Hs). rewrite Hq in Hrun.
    destruct (intake_msg_step n _ _ _ _ _ b addr m q Hrun Haddr)
      as (d1 & w1 & b1 & Hi' & ?). by simplify_eq.
  - apply Hgo; [done|]. destruct (Hrun Hs). split; [by apply set_shutting_down_inv|done].
  - apply Hgo; [done|]. destruct (Hrun Hs). split; [by apply submit_ring_inv|].
    by rewrite submit_ring_table.
  - apply Hgo; [done|].
    destruct (reap_one_step n _ _ _ _ _ c r' inp _ (Hrun Hs) Hnext) as (d1 & w1 & Hr' & ?).
    by simplify_eq.
  - apply Hgo; [done|]. destruct (Hrun Hs). split; [by eapply set_overflow_inv|done].
  - pose proof (check_exit_inv n s env Hsys Hs) as Hi. by rewrite Hc in Hi.
  - apply Hgo; [done|]. destruct (Hrun Hs). split; [by apply set_continue_inv|done].
  - pose proof (check_exit_inv n s env Hsys Hs) as Hi. by rewrite Hc in Hi.
  - pose proof (check_exit_inv n s env Hsys Hs) as Hi. by rewrite Hc in Hi.
Qed.

Lemma steps_inv {ok} n s s' : sys_inv limit n s -> rtc (step_of limit ok) s s' -> sys_inv limit n s'.
Proof. intros Hi Hs. induction Hs; [done|]. eauto using step_inv. Qed.

(** The freshly started shard satisfies the invariant. *)
Lemma start_inv n (r : R) pool (o : Ch) :
  0 <= n -> (forall total, limit = Some total -> 0 <= total) ->
  outstanding r = [] -> sys_inv limit n (start limit n r pool o).
Proof.
  intros Hn Hl Hr. constructor; simpl; try done.
  - constructor; unfold in_kernel_or_backlog, table_sqes; simpl;
      rewrite ?Hr, ?map_to_list_empty; try done.
  - constructor; simpl; try done; rewrite ?sem_new_free.
    + constructor.
    + intros ? []%not_elem_of_nil.
    + unfold zlen. simpl. rewrite map_size_empty. lia.
    + lia.
    + destruct limit as [total|]; simpl; [|done]. rewrite sem_new_free.
      unfold table_bytes. rewrite sum_map_empty. specialize (Hl _ eq_refl). lia.
Qed.

Lemma reachable_inv {ok} n s : reachable_of limit ok n s -> sys_inv limit n s.
Proof.
  intros (Hn & Hl & r & pool & o & Hr & Hs).
  eapply steps_inv; [by apply (start_inv n r pool o) | done].
Qed.
End Invariant.
