(* ===== verification/Turn.v ===== *)
(** * One turn of the driver loop

    [turn] of [Driver.v] is a sequence of the atomic steps of [System.v]: it
    never panics, its two loops end, it does a bounded amount of work and it
    never goes to sleep on work that is ready. *)

From S2P Require Import Prelude IoError Geometry Interfaces Instances SharedBudget.
From S2P Require Import Pending ReadRun World TurnBudget SubmitRing Driver Ownership.
From S2P Require Import System Safety.

Section Turn.
Context {R Sm Ch : Type} `{RingLaws R} `{SemaphoreLaws Sm} `{OneshotLaws Ch} `{Target}
  `{HashOrder}.
Context (limit : option Z) {ok : ReapInput -> Prop}.
Implicit Types (d : Drive R) (w : World Sm Ch) (b : TurnBudget) (s : Sys R Sm Ch).

(** A running shard in a state the invariant allows. *)
Definition live (n : Z) s : Prop := sys_inv limit n s /\ sy_status s = Running_.

Lemma live_table n s :
  live n s ->
  table_step limit n (sy_used s) (sy_held s) (sy_elsewhere s) (sy_drive s) (sy_world s)
    (sy_queue s).
Proof. intros [[Hd Ha _ _] Hs]. rewrite Hs in Ha. done. Qed.

Lemma live_step n s d w q :
  live n s -> step_of limit ok s (with_drive s d w q) -> live n (with_drive s d w q).
Proof. intros [Hi Hs] Hstep. split; [by eapply step_inv | done]. Qed.

Lemma with_drive_id s : with_drive s (sy_drive s) (sy_world s) (sy_queue s) = s.
Proof. by destruct s. Qed.

(** ** What intake charges *)

(** The growth of the table by [intake_msg] is what the budget is charged. *)
Lemma intake_msg_charge n s b addr m q d' w' b' :
  live n s -> sy_queue s = m :: q -> 0 <= addr ->
  0 <= allocation_bytes b < TURN_ALLOCATION_BYTES ->
  intake_msg (sy_drive s) (sy_world s) b addr m = Some (d', w', b') ->
  messages b' = messages b /\ completions b' = completions b /\
  allocation_bytes b <= allocation_bytes b' < TURN_ALLOCATION_BYTES + max_allocation /\
  table_bytes (d_pending d') - table_bytes (d_pending (sy_drive s)) <=
    allocation_bytes b' - allocation_bytes b.
Proof.
  intros Hl Hq Haddr Hb. pose proof (live_table _ _ Hl) as [_ Ha]. rewrite Hq in Ha.
  assert (0 < max_allocation) by done.
  destruct m as [id f off len c pm al|id|]; simpl.
  - pose proof (Forall_inv (ac_msgs _ _ _ _ _ _ _ _ _ Ha)) as (Hid & -> & Hok & Hpm).
    unfold intake_read. case_match; [intros [= <- <- <-]; split_and!; done || lia|].
    destruct (prepare_read_entry addr f off len al id pm Hok Haddr)
      as (p & ko & hd & rl & -> & Hg & Hwf & _ & _ & _ & _ & _ & _ & _ & _ & _ & _ & Hlen).
    assert (Hcap : 0 <= allocation_len rl al <= max_allocation).
    { destruct Hok as (Ho & Hlen' & ko' & hd' & rl' & Hg' & Hcap & _).
      rewrite Hg in Hg'. injection Hg' as <- <- <-.
      destruct (aligned_geometry_covers _ _ _ _ Ho Hlen' Hg) as [[] _]. simpl in *.
      pose proof (aligned_geometry_valid _ _ _ _ Hg) as Hv.
      pose proof (valid_align_le _ Hv). pose proof (valid_align_pos _ Hv).
      unfold in_range, max_allocation, allocation_len in *. lia. }
    assert (Hu : u32_max <= usize_max)
      by (destruct usize_max_ok as [-> | ->]; unfold u32_max, u64_max; lia).
    assert (TURN_ALLOCATION_BYTES + max_allocation <= u32_max) by done.
    intros [= <- <- <-]. unfold count_allocation, saturating_add. simpl.
    assert (Hnone : d_pending (sy_drive s) !! id = None).
    { apply (ac_queued _ _ _ _ _ _ _ _ _ Ha). by left. }
    unfold table_bytes. rewrite sum_map_insert by done.
    unfold entry_bytes at 1. rewrite Hlen. split_and!; done || lia.
  - intros [= <- <- <-]. split_and!; try (done || lia). unfold intake_cancel.
    destruct (d_pending (sy_drive s) !! id) as [p|] eqn:Hp; [|lia].
    destruct (queue_cancel _ _ _). simpl. unfold table_bytes.
    rewrite (sum_map_replace _ _ _ _ _ Hp). unfold entry_bytes. simpl. lia.
  - intros [= <- <- <-]. split_and!; try (done || lia). unfold cancel_all.
    destruct (queue_cancels _ _ _). simpl. lia.
Qed.

(** ** The intake loop *)

Lemma intake_steps n env disc fuel s b :
  live n s -> (forall i, 0 <= te_addr env i) ->
  0 <= messages b <= TURN_MESSAGES ->
  0 <= allocation_bytes b < TURN_ALLOCATION_BYTES + max_allocation ->
  TURN_MESSAGES - messages b <= Z.of_nat fuel ->
  exists d' w' b' q' taken,
    intake fuel env disc (sy_drive s) (sy_world s) b (sy_queue s) = Some (d', w', b', q') /\
    rtc (step_of limit ok) s (with_drive s d' w' q') /\
    sy_queue s = taken ++ q' /\ messages b' = messages b + zlen taken /\
    messages b' <= TURN_MESSAGES /\ completions b' = completions b /\
    allocation_bytes b <= allocation_bytes b' < TURN_ALLOCATION_BYTES + max_allocation /\
    table_bytes (d_pending d') - table_bytes (d_pending (sy_drive s)) <=
      allocation_bytes b' - allocation_bytes b /\
    (q' <> [] -> can_take_message b' = false) /\ (taken = [] -> b' = b).
Proof.
  intros Hl Haddr. revert s b Hl. induction fuel as [|fuel IH]; intros s b Hl Hm Hb Hf.
  { simpl. eexists _, _, _, _, []. split; [done|]. rewrite with_drive_id.
    unfold zlen. simpl. split_and!; try (done || lia).
    intros _. unfold can_take_message. rewrite (proj2 (Z.ltb_ge _ _)); [done|lia]. }
  simpl. destruct (can_take_message b) eqn:Hcan.
  2: { eexists _, _, _, _, []. split; [done|]. rewrite with_drive_id.
       unfold zlen. simpl. split_and!; done || lia. }
  destruct (sy_queue s) as [|m q] eqn:Hq.
  { eexists _, _, _, _, []. split; [done|]. unfold zlen. destruct disc; simpl.
    - split_and!; try (done || lia). apply rtc_once.
      pose proof (StepDisconnect limit ok s (proj2 Hl)) as Hs. by rewrite Hq in Hs.
    - rewrite <-Hq at 1. rewrite with_drive_id. split_and!; done || lia. }
  apply can_take_message_lt in Hcan as [Hmlt Halt].
  destruct (intake_msg_step limit n (sy_used s) (sy_held s) (sy_elsewhere s) (sy_drive s)
    (sy_world s) (count_message b) (te_addr env (messages b)) m q) as (d1 & w1 & b1 & Hi & _).
  { rewrite <-Hq. by apply live_table. }
  { apply Haddr. }
  destruct (intake_msg_charge n s (count_message b) (te_addr env (messages b)) m q d1 w1 b1)
    as (Hm1 & Hc1 & Ha1 & Ht1); simpl; auto; [lia|]. simpl in Hm1, Hc1, Ha1, Ht1.
  assert (Hs1 : step_of limit ok s (with_drive s d1 w1 q)) by (eapply StepIntake; eauto; apply Hl).
  rewrite Hi. simpl.
  destruct (IH (with_drive s d1 w1 q) b1 (live_step _ _ _ _ _ Hl Hs1))
    as (d' & w' & b' & q' & taken & Hin & Hsteps & Hq' & Hm' & Hm'' & Hc' & Ha' & Ht' & Hstop & _);
    [lia..|].
  simpl in *. exists d', w', b', q', (m :: taken). split_and!; try done.
  - by eapply rtc_l.
  - by rewrite Hq'.
  - unfold zlen in *. simpl. lia.
  - congruence.
  - lia.
  - lia.
  - lia.
Qed.

(** ** The reap loop *)

Lemma reap_one_bytes n s c r' inp d' w' :
  live n s -> cq_next (d_ring (sy_drive s)) = Some (c, r') ->
  reap_one (set_ring (sy_drive s) r' (d_backlog (sy_drive s))) (sy_world s) c inp =
    Some (d', w') ->
  table_bytes (d_pending d') <= table_bytes (d_pending (sy_drive s)).
Proof.
  intros Hl Hnext Hr. destruct (live_table _ _ Hl) as [Hd Ha].
  destruct (reap_one_spec (sy_drive s) (sy_world s) c r' inp Hd
    (ac_done _ _ _ _ _ _ _ _ _ Ha eq_refl) Hnext) as (d1 & w1 & Hr1 & _ & He).
  simplify_eq. unfold table_bytes.
  destruct He as [d' ->|d' id p p' Hp (_ & _ & _ & _ & Hb) ->|d' id p outcome Hp ->]; [done|..].
  - rewrite (sum_map_replace _ _ _ _ _ Hp). unfold entry_bytes. lia.
  - rewrite (sum_map_delete _ (d_pending (sy_drive s)) _ _ Hp).
    unfold entry_bytes at 2, zlen. lia.
Qed.

Lemma reap_steps n env fuel s b :
  live n s -> (forall i, ok (te_reap env i)) -> 0 <= completions b <= TURN_COMPLETIONS ->
  TURN_COMPLETIONS - completions b <= Z.of_nat fuel ->
  exists d' w' b',
    reap fuel env (sy_drive s) (sy_world s) b = Some (d', w', b') /\
    rtc (step_of limit ok) s (with_drive s d' w' (sy_queue s)) /\
    completions b <= completions b' <= TURN_COMPLETIONS /\ messages b' = messages b /\
    allocation_bytes b' = allocation_bytes b /\
    table_bytes (d_pending d') <= table_bytes (d_pending (sy_drive s)) /\
    (cq_next (d_ring d') <> None -> can_reap b' = false).
Proof.
  intros Hl Hok. revert s b Hl. induction fuel as [|fuel IH]; intros s b Hl Hc Hf; simpl.
  { eexists _, _, _. split; [done|]. rewrite with_drive_id. split_and!; try (done || lia).
    intros _. unfold can_reap. apply Z.ltb_ge. lia. }
  destruct (can_reap b) eqn:Hcan.
  2: { eexists _, _, _. split; [done|]. rewrite with_drive_id. split_and!; done || lia. }
  apply can_reap_lt in Hcan.
  destruct (cq_next (d_ring (sy_drive s))) as [[c r']|] eqn:Hnext.
  2: { eexists _, _, _. split; [done|]. rewrite with_drive_id. split_and!; done || lia. }
  destruct (reap_one_step limit n _ _ _ _ _ c r' (te_reap env (completions b)) _
    (live_table _ _ Hl) Hnext) as (d1 & w1 & Hr & _).
  assert (Hs1 : step_of limit ok s (with_drive s d1 w1 (sy_queue s)))
    by (eapply StepReap; [apply Hl | done | apply Hok | done]).
  pose proof (reap_one_bytes _ _ _ _ _ _ _ Hl Hnext Hr) as Hb1.
  rewrite Hr. simpl.
  destruct (IH (with_drive s d1 w1 (sy_queue s)) (count_completion b)
    (live_step _ _ _ _ _ Hl Hs1))
    as (d' & w' & b' & Hre & Hsteps & Hc' & Hm' & Ha' & Hb' & Hstop);
    [simpl; lia..|].
  simpl in *. exists d', w', b'. split_and!; try (done || lia). by eapply rtc_l.
Qed.

(** ** The whole turn *)

(** The system a turn's result stands for. *)
Definition turn_sys s (e : turn_end) (q : list Msg) : Sys R Sm Ch :=
  match e with
  | Continue d w => with_drive s d w q
  | CleanExit d w =>
      mkSys d (drop_queue w q) [] (sy_used s) (sy_held s) (sy_elsewhere s) Drained_
  | LeakExit d w =>
      mkSys d (drop_queue w q) [] (sy_used s) (sy_held s) (sy_elsewhere s) Leaked_
  end.

Lemma check_exit_step env s :
  sy_status s = Running_ ->
  step_of limit ok s (turn_sys s (check_exit (sy_drive s) (sy_world s) env) (sy_queue s)).
Proof.
  intros Hs. destruct (check_exit _ _ _) as [d w|d w|d w] eqn:Hc; simpl.
  - by eapply StepCheck.
  - by eapply StepDrained.
  - by eapply StepLeak.
Qed.

(** What one turn does from a state the invariant allows. *)
Lemma turn_spec n env disc s :
  live n s -> (forall i, 0 <= te_addr env i) -> (forall i, ok (te_reap env i)) ->
  exists e q taken,
    turn env disc (sy_drive s) (sy_world s) (sy_queue s) = TurnEnd e q /\
    rtc (step_of limit ok) s (turn_sys s e q) /\
    sy_queue s = taken ++ q /\
    (zlen taken <= TURN_MESSAGES /\ (sy_queue s <> [] -> taken <> [])) /\
    match e with
    | Continue d w =>
        (q <> [] \/ cq_next (d_ring d) <> None -> d_continue d = true) /\
        table_bytes (d_pending d) - table_bytes (d_pending (sy_drive s)) <
          TURN_ALLOCATION_BYTES + max_allocation
    | _ => True
    end.
Proof.
  intros Hl Haddr Hok. unfold turn.
  destruct (intake_steps n env disc (Z.to_nat TURN_MESSAGES) s default_budget)
    as (d1 & w1 & b1 & q1 & taken & -> & Hin & Hq & Hm & Hm1 & Hc1 & Ha1 & Ht1 & Hstop1 & Hsame1);
    try done.
  change (messages default_budget) with 0 in Hm.
  change (allocation_bytes default_budget) with 0 in Ht1.
  assert (Htaken : zlen taken <= TURN_MESSAGES) by lia.
  assert (Htook : sy_queue s <> [] -> taken <> []).
  { intros Hne ->. rewrite (Hsame1 eq_refl) in Hstop1. simpl in Hq.
    by rewrite Hq in Hne; specialize (Hstop1 Hne). }
  set (s1 := with_drive s d1 w1 q1) in *.
  assert (Hl1 : live n s1) by (split; [by eapply steps_inv; [apply Hl|] | apply Hl]).
  pose proof (StepSubmit limit ok s1 (proj2 Hl1)) as Hsub. simpl in Hsub.
  pose proof (submit_ring_table d1) as Htab2.
  destruct (submit_ring d1) as [d2 n1] eqn:Hsr1. simpl in Hsub, Htab2.
  pose proof (live_step _ _ _ _ _ Hl1 Hsub) as Hl2.
  destruct (reap_steps n env (Z.to_nat TURN_COMPLETIONS) _ b1 Hl2 Hok)
    as (d3 & w3 & b3 & Hre & Hsteps & Hc3 & Hm3 & Ha3 & Hb3 & Hstop3); [rewrite Hc1; done..|].
  cbn [with_drive sy_drive sy_world sy_queue] in Hre, Hsteps, Hb3. rewrite Hre.
  set (s3 := with_drive _ d3 w3 q1) in Hsteps.
  assert (Hl3 : live n s3) by (split; [by eapply steps_inv; [apply Hl2|] | apply Hl]).
  pose proof (StepSubmit limit ok s3 (proj2 Hl3)) as Hsub3. simpl in Hsub3.
  pose proof (submit_ring_table d3) as Htab4.
  destruct (submit_ring d3) as [d4 n2] eqn:Hsr3. simpl in Hsub3, Htab4.
  destruct (update_cq_overflow _ _ _) as [[st prev] warn] eqn:Hov.
  pose proof (StepOverflow limit ok (with_drive s3 d4 w3 q1) st prev warn (proj2 Hl) Hov) as Hsov.
  set (s4 := with_drive s3 d4 w3 q1) in Hsov.
  set (s5 := with_drive s4 (set_overflow d4 st prev) w3 q1).
  change (step_of limit ok s4 s5) in Hsov.
  pose proof (check_exit_step env s5 (proj2 Hl)) as Hchk. simpl in Hchk.
  pose proof (check_exit_cases (set_overflow d4 st prev) w3 env) as Hcases.
  assert (Hrtc : rtc (step_of limit ok) s s5).
  { etrans; [exact Hin|]. eapply rtc_l; [exact Hsub|].
    etrans; [exact Hsteps|]. eapply rtc_l; [exact Hsub3|].
    by apply rtc_once. }
  destruct (check_exit _ _ _) as [d6 w6|d6 w6|d6 w6] eqn:Hce.
  2-3: eexists _, q1, taken; split; [done|]; split_and!; try done;
    eapply rtc_r; [exact Hrtc | exact Hchk].
  eexists _, q1, taken. split; [done|]. split_and!; try done.
  - eapply rtc_r; [|exact (StepPace limit ok (with_drive s5 d6 w6 q1) _ (proj2 Hl))].
    eapply rtc_r; [exact Hrtc | exact Hchk].
  - simpl. unfold continue_without_wait. intros [Hq1|Hcq].
    + unfold can_take_message in *. rewrite Hm3, Ha3, Hstop1 by done. done.
    + destruct (cq_is_empty (d_ring d6)) eqn:He; [by apply cq_next_None in He|].
      by rewrite orb_true_r.
  - destruct Hcases as [_ [->|[t ->]]]; simpl; rewrite Htab4; rewrite Htab2 in Hb3; lia.
Qed.

Lemma steps_reachable n s s' : reachable_of limit ok n s -> rtc (step_of limit ok) s s' -> reachable_of limit ok n s'.
Proof.
  intros (Hn & Hl & r & pool & o & Hr & Hs) Hs'. split_and!; [done..|]. exists r, pool, o.
  split; [done|]. by etrans.
Qed.

(** A turn leads from reachable states to reachable states. *)
Lemma turn_reachable n env disc s e q :
  reachable_of limit ok n s -> sy_status s = Running_ -> (forall i, 0 <= te_addr env i) ->
  (forall i, ok (te_reap env i)) ->
  turn env disc (sy_drive s) (sy_world s) (sy_queue s) = TurnEnd e q ->
  reachable_of limit ok n (turn_sys s e q).
Proof.
  intros Hr Hs Ha Hok Ht.
  destruct (turn_spec n env disc s (conj (reachable_inv _ _ _ Hr) Hs) Ha Hok)
    as (e' & q' & _ & Ht' & Hsteps & _). rewrite Ht in Ht'. injection Ht' as <- <-.
  by eapply steps_reachable.
Qed.

Lemma step_reachable n s s' : reachable_of limit ok n s -> step_of limit ok s s' -> reachable_of limit ok n s'.
Proof. intros Hr Hst. eapply steps_reachable; [done|by apply rtc_once]. Qed.

(** ** Properties *)

(** [C8] One iteration of the driver loop, run from any state a shard can reach, does not
    panic (no [expect], slice or [copy_within] of the intake and reap paths fails), its
    intake and reap loops end within their budgets, and everything it does is a sequence of
    the atomic steps of the shard, so what holds of every interleaving of those steps holds
    of the loop the code runs. It holds under any assumption [ok] on what the completions read
    from outside (a file's length from [metadata]), the empty one included. *)
Theorem turn_runs_steps n env disc s :
  reachable_of limit ok n s -> sy_status s = Running_ -> (forall i, 0 <= te_addr env i) ->
  (forall i, ok (te_reap env i)) ->
  exists e q, turn env disc (sy_drive s) (sy_world s) (sy_queue s) = TurnEnd e q /\
    rtc (step_of limit ok) s (turn_sys s e q).
Proof.
  intros Hr Hs Ha Hok. apply reachable_inv in Hr.
  destruct (turn_spec n env disc s (conj Hr Hs) Ha Hok) as (e & q & taken & Ht & Hstep & _). eauto.
Qed.

End Turn.

Section Bounds.
Context {R Sm Ch : Type} `{RingLaws R} `{SemaphoreLaws Sm} `{OneshotLaws Ch} `{Target}
  `{HashOrder}.
Context (limit : option Z).
Implicit Types (d : Drive R) (w : World Sm Ch) (s : Sys R Sm Ch).

(** [C20] One iteration of the driver loop takes at most 64 messages, in the order they were
    sent, and at least one if any waits, and lets the buffers of the pending table grow by less than 8 MiB plus the largest
    single allocation, however long the queue is. *)
Theorem turn_is_bounded n env disc s e q :
  reachable limit n s -> sy_status s = Running_ -> (forall i, 0 <= te_addr env i) ->
  turn env disc (sy_drive s) (sy_world s) (sy_queue s) = TurnEnd e q ->
  (exists taken, sy_queue s = taken ++ q /\ zlen taken <= 64 /\ (sy_queue s <> [] -> taken <> [])) /\
  match e with
  | Continue d w =>
      table_bytes (d_pending d) <
        table_bytes (d_pending (sy_drive s)) + 8 * 1024 * 1024 + max_allocation
  | _ => True
  end.
Proof.
  intros Hr Hs Ha Ht. apply reachable_inv in Hr.
  destruct (turn_spec (ok := any_input) limit n env disc s (conj Hr Hs) Ha (fun _ => I))
    as (e' & q' & taken & Ht' & _ & Hq & Hm & He). rewrite Ht in Ht'. injection Ht' as <- <-.
  split; [by exists taken|]. destruct e; [|done..]. destruct He as [_ He].
  unfold TURN_ALLOCATION_BYTES in He. lia.
Qed.

(** [C21] The driver thread never sleeps on ready work: when a turn leaves a message in the
    queue or a completion in the ring, the next turn starts without waiting; in every other
    case its wait is bounded by a heartbeat. *)
Theorem turn_never_sleeps_on_work n env disc s d w q :
  reachable limit n s -> sy_status s = Running_ -> (forall i, 0 <= te_addr env i) ->
  turn env disc (sy_drive s) (sy_world s) (sy_queue s) = TurnEnd (Continue d w) q ->
  (q <> [] \/ cq_next (d_ring d) <> None -> next_wait d = None) /\
  (forall t, next_wait d = Some t -> 0 < t <= IDLE_HEARTBEAT /\
     (d_pending d <> ∅ \/ d_shutting_down d = true -> t = LOOP_HEARTBEAT)).
Proof.
  intros Hr Hs Ha Ht. apply reachable_inv in Hr.
  destruct (turn_spec (ok := any_input) limit n env disc s (conj Hr Hs) Ha (fun _ => I))
    as (e' & q' & taken & Ht' & _ & _ & _ & He). rewrite Ht in Ht'. injection Ht' as <- <-.
  destruct He as [He _]. unfold next_wait, heartbeat. split.
  - intros Hw. by rewrite He.
  - destruct (d_continue d); [done|]. intros t [= <-].
    destruct (d_shutting_down d) eqn:Hsd; simpl; [done|].
    destruct (decide (d_pending d = ∅)) as [->|Hp].
    + rewrite bool_decide_eq_true_2 by done. simpl. split; [done|]. intros [?|?]; done.
    + rewrite bool_decide_eq_false_2 by done. done.
Qed.
End Bounds.

(** ** A concrete shard *)

(** A shard of depth 4 with 4096 bytes for reads, on a simulated ring that
    answers at once or holds what it is given, whose one caller has sent a
    read of 100 bytes. *)
Definition demo_file : File := mkFile 3.
Definition demo_permits : ReadPermits := mkPermits (Some 100) None.

Definition demo_ring (hold : bool) : ring :=
  mkRing (repeat Byte.x2a 500) 8 [] [] [] hold [].

Definition demo_world : World sem chans :=
  mkWorld (mkSem 3 false [] 0) (Some (mkSem 3996 false [] 0)) (mkPool 1 1 ∅)
    (os_channel (∅ : chans) 0).

Definition demo_shard (hold : bool) (extra : list Msg) : Sys ring sem chans :=
  mkSys (new_drive (demo_ring hold)) demo_world
    ([MsgRead 0 demo_file 10 100 0 demo_permits 1] ++ extra) {[0]} 0 0 Running_.

(** A clock that stands at [now], an allocator that answers 4096. *)
Definition demo_env (now : Z) : TurnEnv :=
  mkTurnEnv (fun _ => 4096) (fun _ => mkReapInput (fun _ => Ok 500) false) 0 now.

#[export] Existing Instance x86_64.

Lemma demo_env_addr now i : 0 <= te_addr (demo_env now) i.
Proof. done. Qed.

Lemma demo_msg_ok : msg_ok (Some 4096) (MsgRead 0 demo_file 10 100 0 demo_permits 1).
Proof.
  split; [done|]. split; [done|]. split; [|done]. split; [done|]. split; [done|].
  exists 10, 0, 100. split_and!; [done | done | by right].
Qed.

Lemma demo_shard_reachable hold : reachable (Some 4096) 4 (demo_shard hold []).
Proof.
  split; [lia|]. split; [by intros ? [= <-]|].
  exists (demo_ring hold), (mkPool 1 1 ∅), (∅ : chans). split; [done|].
  eapply rtc_l.
  { apply (StepCallers _ _ _ demo_world 1 100). constructor; simpl; try (done || lia). }
  eapply rtc_l; [|apply rtc_refl].
  assert (Hend : demo_shard hold [] = mkSys (new_drive (demo_ring hold)) demo_world
    ([] ++ [MsgRead 0 demo_file 10 100 0 demo_permits 1]) ({[0]} ∪ ∅) (1 - 1)
    (100 - default 0 (permit_bytes demo_permits)) Running_) by (vm_compute; done).
  rewrite Hend. apply StepSend; simpl; try (done || lia). exact demo_msg_ok.
Qed.

Lemma demo_closing_reachable hold : reachable (Some 4096) 4 (demo_shard hold [MsgShutdown]).
Proof.
  eapply step_reachable; [apply (demo_shard_reachable hold)|].
  by apply (StepNotify _ _ (demo_shard hold []) MsgShutdown).
Qed.

(** The shard after one turn: its read delivered, held by the kernel, drained
    by a shutdown, or leaked by one past its deadline. *)
Definition demo_after (hold : bool) (extra : list Msg) (now : Z) : Sys ring sem chans :=
  let s := demo_shard hold extra in
  match turn (demo_env now) false (sy_drive s) (sy_world s) (sy_queue s) with
  | TurnEnd e q => turn_sys s e q
  | TurnPanic => s
  end.

Definition demo_delivered := demo_after false [] 0.
Definition demo_busy := demo_after true [] 0.
Definition demo_drained := demo_after false [MsgShutdown] 0.
Definition demo_leaked := demo_after true [MsgShutdown] 6000.

Lemma demo_after_reachable hold extra now :
  reachable (Some 4096) 4 (demo_shard hold extra) ->
  reachable (Some 4096) 4 (demo_after hold extra now).
Proof.
  intros Hr. unfold demo_after. cbv zeta. destruct (turn _ _ _ _ _) as [e q|] eqn:Ht; [|done].
  eapply turn_reachable; [done | done | apply demo_env_addr | done | exact Ht].
Qed.

Lemma demo_reachable :
  reachable (Some 4096) 4 demo_delivered /\ reachable (Some 4096) 4 demo_busy /\
  reachable (Some 4096) 4 demo_drained /\ reachable (Some 4096) 4 demo_leaked.
Proof.
  split_and!; apply demo_after_reachable;
    auto using demo_shard_reachable, demo_closing_reachable.
Qed.

Lemma demo_outcomes :
  sy_status demo_busy = Running_ /\ sy_status demo_drained = Drained_ /\
  sy_status demo_leaked = Leaked_ /\
  size (d_pending (sy_drive demo_busy)) = 1%nat /\
  outstanding (d_ring (sy_drive demo_busy)) = [mkSqe (Read 3 4096 100 10) 0] /\
  os_rx (w_chan (sy_world demo_delivered)) 0 = RxValue (Ok (repeat Byte.x2a 100)) /\
  os_rx (w_chan (sy_world demo_leaked)) 0 = RxValue (Err strand_error).
Proof. split_and!; vm_compute; reflexivity. Qed.

(** ** Witnesses *)

Lemma turn_runs_steps_witness :
  let s := demo_shard true [MsgShutdown] in
  exists e q, turn (demo_env 0) false (sy_drive s) (sy_world s) (sy_queue s) = TurnEnd e q /\
    rtc (step (Some 4096)) s (turn_sys s e q).
Proof.
  apply (turn_runs_steps (Some 4096) 4).
  - exact (demo_closing_reachable true).
  - reflexivity.
  - exact (demo_env_addr 0).
  - done.
Defined.

Lemma turn_is_bounded_witness :
  (exists taken, sy_queue (demo_shard true []) = taken ++ [] /\ zlen taken <= 64 /\
     (sy_queue (demo_shard true []) <> [] -> taken <> [])) /\
  table_bytes (d_pending (sy_drive demo_busy)) <
    table_bytes (d_pending (sy_drive (demo_shard true []))) + 8 * 1024 * 1024 + max_allocation.
Proof.
  apply (turn_is_bounded (Some 4096) 4 (demo_env 0) false (demo_shard true [])
    (Continue (sy_drive demo_busy) (sy_world demo_busy)) []).
  - exact (demo_shard_reachable true).
  - reflexivity.
  - exact (demo_env_addr 0).
  - vm_compute. reflexivity.
Defined.

Lemma turn_never_sleeps_on_work_witness :
  next_wait (sy_drive demo_busy) = Some 50 /\ 0 < 50 <= IDLE_HEARTBEAT.
Proof.
  split; [vm_compute; reflexivity|].
  apply (turn_never_sleeps_on_work (Some 4096) 4 (demo_env 0) false (demo_shard true [])
    (sy_drive demo_busy) (sy_world demo_busy) []).
  - exact (demo_shard_reachable true).
  - reflexivity.
  - exact (demo_env_addr 0).
  - vm_compute. reflexivity.
  - vm_compute. reflexivity.
Defined.
