(* ===== verification/Guarantees.v ===== *)
(** * What a shard guarantees

    Properties of every reachable state of [System.v]: the kernel only writes
    into buffers the pending table owns, every caller is answered, the read
    budgets hold and the statistics add up, before and after the thread's
    exit, and the exit itself comes in bounded time. *)

From S2P Require Import Prelude IoError Geometry Interfaces Instances SharedBudget.
From S2P Require Import Pending ReadRun World TurnBudget SubmitRing Driver Ownership.
From S2P Require Import System Safety Turn.

Section Guarantees.
Context {R Sm Ch : Type} `{RingLaws R} `{SemaphoreLaws Sm} `{OneshotLaws Ch} `{Target}
  `{HashOrder}.
Context (limit : option Z).
Implicit Types (d : Drive R) (w : World Sm Ch) (s : Sys R Sm Ch).

Lemma accounts_of n s :
  reachable limit n s ->
  accounts limit n (bool_decide (sy_status s = Leaked_)) (d_pending (sy_drive s)) (sy_queue s)
    (sy_world s) (sy_used s) (sy_held s) (sy_elsewhere s).
Proof. by intros [_ ? _ _]%reachable_inv. Qed.

Lemma table_sqes_user_data (m : gmap Z Pending) :
  sqe_user_data <$> table_sqes m = (map_to_list m).*1.
Proof. unfold table_sqes. rewrite <-list_fmap_compose. by apply list_fmap_ext; intros ? []. Qed.

(** The reads the kernel or the backlog holds are those of the table. *)
Lemma outstanding_read_entry d q :
  drive_inv d -> q ∈ outstanding (d_ring d) -> is_read q ->
  exists id p, d_pending d !! id = Some p /\ entry_wf p /\ q = read_sqe p id.
Proof.
  intros Hd Hin Hread.
  assert (Hq : q ∈ reads (in_kernel_or_backlog d)).
  { apply list_elem_of_filter. split; [done|]. apply elem_of_app. by right. }
  rewrite (di_reads _ Hd) in Hq. apply elem_of_table_sqes in Hq as (id & p & Hp & ->).
  exists id, p. split_and!; try done. by apply (di_entries _ Hd _ _ Hp).
Qed.

(** Such a read is of the entry's file and into the entry's buffer. *)
Lemma outstanding_read_owned d q fd addr len off :
  drive_inv d -> q ∈ outstanding (d_ring d) -> sqe_op q = Read fd addr len off ->
  exists p, d_pending d !! sqe_user_data q = Some p /\ fd = raw_fd (file p) /\ 0 <= len /\
    vec_ptr (buf p) <= addr /\ addr + len <= vec_ptr (buf p) + zlen (vec_data (buf p)).
Proof.
  intros Hd Hin Hop.
  destruct (outstanding_read_entry _ _ Hd Hin) as (id & p & Hp & Hwf & ->).
  { unfold is_read. by rewrite Hop. }
  exists p. simpl. split; [done|]. rewrite read_sqe_exact in Hop by done. simpl in Hop.
  injection Hop as <- <- <- _. destruct Hwf. split_and!; done || lia.
Qed.

(** The submissions of the table's entries, by operation. *)
Lemma submission_ids d :
  drive_inv d ->
  let ids := sqe_user_data <$> reads (d_backlog d ++ outstanding (d_ring d)) in
  NoDup ids /\ forall id, id ∈ ids <-> id ∈ dom (d_pending d).
Proof.
  intros Hd ids. assert (Hids : ids ≡ₚ (map_to_list (d_pending d)).*1).
  { unfold ids. rewrite (di_reads _ Hd). by rewrite table_sqes_user_data. }
  split; [rewrite Hids; apply NoDup_fst_map_to_list|]. intros id. rewrite Hids.
  rewrite elem_of_dom, list_elem_of_fmap. split.
  - intros ([id' p] & -> & Hp%elem_of_map_to_list). by eexists.
  - intros [p Hp]. exists (id, p). split; [done|]. by apply elem_of_map_to_list.
Qed.

(** Every read ever sent is answered, queued or pending with a running thread. *)
Lemma owed_or_answered n s id :
  sys_inv limit n s -> id ∈ sy_used s ->
  answered (w_chan (sy_world s)) id \/
  sy_status s = Running_ /\
    (id ∈ queued_ids (sy_queue s) \/ id ∈ dom (d_pending (sy_drive s))).
Proof.
  intros [_ Ha Hdr Hex] Hid.
  pose proof (ac_answered _ _ _ _ _ _ _ _ _ Ha id Hid) as Hans.
  destruct (sy_status s) eqn:Hs; simpl in *.
  - destruct (decide (id ∈ queued_ids (sy_queue s) \/ id ∈ dom (d_pending (sy_drive s)))) as [?|Hn];
      [by right|]. left. apply Hans. intros [?|[_ ?]]; apply Hn; auto.
  - left. apply Hans. destruct (Hex) as [-> _]; [done|]. rewrite Hdr by done. set_solver.
  - left. apply Hans. destruct (Hex) as [-> _]; [done|]. intros [[]%not_elem_of_nil|[? _]]; done.
Qed.

(** ** Properties *)

(** [C1] No read buffer is freed or moved while the kernel may write to it: in every
    reachable state of a shard, running, drained or leaked, each read the kernel has
    accepted and not completed belongs to an entry of the pending table, which holds the
    open file it reads and owns the buffer it writes, and its whole address range lies
    inside that buffer. *)
Theorem kernel_writes_owned_buffers n s q fd addr len off :
  reachable limit n s -> q ∈ outstanding (d_ring (sy_drive s)) ->
  sqe_op q = Read fd addr len off ->
  exists p, d_pending (sy_drive s) !! sqe_user_data q = Some p /\
    fd = raw_fd (file p) /\ 0 <= len /\
    vec_ptr (buf p) <= addr /\ addr + len <= vec_ptr (buf p) + zlen (vec_data (buf p)).
Proof.
  intros [Hd _ _ _]%reachable_inv. by apply outstanding_read_owned.
Qed.

(** [C9] Every pending read has exactly one submission in flight or waiting in the backlog,
    and every such submission is for a pending read: the driver neither loses a read (which
    would leave its caller waiting forever) nor has the kernel read twice into one buffer. *)
Theorem one_submission_per_read n s :
  reachable limit n s ->
  let ids := sqe_user_data <$> reads (d_backlog (sy_drive s) ++ outstanding (d_ring (sy_drive s))) in
  NoDup ids /\ forall id, id ∈ ids <-> id ∈ dom (d_pending (sy_drive s)).
Proof. intros [Hd _ _ _]%reachable_inv. by apply submission_ids. Qed.

(** [C4] No caller is left waiting: for every read ever sent, either its result channel
    already holds an answer (a result, or the driver's going away) or its receiver is gone,
    or the driver still owes the answer because the read is in its queue or its pending
    table; and once the thread has exited, drained or leaked, the first case holds for all. *)
Theorem every_caller_is_answered n s id :
  reachable limit n s -> id ∈ sy_used s ->
  answered (w_chan (sy_world s)) id \/
  sy_status s = Running_ /\
    (id ∈ queued_ids (sy_queue s) \/ id ∈ dom (d_pending (sy_drive s))).
Proof. intros Hr%reachable_inv. by apply (owed_or_answered n). Qed.

(** [C10] The read limits hold at all times: the reads queued for and pending on a shard never
    exceed its depth, and under a byte limit the buffers the table owns together with the
    bytes queued never exceed the limit. *)
Theorem read_limits_hold n s :
  reachable limit n s ->
  zlen (queued_ids (sy_queue s)) + Z.of_nat (size (d_pending (sy_drive s))) <= n /\
  forall total, limit = Some total ->
    queue_bytes (sy_queue s) + table_bytes (d_pending (sy_drive s)) <= total.
Proof.
  intros Ha%accounts_of. destruct Ha. split; [lia|]. intros total ->.
  destruct (w_bytes (sy_world s)); [lia|done].
Qed.

(** [C19] The statistics add up in every reachable state: [in_flight] is exactly the number of
    pending reads, and every read ever submitted is delivered, reclaimed as an orphan or in
    flight (modulo the 64-bit wrap-around of the counters). *)
Theorem stats_add_up n s :
  reachable limit n s -> n <= u32_max ->
  in_flight (d_stats (sy_drive s)) = Z.of_nat (size (d_pending (sy_drive s))) /\
  submitted (d_stats (sy_drive s)) =
    wrap u64_max (delivered (d_stats (sy_drive s)) + orphan_reclaimed (d_stats (sy_drive s)) +
                  in_flight (d_stats (sy_drive s))).
Proof.
  intros Hr Hn. pose proof (accounts_of _ _ Hr) as [].
  apply reachable_inv in Hr as [[] _ _ _]. split; [|done].
  rewrite di_in_flight. apply wrap_small. unfold in_range, u64_max, u32_max, zlen in *. lia.
Qed.

(** [C11] What an exited thread leaves behind. A drained one has an empty table, no read
    outstanding in the kernel and all its permits returned. A leaked one keeps the buffer and
    the open file of every read still in the kernel: the entries it keeps are exactly those
    with a submission in the kernel or the backlog, each of the former with the whole range
    the kernel may write inside its buffer; and it goes on charging those entries to the
    count and byte limits. Both leave the count semaphore closed and the queue empty. *)
Theorem exit_accounts n s :
  reachable limit n s -> sy_status s <> Running_ ->
  sy_queue s = [] /\ sem_is_closed (w_count (sy_world s)) = true /\
  sem_free (w_count (sy_world s)) + sy_held s =
    n - Z.of_nat (size (d_pending (sy_drive s))) /\
  (forall total b, limit = Some total -> w_bytes (sy_world s) = Some b ->
     sem_free b + sy_elsewhere s = total - table_bytes (d_pending (sy_drive s))) /\
  (sy_status s = Drained_ ->
     d_pending (sy_drive s) = ∅ /\ reads (outstanding (d_ring (sy_drive s))) = []) /\
  (sy_status s = Leaked_ ->
     (forall q fd addr len off, q ∈ outstanding (d_ring (sy_drive s)) ->
        sqe_op q = Read fd addr len off ->
        exists p, d_pending (sy_drive s) !! sqe_user_data q = Some p /\ fd = raw_fd (file p) /\
          0 <= len /\ vec_ptr (buf p) <= addr /\
          addr + len <= vec_ptr (buf p) + zlen (vec_data (buf p))) /\
     let ids := sqe_user_data <$> reads (d_backlog (sy_drive s) ++ outstanding (d_ring (sy_drive s))) in
     NoDup ids /\ forall id, id ∈ ids <-> id ∈ dom (d_pending (sy_drive s))).
Proof.
  intros Hr Hs. pose proof (accounts_of _ _ Hr) as Ha.
  apply reachable_inv in Hr as [Hd _ Hdr Hex]. destruct (Hex Hs) as [Hq Hcl].
  destruct Ha. rewrite Hq in *. unfold zlen in *. simpl in *. split_and!; try (done || lia).
  - intros total b -> Hb. rewrite Hb in ac_bytes. lia.
  - intros He. specialize (Hdr He). split; [done|].
    pose proof (di_reads _ Hd) as Hp. rewrite Hdr in Hp. unfold table_sqes in Hp.
    rewrite map_to_list_empty in Hp. unfold in_kernel_or_backlog in Hp.
    rewrite reads_app in Hp. simpl in Hp. apply Permutation_nil_r in Hp.
    by apply app_eq_nil in Hp as [_ ?].
  - intros _. split; [|by apply submission_ids]. intros. by eapply outstanding_read_owned.
Qed.
End Guarantees.

(** ** Witnesses *)

Lemma kernel_writes_owned_buffers_witness :
  exists p, d_pending (sy_drive demo_busy) !! 0 = Some p /\ 3 = raw_fd (file p) /\ 0 <= 100 /\
    vec_ptr (buf p) <= 4096 /\ 4096 + 100 <= vec_ptr (buf p) + zlen (vec_data (buf p)).
Proof.
  apply (kernel_writes_owned_buffers (Some 4096) 4 demo_busy (mkSqe (Read 3 4096 100 10) 0)
    3 4096 100 10).
  - exact (proj1 (proj2 demo_reachable)).
  - replace (outstanding _) with [mkSqe (Read 3 4096 100 10) 0] by (vm_compute; reflexivity).
    left.
  - reflexivity.
Defined.

Lemma one_submission_per_read_witness :
  let ids := sqe_user_data <$> reads (d_backlog (sy_drive demo_busy) ++
                                      outstanding (d_ring (sy_drive demo_busy))) in
  NoDup ids /\ forall id, id ∈ ids <-> id ∈ dom (d_pending (sy_drive demo_busy)).
Proof. apply (one_submission_per_read (Some 4096) 4), demo_reachable. Defined.

Lemma every_caller_is_answered_witness :
  answered (w_chan (sy_world demo_leaked)) 0 \/
  sy_status demo_leaked = Running_ /\
    (0 ∈ queued_ids (sy_queue demo_leaked) \/ 0 ∈ dom (d_pending (sy_drive demo_leaked))).
Proof.
  apply (every_caller_is_answered (Some 4096) 4).
  - apply demo_reachable.
  - replace (sy_used demo_leaked) with ({[0]} : gset Z) by (vm_compute; reflexivity).
    apply elem_of_singleton. reflexivity.
Defined.

Lemma read_limits_hold_witness :
  zlen (queued_ids (sy_queue demo_busy)) + Z.of_nat (size (d_pending (sy_drive demo_busy))) <= 4 /\
  forall total, Some 4096 = Some total ->
    queue_bytes (sy_queue demo_busy) + table_bytes (d_pending (sy_drive demo_busy)) <= total.
Proof. apply (read_limits_hold (Some 4096) 4), demo_reachable. Defined.

Lemma stats_add_up_witness :
  in_flight (d_stats (sy_drive demo_busy)) = Z.of_nat (size (d_pending (sy_drive demo_busy))) /\
  submitted (d_stats (sy_drive demo_busy)) =
    wrap u64_max (delivered (d_stats (sy_drive demo_busy)) +
      orphan_reclaimed (d_stats (sy_drive demo_busy)) + in_flight (d_stats (sy_drive demo_busy))).
Proof. apply (stats_add_up (Some 4096) 4); [apply demo_reachable | vm_compute; discriminate]. Defined.

Lemma exit_accounts_witness :
  sy_queue demo_leaked = [] /\ sem_is_closed (w_count (sy_world demo_leaked)) = true /\
  sem_free (w_count (sy_world demo_leaked)) + sy_held demo_leaked =
    4 - Z.of_nat (size (d_pending (sy_drive demo_leaked))) /\
  (exists p, d_pending (sy_drive demo_leaked) !! 0 = Some p /\ 3 = raw_fd (file p) /\ 0 <= 100 /\
     vec_ptr (buf p) <= 4096 /\ 4096 + 100 <= vec_ptr (buf p) + zlen (vec_data (buf p))).
Proof.
  destruct (exit_accounts (Some 4096) 4 demo_leaked) as (Hq & Hc & Hn & _ & _ & Hl);
    [apply demo_reachable | vm_compute; discriminate |].
  split; [exact Hq|]. split; [exact Hc|]. split; [exact Hn|].
  apply (proj1 (Hl ltac:(vm_compute; reflexivity)) (mkSqe (Read 3 4096 100 10) 0) 3 4096 100 10);
    [|reflexivity].
  replace (outstanding _) with [mkSqe (Read 3 4096 100 10) 0; cancel_sqe 0]
    by (vm_compute; reflexivity). left.
Defined.
