(* ===== verification/Liveness.v ===== *)
(** * Reads complete

    Executions of a shard of [System.v] as infinite sequences of states, the
    fairness the driver relies on - its thread keeps running its loop, the
    kernel completes what it accepted - and the theorem that every read is
    then answered, whatever resubmissions, cancellations and shutdowns come
    between. *)

From S2P Require Import Prelude IoError Geometry Interfaces Instances SharedBudget.
From S2P Require Import Pending ReadRun World TurnBudget SubmitRing Driver Ownership.
From S2P Require Import System Safety Turn Guarantees.

Section Liveness.
Context {R Sm Ch : Type} `{RingLaws R} `{SemaphoreLaws Sm} `{OneshotLaws Ch} `{Target}
  `{HashOrder}.
Context (limit : option Z).
Implicit Types (d : Drive R) (w : World Sm Ch) (s : Sys R Sm Ch) (σ : nat -> Sys R Sm Ch).

(** ** Executions *)

Definition exited s : Prop := sy_status s <> Running_.

(** The thread takes the first message of its queue. *)
Definition takes s s' : Prop :=
  exists m q d w b b' addr, sy_status s = Running_ /\ sy_queue s = m :: q /\ 0 <= addr /\
    intake_msg (sy_drive s) (sy_world s) b addr m = Some (d, w, b') /\ s' = with_drive s d w q.

(** The thread reaps the completion of an operation. *)
Definition reaps (ud : Z) s s' : Prop :=
  exists c r inp d w, sy_status s = Running_ /\ cq_next (d_ring (sy_drive s)) = Some (c, r) /\
    cqe_user_data c = ud /\
    reap_one (set_ring (sy_drive s) r (d_backlog (sy_drive s))) (sy_world s) c inp = Some (d, w) /\
    s' = with_drive s d w (sy_queue s).

(** An execution from a reachable state; nothing need happen at a position. *)
Record execution (n : Z) σ : Prop := {
  ex_start : reachable limit n (σ 0%nat);
  ex_step i : σ (S i) = σ i \/ step limit (σ i) (σ (S i))
}.

(** Unless the thread exits: a message that waits has the thread take one
    later, an entry in the backlog is handed to the ring later, and the
    completion of an entry the ring holds is reaped later. *)
Record fair σ : Prop := {
  fair_intake i : sy_queue (σ i) <> [] ->
    exists j, (i <= j)%nat /\ (exited (σ j) \/ takes (σ j) (σ (S j)));
  fair_submit i q : q ∈ d_backlog (sy_drive (σ i)) ->
    exists j, (i <= j)%nat /\ (exited (σ j) \/ q ∈ outstanding (d_ring (sy_drive (σ j))));
  fair_kernel i q : q ∈ outstanding (d_ring (sy_drive (σ i))) ->
    exists j, (i <= j)%nat /\ (exited (σ j) \/ reaps (sqe_user_data q) (σ j) (σ (S j)))
}.

(** ** Lemmas: one step *)

Lemma step_exited s s' : step limit s s' -> exited s -> exited s'.
Proof. unfold exited. by destruct 1; simpl; congruence. Qed.

(** Reaping a completion brings its entry nearer to its end and leaves the
    others. *)
Lemma reap_measure d w c r inp d' w' id p :
  drive_inv d -> table_open (d_pending d) -> cq_next (d_ring d) = Some (c, r) ->
  reap_one (set_ring d r (d_backlog d)) w c inp = Some (d', w') -> d_pending d !! id = Some p ->
  d_pending d' !! id = None \/
  exists p', d_pending d' !! id = Some p' /\ (read_measure p' <= read_measure p)%nat /\
    (cqe_user_data c = id -> (read_measure p' < read_measure p)%nat).
Proof.
  intros Hd Hopen Hnext Hr Hp. unfold reap_one in Hr.
  pose proof (di_entries _ Hd id p Hp) as [Hid _].
  destruct (consumed_cases d c r Hd Hnext) as
    [(i & Hi & Hud & _)|(i & pi & Hi & Hud & Hpi & Hwf & Hans & _)].
  - rewrite Hud, (proj2 (Z.eqb_neq _ _)) in Hr by by apply cancel_user_data.
    injection Hr as <- <-. right. exists p. split_and!; [done|done|]. intros Heq.
    exfalso. apply (cancel_user_data i Hi). rewrite <-Hud, Heq. by apply op_id_no_cancel_bit.
  - rewrite Hud, op_id_no_cancel_bit in Hr by done. simpl in Hr. rewrite Hpi in Hr.
    unfold reap_entry in Hr. rewrite Hud in Hr.
    pose proof (answers_read_bounds _ _ _ Hwf Hans) as (Hres & Hst & _).
    set (e := mkReapEnv _ _) in Hr. change (d_shutting_down _) with (d_shutting_down d) in Hr.
    destruct (reap_read_step (kernel_store pi (cqe_addr c) (cqe_stored c)) i (cqe_result c) (d_shutting_down d) e
      (kernel_store_wf _ _ _ Hwf) Hres) as (p' & st & Heq & Hsame & Hstep).
    rewrite Heq in Hr. simpl in Hr. destruct st as [outcome|sq].
    + destruct (done_tx p'); simpl in Hr; [|done]. destruct (send _ _ _). injection Hr as <- <-.
      simpl. destruct (decide (id = i)) as [->|Hne]; [left; apply lookup_delete_eq|right].
      exists p. rewrite lookup_delete_ne by done. split_and!; [done|done|congruence].
    + injection Hr as <- <-. right. simpl. destruct (decide (id = i)) as [->|Hne].
      * assert (pi = p) as -> by congruence. exists p'. rewrite lookup_insert_eq.
        change (read_measure (kernel_store p _ _)) with (read_measure p) in Hstep.
        split_and!; [done|lia|]. intros _. apply Hstep.
      * exists p. rewrite lookup_insert_ne by done. split_and!; [done|done|congruence].
Qed.

(** No step moves an entry away from its end. *)
Lemma step_measure n s s' id p :
  sys_inv limit n s -> step limit s s' -> d_pending (sy_drive s) !! id = Some p ->
  exited s' \/ d_pending (sy_drive s') !! id = None \/
  exists p', d_pending (sy_drive s') !! id = Some p' /\ (read_measure p' <= read_measure p)%nat.
Proof.
  intros [Hd Ha _ _] Hstep Hp.
  assert (Hsame : forall s1, d_pending (sy_drive s1) = d_pending (sy_drive s) ->
    exited s1 \/ d_pending (sy_drive s1) !! id = None \/ exists p', d_pending (sy_drive s1) !! id = Some p' /\
      (read_measure p' <= read_measure p)%nat).
  { intros s1 ->. right. right. exists p. done. }
  destruct Hstep as
    [w' h' e' Hact|i f off len c pm al Hs Hm Hid Hrx Hcl Hh He|m Hs Hm|r' Hr
    |m q d' w' b b' addr Hs Hq Haddr Hi|Hs|Hs|c r' inp d' w' Hs Hnext Hok Hr
    |st prev warn Hs Hu|env d' w' Hs Hc|b Hs|env d' w' Hs Hc|env d' w' Hs Hc];
    try (by apply Hsame); try (by left).
  - right. right. simpl. rewrite Hq in Ha.
    destruct m as [i f off len c pm al|i|]; simpl in Hi.
    + unfold intake_read in Hi. destruct (d_shutting_down _); [simplify_eq; eauto|].
      destruct (prepare_read _ _ _ _ _ _ _) as [|e a|pn a]; simplify_eq/=; [eauto|].
      exists p. split; [|done]. rewrite lookup_insert_ne; [done|]. intros ->.
      destruct (ac_queued _ _ _ _ _ _ _ _ _ Ha id); [by left|congruence].
    + simplify_eq. unfold intake_cancel.
      destruct (d_pending (sy_drive s) !! i) as [pi|] eqn:Hpi; [|eauto].
      destruct (queue_cancel _ _ _). simpl. destruct (decide (i = id)) as [->|Hne].
      * assert (pi = p) as -> by congruence. rewrite lookup_insert_eq. by eexists.
      * rewrite lookup_insert_ne by done. eauto.
    + simplify_eq. unfold cancel_all. destruct (queue_cancels _ _ _). eauto.
  - apply Hsame. simpl. by rewrite submit_ring_table.
  - right. rewrite Hs in Ha.
    destruct (reap_measure _ _ _ _ _ _ _ id p Hd (ac_done _ _ _ _ _ _ _ _ _ Ha eq_refl) Hnext Hr Hp)
      as [?|(p' & ? & ? & _)]; simpl; eauto.
  - apply Hsame. pose proof (check_exit_cases (sy_drive s) (sy_world s) env) as Hcases.
    rewrite Hc in Hcases. by destruct Hcases as [_ [->|[t ->]]].
Qed.

(** A message in the queue stays behind the same ones, or the thread takes the
    first. *)
Lemma step_queue s s' pre m post :
  step limit s s' -> sy_queue s = pre ++ m :: post ->
  exited s' \/ (exists post', sy_queue s' = pre ++ m :: post') \/
  match pre with
  | [] => sy_queue s' = post
  | _ :: pre => sy_queue s' = pre ++ m :: post
  end.
Proof.
  intros Hstep Hq. destruct Hstep as
    [w' h' e' Hact|i f off len c pm al Hs Hm Hid Hrx Hcl Hh He|x Hs Hm|r' Hr
    |x q d' w' b b' addr Hs Hqs Haddr Hi|Hs|Hs|c r' inp d' w' Hs Hnext Hok Hr
    |st prev warn Hs Hu|env d' w' Hs Hc|b Hs|env d' w' Hs Hc|env d' w' Hs Hc];
    simpl; try (by left); try (right; left; by exists post).
  - right. left. exists (post ++ [MsgRead i f off len c pm al]). by rewrite Hq, <-app_assoc.
  - right. left. exists (post ++ [x]). by rewrite Hq, <-app_assoc.
  - right. right. rewrite Hqs in Hq. destruct pre; simpl in Hq; by simplify_eq.
Qed.

Lemma step_used s s' : step limit s s' -> sy_used s ⊆ sy_used s'.
Proof. destruct 1; simpl; set_solver. Qed.

(** Only operations never sent join the queue. *)
Lemma step_queued s s' id :
  step limit s s' -> id ∈ sy_used s -> id ∉ queued_ids (sy_queue s) -> id ∉ queued_ids (sy_queue s').
Proof.
  intros Hstep Hu Hq. destruct Hstep as
    [w' h' e' Hact|i f off len c pm al Hs Hm Hid Hrx Hcl Hh He|x Hs Hm|r' Hr
    |x q d' w' b b' addr Hs Hqs Haddr Hi|Hs|Hs|c r' inp d' w' Hs Hnext Hok Hr
    |st prev warn Hs Hu'|env d' w' Hs Hc|b Hs|env d' w' Hs Hc|env d' w' Hs Hc];
    simpl; try done; try (by apply not_elem_of_nil).
  - rewrite queued_ids_snoc. simpl. rewrite elem_of_app, list_elem_of_singleton. naive_solver.
  - rewrite queued_ids_snoc. destruct x; try done; by rewrite app_nil_r.
  - rewrite Hqs in Hq. intros Hin. apply Hq. change (x :: q) with ([x] ++ q). unfold queued_ids.
    rewrite omap_app. apply elem_of_app. by right.
Qed.

(** ** Lemmas: executions *)

Section Execution.
Context (n : Z) (σ : nat -> Sys R Sm Ch) (Hex : execution n σ).

Lemma exec_reachable i : reachable limit n (σ i).
Proof.
  induction i as [|i IH]; [apply Hex|].
  destruct (ex_step _ _ Hex i) as [-> | Hs]; [done|]. by eapply step_reachable.
Qed.

Lemma exec_inv i : sys_inv limit n (σ i).
Proof. eapply reachable_inv, exec_reachable. Qed.

(** What every step keeps, an execution keeps. *)
Lemma exec_keeps (P : Sys R Sm Ch -> Prop) i j :
  (forall k s', (i <= k)%nat -> step limit (σ k) s' -> P (σ k) -> P s') ->
  (i <= j)%nat -> P (σ i) -> P (σ j).
Proof.
  intros HP Hij Hi. induction Hij as [|j Hij IH]; [done|].
  destruct (ex_step _ _ Hex j) as [-> | Hs]; [done|]. by eapply HP.
Qed.

Lemma exec_exited i j : (i <= j)%nat -> exited (σ i) -> exited (σ j).
Proof. apply (exec_keeps exited). intros k s' _. apply step_exited. Qed.

Lemma exec_used i j id : (i <= j)%nat -> id ∈ sy_used (σ i) -> id ∈ sy_used (σ j).
Proof. apply (exec_keeps (fun s => id ∈ sy_used s)). intros k s' _ Hs. by apply step_used. Qed.

(** An operation that is no longer queued stays so. *)
Lemma exec_unqueued i j id :
  (i <= j)%nat -> id ∈ sy_used (σ i) -> id ∉ queued_ids (sy_queue (σ i)) ->
  id ∉ queued_ids (sy_queue (σ j)).
Proof.
  intros Hij Hu. apply (exec_keeps (fun s => id ∉ queued_ids (sy_queue s))); [|done].
  intros k s' Hik Hs. apply step_queued; [done|]. by eapply exec_used.
Qed.

(** A pending entry is still there and no further from its end, or was gone
    in between. *)
Lemma exec_measure i j id p :
  (i <= j)%nat -> d_pending (sy_drive (σ i)) !! id = Some p ->
  (exists k, (i <= k)%nat /\ (exited (σ k) \/ d_pending (sy_drive (σ k)) !! id = None)) \/
  exists p', d_pending (sy_drive (σ j)) !! id = Some p' /\ (read_measure p' <= read_measure p)%nat.
Proof.
  intros Hij Hp. induction Hij as [|j Hij IH]; [right; eauto|].
  destruct IH as [?|(p1 & Hp1 & Hm1)]; [by left|].
  destruct (ex_step _ _ Hex j) as [-> | Hs]; [right; eauto|].
  destruct (step_measure n _ _ id p1 (exec_inv j) Hs Hp1) as [?|[?|(p2 & ? & ?)]].
  - left. exists (S j). split; [lia|by left].
  - left. exists (S j). split; [lia|by right].
  - right. exists p2. split; [done|lia].
Qed.

Context (Hfair : fair σ).

(** The completion of a pending read is reaped, unless it ends otherwise. *)
Lemma pending_reaped i id p :
  d_pending (sy_drive (σ i)) !! id = Some p ->
  exists j, (i <= j)%nat /\ (exited (σ j) \/ reaps id (σ j) (σ (S j))).
Proof.
  intros Hp. assert (Hin : exists q, q ∈ reads (in_kernel_or_backlog (sy_drive (σ i))) /\
    sqe_user_data q = id).
  { exists (read_sqe p id). split; [|done]. rewrite (di_reads _ (si_drive _ _ _ (exec_inv i))).
    apply elem_of_table_sqes. eauto. }
  destruct Hin as (q & Hq & <-). apply list_elem_of_filter in Hq as [_ Hq].
  apply elem_of_app in Hq as [Hq|Hq]; [|by apply Hfair].
  destruct (fair_submit _ Hfair i q Hq) as (j & Hij & [He|Ho]); [eauto|].
  destruct (fair_kernel _ Hfair j q Ho) as (k & Hjk & Hk). exists k. split; [lia|done].
Qed.

(** A pending read ends, or the thread exits. *)
Lemma pending_ends i id p :
  d_pending (sy_drive (σ i)) !! id = Some p ->
  exists j, (i <= j)%nat /\ (exited (σ j) \/ d_pending (sy_drive (σ j)) !! id = None).
Proof.
  remember (read_measure p) as m eqn:Hm. revert i p Hm.
  induction m as [m IH] using lt_wf_ind. intros i p -> Hp.
  destruct (pending_reaped i id p Hp) as (j & Hij & [He|Hr]); [eauto|].
  destruct (exec_measure i j id p Hij Hp) as [?|(pj & Hpj & Hle)]; [done|].
  destruct Hr as (c & r & inp & d & w & Hs & Hnext & Hud & Hr & Heq).
  pose proof (exec_inv j) as [Hd Ha _ _]. rewrite Hs in Ha.
  destruct (reap_measure _ _ _ _ _ _ _ id pj Hd (ac_done _ _ _ _ _ _ _ _ _ Ha eq_refl) Hnext Hr Hpj)
    as [Hnone|(p' & Hp' & _ & Hlt)].
  - exists (S j). split; [lia|]. right. by rewrite Heq.
  - specialize (Hlt Hud). destruct (IH (read_measure p')) with (i := S j) (p := p')
      as (k & Hk & Hend); [lia|done|by rewrite Heq|]. exists k. split; [lia|done].
Qed.

(** A queued read behind at most [len] messages. *)
Definition waits_behind (id : Z) (len : nat) s : Prop :=
  exists pre m post, sy_queue s = pre ++ m :: post /\ msg_read_id m = Some id /\
    (length pre <= len)%nat.

Lemma queued_waits s id : id ∈ queued_ids (sy_queue s) -> exists len, waits_behind id len s.
Proof.
  intros (m & Hm & Hid)%list_elem_of_omap. apply list_elem_of_split in Hm as (pre & post & Hq).
  exists (length pre), pre, m, post. done.
Qed.

(** A queued read keeps its place or moves forward, and leaves from the front. *)
Lemma waits_step i s' id len :
  step limit (σ i) s' -> waits_behind id len (σ i) ->
  exited s' \/ id ∉ queued_ids (sy_queue s') \/ waits_behind id len s'.
Proof.
  intros Hs (pre & m & post & Hq & Hm & Hlen).
  destruct (step_queue _ _ _ _ _ Hs Hq) as [?|[[post' Hq']|Hq']]; [by left| |].
  - right. right. by exists pre, m, post'.
  - right. destruct pre as [|x pre].
    + left. pose proof (ac_nodup _ _ _ _ _ _ _ _ _ (si_accounts _ _ _ (exec_inv i))) as Hnd.
      rewrite Hq in Hnd. unfold queued_ids in Hnd. simpl in Hnd. rewrite Hm in Hnd.
      apply NoDup_cons in Hnd as [Hnd _]. by rewrite Hq'.
    + right. exists pre, m, post. simpl in Hlen. split_and!; [done|done|lia].
Qed.

Lemma takes_step i id len :
  takes (σ i) (σ (S i)) -> waits_behind id len (σ i) ->
  id ∉ queued_ids (sy_queue (σ (S i))) \/ exists len', (len' < len)%nat /\ waits_behind id len' (σ (S i)).
Proof.
  intros (x & q & d & w & b & b' & addr & _ & Hx & _ & _ & Heq) (pre & m & post & Hq & Hm & Hlen).
  rewrite Heq. simpl. destruct pre as [|y pre]; rewrite Hq in Hx; simpl in Hx; simplify_eq.
  - left. pose proof (ac_nodup _ _ _ _ _ _ _ _ _ (si_accounts _ _ _ (exec_inv i))) as Hnd.
    rewrite Hq in Hnd. unfold queued_ids in Hnd. simpl in Hnd. rewrite Hm in Hnd.
    by apply NoDup_cons in Hnd as [Hnd _].
  - right. exists (length pre). split; [simpl in Hlen; lia|]. by exists pre, m, post.
Qed.

Lemma exec_waits i j id len :
  (i <= j)%nat -> waits_behind id len (σ i) ->
  (exists k, (i <= k)%nat /\ (exited (σ k) \/ id ∉ queued_ids (sy_queue (σ k)))) \/
  waits_behind id len (σ j).
Proof.
  intros Hij Hw. induction Hij as [|j Hij IH]; [by right|].
  destruct IH as [?|Hj]; [by left|].
  destruct (ex_step _ _ Hex j) as [-> | Hs]; [by right|].
  destruct (waits_step j _ id len Hs Hj) as [?|[?|?]]; [left|left|by right];
    exists (S j); (split; [lia|]); auto.
Qed.

(** A queued read leaves the queue, or the thread exits. *)
Lemma queued_leaves i id :
  id ∈ queued_ids (sy_queue (σ i)) ->
  exists j, (i <= j)%nat /\ (exited (σ j) \/ id ∉ queued_ids (sy_queue (σ j))).
Proof.
  intros [len Hw]%queued_waits. revert i Hw. induction len as [len IH] using lt_wf_ind. intros i Hw.
  destruct (fair_intake _ Hfair i) as (j & Hij & [He|Ht]);
    [destruct Hw as ([|? ?] & m & post & -> & _); done|eauto|].
  destruct (exec_waits i j id len Hij Hw) as [?|Hj]; [done|].
  destruct (takes_step j id len Ht Hj) as [?|(len' & Hlt & Hw')]; [exists (S j); split; [lia|auto]|].
  destruct (IH len' Hlt (S j) Hw') as (k & Hk & ?). exists k. split; [lia|done].
Qed.
End Execution.

(** ** Property *)

(** [C5] Every read completes: in an execution in which the driver thread keeps taking
    messages, handing its backlog to the ring and reaping what the kernel completes (or
    exits), every read ever sent has its answer later, or its receiver is gone - however
    often the kernel answers with short reads and transient errors, whatever the callers,
    the other shards and the kernel do in between, and whether the thread drains, leaks or
    runs for ever. *)
Theorem every_read_completes n σ i id :
  execution n σ -> fair σ -> id ∈ sy_used (σ i) ->
  exists j, (i <= j)%nat /\ answered (w_chan (sy_world (σ j))) id.
Proof.
  intros Hex Hfair Hid.
  assert (Hleft : exists j, (i <= j)%nat /\ (exited (σ j) \/ id ∉ queued_ids (sy_queue (σ j)))).
  { destruct (decide (id ∈ queued_ids (sy_queue (σ i)))) as [Hq|Hq]; [|by exists i; auto].
    by apply (queued_leaves n). }
  destruct Hleft as (j & Hij & Hj).
  assert (Hend : exists k, (j <= k)%nat /\ (exited (σ k) \/ d_pending (sy_drive (σ k)) !! id = None)).
  { destruct (d_pending (sy_drive (σ j)) !! id) as [p|] eqn:Hp; [|by exists j; auto].
    by apply (pending_ends n _ Hex Hfair j id p). }
  destruct Hend as (k & Hjk & Hk). exists k. split; [lia|].
  pose proof (exec_used n σ Hex i j id Hij Hid) as Hidj.
  destruct (owed_or_answered limit n (σ k) id) as [?|[Hrun Howed]];
    [by apply (exec_inv n)|by apply (exec_used n σ Hex j k)|done|].
  destruct Hk as [Hk|Hk]; [by destruct Hk|]. destruct Howed as [Hq|Hp].
  - destruct Hj as [Hj|Hj]; [by destruct (exec_exited n σ Hex j k Hjk Hj)|].
    by destruct (exec_unqueued n σ Hex j k id Hjk Hidj Hj).
  - apply elem_of_dom in Hp as [? Hp]. congruence.
Qed.
End Liveness.

(** ** Witness *)

(** The read of [Turn.v] taken, submitted and delivered, and nothing after. *)
Definition demo_taken : Sys ring sem chans :=
  let s := demo_shard false [] in
  match sy_queue s with
  | m :: q =>
      match intake_msg (sy_drive s) (sy_world s) default_budget 4096 m with
      | Some (d, w, _) => with_drive s d w q
      | None => s
      end
  | [] => s
  end.

Definition demo_submitted : Sys ring sem chans :=
  with_drive demo_taken (submit_ring (sy_drive demo_taken)).1 (sy_world demo_taken)
    (sy_queue demo_taken).

Definition demo_reaped : Sys ring sem chans :=
  let s := demo_submitted in
  match cq_next (d_ring (sy_drive s)) with
  | Some (c, r) =>
      match reap_one (set_ring (sy_drive s) r (d_backlog (sy_drive s))) (sy_world s) c
              (mkReapInput (fun _ => Ok 500) false) with
      | Some (d, w) => with_drive s d w (sy_queue s)
      | None => s
      end
  | None => s
  end.

Definition demo_execution (i : nat) : Sys ring sem chans :=
  match i with
  | 0 => demo_shard false []
  | 1 => demo_taken
  | 2 => demo_submitted
  | _ => demo_reaped
  end%nat.

Lemma demo_takes : takes (demo_execution 0) (demo_execution 1).
Proof.
  change (takes (demo_shard false []) demo_taken). unfold demo_taken. cbv zeta.
  change (sy_queue (demo_shard false [])) with [MsgRead 0 demo_file 10 100 0 demo_permits 1].
  cbv match. destruct (intake_msg _ _ _ _ _) as [[[d w] b]|] eqn:Hi; [|by vm_compute in Hi].
  exists (MsgRead 0 demo_file 10 100 0 demo_permits 1), [], d, w, default_budget, b, 4096.
  split_and!; done || lia.
Qed.

Lemma demo_reaps : reaps 0 (demo_execution 2) (demo_execution 3).
Proof.
  change (reaps 0 demo_submitted demo_reaped). unfold demo_reaped. cbv zeta.
  destruct (cq_next _) as [[c r]|] eqn:Hn; [|by vm_compute in Hn].
  destruct (reap_one _ _ _ _) as [[d w]|] eqn:Hr.
  - exists c, r, (mkReapInput (fun _ => Ok 500) false), d, w. split_and!; try done.
    vm_compute in Hn. injection Hn as <- _. done.
  - vm_compute in Hn. injection Hn as <- <-. by vm_compute in Hr.
Qed.

Lemma demo_execution_steps : execution (Some 4096) 4 demo_execution.
Proof.
  split; [apply demo_shard_reachable|]. intros [|[|[|i]]]; [right..|by left].
  - destruct demo_takes as (m & q & d & w & b & b' & addr & Hs & Hq & Ha & Hi & ->).
    by eapply StepIntake.
  - by apply (StepSubmit _ _ demo_taken).
  - destruct demo_reaps as (c & r & inp & d & w & Hs & Hn & _ & Hr & ->).
    by eapply StepReap.
Qed.

Lemma demo_execution_rings :
  let backlog i := d_backlog (sy_drive (demo_execution i)) in
  let held i := outstanding (d_ring (sy_drive (demo_execution i))) in
  let read := mkSqe (Read 3 4096 100 10) 0 in
  (backlog 0 = [] /\ backlog 1 = [read] /\ backlog 2 = [] /\ backlog 3 = [])%nat /\
  (held 0 = [] /\ held 1 = [] /\ held 2 = [read] /\ held 3 = [])%nat /\
  (sy_queue (demo_execution 1) = [] /\ sy_queue (demo_execution 2) = [] /\
   sy_queue (demo_execution 3) = []).
Proof. split_and!; vm_compute; reflexivity. Qed.

Lemma demo_execution_fair : fair demo_execution.
Proof.
  destruct demo_execution_rings as ((Hb0 & Hb1 & Hb2 & Hb3) & (Ho0 & Ho1 & Ho2 & Ho3) & Hq1 & Hq2 & Hq3).
  split.
  - intros [|[|[|i]]] Hne; [|destruct (Hne Hq1)|destruct (Hne Hq2)|destruct (Hne Hq3)].
    exists 0%nat. split; [lia|]. right. apply demo_takes.
  - intros [|[|[|i]]] q Hin.
    + rewrite Hb0 in Hin. destruct (not_elem_of_nil q Hin).
    + rewrite Hb1 in Hin. exists 2%nat. split; [lia|]. right. by rewrite Ho2.
    + rewrite Hb2 in Hin. destruct (not_elem_of_nil q Hin).
    + change (demo_execution (S (S (S i)))) with (demo_execution 3) in Hin.
      rewrite Hb3 in Hin. destruct (not_elem_of_nil q Hin).
  - intros [|[|[|i]]] q Hin.
    + rewrite Ho0 in Hin. destruct (not_elem_of_nil q Hin).
    + rewrite Ho1 in Hin. destruct (not_elem_of_nil q Hin).
    + rewrite Ho2 in Hin. apply list_elem_of_singleton in Hin as ->.
      exists 2%nat. split; [lia|]. right. apply demo_reaps.
    + change (demo_execution (S (S (S i)))) with (demo_execution 3) in Hin.
      rewrite Ho3 in Hin. destruct (not_elem_of_nil q Hin).
Qed.

Lemma every_read_completes_witness :
  execution (Some 4096) 4 demo_execution /\ fair demo_execution /\
  0 ∈ sy_used (demo_execution 0) /\
  exists j, (0 <= j)%nat /\ answered (w_chan (sy_world (demo_execution j))) 0.
Proof.
  assert (Hin : 0 ∈ sy_used (demo_execution 0)) by (apply elem_of_singleton; reflexivity).
  split; [exact demo_execution_steps|]. split; [exact demo_execution_fair|]. split; [exact Hin|].
  exact (every_read_completes (Some 4096) 4 demo_execution 0 0 demo_execution_steps
    demo_execution_fair Hin).
Defined.
