(* ===== verification/Shutdown.v ===== *)
(** * Shutting down

    How a shard comes to shut down and how long its drain can take: the
    classification of submit errors in [handle_submit_result], the latched
    shutdown flag, and the drain deadline of [drive]. *)

From S2P Require Import Prelude IoError Geometry Interfaces Instances SharedBudget.
From S2P Require Import Pending ReadRun World TurnBudget SubmitRing Driver Ownership.
From S2P Require Import System Safety Turn.

(** ** A history of submit results *)

(** What [submit_ring] keeps between submits, and how often the shutdown
    callback has run. *)
Record submit_history := mkHistory {
  h_stats : Stats;
  h_errors : Z;
  h_logged : bool;
  h_shutting : bool;
  h_callbacks : Z
}.

Definition fresh_history : submit_history := mkHistory default_stats 0 false false 0.

Definition after_submit (h : submit_history) (res : io_result Z) : submit_history :=
  let o := handle_submit_result res (h_stats h) (h_errors h) (h_logged h) (h_shutting h) in
  mkHistory (so_stats o) (so_errors o) (so_logged o) (so_shutting_down o)
    (h_callbacks h + (if so_on_shutdown o then 1 else 0)).

Definition after_submits (h : submit_history) (rs : list (io_result Z)) : submit_history :=
  fold_left after_submit rs h.

(** A result that counts as a failure: neither success nor transient. *)
Definition counts (res : io_result Z) : bool :=
  match res with
  | Ok _ => false
  | Err e => negb (bool_decide (raw_os_error e = Some EBUSY \/ raw_os_error e = Some EINTR))
  end.

(** The length of the run of failures a history ends with. *)
Definition failure_run (rs : list (io_result Z)) : Z :=
  fold_left (fun n r => if counts r then n + 1 else 0) rs 0.

(** Some run of failures reached the threshold. *)
Definition persistent (rs : list (io_result Z)) : Prop :=
  exists k, MAX_CONSECUTIVE_SUBMIT_ERRORS <= failure_run (take k rs).

Lemma failure_run_snoc rs r :
  failure_run (rs ++ [r]) = if counts r then failure_run rs + 1 else 0.
Proof. unfold failure_run. by rewrite fold_left_app. Qed.

Lemma failure_run_bounds rs : 0 <= failure_run rs <= zlen rs.
Proof.
  induction rs as [|r rs IH] using rev_ind; [done|].
  rewrite failure_run_snoc. unfold zlen in *. rewrite length_app. simpl. case_match; lia.
Qed.

Lemma persistent_snoc rs r :
  persistent (rs ++ [r]) <->
  persistent rs \/ MAX_CONSECUTIVE_SUBMIT_ERRORS <= failure_run (rs ++ [r]).
Proof.
  split.
  - intros [k Hk]. destruct (decide (k <= length rs)%nat) as [Hle|Hgt].
    + left. exists k. by rewrite take_app_le in Hk.
    + right. rewrite take_ge in Hk; [done|]. rewrite length_app. simpl. lia.
  - intros [[k Hk]|Hk].
    + exists (k `min` length rs)%nat. rewrite take_app_le by lia.
      by rewrite <-take_take, (take_ge rs) by lia.
    + exists (length (rs ++ [r])). by rewrite take_ge.
Qed.

Lemma after_submit_counts h res :
  counts res = true -> 0 <= h_errors h < u32_max ->
  let fire := negb (h_shutting h) && (MAX_CONSECUTIVE_SUBMIT_ERRORS <=? h_errors h + 1) in
  after_submit h res = mkHistory (count_submit_error (h_stats h)) (h_errors h + 1) true
    (h_shutting h || fire) (h_callbacks h + (if fire then 1 else 0)).
Proof.
  intros Hc Hb. destruct res as [|e]; [done|]. unfold after_submit. simpl in *.
  apply negb_true_iff in Hc. rewrite Hc. simpl.
  rewrite wrap_small by (unfold in_range; lia). done.
Qed.

Lemma after_submit_resets h res :
  counts res = false ->
  after_submit h res = mkHistory (h_stats h) 0 (h_logged h) (h_shutting h) (h_callbacks h).
Proof.
  intros Hc. unfold after_submit. destruct res as [|e]; simpl in *.
  - by rewrite Z.add_0_r.
  - apply negb_false_iff in Hc. rewrite Hc. simpl. by rewrite Z.add_0_r.
Qed.

(** Submit errors shut the driver down exactly when they persist: after any history of
    submit results the error counter is the length of the current run of errors other than
    [EBUSY] and [EINTR] (any success, [EBUSY] or [EINTR] ends the run), the shard is shutting
    down exactly when some run reached 128, and the callback that cancels the pending reads
    has run exactly once if so and never otherwise. *)
Theorem persistent_errors_shut_down rs :
  zlen rs <= u32_max ->
  let h := after_submits fresh_history rs in
  h_errors h = failure_run rs /\ (h_shutting h = true <-> persistent rs) /\
  h_callbacks h = (if h_shutting h then 1 else 0).
Proof.
  induction rs as [|r rs IH] using rev_ind; intros Hlen h.
  { split_and!; try done. split; [done|]. intros [k Hk]. by rewrite take_nil in Hk. }
  subst h. unfold after_submits in *. rewrite fold_left_app. cbn [fold_left].
  assert (Hl : zlen (rs ++ [r]) = zlen rs + 1) by (unfold zlen; rewrite length_app; simpl; lia).
  destruct IH as (He & Hs & Hc); [lia|].
  pose proof (failure_run_bounds rs) as Hb.
  set (h := fold_left _ _ _) in *. rewrite persistent_snoc, failure_run_snoc, <-Hs.
  destruct (counts r) eqn:Hr.
  - rewrite after_submit_counts by (done || lia). simpl. rewrite He. split; [done|].
    destruct (h_shutting h); simpl; [by rewrite Hc; split; [tauto|]|].
    destruct (Z.leb_spec MAX_CONSECUTIVE_SUBMIT_ERRORS (failure_run rs + 1));
      simpl; rewrite Hc; (split; [|done]); split; (done || lia || tauto || idtac).
    all: intros [?|?]; done || lia.
  - rewrite after_submit_resets by done. simpl. split_and!; try done.
    split; [tauto|]. unfold MAX_CONSECUTIVE_SUBMIT_ERRORS. intros [?|?]; done || lia.
Qed.

(** ** The drain *)

Section Drain.
Context {R Sm Ch : Type} `{Ring R} `{Semaphore Sm} `{Oneshot Ch} `{Target} `{HashOrder}.
Implicit Types (d : Drive R) (w : World Sm Ch) (b : TurnBudget).

(** [d'] comes after [d] in one drain: the shutdown flag stays set and the
    deadline does not move. *)
Definition drains_on (d d' : Drive R) : Prop :=
  (d_shutting_down d = true -> d_shutting_down d' = true) /\
  d_drain_deadline d' = d_drain_deadline d.

#[export] Instance drains_on_preorder : PreOrder drains_on.
Proof. split; [by split | intros ??? [] []; split; [auto | congruence]]. Qed.

Lemma cancel_all_drains d : drains_on d (cancel_all d).
Proof. unfold cancel_all. by destruct (queue_cancels _ _ _). Qed.

Lemma intake_msg_drains d w b addr m d' w' b' :
  intake_msg d w b addr m = Some (d', w', b') -> drains_on d d'.
Proof.
  destruct m as [id f off n c pm al|id|]; simpl.
  - unfold intake_read. case_match; [by intros [= <- <- <-]|].
    case_match; intros Hi; by simplify_eq.
  - intros [= <- <- <-]. unfold intake_cancel. case_match; [|done].
    by destruct (queue_cancel _ _ _).
  - intros [= <- <- <-]. etrans; [|apply cancel_all_drains]. done.
Qed.

Lemma intake_drains fuel env disc d w b q d' w' b' q' :
  intake fuel env disc d w b q = Some (d', w', b', q') -> drains_on d d'.
Proof.
  revert d w b q. induction fuel as [|fuel IH]; intros d w b q; simpl; [by intros [= <- <- <- <-]|].
  case_match; [|by intros [= <- <- <- <-]]. destruct q as [|m q].
  - intros [= <- <- <- <-]. by destruct disc.
  - destruct (intake_msg _ _ _ _ _) as [[[d1 w1] b1]|] eqn:Hi; [|done]. simpl. intros Hn.
    etrans; [by eapply intake_msg_drains | by eapply IH].
Qed.

Lemma submit_ring_drains d : drains_on d (submit_ring d).1.
Proof.
  unfold submit_ring. destruct (flush_backlog _ _) as [r bl], (submit_if_needed r) as [r' [res|]];
    [|done].
  assert (Hsd : d_shutting_down d = true -> so_shutting_down
    (handle_submit_result res (d_stats d) (d_submit_errors d) (d_error_logged d)
       (d_shutting_down d)) = true).
  { intros ->. unfold handle_submit_result. by repeat case_match. }
  case_match; [destruct (queue_cancels _ _ _)|]; by split.
Qed.

Lemma reap_one_drains d w c inp d' w' :
  reap_one d w c inp = Some (d', w') -> drains_on d d'.
Proof.
  unfold reap_one. case_match; [by intros [= <- <-]|]. case_match; [|by intros [= <- <-]].
  unfold reap_entry. destruct (reap_read _ _ _ _ _) as [[p' [o|s]]|]; simpl; [|by intros [= <- <-]|done].
  destruct (done_tx p'); simpl; [|done]. destruct (send _ _ _). by intros [= <- <-].
Qed.

Lemma reap_drains fuel env d w b d' w' b' :
  reap fuel env d w b = Some (d', w', b') -> drains_on d d'.
Proof.
  revert d w b. induction fuel as [|fuel IH]; intros d w b; simpl; [by intros [= <- <- <-]|].
  case_match; [|by intros [= <- <- <-]]. destruct (cq_next _) as [[c r']|]; [|by intros [= <- <- <-]].
  destruct (reap_one _ _ _ _) as [[d1 w1]|] eqn:Hr; [|done]. simpl. intros Hn.
  etrans; [|by eapply IH]. etrans; [|by eapply reap_one_drains]. done.
Qed.

(** The deadline after a turn that continues a drain. *)
Lemma turn_deadline env disc d w q d' w' q' :
  d_shutting_down d = true -> turn env disc d w q = TurnEnd (Continue d' w') q' ->
  d_shutting_down d' = true /\
  d_drain_deadline d' = Some (default (te_now1 env + DRAIN_TIMEOUT) (d_drain_deadline d)) /\
  te_now2 env < default (te_now1 env + DRAIN_TIMEOUT) (d_drain_deadline d).
Proof.
  intros Hs. unfold turn.
  destruct (intake _ _ _ _ _ _ _) as [[[[d1 w1] b1] q1]|] eqn:Hi; [|done].
  pose proof (submit_ring_drains d1) as Hd2. destruct (submit_ring d1) as [d2 n1].
  destruct (reap _ _ _ _ _) as [[[d3 w3] b3]|] eqn:Hr; [|done].
  pose proof (submit_ring_drains d3) as Hd4. destruct (submit_ring d3) as [d4 n2].
  destruct (update_cq_overflow _ _ _) as [[st prev] warn].
  assert (Hall : drains_on d (set_overflow d4 st prev)).
  { etrans; [by eapply intake_drains|]. etrans; [exact Hd2|].
    etrans; [by eapply reap_drains|]. etrans; [exact Hd4|]. done. }
  destruct Hall as [Hsd Hdl]. specialize (Hsd Hs).
  unfold check_exit. rewrite Hsd, Hdl. cbn zeta.
  destruct (bool_decide (_ = ∅) && _); [done|].
  destruct (d_drain_deadline d) as [t|]; simpl;
    (destruct (_ <=? te_now2 env) eqn:Ht; [done|]); intros [= <- <- <-]; bools; done.
Qed.

(** Turns that all continue, with whatever the callers, the kernel and the
    queue do between them. *)
Inductive turns : Drive R -> list TurnEnv -> Prop :=
| turns_nil d : turns d []
| turns_cons d w q env disc d' w' q' r envs :
    turn env disc d w q = TurnEnd (Continue d' w') q' ->
    turns (set_ring d' r (d_backlog d')) envs -> turns d (env :: envs).

Lemma turns_before_deadline d t envs env :
  turns d envs -> d_shutting_down d = true -> d_drain_deadline d = Some t -> env ∈ envs ->
  te_now2 env < t.
Proof.
  intros Ht. induction Ht as [d|d w q env' disc d' w' q' r envs Hturn Hts IH]; intros Hs Hd Hin.
  { by apply not_elem_of_nil in Hin. }
  destruct (turn_deadline _ _ _ _ _ _ _ _ Hs Hturn) as (Hs' & Hd' & Hlt).
  rewrite Hd in Hd', Hlt. simpl in *. apply elem_of_cons in Hin as [->|Hin]; [done|].
  by apply IH.
Qed.

(** [C17] A drain is bounded: once a shard is shutting down, the first turn fixes a deadline
    of five seconds and no turn at or after that deadline continues the loop, whatever the
    kernel and the callers do; the thread exits, drained or leaked. *)
Theorem drain_is_bounded d env0 envs env :
  d_shutting_down d = true -> d_drain_deadline d = None ->
  turns d (env0 :: envs) -> env ∈ env0 :: envs ->
  te_now2 env < te_now1 env0 + 5000.
Proof.
  intros Hs Hd Ht Hin. inversion Ht as [|? w q ? disc d' w' q' r ? Hturn Hts]; subst.
  destruct (turn_deadline _ _ _ _ _ _ _ _ Hs Hturn) as (Hs' & Hd' & Hlt).
  rewrite Hd in Hd', Hlt. simpl in *. apply elem_of_cons in Hin as [->|Hin]; [done|].
  by apply (turns_before_deadline (set_ring d' r (d_backlog d')) _ envs).
Qed.
End Drain.

(** ** Witnesses *)

(** 130 refused submits, with one that succeeds among them. *)
Definition demo_submits : list (io_result Z) :=
  repeat (Err (from_raw_os_error EACCES)) 100 ++ [Ok 1] ++
  repeat (Err (from_raw_os_error EACCES)) 130.

Lemma persistent_errors_shut_down_witness :
  let h := after_submits fresh_history demo_submits in
  h_errors h = failure_run demo_submits /\ (h_shutting h = true <-> persistent demo_submits) /\
  h_callbacks h = (if h_shutting h then 1 else 0).
Proof. apply persistent_errors_shut_down. vm_compute. discriminate. Defined.

(** The busy shard of [Turn.v], told to shut down: its first turn continues. *)
Definition demo_draining : Drive ring := set_shutting_down (sy_drive demo_busy).

Lemma demo_drain_turns : turns demo_draining [demo_env 4999].
Proof.
  eapply (turns_cons demo_draining (sy_world demo_busy) [] (demo_env 4999) false).
  - vm_compute. reflexivity.
  - apply (turns_nil (R := ring) (Sm := sem) (Ch := chans)).
    Unshelve. exact (demo_ring true).
Qed.

Lemma drain_is_bounded_witness : te_now2 (demo_env 4999) < te_now1 (demo_env 4999) + 5000.
Proof.
  apply (drain_is_bounded demo_draining (demo_env 4999) [] (demo_env 4999)).
  - reflexivity.
  - vm_compute. reflexivity.
  - exact demo_drain_turns.
  - left.
Defined.
