(* ===== verification/Cancel.v ===== *)
(** * Cancellation

    At most one [AsyncCancel] is ever queued for an operation, always for one
    the driver knows; it stays in the backlog or the kernel until it is
    answered; and a shutdown sends one for every pending read and accepts no
    other read. *)

From S2P Require Import Prelude IoError Geometry Interfaces Instances SharedBudget.
From S2P Require Import Pending ReadRun World TurnBudget SubmitRing Driver Ownership.
From S2P Require Import System Safety Turn.

(** The targets of the cancels of a list of submission entries. *)
Definition cancel_target (s : Sqe) : option Z :=
  match sqe_op s with AsyncCancel t => Some t | Read _ _ _ _ => None end.

Definition cancel_targets (l : list Sqe) : list Z := omap cancel_target l.

#[export] Instance cancel_targets_perm : Proper ((≡ₚ) ==> (≡ₚ)) cancel_targets.
Proof. intros l l' Hl. unfold cancel_targets. by rewrite Hl. Qed.

Lemma cancel_targets_app l l' : cancel_targets (l ++ l') = cancel_targets l ++ cancel_targets l'.
Proof. apply omap_app. Qed.

Lemma cancel_targets_cancels ids : cancel_targets (cancel_sqe <$> ids) = ids.
Proof. unfold cancel_targets. induction ids as [|id ids IH]; [done|]. simpl. by f_equal. Qed.

Lemma cancel_targets_read p id l : cancel_targets (read_sqe p id :: l) = cancel_targets l.
Proof. done. Qed.

Lemma cancel_targets_requeue bl p id out :
  cancel_targets ((bl ++ [read_sqe p id]) ++ out) = cancel_targets (bl ++ out).
Proof. by rewrite <-app_assoc, !cancel_targets_app. Qed.

(** [reap_read] keeps the cancel flag, and resubmits a read of the same operation. *)
Lemma reap_read_frame p id res sd e p' step :
  reap_read p id res sd e = Some (p', step) ->
  cancel_requested p' = cancel_requested p /\
  match step with Finish _ => True | Resubmit s => exists p2, s = read_sqe p2 id end.
Proof.
  assert (Hdel : forall p0 q l, deliver p0 e = Some (q, l) -> cancel_requested q = cancel_requested p0).
  { intros p0 q l. unfold deliver.
    destruct (match done_tx p0 with None => true | Some _ => rx_closed e end); [by intros [= <- _]|].
    cbv zeta. destruct (if _ && _ then _ else _); [|done]. simpl. by intros [= <- _]. }
  unfold reap_read, finish_direct_short_read.
  repeat (case_match; try done); try (intros Hs; simplify_option_eq; eauto; fail).
  all: try (intros [= <- <-]; simpl; eauto; fail).
  all: destruct (deliver _ e) as [[q l]|] eqn:Hd; [|done]; simpl; intros [= <- <-];
    apply Hdel in Hd; done.
Qed.

Lemma prepare_read_fresh `{Target} addr f off n a c pm p cap :
  prepare_read addr f off n a c pm = PrepEntry p cap -> cancel_requested p = false.
Proof.
  unfold prepare_read. destruct (aligned_geometry off n a) as [[[ko hd] rl]|]; [|done].
  destruct (checked_add _ _ _); [|done]. cbv zeta.
  destruct ((_ =? usize_max) || _); [done|]. by intros [= <- _].
Qed.

(** The driver has finished with an operation: its caller had sent it, and it
    is in neither the queue nor the table. *)
Definition finished (used : gset Z) (q : list Msg) (m : gmap Z Pending) (id : Z) : Prop :=
  (id ∈ used) /\ (id ∉ dom m) /\ (id ∉ queued_ids q).

Record cancel_inv {R} `{Ring R} (used : gset Z) (q : list Msg) (d : Drive R) : Prop := {
  ci_once : NoDup (cancel_targets (in_kernel_or_backlog d));
  ci_known : forall id, id ∈ cancel_targets (in_kernel_or_backlog d) ->
    id ∈ d_queued_cancels d \/ finished used q (d_pending d) id;
  ci_requested : forall id p, d_pending d !! id = Some p -> cancel_requested p = true ->
    id ∈ d_queued_cancels d
}.

(** The shard is shutting down and has queued a cancel for every pending read. *)
Definition swept {R} (d : Drive R) : Prop :=
  d_shutting_down d = true /\ dom (d_pending d) ⊆ d_queued_cancels d.

Section Cancel.
Context {R Sm Ch : Type} `{RingLaws R} `{SemaphoreLaws Sm} `{OneshotLaws Ch} `{Target}
  `{HashOrder}.
Context (limit : option Z).
Implicit Types (d : Drive R) (w : World Sm Ch) (s : Sys R Sm Ch).

(** The invariant reads only these components. *)
Lemma cancel_inv_ext used used' q q' d d' :
  cancel_inv used q d ->
  cancel_targets (in_kernel_or_backlog d') ≡ₚ cancel_targets (in_kernel_or_backlog d) ->
  d_pending d' = d_pending d -> d_queued_cancels d' = d_queued_cancels d ->
  used ⊆ used' ->
  (forall id, id ∈ queued_ids q' -> id ∈ used -> id ∈ queued_ids q) ->
  cancel_inv used' q' d'.
Proof.
  intros [] Ht Hp Hq Hu Hi. constructor; rewrite ?Hp, ?Hq; try done.
  - by rewrite Ht.
  - intros id. rewrite Ht. intros [?|(? & ? & ?)]%ci_known0; [by left|]. right.
    split_and!; [set_solver | done | auto].
Qed.

(** Queueing cancels of pending operations. *)
Lemma queue_cancels_cancel_inv used q d ids bl qc :
  cancel_inv used q d -> NoDup ids -> (forall id, id ∈ ids -> id ∈ dom (d_pending d)) ->
  queue_cancels (d_backlog d) (d_queued_cancels d) ids = (bl, qc) ->
  cancel_inv used q (set_table d (d_pending d) bl qc (d_stats d)) /\
  qc = list_to_set ids ∪ d_queued_cancels d.
Proof.
  intros [] Hnd Hids. rewrite queue_cancels_spec by done. intros [= <- <-]. split; [|done].
  unfold in_kernel_or_backlog in *. rewrite cancel_targets_app in *.
  constructor; unfold in_kernel_or_backlog; simpl.
  - rewrite !cancel_targets_app, cancel_targets_cancels.
    rewrite (Permutation_app_comm (cancel_targets (d_backlog d))), <-app_assoc.
    apply NoDup_app. split_and!; [by apply NoDup_filter| |done].
    intros id [Hq Hin]%list_elem_of_filter Ht. apply ci_known0 in Ht as [?|(_ & ? & _)]; [done|].
    set_solver.
  - intros id. rewrite !cancel_targets_app, cancel_targets_cancels, !elem_of_app.
    intros Hin. destruct (decide (id ∈ filter (fun id => id ∉ d_queued_cancels d) ids)) as [Hf|Hf].
    + apply list_elem_of_filter in Hf as [_ Hf]. left. set_solver.
    + destruct (ci_known0 id) as [?|?]; [rewrite elem_of_app; tauto | left; set_solver | by right].
  - intros id p Hp Hr. apply elem_of_union. right. eauto.
Qed.

Lemma cancel_all_cancel_inv used q d :
  cancel_inv used q d ->
  cancel_inv used q (cancel_all d) /\ d_shutting_down (cancel_all d) = d_shutting_down d /\
  d_pending (cancel_all d) = d_pending d /\
  dom (d_pending (cancel_all d)) ⊆ d_queued_cancels (cancel_all d).
Proof.
  intros Hd. unfold cancel_all. destruct (queue_cancels _ _ _) as [bl qc] eqn:Hq.
  apply queue_cancels_cancel_inv with (used := used) (q := q) in Hq as [Hi Hqc]; try done.
  - split_and!; try done. simpl. rewrite Hqc. intros id Hid. apply elem_of_union. left.
    rewrite elem_of_list_to_set, key_order_perm. by apply elem_of_elements.
  - rewrite key_order_perm. apply NoDup_elements.
  - intros id. rewrite key_order_perm. by rewrite elem_of_elements.
Qed.

Lemma set_shutting_down_cancel_inv used q d :
  cancel_inv used q d -> cancel_inv used q (set_shutting_down d).
Proof. intros Hd. by apply (cancel_inv_ext used used q q d). Qed.

Lemma intake_cancel_cancel_inv used q d id :
  cancel_inv used q d -> cancel_inv used q (intake_cancel d id).
Proof.
  intros Hd. unfold intake_cancel. destruct (d_pending d !! id) as [p|] eqn:Hp; [|done].
  destruct (queue_cancel _ _ _) as [bl qc] eqn:Hq.
  destruct (queue_cancels_cancel_inv used q d [id] bl qc Hd (NoDup_singleton id)) as [Hi Hqc].
  { intros id' ->%list_elem_of_singleton. apply elem_of_dom. eauto. }
  { unfold queue_cancels. simpl. by rewrite Hq. }
  destruct Hi as [Ho Hk Hr]. unfold in_kernel_or_backlog in *. simpl in *.
  constructor; unfold in_kernel_or_backlog; simpl; try done.
  - intros id' Hin. destruct (Hk id' Hin) as [?|(? & ? & ?)]; [by left|right].
    split_and!; try done. by rewrite dom_insert_lookup_L by eauto.
  - intros id' p'. destruct (decide (id' = id)) as [->|Hne].
    + intros _ _. rewrite Hqc. set_solver.
    + rewrite lookup_insert_ne by done. apply Hr.
Qed.

Lemma reap_one_cancel_inv used q d w c r' inp d' w' :
  drive_inv d -> table_open (d_pending d) -> dom (d_pending d) ⊆ used ->
  (forall id, id ∈ queued_ids q -> d_pending d !! id = None) ->
  cancel_inv used q d -> cq_next (d_ring d) = Some (c, r') ->
  reap_one (set_ring d r' (d_backlog d)) w c inp = Some (d', w') -> cancel_inv used q d'.
Proof.
  intros Hd Hopen Hused Hqueue Hc Hnext Hr.
  destruct (cq_next_outstanding _ _ _ Hnext) as (s & Hout & Hans).
  assert (Hc0 : cancel_inv used q (set_ring d r' (d_backlog d))).
  { destruct Hc. unfold in_kernel_or_backlog in *. rewrite Hout in *.
    rewrite <-Permutation_middle in *.
    assert (Hsub : forall l, cancel_targets (s :: l) ≡ₚ cancel_targets [s] ++ cancel_targets l)
      by (intros l; by rewrite <-cancel_targets_app).
    rewrite Hsub in ci_once0. constructor; unfold in_kernel_or_backlog; simpl; try done.
    - by apply NoDup_app in ci_once0 as (_ & _ & ?).
    - intros id Hin. apply ci_known0. rewrite Hout, <-Permutation_middle, Hsub. apply elem_of_app. by right. }
  clear Hc. revert Hr. unfold reap_one. case_match eqn:Hbit.
  { intros [= <- <-]. by eapply cancel_inv_ext. }
  simpl. destruct (d_pending d !! cqe_user_data c) as [p|] eqn:Hp.
  2: { by intros [= <- <-]. }
  unfold reap_entry. simpl.
  destruct (reap_read _ _ _ _ _) as [[p' [o|s']]|] eqn:Hrr; [| |done].
  - simpl. destruct (done_tx p'); [|done]. simpl. destruct (send _ _ _) as [w1 ok].
    intros [= <- <-]. destruct Hc0 as [Ho Hk Hq]. unfold in_kernel_or_backlog in *. simpl in *.
    assert (Hid : cqe_user_data c ∈ dom (d_pending d)) by (apply elem_of_dom; eauto).
    assert (Hnq : cqe_user_data c ∉ queued_ids q) by (intros Hin%Hqueue; congruence).
    constructor; unfold in_kernel_or_backlog; simpl; try done.
    + intros id Hin. unfold finished. rewrite dom_delete_L.
      destruct (decide (id = cqe_user_data c)) as [->|Hne]; [right; set_solver|].
      destruct (Hk id Hin) as [?|(? & ? & ?)]; [left; set_solver | right; set_solver].
    + intros id p1 [? Hp1]%lookup_delete_Some Hreq. pose proof (Hq _ _ Hp1 Hreq). set_solver.
  - simpl. intros [= <- <-].
    destruct (reap_read_frame _ _ _ _ _ _ _ Hrr) as [Hreq (p2 & ->)].
    destruct Hc0 as [Ho Hk Hq]. unfold in_kernel_or_backlog in *. simpl in *.
    constructor; unfold in_kernel_or_backlog; simpl.
    + by rewrite cancel_targets_requeue.
    + intros id. rewrite cancel_targets_requeue. intros [?|(? & ? & ?)]%Hk; [by left|right].
      split_and!; try done. by rewrite dom_insert_lookup_L by eauto.
    + intros id p1. destruct (decide (id = cqe_user_data c)) as [->|Hne].
      * rewrite lookup_insert_eq. intros [= <-]. rewrite Hreq. simpl. by apply Hq.
      * rewrite lookup_insert_ne by done. apply Hq.
Qed.

Lemma submit_ring_cancel_inv used q d :
  cancel_inv used q d ->
  cancel_inv used q (submit_ring d).1 /\
  (d_shutting_down d = false -> d_shutting_down (submit_ring d).1 = true ->
   swept (submit_ring d).1).
Proof.
  intros Hd. unfold submit_ring.
  pose proof (flush_backlog_perm (d_ring d) (d_backlog d)) as Hf.
  destruct (flush_backlog _ _) as [r bl].
  pose proof (submit_if_needed_perm r) as Hs. destruct (submit_if_needed r) as [r' res].
  simpl in Hs. assert (Hd1 : cancel_inv used q (set_ring d r' bl)).
  { apply (cancel_inv_ext used used q q d); try done. unfold in_kernel_or_backlog. simpl.
    by rewrite Hs, Hf. }
  destruct res as [res|]; [|by split; [|simpl; congruence]].
  set (o := handle_submit_result _ _ _ _ _).
  set (d2 := set_submit_state _ _ _ _ _).
  assert (Hd2 : cancel_inv used q d2) by by eapply cancel_inv_ext.
  assert (Hfire : d_shutting_down d = false -> so_shutting_down o = so_on_shutdown o).
  { intros Hsd. unfold o, handle_submit_result. rewrite Hsd. by repeat case_match. }
  destruct (so_on_shutdown o) eqn:Ho.
  - destruct (cancel_all_cancel_inv _ _ _ Hd2) as (Hi & Hsd & _ & Hall).
    unfold cancel_all in *. destruct (queue_cancels _ _ _) as [bl' q']. simpl.
    split; [done|]. intros Hf1. by split; [apply Hfire|].
  - split; [done|]. intros Hf1. simpl. rewrite Hfire by done. done.
Qed.

Lemma intake_msg_cancel_inv n used h e d w b addr m q d' w' b' :
  table_step limit n used h e d w (m :: q) -> cancel_inv used (m :: q) d ->
  intake_msg d w b addr m = Some (d', w', b') -> cancel_inv used q d'.
Proof.
  intros [Hd Ha] Hc. destruct m as [id f off len c pm al|id|]; simpl.
  - assert (Hin : id ∈ queued_ids (MsgRead id f off len c pm al :: q)) by left.
    pose proof (ac_nodup _ _ _ _ _ _ _ _ _ Ha) as Hnd. rewrite queued_ids_read in Hnd.
    apply NoDup_cons in Hnd as [Hid _].
    destruct (ac_queued _ _ _ _ _ _ _ _ _ Ha id Hin) as [Hu Hnone].
    assert (Hc1 : cancel_inv used q d).
    { apply (cancel_inv_ext used used (MsgRead id f off len c pm al :: q) q d d); try done.
      intros id' ? _. by right. }
    unfold intake_read. case_match; [by intros [= <- <- <-]|].
    destruct (prepare_read _ _ _ _ _ _ _) as [|e0 a|p a] eqn:Hp; intros Hi; simplify_eq; [done|].
    apply prepare_read_fresh in Hp. clear Hc1.
    destruct Hc as [Ho Hk Hr]. unfold in_kernel_or_backlog in *.
    constructor; unfold in_kernel_or_backlog; simpl.
    + by rewrite cancel_targets_requeue.
    + intros id'. rewrite cancel_targets_requeue. rewrite queued_ids_read in *.
      intros [?|(? & ? & Hq)]%Hk; [by left|right]. apply not_elem_of_cons in Hq as [? ?].
      split_and!; [done | rewrite dom_insert_L; set_solver | done].
    + intros id' p'. destruct (decide (id' = id)) as [->|Hne].
      * rewrite lookup_insert_eq. intros [= <-]. congruence.
      * rewrite lookup_insert_ne by done. apply Hr.
  - intros [= <- <- <-]. by apply intake_cancel_cancel_inv, (cancel_inv_ext used used (MsgCancel id :: q) q d).
  - intros [= <- <- <-]. apply cancel_all_cancel_inv, set_shutting_down_cancel_inv.
    by apply (cancel_inv_ext used used (MsgShutdown :: q) q d).
Qed.

Definition cancel_sys s : Prop := cancel_inv (sy_used s) (sy_queue s) (sy_drive s).

Lemma step_cancel_inv n s s' :
  sys_inv limit n s -> cancel_sys s -> step limit s s' -> cancel_sys s'.
Proof.
  unfold cancel_sys. intros Hsys Hc Hstep.
  assert (Hrun : sy_status s = Running_ ->
    table_step limit n (sy_used s) (sy_held s) (sy_elsewhere s) (sy_drive s) (sy_world s)
      (sy_queue s)) by (intros; apply live_table; done).
  destruct Hstep as
    [w' h' e' Hact|id f off len c pm al Hs Hm Hid Hrx Hcl Hh He|m Hs Hm|r' Hr
    |m q d' w' b b' addr Hs Hq Haddr Hi|Hs|Hs|c r' inp d' w' Hs Hnext Hok Hr
    |st prev warn Hs Hu|env d' w' Hs Hce|b Hs|env d' w' Hs Hce|env d' w' Hs Hce]; simpl;
    try (pose proof (check_exit_cases (sy_drive s) (sy_world s) env) as Hcases;
         rewrite Hce in Hcases).
  - done.
  - apply (cancel_inv_ext (sy_used s) _ (sy_queue s) _ (sy_drive s)); try done; [set_solver|].
    intros id'. rewrite queued_ids_snoc, elem_of_app. simpl. set_solver.
  - apply (cancel_inv_ext (sy_used s) _ (sy_queue s) _ (sy_drive s)); try done.
    intros id'. rewrite queued_ids_snoc, elem_of_app. intros [?|Hin] _; [done|].
    destruct m; [done|by apply not_elem_of_nil in Hin..].
  - apply (cancel_inv_ext (sy_used s) _ (sy_queue s) _ (sy_drive s)); try done.
    unfold in_kernel_or_backlog. simpl. by rewrite Hr.
  - rewrite Hq in *. by eapply intake_msg_cancel_inv; [apply Hrun| |].
  - by apply set_shutting_down_cancel_inv.
  - by apply submit_ring_cancel_inv.
  - destruct (Hrun Hs) as [Hd []]. eapply (reap_one_cancel_inv _ _ (sy_drive s)); try done.
    + by apply ac_done.
    + intros id' Hin. by apply ac_queued.
  - by eapply cancel_inv_ext.
  - destruct Hcases as [_ [->|[t ->]]]; [done|]. by eapply cancel_inv_ext.
  - by eapply cancel_inv_ext.
  - destruct Hcases as (-> & _). apply (cancel_inv_ext (sy_used s) _ (sy_queue s) _ (sy_drive s)); try done.
    intros id' []%not_elem_of_nil.
  - destruct Hcases as (t & -> & _). destruct Hc as [Ho Hk Hr].
    unfold in_kernel_or_backlog in *. constructor; unfold in_kernel_or_backlog; simpl; try done.
    + intros id' [?|(? & ? & ?)]%Hk; [by left|right].
      split_and!; [done | by rewrite dom_fmap_L | apply not_elem_of_nil].
    + intros id' p'. rewrite lookup_fmap. destruct (d_pending _ !! id') as [p0|] eqn:Hp; [|done].
      intros [= <-]. intros Hreq. by apply (Hr id' p0).
Qed.

Lemma reachable_cancel_inv n s : reachable limit n s -> cancel_sys s.
Proof.
  intros (Hn & Hl & r & pool & o & Hr & Hs).
  assert (Hi : sys_inv limit n (start limit n r pool o)) by by apply start_inv.
  assert (Hc : cancel_sys (start limit n r pool o)).
  { constructor; unfold in_kernel_or_backlog; simpl; rewrite ?Hr; try done; [constructor|].
    intros ? []%not_elem_of_nil. }
  induction Hs as [s|s1 s2 s3 H12 H23 IH]; [done|].
  apply IH; [by eapply step_inv | by eapply step_cancel_inv].
Qed.

(** ** The sweep *)

Lemma swept_ext d d' :
  swept d -> (d_shutting_down d = true -> d_shutting_down d' = true) ->
  dom (d_pending d') ⊆ dom (d_pending d) ->
  d_queued_cancels d ∩ dom (d_pending d') ⊆ d_queued_cancels d' -> swept d'.
Proof. intros [Hs Hq] Hs' Hp Hq'. split; [auto|]. set_solver. Qed.

Lemma sweep_swept d : d_shutting_down d = true -> swept (cancel_all d).
Proof.
  intros Hsd. unfold cancel_all. destruct (queue_cancels _ _ _) as [bl qc] eqn:Hq.
  rewrite queue_cancels_spec in Hq.
  - injection Hq as <- <-. split; [done|]. simpl. intros id Hid. apply elem_of_union. left.
    rewrite elem_of_list_to_set, key_order_perm. by apply elem_of_elements.
  - rewrite key_order_perm. apply NoDup_elements.
Qed.

Lemma swept_step s s' : swept (sy_drive s) -> step limit s s' -> swept (sy_drive s').
Proof.
  intros Hsw Hstep. pose proof (proj1 Hsw) as Hsd.
  destruct Hstep as
    [w' h' e' Hact|id f off len c pm al Hs Hm Hid Hrx Hcl Hh He|m Hs Hm|r' Hr
    |m q d' w' b b' addr Hs Hq Haddr Hi|Hs|Hs|c r' inp d' w' Hs Hnext Hok Hr
    |st prev warn Hs Hu|env d' w' Hs Hce|b Hs|env d' w' Hs Hce|env d' w' Hs Hce]; simpl;
    try (pose proof (check_exit_cases (sy_drive s) (sy_world s) env) as Hcases;
         rewrite Hce in Hcases);
    try (apply (swept_ext (sy_drive s)); simpl; (done || set_solver)).
  - destruct m as [id f off len c pm al|id|]; simpl in Hi.
    + unfold intake_read in Hi. rewrite Hsd in Hi. by injection Hi as <- _ _.
    + injection Hi as <- _ _. unfold intake_cancel. destruct (_ !! id) as [p|] eqn:Hp; [|done].
      unfold queue_cancel. case_decide; simpl.
      all: apply (swept_ext (sy_drive s)); simpl; try done; rewrite ?dom_insert_lookup_L by eauto;
        set_solver.
    + injection Hi as <- _ _. unfold cancel_all.
      destruct (queue_cancels _ _ _) as [bl qc] eqn:Hq'. rewrite queue_cancels_spec in Hq'.
      * injection Hq' as <- <-. apply (swept_ext (sy_drive s)); simpl; (done || set_solver).
      * rewrite key_order_perm. apply NoDup_elements.
  - apply (swept_ext (sy_drive s)); try done.
    + intros _. unfold submit_ring.
      destruct (flush_backlog _ _) as [r bl], (submit_if_needed r) as [r' [res|]]; [|done].
      unfold handle_submit_result. rewrite Hsd. by repeat case_match.
    + by rewrite submit_ring_table.
    + unfold submit_ring.
      destruct (flush_backlog _ _) as [r bl], (submit_if_needed r) as [r' [res|]];
        [|simpl; set_solver].
      unfold handle_submit_result. rewrite Hsd. repeat case_match; simplify_eq; simpl; set_solver.
  - revert Hr. unfold reap_one. case_match; [intros [= <- <-]; done|]. simpl.
    destruct (_ !! cqe_user_data c) as [p|] eqn:Hp; [|by intros [= <- <-]].
    unfold reap_entry. simpl. destruct (reap_read _ _ _ _ _) as [[p' [o|s']]|]; [| |done]; simpl.
    + destruct (done_tx p'); [|done]. simpl. destruct (send _ _ _). intros [= <- <-].
      apply (swept_ext (sy_drive s)); simpl; try done; rewrite dom_delete_L; set_solver.
    + intros [= <- <-]. apply (swept_ext (sy_drive s)); simpl; try done;
        rewrite dom_insert_lookup_L by eauto; set_solver.
  - destruct Hcases as (t & -> & _).
    apply (swept_ext (sy_drive s)); simpl; rewrite ?dom_fmap_L; (done || set_solver).
Qed.

(** ** What becomes of a queued cancel

    The system's steps with the operations whose [AsyncCancel] the kernel has
    answered: the thread consumed its completion. *)

Definition cancel_answered (c : Cqe) : gset Z :=
  if Z.land (cqe_user_data c) CANCEL_BIT =? 0 then ∅ else {[Z.ldiff (cqe_user_data c) CANCEL_BIT]}.

Inductive cstep : gset Z * Sys R Sm Ch -> gset Z * Sys R Sm Ch -> Prop :=
| CQuiet a s s' :
    step_of limit (fun _ => False) s s' -> cstep (a, s) (a, s')
| CReap a s c r' inp d' w' :
    sy_status s = Running_ -> cq_next (d_ring (sy_drive s)) = Some (c, r') ->
    reap_one (set_ring (sy_drive s) r' (d_backlog (sy_drive s))) (sy_world s) c inp = Some (d', w') ->
    cstep (a, s) (cancel_answered c ∪ a, with_drive s d' w' (sy_queue s)).

(** The executions of a shard. *)
Definition cancelling (n : Z) (x : gset Z * Sys R Sm Ch) : Prop :=
  0 <= n /\ (forall total, limit = Some total -> 0 <= total) /\
  exists r pool o, outstanding r = [] /\ rtc cstep (∅, start limit n r pool o) x.

(** An [AsyncCancel] of the operation is in the backlog or in the kernel, or
    the kernel has answered it. *)
Definition cancel_sent (a : gset Z) d (id : Z) : Prop :=
  id ∈ cancel_targets (d_backlog d ++ outstanding (d_ring d)) \/ id ∈ a.

Definition cancel_live (a : gset Z) d : Prop :=
  forall id, id ∈ d_queued_cancels d -> cancel_sent a d id.

Lemma cstep_step x y : cstep x y -> step limit x.2 y.2.
Proof.
  intros [a s s' Hs|a s c r' inp d' w' Hr Hn He]; simpl; [by eapply step_of_mono|by eapply StepReap].
Qed.

Lemma csteps_steps x y : rtc cstep x y -> rtc (step limit) x.2 y.2.
Proof. induction 1 as [|x y z Hxy _ IH]; [done|]. eapply rtc_l; [by apply cstep_step|done]. Qed.

(** Every execution is one of these, and the other way round. *)
Lemma steps_csteps a s s' : rtc (step limit) s s' -> exists a', rtc cstep (a, s) (a', s').
Proof.
  intros Hs. revert a. induction Hs as [s|s s1 s2 Hs _ IH]; intros a; [by exists a|].
  assert (exists a1, cstep (a, s) (a1, s1)) as [a1 H1'].
  { destruct Hs; try (eexists; apply CQuiet; by econstructor).
    eexists. by eapply CReap. }
  destruct (IH a1) as [a' Ha']. exists a'. by eapply rtc_l.
Qed.

Lemma cancelling_reachable n s : reachable limit n s <-> exists a, cancelling n (a, s).
Proof.
  split.
  - intros (Hn & Hl & r & pool & o & Hr & Hs). destruct (steps_csteps ∅ _ _ Hs) as [a Ha].
    exists a. split_and!; [done..|]. by exists r, pool, o.
  - intros (a & Hn & Hl & r & pool & o & Hr & Hs). split_and!; [done..|]. exists r, pool, o.
    split; [done|]. by apply csteps_steps in Hs.
Qed.

Lemma cancel_live_ext a d d' :
  cancel_live a d -> d_queued_cancels d' ⊆ d_queued_cancels d ->
  cancel_targets (in_kernel_or_backlog d) ⊆ cancel_targets (in_kernel_or_backlog d') ->
  cancel_live a d'.
Proof. intros Hl Hq Ht id Hid. destruct (Hl id) as [?|?]; [set_solver|left; by apply Ht|by right]. Qed.

Lemma queue_cancels_live a d ids m bl qc st :
  cancel_live a d -> NoDup ids ->
  queue_cancels (d_backlog d) (d_queued_cancels d) ids = (bl, qc) ->
  cancel_live a (set_table d m bl qc st).
Proof.
  intros Hl Hnd. rewrite queue_cancels_spec by done. intros [= <- <-] id. unfold cancel_sent. simpl.
  rewrite !cancel_targets_app, cancel_targets_cancels, !elem_of_app.
  destruct (decide (id ∈ d_queued_cancels d)) as [Hq|Hq].
  - intros _. destruct (Hl id Hq) as [Hin|?]; [|by right]. rewrite cancel_targets_app in Hin. set_solver.
  - intros Hid. left. left. right. apply list_elem_of_filter. set_solver.
Qed.

Lemma cancel_all_live a d : cancel_live a d -> cancel_live a (cancel_all d).
Proof.
  intros Hl. unfold cancel_all. destruct (queue_cancels _ _ _) as [bl qc] eqn:Hq.
  eapply queue_cancels_live; [done| |exact Hq]. rewrite key_order_perm. apply NoDup_elements.
Qed.

Lemma intake_live a d w b addr m d' w' b' :
  cancel_live a d -> intake_msg d w b addr m = Some (d', w', b') -> cancel_live a d'.
Proof.
  intros Hl. destruct m as [id f off len c pm al|id|]; simpl.
  - unfold intake_read. destruct (d_shutting_down d); [by intros [= <- _ _]|].
    destruct (prepare_read _ _ _ _ _ _ _) as [|e cap|p cap]; [done|by intros [= <- _ _]|].
    intros [= <- _ _]. eapply cancel_live_ext; [done|done|].
    unfold in_kernel_or_backlog. simpl. by rewrite cancel_targets_requeue.
  - intros [= <- _ _]. unfold intake_cancel. destruct (d_pending d !! id) as [p|]; [|done].
    destruct (queue_cancel _ _ _) as [bl qc] eqn:Hq.
    eapply (queue_cancels_live _ _ [id]); [done|apply NoDup_singleton|]. unfold queue_cancels.
    simpl. by rewrite Hq.
  - intros [= <- _ _]. by apply cancel_all_live.
Qed.

Lemma submit_live a d : cancel_live a d -> cancel_live a (submit_ring d).1.
Proof.
  intros Hl. unfold submit_ring.
  pose proof (flush_backlog_perm (d_ring d) (d_backlog d)) as Hf.
  destruct (flush_backlog _ _) as [r bl].
  pose proof (submit_if_needed_perm r) as Hs. destruct (submit_if_needed r) as [r' res].
  simpl in Hs. assert (Hl1 : cancel_live a (set_ring d r' bl)).
  { eapply cancel_live_ext; [done|done|]. unfold in_kernel_or_backlog. simpl. by rewrite Hs, Hf. }
  destruct res as [res|]; [|done]. set (o := handle_submit_result _ _ _ _ _).
  set (d2 := set_submit_state _ _ _ _ _).
  assert (Hl2 : cancel_live a d2) by done.
  destruct (so_on_shutdown o); [|done]. apply cancel_all_live in Hl2. unfold cancel_all in Hl2.
  by destruct (queue_cancels _ _ _).
Qed.

Lemma quiet_live a s s' :
  cancel_live a (sy_drive s) -> step_of limit (fun _ => False) s s' -> cancel_live a (sy_drive s').
Proof.
  intros Hl Hs. destruct Hs as
    [w' h' e' Hact|id f off len c pm al Hs Hm Hid Hrx Hcl Hh He|m Hs Hm|r' Hr
    |m q d' w' b b' addr Hs Hq Haddr Hi|Hs|Hs|c r' inp d' w' Hs Hnext [] Hr
    |st prev warn Hs Hu|env d' w' Hs Hce|b Hs|env d' w' Hs Hce|env d' w' Hs Hce]; simpl; try done;
    try (pose proof (check_exit_cases (sy_drive s) (sy_world s) env) as Hcases;
         rewrite Hce in Hcases).
  - eapply cancel_live_ext; [done|done|]. unfold in_kernel_or_backlog. simpl. by rewrite Hr.
  - by eapply intake_live.
  - by apply submit_live.
  - by destruct Hcases as [_ [->|[t ->]]].
  - by destruct Hcases as (-> & _).
  - by destruct Hcases as (t & -> & _).
Qed.

Lemma cancel_answered_of id c :
  op_id id -> cqe_user_data c = Z.lor id CANCEL_BIT -> cancel_answered c = {[id]}.
Proof.
  intros Hid Hc. unfold cancel_answered. rewrite Hc.
  rewrite (proj2 (Z.eqb_neq _ _)) by by apply cancel_user_data.
  f_equal. apply Z.bits_inj'. intros k Hk. rewrite Z.ldiff_spec, Z.lor_spec.
  pose proof (f_equal (fun z => Z.testbit z k) (op_id_no_cancel_bit id Hid)) as Hbit. simpl in Hbit.
  rewrite Z.land_spec, Z.bits_0 in Hbit. by destruct (Z.testbit id k), (Z.testbit CANCEL_BIT k).
Qed.

Lemma reap_live a d w c r' inp d' w' :
  drive_inv d -> cancel_live a d -> cq_next (d_ring d) = Some (c, r') ->
  reap_one (set_ring d r' (d_backlog d)) w c inp = Some (d', w') ->
  cancel_live (cancel_answered c ∪ a) d'.
Proof.
  intros Hd Hl Hnext. assert (Hl0 : cancel_live (cancel_answered c ∪ a) (set_ring d r' (d_backlog d))).
  { destruct (consumed_cases d c r' Hd Hnext) as
      [(id & Hid & Hud & Hout)|(id & p & _ & _ & _ & _ & _ & Hout)]; intros i Hi;
      (destruct (Hl i Hi) as [Hin|?]; [|right; set_solver]); unfold cancel_sent;
      rewrite Hout, <-Permutation_middle in Hin.
    - change (cancel_targets (cancel_sqe id :: _)) with (id :: cancel_targets (d_backlog d ++ outstanding r')) in Hin.
      rewrite (cancel_answered_of id) by done. apply elem_of_cons in Hin as [->|?]; [right; set_solver|by left].
    - by left. }
  unfold reap_one. case_match; [by intros [= <- _]|]. simpl.
  destruct (d_pending d !! cqe_user_data c) as [p|]; [|by intros [= <- _]].
  unfold reap_entry. simpl. destruct (reap_read _ _ _ _ _) as [[p' [o|s']]|] eqn:Hrr; [| |done]; simpl.
  - destruct (done_tx p'); [|done]. simpl. destruct (send _ _ _). intros [= <- _].
    eapply cancel_live_ext; [exact Hl0|simpl; set_solver|done].
  - destruct (reap_read_frame _ _ _ _ _ _ _ Hrr) as [_ (p2 & ->)]. intros [= <- _].
    eapply cancel_live_ext; [exact Hl0|done|]. unfold in_kernel_or_backlog. simpl.
    by rewrite cancel_targets_requeue.
Qed.

Definition clive n (x : gset Z * Sys R Sm Ch) : Prop :=
  sys_inv limit n x.2 /\ cancel_live x.1 (sy_drive x.2).

Lemma csteps_live n x y : clive n x -> rtc cstep x y -> clive n y.
Proof.
  intros Hx Hs. revert Hx. induction Hs as [|x y z Hxy _ IH]; [done|]. intros [Hi Hl]. apply IH.
  split; [by eapply step_inv; [|apply cstep_step]|].
  destruct Hxy as [a s s' Hs|a s c r' inp d' w' Hr Hn He]; simpl in *; [by eapply quiet_live|].
  by eapply reap_live; [apply Hi| | |].
Qed.

Lemma cancelling_live n x : cancelling n x -> clive n x.
Proof.
  intros (Hn & Hl & r & pool & o & Hr & Hs). eapply csteps_live; [|done].
  split; [by apply start_inv|]. by intros ? ?%not_elem_of_empty.
Qed.

(** ** Properties *)

(** [C13] Cancels are deduplicated and none is lost: in every state an execution reaches at
    most one [AsyncCancel] per operation is in the backlog or outstanding in the kernel, each
    of them for an operation the driver has recorded in [queued_cancels] or has already
    finished; and the [AsyncCancel] of every pending read whose cancel was requested is in
    the backlog or in the kernel, unless the kernel has already answered it. *)
Theorem cancels_are_deduplicated n answered s :
  cancelling n (answered, s) ->
  let targets := cancel_targets (d_backlog (sy_drive s) ++ outstanding (d_ring (sy_drive s))) in
  NoDup targets /\
  (forall id, id ∈ targets ->
     id ∈ d_queued_cancels (sy_drive s) \/
     finished (sy_used s) (sy_queue s) (d_pending (sy_drive s)) id) /\
  (forall id p, d_pending (sy_drive s) !! id = Some p -> cancel_requested p = true ->
     id ∈ targets \/ id ∈ answered).
Proof.
  intros Hc. pose proof (cancelling_live _ _ Hc) as [_ Hl].
  assert (Hr : reachable limit n s) by (apply cancelling_reachable; eauto).
  destruct (reachable_cancel_inv _ _ Hr) as [Ho Hk Hreq]. split_and!; [done..|].
  intros id p Hp Hcr. apply Hl. by eapply Hreq.
Qed.

(** [C14] A shutdown message cancels every pending read, and the shard stays that way: in
    every state an execution reaches after its intake the shard is still shutting down, and
    the [AsyncCancel] of every read still pending is in the backlog or in the kernel, unless
    the kernel has already answered it - so no read slips in uncancelled behind the sweep. *)
Theorem shutdown_cancels_everything n answered s q d' w' b b' addr answered' s' :
  cancelling n (answered, s) -> sy_status s = Running_ -> sy_queue s = MsgShutdown :: q ->
  intake_msg (sy_drive s) (sy_world s) b addr MsgShutdown = Some (d', w', b') ->
  rtc cstep (answered, with_drive s d' w' q) (answered', s') ->
  d_shutting_down (sy_drive s') = true /\
  forall id, id ∈ dom (d_pending (sy_drive s')) ->
    id ∈ cancel_targets (d_backlog (sy_drive s') ++ outstanding (d_ring (sy_drive s'))) \/
    id ∈ answered'.
Proof.
  intros Hc Hrun Hq Hi Hsteps.
  assert (Hl : clive n (answered', s')).
  { eapply csteps_live; [|exact Hsteps]. eapply csteps_live; [by apply cancelling_live|].
    apply rtc_once, CQuiet. apply (StepIntake _ _ s MsgShutdown q d' w' b b' 0); done. }
  assert (Hsw : swept (sy_drive (with_drive s d' w' q))).
  { simpl in *. injection Hi as <- _ _. by apply sweep_swept. }
  apply csteps_steps in Hsteps. simpl in Hsteps.
  assert (Hs' : swept (sy_drive s')).
  { clear Hi Hl. revert Hsw. induction Hsteps; eauto using swept_step. }
  split; [apply Hs'|]. intros id Hid. apply Hl. by apply Hs'.
Qed.
End Cancel.

(** ** Witnesses *)

(** The busy shard after a cancel request for its read. *)
Definition demo_cancelled : Sys ring sem chans :=
  with_drive demo_busy (intake_cancel (sy_drive demo_busy) 0) (sy_world demo_busy) [].

Lemma demo_cancelled_reachable : reachable (Some 4096) 4 demo_cancelled.
Proof.
  set (s1 := with_drive demo_busy (sy_drive demo_busy) (sy_world demo_busy)
    (sy_queue demo_busy ++ [MsgCancel 0])).
  assert (Hr : reachable (Some 4096) 4 s1).
  { apply (step_reachable _ _ demo_busy); [exact (proj1 (proj2 demo_reachable))|].
    apply StepNotify; vm_compute; reflexivity. }
  apply (step_reachable _ _ s1 _ Hr).
  apply (StepIntake _ _ s1 (MsgCancel 0) [] (intake_cancel (sy_drive demo_busy) 0)
    (sy_world demo_busy) default_budget default_budget 0); vm_compute; (reflexivity || discriminate).
Qed.

(** Its execution: the kernel has answered no cancel in it. *)
Lemma demo_cancelled_run : exists a, cancelling (Some 4096) 4 (a, demo_cancelled).
Proof. apply cancelling_reachable, demo_cancelled_reachable. Qed.

Lemma cancels_are_deduplicated_witness :
  exists answered, cancelling (Some 4096) 4 (answered, demo_cancelled) /\
    (0 ∈ cancel_targets (d_backlog (sy_drive demo_cancelled) ++
                          outstanding (d_ring (sy_drive demo_cancelled))) \/ 0 ∈ answered) /\
    d_backlog (sy_drive demo_cancelled) = [cancel_sqe 0].
Proof.
  destruct demo_cancelled_run as [a Ha]. exists a. split; [exact Ha|]. split.
  - destruct (d_pending (sy_drive demo_cancelled) !! 0) as [p|] eqn:Hp; [|vm_compute in Hp; discriminate].
    apply (proj2 (proj2 (cancels_are_deduplicated (Some 4096) 4 a demo_cancelled Ha)) 0 p Hp).
    vm_compute in Hp. injection Hp as <-. reflexivity.
  - vm_compute. reflexivity.
Defined.

(** The busy shard with a shutdown message, and after its intake. *)
Definition demo_asked_down : Sys ring sem chans :=
  with_drive demo_busy (sy_drive demo_busy) (sy_world demo_busy) [MsgShutdown].

Definition demo_swept : Sys ring sem chans :=
  with_drive demo_busy (cancel_all (set_shutting_down (sy_drive demo_busy)))
    (sy_world demo_busy) [].

Lemma demo_asked_down_run : exists a, cancelling (Some 4096) 4 (a, demo_asked_down).
Proof.
  apply cancelling_reachable, (step_reachable _ _ demo_busy); [exact (proj1 (proj2 demo_reachable))|].
  replace demo_asked_down with
    (with_drive demo_busy (sy_drive demo_busy) (sy_world demo_busy) (sy_queue demo_busy ++ [MsgShutdown]))
    by reflexivity.
  apply StepNotify; vm_compute; reflexivity.
Qed.

Lemma shutdown_cancels_everything_witness :
  d_backlog (sy_drive demo_swept) = [cancel_sqe 0] /\
  exists answered : gset Z, d_shutting_down (sy_drive demo_swept) = true /\
  forall id, id ∈ dom (d_pending (sy_drive demo_swept)) ->
    id ∈ cancel_targets (d_backlog (sy_drive demo_swept) ++ outstanding (d_ring (sy_drive demo_swept))) \/
    id ∈ answered.
Proof.
  split; [vm_compute; reflexivity|]. destruct demo_asked_down_run as [a Ha]. exists a.
  apply (shutdown_cancels_everything (Some 4096) 4 a demo_asked_down []
    (cancel_all (set_shutting_down (sy_drive demo_busy))) (sy_world demo_busy) default_budget
    default_budget 0 a demo_swept Ha).
  - vm_compute. reflexivity.
  - reflexivity.
  - reflexivity.
  - apply rtc_refl.
Defined.
