(* ===== verification/Admission.v ===== *)
(** * Read admission

    How a read gets its permits before it reaches a driver thread: the
    immediate attempt ([try_read_permits]), the deferred one
    ([acquire_read_permits]), and the registry by which a shutdown or a shard's
    exit closes the admission of a whole driver ([ByteAdmission]), all of
    [src/src/driver.rs]. *)

From S2P Require Import Prelude IoError Geometry Interfaces Instances SharedBudget.
From S2P Require Import Pending.

(** [ReadLimits]. *)
Record ReadLimits := mkLimits {
  max_read_len : option Z;
  max_in_flight_bytes : option Z
}.

Definition default_limits : ReadLimits := mkLimits None None.

(** [ShardPolicy]. *)
Inductive ShardPolicy := RoundRobin | CapacityAware.

#[export] Instance ShardPolicy_eq_dec : EqDecision ShardPolicy.
Proof. solve_decision. Defined.

Section Permits.
Context {Sm : Type} `{Semaphore Sm}.

(** [try_read_permits]: count before bytes; a byte failure drops the count
    permit. *)
Definition try_read_permits (count : Sm) (bytes : option Sm) (charge : Z) :
    Sm * option Sm * (ReadPermits + try_error) :=
  match sem_try_acquire count 1 with
  | (count', Some e) => (count', bytes, inr e)
  | (count', None) =>
      match bytes with
      | None => (count', None, inl (mkPermits None None))
      | Some b =>
          match sem_try_acquire b charge with
          | (b', None) => (count', Some b', inl (mkPermits (Some charge) None))
          | (b', Some e) => (sem_release count' 1, Some b', inr e)
          end
      end
  end.

(** The future of [acquire_read_permits], by the await it is suspended at. *)
Inductive AcquireFut :=
| AwaitCount (w : sem_waiter) (charge : Z) (shared : option Z)
| AwaitBytes (w : sem_waiter) (charge : Z) (shared : option Z)
| AcquireDone.

Definition acquire_read_permits (charge : Z) (shared : option Z) : AcquireFut :=
  AwaitCount (sem_acquire 1) charge shared.

(** A poll: pending, the permits, or [AcquireError]. *)
Inductive permits_poll := PermitsPending | PermitsReady (pm : ReadPermits) | PermitsClosed.

(** The part of a poll that waits for the bytes, holding the count permit. *)
Definition poll_bytes (count b : Sm) (w : sem_waiter) (charge : Z) (shared : option Z) :
    Sm * Sm * AcquireFut * permits_poll :=
  match sem_poll b w with
  | (b', w', AcqPending) => (count, b', AwaitBytes w' charge shared, PermitsPending)
  | (b', _, AcqReady) => (count, b', AcquireDone, PermitsReady (mkPermits (Some charge) shared))
  | (b', _, AcqClosed) => (sem_release count 1, b', AcquireDone, PermitsClosed)
  end.

Definition with_bytes (r : Sm * Sm * AcquireFut * permits_poll) :
    Sm * option Sm * AcquireFut * permits_poll :=
  let '(count, b, f, res) := r in (count, Some b, f, res).

(** One poll of the future: it runs until it suspends or completes. *)
Definition poll_acquire (count : Sm) (bytes : option Sm) (f : AcquireFut) :
    Sm * option Sm * AcquireFut * permits_poll :=
  match f with
  | AwaitCount w charge shared =>
      match sem_poll count w with
      | (count', w', AcqPending) => (count', bytes, AwaitCount w' charge shared, PermitsPending)
      | (count', _, AcqClosed) => (count', bytes, AcquireDone, PermitsClosed)
      | (count', _, AcqReady) =>
          match bytes with
          | None => (count', None, AcquireDone, PermitsReady (mkPermits None shared))
          | Some b => with_bytes (poll_bytes count' b (sem_acquire charge) charge shared)
          end
      end
  | AwaitBytes w charge shared =>
      match bytes with
      | Some b => with_bytes (poll_bytes count b w charge shared)
      | None => (count, bytes, f, PermitsPending)
      end
  | AcquireDone => (count, bytes, f, PermitsPending)
  end.

(** Dropping the future: a waiter leaves its queue, and a count permit already
    taken goes back. *)
Definition drop_acquire (count : Sm) (bytes : option Sm) (f : AcquireFut) : Sm * option Sm :=
  match f with
  | AwaitCount w _ _ => (sem_drop_waiter count w, bytes)
  | AwaitBytes w _ _ => (sem_release count 1, (fun b => sem_drop_waiter b w) <$> bytes)
  | AcquireDone => (count, bytes)
  end.

(** The reservation clone the future carries. *)
Definition acquire_shared (f : AcquireFut) : option Z :=
  match f with
  | AwaitCount _ _ r | AwaitBytes _ _ r => r
  | AcquireDone => None
  end.

(** The bytes its request was charged. *)
Definition acquire_charge (f : AcquireFut) : option Z :=
  match f with
  | AwaitCount _ c _ | AwaitBytes _ c _ => Some c
  | AcquireDone => None
  end.

(** The count permit the future holds. *)
Definition acquire_held (f : AcquireFut) : Z :=
  match f with AwaitBytes _ _ _ => 1 | _ => 0 end.

(** The future waits for what its request was charged, and waits for bytes only
    under a byte limit. *)
Definition acquire_ok (bytes : option Sm) (f : AcquireFut) : Prop :=
  match f with
  | AwaitCount w _ _ => sem_wants w = 1
  | AwaitBytes w charge _ => sem_wants w = charge /\ is_Some bytes
  | AcquireDone => True
  end.
End Permits.

(** What a poll's permits are worth. *)
Definition polled_count (r : permits_poll) : Z :=
  match r with PermitsReady _ => 1 | _ => 0 end.

Definition polled_bytes (r : permits_poll) : Z :=
  match r with PermitsReady pm => default 0 (permit_bytes pm) | _ => 0 end.

Definition bytes_free {Sm} `{Semaphore Sm} (b : option Sm) : Z :=
  match b with Some b => sem_free b | None => 0 end.

(** ** Lemmas and properties *)

Section Lemmas.
Context {Sm : Type} `{SemaphoreLaws Sm}.

(** The outcomes of the immediate attempt. *)
Lemma try_read_permits_spec (count : Sm) bytes charge count' bytes' res :
  try_read_permits count bytes charge = (count', bytes', res) ->
  (bytes' = None <-> bytes = None) /\
  sem_is_closed count' = sem_is_closed count /\
  match res with
  | inl pm =>
      sem_is_closed count = false /\ 1 <= sem_free count /\
      sem_free count' = sem_free count - 1 /\
      bytes_free bytes' = bytes_free bytes - default 0 (permit_bytes pm) /\
      permit_bytes pm = (_ ← bytes; Some charge) /\ permit_shared pm = None /\
      (bytes <> None -> charge <= bytes_free bytes)
  | inr e => sem_free count' = sem_free count /\ bytes_free bytes' = bytes_free bytes
  end.
Proof.
  unfold try_read_permits.
  destruct (sem_is_closed count) eqn:Hcl.
  { rewrite sem_try_closed by done. by intros [= <- <- <-]. }
  destruct (sem_try_open count 1 Hcl) as [(c1 & -> & Hle & Hf & Hc1 & _)|[-> _]].
  2: { by intros [= <- <- <-]. }
  destruct bytes as [b|].
  2: { intros [= <- <- <-]. simpl. split_and!; done || lia. }
  destruct (sem_is_closed b) eqn:Hb.
  { rewrite sem_try_closed by done. intros [= <- <- <-]. simpl.
    rewrite sem_release_free, sem_release_closed. split_and!; done || lia. }
  destruct (sem_try_open b charge Hb) as [(b1 & -> & Hle' & Hf' & _ & _)|[-> _]];
    intros [= <- <- <-]; simpl; rewrite ?sem_release_free, ?sem_release_closed;
    split_and!; done || lia.
Qed.

Lemma poll_bytes_spec (count b : Sm) w charge shared count' b' f r :
  sem_wants w = charge -> poll_bytes count b w charge shared = (count', b', f, r) ->
  sem_free count' + acquire_held f + polled_count r = sem_free count + 1 /\
  sem_free b' + polled_bytes r = sem_free b /\ acquire_ok (Some b') f /\
  sem_is_closed count' = sem_is_closed count /\
  match r with
  | PermitsPending => acquire_shared f = shared /\ acquire_charge f = Some charge
  | PermitsReady pm =>
      f = AcquireDone /\ pm = mkPermits (Some charge) shared /\ 0 <= sem_free b - charge
  | PermitsClosed => f = AcquireDone
  end.
Proof.
  intros Hw. unfold poll_bytes. destruct (sem_poll b w) as [[b1 w1] r1] eqn:Hp.
  destruct (sem_poll_free _ _ _ _ _ Hp) as (_ & Hw1 & Hr).
  destruct (sem_is_closed b) eqn:Hc.
  { pose proof (sem_poll_closed b w Hc) as Hcl. rewrite Hp in Hcl. simpl in Hcl. subst.
    intros [= <- <- <- <-]. simpl. rewrite sem_release_free, sem_release_closed.
    split_and!; done || lia. }
  destruct r1; intros [= <- <- <- <-]; simpl; split_and!; try (done || lia || congruence).
Qed.

Lemma acquire_held_bound (f : AcquireFut) : 0 <= acquire_held f <= 1.
Proof. destruct f; simpl; lia. Qed.

(** The outcomes of a poll. *)
Lemma poll_acquire_spec (count : Sm) bytes f count' bytes' f' r :
  acquire_ok bytes f -> poll_acquire count bytes f = (count', bytes', f', r) ->
  sem_free count' + acquire_held f' + polled_count r = sem_free count + acquire_held f /\
  bytes_free bytes' + polled_bytes r = bytes_free bytes /\ acquire_ok bytes' f' /\
  (bytes' = None <-> bytes = None) /\ sem_is_closed count' = sem_is_closed count /\
  (0 <= sem_free count -> 0 <= sem_free count') /\
  (0 <= bytes_free bytes -> 0 <= bytes_free bytes') /\
  match r with
  | PermitsPending => acquire_shared f' = acquire_shared f /\ acquire_charge f' = acquire_charge f
  | PermitsReady pm =>
      f' = AcquireDone /\ f <> AcquireDone /\ permit_shared pm = acquire_shared f /\
      permit_bytes pm = (_ ← bytes; acquire_charge f)
  | PermitsClosed => f' = AcquireDone
  end /\
  (acquire_held f = 0 -> f <> AcquireDone -> sem_is_closed count = true -> r = PermitsClosed).
Proof.
  intros Hok Hp. destruct f as [w charge shared|w charge shared|]; simpl in *.
  - destruct (sem_poll count w) as [[c1 w1] r1] eqn:Hc.
    destruct (sem_poll_free _ _ _ _ _ Hc) as (Hcl1 & Hw1 & Hr).
    destruct r1.
    + injection Hp as <- <- <- <-. simpl. split_and!; try (done || lia || congruence).
      intros _ _ Hcl. pose proof (sem_poll_closed count w Hcl) as He. by rewrite Hc in He.
    + destruct bytes as [b|].
      * destruct (poll_bytes c1 b _ charge shared) as [[[c2 b2] f2] r2] eqn:Hb. simpl in Hp.
        injection Hp as <- <- <- <-.
        destruct (poll_bytes_spec _ _ _ _ _ _ _ _ _ (sem_acquire_wants charge) Hb)
          as (Ha & Hfb & Hok2 & Hcl2 & Hr2).
        assert (Hnc : sem_is_closed count <> true) by (destruct Hr; congruence).
        pose proof (acquire_held_bound f2).
        simpl. destruct r2; destruct_and? Hr2; subst; simpl in *;
          split_and!; done || lia || congruence.
      * injection Hp as <- <- <- <-. simpl. split_and!; try (done || lia || congruence).
        intros _ _ Hcl. destruct Hr as [? _]. congruence.
    + injection Hp as <- <- <- <-. simpl. split_and!; done || lia.
  - destruct Hok as [Hw [b ->]].
    destruct (poll_bytes count b w charge shared) as [[[c2 b2] f2] r2] eqn:Hb. simpl in Hp.
    injection Hp as <- <- <- <-.
    destruct (poll_bytes_spec _ _ _ _ _ _ _ _ _ Hw Hb) as (Ha & Hfb & Hok2 & Hcl2 & Hr2).
    pose proof (acquire_held_bound f2).
    simpl. destruct r2; destruct_and? Hr2; subst; simpl in *;
      split_and!; done || lia || congruence.
  - injection Hp as <- <- <- <-. simpl. split_and!; done || lia.
Qed.

(** Dropping the future. *)
Lemma drop_acquire_spec (count : Sm) bytes f :
  sem_free (drop_acquire count bytes f).1 = sem_free count + acquire_held f /\
  bytes_free (drop_acquire count bytes f).2 = bytes_free bytes /\
  ((drop_acquire count bytes f).2 = None <-> bytes = None) /\
  sem_is_closed (drop_acquire count bytes f).1 = sem_is_closed count.
Proof.
  destruct f, bytes; simpl;
    rewrite ?sem_drop_waiter_free, ?sem_release_free, ?sem_drop_waiter_closed,
      ?sem_release_closed; split_and!; done || lia.
Qed.

(** ** Properties *)

(** The immediate admission of a read is all or nothing: it either takes exactly one count
    permit and, under a byte limit, exactly the charged bytes, or it fails and leaves the
    free permits of both semaphores as they were, the count permit taken before a byte
    failure included. *)
Theorem try_admission_all_or_nothing (count : Sm) bytes charge count' bytes' res :
  try_read_permits count bytes charge = (count', bytes', res) ->
  match res with
  | inl pm =>
      sem_free count' = sem_free count - 1 /\ 0 <= sem_free count' /\
      bytes_free bytes' = bytes_free bytes - default 0 (permit_bytes pm) /\
      permit_bytes pm = (_ ← bytes; Some charge) /\
      (bytes <> None -> charge <= bytes_free bytes)
  | inr _ => sem_free count' = sem_free count /\ bytes_free bytes' = bytes_free bytes
  end.
Proof.
  intros Ht. destruct (try_read_permits_spec _ _ _ _ _ _ Ht) as (_ & _ & Hr).
  destruct res; [|done]. destruct Hr as (_ & ? & ? & ? & ? & _ & ?).
  split_and!; done || lia.
Qed.

(** [C31] The deferred admission neither loses nor invents permits: across every poll, the free
    count permits, the one the future may hold while it waits for bytes and the one handed
    out add up, and so do the byte permits; a completed poll hands out exactly the charged
    bytes with the future's reservation; dropping the future at any point gives back what it
    holds; and a closed count semaphore ends a future that waits on it. *)
Theorem deferred_admission_conserves (count : Sm) bytes f count' bytes' f' r :
  acquire_ok bytes f -> poll_acquire count bytes f = (count', bytes', f', r) ->
  sem_free count' + acquire_held f' + polled_count r = sem_free count + acquire_held f /\
  bytes_free bytes' + polled_bytes r = bytes_free bytes /\ acquire_ok bytes' f' /\
  sem_free (drop_acquire count' bytes' f').1 = sem_free count' + acquire_held f' /\
  bytes_free (drop_acquire count' bytes' f').2 = bytes_free bytes' /\
  (forall pm, r = PermitsReady pm -> permit_shared pm = acquire_shared f /\
     permit_bytes pm = (_ ← bytes; acquire_charge f)) /\
  (acquire_held f = 0 -> f <> AcquireDone -> sem_is_closed count = true -> r = PermitsClosed).
Proof.
  intros Hok Hp. destruct (drop_acquire_spec count' bytes' f') as (? & ? & _).
  destruct (poll_acquire_spec _ _ _ _ _ _ _ Hok Hp) as (? & ? & ? & _ & _ & _ & _ & Hr & ?).
  split_and!; try done. intros pm ->. tauto.
Qed.
End Lemmas.

(** ** Closing the admission of a driver *)

(** [AdmissionRegistry]; a count semaphore is named by its shard's index. *)
Record Registry := mkRegistry { ar_closed : bool; ar_counts : list nat }.

Definition default_registry : Registry := mkRegistry false [].

(** The locked section of [register]: whether the semaphore is to be closed. *)
Definition register_locked (r : Registry) (i : nat) : Registry * bool :=
  if ar_closed r then (r, true) else (mkRegistry false (ar_counts r ++ [i]), false).

(** The locked section of [close]: the semaphores to close. *)
Definition close_locked (r : Registry) : Registry * list nat :=
  (mkRegistry true [], ar_counts r).

(** The registry with the threads that use it: which semaphores are registered
    and closed, and which closings a thread still owes after it left the lock. *)
Record AdmSys := mkAdmSys {
  as_registry : Registry;
  as_registered : gset nat;
  as_closed : gset nat;
  as_owed : list nat;
  as_bytes_owed : nat;
  as_bytes_closed : bool
}.

(** [register], [close] and [Drop for CloseByteAdmission], with each lock
    section and each semaphore's closing a step of its own. *)
Inductive adm_step (s : AdmSys) : AdmSys -> Prop :=
| AdmRegister i reg b :
    register_locked (as_registry s) i = (reg, b) ->
    adm_step s (mkAdmSys reg ({[i]} ∪ as_registered s) (as_closed s)
                  (if b then i :: as_owed s else as_owed s) (as_bytes_owed s) (as_bytes_closed s))
| AdmClose reg l :
    close_locked (as_registry s) = (reg, l) ->
    adm_step s (mkAdmSys reg (as_registered s) (as_closed s) (l ++ as_owed s)
                  (S (as_bytes_owed s)) (as_bytes_closed s))
| AdmCloseBytes n :
    as_bytes_owed s = S n ->
    adm_step s (mkAdmSys (as_registry s) (as_registered s) (as_closed s) (as_owed s) n true)
| AdmCloseCount i l :
    as_owed s ≡ₚ i :: l ->
    adm_step s (mkAdmSys (as_registry s) (as_registered s) ({[i]} ∪ as_closed s) l
                  (as_bytes_owed s) (as_bytes_closed s)).

Definition adm_start : AdmSys := mkAdmSys default_registry ∅ ∅ [] 0 false.

(** Every registered semaphore is in the registry, or once that is closed, is
    closed or owed. *)
Record adm_inv (s : AdmSys) : Prop := {
  ai_counts : ar_closed (as_registry s) = false ->
    forall i, i ∈ as_registered s -> i ∈ ar_counts (as_registry s);
  ai_closed : ar_closed (as_registry s) = true ->
    forall i, i ∈ as_registered s -> i ∈ as_closed s \/ i ∈ as_owed s;
  ai_bytes : ar_closed (as_registry s) = true ->
    as_bytes_closed s = true \/ (0 < as_bytes_owed s)%nat
}.

Lemma adm_step_inv s s' : adm_inv s -> adm_step s s' -> adm_inv s'.
Proof.
  intros [Hn Hc Hb] Hs.
  destruct Hs as [i reg b Hr|reg l Hl|n Hn'|i l Hp]; simpl.
  - unfold register_locked in Hr. destruct (ar_closed (as_registry s)) eqn:He;
      injection Hr as <- <-; constructor; simpl; rewrite ?He; try done.
    + intros _ x [->%elem_of_singleton|Hx]%elem_of_union; [right; by left|].
      destruct (Hc eq_refl x Hx); [by left | right; by right].
    + intros _ x [->%elem_of_singleton|Hx]%elem_of_union; set_solver.
  - injection Hl as <- <-. constructor; simpl; try done; [|intros; right; lia].
    intros _ x Hx. destruct (ar_closed (as_registry s)) eqn:He.
    + destruct (Hc eq_refl x Hx); [by left | right; set_solver].
    + right. pose proof (Hn eq_refl x Hx). set_solver.
  - constructor; simpl; auto.
  - constructor; simpl; auto. intros He x Hx. destruct (Hc He x Hx) as [?|Ho]; [set_solver|].
    rewrite Hp in Ho. set_solver.
Qed.

(** [C32] Closing a driver's admission reaches every shard, whatever the order in which shards
    register and threads close: once the registry is closed and no closing is still owed by
    a thread that left the lock, every count semaphore ever registered is closed (one
    registered after the closing included), and so is the byte semaphore. *)
Theorem admission_close_reaches_all s :
  rtc adm_step adm_start s -> ar_closed (as_registry s) = true ->
  (forall i, i ∈ as_registered s -> i ∈ as_closed s \/ i ∈ as_owed s) /\
  (as_owed s = [] -> as_bytes_owed s = 0%nat ->
     (forall i, i ∈ as_registered s -> i ∈ as_closed s) /\ as_bytes_closed s = true).
Proof.
  intros Hs Hc. assert (Hi : adm_inv s).
  { assert (H0 : adm_inv adm_start) by (by constructor).
    revert H0. clear Hc. induction Hs; eauto using adm_step_inv. }
  destruct Hi as [_ Hcl Hb]. split; [by apply Hcl|].
  intros Ho Hbo. split.
  - intros i Hi. destruct (Hcl Hc i Hi) as [?|Hin]; [done|].
    rewrite Ho in Hin. by apply not_elem_of_nil in Hin.
  - destruct (Hb Hc) as [?|?]; [done|lia].
Qed.

(** ** Witnesses *)

Lemma try_admission_all_or_nothing_witness :
  sem_free (mkSem 2 false [] 0) = sem_free (mkSem 2 false [] 0) /\
  bytes_free (Some (mkSem 5 false [] 0)) = bytes_free (Some (mkSem 5 false [] 0)).
Proof.
  exact (try_admission_all_or_nothing (mkSem 2 false [] 0) (Some (mkSem 5 false [] 0)) 9
    (mkSem 2 false [] 0) (Some (mkSem 5 false [] 0)) (inr NoPermits) eq_refl).
Defined.

(** A deferred admission that has its count permit and waits for bytes. *)
Definition demo_fut : @AcquireFut sem sem_semaphore :=
  @AwaitBytes sem sem_semaphore (mkWaiter 9 (Some 0)) 9 (Some 4).

Lemma deferred_admission_conserves_witness :
  let count := mkSem 2 false [] 0 in
  let f' := demo_fut in
  sem_free (mkSem 1 false [] 0) + acquire_held f' + polled_count PermitsPending =
    sem_free count + acquire_held (acquire_read_permits (Sm := sem) 9 (Some 4)) /\
  sem_free (drop_acquire (mkSem 1 false [] 0) (Some (mkSem 5 false [0] 1)) f').1 =
    sem_free (mkSem 1 false [] 0) + acquire_held f'.
Proof.
  destruct (deferred_admission_conserves (mkSem 2 false [] 0) (Some (mkSem 5 false [] 0))
    (acquire_read_permits 9 (Some 4)) (mkSem 1 false [] 0) (Some (mkSem 5 false [0] 1))
    demo_fut PermitsPending eq_refl eq_refl)
    as (H1 & _ & _ & H4 & _).
  split; [exact H1 | exact H4].
Defined.

(** Shard 0 registers, the driver closes, shard 1 registers too late. *)
Definition demo_adm : AdmSys :=
  mkAdmSys (mkRegistry true []) {[0%nat; 1%nat]} {[0%nat; 1%nat]} [] 0 true.

Lemma demo_adm_reachable : rtc adm_step adm_start demo_adm.
Proof.
  eapply rtc_l; [apply (AdmRegister _ 0 (mkRegistry false [0%nat]) false); reflexivity|]. simpl.
  eapply rtc_l; [apply (AdmClose _ (mkRegistry true []) [0%nat]); reflexivity|]. simpl.
  eapply rtc_l; [apply (AdmRegister _ 1 (mkRegistry true []) true); reflexivity|]. simpl.
  eapply rtc_l; [by apply (AdmCloseBytes _ 0)|]. simpl.
  eapply rtc_l; [by apply (AdmCloseCount _ 1 [0%nat])|]. simpl.
  eapply rtc_l; [by apply (AdmCloseCount _ 0 [])|]. simpl.
  apply reflexive_eq. unfold demo_adm. f_equal; set_solver.
Qed.

Lemma admission_close_reaches_all_witness :
  (forall i, i ∈ as_registered demo_adm -> i ∈ as_closed demo_adm \/ i ∈ as_owed demo_adm) /\
  (as_owed demo_adm = [] -> as_bytes_owed demo_adm = 0%nat ->
     (forall i, i ∈ as_registered demo_adm -> i ∈ as_closed demo_adm) /\
     as_bytes_closed demo_adm = true).
Proof. apply admission_close_reaches_all; [exact demo_adm_reachable | reflexivity]. Defined.
