(* ===== verification/Startup.v ===== *)
(** * Startup

    The probe read of a new ring ([probe_real_read], [drain_probe_cqe]), the
    classification of its failure ([ProbeFailure::is_expected_restriction]), the
    io-wq registration, the validation of limits and the start of the shards
    ([start_shard], [start_with_limits]) of [src/src/driver.rs]. What the
    operating system answers is an argument. *)

From S2P Require Import Prelude IoError Geometry Interfaces Instances SharedBudget.
From S2P Require Import Pending Admission.

(** ** io-wq registration *)

Definition IOWQ_MAX_BOUNDED_WORKERS : Z := 16.

(** [IoWqRegistration]. *)
Inductive IoWqRegistration :=
| Registered (previous_limits : Z * Z)
| Failed (error_kind : ErrorKind) (raw : option Z).

(** [IoWqSetup]. *)
Record IoWqSetup := mkIoWqSetup { requested : Z * Z; result : IoWqRegistration }.

(** [io::Error::kind], over the platform's table for errno values. *)
Definition kind (decode_error_kind : Z -> ErrorKind) (e : IoError) : ErrorKind :=
  match e with Os n => decode_error_kind n | Custom k _ => k end.

(** [register_iowq_setup]; the kernel overwrites the limits it is given. *)
Definition register_iowq_setup (decode : Z -> ErrorKind)
    (register : Z * Z -> (Z * Z) * io_result unit) : IoWqSetup :=
  let req := (IOWQ_MAX_BOUNDED_WORKERS, 0) in
  let '(limits, r) := register req in
  mkIoWqSetup req
    match r with
    | Ok _ => Registered limits
    | Err e => Failed (kind decode e) (raw_os_error e)
    end.

(** ** Probe failures *)

(** [ProbeFailure]. *)
Inductive ProbeFailure :=
| Setup (e : IoError)
| ReadOp (e : IoError).

(** [ProbeFailure::is_expected_restriction]. *)
Definition is_expected_restriction (p : ProbeFailure) : bool :=
  let err := match p with Setup e | ReadOp e => e end in
  match raw_os_error err with
  | Some n => bool_decide (n = EACCES \/ n = EPERM \/ n = ENOSYS \/ n = EINVAL \/ n = EOPNOTSUPP)
  | None => false
  end.

(** [Display] and [source] of a [ProbeFailure], over the [Display] of an
    [io::Error]. *)
Definition display (show : IoError -> string) (p : ProbeFailure) : string :=
  match p with
  | Setup e => "io_uring setup failed: " +:+ show e
  | ReadOp e => "io_uring probe read failed: " +:+ show e
  end.

Definition source (p : ProbeFailure) : IoError :=
  match p with Setup e | ReadOp e => e end.

(** [UringDriver::validate_read_limits]. *)
Definition validate_read_limits (max_permits : Z) (limits : ReadLimits) : unit + ProbeFailure :=
  match max_in_flight_bytes limits with
  | Some bytes =>
      if (bytes =? 0) || (max_permits <? bytes)
      then inr (Setup (Custom InvalidInput "byte budget must be between 1 and Semaphore::MAX_PERMITS"))
      else inl tt
  | None => inl tt
  end.

(** ** The probe read *)

(** The pattern of the probe file: [(i * 7 + 13) as u8] for [i < 512]. *)
Definition byte_of (z : Z) : Byte.byte :=
  default Byte.x00 (Byte.of_N (Z.to_N (z mod 256))).

Definition probe_pattern : list Byte.byte :=
  (fun i => byte_of (Z.of_nat i * 7 + 13)) <$> seq 0 512.

Definition PROBE_TIMEOUT : Z := 2000.

(** The probe's submission entry, for its buffer at [addr]. *)
Definition probe_sqe (fd addr : Z) : Sqe := mkSqe (Read fd addr (zlen probe_pattern) 0) 0xB0BE.

Section Probe.
Context {R : Type} `{Ring R}.

(** One turn of the wait: the clock at the check of the deadline, and the
    [io_uring_enter] that waits for a completion. *)
Record ProbeTurn := mkProbeTurn { pt_now : Z; pt_wait : R -> R * io_result Z }.

(** The waits [drain_probe_cqe] goes on from. *)
Definition waited_ok (r : io_result Z) : bool :=
  match r with
  | Ok _ => true
  | Err e => bool_decide (raw_os_error e = Some EINTR \/ raw_os_error e = Some ETIME)
  end.

(** The failure forced by [RUSTFS_URING_FAULT_PROBE_DRAIN]. *)
Definition forced_drain_error : IoError := other "fault-injection: forced probe drain failure".

(** [drain_probe_cqe]; [None] while it is still waiting after the given turns.
    [forced] says that the code of the [fault-injection] feature is compiled
    in and its variable set: the completion that arrived is reported as a
    failure. The completion comes with the result, for what the kernel stored. *)
Fixpoint drain_probe_cqe (forced : bool) (r : R) (deadline : Z) (ts : list ProbeTurn) :
    option (R * io_result Z * option Cqe) :=
  match ts with
  | [] => None
  | t :: ts =>
      if saturating_sub deadline (pt_now t) =? 0
      then Some (r, Err (other "probe: no CQE within the bounded wait"), None)
      else
        let '(r1, waited) := pt_wait t r in
        match waited with
        | Err e =>
            if waited_ok waited then
              match cq_next r1 with
              | Some (c, r2) =>
                  Some (r2, if forced then Err forced_drain_error else Ok (cqe_result c), Some c)
              | None => drain_probe_cqe forced r1 deadline ts
              end
            else Some (r1, Err e, None)
        | Ok _ =>
            match cq_next r1 with
            | Some (c, r2) =>
                Some (r2, if forced then Err forced_drain_error else Ok (cqe_result c), Some c)
            | None => drain_probe_cqe forced r1 deadline ts
            end
        end
  end.

(** What happens to the probe's buffer and file. *)
Inductive fate := Freed | Forgotten.

#[export] Instance fate_eq_dec : EqDecision fate.
Proof. solve_decision. Defined.

(** The probe's buffer at [addr], once the kernel stored what it did. *)
Definition probe_buffer (addr : Z) (arrived : option Cqe) : Vec :=
  let buf := mkVec addr (repeat Byte.x00 (length probe_pattern)) in
  match arrived with
  | Some c => vec_store buf (cqe_addr c) (cqe_stored c)
  | None => buf
  end.

(** [probe_real_read], with the probe file [open_probe_file] gave, the buffer
    at [addr] and the clock at [now]. *)
Definition probe_real_read (forced : bool) (r : R) (opened : io_result File) (addr now : Z)
    (ts : list ProbeTurn) : option (R * io_result unit * fate) :=
  match opened with
  | Err e => Some (r, Err e, Freed)
  | Ok f =>
      match sq_push r (probe_sqe (raw_fd f) addr) with
      | None => Some (r, Err (other "probe: submission queue full"), Freed)
      | Some r1 =>
          '(r2, drained, arrived) ← drain_probe_cqe forced r1 (now + PROBE_TIMEOUT) ts;
          match drained with
          | Err e => Some (r2, Err e, Forgotten)
          | Ok res =>
              let buf := vec_data (probe_buffer addr arrived) in
              if res <? 0 then Some (r2, Err (from_raw_os_error (- res)), Freed)
              else if negb (res =? zlen probe_pattern) ||
                      negb (bool_decide (buf = probe_pattern))
              then Some (r2, Err (other "probe: read completed but data mismatched"), Freed)
              else Some (r2, Ok tt, Freed)
          end
      end
  end.
End Probe.
Arguments ProbeTurn : clear implicits.
Arguments mkProbeTurn {_}.

(** ** Starting the shards *)

Section Start.
Context {R : Type} `{Ring R}.

(** What the operating system answers while one shard starts; [os_spawn_fault]
    says that [RUSTFS_URING_FAULT_SPAWN] is set in a [fault-injection] build. *)
Record ShardOs := mkShardOs {
  os_ring : io_result R;
  os_nodrop : bool;
  os_probe : R -> option (R * io_result unit * fate);
  os_cq_efd : io_result unit;
  os_register_efd : io_result unit;
  os_iowq : Z * Z -> (Z * Z) * io_result unit;
  os_wake_efd : io_result unit;
  os_spawn_fault : bool;
  os_spawn : io_result unit
}.

(** A started shard, before its thread has run: its ring and io-wq setup. *)
Record StartedShard := mkStarted { st_ring : R; st_iowq : IoWqSetup }.

(** [start_shard], up to the thread it spawns, as the sequence of its
    fallible calls; whether the count semaphore was registered for closing
    comes with the result. [None] while the probe is still waiting. *)
Definition start_shard (decode : Z -> ErrorKind) (probe : bool) (os : ShardOs) :
    option (bool * (StartedShard + ProbeFailure)) :=
  match os_ring os with
  | Err e => Some (false, inr (Setup e))
  | Ok r =>
      if negb (os_nodrop os) then Some (false, inr (Setup (from_raw_os_error ENOSYS)))
      else
        '(r', probed) ← (if probe
                         then '(r', res, _) ← os_probe os r; Some (r', res)
                         else Some (r, Ok tt));
        match probed with
        | Err e => Some (false, inr (ReadOp e))
        | Ok _ =>
            match os_cq_efd os with
            | Err e => Some (false, inr (Setup e))
            | Ok _ =>
                match os_register_efd os with
                | Err e => Some (false, inr (Setup e))
                | Ok _ =>
                    let iowq := register_iowq_setup decode (os_iowq os) in
                    match os_wake_efd os with
                    | Err e => Some (false, inr (Setup e))
                    | Ok _ =>
                        if os_spawn_fault os
                        then Some (true, inr (Setup (from_raw_os_error EAGAIN)))
                        else
                          match os_spawn os with
                          | Err e => Some (true, inr (Setup e))
                          | Ok _ => Some (true, inl (mkStarted r' iowq))
                          end
                    end
                end
            end
        end
  end.

(** The loop of [start_with_limits] over shards [i] to [i + n - 1]: the shards
    started so far are dropped, which joins each of their threads, when one
    fails. *)
Fixpoint start_shards (decode : Z -> ErrorKind) (os : nat -> ShardOs) (i n : nat)
    (started : list StartedShard) :
    option (list StartedShard + ProbeFailure * list StartedShard) :=
  match n with
  | O => Some (inl started)
  | S n =>
      '(_, res) ← start_shard decode (i =? 0)%nat (os i);
      match res with
      | inr e => Some (inr (e, started))
      | inl s => start_shards decode os (S i) n (started ++ [s])
      end
  end.

(** [start_with_limits]: at least one shard; a failure comes with the shards it
    shut down. *)
Definition start_with_limits (decode : Z -> ErrorKind) (os : nat -> ShardOs) (shards : Z) :
    option (list StartedShard + ProbeFailure * list StartedShard) :=
  start_shards decode os 0 (Z.to_nat (Z.max shards 1)) [].

(** [probe_and_start_with_limits]. *)
Definition probe_and_start_with_limits (decode : Z -> ErrorKind) (max_permits : Z)
    (os : nat -> ShardOs) (shards : Z) (limits : ReadLimits) :
    option (list StartedShard + ProbeFailure * list StartedShard) :=
  match validate_read_limits max_permits limits with
  | inr e => Some (inr (e, []))
  | inl _ => start_with_limits decode os shards
  end.

(** [probe_and_start_sharded] and [probe_and_start]. *)
Definition probe_and_start_sharded (decode : Z -> ErrorKind) (max_permits : Z)
    (os : nat -> ShardOs) (shards : Z) :
    option (list StartedShard + ProbeFailure * list StartedShard) :=
  probe_and_start_with_limits decode max_permits os shards default_limits.

Definition probe_and_start (decode : Z -> ErrorKind) (max_permits : Z) (os : nat -> ShardOs) :
    option (list StartedShard + ProbeFailure * list StartedShard) :=
  probe_and_start_sharded decode max_permits os 1.

(** [probe_and_start_with_shared_budget]: the reservation is refunded when the
    start fails, and is the driver's when it succeeds. *)
Definition probe_and_start_with_shared_budget `{Target} (decode : Z -> ErrorKind)
    (max_permits : Z) (os : nat -> ShardOs) (shards : Z) (limits : ReadLimits) (pool : Pool) :
    option (Pool * (list StartedShard * Z + ProbeFailure)) :=
  match validate_read_limits max_permits limits with
  | inr e => Some (pool, inr e)
  | inl _ =>
      match max_in_flight_bytes limits with
      | None => Some (pool, inr (Setup (Custom InvalidInput
                   "shared read budget requires an explicit local byte limit")))
      | Some bytes =>
          match reserve pool bytes with
          | (pool', Err e) => Some (pool', inr (Setup e))
          | (pool', Ok r) =>
              started ← start_with_limits decode os shards;
              match started with
              | inl l => Some (pool', inl (l, r))
              | inr (e, _) => Some (arc_drop pool' r, inr e)
              end
          end
      end
  end.
End Start.
Arguments ShardOs : clear implicits.
Arguments StartedShard : clear implicits.

(** ** Lemmas *)

Section Lemmas.
Context {R : Type} `{RingLaws R}.

(** [io_uring_enter] moves entries around and consumes no completion. *)
Definition waits (t : ProbeTurn R) : Prop :=
  forall r, outstanding (pt_wait t r).1 ≡ₚ outstanding r.

Lemma drain_probe_spec forced (r : R) deadline ts r' res arrived s :
  Forall waits ts -> outstanding r ≡ₚ [s] ->
  drain_probe_cqe forced r deadline ts = Some (r', res, arrived) ->
  match res with
  | Ok n => forced = false /\ outstanding r' = [] /\
      exists c, answers s c /\ cqe_result c = n /\ arrived = Some c
  | Err _ => True
  end.
Proof.
  intros Hw. revert r. induction Hw as [|t ts Ht Hts IH]; intros r Ho; [done|]. simpl.
  destruct (_ =? 0); [by intros [= <- <- <-]|].
  specialize (Ht r). destruct (pt_wait t r) as [r1 waited] eqn:He. simpl in Ht.
  assert (Ho1 : outstanding r1 ≡ₚ [s]) by by rewrite Ht.
  assert (Hnext : forall c r2, cq_next r1 = Some (c, r2) -> outstanding r2 = [] /\ answers s c).
  { intros c r2 Hn. destruct (cq_next_outstanding _ _ _ Hn) as (s' & Hs' & Ha).
    rewrite Ho1 in Hs'. apply Permutation_singleton_l in Hs'. injection Hs' as <- <-. done. }
  destruct waited as [n|e].
  - destruct (cq_next r1) as [[c r2]|] eqn:Hc; [|by apply IH].
    intros [= <- <- <-]. destruct forced; [done|]. destruct (Hnext _ _ eq_refl). eauto 10.
  - destruct (waited_ok _); [|by intros [= <- <- <-]].
    destruct (cq_next r1) as [[c r2]|] eqn:Hc; [|by apply IH].
    intros [= <- <- <-]. destruct forced; [done|]. destruct (Hnext _ _ eq_refl). eauto 10.
Qed.

Lemma zlen_probe_pattern : zlen probe_pattern = 512.
Proof. unfold zlen, probe_pattern. by rewrite length_fmap, length_seq. Qed.

(** The buffer of an answered probe holds the pattern when that was stored. *)
Lemma probe_buffer_pattern fd addr c :
  answers (probe_sqe fd addr) c -> cqe_result c = 512 ->
  vec_data (probe_buffer addr (Some c)) = probe_pattern <-> cqe_stored c = probe_pattern.
Proof.
  intros [_ Ha] Hr. simpl in Ha. destruct Ha as (Had & _ & _ & Hl). specialize (Hl ltac:(lia)).
  assert (Hz : zlen (cqe_stored c) = 512) by (unfold zlen; lia).
  cbn [probe_buffer vec_store vec_data vec_ptr]. rewrite Had, Z.sub_diag, overlay_splice.
  - rewrite splice_all; [done|]. rewrite repeat_length. change (length probe_pattern) with 512%nat.
    unfold zlen in Hz. lia.
  - lia.
  - rewrite Hz. done.
Qed.

Lemma drain_probe_returns forced (r : R) deadline ts :
  Exists (fun t => deadline <= pt_now t) ts ->
  exists x, drain_probe_cqe forced r deadline ts = Some x.
Proof.
  revert r. induction ts as [|t ts IH]; intros r Hex; [by apply Exists_nil in Hex|]. simpl.
  case_match eqn:Hd; [eauto|].
  apply Exists_cons in Hex as [Ht|Hex].
  { unfold saturating_sub in Hd. bools. lia. }
  destruct (pt_wait t r) as [r1 [n|e]]; repeat case_match; eauto.
Qed.

(** The loop over the shards. *)
Lemma start_shards_spec decode (os : nat -> ShardOs R) n i started res :
  start_shards decode os i n started = Some res ->
  match res with
  | inl l => exists new, l = started ++ new /\ length new = n /\
      forall j s, new !! j = Some s ->
        exists b, start_shard decode (i + j =? 0)%nat (os (i + j)%nat) = Some (b, inl s)
  | inr (e, l) => exists new, l = started ++ new /\ (length new < n)%nat /\
      (exists b, start_shard decode (i + length new =? 0)%nat (os (i + length new)%nat) =
         Some (b, inr e)) /\
      forall j s, new !! j = Some s ->
        exists b, start_shard decode (i + j =? 0)%nat (os (i + j)%nat) = Some (b, inl s)
  end.
Proof.
  revert i started. induction n as [|n IH]; intros i started; simpl.
  { intros [= <-]. exists []. rewrite app_nil_r. split_and!; done. }
  destruct (start_shard decode (i =? 0)%nat (os i)) as [[b [s|e]]|] eqn:Hs; [| |done]; simpl.
  - intros Hl. apply IH in Hl.
    assert (Hnew : forall new : list (StartedShard R), forall j s0, (s :: new) !! j = Some s0 ->
      (forall j s0, new !! j = Some s0 ->
         exists b, start_shard decode (S i + j =? 0)%nat (os (S i + j)%nat) = Some (b, inl s0)) ->
      exists b, start_shard decode (i + j =? 0)%nat (os (i + j)%nat) = Some (b, inl s0)).
    { intros new [|j] s0; simpl.
      - intros [= <-] _. rewrite Nat.add_0_r. eauto.
      - intros Hj Hall. apply Hall in Hj. by replace (i + S j)%nat with (S i + j)%nat by lia. }
    destruct res as [l|[e l]].
    + destruct Hl as (new & -> & Hlen & Hall). exists (s :: new). rewrite <-app_assoc.
      split_and!; [done | by simpl; f_equal | eauto].
    + destruct Hl as (new & -> & Hlen & He & Hall). exists (s :: new). rewrite <-app_assoc.
      split_and!; [done | simpl; lia | | eauto]. simpl.
      by replace (i + S (length new))%nat with (S i + length new)%nat by lia.
  - intros [= <-]. exists []. rewrite app_nil_r. simpl. rewrite Nat.add_0_r.
    split_and!; try done; [lia | eauto].
Qed.

(** Without limits there is nothing to validate. *)
Lemma probe_and_start_sharded_unlimited decode max_permits (os : nat -> ShardOs R) shards :
  probe_and_start_sharded decode max_permits os shards = start_with_limits decode os shards.
Proof. done. Qed.

(** ** Properties *)

(** [C33] The startup probe never frees memory under the kernel: when [probe_real_read] drops its
    buffer and file, no submission of its ring is outstanding any more; while the read may
    still be in flight it reports an error and forgets both instead. The probe succeeds
    exactly when its own submission was accepted, the completion its drain took from the ring
    answers it with 512 bytes, and what the kernel stored is the pattern; never when the
    failure of its drain is forced. *)
Theorem probe_frees_only_after_completion forced (r r' : R) opened addr now ts res f :
  outstanding r = [] -> Forall waits ts ->
  probe_real_read forced r opened addr now ts = Some (r', res, f) ->
  (f = Freed -> outstanding r' = []) /\ (f = Forgotten -> exists e, res = Err e) /\
  (res = Ok tt <-> forced = false /\ exists fl r1 c, opened = Ok fl /\
     sq_push r (probe_sqe (raw_fd fl) addr) = Some r1 /\
     drain_probe_cqe forced r1 (now + PROBE_TIMEOUT) ts = Some (r', Ok 512, Some c) /\
     answers (probe_sqe (raw_fd fl) addr) c /\ cqe_stored c = probe_pattern).
Proof.
  intros Ho Hw. unfold probe_real_read. destruct opened as [fl|e].
  2: { intros [= <- <- <-]. split_and!; [done|done|]. split; [done|]. by intros (_ & ? & ? & ? & ? & _). }
  destruct (sq_push r _) as [r1|] eqn:Hp.
  2: { intros [= <- <- <-]. split_and!; [done|done|]. split; [done|].
       intros (_ & fl' & r1 & c & [= <-] & Hp' & _). congruence. }
  pose proof Hp as Hout. apply sq_push_outstanding in Hout. rewrite Ho in Hout.
  destruct (drain_probe_cqe _ _ _) as [[[r2 drained] arrived]|] eqn:Hd; [|done]. simpl.
  pose proof (drain_probe_spec _ _ _ _ _ _ _ _ Hw Hout Hd) as Hs.
  assert (Hsucc : (exists fl' r1' c, Ok fl = Ok fl' /\ sq_push r (probe_sqe (raw_fd fl') addr) = Some r1' /\
      drain_probe_cqe forced r1' (now + PROBE_TIMEOUT) ts = Some (r2, Ok 512, Some c) /\
      answers (probe_sqe (raw_fd fl') addr) c /\ cqe_stored c = probe_pattern) ->
    drained = Ok 512 /\ vec_data (probe_buffer addr arrived) = probe_pattern).
  { intros (fl' & r1' & c & [= <-] & Hp' & Hd' & Ha & Hst). simplify_eq.
    destruct Hs as (_ & _ & c' & _ & Hn & [= <-]). split; [done|].
    by apply (probe_buffer_pattern (raw_fd fl) addr). }
  destruct drained as [n|e].
  2: { intros [= <- <- <-]. split_and!; [done|eauto|]. split; [done|]. by intros [_ [? _]%Hsucc]. }
  destruct Hs as (Hforced & Hq & c & Hans & Hn & ->).
  case_match eqn:Hneg.
  { intros [= <- <- <-]. split_and!; [done..|]. split; [done|]. intros [_ [[= ->] _]%Hsucc]. done. }
  case_match eqn:Hbad; intros [= <- <- <-]; (split_and!; [done..|]).
  - split; [done|]. intros [_ [[= ->] Hb]%Hsucc]. rewrite Hb, bool_decide_eq_true_2, zlen_probe_pattern in Hbad by done. done.
  - split; [|done]. intros _. split; [done|]. exists fl, r1, c.
    apply orb_false_iff in Hbad as [Hlen Hbuf]. apply negb_false_iff, Z.eqb_eq in Hlen as ->.
    apply negb_false_iff, bool_decide_eq_true in Hbuf.
    split_and!; [done..|]. by apply (probe_buffer_pattern (raw_fd fl) addr).
Qed.

(** The startup probe ends: as soon as the clock of one of its waits has passed the two
    second deadline, [probe_real_read] has returned, even if no completion ever arrives. *)
Theorem probe_is_bounded forced (r : R) opened addr now ts :
  Exists (fun t => now + 2000 <= pt_now t) ts ->
  exists r' res f, probe_real_read forced r opened addr now ts = Some (r', res, f).
Proof.
  intros Hex. unfold probe_real_read. destruct opened as [fl|e]; [|eauto].
  destruct (sq_push r _) as [r1|]; [|eauto].
  destruct (drain_probe_returns forced r1 (now + PROBE_TIMEOUT) ts Hex) as [[[r2 drained] stored] ->].
  simpl. repeat case_match; eauto.
Qed.

(** A driver starts with all its shards or none: success gives exactly [max(shards, 1)]
    shards, each started, and the probe is run for the first one only; a failure is the
    first failing shard's own, with every shard started before it shut down. *)
Theorem start_all_or_nothing decode (os : nat -> ShardOs R) shards res :
  start_with_limits decode os shards = Some res ->
  match res with
  | inl l => zlen l = Z.max shards 1 /\
      forall j s, l !! j = Some s ->
        exists b, start_shard decode (j =? 0)%nat (os j) = Some (b, inl s)
  | inr (e, l) => zlen l < Z.max shards 1 /\
      (exists b, start_shard decode (length l =? 0)%nat (os (length l)) = Some (b, inr e)) /\
      forall j s, l !! j = Some s ->
        exists b, start_shard decode (j =? 0)%nat (os j) = Some (b, inl s)
  end.
Proof.
  unfold start_with_limits. intros Hs. apply start_shards_spec in Hs.
  destruct res as [l|[e l]].
  - destruct Hs as (new & -> & Hlen & Hall). simpl in *. unfold zlen. split; [lia|done].
  - destruct Hs as (new & -> & Hlen & He & Hall). simpl in *. unfold zlen. split_and!; [lia|done..].
Qed.
End Lemmas.

(** ** Witnesses *)

(** The probe file, on a ring whose kernel answers or hangs. *)
Definition demo_probe (hold : bool) : option (ring * io_result unit * fate) :=
  probe_real_read false (mkRing probe_pattern 8 [] [] [] hold []) (Ok (mkFile 5)) 4096 0
    [mkProbeTurn 0 ring_submit; mkProbeTurn 2000 ring_submit].

Lemma demo_waits : Forall waits [mkProbeTurn 0 (ring_submit (R := ring)); mkProbeTurn 2000 ring_submit].
Proof. repeat constructor; intros r; apply (ring_submit_outstanding r). Qed.

Lemma probe_frees_only_after_completion_witness :
  let r := mkRing probe_pattern 8 [] [] [] false [] in
  let ts := [mkProbeTurn 0 ring_submit; mkProbeTurn 2000 ring_submit] in
  probe_real_read false r (Ok (mkFile 5)) 4096 0 ts = Some (r, Ok tt, Freed) /\
  outstanding r = [] /\
  exists r1 c, sq_push r (probe_sqe 5 4096) = Some r1 /\
    drain_probe_cqe false r1 2000 ts = Some (r, Ok 512, Some c) /\ cqe_stored c = probe_pattern.
Proof.
  intros r ts.
  assert (Hp : probe_real_read false r (Ok (mkFile 5)) 4096 0 ts = Some (r, Ok tt, Freed))
    by (vm_compute; reflexivity).
  assert (Ho : outstanding r = []) by reflexivity. split; [exact Hp|]. split; [exact Ho|].
  pose proof (probe_frees_only_after_completion false r r (Ok (mkFile 5)) 4096 0 ts (Ok tt) Freed
    Ho demo_waits Hp) as Hthm.
  destruct (proj1 (proj2 (proj2 Hthm)) eq_refl) as (_ & fl & r1 & c & Hfl & Hr1 & Hd & _ & Hst).
  injection Hfl as <-. exists r1, c. split; [exact Hr1|]. split; [exact Hd|exact Hst].
Defined.

Lemma probe_is_bounded_witness :
  (exists r' res f, demo_probe true = Some (r', res, f)) /\
  demo_probe true = Some (mkRing probe_pattern 8 [] [probe_sqe 5 4096] [] true [],
    Err (other "probe: no CQE within the bounded wait"), Forgotten).
Proof.
  split; [|vm_compute; reflexivity].
  apply (probe_is_bounded false (mkRing probe_pattern 8 [] [] [] true [])).
  apply Exists_cons_tl, Exists_cons_hd. vm_compute. discriminate.
Defined.

(** Three shards, the last of which cannot spawn its thread. *)
Definition demo_os (i : nat) : ShardOs ring :=
  mkShardOs (Ok (mkRing probe_pattern 8 [] [] [] false [])) true
    (fun r => if (i =? 0)%nat then Some (r, Ok tt, Freed) else None) (Ok tt) (Ok tt)
    (fun l => (l, Ok tt)) (Ok tt) false (if (i =? 2)%nat then Err (Os EAGAIN) else Ok tt).

Definition demo_started : StartedShard ring :=
  mkStarted (mkRing probe_pattern 8 [] [] [] false []) (mkIoWqSetup (16, 0) (Registered (16, 0))).

Lemma start_all_or_nothing_witness :
  zlen [demo_started; demo_started] < Z.max 3 1 /\
  (exists b, start_shard (fun _ => Other) (length [demo_started; demo_started] =? 0)%nat
     (demo_os (length [demo_started; demo_started])) = Some (b, inr (Setup (Os EAGAIN)))) /\
  forall j s, [demo_started; demo_started] !! j = Some s ->
    exists b, start_shard (fun _ => Other) (j =? 0)%nat (demo_os j) = Some (b, inl s).
Proof.
  apply (start_all_or_nothing (fun _ => Other) demo_os 3
    (inr (Setup (Os EAGAIN), [demo_started; demo_started]))).
  vm_compute. reflexivity.
Defined.
