(* ===== verification/ProbeFile.v ===== *)
(** * The probe file

    [open_probe_file] and [open_probe_file_exclusive] of [src/src/driver.rs]:
    the file the startup probe reads, anonymous where the file system can make
    one, else created exclusively in the temporary directory and unlinked. The
    file system is an interface with the documented behaviour of its calls. *)

From S2P Require Import Prelude IoError Geometry Interfaces Instances SharedBudget.
From S2P Require Import Pending Admission Startup.
From stdpp Require Import pretty.
From Stdlib Require Import Ascii.

Open Scope Z_scope.

(** ** The file system *)

Inductive open_flag :=
| O_CREAT | O_EXCL | O_NOFOLLOW | O_TMPFILE | O_RDWR | O_CLOEXEC | O_DIRECT | O_NONBLOCK.

#[export] Instance open_flag_eq_dec : EqDecision open_flag.
Proof. solve_decision. Defined.

(** [libc::open], [Write::write_all], [libc::unlink] and closing a descriptor,
    with what they change: names (symbolic links included), the inode behind
    an open descriptor, and the content of inodes. *)
Class FileSystem (S : Type) := {
  fs_open : S -> string -> list open_flag -> Z -> S * io_result Z;
  fs_write_all : S -> Z -> list Byte.byte -> S * io_result unit;
  fs_unlink : S -> string -> S * io_result unit;
  fs_close : S -> Z -> S;
  fs_name : S -> string -> option Z;
  fs_inode : S -> Z -> option Z;
  fs_data : S -> Z -> option (list Byte.byte)
}.

(** [fd] is open on the new, empty file [i]. *)
Record new_file {S} `{FileSystem S} (s s' : S) (fd i : Z) : Prop := {
  nf_fresh : fs_data s i = None;
  nf_open : fs_inode s' fd = Some i;
  nf_empty : fs_data s' i = Some [];
  nf_others : forall j, j <> i -> fs_data s' j = fs_data s j
}.

Class FileSystemLaws (S : Type) `{FileSystem S} := {
  open_tmpfile s dir fl mode s' fd :
    O_TMPFILE ∈ fl -> fs_open s dir fl mode = (s', Ok fd) ->
    exists i, new_file s s' fd i /\
      forall q, fs_name s' q = fs_name s q /\ fs_name s' q <> Some i;
  open_exclusive s p fl mode s' fd :
    O_CREAT ∈ fl -> O_EXCL ∈ fl -> (O_TMPFILE ∉ fl) -> fs_open s p fl mode = (s', Ok fd) ->
    fs_name s p = None /\ exists i, new_file s s' fd i /\ fs_name s' p = Some i /\
      forall q, q <> p -> fs_name s' q = fs_name s q /\ fs_name s' q <> Some i;
  open_failed s p fl mode s' e : fs_open s p fl mode = (s', Err e) ->
    (forall q, fs_name s' q = fs_name s q) /\ (forall j, fs_data s' j = fs_data s j);
  write_all_new s fd b i s' r :
    fs_write_all s fd b = (s', r) -> fs_inode s fd = Some i -> fs_data s i = Some [] ->
    (forall q, fs_name s' q = fs_name s q) /\ fs_inode s' fd = Some i /\
    (forall j, j <> i -> fs_data s' j = fs_data s j) /\
    match r with
    | Ok _ => fs_data s' i = Some b
    | Err _ => exists k, fs_data s' i = Some (take k b)
    end;
  unlink_ok s p s' : fs_unlink s p = (s', Ok tt) ->
    fs_name s' p = None /\ (forall q, q <> p -> fs_name s' q = fs_name s q) /\
    (forall fd, fs_inode s' fd = fs_inode s fd) /\
    (forall fd j, fs_inode s fd = Some j \/ fs_name s p <> Some j -> fs_data s' j = fs_data s j);
  unlink_failed s p s' e : fs_unlink s p = (s', Err e) ->
    (forall q, fs_name s' q = fs_name s q) /\ (forall fd, fs_inode s' fd = fs_inode s fd) /\
    (forall j, fs_data s' j = fs_data s j);
  close_frame s fd :
    (forall q, fs_name (fs_close s fd) q = fs_name s q) /\
    (forall j, fs_inode s fd <> Some j \/ (exists q, fs_name s q = Some j) ->
       fs_data (fs_close s fd) j = fs_data s j)
}.

(** ** The code *)

(** [CString::new] refuses an interior NUL. *)
Fixpoint has_nul (s : string) : bool :=
  match s with
  | EmptyString => false
  | String c s => bool_decide (c = "000"%char) || has_nul s
  end.

(** [Path::join] with a relative file name. *)
Fixpoint ends_with_slash (s : string) : bool :=
  match s with
  | EmptyString => false
  | String c EmptyString => bool_decide (c = "/"%char)
  | String _ s => ends_with_slash s
  end.

Definition join (dir name : string) : string :=
  if bool_decide (dir = EmptyString) || ends_with_slash dir then dir +:+ name
  else dir +:+ "/" +:+ name.

Definition probe_path (dir : string) (pid nonce : Z) : string :=
  join dir ("uring-spike-probe-" +:+ pretty pid +:+ "-" +:+ pretty nonce).

(** [0o600]: read and write for the owner only. *)
Definition mode_600 : Z := 6 * 8 * 8.

Section ProbeFile.
Context {S : Type} `{FileSystem S}.
Implicit Types s : S.

(** Writing the pattern into a file just opened; an error drops the file. *)
Definition seeded s (fd : Z) (pattern : list Byte.byte) : S * io_result unit :=
  let '(s, r) := fs_write_all s fd pattern in
  match r with Ok _ => (s, r) | Err _ => (fs_close s fd, r) end.

(** [open_probe_file_exclusive]; [seq] is the process's counter. *)
Definition open_probe_file_exclusive s (seq : Z) (dir : string) (pid : Z)
    (pattern : list Byte.byte) : S * Z * io_result Z :=
  let nonce := seq in
  let seq := wrap u64_max (seq + 1) in
  let path := probe_path dir pid nonce in
  if has_nul path then (s, seq, Err (other "probe path has NUL"))
  else
    match fs_open s path [O_CREAT; O_EXCL; O_NOFOLLOW; O_RDWR; O_CLOEXEC] mode_600 with
    | (s, Err e) => (s, seq, Err e)
    | (s, Ok fd) =>
        match seeded s fd pattern with
        | (s, Err e) => (s, seq, Err e)
        | (s, Ok _) => let '(s, _) := fs_unlink s path in (s, seq, Ok fd)
        end
    end.

(** [open_probe_file]. *)
Definition open_probe_file s (seq : Z) (dir : string) (pid : Z) (pattern : list Byte.byte) :
    S * Z * io_result Z :=
  if has_nul dir then (s, seq, Err (other "probe dir path has NUL"))
  else
    match fs_open s dir [O_TMPFILE; O_RDWR; O_CLOEXEC] mode_600 with
    | (s, Ok fd) =>
        match seeded s fd pattern with
        | (s, Err e) => (s, seq, Err e)
        | (s, Ok _) => (s, seq, Ok fd)
        end
    | (s, Err _) => open_probe_file_exclusive s seq dir pid pattern
    end.
End ProbeFile.

(** ** Lemmas *)

Section Lemmas.
Context {S : Type} `{FileSystemLaws S}.
Implicit Types s : S.

(** What seeding a new file leaves: its content or a part of it, every name,
    and every other file. *)
Lemma seeded_spec s0 s fd i pattern s' r :
  new_file s0 s fd i -> seeded s fd pattern = (s', r) ->
  (forall q, fs_name s' q = fs_name s q) /\
  (forall j, j <> i -> fs_data s' j = fs_data s j) /\
  match r with
  | Ok _ => fs_inode s' fd = Some i /\ fs_data s' i = Some pattern
  | Err _ => forall q, fs_name s q = Some i -> exists k, fs_data s' i = Some (take k pattern)
  end.
Proof.
  intros [Hf Ho He Hn]. unfold seeded. destruct (fs_write_all s fd pattern) as [s1 r1] eqn:Hw.
  destruct (write_all_new _ _ _ i _ _ Hw Ho He) as (Hnm & Hin & Hd & Hr).
  destruct r1 as [[]|e]; intros [= <- <-]; [by split_and!|].
  destruct (close_frame s1 fd) as [Hcn Hcd]. split_and!.
  - intros q. by rewrite Hcn.
  - intros j Hj. rewrite Hcd by (left; congruence). by apply Hd.
  - intros q Hq. destruct Hr as [k Hk]. exists k. rewrite Hcd; [done|]. right. exists q. by rewrite Hnm.
Qed.

(** Whether the unlinking of [path] that leads to [s] failed. *)
Definition unlink_refused s (path : string) : Prop := exists s1 e, fs_unlink s1 path = (s, Err e).

(** What opening a probe file does, its path being the one of [seq]. *)
Record probe_opened (s s' : S) (path : string) (pattern : list Byte.byte) (r : io_result Z) : Prop := {
  po_names : forall q, q <> path -> fs_name s' q = fs_name s q;
  po_files : forall j d, fs_data s j = Some d -> fs_data s' j = Some d;
  po_taken : forall i, fs_name s path = Some i -> fs_name s' path = Some i;
  po_result :
    match r with
    | Ok fd => exists i, fs_data s i = None /\ fs_inode s' fd = Some i /\
        fs_data s' i = Some pattern /\
        ((forall q, fs_name s' q <> Some i) \/ unlink_refused s' path)
    | Err _ => (forall q, fs_name s' q = fs_name s q) \/
        exists i k, fs_data s i = None /\ fs_name s' path = Some i /\
          fs_data s' i = Some (take k pattern)
    end
}.

Lemma open_exclusive_spec s seq dir pid pattern s' seq' r :
  open_probe_file_exclusive s seq dir pid pattern = (s', seq', r) ->
  probe_opened s s' (probe_path dir pid seq) pattern r /\ seq' = wrap u64_max (seq + 1).
Proof.
  unfold open_probe_file_exclusive. set (path := probe_path dir pid seq).
  destruct (has_nul path); [intros [= <- <- <-]; split; [constructor; eauto|done]|].
  destruct (fs_open s path _ _) as [s1 [fd|e]] eqn:Hopen.
  2: { intros [= <- <- <-]. destruct (open_failed _ _ _ _ _ _ Hopen) as [Hn Hd].
       split; [|done]. constructor; eauto; intros *; by rewrite ?Hn, ?Hd. }
  apply open_exclusive in Hopen as (Hfree & i & Hnew & Hpath & Hq); [|by left|by right; left|].
  2: by rewrite !not_elem_of_cons; split_and!; try apply not_elem_of_nil. pose proof Hnew as [Hf Ho He Hothers].
  destruct (seeded s1 fd pattern) as [s2 r2] eqn:Hseed.
  destruct (seeded_spec _ _ _ _ _ _ _ Hnew Hseed) as (Hn2 & Hd2 & Hr2).
  assert (Hfiles : forall j d, fs_data s j = Some d -> fs_data s2 j = Some d).
  { intros j d Hj. assert (j <> i) by congruence. by rewrite Hd2, Hothers. }
  destruct r2 as [[]|e].
  2: { intros [= <- <- <-]. split; [|done]. constructor; try done.
       - intros q Hne. rewrite Hn2. by apply Hq.
       - intros j Hj. congruence.
       - right. destruct (Hr2 path Hpath) as [k Hk]. exists i, k. by rewrite Hn2. }
  destruct Hr2 as [Hin Hdat]. destruct (fs_unlink s2 path) as [s3 [[]|e]] eqn:Hun;
    intros [= <- <- <-]; (split; [|done]).
  - destruct (unlink_ok _ _ _ Hun) as (Hgone & Hn3 & Hin3 & Hd3).
    assert (Hp2 : fs_name s2 path = Some i) by by rewrite Hn2.
    constructor.
    + intros q Hne. rewrite Hn3, Hn2 by done. by apply Hq.
    + intros j d Hj. rewrite (Hd3 fd); [by apply Hfiles|]. right. congruence.
    + intros j Hj. congruence.
    + exists i. rewrite Hin3, (Hd3 fd) by (by left). split_and!; try done. left. intros q.
      destruct (decide (q = path)) as [->|Hne]; [by rewrite Hgone|].
      rewrite Hn3, Hn2 by done. by apply Hq.
  - destruct (unlink_failed _ _ _ _ Hun) as (Hn3 & Hin3 & Hd3). constructor.
    + intros q Hne. rewrite Hn3, Hn2. by apply Hq.
    + intros j d Hj. rewrite Hd3. by apply Hfiles.
    + intros j Hj. congruence.
    + exists i. rewrite Hin3, Hd3. split_and!; try done. right. by exists s2, e.
Qed.

(** [C34] Opening the probe file is safe in a shared temporary directory. On every branch no
    file that existed is changed and no name that existed is removed, replaced or followed;
    no name but the call's own path changes. A success gives a descriptor of a file that
    did not exist before and holds exactly the pattern, and no name leads to it unless the
    unlinking was refused; a failure leaves every name as it was, except that an exclusively
    created file whose writing failed keeps its name. *)
Theorem probe_file_private s seq dir pid pattern s' seq' r :
  open_probe_file s seq dir pid pattern = (s', seq', r) ->
  probe_opened s s' (probe_path dir pid seq) pattern r.
Proof.
  unfold open_probe_file. destruct (has_nul dir); [intros [= <- _ <-]; constructor; eauto|].
  destruct (fs_open s dir _ _) as [s1 [fd|e]] eqn:Hopen.
  - apply open_tmpfile in Hopen as (i & Hnew & Hq); [|by left].
    pose proof Hnew as [Hf Ho He Hothers].
    destruct (seeded s1 fd pattern) as [s2 r2] eqn:Hseed.
    destruct (seeded_spec _ _ _ _ _ _ _ Hnew Hseed) as (Hn2 & Hd2 & Hr2).
    assert (Hnames : forall q, fs_name s2 q = fs_name s q) by (intros q; rewrite Hn2; apply Hq).
    assert (Hfiles : forall j d, fs_data s j = Some d -> fs_data s2 j = Some d).
    { intros j d Hj. assert (j <> i) by congruence. by rewrite Hd2, Hothers. }
    destruct r2 as [[]|e]; intros [= <- _ <-]; constructor; try done;
      try (by intros; rewrite Hnames); [|by left].
    destruct Hr2 as [Hin Hdat]. exists i. split_and!; try done. left. intros q. rewrite Hn2. apply Hq.
  - destruct (open_failed _ _ _ _ _ _ Hopen) as [Hn Hd]. intros Hx.
    apply open_exclusive_spec in Hx as [[Hnm Hfl Htk Hres] _].
    constructor; [intros q Hne; by rewrite Hnm, Hn | intros j d; rewrite <-Hd; apply Hfl
      | intros i; rewrite <-Hn; apply Htk |].
    destruct r as [fd|e'].
    + destruct Hres as (i & Hi & ?). exists i. by rewrite <-Hd.
    + destruct Hres as [Hall|(i & k & Hi & ?)]; [left; intros q; by rewrite Hall, Hn|].
      right. exists i, k. by rewrite <-Hd.
Qed.
End Lemmas.

(** The calls of a process use paths of their own. *)
Lemma probe_path_inj dir pid n m : probe_path dir pid n = probe_path dir pid m -> n = m.
Proof. unfold probe_path, join. case_match; intros Heq; by repeat apply (inj _) in Heq. Qed.

(** ** A file system *)

(** Names, contents and descriptors; [mf_tmpfile] says whether it supports
    [O_TMPFILE], [mf_room] how much a write can store. *)
Record mem_fs := mkMemFs {
  mf_names : gmap string Z;
  mf_data : gmap Z (list Byte.byte);
  mf_fds : gmap Z Z;
  mf_tmpfile : bool;
  mf_room : nat
}.

Definition EEXIST : Z := 17.
Definition ENOSPC : Z := 28.

(** An inode no name and no content belongs to. *)
Definition mf_fresh (s : mem_fs) : Z := fresh (dom (mf_data s) ∪ map_img (SA := gset Z) (mf_names s)).

Definition mf_create (s : mem_fs) (names : Z -> gmap string Z) : mem_fs * io_result Z :=
  let i := mf_fresh s in
  let fd := fresh (dom (mf_fds s)) in
  (mkMemFs (names i) (<[i := []]> (mf_data s)) (<[fd := i]> (mf_fds s)) (mf_tmpfile s) (mf_room s),
   Ok fd).

Definition mf_open (s : mem_fs) (p : string) (fl : list open_flag) : mem_fs * io_result Z :=
  if bool_decide (O_TMPFILE ∈ fl) then
    if mf_tmpfile s then mf_create s (fun _ => mf_names s) else (s, Err (Os EOPNOTSUPP))
  else match mf_names s !! p with
       | Some _ => (s, Err (Os EEXIST))
       | None => mf_create s (fun i => <[p := i]> (mf_names s))
       end.

Definition mf_write (s : mem_fs) (fd : Z) (b : list Byte.byte) : mem_fs * io_result unit :=
  match mf_fds s !! fd with
  | None => (s, Err (Os EINVAL))
  | Some i =>
      let old := default [] (mf_data s !! i) in
      let stored := take (mf_room s) b in
      (mkMemFs (mf_names s) (<[i := old ++ stored]> (mf_data s)) (mf_fds s) (mf_tmpfile s) (mf_room s),
       if (length b <=? mf_room s)%nat then Ok tt else Err (Os ENOSPC))
  end.

Definition mf_unlink (s : mem_fs) (p : string) : mem_fs * io_result unit :=
  match mf_names s !! p with
  | None => (s, Err (Os ENOENT))
  | Some _ => (mkMemFs (delete p (mf_names s)) (mf_data s) (mf_fds s) (mf_tmpfile s) (mf_room s), Ok tt)
  end.

#[export] Instance mem_fs_calls : FileSystem mem_fs := {|
  fs_open s p fl _ := mf_open s p fl;
  fs_write_all := mf_write;
  fs_unlink := mf_unlink;
  fs_close s fd := mkMemFs (mf_names s) (mf_data s) (delete fd (mf_fds s)) (mf_tmpfile s) (mf_room s);
  fs_name s p := mf_names s !! p;
  fs_inode s fd := mf_fds s !! fd;
  fs_data s i := mf_data s !! i
|}.

Lemma mf_fresh_spec s : mf_data s !! mf_fresh s = None /\ forall q, mf_names s !! q <> Some (mf_fresh s).
Proof.
  pose proof (is_fresh (dom (mf_data s) ∪ map_img (SA := gset Z) (mf_names s))) as Hf.
  fold (mf_fresh s) in Hf. apply not_elem_of_union in Hf as [Hd Hn].
  split; [by apply not_elem_of_dom|]. by rewrite not_elem_of_map_img in Hn.
Qed.

Lemma mf_create_spec s names s' fd :
  mf_create s names = (s', Ok fd) ->
  new_file s s' fd (mf_fresh s) /\ mf_names s' = names (mf_fresh s).
Proof.
  intros [= <- <-]. destruct (mf_fresh_spec s) as [Hd _]. split; [|done].
  constructor; simpl; [done | apply lookup_insert_eq | apply lookup_insert_eq |].
  intros j Hj. by apply lookup_insert_ne.
Qed.

#[export] Instance mem_fs_laws : FileSystemLaws mem_fs.
Proof.
  constructor; simpl.
  - intros s dir fl _ s' fd Hfl. unfold mf_open. rewrite bool_decide_eq_true_2 by done.
    destruct (mf_tmpfile s); [|done]. intros [Hn Hnames]%mf_create_spec. exists (mf_fresh s).
    split; [done|]. intros q. rewrite Hnames. split; [done|]. apply mf_fresh_spec.
  - intros s p fl _ s' fd _ _ Hfl. unfold mf_open. rewrite bool_decide_eq_false_2 by done.
    destruct (mf_names s !! p) as [i|] eqn:Hp; [done|]. intros [Hn Hnames]%mf_create_spec.
    split; [done|]. exists (mf_fresh s). rewrite Hnames, lookup_insert_eq. split_and!; try done.
    intros q Hq. rewrite lookup_insert_ne by done. split; [done|]. apply mf_fresh_spec.
  - intros s p fl _ s' e. unfold mf_open, mf_create. repeat case_match; by intros [= <- _].
  - intros s fd b i s' r. unfold mf_write. intros Hw Hfd Hd. rewrite Hfd, Hd in Hw. simpl in Hw.
    injection Hw as <- <-. simpl. rewrite lookup_insert_eq. split_and!; try done.
    + intros j Hj. by apply lookup_insert_ne.
    + destruct (Nat.leb_spec (length b) (mf_room s)); [by rewrite take_ge|by exists (mf_room s)].
  - intros s p s'. unfold mf_unlink. destruct (mf_names s !! p); [|done]. intros [= <-]. simpl.
    rewrite lookup_delete_eq. split_and!; try done. intros q Hq. by apply lookup_delete_ne.
  - intros s p s' e. unfold mf_unlink. destruct (mf_names s !! p); [done|]. by intros [= <-].
  - done.
Qed.

(** ** Witnesses *)

(** A directory where the path of the next probe is already a name of another
    file, on a file system without [O_TMPFILE]. *)
Definition demo_fs (tmpfile : bool) (room : nat) : mem_fs :=
  mkMemFs {["/tmp/uring-spike-probe-7-0" := 1]} {[1 := [Byte.xff]]} ∅ tmpfile room.

Lemma probe_file_private_witness :
  let r := open_probe_file (demo_fs false 512) 1 "/tmp" 7 probe_pattern in
  r.2 = Ok 0 /\
  probe_opened (demo_fs false 512) r.1.1 "/tmp/uring-spike-probe-7-1" probe_pattern (Ok 0).
Proof.
  split; [vm_compute; reflexivity|].
  apply (probe_file_private (demo_fs false 512) 1 "/tmp" 7 probe_pattern _
    (open_probe_file (demo_fs false 512) 1 "/tmp" 7 probe_pattern).1.2).
  vm_compute. reflexivity.
Defined.

(** A planted name is refused, not followed or truncated. *)
Example planted_name_refused :
  open_probe_file (demo_fs false 512) 0 "/tmp" 7 probe_pattern =
    (demo_fs false 512, 1, Err (Os EEXIST)).
Proof. vm_compute. reflexivity. Qed.

(** An exclusively created file whose writing fails is left behind, with its name. *)
Example leftover_after_failed_write :
  let r := open_probe_file (demo_fs false 3) 1 "/tmp" 7 probe_pattern in
  r.2 = Err (Os ENOSPC) /\
  exists i, fs_name r.1.1 "/tmp/uring-spike-probe-7-1" = Some i /\
    fs_data r.1.1 i = Some (take 3 probe_pattern).
Proof. vm_compute. split; [reflexivity|]. eexists. split; reflexivity. Qed.
