(* ===== verification/Client.v ===== *)
(** * The driver's callers

    [UringDriver] and [ReadHandle] of [src/src/driver.rs]: validation and
    submission of reads, shard selection, batches, the polling and dropping of
    handles, shutdown requests and the sum of the statistics. Each function is
    one call of a caller's thread; a Rust panic is [None]. *)

From S2P Require Import Prelude IoError Geometry Interfaces Instances SharedBudget.
From S2P Require Import Pending World SubmitRing Admission Startup.

(** What callers see of a shard: its count semaphore, its message queue while
    the thread has not dropped the receiver, the signals sent to its wake fd,
    its counters, and whether its join handle was not taken yet. *)
Record Shard (Sm : Type) := mkShard {
  sh_sem : Sm;
  sh_queue : list Msg;
  sh_alive : bool;
  sh_wakes : Z;
  sh_stats : Stats;
  sh_iowq : IoWqSetup;
  sh_handle : bool
}.
Arguments mkShard {_}.
Arguments sh_sem {_}.
Arguments sh_queue {_}.
Arguments sh_alive {_}.
Arguments sh_wakes {_}.
Arguments sh_stats {_}.
Arguments sh_iowq {_}.
Arguments sh_handle {_}.

(** [ByteAdmission]: semaphore, registry and the driver's reservation. *)
Record ByteAdmission (Sm : Type) := mkByteAdmission {
  ba_bytes : Sm;
  ba_registry : Registry;
  ba_shared : option Z
}.
Arguments mkByteAdmission {_}.
Arguments ba_bytes {_}.
Arguments ba_registry {_}.
Arguments ba_shared {_}.

(** [UringDriver], with the channels of its reads and the shared pool. *)
Record Client (Sm Ch : Type) := mkClient {
  cl_limits : ReadLimits;
  cl_policy : ShardPolicy;
  cl_admission : option (ByteAdmission Sm);
  cl_shards : list (Shard Sm);
  cl_next_id : Z;
  cl_rr : Z;
  cl_chan : Ch;
  cl_pool : Pool
}.
Arguments mkClient {_ _}.
Arguments cl_limits {_ _}.
Arguments cl_policy {_ _}.
Arguments cl_admission {_ _}.
Arguments cl_shards {_ _}.
Arguments cl_next_id {_ _}.
Arguments cl_rr {_ _}.
Arguments cl_chan {_ _}.
Arguments cl_pool {_ _}.

(** [MAX_BATCH_READS] and [ReadRequest]. *)
Definition MAX_BATCH_READS : Z := 64.

Record ReadRequest := mkRequest { rq_file : File; rq_offset : Z; rq_len : Z }.

Definition shut_down_error : IoError := other "uring driver shut down".

Definition invalid (msg : string) : IoError := Custom InvalidInput msg.

Section Client.
Context {Sm Ch : Type} `{Semaphore Sm} `{Oneshot Ch} `{Target}.
Implicit Types c : Client Sm Ch.

(** [HandleState]; the wake fd is the owning shard's. *)
Inductive HandleState :=
| Inert
| WaitingPermit (acquire : AcquireFut (Sm := Sm)) (f : File) (off len align_ done_ : Z)
| Submitted.

(** [ReadHandle], with the index of the shard whose [tx] it holds. *)
Record ReadHandle := mkHandle {
  rh_id : Z;
  rh_shard : nat;
  rh_finished : bool;
  rh_cancel_on_drop : bool;
  rh_state : HandleState
}.

(** [without_cancel_on_drop]. *)
Definition without_cancel_on_drop (h : ReadHandle) : ReadHandle :=
  mkHandle (rh_id h) (rh_shard h) (rh_finished h) false (rh_state h).

(** ** Field updates *)

Definition set_shards c (l : list (Shard Sm)) : Client Sm Ch :=
  mkClient (cl_limits c) (cl_policy c) (cl_admission c) l (cl_next_id c) (cl_rr c)
    (cl_chan c) (cl_pool c).

Definition set_chan c (o : Ch) : Client Sm Ch :=
  mkClient (cl_limits c) (cl_policy c) (cl_admission c) (cl_shards c) (cl_next_id c) (cl_rr c)
    o (cl_pool c).

Definition set_pool c (p : Pool) : Client Sm Ch :=
  mkClient (cl_limits c) (cl_policy c) (cl_admission c) (cl_shards c) (cl_next_id c) (cl_rr c)
    (cl_chan c) p.

Definition set_admission c (a : option (ByteAdmission Sm)) : Client Sm Ch :=
  mkClient (cl_limits c) (cl_policy c) a (cl_shards c) (cl_next_id c) (cl_rr c)
    (cl_chan c) (cl_pool c).

Definition set_cursors c (next rr : Z) : Client Sm Ch :=
  mkClient (cl_limits c) (cl_policy c) (cl_admission c) (cl_shards c) next rr
    (cl_chan c) (cl_pool c).

(** [with_shard_policy]. *)
Definition with_shard_policy c (p : ShardPolicy) : Client Sm Ch :=
  mkClient (cl_limits c) p (cl_admission c) (cl_shards c) (cl_next_id c) (cl_rr c)
    (cl_chan c) (cl_pool c).

Definition cl_bytes c : option Sm := ba_bytes <$> cl_admission c.

Definition set_bytes c (b : option Sm) : Client Sm Ch :=
  set_admission c
    (match cl_admission c, b with
     | Some a, Some b => Some (mkByteAdmission b (ba_registry a) (ba_shared a))
     | a, _ => a
     end).

Definition upd_shard (c : Client Sm Ch) (i : nat) (g : Shard Sm -> Shard Sm) : Client Sm Ch :=
  set_shards c (alter g i (cl_shards c)).

Definition shard_sem (s : Sm) (h : Shard Sm) : Shard Sm :=
  mkShard s (sh_queue h) (sh_alive h) (sh_wakes h) (sh_stats h) (sh_iowq h) (sh_handle h).

(** [wake_efd.signal()]. *)
Definition shard_signal (h : Shard Sm) : Shard Sm :=
  mkShard (sh_sem h) (sh_queue h) (sh_alive h) (sh_wakes h + 1) (sh_stats h) (sh_iowq h)
    (sh_handle h).

(** [tx.send(msg)]: lost when the receiver is gone. *)
Definition shard_send (m : Msg) (h : Shard Sm) : Shard Sm :=
  if sh_alive h
  then mkShard (sh_sem h) (sh_queue h ++ [m]) true (sh_wakes h) (sh_stats h) (sh_iowq h)
         (sh_handle h)
  else h.

(** ** Shard selection *)

(** The scan of [select_read_shard]: each shard's count permit is tried once;
    [waiting] is the first full one. *)
Fixpoint scan_shards (order : list nat) (shards : list (Shard Sm)) (bytes : option Sm)
    (charge : Z) (waiting : option nat) :
    list (Shard Sm) * option Sm * option (nat * (ReadPermits + try_error)) * option nat :=
  match order with
  | [] => (shards, bytes, None, waiting)
  | i :: rest =>
      match shards !! i with
      | None => scan_shards rest shards bytes charge waiting
      | Some sh =>
          match sem_try_acquire (sh_sem sh) 1 with
          | (s', None) =>
              match bytes with
              | None => (alter (shard_sem s') i shards, None,
                         Some (i, inl (mkPermits None None)), waiting)
              | Some b =>
                  match sem_try_acquire b charge with
                  | (b', None) => (alter (shard_sem s') i shards, Some b',
                                   Some (i, inl (mkPermits (Some charge) None)), waiting)
                  | (b', Some e) => (alter (shard_sem (sem_release s' 1)) i shards, Some b',
                                     Some (i, inr e), waiting)
                  end
              end
          | (s', Some NoPermits) =>
              scan_shards rest (alter (shard_sem s') i shards) bytes charge
                (match waiting with Some j => Some j | None => Some i end)
          | (s', Some Closed) => scan_shards rest (alter (shard_sem s') i shards) bytes charge waiting
          end
      end
  end.

Definition bytes_closed (b : option Sm) : bool :=
  match b with Some b => sem_is_closed b | None => false end.

(** [select_read_shard]: the shard and its permits or error. *)
Definition select_read_shard c (start : nat) (charge : Z) (capacity_aware : bool) :
    option (Client Sm Ch * nat * (ReadPermits + try_error)) :=
  first ← cl_shards c !! start;
  if negb capacity_aware then
    let '(s', b', r) := try_read_permits (sh_sem first) (cl_bytes c) charge in
    Some (set_bytes (upd_shard c start (shard_sem s')) b', start, r)
  else if bytes_closed (cl_bytes c) then Some (c, start, inr Closed)
  else
    let n := length (cl_shards c) in
    let order := seq start (n - start) ++ seq 0 start in
    let '(shards', b', found, waiting) :=
      scan_shards order (cl_shards c) (cl_bytes c) charge None in
    let c' := set_bytes (set_shards c shards') b' in
    match found with
    | Some (i, r) => Some (c', i, r)
    | None =>
        if bytes_closed (cl_bytes c')
        then Some (c', start, inr Closed)
        else match waiting with
             | Some i => Some (c', i, inr NoPermits)
             | None => Some (c', start, inr Closed)
             end
    end.

(** ** Submission *)

(** A handle that resolves to an error without anything sent to a driver. *)
Definition reject c (id : Z) (start : nat) (e : IoError) : Client Sm Ch * ReadHandle :=
  (set_chan c (os_send (cl_chan c) id (Err e)).1, mkHandle id start false false Inert).

(** The checks of [submit], in its order: the request's allocation in bytes, or
    its error. *)
Definition check_request (limits : ReadLimits) (off len al : Z) (allow_current : bool) :
    Z + IoError :=
  if negb allow_current && (off =? CURRENT_POSITION)
  then inr (invalid "offset u64::MAX is reserved for read_current")
  else if negb (off =? CURRENT_POSITION) && (i64_max <? off)
  then inr (invalid "offset exceeds i64::MAX (kernel loff_t is signed)")
  else if (MAX_READ_LEN <? len) ||
          match max_read_len limits with Some m => m <? len | None => false end
  then inr (invalid "read length exceeds MAX_RW_COUNT or configured logical read limit; caller must chunk")
  else
    match
      match aligned_geometry off len al with
      | Some (ko, _, rl) =>
          if (rl <=? MAX_READ_LEN) &&
             ((allow_current && (off =? CURRENT_POSITION)) ||
              match checked_add u64_max ko rl with Some e => e <=? i64_max | None => false end)
          then Some (allocation_len rl al) else None
      | None => None
      end
    with
    | None => inr (invalid "alignment must be a power of two, and the block-aligned range must fit MAX_RW_COUNT and end within i64::MAX")
    | Some bytes =>
        if match max_in_flight_bytes limits with Some m => m <? bytes | None => false end
        then inr (invalid "aligned allocation exceeds byte budget")
        else inl bytes
    end.

(** The reservation every read of the driver keeps a clone of. *)
Definition shared_of c : option Z := a ← cl_admission c; ba_shared a.

Definition clone_shared (p : Pool) (r : option Z) : Pool :=
  match r with Some r => arc_clone p r | None => p end.

Definition drop_shared (p : Pool) (r : option Z) : Pool :=
  match r with Some r => arc_drop p r | None => p end.

Definition with_shared (pm : ReadPermits) (r : option Z) : ReadPermits :=
  mkPermits (permit_bytes pm) r.

(** Dropping permits back to shard [i] and the driver. *)
Definition return_permits c (i : nat) (pm : ReadPermits) : Client Sm Ch :=
  let c := upd_shard c i (fun h => shard_sem (sem_release (sh_sem h) 1) h) in
  let c := set_bytes c
    (match permit_bytes pm with
     | Some n => (fun b => sem_release b n) <$> cl_bytes c
     | None => cl_bytes c
     end) in
  set_pool c (drop_shared (cl_pool c) (permit_shared pm)).

(** Sending a read to shard [i]: whether its thread is there to take it. *)
Definition send_read c (i : nat) (id : Z) (f : File) (off len done_ : Z) (pm : ReadPermits)
    (al : Z) : Client Sm Ch * bool :=
  if match cl_shards c !! i with Some h => sh_alive h | None => false end
  then (upd_shard c i (shard_send (MsgRead id f off len done_ pm al)), true)
  else (c, false).

(** The part of [submit] after the shard is selected. *)
Definition dispatch c (id : Z) (i : nat) (res : ReadPermits + try_error) (f : File)
    (off len al charge : Z) (notify : bool) : Client Sm Ch * ReadHandle :=
  match res with
  | inl pm =>
      let pm := with_shared pm (shared_of c) in
      let c := set_pool c (clone_shared (cl_pool c) (shared_of c)) in
      let '(c', ok) := send_read c i id f off len id pm al in
      if ok then
        (if notify then upd_shard c' i shard_signal else c',
         mkHandle id i false true Submitted)
      else
        let '(c', h) := reject c' id i shut_down_error in
        (return_permits c' i pm, h)
  | inr NoPermits =>
      (set_pool c (clone_shared (cl_pool c) (shared_of c)),
       mkHandle id i false true
         (WaitingPermit (acquire_read_permits charge (shared_of c)) f off len al id))
  | inr Closed => reject c id i shut_down_error
  end.

(** [submit]: [None] when the operation counter has reached the cancel bit. *)
Definition submit c (f : File) (off len al : Z) (allow_current notify : bool) :
    option (Client Sm Ch * ReadHandle) :=
  let id := cl_next_id c in
  if negb (Z.land id CANCEL_BIT =? 0) then None
  else
    let start := Z.to_nat (cl_rr c mod zlen (cl_shards c)) in
    let c := set_cursors (set_chan c (os_channel (cl_chan c) id))
               (wrap u64_max (cl_next_id c + 1)) (wrap usize_max (cl_rr c + 1)) in
    let capacity_aware := bool_decide (cl_policy c = CapacityAware) && negb allow_current in
    match check_request (cl_limits c) off len al allow_current with
    | inr e => Some (reject c id start e)
    | inl bytes =>
        let charge := wrap u32_max bytes in
        '(c, i, res) ← select_read_shard c start charge capacity_aware;
        Some (dispatch c id i res f off len al charge notify)
    end.

(** [read_at], [read_current] and [read_at_direct]. *)
Definition read_at c (f : File) (off len : Z) := submit c f off len 1 false true.

Definition read_current c (f : File) (len : Z) := submit c f CURRENT_POSITION len 1 true true.

Definition read_at_direct c (f : File) (off len al : Z) := submit c f off len al false true.

(** The submissions of [read_at_batch], with the shards to wake. *)
Fixpoint submit_batch c (rs : list ReadRequest) (handles : list ReadHandle) (wakes : list nat) :
    option (Client Sm Ch * list ReadHandle * list nat) :=
  match rs with
  | [] => Some (c, handles, wakes)
  | r :: rs =>
      '(c', h) ← submit c (rq_file r) (rq_offset r) (rq_len r) 1 false false;
      submit_batch c' rs (handles ++ [h])
        (match rh_state h with
         | Submitted => if bool_decide (rh_shard h ∈ wakes) then wakes else wakes ++ [rh_shard h]
         | _ => wakes
         end)
  end.

(** [read_at_batch]. *)
Definition read_at_batch c (rs : list ReadRequest) :
    option (Client Sm Ch * io_result (list ReadHandle)) :=
  if MAX_BATCH_READS <? zlen rs
  then Some (c, Err (invalid "read batch exceeds MAX_BATCH_READS"))
  else
    '(c', handles, wakes) ← submit_batch c rs [] [];
    Some (fold_left (fun c i => upd_shard c i shard_signal) wakes c', Ok handles).

(** ** Polling and dropping a handle *)

Definition set_state (h : ReadHandle) (st : HandleState) : ReadHandle :=
  mkHandle (rh_id h) (rh_shard h) (rh_finished h) (rh_cancel_on_drop h) st.

Definition set_finished (h : ReadHandle) : ReadHandle :=
  mkHandle (rh_id h) (rh_shard h) true (rh_cancel_on_drop h) (rh_state h).

(** The end of [poll]: the result channel. *)
Definition poll_rx c (h : ReadHandle) : Client Sm Ch * ReadHandle * option read_result :=
  match os_rx (cl_chan c) (rh_id h) with
  | RxEmpty => (c, h, None)
  | RxValue v => (c, set_finished h, Some v)
  | RxSenderDropped =>
      (c, set_finished h, Some (Err (other "uring driver shut down before completion")))
  end.

(** [poll]; [None] is [Poll::Pending]. *)
Definition poll c (h : ReadHandle) : Client Sm Ch * ReadHandle * option read_result :=
  match rh_state h with
  | WaitingPermit acquire f off len al done_ =>
      match cl_shards c !! rh_shard h with
      | None => (c, h, None)
      | Some sh =>
          let '(s', b', acquire', res) := poll_acquire (sh_sem sh) (cl_bytes c) acquire in
          let c := set_bytes (upd_shard c (rh_shard h) (shard_sem s')) b' in
          match res with
          | PermitsPending => (c, set_state h (WaitingPermit acquire' f off len al done_), None)
          | PermitsClosed =>
              (set_pool c (drop_shared (cl_pool c) (acquire_shared acquire)),
               set_finished (set_state h (WaitingPermit acquire' f off len al done_)),
               Some (Err shut_down_error))
          | PermitsReady pm =>
              let '(c', ok) := send_read c (rh_shard h) (rh_id h) f off len done_ pm al in
              let h := set_state h Submitted in
              if ok then poll_rx (upd_shard c' (rh_shard h) shard_signal) h
              else
                (return_permits (set_chan c' (os_drop_tx (cl_chan c') done_)) (rh_shard h) pm,
                 set_finished h, Some (Err shut_down_error))
          end
      end
  | _ => poll_rx c h
  end.

(** Dropping the fields of a handle: its receiver, and in the waiting state the
    acquire future and the sender. *)
Definition drop_fields c (h : ReadHandle) : Client Sm Ch :=
  let c := set_chan c (os_close (cl_chan c) (rh_id h)) in
  match rh_state h with
  | WaitingPermit acquire f off len al done_ =>
      match cl_shards c !! rh_shard h with
      | None => c
      | Some sh =>
          let '(s', b') := drop_acquire (sh_sem sh) (cl_bytes c) acquire in
          let c := set_bytes (upd_shard c (rh_shard h) (shard_sem s')) b' in
          let c := set_pool c (drop_shared (cl_pool c) (acquire_shared acquire)) in
          set_chan c (os_drop_tx (cl_chan c) done_)
      end
  | _ => c
  end.

(** [Drop for ReadHandle]: a submitted, unfinished read is cancelled, its
    receiver closed before the cancel is sent. *)
Definition drop_handle c (h : ReadHandle) : Client Sm Ch :=
  let c :=
    match rh_state h with
    | Submitted =>
        if negb (rh_finished h) && rh_cancel_on_drop h then
          let c := set_chan c (os_close (cl_chan c) (rh_id h)) in
          upd_shard (upd_shard c (rh_shard h) (shard_send (MsgCancel (rh_id h))))
            (rh_shard h) shard_signal
        else c
    | _ => c
    end in
  drop_fields c h.

(** ** Shutdown and statistics *)

(** [ByteAdmission::close]: the registered count semaphores are this driver's. *)
Definition close_admission c : Client Sm Ch :=
  match cl_admission c with
  | None => c
  | Some a =>
      let '(reg, counts) := close_locked (ba_registry a) in
      let c := set_admission c (Some (mkByteAdmission (sem_close (ba_bytes a)) reg (ba_shared a))) in
      fold_left (fun c i => upd_shard c i (fun h => shard_sem (sem_close (sh_sem h)) h)) counts c
  end.

(** [request_shutdown]. *)
Definition request_shutdown c : Client Sm Ch :=
  let c := close_admission c in
  let c := set_shards c ((fun h => shard_sem (sem_close (sh_sem h)) h) <$> cl_shards c) in
  set_shards c ((fun h => shard_signal (shard_send MsgShutdown h)) <$> cl_shards c).

(** [stats]: the counters of every shard, summed. *)
Definition add_stats (a b : Stats) : Stats :=
  mkStats (wadd (submitted a) (submitted b)) (wadd (delivered a) (delivered b))
    (wadd (orphan_reclaimed a) (orphan_reclaimed b)) (wadd (in_flight a) (in_flight b))
    (wadd (cancel_succeeded a) (cancel_succeeded b))
    (wadd (cancel_not_found a) (cancel_not_found b))
    (wadd (cancel_already a) (cancel_already b)) (wadd (cq_overflows a) (cq_overflows b))
    (wadd (submit_errors a) (submit_errors b)).

Definition stats c : Stats :=
  fold_left (fun acc h => add_stats acc (sh_stats h)) (cl_shards c) default_stats.

(** [shard_iowq_setup]. *)
Definition shard_iowq_setup c : list IoWqSetup := sh_iowq <$> cl_shards c.

(** [Shard::join], once its thread has ended with the given counters. *)
Definition join_shard (st : Stats) (h : Shard Sm) : Shard Sm :=
  if sh_handle h then
    let h := shard_signal (shard_send MsgShutdown h) in
    mkShard (sh_sem h) [] false (sh_wakes h) st (sh_iowq h) false
  else h.

(** [is_finished], for threads that report to have finished. *)
Definition is_finished c (thread_finished : nat -> bool) : bool :=
  forallb (fun '(i, h) => negb (sh_handle h) || thread_finished i)
    (imap (fun i h => (i, h)) (cl_shards c)).

(** [shutdown]: request, join every shard, sum the counters. *)
Definition shutdown c (final : nat -> Stats) : Client Sm Ch * Stats :=
  let c := request_shutdown c in
  let c := set_shards c (imap (fun i h => join_shard (final i) h) (cl_shards c)) in
  (c, stats c).
End Client.
Arguments ReadHandle Sm {_}.
Arguments HandleState Sm {_}.
