(* ===== verification/Requests.v ===== *)
(** * What a caller's request becomes

    The validation of [submit], the choice of a shard, and the behaviour of
    batches, over the model of [Client.v]. *)

From S2P Require Import Prelude IoError Geometry Interfaces Instances SharedBudget.
From S2P Require Import Pending World SubmitRing Driver Ownership System Safety Admission.
From S2P Require Import Startup Client.

(** The requests the driver accepts: a position it can read at, a length
    within the limits, an alignment and a range the kernel takes, and an
    allocation within the byte limit. *)
Record acceptable `{Target} (limits : ReadLimits) (off len al : Z) (allow_current : bool) : Prop := {
  rq_ok : request_ok off len al;
  rq_current : off = CURRENT_POSITION -> allow_current = true;
  rq_cap : len <= MAX_READ_LEN;
  rq_limit : forall m, max_read_len limits = Some m -> len <= m;
  rq_budget : forall m, max_in_flight_bytes limits = Some m -> charge_of off len al <= m
}.

Section Requests.
Context {Sm Ch : Type} `{SemaphoreLaws Sm} `{OneshotLaws Ch} `{Target}.
Implicit Types c : Client Sm Ch.

Lemma check_request_inr limits off len al allow e :
  check_request limits off len al allow = inr e -> exists m, e = Custom InvalidInput m.
Proof. unfold check_request, invalid. repeat case_match; intros [= <-]; eauto. Qed.

(** A range that fits makes a valid request. *)
Lemma fitting_request_ok off len al allow ko hd rl :
  in_range u64_max off -> in_range usize_max len -> (allow = true -> al = 1) ->
  aligned_geometry off len al = Some (ko, hd, rl) -> rl <= MAX_READ_LEN ->
  negb (off =? CURRENT_POSITION) && (i64_max <? off) = false ->
  (allow && (off =? CURRENT_POSITION)) ||
    match checked_add u64_max ko rl with Some e => e <=? i64_max | None => false end = true ->
  request_ok off len al.
Proof.
  intros Ho Hl Hal Hg Hrl Hoff Hend. split; [done|]. split; [done|].
  exists ko, hd, rl. split; [done|]. split; [done|].
  destruct (Z.eqb_spec off CURRENT_POSITION) as [He|He].
  - destruct allow; [left; auto|]. right. simpl in Hend. subst off.
    destruct (aligned_geometry_covers _ _ _ _ Ho Hl Hg) as [[] _]. simpl in *.
    unfold checked_add in Hend. destruct (ko + rl <=? u64_max) eqn:E; [|done]. bools.
    pose proof (valid_align_pos _ (aligned_geometry_valid _ _ _ _ Hg)).
    unfold in_range, MAX_READ_LEN, i64_max, CURRENT_POSITION, u64_max in *. lia.
  - right. rewrite andb_false_r in Hend. simpl in Hend, Hoff. apply Z.ltb_ge in Hoff.
    unfold checked_add in Hend. destruct (ko + rl <=? u64_max); [|done]. bools. lia.
Qed.

Lemma check_request_spec limits off len al allow :
  in_range u64_max off -> in_range usize_max len -> (allow = true -> al = 1) ->
  match check_request limits off len al allow with
  | inl bytes => acceptable limits off len al allow /\ bytes = charge_of off len al
  | inr _ => ~ acceptable limits off len al allow
  end.
Proof.
  intros Ho Hl Hal. unfold check_request.
  destruct (negb allow && _) eqn:Hcur.
  { bools. intros [_ Hc _ _ _]. rewrite Hc in *; done. }
  destruct (negb (off =? CURRENT_POSITION) && _) eqn:Hoff.
  { bools. intros [(_ & _ & ko & hd & rl & Hg & _ & [[? _]|[? _]]) _ _ _ _]; [done|lia]. }
  destruct ((MAX_READ_LEN <? len) || _) eqn:Hcap.
  { bools. intros [_ _ Hc Hm _]. destruct Hcap as [?|Hcap]; bools; [lia|].
    destruct (max_read_len limits) as [m|]; [|done]. bools. specialize (Hm m eq_refl). lia. }
  destruct (aligned_geometry off len al) as [[[ko hd] rl]|] eqn:Hg.
  2: { intros [(_ & _ & ko & hd & rl & Hg' & _) _ _ _ _]. congruence. }
  assert (Hcharge : charge_of off len al = allocation_len rl al) by (unfold charge_of; by rewrite Hg).
  destruct (aligned_geometry_covers _ _ _ _ Ho Hl Hg) as [[] _]. simpl in *.
  pose proof (aligned_geometry_valid _ _ _ _ Hg) as Hv. apply valid_align_pos in Hv.
  unfold in_range in *.
  destruct ((rl <=? MAX_READ_LEN) && _) eqn:Hfit.
  - apply andb_true_iff in Hfit as [Hrl Hend]. apply Z.leb_le in Hrl.
    assert (Hok : request_ok off len al) by by eapply fitting_request_ok.
    assert (Hacc : (forall m, max_in_flight_bytes limits = Some m -> allocation_len rl al <= m) ->
      acceptable limits off len al allow).
    { intros Hm. constructor; rewrite ?Hcharge; try done.
      - intros ->. destruct allow; [done|]. by rewrite Z.eqb_refl in Hcur.
      - bools. lia.
      - intros m Hml. rewrite Hml in Hcap. bools. lia. }
    destruct (max_in_flight_bytes limits) as [m|] eqn:Hm; simpl; [|split; [by apply Hacc|done]].
    destruct (Z.ltb_spec m (allocation_len rl al)) as [Hlt|Hge].
    + intros [_ _ _ _ Hb]. specialize (Hb m Hm). lia.
    + split; [|done]. apply Hacc. by intros m' [= <-].
  - intros [(_ & _ & ko' & hd' & rl' & Hg' & Hrl & Hpos) Hc _ _ _].
    rewrite Hg in Hg'. injection Hg' as <- <- <-.
    rewrite (proj2 (Z.leb_le _ _) Hrl) in Hfit. simpl in Hfit.
    destruct Hpos as [[-> _]|[? He]].
    + by rewrite (Hc eq_refl), Z.eqb_refl in Hfit.
    + apply orb_false_iff in Hfit as [_ Hfit]. unfold checked_add in Hfit.
      rewrite (proj2 (Z.leb_le _ u64_max)) in Hfit by (unfold u64_max, i64_max in *; lia).
      bools. lia.
Qed.

(** ** The choice of a shard *)

(** A shard before and after an operation that took [taken] of its count
    permits and touched nothing else. *)
Record took (taken : Z) (h h' : Shard Sm) : Prop := {
  tk_queue : sh_queue h' = sh_queue h;
  tk_alive : sh_alive h' = sh_alive h;
  tk_free : sem_free (sh_sem h') = sem_free (sh_sem h) - taken;
  tk_closed : sem_is_closed (sh_sem h') = sem_is_closed (sh_sem h);
  tk_enough : 0 <= sem_free (sh_sem h) -> 0 <= sem_free (sh_sem h')
}.

Lemma took_refl h : took 0 h h.
Proof. constructor; (done || lia). Qed.

Lemma took_trans a b h h' h'' : took a h h' -> took b h' h'' -> took (a + b) h h''.
Proof. intros [] []. constructor; try congruence; lia. Qed.

Lemma took_sem a h s :
  sem_free s = sem_free (sh_sem h) - a -> sem_is_closed s = sem_is_closed (sh_sem h) ->
  (0 <= sem_free (sh_sem h) -> 0 <= sem_free s) -> took a h (shard_sem s h).
Proof. intros. by constructor. Qed.

(** Shard lists before and after an operation that took one permit of shard
    [i] if [ok], and otherwise nothing. *)
Definition took_one (l l' : list (Shard Sm)) (i : nat) (ok : bool) : Prop :=
  length l' = length l /\
  forall j h, l !! j = Some h ->
    exists h', l' !! j = Some h' /\ took (if ok && bool_decide (j = i) then 1 else 0) h h'.

Definition is_inl {A B : Type} (r : A + B) : bool := match r with inl _ => true | inr _ => false end.

Lemma took_one_alter (l : list (Shard Sm)) i (ok : bool) h s :
  l !! i = Some h -> took (if ok then 1 else 0) h (shard_sem s h) ->
  took_one l (alter (shard_sem s) i l) i ok.
Proof.
  intros Hi Ht. split; [apply length_alter|]. intros j h' Hj.
  destruct (decide (j = i)) as [->|Hne].
  - rewrite list_lookup_alter_eq, Hi. simplify_eq. eexists. split; [done|].
    rewrite bool_decide_eq_true_2, andb_true_r by done. done.
  - rewrite list_lookup_alter_ne by done. exists h'. split; [done|].
    rewrite bool_decide_eq_false_2, andb_false_r by done. apply took_refl.
Qed.

Lemma took_one_trans (l l' l'' : list (Shard Sm)) i j ok :
  took_one l l' i false -> took_one l' l'' j ok -> took_one l l'' j ok.
Proof.
  intros [Hl1 H1'] [Hl2 H2']. split; [congruence|]. intros k h Hk.
  destruct (H1' k h Hk) as (h' & Hk' & Ht). destruct (H2' k h' Hk') as (h'' & Hk'' & Ht').
  exists h''. split; [done|]. simpl in Ht. pose proof (took_trans _ _ _ _ _ Ht Ht') as Htt.
  by rewrite Z.add_0_l in Htt.
Qed.

Lemma try_count_spec (s s' : Sm) r :
  sem_try_acquire s 1 = (s', r) ->
  sem_is_closed s' = sem_is_closed s /\
  sem_free s' = sem_free s - (match r with None => 1 | Some _ => 0 end) /\
  (r = None -> 1 <= sem_free s).
Proof.
  intros Ht. destruct (sem_is_closed s) eqn:Hc.
  - rewrite sem_try_closed in Ht by done. injection Ht as <- <-. split_and!; done || lia.
  - destruct (sem_try_open s 1 Hc) as [(s1 & Hs & ? & ? & ? & _)|[Hs _]];
      rewrite Hs in Ht; injection Ht as <- <-; split_and!; done || lia || congruence.
Qed.

Lemma try_bytes_spec (s s' : Sm) n r :
  sem_try_acquire s n = (s', r) ->
  sem_is_closed s' = sem_is_closed s /\
  sem_free s' = sem_free s - (match r with None => n | Some _ => 0 end) /\
  (r = None -> n <= sem_free s).
Proof.
  intros Ht. destruct (sem_is_closed s) eqn:Hc.
  - rewrite sem_try_closed in Ht by done. injection Ht as <- <-. split_and!; done || lia.
  - destruct (sem_try_open s n Hc) as [(s1 & Hs & ? & ? & ? & _)|[Hs _]];
      rewrite Hs in Ht; injection Ht as <- <-; split_and!; done || lia || congruence.
Qed.

(** What a selection did to the byte semaphore and which permits it gives. *)
Definition selected (bytes bytes' : option Sm) (charge : Z) (res : ReadPermits + try_error) : Prop :=
  (bytes' = None <-> bytes = None) /\
  match res with
  | inl pm => permit_bytes pm = (_ ← bytes; Some charge) /\ permit_shared pm = None /\
      bytes_free bytes' = bytes_free bytes - default 0 (permit_bytes pm) /\
      (bytes <> None -> charge <= bytes_free bytes)
  | inr _ => bytes_free bytes' = bytes_free bytes
  end.

Lemma scan_shards_spec order (l : list (Shard Sm)) bytes charge waiting l' bytes' found waiting' :
  scan_shards order l bytes charge waiting = (l', bytes', found, waiting') ->
  match found with
  | Some (i, res) =>
      is_Some (l !! i) /\ took_one l l' i (is_inl res) /\ selected bytes bytes' charge res
  | None => took_one l l' 0 false /\ bytes' = bytes /\
      (forall w, waiting' = Some w -> waiting = Some w \/ is_Some (l !! w))
  end.
Proof.
  revert l waiting. induction order as [|i order IH]; intros l waiting; simpl.
  { intros [= <- <- <- <-]. split; [|by split; [|left]]. split; [done|]. intros j h Hj. exists h.
    split; [done|]. apply took_refl. }
  destruct (l !! i) as [h|] eqn:Hi; [|apply IH].
  destruct (sem_try_acquire (sh_sem h) 1) as [s' r] eqn:Ht.
  destruct (try_count_spec _ _ _ Ht) as (Hcl & Hfr & Hen).
  destruct r as [e|].
  { assert (Hone : took_one l (alter (shard_sem s') i l) i false)
      by (eapply took_one_alter; [done|]; simpl; apply took_sem; (done || lia)).
    assert (Hrest : forall wt, (forall w, wt = Some w -> waiting = Some w \/ w = i) ->
      scan_shards order (alter (shard_sem s') i l) bytes charge wt =
        (l', bytes', found, waiting') ->
      match found with
      | Some (j, res) =>
          is_Some (l !! j) /\ took_one l l' j (is_inl res) /\ selected bytes bytes' charge res
      | None => took_one l l' 0 false /\ bytes' = bytes /\
          (forall w, waiting' = Some w -> waiting = Some w \/ is_Some (l !! w))
      end).
    { intros wt Hwt Hs. apply IH in Hs. destruct found as [[j res]|].
      - destruct Hs as (Hj & Hto & Hsel). split_and!; [|by eapply took_one_trans|done].
        apply lookup_lt_is_Some. apply lookup_lt_is_Some in Hj. by rewrite length_alter in Hj.
      - destruct Hs as (Hto & -> & Hw). split_and!; [by eapply took_one_trans|done|].
        intros w [Hx|Hx]%Hw.
        + apply Hwt in Hx as [?| ->]; [by left | right; eauto].
        + right. apply lookup_lt_is_Some. apply lookup_lt_is_Some in Hx.
          by rewrite length_alter in Hx. }
    destruct e; apply Hrest; destruct waiting; naive_solver. }
  specialize (Hen eq_refl). destruct bytes as [b|].
  2: { intros [= <- <- <- <-]. split; [eauto|]. split; [|done].
       eapply took_one_alter; [done|]. simpl; apply took_sem; (done || lia). }
  destruct (sem_try_acquire b charge) as [b' r] eqn:Hb.
  destruct (try_bytes_spec _ _ _ _ Hb) as (_ & Hbf & Hbe).
  destruct r as [e|]; intros [= <- <- <- <-]; (split; [eauto|]); split.
  - eapply took_one_alter; [done|].
    simpl. apply took_sem; rewrite ?sem_release_free, ?sem_release_closed; (done || lia).
  - split; [done|]. simpl. lia.
  - eapply took_one_alter; [done|]. simpl; apply took_sem; (done || lia).
  - split; [done|]. simpl. split_and!; try (done || lia). intros _. by apply Hbe.
Qed.

Lemma cl_bytes_set_bytes c b : (b = None <-> cl_bytes c = None) -> cl_bytes (set_bytes c b) = b.
Proof.
  unfold cl_bytes, set_bytes. destruct c as [lim pol [a|] l nid rr ch pool], b; simpl; try done;
    intros [? ?]; naive_solver.
Qed.

(** What an operation on the semaphores leaves alone. *)
Definition same_rest (c c' : Client Sm Ch) : Prop :=
  cl_limits c' = cl_limits c /\ cl_policy c' = cl_policy c /\ cl_next_id c' = cl_next_id c /\
  cl_rr c' = cl_rr c /\ cl_chan c' = cl_chan c /\ cl_pool c' = cl_pool c /\
  shared_of c' = shared_of c.

Lemma select_read_shard_spec c start charge ca c' i res :
  select_read_shard c start charge ca = Some (c', i, res) ->
  is_Some (cl_shards c !! i) /\ took_one (cl_shards c) (cl_shards c') i (is_inl res) /\
  selected (cl_bytes c) (cl_bytes c') charge res /\ same_rest c c'.
Proof.
  unfold select_read_shard. destruct (cl_shards c !! start) as [first|] eqn:Hf; [|done]. simpl.
  destruct ca; simpl.
  2: { destruct (try_read_permits _ _ _) as [[s' b'] r] eqn:Ht.
       destruct (try_read_permits_spec _ _ _ _ _ _ Ht) as (Hb & Hcl & Hr).
       intros [= <- <- <-]. split; [eauto|]. split.
       - simpl. eapply took_one_alter; [done|].
         destruct r; simpl; apply took_sem; destruct_and? Hr; (done || lia).
       - split; [|by destruct c as [? ? [|] ? ? ? ? ?], b'].
         rewrite cl_bytes_set_bytes by done. split; [done|]. destruct r as [pm|]; tauto. }
  destruct (bytes_closed (cl_bytes c)).
  { intros [= <- <- <-]. split; [eauto|]. split; [|done]. split; [done|].
    intros j h Hj. exists h. split; [done|]. apply took_refl. }
  destruct (scan_shards _ _ _ _ _) as [[[l' b'] found] waiting] eqn:Hs.
  pose proof (scan_shards_spec _ _ _ _ _ _ _ _ _ Hs) as Hspec.
  assert (Hnone : found = None -> (b' = None <-> cl_bytes c = None)).
  { intros ->. by destruct Hspec as (_ & -> & _). }
  destruct found as [[k r]|].
  - destruct Hspec as (Hk & Hto & Hsel). intros [= <- <- <-].
    destruct (Hsel) as [Hb _]. split; [done|]. split; [by destruct c as [? ? [|] ? ? ? ? ?], b'|].
    split; [|by destruct c as [? ? [|] ? ? ? ? ?], b'].
    by rewrite cl_bytes_set_bytes.
  - destruct Hspec as ([Hlen Hto] & -> & Hw).
    assert (Hc' : forall i' e, is_Some (cl_shards c !! i') ->
      let c1 := set_bytes (set_shards c l') (cl_bytes c) in
      is_Some (cl_shards c !! i') /\ took_one (cl_shards c) (cl_shards c1) i' false /\
      selected (cl_bytes c) (cl_bytes c1) charge (inr e) /\ same_rest c c1).
    { intros i' e Hi'. split; [done|].
      assert (Hb : cl_bytes (set_bytes (set_shards c l') (cl_bytes c)) = cl_bytes c)
        by by rewrite cl_bytes_set_bytes.
      unfold selected. rewrite Hb. split_and!; try done.
      all: by destruct c as [? ? [|] ? ? ? ? ?]. }
    case_match; [intros [= <- <- <-]; apply Hc'; eauto|].
    destruct waiting as [w|]; intros [= <- <- <-]; apply Hc'; [|eauto].
    by destruct (Hw w eq_refl).
Qed.

(** ** What a submission returns *)

Lemma reject_rx c id start e :
  os_is_closed (cl_chan c) id = false ->
  os_rx (cl_chan (reject c id start e).1) id = RxValue (Err e).
Proof. intros Hc. simpl. by apply os_send_value. Qed.

(** The outcomes of [dispatch] on the caller's side. *)
Lemma dispatch_rx c id i res f off len al charge notify c' h :
  os_rx (cl_chan c) id = RxEmpty -> os_is_closed (cl_chan c) id = false ->
  dispatch c id i res f off len al charge notify = (c', h) ->
  rh_id h = id /\
  (rh_state h <> Inert /\ os_rx (cl_chan c') id = RxEmpty \/
   rh_state h = Inert /\ os_rx (cl_chan c') id = RxValue (Err shut_down_error)).
Proof.
  intros Hrx Hcl. unfold dispatch, send_read. destruct res as [pm|[]].
  - set (c1 := set_pool c _). destruct (match _ !! i with Some h => sh_alive h | None => false end).
    + intros [= <- <-]. split; [done|]. left. destruct notify; done.
    + simpl. set (c2 := set_chan c1 _). intros [= <- <-]. split; [done|]. right. split; [done|].
      assert (Hchan : forall pm, cl_chan (return_permits c2 i pm) = cl_chan c2).
      { intros pm0. unfold return_permits, set_bytes. by destruct c as [? ? [|] ? ? ? ? ?], (permit_bytes pm0). }
      rewrite Hchan. by apply os_send_value.
  - intros [= <- <-]. split; [done|]. by left.
  - simpl. intros [= <- <-]. split; [done|]. right. split; [done|]. by apply os_send_value.
Qed.

Lemma fresh_channel c id r1 r2 :
  let c1 := set_cursors (set_chan c (os_channel (cl_chan c) id)) r1 r2 in
  os_rx (cl_chan c1) id = RxEmpty /\ os_is_closed (cl_chan c1) id = false.
Proof. simpl. by rewrite os_channel_rx, os_channel_open. Qed.

(** What a submission leaves of the driver when it sends nothing. *)
Definition untouched c c' : Prop :=
  cl_shards c' = cl_shards c /\ cl_bytes c' = cl_bytes c /\ cl_pool c' = cl_pool c.

(** ** Shard selection *)

(** A shard whose count permit can be had now; one that is full. *)
Definition has_capacity (l : list (Shard Sm)) (i : nat) : bool :=
  match l !! i with
  | Some h => match (sem_try_acquire (sh_sem h) 1).2 with None => true | Some _ => false end
  | None => false
  end.

Definition is_full (l : list (Shard Sm)) (i : nat) : bool :=
  match l !! i with
  | Some h => match (sem_try_acquire (sh_sem h) 1).2 with Some NoPermits => true | _ => false end
  | None => false
  end.

Lemma failed_try_same (s s' : Sm) e : sem_try_acquire s 1 = (s', Some e) -> s' = s.
Proof.
  destruct (sem_is_closed s) eqn:Hc.
  - rewrite sem_try_closed by done. by intros [= <- _].
  - destruct (sem_try_open s 1 Hc) as [(s1 & -> & _)|[-> _]]; [done|]. by intros [= <- _].
Qed.

Lemma alter_same (l : list (Shard Sm)) i h s :
  l !! i = Some h -> s = sh_sem h -> alter (shard_sem s) i l = l.
Proof.
  intros Hi ->. apply list_eq. intros j. destruct (decide (j = i)) as [->|Hne].
  - rewrite list_lookup_alter_eq, Hi. simpl. by destruct h.
  - by rewrite list_lookup_alter_ne.
Qed.

(** The scan finds the first shard with capacity, else the first full one. *)
Lemma scan_shards_finds order (l : list (Shard Sm)) bytes charge waiting l' bytes' found waiting' :
  scan_shards order l bytes charge waiting = (l', bytes', found, waiting') ->
  match List.find (has_capacity l) order with
  | Some i => exists res, found = Some (i, res)
  | None => found = None /\ l' = l /\
      waiting' = match waiting with Some w => Some w | None => List.find (is_full l) order end
  end.
Proof.
  revert waiting. induction order as [|i order IH]; intros waiting; simpl.
  { intros [= <- <- <- <-]. split_and!; [done|done|]. by destruct waiting. }
  unfold has_capacity at 1, is_full at 1. destruct (l !! i) as [h|] eqn:Hi; [|apply IH].
  destruct (sem_try_acquire (sh_sem h) 1) as [s' [e|]] eqn:Ht; simpl.
  - pose proof (failed_try_same _ _ _ Ht) as Hs. pose proof (alter_same l i h s' Hi Hs) as ->.
    destruct e; intros Hsc; apply IH in Hsc; [|done].
    destruct (List.find _ order); [done|]. destruct Hsc as (-> & -> & ->).
    split_and!; [done|done|]. by destruct waiting.
  - destruct bytes as [b|]; [|intros [= <- <- <- <-]; eauto].
    destruct (sem_try_acquire b charge) as [b' [e|]]; intros [= <- <- <- <-]; eauto.
Qed.

(** ** Batches *)

(** Whether a handle was accepted by shard [k]. *)
Definition accepted_by (k : nat) (h : ReadHandle Sm) : bool :=
  match rh_state h with Submitted => bool_decide (rh_shard h = k) | _ => false end.

(** The signals shard [k] has had. *)
Definition wakes_of c (k : nat) : option Z := sh_wakes <$> cl_shards c !! k.

Lemma wakes_upd c k i g :
  (forall h, sh_wakes (g h) = sh_wakes h) -> wakes_of (upd_shard c i g) k = wakes_of c k.
Proof.
  intros Hg. unfold wakes_of. simpl. destruct (decide (i = k)) as [->|Hne].
  - rewrite list_lookup_alter_eq. destruct (cl_shards c !! k); simpl; [|done]. by rewrite Hg.
  - by rewrite list_lookup_alter_ne.
Qed.

Lemma wakes_signal c k i :
  wakes_of (upd_shard c i shard_signal) k =
    (fun w => w + (if decide (i = k) then 1 else 0)) <$> wakes_of c k.
Proof.
  unfold wakes_of. simpl. case_decide as Hik.
  - subst. rewrite list_lookup_alter_eq. by destruct (cl_shards c !! k).
  - rewrite list_lookup_alter_ne by done. destruct (cl_shards c !! k); simpl; [|done].
    by rewrite Z.add_0_r.
Qed.

Lemma wakes_set_bytes c b k : wakes_of (set_bytes c b) k = wakes_of c k.
Proof. unfold wakes_of, set_bytes. by destruct c as [? ? [|] ? ? ? ? ?], b. Qed.

Lemma scan_shards_wakes order (l : list (Shard Sm)) bytes charge waiting l' bytes' found waiting' k :
  scan_shards order l bytes charge waiting = (l', bytes', found, waiting') ->
  sh_wakes <$> l' !! k = sh_wakes <$> l !! k.
Proof.
  assert (Hal : forall (l : list (Shard Sm)) j s,
    sh_wakes <$> alter (shard_sem s) j l !! k = sh_wakes <$> l !! k).
  { intros l0 j s. destruct (decide (j = k)) as [->|Hne].
    - rewrite list_lookup_alter_eq. by destruct (l0 !! k).
    - by rewrite list_lookup_alter_ne. }
  revert l waiting. induction order as [|i order IH]; intros l waiting; simpl.
  { by intros [= <- <- <- <-]. }
  destruct (l !! i) as [h|]; [|apply IH].
  destruct (sem_try_acquire (sh_sem h) 1) as [s' [[]|]].
  - intros Hs. apply IH in Hs. by rewrite Hs, Hal.
  - intros Hs. apply IH in Hs. by rewrite Hs, Hal.
  - destruct bytes as [b|]; [|intros [= <- <- <- <-]; apply Hal].
    destruct (sem_try_acquire b charge) as [b' [e|]]; intros [= <- <- <- <-]; apply Hal.
Qed.

Lemma select_wakes c start charge ca c' i res k :
  select_read_shard c start charge ca = Some (c', i, res) -> wakes_of c' k = wakes_of c k.
Proof.
  unfold select_read_shard. destruct (cl_shards c !! start) as [first|]; [|done]. simpl.
  destruct ca; simpl.
  2: { destruct (try_read_permits _ _ _) as [[s' b'] r]. intros [= <- _ _].
       rewrite wakes_set_bytes. by apply wakes_upd. }
  destruct (bytes_closed _); [by intros [= <- _ _]|].
  destruct (scan_shards _ _ _ _ _) as [[[l' b'] found] waiting] eqn:Hs.
  apply (scan_shards_wakes _ _ _ _ _ _ _ _ _ k) in Hs.
  assert (Hw : wakes_of (set_bytes (set_shards c l') b') k = wakes_of c k)
    by (rewrite wakes_set_bytes; exact Hs).
  destruct found as [[j r]|]; [by intros [= <- _ _]|].
  destruct (bytes_closed _); [by intros [= <- _ _]|].
  destruct waiting; by intros [= <- _ _].
Qed.

(** A submission that does not notify signals no shard, and draws the next
    operation. *)
Lemma quiet_submit c f off len al allow c' h k :
  submit c f off len al allow false = Some (c', h) ->
  wakes_of c' k = wakes_of c k /\ rh_id h = cl_next_id c /\
  cl_next_id c' = wrap u64_max (cl_next_id c + 1).
Proof.
  unfold submit. destruct (negb _); [done|]. set (c0 := set_cursors _ _ _).
  destruct (check_request _ _ _ _ _) as [bytes|e]; [|by intros [= <- <-]].
  destruct (select_read_shard _ _ _ _) as [[[c1 i] res]|] eqn:Hsel; [|done]. simpl.
  destruct (select_read_shard_spec _ _ _ _ _ _ _ Hsel) as (_ & _ & _ & Hrest).
  destruct Hrest as (_ & _ & Hn & _).
  apply (select_wakes _ _ _ _ _ _ _ k) in Hsel. change (wakes_of c0 k) with (wakes_of c k) in Hsel.
  change (cl_next_id c0) with (wrap u64_max (cl_next_id c + 1)) in Hn.
  unfold dispatch, send_read. destruct res as [pm|[]].
  - set (c2 := set_pool c1 _). destruct (match _ !! i with Some h => sh_alive h | None => false end).
    + intros [= <- <-]. split_and!; [|done|done]. rewrite wakes_upd; [done|].
      intros h0. unfold shard_send. by case_match.
    + simpl. set (c3 := set_chan c2 _). intros [= <- <-].
      assert (Hret : forall pm, wakes_of (return_permits c3 i pm) k = wakes_of c3 k /\
        cl_next_id (return_permits c3 i pm) = cl_next_id c3).
      { intros pm0. unfold return_permits. set (c4 := upd_shard c3 i _).
        split; [|unfold set_bytes; by destruct c1 as [? ? [|] ? ? ? ? ?], (permit_bytes pm0)].
        change (wakes_of (set_pool ?c _) k) with (wakes_of c k). rewrite wakes_set_bytes.
        unfold c4. by rewrite wakes_upd. }
      destruct (Hret (with_shared pm (shared_of c1))) as [-> ->]. split_and!; done.
  - intros [= <- <-]. split_and!; done.
  - intros [= <- <-]. split_and!; done.
Qed.

Lemma submit_batch_spec c rs handles wakes c' handles' wakes' :
  NoDup wakes ->
  (forall k, k ∈ wakes <-> existsb (accepted_by k) handles = true) ->
  submit_batch c rs handles wakes = Some (c', handles', wakes') ->
  (forall k, wakes_of c' k = wakes_of c k) /\ NoDup wakes' /\
  (forall k, k ∈ wakes' <-> existsb (accepted_by k) handles' = true) /\
  exists new, handles' = handles ++ new /\ length new = length rs /\
    forall j h, new !! j = Some h -> rh_id h = wrap u64_max (cl_next_id c + Z.of_nat j) \/
      j = 0%nat /\ rh_id h = cl_next_id c.
Proof.
  revert c handles wakes. induction rs as [|r rs IH]; intros c handles wakes Hnd Hw; simpl.
  { intros [= <- <- <-]. split_and!; try done. exists []. rewrite app_nil_r. by split_and!. }
  destruct (submit _ _ _ _ _ _ _) as [[c1 h]|] eqn:Hs; [|done]. simpl. intros Hb.
  set (w1 := match rh_state h with Submitted => _ | _ => _ end) in Hb.
  assert (Hstep : NoDup w1 /\ forall k, k ∈ w1 <-> existsb (accepted_by k) (handles ++ [h]) = true).
  { assert (Hacc : forall k, existsb (accepted_by k) (handles ++ [h]) =
      existsb (accepted_by k) handles || accepted_by k h)
      by (intros k; rewrite existsb_app; simpl; by rewrite orb_false_r).
    unfold w1. destruct (rh_state h) eqn:Hst.
    3: case_bool_decide as Hin.
    - split; [done|]. intros k. rewrite Hacc. unfold accepted_by at 2. rewrite Hst, orb_false_r. apply Hw.
    - split; [done|]. intros k. rewrite Hacc. unfold accepted_by at 2. rewrite Hst, orb_false_r. apply Hw.
    - split; [done|]. intros k. rewrite Hacc, orb_true_iff, <-Hw. unfold accepted_by. rewrite Hst.
      rewrite bool_decide_eq_true. split; [tauto|]. by intros [?|<-].
    - split.
      + apply NoDup_app. split_and!; [done| |apply NoDup_singleton].
        intros x Hx ->%list_elem_of_singleton. done.
      + intros k. rewrite Hacc, orb_true_iff, <-Hw. unfold accepted_by. rewrite Hst.
        rewrite bool_decide_eq_true, elem_of_app, list_elem_of_singleton. naive_solver. }
  destruct Hstep as [Hnd1 Hw1]. apply IH in Hb; [|done|done].
  destruct Hb as (Hwk & Hnd' & Hw' & new & -> & Hlen & Hids).
  destruct (quiet_submit _ _ _ _ _ _ _ _ 0 Hs) as (_ & Hid & Hnext).
  split_and!; try done.
  - intros k. rewrite Hwk. by destruct (quiet_submit _ _ _ _ _ _ _ _ k Hs) as (-> & _ & _).
  - exists (h :: new). rewrite <-app_assoc. split_and!; [done | by simpl; f_equal |].
    intros [|j] h0; simpl; [intros [= <-]; by right|].
    intros Hj. apply Hids in Hj. left. rewrite Hnext in Hj.
    destruct Hj as [->|[-> ->]]; [|by rewrite Z.add_1_r].
    unfold wrap, u64_max. rewrite Z.add_mod_idemp_l by lia. f_equal. lia.
Qed.

Lemma signal_all_wakes c ws k :
  NoDup ws ->
  wakes_of (fold_left (fun c i => upd_shard c i shard_signal) ws c) k =
    (fun w => w + (if bool_decide (k ∈ ws) then 1 else 0)) <$> wakes_of c k.
Proof.
  revert c. induction ws as [|i ws IH]; intros c Hnd; simpl.
  { destruct (wakes_of c k); simpl; [by rewrite Z.add_0_r|done]. }
  apply NoDup_cons in Hnd as [Hi Hnd]. rewrite IH by done. rewrite wakes_signal.
  destruct (wakes_of c k); simpl; [|done]. f_equal.
  destruct (decide (i = k)) as [Hik|Hik].
  - subst k. rewrite (bool_decide_eq_false_2 (i ∈ ws)) by done.
    rewrite (bool_decide_eq_true_2 (i ∈ i :: ws)) by by left. lia.
  - rewrite (bool_decide_ext (k ∈ i :: ws) (k ∈ ws)); [lia|].
    rewrite elem_of_cons. naive_solver.
Qed.

(** The messages in the queue of shard [k]. *)
Definition queue_of c (k : nat) : option (list Msg) := sh_queue <$> cl_shards c !! k.

Lemma queue_upd c i g k :
  (forall h, sh_queue (g h) = sh_queue h) -> queue_of (upd_shard c i g) k = queue_of c k.
Proof.
  intros Hg. unfold queue_of. simpl. destruct (decide (i = k)) as [->|Hne].
  - rewrite list_lookup_alter_eq. destruct (cl_shards c !! k); simpl; [|done]. by rewrite Hg.
  - by rewrite list_lookup_alter_ne.
Qed.

Lemma queue_set_bytes c b k : queue_of (set_bytes c b) k = queue_of c k.
Proof. unfold queue_of, set_bytes. by destruct c as [? ? [|] ? ? ? ? ?], b. Qed.

Lemma queue_return c i pm k : queue_of (return_permits c i pm) k = queue_of c k.
Proof.
  unfold return_permits. set (c1 := upd_shard c i _). set (c2 := set_bytes c1 _).
  change (queue_of c2 k = queue_of c k). unfold c2. rewrite queue_set_bytes. by apply queue_upd.
Qed.

Lemma queue_signal_all c ws k :
  queue_of (fold_left (fun c i => upd_shard c i shard_signal) ws c) k = queue_of c k.
Proof. revert c. induction ws as [|i ws IH]; intros c; simpl; [done|]. rewrite IH. by apply queue_upd. Qed.

Lemma queue_took_one c c' i ok k :
  took_one (cl_shards c) (cl_shards c') i ok -> queue_of c' k = queue_of c k.
Proof.
  intros [Hl Ht]. unfold queue_of. destruct (cl_shards c !! k) as [h|] eqn:Hk.
  - destruct (Ht k h Hk) as (h' & -> & []). simpl. congruence.
  - apply lookup_ge_None in Hk. rewrite <-Hl in Hk. by apply lookup_ge_None in Hk as ->.
Qed.

(** The message of an accepted read. *)
Definition sent_message (k : nat) (h : ReadHandle Sm) (f : File) (off len al : Z) (pm : ReadPermits) :
    list Msg :=
  if accepted_by k h then [MsgRead (rh_id h) f off len (rh_id h) pm al] else [].

(** A handle that waits for its permits keeps its own request. *)
Definition waits_for (h : ReadHandle Sm) (f : File) (off len al : Z) : Prop :=
  match rh_state h with
  | WaitingPermit _ f' off' len' al' dn =>
      f' = f /\ off' = off /\ len' = len /\ al' = al /\ dn = rh_id h
  | _ => True
  end.

Lemma submit_sends c f off len al allow notify c' h :
  submit c f off len al allow notify = Some (c', h) ->
  waits_for h f off len al /\
  exists pm, forall k, queue_of c' k = (fun q => q ++ sent_message k h f off len al pm) <$> queue_of c k.
Proof.
  unfold submit. destruct (negb _); [done|]. set (c0 := set_cursors _ _ _).
  assert (Hsame : forall (k : nat) (q : option (list Msg)), q = (fun q => q ++ []) <$> q).
  { intros k [q|]; simpl; [by rewrite app_nil_r|done]. }
  destruct (check_request _ _ _ _ _) as [bytes|e].
  2: { intros [= <- <-]. split; [done|]. exists (mkPermits None None). intros k. apply (Hsame k). }
  destruct (select_read_shard _ _ _ _) as [[[c1 i] res]|] eqn:Hsel; [|done]. simpl.
  destruct (select_read_shard_spec _ _ _ _ _ _ _ Hsel) as (_ & Hto & _).
  assert (Hq1 : forall k, queue_of c1 k = queue_of c k) by (intros k; by eapply (queue_took_one c0)).
  unfold dispatch, send_read. destruct res as [pm|[]].
  - set (c2 := set_pool c1 _). set (pm' := with_shared pm _).
    destruct (cl_shards c2 !! i) as [hi|] eqn:Hi; [destruct (sh_alive hi) eqn:Hal|].
    + intros [= <- <-]. split; [done|]. exists pm'. intros k. set (m := MsgRead _ _ _ _ _ _ _).
      assert (Hn : forall b : bool, queue_of (if b then upd_shard (upd_shard c2 i (shard_send m)) i shard_signal
        else upd_shard c2 i (shard_send m)) k = queue_of (upd_shard c2 i (shard_send m)) k).
      { intros []; [by apply queue_upd|done]. }
      rewrite Hn, <-Hq1. unfold queue_of, sent_message, accepted_by. simpl.
      change (cl_shards c1) with (cl_shards c2). destruct (decide (i = k)) as [->|Hne].
      * rewrite list_lookup_alter_eq, Hi, bool_decide_eq_true_2 by done. simpl.
        unfold shard_send. by rewrite Hal.
      * rewrite list_lookup_alter_ne, bool_decide_eq_false_2 by done. apply (Hsame k).
    + simpl. intros [= <- <-]. split; [done|]. exists pm'. intros k.
      rewrite queue_return. change (queue_of c1 k = (fun q => q ++ []) <$> queue_of c k).
      rewrite Hq1. apply (Hsame k).
    + simpl. intros [= <- <-]. split; [done|]. exists pm'. intros k.
      rewrite queue_return. change (queue_of c1 k = (fun q => q ++ []) <$> queue_of c k).
      rewrite Hq1. apply (Hsame k).
  - intros [= <- <-]. split; [by split_and!|]. exists (mkPermits None None). intros k.
    change (queue_of c1 k = (fun q => q ++ []) <$> queue_of c k). rewrite Hq1. apply (Hsame k).
  - intros [= <- <-]. split; [done|]. exists (mkPermits None None). intros k.
    change (queue_of c1 k = (fun q => q ++ []) <$> queue_of c k). rewrite Hq1. apply (Hsame k).
Qed.

(** The messages of a batch for shard [k], in the order of its requests. *)
Fixpoint batch_messages (k : nat) (rs : list ReadRequest) (handles : list (ReadHandle Sm))
    (pms : list ReadPermits) : list Msg :=
  match rs, handles, pms with
  | r :: rs, h :: handles, pm :: pms =>
      sent_message k h (rq_file r) (rq_offset r) (rq_len r) 1 pm ++ batch_messages k rs handles pms
  | _, _, _ => []
  end.

Lemma submit_batch_sends c rs handles wakes c' handles' wakes' :
  submit_batch c rs handles wakes = Some (c', handles', wakes') ->
  exists new pms, handles' = handles ++ new /\ length pms = length rs /\
    (forall k, queue_of c' k = (fun q => q ++ batch_messages k rs new pms) <$> queue_of c k) /\
    forall j r h, rs !! j = Some r -> new !! j = Some h ->
      waits_for h (rq_file r) (rq_offset r) (rq_len r) 1.
Proof.
  revert c handles wakes. induction rs as [|r rs IH]; intros c handles wakes; simpl.
  { intros [= <- <- <-]. exists [], []. rewrite app_nil_r. split_and!; try done.
    intros k. destruct (queue_of c k); simpl; [by rewrite app_nil_r|done]. }
  destruct (submit _ _ _ _ _ _ _) as [[c1 h]|] eqn:Hs; [|done]. simpl. intros Hb.
  destruct (submit_sends _ _ _ _ _ _ _ _ _ Hs) as (Hw & pm & Hq).
  destruct (IH _ _ _ Hb) as (new & pms & -> & Hl & Hq' & Hw').
  exists (h :: new), (pm :: pms). rewrite <-app_assoc. split_and!; [done|simpl; lia| |].
  - intros k. rewrite Hq', Hq. destruct (queue_of c k); simpl; [|done]. by rewrite app_assoc.
  - intros [|j] r0 h0; simpl; [by intros [= <-] [= <-]|]. apply Hw'.
Qed.

(** ** After a shutdown request *)

Definition all_closed c : Prop := Forall (fun h => sem_is_closed (sh_sem h) = true) (cl_shards c).

Lemma shutdown_all_closed c : all_closed (request_shutdown c).
Proof.
  unfold all_closed, request_shutdown. simpl. apply Forall_fmap, Forall_fmap, Forall_forall.
  intros h _. simpl. unfold shard_send. destruct (sh_alive _); simpl; apply sem_close_closed.
Qed.

Lemma closed_try (s : Sm) n : sem_is_closed s = true -> sem_try_acquire s n = (s, Some Closed).
Proof. apply sem_try_closed. Qed.

Lemma find_none {A} (P : A -> bool) l : (forall x, P x = false) -> List.find P l = None.
Proof. intros HP. induction l as [|x l IH]; simpl; [done|]. by rewrite HP. Qed.

(** Every selection finds a closed driver closed. *)
Lemma closed_select c start charge ca c' i res :
  all_closed c -> select_read_shard c start charge ca = Some (c', i, res) ->
  res = inr Closed /\ cl_shards c' = cl_shards c /\ cl_bytes c' = cl_bytes c /\
  cl_chan c' = cl_chan c.
Proof.
  intros Hall Hsel. destruct (select_read_shard_spec _ _ _ _ _ _ _ Hsel) as (_ & _ & _ & Hrest).
  destruct Hrest as (_ & _ & _ & _ & Hch & _). unfold select_read_shard in Hsel.
  destruct (cl_shards c !! start) as [first|] eqn:Hf; [|done]. simpl in Hsel.
  unfold all_closed in Hall. rewrite Forall_lookup in Hall.
  destruct ca; simpl in Hsel.
  - destruct (bytes_closed _) eqn:Hb; [by injection Hsel as <- _ <-|].
    destruct (scan_shards _ _ _ _ _) as [[[l' b'] found] waiting] eqn:Hs.
    pose proof (scan_shards_spec _ _ _ _ _ _ _ _ _ Hs) as Hspec.
    apply scan_shards_finds in Hs. rewrite !find_none in Hs.
    2: { intros j. unfold is_full. destruct (cl_shards c !! j) eqn:Hj; [|done].
         by rewrite closed_try by eauto. }
    2: { intros j. unfold has_capacity. destruct (cl_shards c !! j) eqn:Hj; [|done].
         by rewrite closed_try by eauto. }
    destruct Hs as (-> & -> & ->). destruct Hspec as (_ & -> & _).
    rewrite cl_bytes_set_bytes, Hb in Hsel by done. injection Hsel as <- _ <-.
    split_and!; [done| |by rewrite cl_bytes_set_bytes|done]. by destruct c as [? ? [|] ? ? ? ? ?].
  - unfold try_read_permits in Hsel. rewrite closed_try in Hsel by eauto.
    injection Hsel as <- _ <-. split_and!; [done| |by rewrite cl_bytes_set_bytes|done].
    transitivity (alter (shard_sem (sh_sem first)) start (cl_shards c)).
    + by destruct c as [? ? [|] ? ? ? ? ?].
    + by eapply alter_same.
Qed.

(** ** Properties *)

(** [C27] [submit] validates exactly what its documentation promises: a request that is not
    acceptable (position, length, alignment, range or byte budget) is answered with
    [InvalidInput] and touches no shard, no permit and nothing of the pool; an acceptable one
    is never answered with [InvalidInput]: it is handed on, or refused because the driver
    has shut down. *)
Theorem submit_validates c f off len al allow notify c' h :
  in_range u64_max off -> in_range usize_max len -> (allow = true -> al = 1) ->
  submit c f off len al allow notify = Some (c', h) ->
  rh_id h = cl_next_id c /\
  (~ acceptable (cl_limits c) off len al allow ->
     rh_state h = Inert /\ untouched c c' /\
     exists m, os_rx (cl_chan c') (rh_id h) = RxValue (Err (Custom InvalidInput m))) /\
  (acceptable (cl_limits c) off len al allow ->
     rh_state h <> Inert /\ os_rx (cl_chan c') (rh_id h) = RxEmpty \/
     rh_state h = Inert /\ os_rx (cl_chan c') (rh_id h) = RxValue (Err shut_down_error)).
Proof.
  intros Ho Hl Hal. unfold submit. destruct (negb _); [done|].
  pose proof (check_request_spec (cl_limits c) off len al allow Ho Hl Hal) as Hchk.
  destruct (fresh_channel c (cl_next_id c) (wrap u64_max (cl_next_id c + 1))
    (wrap usize_max (cl_rr c + 1))) as [Hrx Hcl].
  set (c0 := set_cursors _ _ _) in *. simpl in Hrx, Hcl.
  destruct (check_request _ _ _ _ _) as [bytes|e] eqn:Hreq.
  - destruct Hchk as [Hacc _].
    destruct (select_read_shard _ _ _ _) as [[[c1 i] res]|] eqn:Hsel; [|done]. simpl.
    destruct (select_read_shard_spec _ _ _ _ _ _ _ Hsel) as (_ & _ & _ & Hrest).
    destruct Hrest as (_ & _ & _ & _ & Hch & _).
    intros [= Hd]. apply dispatch_rx in Hd as [-> Hd]; [|by rewrite Hch..].
    split_and!; [done | done | tauto].
  - intros [= <- <-]. split_and!; [done| |done]. intros _. simpl.
    split; [done|]. split; [done|]. destruct (check_request_inr _ _ _ _ _ _ Hreq) as [m ->].
    exists m. by apply os_send_value.
Qed.

(** [C29] Capacity-aware selection is the search its documentation describes: going once round
    the shards from the cursor, it settles on the first one whose count permit is free; if
    none is, it waits on the first one that is full; if all are closed it reports the driver
    closed. *)
Theorem capacity_aware_selects_first c start charge c' i res :
  select_read_shard c start charge true = Some (c', i, res) ->
  bytes_closed (cl_bytes c) = false ->
  let n := length (cl_shards c) in
  let order := seq start (n - start) ++ seq 0 start in
  match List.find (has_capacity (cl_shards c)) order with
  | Some j => i = j
  | None => match List.find (is_full (cl_shards c)) order with
            | Some j => i = j /\ res = inr NoPermits
            | None => i = start /\ res = inr Closed
            end
  end.
Proof.
  intros Hsel Hopen n order. unfold select_read_shard in Hsel.
  destruct (cl_shards c !! start) as [first|] eqn:Hf; [|done]. simpl in Hsel.
  rewrite Hopen in Hsel. fold n order in Hsel.
  destruct (scan_shards _ _ _ _ _) as [[[l' b'] found] waiting] eqn:Hs.
  pose proof (scan_shards_spec _ _ _ _ _ _ _ _ _ Hs) as Hspec.
  apply scan_shards_finds in Hs. destruct (List.find (has_capacity _) order) as [j|].
  - destruct Hs as [r ->]. by injection Hsel as _ <- _.
  - destruct Hs as (-> & -> & ->). destruct Hspec as (_ & -> & _).
    rewrite cl_bytes_set_bytes in Hsel by done. rewrite Hopen in Hsel.
    destruct (List.find (is_full _) order) as [j|]; by injection Hsel as _ <- <-.
Qed.

(** [C30] A batch keeps its promises: more than 64 requests are refused with [InvalidInput]
    before anything is submitted; otherwise one handle per request comes back, with
    consecutive operations and in order: what each shard's queue gains is exactly the reads of
    the requests whose handles it accepted, in the order of the batch, each under its handle's
    operation with its request's file, offset and length, and a handle that waits for permits
    keeps its own request. After all of them are built each shard that accepted any of the
    batch has been signalled exactly once, and no other shard at all. *)
Theorem batch_signals_once c rs c' res :
  read_at_batch c rs = Some (c', res) ->
  match res with
  | Err e => 64 < zlen rs /\ c' = c /\ exists m, e = Custom InvalidInput m
  | Ok handles =>
      zlen rs <= 64 /\ length handles = length rs /\
      (forall j h, handles !! j = Some h ->
         rh_id h = wrap u64_max (cl_next_id c + Z.of_nat j) \/
         j = 0%nat /\ rh_id h = cl_next_id c) /\
      (exists pms, length pms = length rs /\
         forall k, queue_of c' k =
           (fun q => q ++ batch_messages k rs handles pms) <$> queue_of c k) /\
      (forall j r h, rs !! j = Some r -> handles !! j = Some h ->
         waits_for h (rq_file r) (rq_offset r) (rq_len r) 1) /\
      forall k, wakes_of c' k =
        (fun w => w + (if existsb (accepted_by k) handles then 1 else 0)) <$> wakes_of c k
  end.
Proof.
  unfold read_at_batch, MAX_BATCH_READS. case_match eqn:Hlen; bools.
  { intros [= <- <-]. split_and!; [lia|done|]. unfold invalid. eauto. }
  destruct (submit_batch _ _ _ _) as [[[c1 hs] ws]|] eqn:Hb; [|done]. simpl.
  destruct (submit_batch_sends _ _ _ _ _ _ _ Hb) as (new' & pms & Hnew & Hlp & Hqs & Hwf).
  apply submit_batch_spec in Hb; [|constructor|].
  2: { intros k. split; [by intros ?%not_elem_of_nil|done]. }
  destruct Hb as (Hwk & Hnd & Hws & new & -> & Hl & Hids). intros [= <- <-]. simpl in *.
  subst new'. split_and!; [lia | done | done | | done |].
  { exists pms. split; [done|]. intros k. by rewrite queue_signal_all, Hqs. }
  intros k. rewrite signal_all_wakes by done.
  rewrite Hwk. destruct (wakes_of c k); simpl; [|done]. f_equal. f_equal.
  specialize (Hws k). destruct (existsb (accepted_by k) new).
  - rewrite bool_decide_eq_true_2; tauto.
  - rewrite bool_decide_eq_false_2; [done|]. rewrite Hws. done.
Qed.

End Requests.

(** ** Witnesses *)

(** A shard with the given free count permits. *)
Definition demo_shard_of (free : Z) : Shard sem :=
  mkShard (mkSem free false [] 0) [] true 0 default_stats
    (mkIoWqSetup (16, 0) (Registered (0, 0))) true.

(** Drivers of one shard of depth 4 and of three shards, two of them full, with
    4096 bytes for reads. *)
Definition demo_driver (l : list (Shard sem)) : Client sem chans :=
  mkClient (mkLimits None (Some 4096)) RoundRobin
    (Some (mkByteAdmission (sem_new 4096) (mkRegistry false [0%nat]) None)) l 1 0 ∅ (mkPool 1 1 ∅).

Definition demo_client : Client sem chans := demo_driver [demo_shard_of 4].

Definition demo_three : Client sem chans :=
  demo_driver [demo_shard_of 0; demo_shard_of 0; demo_shard_of 1].

#[local] Existing Instance x86_64.

(** The driver and handle after a submission. *)
Definition demo_submitted (c : Client sem chans) (off len : Z) : Client sem chans * ReadHandle sem :=
  default (c, mkHandle 0 0 false false Inert) (submit c (mkFile 3) off len 1 false true).

Lemma submit_validates_witness :
  let '(c', h) := demo_submitted demo_client 10 5000 in
  rh_id h = 1 /\
  (~ acceptable (mkLimits None (Some 4096)) 10 5000 1 false ->
     rh_state h = Inert /\ untouched demo_client c' /\
     exists m, os_rx (cl_chan c') (rh_id h) = RxValue (Err (Custom InvalidInput m))) /\
  (acceptable (mkLimits None (Some 4096)) 10 5000 1 false ->
     rh_state h <> Inert /\ os_rx (cl_chan c') (rh_id h) = RxEmpty \/
     rh_state h = Inert /\ os_rx (cl_chan c') (rh_id h) = RxValue (Err shut_down_error)).
Proof.
  apply (submit_validates demo_client (mkFile 3) 10 5000 1 false true).
  - split; [lia | unfold u64_max; lia].
  - split; [lia | simpl; unfold u64_max; lia].
  - discriminate.
  - vm_compute. reflexivity.
Defined.

Lemma capacity_aware_selects_first_witness :
  let r := select_read_shard demo_three 1 100 true in
  List.find (has_capacity (cl_shards demo_three)) [1%nat; 2%nat; 0%nat] = Some 2%nat /\
  exists c' i res, r = Some (c', i, res) /\ i = 2%nat.
Proof.
  split; [vm_compute; reflexivity|]. eexists _, _, _. split; [vm_compute; reflexivity|].
  exact (capacity_aware_selects_first demo_three 1 100 _ _ _ eq_refl eq_refl).
Defined.

(** Two reads of a batch, accepted by the one shard. *)
Definition demo_requests : list ReadRequest := [mkRequest (mkFile 3) 0 10; mkRequest (mkFile 3) 10 20].

Definition demo_batch : option (Client sem chans * io_result (list (ReadHandle sem))) :=
  read_at_batch demo_client demo_requests.

Definition demo_handles : list (ReadHandle sem) :=
  [mkHandle 1 0 false true Submitted; mkHandle 2 0 false true Submitted].

Lemma batch_signals_once_witness :
  exists c', demo_batch = Some (c', Ok demo_handles) /\
    (2 <= 64 /\ length demo_handles = 2%nat /\
     (forall j h, demo_handles !! j = Some h ->
        rh_id h = wrap u64_max (1 + Z.of_nat j) \/ j = 0%nat /\ rh_id h = 1) /\
     (exists pms, length pms = 2%nat /\
        forall k, queue_of c' k =
          (fun q => q ++ batch_messages k demo_requests demo_handles pms) <$> queue_of demo_client k) /\
     (forall j r h, demo_requests !! j = Some r -> demo_handles !! j = Some h ->
        waits_for h (rq_file r) (rq_offset r) (rq_len r) 1) /\
     forall k, wakes_of c' k =
       (fun w => w + (if existsb (accepted_by k) demo_handles then 1 else 0)) <$>
         wakes_of demo_client k).
Proof.
  eexists. split; [vm_compute; reflexivity|].
  refine (batch_signals_once demo_client demo_requests _ (Ok demo_handles) _).
  vm_compute. reflexivity.
Defined.
