(* ===== verification/AsyncShutdown.v ===== *)
(** * Shutdown off the caller's thread

    [shutdown_async] and [Drop for UringDriver] of [src/src/driver.rs]: the
    driver is handed to a task of the runtime's blocking pool before the
    returned future is first polled. The runtime, which may run the task,
    discard it or do neither, and the holder of the future are the two actors. *)

From S2P Require Import Prelude IoError Geometry Interfaces Instances SharedBudget.
From S2P Require Import Pending World SubmitRing Admission Startup Client Requests.

Section AsyncShutdown.
Context {Sm Ch : Type} `{SemaphoreLaws Sm} `{OneshotLaws Ch} `{Target}.
(** The counters with which each driver thread ends, and the text of the
    error of a task that was cancelled. *)
Context (final : nat -> Stats) (join_error : string).
Implicit Types c : Client Sm Ch.

(** [Drop for UringDriver]. *)
Definition drop_driver c : Client Sm Ch :=
  let c := request_shutdown c in
  set_shards c (imap (fun i h => join_shard (final i) h) (cl_shards c)).

(** The blocking closure: [self.shutdown()], which drops the driver when it
    returns. *)
Definition shutdown_task c : Client Sm Ch * Stats :=
  let '(c', snap) := shutdown c final in (drop_driver c', snap).

(** The task that owns the driver: not started, finished with its snapshot, or
    discarded by the runtime, which drops the driver it captured. *)
Inductive Task :=
| Scheduled (c : Client Sm Ch)
| Returned (c : Client Sm Ch) (snap : Stats)
| Discarded (c : Client Sm Ch).

(** The task, and whether the future returned is still there. *)
Record Adapter := mkAdapter { ad_task : Task; ad_future : bool }.

(** [shutdown_async]: outside an entered runtime it panics, and the unwinding
    drops the driver. *)
Definition shutdown_async (entered : bool) c : Adapter + Client Sm Ch :=
  if entered then inl (mkAdapter (Scheduled (request_shutdown c)) true)
  else inr (drop_driver c).

(** A poll of the future: pending, or the snapshot or join error. *)
Definition await (a : Adapter) : option (io_result Stats) :=
  match ad_task a with
  | Scheduled _ => None
  | Returned _ snap => Some (Ok snap)
  | Discarded _ => Some (Err (other join_error))
  end.

Inductive adapter_step : Adapter -> Adapter -> Prop :=
| AdapterRun c fut :
    adapter_step (mkAdapter (Scheduled c) fut)
      (mkAdapter (Returned (shutdown_task c).1 (shutdown_task c).2) fut)
| AdapterDiscard c fut :
    adapter_step (mkAdapter (Scheduled c) fut) (mkAdapter (Discarded (drop_driver c)) fut)
| AdapterDropFuture t :
    adapter_step (mkAdapter t true) (mkAdapter t false).

Definition task_driver (t : Task) : Client Sm Ch :=
  match t with Scheduled c | Returned c _ | Discarded c => c end.

(** Nobody can be admitted any more, and every live thread has been told. *)
Definition shard_told (h : Shard Sm) : Prop :=
  sem_is_closed (sh_sem h) = true /\ (sh_alive h = true -> MsgShutdown ∈ sh_queue h).

Definition told c : Prop := Forall shard_told (cl_shards c).

Definition joined c : Prop := Forall (fun h => sh_handle h = false) (cl_shards c).

(** ** Lemmas *)

Lemma request_shutdown_told c : told (request_shutdown c).
Proof.
  unfold told, request_shutdown. simpl. rewrite !Forall_fmap. apply Forall_true.
  intros h. unfold shard_told, shard_send, shard_signal. simpl.
  destruct (sh_alive h) eqn:Ha; simpl; (split; [apply sem_close_closed|]).
  - intros _. apply elem_of_app. right. by left.
  - rewrite Ha. done.
Qed.

Lemma join_told st h : shard_told h -> shard_told (join_shard st h).
Proof.
  intros [Hc Ha]. unfold join_shard. destruct (sh_handle h); [|by split].
  unfold shard_told, shard_signal, shard_send. simpl. by destruct (sh_alive h).
Qed.

Lemma join_handle st (h : Shard Sm) : sh_handle (join_shard st h) = false.
Proof. unfold join_shard. by destruct (sh_handle h) eqn:?. Qed.

Lemma drop_driver_spec c : told (drop_driver c) /\ joined (drop_driver c).
Proof.
  pose proof (request_shutdown_told c) as Ht. unfold drop_driver, told, joined in *.
  generalize dependent (request_shutdown c). intros c' Ht. cbn [cl_shards set_shards].
  split; apply Forall_lookup_2; intros i h; rewrite list_lookup_imap;
    destruct (cl_shards c' !! i) as [h0|] eqn:Hh; intros [= <-].
  - apply join_told. by eapply Forall_lookup_1 in Ht.
  - apply join_handle.
Qed.

(** What of its shards a shutdown request leaves alone. *)
Definition counters c : list (bool * Stats) :=
  (fun h => (sh_handle h, sh_stats h)) <$> cl_shards c.

Lemma upd_shard_counters c i g :
  (forall h, sh_handle (g h) = sh_handle h /\ sh_stats (g h) = sh_stats h) ->
  counters (upd_shard c i g) = counters c.
Proof.
  intros Hg. unfold counters. apply list_eq. intros j. rewrite !list_lookup_fmap. simpl.
  destruct (decide (j = i)) as [->|?]; [|by rewrite list_lookup_alter_ne].
  rewrite list_lookup_alter_eq. destruct (cl_shards c !! i) as [h|]; [|done]. simpl.
  by destruct (Hg h) as [-> ->].
Qed.

Lemma request_shutdown_counters c : counters (request_shutdown c) = counters c.
Proof.
  assert (Hclose : counters (close_admission c) = counters c).
  { unfold close_admission. destruct (cl_admission c) as [a|]; [|done].
    unfold close_locked. set (c0 := set_admission _ _).
    change (counters c) with (counters c0). generalize c0 as c'.
    induction (ar_counts (ba_registry a)) as [|i l IH]; intros c'; [done|]. simpl.
    rewrite IH. by apply upd_shard_counters. }
  rewrite <-Hclose. unfold request_shutdown, counters. simpl.
  rewrite <-!list_fmap_compose. apply list_fmap_ext. intros i h _. simpl.
  unfold shard_send. by destruct (sh_alive _).
Qed.

(** What a completed task reports: for each shard the counters its thread
    ended with, or those it had if it was joined before. *)
Definition final_stats c : Stats :=
  fold_left add_stats (imap (fun i '(h, st) => if h : bool then final i else st) (counters c))
    default_stats.

Lemma stats_fold (l : list (Shard Sm)) acc :
  fold_left (fun acc h => add_stats acc (sh_stats h)) l acc = fold_left add_stats (sh_stats <$> l) acc.
Proof. revert acc. induction l as [|h l IH]; intros acc; [done|]. apply IH. Qed.

Lemma shutdown_task_stats c : (shutdown_task (request_shutdown c)).2 = final_stats c.
Proof.
  unfold shutdown_task, shutdown, stats, final_stats. cbn [snd]. rewrite stats_fold. f_equal.
  rewrite <-(request_shutdown_counters c), <-(request_shutdown_counters (request_shutdown c)).
  unfold counters. cbn [cl_shards set_shards]. generalize (cl_shards (request_shutdown (request_shutdown c))). intros l.
  rewrite fmap_imap, imap_fmap. apply imap_ext. intros i h _. simpl.
  unfold join_shard. by destruct (sh_handle h).
Qed.

(** What holds of the adapter of the driver [c0], from the return of
    [shutdown_async] on. *)
Definition adapter_ok c0 (a : Adapter) : Prop :=
  told (task_driver (ad_task a)) /\
  match ad_task a with
  | Scheduled c => c = request_shutdown c0
  | Returned c snap => joined c /\ snap = final_stats c0
  | Discarded c => joined c
  end.

Lemma adapter_step_ok c0 a a' : adapter_ok c0 a -> adapter_step a a' -> adapter_ok c0 a'.
Proof.
  intros [Ht Ha] Hs. destruct Hs as [c fut|c fut|t]; simpl in *; [|split; apply drop_driver_spec|done].
  subst c. unfold shutdown_task. simpl. split; [apply drop_driver_spec|].
  split; [apply drop_driver_spec | apply shutdown_task_stats].
Qed.

Lemma adapter_steps_ok c0 a : adapter_ok c0 a -> forall a', rtc adapter_step a a' -> adapter_ok c0 a'.
Proof. intros Ha a' Hs. induction Hs; eauto using adapter_step_ok. Qed.

(** An ended task stays as it is. *)
Definition ended (t : Task) : Prop := match t with Scheduled _ => False | _ => True end.

Lemma ended_stays a a' : rtc adapter_step a a' -> ended (ad_task a) -> ad_task a' = ad_task a.
Proof.
  intros Hs. induction Hs as [|a1 a2 a3 Hst Hs IH]; intros He; [done|].
  destruct Hst; simpl in *; [done..|]. by apply IH.
Qed.

(** ** Properties *)

(** [C35] [shutdown_async] hands the driver off before its future is polled, and nothing its
    caller does with the future gets it back: in every state of the adapter admission is
    closed and each live thread has its shutdown message; whether or not the future was
    dropped a scheduled task can run, and the future resolves exactly when the task has ended,
    to the snapshot of the final counters if it ran and to an error if the runtime discarded
    it; in both cases every driver thread was joined. *)
Theorem async_shutdown_hands_off c a0 a :
  shutdown_async true c = inl a0 -> rtc adapter_step a0 a ->
  told (task_driver (ad_task a)) /\
  (await a = None <->
     exists a', adapter_step a a' /\ ad_future a' = ad_future a /\ await a' <> None) /\
  (await a <> None -> joined (task_driver (ad_task a)) /\
     forall a', rtc adapter_step a a' -> await a' = await a) /\
  (forall snap, await a = Some (Ok snap) -> snap = final_stats c).
Proof.
  intros [= <-] Hs.
  assert (H0k : adapter_ok c (mkAdapter (Scheduled (request_shutdown c)) true))
    by (split; [apply request_shutdown_told | done]).
  destruct (adapter_steps_ok c _ H0k _ Hs) as [Ht Ha].
  split; [done|]. destruct a as [t fut]. unfold await. simpl in *.
  destruct t as [c'|c' snap|c']; split_and!; try done.
  - split; [|done]. intros _. eexists. split; [apply AdapterRun | done].
  - split; [done|]. intros (a' & Hst & Hf & _). inversion Hst; subst; done.
  - intros _. split; [apply Ha|]. intros a' Hs'. by rewrite (ended_stays _ _ Hs' I).
  - intros s [= <-]. apply Ha.
  - split; [done|]. intros (a' & Hst & Hf & _). inversion Hst; subst; done.
  - intros _. split; [apply Ha|]. intros a' Hs'. by rewrite (ended_stays _ _ Hs' I).
Qed.
End AsyncShutdown.

(** ** Witnesses *)

#[local] Existing Instance x86_64.

(** The driver of one shard whose thread ends having delivered seven reads. *)
Definition demo_final (i : nat) : Stats := mkStats 7 7 0 0 0 0 0 0 0.

(** Its future is dropped unpolled, then its task runs. *)
Definition demo_adapter : Adapter (Sm := sem) (Ch := chans) :=
  mkAdapter (Returned (shutdown_task demo_final (request_shutdown demo_client)).1
    (shutdown_task demo_final (request_shutdown demo_client)).2) false.

Lemma demo_adapter_steps :
  rtc (adapter_step demo_final) (mkAdapter (Scheduled (request_shutdown demo_client)) true)
    demo_adapter.
Proof.
  eapply rtc_l; [apply AdapterDropFuture|]. apply rtc_once.
  exact (AdapterRun demo_final (request_shutdown demo_client) false).
Qed.

Lemma async_shutdown_hands_off_witness :
  await "task 1 was cancelled" demo_adapter = Some (Ok (mkStats 7 7 0 0 0 0 0 0 0)) /\
  told (task_driver (ad_task demo_adapter)) /\
  (await "task 1 was cancelled" demo_adapter = None <->
     exists a', adapter_step demo_final demo_adapter a' /\
       ad_future a' = ad_future demo_adapter /\ await "task 1 was cancelled" a' <> None) /\
  (await "task 1 was cancelled" demo_adapter <> None ->
     joined (task_driver (ad_task demo_adapter)) /\
     forall a', rtc (adapter_step demo_final) demo_adapter a' ->
       await "task 1 was cancelled" a' = await "task 1 was cancelled" demo_adapter) /\
  (forall snap, await "task 1 was cancelled" demo_adapter = Some (Ok snap) ->
     snap = final_stats demo_final demo_client).
Proof.
  split; [vm_compute; reflexivity|].
  apply (async_shutdown_hands_off demo_final "task 1 was cancelled" demo_client
    (mkAdapter (Scheduled (request_shutdown demo_client)) true)).
  - reflexivity.
  - exact demo_adapter_steps.
Defined.
