(* ===== verification/ClientRefines.v ===== *)
(** * Callers refine the shard system

    Each call a caller makes in [Client.v] is, seen from any one shard, a
    sequence of the atomic steps of [System.v]; so what [Safety.v] and
    [Guarantees.v] prove of every reachable state holds of the driver the
    callers really use. *)

From S2P Require Import Prelude IoError Geometry Interfaces Instances SharedBudget.
From S2P Require Import Pending World SubmitRing Driver Ownership System Safety Turn.
From S2P Require Import Admission Startup Client Requests.

(** The system of shard [k] as the client sees it. *)
Record view {R Sm Ch} `{Semaphore Sm} (c : Client Sm Ch) (k : nat) (s : Sys R Sm Ch) : Prop := {
  vw_shard : exists h, cl_shards c !! k = Some h /\ w_count (sy_world s) = sh_sem h /\
    (sh_alive h = true <-> sy_status s = Running_) /\
    (sh_alive h = true -> sy_queue s = sh_queue h);
  vw_bytes : w_bytes (sy_world s) = cl_bytes c;
  vw_pool : w_shared (sy_world s) = cl_pool c;
  vw_chan : w_chan (sy_world s) = cl_chan c;
  vw_used : forall id, id ∈ sy_used s -> id < cl_next_id c;
  vw_next : 0 <= cl_next_id c <= u64_max
}.

Section Refines.
Context {R Sm Ch : Type} `{RingLaws R} `{SemaphoreLaws Sm} `{OneshotLaws Ch} `{Target}
  `{HashOrder}.
Context (limit : option Z) {ok : ReapInput -> Prop}.
Implicit Types (c : Client Sm Ch) (s : Sys R Sm Ch).

(** The system after the callers took [t] count permits of the shard now seen
    as [h] and [b] byte permits. *)
Definition acted s c (h : Shard Sm) (t b : Z) : Sys R Sm Ch :=
  mkSys (sy_drive s) (mkWorld (sh_sem h) (cl_bytes c) (cl_pool c) (cl_chan c))
    (sy_queue s) (sy_used s) (sy_held s + t) (sy_elsewhere s + b) (sy_status s).

(** What the callers may do to a shard without sending to it. *)
Record shard_acted (t : Z) (h h' : Shard Sm) : Prop := {
  sa_queue : sh_queue h' = sh_queue h;
  sa_alive : sh_alive h' = sh_alive h;
  sa_free : sem_free (sh_sem h') = sem_free (sh_sem h) - t;
  sa_nonneg : 0 <= sem_free (sh_sem h) -> 0 <= sem_free (sh_sem h');
  sa_closed : sem_is_closed (sh_sem h) = true -> sem_is_closed (sh_sem h') = true
}.

Lemma took_acted t h h' : took t h h' -> shard_acted t h h'.
Proof. intros []. constructor; auto. congruence. Qed.

(** The callers may do to the other shards, the byte semaphore and the channels
    of operations not sent yet. *)
Record rest_acted s c c' (b : Z) : Prop := {
  ra_bytes : (cl_bytes c' = None <-> cl_bytes c = None) /\
    bytes_free (cl_bytes c') = bytes_free (cl_bytes c) - b /\
    (0 <= bytes_free (cl_bytes c) -> 0 <= bytes_free (cl_bytes c'));
  ra_chan : forall id, id ∈ sy_used s ->
    os_rx (cl_chan c') id = os_rx (cl_chan c) id /\
    (os_is_closed (cl_chan c) id = true -> os_is_closed (cl_chan c') id = true);
  ra_next : cl_next_id c <= cl_next_id c' <= u64_max
}.

(** Such an operation is one step of the shard's callers. *)
Lemma acted_step n s c c' k h h' t b :
  sys_inv limit n s -> view c k s -> cl_shards c !! k = Some h -> cl_shards c' !! k = Some h' ->
  shard_acted t h h' -> rest_acted s c c' b ->
  0 <= sy_held s + t -> (cl_bytes c <> None -> 0 <= sy_elsewhere s + b) ->
  (cl_bytes c = None -> b = 0) ->
  step_of limit ok s (acted s c' h' t b) /\ view c' k (acted s c' h' t b).
Proof.
  intros Hi [(h0 & Hh0 & Hw & Hal & Hq) Hb Hp Hc Hu Hn] Hh Hh' [Sq Sa Sf Sn Sc] [(Hnone & Hbf & Hbn) Hch Hnx]
    Ht He Hb0.
  rewrite Hh in Hh0. injection Hh0 as <-.
  pose proof (si_accounts _ _ _ Hi) as [].
  split.
  - apply StepCallers. constructor; simpl.
    + rewrite Hw. split_and!; [lia | done | apply Sn; rewrite <-Hw; lia].
    + by rewrite Hw.
    + rewrite Hb in *. destruct (cl_bytes c) as [bs|] eqn:Hcb, (cl_bytes c') as [bs'|] eqn:Hcb'.
      * simpl in *. destruct limit; [|done]. split_and!; [lia | by apply He | apply Hbn; lia].
      * destruct Hnone as [Hx _]. by specialize (Hx eq_refl).
      * destruct Hnone as [_ Hx]. by specialize (Hx eq_refl).
      * rewrite Hb0 by done. lia.
    + rewrite Hc. done.
  - constructor; simpl; try done; [|intros id Hid; specialize (Hu id Hid); lia|lia].
    exists h'. rewrite Sa, Sq. split_and!; done.
Qed.

(** Sending a read to the shard seen is one more step. *)
Lemma send_step n s c c' k h id f off len pm al :
  sys_inv limit n s -> view c k s -> cl_shards c !! k = Some h -> sh_alive h = true ->
  cl_shards c' !! k = Some (shard_send (MsgRead id f off len id pm al) h) ->
  cl_bytes c' = cl_bytes c -> cl_pool c' = cl_pool c -> cl_chan c' = cl_chan c ->
  cl_next_id c' = cl_next_id c -> id < cl_next_id c -> id ∉ sy_used s ->
  msg_ok limit (MsgRead id f off len id pm al) ->
  os_rx (cl_chan c) id = RxEmpty -> os_is_closed (cl_chan c) id = false ->
  1 <= sy_held s -> default 0 (permit_bytes pm) <= sy_elsewhere s ->
  exists s', step_of limit ok s s' /\ view c' k s'.
Proof.
  intros Hi [(h0 & Hh0 & Hw & Hal & Hq) Hb Hp Hc Hu Hn] Hh Halive Hh' Eb Ep Ec En Hid Hused
    Hok Hrx Hcl Hheld Hels.
  rewrite Hh in Hh0. injection Hh0 as <-.
  eexists. split.
  - apply (StepSend limit ok s id f off len id pm al); rewrite ?Hc; try done. by apply Hal.
  - constructor; simpl; rewrite ?Eb, ?Ep, ?Ec, ?En; try done.
    + eexists. split; [done|]. unfold shard_send. rewrite Halive. simpl.
      split_and!; [done | tauto |]. intros _. by rewrite Hq.
    + set_solver.
Qed.

(** Signalling a shard changes nothing the system sees. *)
Lemma signal_view c k s i :
  view c k s -> view (upd_shard c i shard_signal) k s.
Proof.
  intros [(h & Hh & Hrest) Hb Hp Hc Hu Hn]. constructor; simpl; try done.
  destruct (decide (i = k)) as [->|Hne].
  - rewrite list_lookup_alter_eq, Hh. eexists. split; [done|]. done.
  - rewrite list_lookup_alter_ne by done. eauto.
Qed.

(** ** Submission *)

Lemma op_id_of_counter id : 0 <= id <= u64_max -> Z.land id CANCEL_BIT = 0 -> op_id id.
Proof.
  intros Hr Hl. unfold op_id. split; [lia|]. destruct (Z.lt_ge_cases id (2 ^ 63)); [done|].
  exfalso. assert (Hb : Z.testbit (Z.land id CANCEL_BIT) 63 = true).
  { rewrite Z.land_spec. apply andb_true_iff. split; [|done].
    apply Z.testbit_true; [lia|]. unfold u64_max in Hr.
    assert (id / 2 ^ 63 = 1); [|by replace (id / 2 ^ 63) with 1].
    symmetry. apply (Z.div_unique_pos _ _ _ (id - 2 ^ 63)); lia. }
  by rewrite Hl, Z.bits_0 in Hb.
Qed.

(** The client once [submit] has drawn its operation and opened its channel. *)
Definition opened c : Client Sm Ch :=
  set_cursors (set_chan c (os_channel (cl_chan c) (cl_next_id c)))
    (wrap u64_max (cl_next_id c + 1)) (wrap usize_max (cl_rr c + 1)).

Lemma opened_next c : op_id (cl_next_id c) -> cl_next_id (opened c) = cl_next_id c + 1.
Proof. intros []. simpl. apply wrap_small. unfold in_range, u64_max. lia. Qed.

(** A client whose channels differ from the opened ones only at the new
    operation's is seen as [rest_acted]. *)
Lemma opened_rest k s c c' b :
  view c k s -> op_id (cl_next_id c) -> cl_next_id c' = cl_next_id (opened c) ->
  (cl_bytes c' = None <-> cl_bytes c = None) ->
  bytes_free (cl_bytes c') = bytes_free (cl_bytes c) - b ->
  (0 <= bytes_free (cl_bytes c) -> 0 <= bytes_free (cl_bytes c')) ->
  (forall id, id <> cl_next_id c ->
     os_rx (cl_chan c') id = os_rx (cl_chan (opened c)) id /\
     os_is_closed (cl_chan c') id = os_is_closed (cl_chan (opened c)) id) ->
  rest_acted s c c' b.
Proof.
  intros [_ _ _ _ Hu _] Hid Hn Hb1 Hb2 Hb3 Hch. constructor; [done| |].
  - intros id' Hin. pose proof (Hu id' Hin) as Hlt. destruct (Hch id') as [-> ->]; [lia|]. simpl.
    destruct (os_channel_frame (cl_chan c) (cl_next_id c) id') as [-> ->]; [lia|]. done.
  - rewrite Hn, opened_next by done. unfold op_id, u64_max in *. lia.
Qed.

(** A rejected request. *)
Lemma reject_view n k s c c1 start e :
  sys_inv limit n s -> view c k s -> op_id (cl_next_id c) ->
  (forall h, cl_shards c !! k = Some h ->
     exists h', cl_shards c1 !! k = Some h' /\ shard_acted 0 h h') ->
  (cl_bytes c1 = None <-> cl_bytes c = None) ->
  bytes_free (cl_bytes c1) = bytes_free (cl_bytes c) ->
  cl_chan c1 = cl_chan (opened c) -> cl_next_id c1 = cl_next_id (opened c) ->
  exists s', rtc (step_of limit ok) s s' /\ view (reject c1 (cl_next_id c) start e).1 k s'.
Proof.
  intros Hi Hv Hid Hsh Hb1 Hb2 Hch Hn.
  destruct (vw_shard _ _ _ Hv) as (h & Hh & _). destruct (Hsh h Hh) as (h' & Hh' & Ha).
  destruct (acted_step n s c (reject c1 (cl_next_id c) start e).1 k h h' 0 0) as [Hstep Hview];
    try done.
  - eapply opened_rest; try done; simpl.
    + change (bytes_free (cl_bytes c1) = bytes_free (cl_bytes c) - 0). lia.
    + change (0 <= bytes_free (cl_bytes c) -> 0 <= bytes_free (cl_bytes c1)). lia.
    + intros id Hne. rewrite Hch. by rewrite os_send_frame, os_send_closed by done.
  - pose proof (si_accounts _ _ _ Hi) as []. lia.
  - intros Hcb. pose proof (si_accounts _ _ _ Hi) as [].
    rewrite (vw_bytes _ _ _ Hv) in *. destruct (cl_bytes c), limit; try done. lia.
  - eexists. split; [by apply rtc_once|]. done.
Qed.

(** Permits that go back. *)
Lemma return_permits_spec c i pm :
  (permit_bytes pm <> None -> cl_bytes c <> None) ->
  let c' := return_permits c i pm in
  cl_shards c' = alter (fun h => shard_sem (sem_release (sh_sem h) 1) h) i (cl_shards c) /\
  (cl_bytes c' = None <-> cl_bytes c = None) /\
  bytes_free (cl_bytes c') = bytes_free (cl_bytes c) + default 0 (permit_bytes pm) /\
  cl_chan c' = cl_chan c /\ cl_next_id c' = cl_next_id c.
Proof.
  intros Hp. unfold return_permits, cl_bytes, set_bytes in *.
  destruct c as [? ? [a|] ? ? ? ? ?], (permit_bytes pm) as [b|]; simpl in *;
    rewrite ?sem_release_free; split_and!; try (done || lia).
  by destruct Hp.
Qed.

(** The byte permits of a selection under the system's limit. *)
Lemma limit_bytes n s c k :
  sys_inv limit n s -> view c k s ->
  (cl_bytes c = None <-> limit = None) /\ 0 <= sy_held s /\
  (cl_bytes c <> None -> 0 <= sy_elsewhere s) /\ (cl_bytes c = None -> sy_elsewhere s = 0).
Proof.
  intros Hi Hv. pose proof (si_accounts _ _ _ Hi) as []. rewrite (vw_bytes _ _ _ Hv) in *.
  destruct (cl_bytes c), limit; try done; split_and!; (done || lia).
Qed.

(** The callers act and then send a read to shard [i], seen from shard [k]. *)
Lemma sent_view n k s c c2 i h h' T b id f off len pm al :
  sys_inv limit n s -> view c k s -> cl_shards c !! k = Some h -> cl_shards c2 !! k = Some h' ->
  shard_acted T h h' -> rest_acted s c c2 b -> 0 <= sy_held s + T ->
  (cl_bytes c = None -> b = 0) ->
  (i = k -> sh_alive h' = true /\ 1 <= sy_held s + T) ->
  default 0 (permit_bytes pm) <= sy_elsewhere s + b ->
  permit_bytes pm = charged limit (charge_of off len al) ->
  op_id id -> id < cl_next_id c2 -> id ∉ sy_used s ->
  os_rx (cl_chan c2) id = RxEmpty -> os_is_closed (cl_chan c2) id = false ->
  request_ok off len al ->
  exists s', rtc (step_of limit ok) s s' /\
    view (upd_shard c2 i (shard_send (MsgRead id f off len id pm al))) k s'.
Proof.
  intros Hi Hv Hh Hh' Hact Hrest HT Hb0 Hik Hels Hpm Hid Hnext Hnew Hrx Hcl Hok.
  assert (Hels0 : 0 <= sy_elsewhere s + b).
  { pose proof (charge_of_nonneg _ _ _ Hok). rewrite Hpm in Hels. unfold charged in Hels.
    destruct limit; simpl in Hels; lia. }
  set (msg := MsgRead _ _ _ _ _ _ _). destruct (decide (i = k)) as [->|Hne].
  - destruct (Hik eq_refl) as [Halive Hone].
    destruct (acted_step n s c c2 k h h' T b) as [Hstep Hview]; try done.
    assert (Hi1 : sys_inv limit n (acted s c2 h' T b)) by by eapply step_inv.
    destruct (send_step n (acted s c2 h' T b) c2 (upd_shard c2 k (shard_send msg)) k h'
      id f off len pm al) as (s' & Hs' & Hv'); try done.
    + simpl. by rewrite list_lookup_alter_eq, Hh'.
    + exists s'. split; [|done]. eapply rtc_l; [exact Hstep|]. by apply rtc_once.
  - destruct (acted_step n s c (upd_shard c2 i (shard_send msg)) k h h' T b)
      as [Hstep Hview]; try done.
    + simpl. by rewrite list_lookup_alter_ne.
    + destruct Hrest. by constructor.
    + eexists. split; [by apply rtc_once|]. done.
Qed.

(** The callers act and then give the permits of a read back to shard [i]. *)
Lemma returned_view n k s c c3 i h h' T pm :
  sys_inv limit n s -> view c k s -> cl_shards c !! k = Some h -> cl_shards c3 !! k = Some h' ->
  shard_acted T h h' -> rest_acted s c c3 (default 0 (permit_bytes pm)) ->
  (permit_bytes pm <> None -> cl_bytes c3 <> None) ->
  0 <= default 0 (permit_bytes pm) ->
  0 <= sy_held s + (if decide (i = k) then T - 1 else T) ->
  exists s', rtc (step_of limit ok) s s' /\ view (return_permits c3 i pm) k s'.
Proof.
  intros Hi Hv Hh Hh' Hact [(Hn & Hf & Hp) Hch Hnx] Hpm Hnn HT.
  destruct (return_permits_spec c3 i pm Hpm) as (Hrs & Hrb & Hrf & Hrc & Hrn).
  destruct (limit_bytes _ _ _ _ Hi Hv) as (_ & _ & Hels & _).
  destruct (acted_step n s c (return_permits c3 i pm) k h
    (if decide (i = k) then shard_sem (sem_release (sh_sem h') 1) h' else h')
    (if decide (i = k) then T - 1 else T) 0) as [Hstep Hview]; try done.
  - rewrite Hrs. case_decide as Hik.
    + subst i. by rewrite list_lookup_alter_eq, Hh'.
    + by rewrite list_lookup_alter_ne.
  - case_decide; [|done]. destruct Hact.
    constructor; simpl; rewrite ?sem_release_free, ?sem_release_closed; try (done || lia); auto.
  - constructor; rewrite ?Hrb, ?Hrf, ?Hrc, ?Hrn; try done. split_and!; (tauto || lia).
  - intros Hcb. specialize (Hels Hcb). lia.
  - eexists. split; [by apply rtc_once|]. done.
Qed.

(** The byte permits of an accepted read. *)
Lemma accepted_bytes n k s c c1 pm off len al :
  sys_inv limit n s -> view c k s -> request_ok off len al ->
  selected (cl_bytes c) (cl_bytes c1) (charge_of off len al) (inl pm) ->
  let b := default 0 (permit_bytes pm) in
  0 <= b /\ (cl_bytes c = None -> b = 0) /\ b <= sy_elsewhere s + b /\
  (0 <= bytes_free (cl_bytes c) -> 0 <= bytes_free (cl_bytes c1)) /\
  permit_bytes pm = charged limit (charge_of off len al) /\
  (permit_bytes pm <> None -> cl_bytes c1 <> None).
Proof.
  intros Hi Hv Hok (Hb1 & Hpm & _ & Hbf & Hen) b.
  pose proof (charge_of_nonneg _ _ _ Hok) as [Hch0 _].
  destruct (limit_bytes _ _ _ _ Hi Hv) as (Hlim & _ & Hels0 & Hels1).
  unfold b, charged. rewrite Hpm in *. destruct (cl_bytes c) as [bs|] eqn:Hcb; simpl in *.
  - specialize (Hels0 ltac:(done)). specialize (Hen ltac:(done)).
    split_and!; try (done || lia).
    + destruct limit; [done|]. by destruct Hlim as [_ Hx]; specialize (Hx eq_refl).
    + intros _. by intros ?%Hb1.
  - specialize (Hels1 eq_refl). destruct Hlim as [Hx _]. rewrite (Hx eq_refl).
    split_and!; (done || lia).
Qed.

(** Taking permits and sending the read, seen from the shard that gets it and
    from the others. *)
Lemma accepted_view n k s c c1 i pm f off len al notify :
  sys_inv limit n s -> view c k s -> op_id (cl_next_id c) ->
  took_one (cl_shards c) (cl_shards c1) i true ->
  selected (cl_bytes c) (cl_bytes c1) (charge_of off len al) (inl pm) ->
  cl_chan c1 = cl_chan (opened c) -> cl_next_id c1 = cl_next_id (opened c) ->
  request_ok off len al -> is_Some (cl_shards c !! i) ->
  exists s', rtc (step_of limit ok) s s' /\
    view (dispatch c1 (cl_next_id c) i (inl pm) f off len al (charge_of off len al) notify).1 k s'.
Proof.
  intros Hi Hv Hid [Hlen Hto] Hsel Hch Hn Hok [hi Hhi].
  destruct (accepted_bytes _ _ _ _ _ _ _ _ _ Hi Hv Hok Hsel) as (Hb & Hb0 & Hels & Hfree & Hpm & Hpn).
  destruct Hsel as (Hb1 & _ & _ & Hbf & _). set (b := default 0 (permit_bytes pm)) in *.
  destruct (vw_shard _ _ _ Hv) as (h & Hh & _).
  destruct (Hto k h Hh) as (h' & Hh' & Htk). destruct (Hto i hi Hhi) as (hi' & Hhi' & _).
  destruct (limit_bytes _ _ _ _ Hi Hv) as (_ & Hheld & _ & _). apply took_acted in Htk.
  unfold dispatch, send_read.
  set (c2 := set_pool c1 _). change (cl_shards c2) with (cl_shards c1). rewrite Hhi'.
  set (pm' := with_shared pm _).
  assert (Hrest : forall c3, cl_bytes c3 = cl_bytes c1 -> cl_next_id c3 = cl_next_id c1 ->
    (forall id, id <> cl_next_id c -> os_rx (cl_chan c3) id = os_rx (cl_chan c1) id /\
       os_is_closed (cl_chan c3) id = os_is_closed (cl_chan c1) id) -> rest_acted s c c3 b).
  { intros c3 E1 E2 E3. rewrite Hch in E3. eapply opened_rest; rewrite ?E1, ?E2; try done. }
  destruct (sh_alive hi') eqn:Halive.
  - destruct (sent_view n k s c c2 i h h' (if bool_decide (k = i) then 1 else 0) b
      (cl_next_id c) f off len pm' al) as (s' & Hs' & Hv'); try done.
    + by apply Hrest.
    + case_bool_decide; lia.
    + intros ->. rewrite bool_decide_eq_true_2 by done. rewrite Hh' in Hhi'.
      injection Hhi' as ->. split; [done|lia].
    + change (cl_next_id c < cl_next_id c1). rewrite Hn, opened_next by done. lia.
    + intros Hin. pose proof (vw_used _ _ _ Hv _ Hin). lia.
    + simpl. rewrite Hch. simpl. apply os_channel_rx.
    + simpl. rewrite Hch. simpl. apply os_channel_open.
    + exists s'. split; [done|]. destruct notify; [by apply signal_view | done].
  - simpl. eapply (returned_view n k s c (set_chan c2 _) i h h'); try done.
    + by apply Hrest; [| |intros id Hne; simpl; rewrite os_send_frame, os_send_closed].
    + destruct (decide (i = k)) as [->|Hne].
      * rewrite bool_decide_eq_true_2 by done. simpl. lia.
      * rewrite bool_decide_eq_false_2 by done. simpl. lia.
Qed.

(** What holds of a handle [submit] gave, seen from shard [k]: while it waits,
    its operation is unknown to the shard and its request is charged. *)
Definition handle_ok (k : nat) c s (h : ReadHandle Sm) : Prop :=
  match rh_state h with
  | WaitingPermit acquire f off len al done_ =>
      done_ = rh_id h /\ op_id (rh_id h) /\ rh_id h < cl_next_id c /\ (rh_id h ∉ sy_used s) /\
      os_rx (cl_chan c) (rh_id h) = RxEmpty /\ os_is_closed (cl_chan c) (rh_id h) = false /\
      request_ok off len al /\ acquire_ok (cl_bytes c) acquire /\
      (acquire <> AcquireDone -> acquire_charge acquire = Some (charge_of off len al)) /\
      (rh_shard h = k -> acquire_held acquire <= sy_held s)
  | _ => True
  end.

(** A handle without anything at stake is fine in any system. *)
Lemma with_inert k s c (h : ReadHandle Sm) :
  rh_state h = Inert ->
  (exists s', rtc (step_of limit ok) s s' /\ view c k s') ->
  exists s', rtc (step_of limit ok) s s' /\ view c k s' /\ handle_ok k c s' h.
Proof. intros Hh (s' & ? & ?). exists s'. split_and!; try done. unfold handle_ok. by rewrite Hh. Qed.

Lemma charge_is_u32 off len al :
  request_ok off len al -> wrap u32_max (charge_of off len al) = charge_of off len al.
Proof. intros Hok%charge_of_nonneg. apply wrap_small. unfold in_range. lia. Qed.

(** A read that has to wait for its permits. *)
Lemma deferred_view n k s c c1 i f off len al c' h :
  sys_inv limit n s -> view c k s -> op_id (cl_next_id c) -> request_ok off len al ->
  (forall h0, cl_shards c !! k = Some h0 ->
     exists h', cl_shards c1 !! k = Some h' /\ shard_acted 0 h0 h') ->
  (cl_bytes c1 = None <-> cl_bytes c = None) ->
  bytes_free (cl_bytes c1) = bytes_free (cl_bytes c) ->
  cl_chan c1 = cl_chan (opened c) -> cl_next_id c1 = cl_next_id (opened c) ->
  dispatch c1 (cl_next_id c) i (inr NoPermits) f off len al (charge_of off len al) true = (c', h) ->
  exists s', rtc (step_of limit ok) s s' /\ view c' k s' /\ handle_ok k c' s' h.
Proof.
  intros Hi Hv Hid Hok Hsh Hb1 Hb2 Hch Hn [= <- <-].
  destruct (limit_bytes _ _ _ _ Hi Hv) as (_ & Hheld & Hels0 & _).
  destruct (vw_shard _ _ _ Hv) as (h0 & Hh0 & _). destruct (Hsh h0 Hh0) as (h' & Hh' & Ha).
  set (c2 := set_pool _ _).
  destruct (acted_step n s c c2 k h0 h' 0 0) as [Hstep Hview]; try done.
  - eapply opened_rest; try done.
    + change (bytes_free (cl_bytes c1) = bytes_free (cl_bytes c) - 0). lia.
    + change (0 <= bytes_free (cl_bytes c) -> 0 <= bytes_free (cl_bytes c1)). lia.
    + intros id Hne. change (cl_chan c2) with (cl_chan c1). by rewrite Hch.
  - lia.
  - intros Hcb. specialize (Hels0 Hcb). lia.
  - eexists. split; [by apply rtc_once|]. split; [done|]. unfold handle_ok.
    change (cl_chan c2) with (cl_chan c1). change (cl_next_id c2) with (cl_next_id c1).
    change (cl_bytes c2) with (cl_bytes c1). rewrite Hch, Hn, opened_next by done. simpl.
    rewrite os_channel_rx, os_channel_open, sem_acquire_wants. split_and!; try (done || lia).
    intros Hin. pose proof (vw_used _ _ _ Hv _ Hin). lia.
Qed.

Lemma submit_view n k s c f off len al allow notify c' h :
  sys_inv limit n s -> view c k s ->
  in_range u64_max off -> in_range usize_max len -> (allow = true -> al = 1) ->
  submit c f off len al allow notify = Some (c', h) ->
  exists s', rtc (step_of limit ok) s s' /\ view c' k s' /\ handle_ok k c' s' h.
Proof.
  intros Hi Hv Hoff Hlen Hal. unfold submit.
  destruct (Z.land (cl_next_id c) CANCEL_BIT =? 0) eqn:Hbit; [|done]. simpl. bools.
  assert (Hid : op_id (cl_next_id c)) by (apply op_id_of_counter; [apply Hv|done]).
  fold (opened c). set (start := Z.to_nat _).
  pose proof (check_request_spec (cl_limits c) off len al allow Hoff Hlen Hal) as Hchk.
  destruct (check_request _ _ _ _ _) as [bytes|e].
  2: { intros [= <- <-]. change (set_chan _ _) with (reject (opened c) (cl_next_id c) start e).1.
       apply with_inert; [done|]. apply (reject_view n k s c (opened c) start e); try done.
       intros h0 Hh0. exists h0. split; [done|]. apply took_acted, took_refl. }
  destruct Hchk as [[Hok _ _ _ _] ->]. rewrite (charge_is_u32 off len al Hok).
  destruct (select_read_shard _ _ _ _) as [[[c1 i] res]|] eqn:Hsel; [|done]. simpl.
  destruct (select_read_shard_spec _ _ _ _ _ _ _ Hsel) as (Hi1 & Hto & Hsl & Hrest).
  destruct Hrest as (_ & _ & Hn & _ & Hch & _ & _).
  intros [= Hd]. destruct res as [pm|e].
  { assert (Hh : forall s0, handle_ok k c' s0 h).
    { intros s0. revert Hd. unfold dispatch. destruct (send_read _ _ _ _ _ _ _ _ _) as [c2 []];
        intros [= _ <-]; done. }
    destruct (accepted_view n k s c c1 i pm f off len al notify) as (s' & ? & Hv'); try done.
    rewrite Hd in Hv'. exists s'. by split_and!. }
  assert (Hsh : forall h0, cl_shards c !! k = Some h0 ->
    exists h', cl_shards c1 !! k = Some h' /\ shard_acted 0 h0 h').
  { intros h0 Hh0. destruct (proj2 Hto k h0 Hh0) as (h' & Hh' & Ht). exists h'.
    split; [done|]. by apply took_acted. }
  destruct Hsl as [Hb1 Hb2]. simpl in Hb2. destruct e.
  - by eapply (deferred_view n k s c c1 i).
  - simpl in Hd. injection Hd as <- <-. apply with_inert; [done|].
    by apply (reject_view n k s c c1 i shut_down_error).
Qed.

(** A poll or drop of the acquire future of shard [i], seen from shard [k]. *)
Lemma sem_update_acted (l : list (Shard Sm)) (i k : nat) sh h sm t :
  l !! i = Some sh -> l !! k = Some h ->
  sem_free sm = sem_free (sh_sem sh) - t -> sem_is_closed sm = sem_is_closed (sh_sem sh) ->
  (0 <= sem_free (sh_sem sh) -> 0 <= sem_free sm) ->
  exists h', alter (shard_sem sm) i l !! k = Some h' /\
    shard_acted (if decide (i = k) then t else 0) h h'.
Proof.
  intros Hi Hk Hf Hc Hn. case_decide as Hik.
  - subst. rewrite Hi in Hk. injection Hk as <-. rewrite list_lookup_alter_eq, Hi.
    eexists. split; [done|]. constructor; simpl; (done || congruence).
  - rewrite list_lookup_alter_ne by done. exists h. split; [done|]. apply took_acted, took_refl.
Qed.

Lemma set_bytes_fields c b :
  (b = None <-> cl_bytes c = None) ->
  cl_shards (set_bytes c b) = cl_shards c /\ cl_bytes (set_bytes c b) = b /\
  cl_chan (set_bytes c b) = cl_chan c /\ cl_next_id (set_bytes c b) = cl_next_id c /\
  cl_pool (set_bytes c b) = cl_pool c.
Proof.
  intros Hb. split_and!; [..|by apply cl_bytes_set_bytes| | |];
    by destruct c as [? ? [|] ? ? ? ? ?], b.
Qed.

(** Rebuilding [rest_acted] when no channel changed. *)
Lemma same_chan_rest k s c c' b :
  view c k s -> cl_next_id c' = cl_next_id c -> cl_chan c' = cl_chan c ->
  (cl_bytes c' = None <-> cl_bytes c = None) ->
  bytes_free (cl_bytes c') = bytes_free (cl_bytes c) - b ->
  (0 <= bytes_free (cl_bytes c) -> 0 <= bytes_free (cl_bytes c')) ->
  rest_acted s c c' b.
Proof.
  intros [_ _ _ _ _ Hn] En Ec ? ? ?. constructor; [done|by rewrite Ec|]. rewrite En. lia.
Qed.

(** The byte permits of a completed poll. *)
Lemma polled_bytes_spec n k s c off len al res :
  sys_inv limit n s -> view c k s -> request_ok off len al ->
  (forall pm, res = PermitsReady pm ->
     permit_bytes pm = (_ ← cl_bytes c; Some (charge_of off len al))) ->
  let b := polled_bytes res in
  0 <= b /\ (cl_bytes c = None -> b = 0) /\ (cl_bytes c <> None -> 0 <= sy_elsewhere s + b) /\
  b <= sy_elsewhere s + b /\
  (forall pm, res = PermitsReady pm -> permit_bytes pm = charged limit (charge_of off len al) /\
     (permit_bytes pm <> None -> cl_bytes c <> None)).
Proof.
  intros Hi Hv Hreq Hpm b. pose proof (charge_of_nonneg _ _ _ Hreq).
  destruct (limit_bytes _ _ _ _ Hi Hv) as ([Hl1 Hl2] & _ & Hels0 & Hels1).
  assert (Hels : 0 <= sy_elsewhere s).
  { destruct (cl_bytes c); [by apply Hels0 | by rewrite Hels1]. }
  unfold b. destruct res as [|pm|]; simpl; try (split_and!; (done || lia)).
  specialize (Hpm pm eq_refl). rewrite Hpm.
  assert (Hpmc : permit_bytes pm = charged limit (charge_of off len al)).
  { rewrite Hpm. unfold charged. destruct (cl_bytes c), limit; naive_solver. }
  destruct (cl_bytes c) eqn:Hcb; simpl in *; split_and!; try (done || lia);
    intros pm' [= <-]; split; (done || congruence).
Qed.

(** What one poll of the acquire future of a waiting handle does, seen from
    shard [k]: any client that differs from [c] by the new semaphores, and in
    no channel of a sent operation, is one step of the callers away. *)
Lemma polled_acted n k s c h acquire f off len al sh sm b1 acquire' res :
  sys_inv limit n s -> view c k s -> handle_ok k c s h ->
  rh_state h = WaitingPermit acquire f off len al (rh_id h) ->
  cl_shards c !! rh_shard h = Some sh ->
  poll_acquire (sh_sem sh) (cl_bytes c) acquire = (sm, b1, acquire', res) ->
  let c1 := set_bytes (upd_shard c (rh_shard h) (shard_sem sm)) b1 in
  let t := acquire_held acquire' + polled_count res - acquire_held acquire in
  let T := if decide (rh_shard h = k) then t else 0 in
  (cl_shards c1 = alter (shard_sem sm) (rh_shard h) (cl_shards c) /\ cl_bytes c1 = b1 /\
   cl_chan c1 = cl_chan c /\ cl_next_id c1 = cl_next_id c) /\
  0 <= sy_held s + T /\
  (rh_shard h = k -> acquire_held acquire <= sy_held s) /\
  exists hk hk', cl_shards c !! k = Some hk /\ cl_shards c1 !! k = Some hk' /\
    shard_acted T hk hk' /\
    forall c2, cl_bytes c2 = b1 -> cl_next_id c2 = cl_next_id c ->
      (forall id, id ∈ sy_used s -> os_rx (cl_chan c2) id = os_rx (cl_chan c) id /\
         (os_is_closed (cl_chan c) id = true -> os_is_closed (cl_chan c2) id = true)) ->
      rest_acted s c c2 (polled_bytes res).
Proof.
  intros Hi Hv Hok Hst Hsh Hp c1 t T. unfold handle_ok in Hok. rewrite Hst in Hok.
  destruct Hok as (_ & _ & _ & _ & _ & _ & _ & Hacq & _ & Hheld).
  destruct (poll_acquire_spec _ _ _ _ _ _ _ Hacq Hp)
    as (Hf & Hfb & _ & Hb1 & Hcl & Hn1 & Hn2 & _ & _).
  destruct (set_bytes_fields (upd_shard c (rh_shard h) (shard_sem sm)) b1 Hb1)
    as (Es & Eb & Ec & En & _). fold c1 in Es, Eb, Ec, En.
  destruct (vw_shard _ _ _ Hv) as (hk & Hhk & _).
  destruct (limit_bytes _ _ _ _ Hi Hv) as (_ & Hh0 & _ & _).
  destruct (sem_update_acted (cl_shards c) (rh_shard h) k sh hk sm t) as (hk' & Hhk' & Hact);
    [done..|unfold t; lia|done|done|].
  split; [by split_and!|].
  pose proof (acquire_held_bound acquire). pose proof (acquire_held_bound acquire').
  split; [unfold T, t; case_decide as Hik; [specialize (Hheld Hik)|]; destruct res; simpl; lia|].
  split; [done|]. exists hk, hk'. split; [done|]. split; [by rewrite Es|]. split; [done|].
  intros c2 E1 E2 E3. constructor; [|done|].
  - rewrite E1. split_and!; (tauto || lia).
  - rewrite E2. pose proof (vw_next _ _ _ Hv). lia.
Qed.

(** A deferred read that got its permits is sent, or given back. *)
Lemma ready_view n k s c h acquire f off len al sh sm b1 acquire' pm :
  sys_inv limit n s -> view c k s -> handle_ok k c s h ->
  rh_state h = WaitingPermit acquire f off len al (rh_id h) ->
  cl_shards c !! rh_shard h = Some sh ->
  poll_acquire (sh_sem sh) (cl_bytes c) acquire = (sm, b1, acquire', PermitsReady pm) ->
  let c1 := set_bytes (upd_shard c (rh_shard h) (shard_sem sm)) b1 in
  let c2 := upd_shard c1 (rh_shard h) (shard_send (MsgRead (rh_id h) f off len (rh_id h) pm al)) in
  exists s', rtc (step_of limit ok) s s' /\
    view (if sh_alive sh then c2 else
            return_permits (set_chan c1 (os_drop_tx (cl_chan c1) (rh_id h))) (rh_shard h) pm) k s'.
Proof.
  intros Hi Hv Hok Hst Hsh Hp c1 c2.
  destruct (polled_acted _ _ _ _ _ _ _ _ _ _ _ _ _ _ _ Hi Hv Hok Hst Hsh Hp)
    as ((Es & Eb & Ec & En) & HT0 & Hheld & hk & hk' & Hhk & Hhk' & Hact & Hrest).
  fold c1 in Es, Eb, Ec, En, Hhk'.
  unfold handle_ok in Hok. rewrite Hst in Hok.
  destruct Hok as (_ & Hid & Hnext & Hnew & Hempty & Hopen & Hreq & Hacq & Hcharge & _).
  destruct (poll_acquire_spec _ _ _ _ _ _ _ Hacq Hp)
    as (_ & _ & _ & Hb1 & _ & _ & _ & (-> & Hne & _ & Hpm) & _). rewrite Hcharge in Hpm by done.
  destruct (polled_bytes_spec n k s c off len al (PermitsReady pm) Hi Hv Hreq)
    as (Hb & Hbn & _ & Hels & Hpms); [by intros ? [= <-]|].
  destruct (Hpms pm eq_refl) as [Hpmc Hpmn]. simpl in Hact, HT0.
  pose proof (acquire_held_bound acquire) as Hab.
  destruct (sh_alive sh) eqn:Halive.
  - eapply (sent_view n k s c c1 (rh_shard h) hk hk'); try done.
    + apply Hrest; [done..|by rewrite Ec].
    + intros Hik. split; [|rewrite decide_True by done; specialize (Hheld Hik); lia].
      rewrite (sa_alive _ _ _ Hact). rewrite Hik, Hhk in Hsh. by injection Hsh as ->.
  - eapply (returned_view n k s c (set_chan c1 _) (rh_shard h) hk hk'); try done.
    + apply Hrest; [done..|]. intros id Hin.
      change (cl_chan (set_chan c1 _)) with (os_drop_tx (cl_chan c1) (rh_id h)).
      rewrite Ec, os_drop_tx_closed. split; [|done]. apply os_drop_tx_frame. intros ->. by apply Hnew.
    + intros Hx. change (cl_bytes c1 <> None). rewrite Eb. intros Hy%Hb1. by apply Hpmn.
    + case_decide as Hik; [specialize (Hheld Hik)|]; lia.
Qed.

Lemma poll_rx_fields c (h : ReadHandle Sm) c' h' r :
  poll_rx c h = (c', h', r) -> c' = c /\ rh_state h' = rh_state h /\ rh_id h' = rh_id h /\
  rh_shard h' = rh_shard h.
Proof. unfold poll_rx. case_match; by intros [= <- <- _]. Qed.

Lemma poll_view n k s c h c' h' r :
  sys_inv limit n s -> view c k s -> handle_ok k c s h -> poll c h = (c', h', r) ->
  exists s', rtc (step_of limit ok) s s' /\ view c' k s' /\ handle_ok k c' s' h'.
Proof.
  intros Hi Hv Hok. unfold poll.
  assert (Hrx : forall c0 h0 s0, view c0 k s0 -> rtc (step_of limit ok) s s0 -> handle_ok k c0 s0 h0 ->
    poll_rx c0 h0 = (c', h', r) ->
    exists s', rtc (step_of limit ok) s s' /\ view c' k s' /\ handle_ok k c' s' h').
  { intros c0 h0 s0 Hv0 Hs0 Hh0 (-> & E1 & E2 & E3)%poll_rx_fields. exists s0. split_and!; [done..|].
    unfold handle_ok in *. by rewrite E1, E2, E3. }
  destruct (rh_state h) as [|acquire f off len al done_|] eqn:Hst;
    [by apply (Hrx c h s)| |by apply (Hrx c h s)].
  destruct (cl_shards c !! rh_shard h) as [sh|] eqn:Hsh; [|intros [= <- <- _]; by exists s].
  destruct (poll_acquire _ _ _) as [[[sm b1] acquire'] res] eqn:Hp.
  pose proof Hok as Hok'. unfold handle_ok in Hok'. rewrite Hst in Hok'.
  destruct Hok' as (-> & Hid & Hnext & Hnew & Hempty & Hopen & Hreq & Hacq & Hcharge & _).
  destruct (polled_acted _ _ _ _ _ _ _ _ _ _ _ _ _ _ _ Hi Hv Hok Hst Hsh Hp)
    as ((Es & Eb & Ec & En) & HT0 & Hheld & hk & hk' & Hhk & Hhk' & Hact & Hrest).
  destruct (poll_acquire_spec _ _ _ _ _ _ _ Hacq Hp) as (_ & _ & Hacq' & _ & _ & _ & _ & Hres & _).
  destruct (limit_bytes _ _ _ _ Hi Hv) as (_ & _ & Hels & _).
  set (c1 := set_bytes _ b1) in *. set (T := if decide _ then _ else 0) in *.
  assert (Hone : forall c2, cl_shards c2 !! k = Some hk' -> cl_bytes c2 = b1 ->
    cl_chan c2 = cl_chan c -> cl_next_id c2 = cl_next_id c -> polled_bytes res = 0 ->
    step_of limit ok s (acted s c2 hk' T 0) /\ view c2 k (acted s c2 hk' T 0)).
  { intros c2 E1 E2 E3 E4 E5. eapply acted_step; try done.
    - rewrite <-E5. apply Hrest; [done..|by rewrite E3].
    - intros Hcb. specialize (Hels Hcb). lia. }
  destruct res as [|pm|].
  - destruct Hres as [_ Hc']. destruct (Hone _ Hhk' Eb Ec En eq_refl) as [Hstep Hview].
    intros [= <- <- _]. eexists. split; [by apply rtc_once|]. split; [done|].
    unfold handle_ok. rewrite Ec, En, Eb. simpl. split_and!; try done.
    + intros Hne. rewrite Hc'. apply Hcharge. intros ->. simpl in Hp. injection Hp as _ _ <-. done.
    + intros Hik. specialize (Hheld Hik). unfold T. rewrite decide_True by done. simpl. lia.
  - destruct (ready_view _ _ _ _ _ _ _ _ _ _ _ _ _ _ _ Hi Hv Hok Hst Hsh Hp) as (s' & Hs' & Hv').
    unfold send_read. rewrite Es, list_lookup_alter_eq, Hsh. simpl.
    destruct (sh_alive sh); simpl in *.
    + intros Hpoll. by eapply (Hrx _ (set_state h Submitted) s'); [apply signal_view| | |].
    + intros [= <- <- _]. by exists s'.
  - subst acquire'. set (c2 := set_pool _ _). destruct (Hone c2 Hhk' Eb Ec En eq_refl) as [Hstep Hview].
    intros [= <- <- _]. eexists. split; [by apply rtc_once|]. split; [done|].
    unfold handle_ok. change (cl_bytes c2) with (cl_bytes c1).
    change (cl_chan c2) with (cl_chan c1). change (cl_next_id c2) with (cl_next_id c1).
    rewrite Eb, Ec, En. simpl. by split_and!.
Qed.

Lemma close_rx_view n k s c id :
  sys_inv limit n s -> view c k s ->
  exists s', rtc (step_of limit ok) s s' /\ view (set_chan c (os_close (cl_chan c) id)) k s' /\
    sy_used s' = sy_used s /\ sy_held s' = sy_held s.
Proof.
  intros Hi Hv. destruct (vw_shard _ _ _ Hv) as (h & Hh & _).
  destruct (limit_bytes _ _ _ _ Hi Hv) as (_ & Hh0 & Hels0 & _).
  set (c' := set_chan c _).
  destruct (acted_step n s c c' k h h 0 0) as [Hstep Hview]; try done.
  - apply took_acted, took_refl.
  - constructor.
    + change (cl_bytes c') with (cl_bytes c). split_and!; done || lia.
    + intros id' _. simpl. rewrite os_close_rx. split; [done|]. intros Hc.
      destruct (decide (id' = id)) as [->|Hne]; [apply os_close_closed|].
      by rewrite os_close_frame.
    + pose proof (vw_next _ _ _ Hv). simpl. lia.
  - lia.
  - intros Hcb. specialize (Hels0 Hcb). lia.
  - eexists. split; [by apply rtc_once|]. split; [done|]. simpl. split; [done|lia].
Qed.

(** A message that carries no read. *)
Lemma notify_view k s c i m :
  view c k s -> msg_read_id m = None ->
  exists s', rtc (step_of limit ok) s s' /\ view (upd_shard c i (shard_send m)) k s' /\
    sy_used s' = sy_used s /\ sy_held s' = sy_held s.
Proof.
  intros Hv Hm. destruct Hv as [(h & Hh & Hw & Hal & Hq) Hb Hp Hc Hu Hn].
  destruct (decide (i = k)) as [->|Hne].
  2: { exists s. split; [done|]. split; [|done]. constructor; try done. simpl.
       rewrite list_lookup_alter_ne by done. eauto. }
  destruct (sh_alive h) eqn:Halive.
  - eexists. split; [apply rtc_once, (StepNotify limit ok s m); [by apply Hal | done]|].
    split; [|done]. constructor; simpl; try done. rewrite list_lookup_alter_eq, Hh.
    eexists. split; [done|]. unfold shard_send. rewrite Halive. simpl. split_and!; try done.
    intros _. by rewrite Hq.
  - exists s. split; [done|]. split; [|done]. constructor; try done. simpl.
    rewrite list_lookup_alter_eq, Hh. eexists. split; [done|]. unfold shard_send.
    rewrite Halive. simpl. by rewrite Halive.
Qed.

Lemma drop_view n k s c h :
  sys_inv limit n s -> view c k s -> handle_ok k c s h ->
  exists s', rtc (step_of limit ok) s s' /\ view (drop_handle c h) k s'.
Proof.
  intros Hi Hv Hok. unfold drop_handle, drop_fields. unfold handle_ok in Hok.
  destruct (rh_state h) as [|acquire f off len al done_|] eqn:Hst.
  - destruct (close_rx_view n k s c (rh_id h) Hi Hv) as (s' & ? & ? & _). eauto.
  - destruct Hok as (-> & _ & _ & Hnew & _ & _ & _ & _ & _ & Hheld).
    destruct (close_rx_view n k s c (rh_id h) Hi Hv) as (s1 & Hs1 & Hv1 & Hu1 & Hh1).
    set (c1 := set_chan c _) in *. change (cl_shards c1) with (cl_shards c).
    assert (Hi1 : sys_inv limit n s1) by by eapply steps_inv.
    destruct (cl_shards c !! rh_shard h) as [sh|] eqn:Hsh; [|eauto].
    destruct (drop_acquire (sh_sem sh) (cl_bytes c1) acquire) as [sm b1] eqn:Hd.
    destruct (drop_acquire_spec (sh_sem sh) (cl_bytes c1) acquire) as (Hf & Hfb & Hb1 & Hcl).
    rewrite Hd in Hf, Hfb, Hb1, Hcl. simpl in Hf, Hfb, Hb1, Hcl.
    set (c2 := set_bytes _ _).
    destruct (set_bytes_fields (upd_shard c1 (rh_shard h) (shard_sem sm)) b1 Hb1)
      as (Es & Eb & Ec & En & _). fold c2 in Es, Eb, Ec, En.
    set (c3 := set_pool c2 _). set (c4 := set_chan c3 _).
    destruct (vw_shard _ _ _ Hv1) as (hk & Hhk & _).
    destruct (limit_bytes _ _ _ _ Hi1 Hv1) as (_ & Hh0 & Hels0 & _).
    pose proof (acquire_held_bound acquire) as Hab.
    destruct (sem_update_acted (cl_shards c1) (rh_shard h) k sh hk sm (- acquire_held acquire))
      as (hk' & Hhk' & Hact); [done..|lia|done|lia|].
    destruct (acted_step n s1 c1 c4 k hk hk'
      (if decide (rh_shard h = k) then - acquire_held acquire else 0) 0) as [Hstep Hview]; try done.
    + constructor.
      * change (cl_bytes c4) with (cl_bytes c2). rewrite Eb. split_and!; (tauto || lia).
      * intros id Hin. change (cl_chan c4) with (os_drop_tx (cl_chan c2) (rh_id h)).
        rewrite Ec, os_drop_tx_closed. split; [|done]. apply os_drop_tx_frame.
        intros ->. rewrite Hu1 in Hin. done.
      * change (cl_next_id c4) with (cl_next_id c2). rewrite En. simpl.
        pose proof (vw_next _ _ _ Hv). lia.
    + case_decide as Hik; [specialize (Hheld Hik)|]; lia.
    + intros Hcb. specialize (Hels0 Hcb). lia.
    + eexists. split; [|exact Hview]. etrans; [exact Hs1|]. by apply rtc_once.
  - assert (Hclose : forall c0 s0, view c0 k s0 -> rtc (step_of limit ok) s s0 ->
      exists s', rtc (step_of limit ok) s s' /\ view (set_chan c0 (os_close (cl_chan c0) (rh_id h))) k s').
    { intros c0 s0 Hv0 Hs0. destruct (close_rx_view n k s0 c0 (rh_id h)) as (s' & ? & ? & _);
        [by eapply steps_inv | done |]. exists s'. split; [by etrans|done]. }
    destruct (negb (rh_finished h) && rh_cancel_on_drop h); [|by apply (Hclose c s)].
    destruct (Hclose c s Hv) as (s1 & Hs1 & Hv1); [done|]. set (c1 := set_chan c _) in *.
    destruct (notify_view k s1 c1 (rh_shard h) (MsgCancel (rh_id h)) Hv1 eq_refl)
      as (s2 & Hs2 & Hv2 & _).
    apply (Hclose _ s2); [by apply signal_view | by etrans].
Qed.

(** ** Shutdown *)

(** Shards that were only closed. *)
Definition only_closed (l l' : list (Shard Sm)) : Prop :=
  forall k h, l !! k = Some h -> exists h', l' !! k = Some h' /\ shard_acted 0 h h'.

Lemma closed_acted h : shard_acted 0 h (shard_sem (sem_close (sh_sem h)) h).
Proof.
  constructor; simpl; rewrite ?sem_close_free, ?sem_close_closed; done || lia.
Qed.

Lemma only_closed_trans l1 l2 l3 : only_closed l1 l2 -> only_closed l2 l3 -> only_closed l1 l3.
Proof.
  intros Ha Hb k h Hk. destruct (Ha k h Hk) as (h1 & Hk1 & []).
  destruct (Hb k h1 Hk1) as (h2 & Hk2 & []). exists h2. split; [done|].
  constructor; try congruence; auto. lia.
Qed.

Lemma close_admission_spec c :
  only_closed (cl_shards c) (cl_shards (close_admission c)) /\
  (cl_bytes (close_admission c) = None <-> cl_bytes c = None) /\
  bytes_free (cl_bytes (close_admission c)) = bytes_free (cl_bytes c) /\
  cl_chan (close_admission c) = cl_chan c /\
  cl_next_id (close_admission c) = cl_next_id c.
Proof.
  assert (Hrefl : forall l, only_closed l l).
  { intros l k h Hk. exists h. split; [done|]. apply took_acted, took_refl. }
  unfold close_admission. destruct (cl_admission c) as [a|] eqn:Ha; [|by split_and!].
  simpl. set (c0 := set_admission c _).
  assert (Hfold : forall counts c1,
    let c2 := fold_left (fun c i => upd_shard c i (fun h => shard_sem (sem_close (sh_sem h)) h)) counts c1 in
    only_closed (cl_shards c1) (cl_shards c2) /\ cl_admission c2 = cl_admission c1 /\
    cl_chan c2 = cl_chan c1 /\ cl_next_id c2 = cl_next_id c1).
  { induction counts as [|i counts IH]; intros c1; simpl; [by split_and!|].
    destruct (IH (upd_shard c1 i (fun h => shard_sem (sem_close (sh_sem h)) h)))
      as (Hs & -> & -> & ->).
    split_and!; try done. eapply only_closed_trans; [|exact Hs]. intros k h Hk. simpl.
    destruct (decide (i = k)) as [->|Hne].
    - rewrite list_lookup_alter_eq, Hk. eexists. split; [done|]. apply closed_acted.
    - rewrite list_lookup_alter_ne by done. exists h. split; [done|]. apply took_acted, took_refl. }
  destruct (Hfold (ar_counts (ba_registry a)) c0) as (Hs & Had & Hc & Hn).
  unfold cl_bytes. rewrite Had, Ha. simpl. rewrite sem_close_free. split_and!; done.
Qed.

Lemma shutdown_view n k s c :
  sys_inv limit n s -> view c k s ->
  exists s', rtc (step_of limit ok) s s' /\ view (request_shutdown c) k s'.
Proof.
  intros Hi Hv. unfold request_shutdown.
  destruct (close_admission_spec c) as (Hs & Hb1 & Hb2 & Hc & Hn).
  set (c1 := close_admission c) in *. set (c2 := set_shards c1 _).
  destruct (vw_shard _ _ _ Hv) as (h & Hh & _).
  destruct (limit_bytes _ _ _ _ Hi Hv) as (_ & Hh0 & Hels0 & _).
  destruct (only_closed_trans _ _ (cl_shards c2) Hs) with (k := k) (h := h)
    as (h2 & Hh2 & Hact2); [|done|].
  { intros j h1 Hj. simpl. rewrite list_lookup_fmap, Hj. eexists. split; [done|].
    apply closed_acted. }
  destruct (acted_step n s c c2 k h h2 0 0) as [Hstep Hview]; try done.
  - constructor.
    + change (cl_bytes c2) with (cl_bytes c1). rewrite Hb1, Hb2. split_and!; done || lia.
    + intros id _. simpl. by rewrite Hc.
    + simpl. rewrite Hn. pose proof (vw_next _ _ _ Hv). lia.
  - lia.
  - intros Hcb. specialize (Hels0 Hcb). lia.
  - destruct (notify_view k _ c2 k MsgShutdown Hview eq_refl) as (s' & Hs' & Hv' & _).
    exists s'. split; [by eapply rtc_l|].
    destruct Hv' as [(hh & Hhh & Hrest) ? ? ? ? ?]. constructor; try done.
    exists (shard_signal hh). split; [|done]. simpl in *.
    rewrite list_lookup_alter_eq, Hh2 in Hhh. rewrite list_lookup_fmap, Hh2.
    simpl in *. congruence.
Qed.

(** ** The calls *)

(** A call of a caller's thread. *)
Inductive call :=
| CallSubmit (f : File) (off len al : Z) (allow notify : bool)
| CallPoll (h : ReadHandle Sm)
| CallDrop (h : ReadHandle Sm)
| CallShutdown.

(** What the call is given: arguments in their machine ranges, handles that
    this driver gave out. *)
Definition call_ok (k : nat) c s (x : call) : Prop :=
  match x with
  | CallSubmit _ off len al allow _ =>
      in_range u64_max off /\ in_range usize_max len /\ (allow = true -> al = 1)
  | CallPoll h | CallDrop h => handle_ok k c s h
  | CallShutdown => True
  end.

(** The call's effect on the driver and the handle it leaves, if any. *)
Definition run_call c (x : call) : option (Client Sm Ch * option (ReadHandle Sm)) :=
  match x with
  | CallSubmit f off len al allow notify =>
      '(c', h) ← submit c f off len al allow notify; Some (c', Some h)
  | CallPoll h => let '(c', h', _) := poll c h in Some (c', Some h')
  | CallDrop h => Some (drop_handle c h, None)
  | CallShutdown => Some (request_shutdown c, None)
  end.

(** [C7] The callers' code refines the shard system: whatever state a shard can reach, each
    call (submitting a read, polling a handle, dropping one, requesting a shutdown) is, seen
    from that shard, a sequence of the system's atomic steps, and it leaves a handle that
    later calls may use. In particular every read [submit] or a deferred [poll] sends to a
    driver thread is validated, has a fresh operation and an open empty channel, and carries
    permits for exactly its allocation. *)
Theorem calls_refine_steps n k s c x c' h' :
  reachable_of limit ok n s -> view c k s -> call_ok k c s x -> run_call c x = Some (c', h') ->
  exists s', rtc (step_of limit ok) s s' /\ view c' k s' /\
    match h' with Some h => handle_ok k c' s' h | None => True end.
Proof.
  intros Hi%reachable_inv Hv Hok Hrun. destruct x as [f off len al allow notify|h|h|]; simpl in *.
  - destruct (submit _ _ _ _ _ _ _) as [[c1 h1]|] eqn:Hs; [|done]. injection Hrun as <- <-.
    destruct Hok as (? & ? & ?). by eapply submit_view.
  - destruct (poll c h) as [[c1 h1] r] eqn:Hp. injection Hrun as <- <-. by eapply poll_view.
  - injection Hrun as <- <-. destruct (drop_view n k s c h Hi Hv Hok) as (s' & ? & ?). eauto.
  - injection Hrun as <- <-. destruct (shutdown_view n k s c Hi Hv) as (s' & ? & ?). eauto.
Qed.
End Refines.

(** ** Witness *)

Definition demo_fresh : Sys ring sem chans := start (Some 4096) 4 (demo_ring true) (mkPool 1 1 ∅) ∅.

Lemma demo_view : view demo_client 0 demo_fresh.
Proof.
  constructor; simpl; try done.
  eexists. split; [done|]. done.
Qed.

Definition demo_call : call (Sm := sem) := CallSubmit demo_file 10 100 1 false true.

Lemma calls_refine_steps_witness :
  let c' := fst (default (demo_client, None) (run_call demo_client demo_call)) in
  exists s', rtc (step (Some 4096)) demo_fresh s' /\ view c' 0 s' /\
    handle_ok 0 c' s' (mkHandle 1 0 false true Submitted).
Proof.
  apply (calls_refine_steps (Some 4096) 4 0 demo_fresh demo_client demo_call _
    (Some (mkHandle 1 0 false true Submitted))).
  - split; [lia|]. split; [by intros ? [= <-]|].
    exists (demo_ring true), (mkPool 1 1 ∅), ∅. split; [reflexivity | apply rtc_refl].
  - exact demo_view.
  - split_and!; [done | done | discriminate].
  - reflexivity.
Defined.
