(* ===== verification/Closing.v ===== *)
(** * A driver after its shutdown request

    What callers can still do once [request_shutdown] of [src/src/driver.rs]
    has run, at any later time: between the request and the call considered
    the callers make any calls, and the threads, the kernel and other drivers
    of the pool act in any way that does not reopen a closed semaphore. *)

From S2P Require Import Prelude IoError Geometry Interfaces Instances SharedBudget.
From S2P Require Import Pending World SubmitRing Driver Ownership System Safety Turn.
From S2P Require Import Admission Startup Client Requests ClientRefines.

Section Closing.
Context {Sm Ch : Type} `{SemaphoreLaws Sm} `{OneshotLaws Ch} `{Target}.
Implicit Types c : Client Sm Ch.

(** The reads in the queue of shard [k]. *)
Definition reads_of c (k : nat) : option (list Z) :=
  (fun h => queued_ids (sh_queue h)) <$> cl_shards c !! k.

(** Everything but the callers may act: queues are taken from, permits come
    back, answers arrive, threads end; a closed semaphore stays closed. *)
Record others_act c c' : Prop := {
  oa_length : length (cl_shards c') = length (cl_shards c);
  oa_closed k h h' : cl_shards c !! k = Some h -> cl_shards c' !! k = Some h' ->
    sem_is_closed (sh_sem h) = true -> sem_is_closed (sh_sem h') = true;
  oa_bytes : cl_bytes c' = None <-> cl_bytes c = None;
  oa_bytes_closed b b' : cl_bytes c = Some b -> cl_bytes c' = Some b' ->
    sem_is_closed b = true -> sem_is_closed b' = true
}.

Inductive later_step c : Client Sm Ch -> Prop :=
| LaterCall x c' h : run_call c x = Some (c', h) -> later_step c c'
| LaterBatch rs c' res : read_at_batch c rs = Some (c', res) -> later_step c c'
| LaterOthers c' : others_act c c' -> later_step c c'.

(** Admission is closed on every shard and for the driver's bytes. *)
Definition closing c : Prop :=
  all_closed c /\ forall b, cl_bytes c = Some b -> sem_is_closed b = true.

(** ** Lemmas *)

Lemma closing_ext c c' :
  closing c -> cl_shards c' = cl_shards c -> cl_bytes c' = cl_bytes c -> closing c'.
Proof. intros [Hs Hb] Es Eb. split; [unfold all_closed; by rewrite Es|by rewrite Eb]. Qed.

Lemma closing_upd c i g :
  closing c ->
  (forall h, sem_is_closed (sh_sem h) = true -> sem_is_closed (sh_sem (g h)) = true) ->
  closing (upd_shard c i g).
Proof.
  intros [Hs Hb] Hg. split; [|done]. unfold all_closed. simpl. apply Forall_alter; [done|].
  intros h Hh _. apply Hg. unfold all_closed in Hs. rewrite Forall_lookup in Hs. eauto.
Qed.

Lemma closing_set_bytes c b :
  closing c -> (b = None <-> cl_bytes c = None) -> (forall x, b = Some x -> sem_is_closed x = true) ->
  closing (set_bytes c b).
Proof.
  intros [Hs _] Hn Hb. split; [|by rewrite cl_bytes_set_bytes].
  by destruct c as [? ? [|] ? ? ? ? ?], b.
Qed.

Lemma reads_upd c i g k :
  (forall h, queued_ids (sh_queue (g h)) = queued_ids (sh_queue h)) ->
  reads_of (upd_shard c i g) k = reads_of c k.
Proof.
  intros Hg. unfold reads_of. simpl. destruct (decide (i = k)) as [->|Hne].
  - rewrite list_lookup_alter_eq. destruct (cl_shards c !! k); simpl; [|done]. by rewrite Hg.
  - by rewrite list_lookup_alter_ne.
Qed.

Lemma set_bytes_shards c b : cl_shards (set_bytes c b) = cl_shards c.
Proof. by destruct c as [? ? [|] ? ? ? ? ?], b. Qed.

Lemma reads_set_bytes c b k : reads_of (set_bytes c b) k = reads_of c k.
Proof. unfold reads_of. by rewrite set_bytes_shards. Qed.

Lemma notify_reads m (h : Shard Sm) :
  msg_read_id m = None -> queued_ids (sh_queue (shard_send m h)) = queued_ids (sh_queue h).
Proof.
  intros Hm. unfold shard_send. case_match; [|done]. simpl. unfold queued_ids.
  rewrite omap_app. simpl. by rewrite Hm, app_nil_r.
Qed.

Lemma notify_sem m (h : Shard Sm) : sh_sem (shard_send m h) = sh_sem h.
Proof. unfold shard_send. by case_match. Qed.

(** A closed acquisition never succeeds. *)
Lemma poll_acquire_closed (count : Sm) bytes f count' bytes' f' res :
  sem_is_closed count = true -> (forall b, bytes = Some b -> sem_is_closed b = true) ->
  poll_acquire count bytes f = (count', bytes', f', res) ->
  (forall pm, res <> PermitsReady pm) /\ sem_is_closed count' = true /\
  (bytes' = None <-> bytes = None) /\ (forall b, bytes' = Some b -> sem_is_closed b = true).
Proof.
  intros Hc Hb. unfold poll_acquire. destruct f as [w charge sh|w charge sh|].
  - pose proof (sem_poll_closed count w Hc) as Hp. destruct (sem_poll count w) as [[s' w'] r] eqn:Hq.
    simpl in Hp. subst r. intros [= <- <- <- <-].
    destruct (sem_poll_free _ _ _ _ _ Hq) as (? & _). split_and!; [done|congruence|done|done].
  - destruct bytes as [b|]; [|by intros [= <- <- <- <-]]. specialize (Hb b eq_refl).
    unfold poll_bytes. pose proof (sem_poll_closed b w Hb) as Hp.
    destruct (sem_poll b w) as [[s' w'] r] eqn:Hq. simpl in Hp. subst r.
    intros [= <- <- <- <-]. destruct (sem_poll_free _ _ _ _ _ Hq) as (Hcl & _).
    split_and!; [done|by rewrite sem_release_closed|done|]. intros x [= <-]. congruence.
  - intros [= <- <- <- <-]. by split_and!.
Qed.

(** ** Calls on a closing driver *)

Lemma shutdown_closing c : closing (request_shutdown c).
Proof.
  split; [apply shutdown_all_closed|]. intros b. unfold cl_bytes, request_shutdown. simpl.
  unfold close_admission. destruct (cl_admission c) as [a|] eqn:Ha; [|by rewrite Ha].
  destruct (close_locked (ba_registry a)) as [reg counts].
  assert (Hfold : forall l c0, cl_admission (fold_left
    (fun c i => upd_shard c i (fun h => shard_sem (sem_close (sh_sem h)) h)) l c0) = cl_admission c0).
  { intros l. induction l as [|i l IH]; intros c0; simpl; [done|]. by rewrite IH. }
  rewrite Hfold. intros [= <-]. apply sem_close_closed.
Qed.

(** A submission is refused and sends nothing. *)
Lemma closing_submit c f off len al allow notify c' h :
  closing c -> submit c f off len al allow notify = Some (c', h) ->
  rh_state h = Inert /\ cl_shards c' = cl_shards c /\ cl_bytes c' = cl_bytes c /\
  exists e, os_rx (cl_chan c') (rh_id h) = RxValue (Err e) /\
    (e = shut_down_error \/ exists m, e = Custom InvalidInput m).
Proof.
  intros [Hall _]. unfold submit. destruct (negb _); [done|].
  destruct (fresh_channel c (cl_next_id c) (wrap u64_max (cl_next_id c + 1))
    (wrap usize_max (cl_rr c + 1))) as [Hrx Hcl].
  set (c1 := set_cursors _ _ _) in *. simpl in Hrx, Hcl.
  destruct (check_request _ _ _ _ _) as [bytes|e] eqn:Hreq.
  - destruct (select_read_shard _ _ _ _) as [[[c2 i] res]|] eqn:Hsel; [|done]. simpl.
    apply closed_select in Hsel; [|done]. destruct Hsel as (-> & Hs & Hb & Hch).
    simpl. intros [= <- <-]. simpl. rewrite Hch. split_and!; [done..|].
    exists shut_down_error. split; [by apply os_send_value | by left].
  - intros [= <- <-]. simpl. split_and!; [done..|]. exists e.
    split; [by apply os_send_value|]. right. by eapply check_request_inr.
Qed.

Lemma closing_batch c rs handles wakes c' handles' wakes' :
  closing c -> Forall (fun h => rh_state h = Inert) handles ->
  submit_batch c rs handles wakes = Some (c', handles', wakes') ->
  Forall (fun h => rh_state h = Inert) handles' /\ wakes' = wakes /\
  cl_shards c' = cl_shards c /\ cl_bytes c' = cl_bytes c.
Proof.
  revert c handles. induction rs as [|r rs IH]; intros c handles Hc Hh; simpl.
  { intros [= <- <- <-]. by split_and!. }
  destruct (submit _ _ _ _ _ _ _) as [[c1 h]|] eqn:Hs; [|done]. simpl.
  destruct (closing_submit _ _ _ _ _ _ _ _ _ Hc Hs) as (Hin & Es & Eb & _). rewrite Hin.
  intros Hb. apply IH in Hb as (? & ? & Es' & Eb'); [|by eapply closing_ext|].
  - split_and!; [done..|congruence|congruence].
  - apply Forall_app. split; [done|by constructor].
Qed.

(** A poll takes no permit, so it sends nothing. *)
Lemma closing_poll c h c' h' r :
  closing c -> poll c h = (c', h', r) -> closing c' /\ forall k, reads_of c' k = reads_of c k.
Proof.
  intros Hc. assert (Hrx : poll_rx c h = (c', h', r) -> closing c' /\ forall k, reads_of c' k = reads_of c k).
  { unfold poll_rx. destruct (os_rx _ _); by intros [= <- _ _]. }
  unfold poll. destruct (rh_state h) as [|acq f off len al dn|]; [done| |done].
  destruct (cl_shards c !! rh_shard h) as [sh|] eqn:Hsh; [|by intros [= <- _ _]].
  destruct (poll_acquire _ _ _) as [[[s1 b1] acq'] res] eqn:Hp.
  assert (Hcl : sem_is_closed (sh_sem sh) = true).
  { destruct Hc as [Hs _]. unfold all_closed in Hs. rewrite Forall_lookup in Hs. eauto. }
  destruct (poll_acquire_closed _ _ _ _ _ _ _ Hcl (proj2 Hc) Hp) as (Hno & Hs1 & Hn & Hb1).
  set (c1 := set_bytes _ b1).
  assert (Hc1 : closing c1 /\ forall k, reads_of c1 k = reads_of c k).
  { split; [by apply closing_set_bytes; [apply closing_upd|done..]|].
    intros k. unfold c1. rewrite reads_set_bytes. by apply reads_upd. }
  destruct res as [|pm|]; [by intros [= <- _ _]|by destruct (Hno pm)|].
  intros [= <- _ _]. destruct Hc1. split; [by eapply closing_ext|done].
Qed.

Lemma closing_drop c h :
  closing c -> closing (drop_handle c h) /\ forall k, reads_of (drop_handle c h) k = reads_of c k.
Proof.
  intros Hc. assert (Hfields : forall c0, closing c0 ->
    closing (drop_fields c0 h) /\ forall k, reads_of (drop_fields c0 h) k = reads_of c0 k).
  { intros c0 Hc0. unfold drop_fields. set (c1 := set_chan c0 _). assert (Hc1 : closing c1) by done.
    destruct (rh_state h) as [|acq f off len al dn|]; [done| |done].
    destruct (cl_shards c1 !! rh_shard h) as [sh|] eqn:Hsh; [|done].
    destruct (drop_acquire _ _ acq) as [s1 b1] eqn:Hd.
    assert (Hcl : sem_is_closed (sh_sem sh) = true).
    { destruct Hc1 as [Hs _]. unfold all_closed in Hs. rewrite Forall_lookup in Hs. eauto. }
    assert (Hd' : sem_is_closed s1 = true /\ (b1 = None <-> cl_bytes c1 = None) /\
      forall b, b1 = Some b -> sem_is_closed b = true).
    { destruct Hc1 as [_ Hb]. destruct acq; simpl in Hd; simplify_eq;
        rewrite ?sem_drop_waiter_closed, ?sem_release_closed; split_and!; try done.
      - by rewrite fmap_None.
      - intros b (b0 & Hb0 & ->)%fmap_Some. rewrite sem_drop_waiter_closed. by apply Hb. }
    destruct Hd' as (Hs1 & Hn & Hb1). set (c2 := set_bytes _ b1).
    assert (Hc2 : closing c2) by (by apply closing_set_bytes; [apply closing_upd|..]).
    split; [by eapply closing_ext|]. intros k. change (reads_of c2 k = reads_of c1 k).
    unfold c2. rewrite reads_set_bytes. by apply reads_upd. }
  unfold drop_handle. destruct (rh_state h) eqn:Hst; try by apply Hfields.
  destruct (negb _ && _); [|by apply Hfields].
  set (c1 := set_chan c _). set (c2 := upd_shard (upd_shard _ _ _) _ _).
  assert (Hc2 : closing c2).
  { apply closing_upd; [apply closing_upd; [done|]|done]. intros h0. by rewrite notify_sem. }
  destruct (Hfields c2 Hc2) as [? Hr]. split; [done|]. intros k. rewrite Hr. unfold c2.
  rewrite !reads_upd; [done| |done]. intros h0. by apply notify_reads.
Qed.

Lemma closing_shutdown c k : reads_of (request_shutdown c) k = reads_of c k.
Proof.
  unfold request_shutdown, reads_of. simpl. rewrite !list_lookup_fmap.
  assert (Hclose : reads_of (close_admission c) k = reads_of c k).
  { unfold close_admission. destruct (cl_admission c) as [a|]; [|done].
    destruct (close_locked _) as [reg counts]. set (c0 := set_admission _ _).
    change (reads_of c k) with (reads_of c0 k). generalize c0. clear c0.
    induction counts as [|i l IH]; intros c0; simpl; [done|]. rewrite IH. by apply reads_upd. }
  unfold reads_of in Hclose. rewrite <-Hclose.
  destruct (cl_shards (close_admission c) !! k) as [h|]; simpl; [|done]. by rewrite notify_reads.
Qed.

Lemma closing_call c x c' h :
  closing c -> run_call c x = Some (c', h) -> closing c' /\ forall k, reads_of c' k = reads_of c k.
Proof.
  intros Hc. destruct x as [f off len al allow notify|h0|h0|]; simpl.
  - destruct (submit _ _ _ _ _ _ _) as [[c1 h1]|] eqn:Hs; [|done]. intros [= <- _].
    destruct (closing_submit _ _ _ _ _ _ _ _ _ Hc Hs) as (_ & Es & Eb & _).
    split; [by eapply closing_ext|]. intros k. unfold reads_of. by rewrite Es.
  - destruct (poll c h0) as [[c1 h1] r] eqn:Hp. intros [= <- _]. by eapply closing_poll.
  - intros [= <- _]. by apply closing_drop.
  - intros [= <- _]. split; [apply shutdown_closing|apply closing_shutdown].
Qed.

Lemma closing_read_batch c rs c' res :
  closing c -> read_at_batch c rs = Some (c', res) ->
  cl_shards c' = cl_shards c /\ cl_bytes c' = cl_bytes c /\
  match res with Ok hs => Forall (fun h => rh_state h = Inert) hs | Err _ => True end.
Proof.
  intros Hc. unfold read_at_batch. case_match; [by intros [= <- <-]|].
  destruct (submit_batch _ _ _ _) as [[[c1 hs] ws]|] eqn:Hb; [|done]. simpl.
  apply closing_batch in Hb as (Hin & -> & Es & Eb); [|done|by constructor].
  simpl. by intros [= <- <-].
Qed.

Lemma later_closing c c' : closing c -> later_step c c' -> closing c'.
Proof.
  intros Hc [x c1 h Hr|rs c1 res Hr|c1 []].
  - by eapply closing_call.
  - apply closing_read_batch in Hr as (Es & Eb & _); [|done]. by eapply closing_ext.
  - destruct Hc as [Hs Hb]. unfold all_closed in *. rewrite Forall_lookup in Hs. split.
    + unfold all_closed. rewrite Forall_lookup. intros k h' Hh'.
      destruct (lookup_lt_is_Some_2 (cl_shards c) k) as [h Hh].
      { rewrite <-oa_length0. by apply lookup_lt_is_Some; eauto. }
      eauto.
    + intros b' Hb'. destruct (cl_bytes c) as [b|] eqn:Hcb; [by eapply oa_bytes_closed0; eauto|].
      destruct oa_bytes0 as [_ Hx]. by rewrite Hx in Hb'.
Qed.

Lemma later_closings c c' : closing c -> rtc later_step c c' -> closing c'.
Proof. intros Hc Hs. induction Hs; eauto using later_closing. Qed.

(** ** Property *)

(** [C28] After [request_shutdown] the driver accepts nothing, however much later: in every
    state the callers' further calls and everything the threads and the kernel do lead to, a
    submission returns an inert handle, already answered with the driver's shutdown error (or
    with [InvalidInput] if the request was bad anyway), and leaves every shard as it is; a
    batch returns only inert handles and signals nobody; and no call at all - not even the
    poll of a read that was waiting for its permits when the shutdown came - puts a read into
    any shard's queue. *)
Theorem no_read_after_shutdown c0 c :
  rtc later_step (request_shutdown c0) c ->
  (forall f off len al allow notify c' h,
     submit c f off len al allow notify = Some (c', h) ->
     rh_state h = Inert /\ cl_shards c' = cl_shards c /\
     exists e, os_rx (cl_chan c') (rh_id h) = RxValue (Err e) /\
       (e = shut_down_error \/ exists m, e = Custom InvalidInput m)) /\
  (forall rs c' hs, read_at_batch c rs = Some (c', Ok hs) ->
     cl_shards c' = cl_shards c /\ Forall (fun h => rh_state h = Inert) hs) /\
  (forall x c' h k, run_call c x = Some (c', h) -> reads_of c' k = reads_of c k).
Proof.
  intros Hs. pose proof (later_closings _ _ (shutdown_closing c0) Hs) as Hc. split_and!.
  - intros f off len al allow notify c' h Hsub.
    destruct (closing_submit _ _ _ _ _ _ _ _ _ Hc Hsub) as (? & ? & _ & ?). by split_and!.
  - intros rs c' hs Hb. by destruct (closing_read_batch _ _ _ _ Hc Hb) as (? & _ & ?).
  - intros x c' h k Hr. by apply (closing_call c x c' h).
Qed.
End Closing.

(** ** What the threads do is such an action *)

Section Threads.
Context {R Sm Ch : Type} `{RingLaws R} `{SemaphoreLaws Sm} `{OneshotLaws Ch} `{Target}
  `{HashOrder}.
Context (limit : option Z) {ok : ReapInput -> Prop}.

Lemma dropped_queue_closed (w : World Sm Ch) q :
  sem_is_closed (w_count (drop_queue w q)) = sem_is_closed (w_count w).
Proof.
  unfold drop_queue. revert w. induction q as [|m q IH]; intros w; simpl; [done|]. rewrite IH.
  destruct m; simpl; [by rewrite sem_release_closed|done..].
Qed.

(** No step of a shard reopens its count semaphore. *)
Lemma step_keeps_closed n (s s' : Sys R Sm Ch) :
  sys_inv limit n s -> step_of limit ok s s' ->
  sem_is_closed (w_count (sy_world s)) = true -> sem_is_closed (w_count (sy_world s')) = true.
Proof.
  intros Hi Hs Hc. pose proof (step_inv _ _ _ _ Hi Hs) as Hi'. destruct Hs as
    [w' h' e' Hact|id f off len c pm al Hs Hm Hid Hrx Hcl Hh He|m Hs Hm|r' Hr
    |m q d' w' b b' addr Hs Hq Haddr Hin|Hs|Hs|c r' inp d' w' Hs Hnext Hok Hr
    |st prev warn Hs Hu|env d' w' Hs Hce|b Hs|env d' w' Hs Hce|env d' w' Hs Hce]; simpl in *; try done;
    try (pose proof (check_exit_cases (sy_drive s) (sy_world s) env) as Hcases;
         rewrite Hce in Hcases).
  - by apply (ca_closed _ _ _ _ _ _ _ Hact).
  - destruct m as [id f off len c pm al|id|]; simpl in Hin; [|by injection Hin as _ <- _..].
    assert (Href : forall e, sem_is_closed (w_count (refuse (sy_world s) c pm e)) = true).
    { intros e. unfold refuse. simpl. rewrite sem_release_closed.
      by destruct (send_spec (sy_world s) c (Err e)) as (_ & -> & _). }
    unfold intake_read in Hin. destruct (d_shutting_down _); [by simplify_eq|].
    destruct (prepare_read _ _ _ _ _ _ _); [done|by simplify_eq..].
  - destruct (reap_one_spec (sy_drive s) (sy_world s) c r' inp (si_drive _ _ _ Hi)) as (d1 & w1 & Heq & _ & Heff).
    + pose proof (ac_done _ _ _ _ _ _ _ _ _ (si_accounts _ _ _ Hi)) as Hd. rewrite Hs in Hd. by apply Hd.
    + done.
    + rewrite Hr in Heq. injection Heq as <- <-. destruct Heff as [| |d1 id p o _ _]; [done..|].
      simpl. rewrite sem_release_closed. by destruct (send_spec (sy_world s) id o) as (_ & -> & _).
  - by destruct Hcases as [-> _].
  - by apply (si_exited _ _ _ Hi').
  - by apply (si_exited _ _ _ Hi').
Qed.
End Threads.

(** ** Witness *)

#[local] Existing Instance x86_64.

(** The driver after its shutdown request, when its thread has ended. *)
Definition demo_ended : Client sem chans :=
  let c := request_shutdown demo_client in
  set_shards c ((fun h => mkShard (sh_sem h) [] false (sh_wakes h) (sh_stats h) (sh_iowq h) false) <$>
    cl_shards c).

Lemma demo_ended_later : rtc later_step (request_shutdown demo_client) demo_ended.
Proof.
  apply rtc_once, LaterOthers. constructor; try done.
  - intros k h h'. unfold demo_ended. simpl. destruct k as [|k]; simpl; [|by destruct k].
    by intros [= <-] [= <-].
  - intros b b' Hb Hb'. change (cl_bytes demo_ended) with (cl_bytes (request_shutdown demo_client)) in Hb'.
    congruence.
Qed.

Lemma no_read_after_shutdown_witness :
  let '(c', h) := demo_submitted demo_ended 10 100 in
  rh_state h = Inert /\ cl_shards c' = cl_shards demo_ended /\
  exists e, os_rx (cl_chan c') (rh_id h) = RxValue (Err e) /\
    (e = shut_down_error \/ exists m, e = Custom InvalidInput m).
Proof.
  apply (proj1 (no_read_after_shutdown demo_client demo_ended demo_ended_later)
    (mkFile 3) 10 100 1 false true).
  vm_compute. reflexivity.
Defined.
