(* ===== verification/Answers.v ===== *)
(** * What a caller receives

    The answers of a shard related to the files: a history keeps what every
    operation asked for, through whatever the callers, the kernel and the
    driver interleave, and the bytes an operation is answered with are those
    of its file. Over [System.v] and, for [poll], [Client.v]. *)

From S2P Require Import Prelude IoError Geometry Interfaces Instances SharedBudget Pending ReadRun.
From S2P Require Import World TurnBudget SubmitRing Driver Ownership System Safety Turn.
From S2P Require Import Admission Client Requests ClientRefines.

(** What a read asks for: the fields of [Msg::Read]. *)
Record Asked := mkAsked { as_file : File; as_off : Z; as_len : Z; as_align : Z }.

Definition asked_by (m : Msg) : option (Z * Asked) :=
  match m with
  | MsgRead id f off n _ _ al => Some (id, mkAsked f off n al)
  | _ => None
  end.

Definition asked (q : list Msg) : gmap Z Asked := list_to_map (omap asked_by q).

(** The sender's values [o'] has and [o] has not are errors. *)
Definition no_news {Ch} `{Oneshot Ch} (h : gmap Z Asked) (o o' : Ch) : Prop :=
  forall id v, is_Some (h !! id) -> os_rx o' id = RxValue (Ok v) -> os_rx o id = RxValue (Ok v).

Section Answers.
Context {R Sm Ch : Type} `{RingLaws R} `{SemaphoreLaws Sm} `{OneshotLaws Ch} `{Target}
  `{HashOrder}.
Context (contents : Z -> list Byte.byte) `{!RegularFiles R contents}.
Context (limit : option Z) (ok : ReapInput -> Prop).
Implicit Types (d : Drive R) (w : World Sm Ch) (s : Sys R Sm Ch) (h : gmap Z Asked).

(** A run of the shard from its start, with what every operation asked for
    when it was sent. *)
Inductive history (n : Z) : gmap Z Asked -> Sys R Sm Ch -> Prop :=
| HistoryStart r pool o :
    0 <= n -> (forall total, limit = Some total -> 0 <= total) -> outstanding r = [] ->
    history n ∅ (start limit n r pool o)
| HistoryStep h s s' :
    history n h s -> step_of limit ok s s' -> history n (h ∪ asked (sy_queue s')) s'.

(** The bytes the file has for what was asked. *)
Definition file_bytes (a : Asked) : list Byte.byte :=
  pread (contents (raw_fd (as_file a))) (as_off a) (as_len a).

(** What completions read from outside has [metadata] report the lengths of
    the files. *)
Definition true_lengths : Prop :=
  forall inp fd n, ok inp -> ri_file_len inp fd = Ok n -> n = zlen (contents fd).

(** A successful answer: never a byte that is not the file's, and every byte
    for a buffered read or where [metadata] can be relied on. *)
Definition answer_of (a : Asked) (v : list Byte.byte) : Prop :=
  as_off a <> CURRENT_POSITION ->
  v `prefix_of` file_bytes a /\ (as_align a = 1 \/ true_lengths -> v = file_bytes a).

(** A pending entry is working on what was asked. *)
Record entry_for (a : Asked) (p : Pending) : Prop := {
  ef_file : file p = as_file a;
  ef_off : offset p + head p = as_off a;
  ef_len : want p = as_len a;
  ef_align : align p = as_align a;
  ef_stream : offset p = CURRENT_POSITION <-> as_off a = CURRENT_POSITION;
  ef_content : as_off a <> CURRENT_POSITION -> content (contents (raw_fd (file p))) p
}.

Record served h (m : gmap Z Pending) (q : list Msg) (o : Ch) : Prop := {
  sv_queue : forall msg id a, msg ∈ q -> asked_by msg = Some (id, a) -> h !! id = Some a;
  sv_table : forall id p, m !! id = Some p -> exists a, h !! id = Some a /\ entry_for a p;
  sv_answers : forall id a v, h !! id = Some a -> os_rx o id = RxValue (Ok v) -> answer_of a v
}.

(** ** Channels *)

Lemma no_news_trans h (o1 o2 o3 : Ch) : no_news h o1 o2 -> no_news h o2 o3 -> no_news h o1 o3.
Proof. unfold no_news. eauto. Qed.

Lemma send_news h w c r :
  match r with Ok _ => h !! c = None | Err _ => True end ->
  no_news h (w_chan w) (w_chan (send w c r).1).
Proof.
  intros Hr id v Hid. destruct (send_spec w c r) as (_ & _ & _ & _ & ->).
  destruct (decide (id = c)) as [->|Hne]; [|by rewrite os_send_frame].
  destruct (os_is_closed (w_chan w) c) eqn:Hc; [by rewrite os_send_lost|].
  rewrite os_send_value by done. destruct r; [|done]. rewrite Hr in Hid. by destruct Hid.
Qed.

Lemma drop_queue_news h w q : no_news h (w_chan w) (w_chan (drop_queue w q)).
Proof.
  unfold drop_queue. revert w. induction q as [|m q IH]; intros w; [by intros ???|]. simpl.
  eapply no_news_trans; [|apply IH]. intros id v _. destruct m as [i f off n c pm al| |]; simpl; [|done..].
  destruct (decide (id = c)) as [->|Hne]; [apply os_drop_tx_value | by rewrite os_drop_tx_frame].
Qed.

Lemma strand_news h w m : no_news h (w_chan w) (w_chan (strand_callers w m)).
Proof.
  unfold strand_callers. generalize (key_order (dom m)) as ids. intros ids. revert w.
  induction ids as [|id ids IH]; intros w; [by intros ???|]. simpl.
  eapply no_news_trans; [|apply IH]. unfold strand_one.
  destruct (m !! id) as [p|]; [|by intros ???]. destruct (done_tx p); [|by intros ???].
  by apply send_news.
Qed.

(** ** The invariant under the transitions *)

Lemma served_news h m q (o o' : Ch) : served h m q o -> no_news h o o' -> served h m q o'.
Proof. intros [] Hn. constructor; eauto. Qed.

Lemma served_queue h m q q' (o : Ch) :
  served h m q o -> (forall msg, msg ∈ q' -> asked_by msg <> None -> msg ∈ q) ->
  served h m q' o.
Proof.
  intros [] Hq. constructor; try done. intros msg id a Hin Ha. eapply sv_queue0; [|done].
  apply Hq; [done | congruence].
Qed.

(** An entry replaced by one for the same request. *)
Lemma served_entry h m q (o : Ch) id p' :
  served h m q o -> (exists a, h !! id = Some a /\ entry_for a p') ->
  served h (<[id := p']> m) q o.
Proof.
  intros [] Hp. constructor; try done. intros i p. rewrite lookup_insert_Some.
  intros [[<- <-]|[_ ?]]; eauto.
Qed.

Lemma served_delete h m q (o : Ch) id : served h m q o -> served h (delete id m) q o.
Proof. intros []. constructor; try done. intros i p [_ ?]%lookup_delete_Some. eauto. Qed.

(** An answer sent. *)
Lemma served_send h m q w id a r :
  served h m q (w_chan w) -> h !! id = Some a ->
  (forall v, r = Ok v -> os_is_closed (w_chan w) id = false -> answer_of a v) ->
  served h m q (w_chan (send w id r).1).
Proof.
  intros [] Ha Hr. destruct (send_spec w id r) as (_ & _ & _ & _ & ->). constructor; try done.
  intros i ai v Hi. destruct (decide (i = id)) as [->|Hne]; [|rewrite os_send_frame by done; eauto].
  destruct (os_is_closed (w_chan w) id) eqn:Hc; [rewrite os_send_lost by done; eauto|].
  rewrite os_send_value by done. intros [= ->]. simplify_eq. by apply Hr.
Qed.

Lemma entry_for_same a p p' :
  entry_for a p -> same_op p p' \/ p' = set_cancel_requested p \/ p' = take_done p ->
  (as_off a <> CURRENT_POSITION -> content (contents (raw_fd (file p))) p') -> entry_for a p'.
Proof.
  intros [] Hp Hc. destruct Hp as [(Hf & _ & _ & _ & Ho & _ & Hh & Hw & _ & Ha)|[->| ->]];
    constructor; simpl in *; rewrite ?Hf, ?Ho, ?Hh, ?Hw, ?Ha; done.
Qed.

(** Intake of one message. *)
Lemma intake_served h d w b addr m q d' w' b' :
  served h (d_pending d) (m :: q) (w_chan w) -> msg_ok limit m -> 0 <= addr ->
  intake_msg d w b addr m = Some (d', w', b') ->
  served h (d_pending d') q (w_chan w').
Proof.
  intros Hs Hm Haddr. assert (Hq : served h (d_pending d) q (w_chan w)).
  { eapply served_queue; [done|]. intros msg Hin _. by right. }
  destruct m as [id f off n c pm al|id|]; simpl.
  - destruct Hm as (_ & -> & Hok & _). unfold intake_read. destruct (d_shutting_down d).
    { intros [= <- <- <-]. eapply served_news; [done|]. by apply send_news. }
    destruct (prepare_read_entry addr f off n al id pm Hok Haddr)
      as (p & ko & hd & rl & -> & _ & _ & Hf & _ & _ & Ho & Hn & Hr & Ha & _ & Hc & _).
    intros [= <- <- <-]. apply served_entry; [done|]. exists (mkAsked f off n al).
    split; [by eapply (sv_queue _ _ _ _ Hs); [left|]|].
    constructor; simpl; try done. intros _. by apply content_prepared.
  - intros [= <- <- <-]. unfold intake_cancel. destruct (d_pending d !! id) as [p|] eqn:Hp; [|done].
    destruct (queue_cancel _ _ _) as [bl qc]. apply served_entry; [done|].
    destruct (sv_table _ _ _ _ Hs id p Hp) as (a & Ha & Hf). exists a. split; [done|].
    eapply entry_for_same; [done|by right; left|]. apply Hf.
  - intros [= <- <- <-]. unfold cancel_all. by destruct (queue_cancels _ _ _).
Qed.

(** The kernel's answer to a pending entry whose content is the file's. *)
Lemma answer_content a p id c :
  entry_wf p -> entry_for a p -> answers (read_sqe p id) c -> reads_content contents (read_sqe p id) c ->
  as_off a <> CURRENT_POSITION ->
  let F := contents (raw_fd (file p)) in
  let q := kernel_store p (cqe_addr c) (cqe_stored c) in
  offset p <> CURRENT_POSITION /\ content F q /\
  (0 < cqe_result c -> content F (set_progress q (nread p + cqe_result c) 0)) /\
  (cqe_result c = 0 -> nread p = region_len p \/ zlen F <= offset p + nread p).
Proof.
  intros Hp Hf Hans Hk Ha F q. destruct Hf. specialize (ef_content0 Ha).
  assert (Ho : offset p <> CURRENT_POSITION) by tauto.
  destruct (reads_content_entry contents p id c Hp Ho Hk) as [Hst Hz]. set (co := mkCompletion false c false (mkReapEnv false (Ok 0))).
  split_and!; [done | | |].
  - by apply (content_at_completion_same F p id co).
  - intros Hpos. by apply (content_at_completion F p id co).
  - done.
Qed.

(** A completion of such an entry: a successful result is an answer, unless the
    receiver is closed; a resubmission goes on with what was asked. *)
Lemma reap_answer a p id c sd e p' step :
  entry_wf p -> entry_for a p -> done_tx p = Some id ->
  answers (read_sqe p id) c -> reads_content contents (read_sqe p id) c ->
  (true_lengths -> forall n, file_len e = Ok n -> n = zlen (contents (raw_fd (file p)))) ->
  reap_read (kernel_store p (cqe_addr c) (cqe_stored c)) id (cqe_result c) sd e = Some (p', step) ->
  match step with
  | Finish (Ok v) => rx_closed e = false -> answer_of a v
  | Finish (Err _) => True
  | Resubmit _ => entry_for a p'
  end.
Proof.
  intros Hp Hf Hd Hans Hk Hlen Heq. destruct (answers_read_bounds _ _ _ Hp Hans) as (Hres & _).
  set (q := kernel_store p (cqe_addr c) (cqe_stored c)) in *.
  pose proof (kernel_store_wf p _ _ Hp : entry_wf q) as Hq.
  destruct (reap_read_step q id (cqe_result c) sd e Hq Hres) as (p1 & st & Heq' & Hsame & _).
  rewrite Heq in Heq'. injection Heq' as <- <-.
  pose proof (fun Ho => match answer_content a p id c Hp Hf Hans Hk Ho with
    | conj Ho' (conj Hc (conj Hc' Hz)) =>
        reap_read_content (contents (raw_fd (file p))) q id _ sd e p' step Hq Ho'
          (mk_is_Some _ _ Hd) Hres Hc Hc' Hz Heq
    end) as Hcont. cbv zeta in Hcont.
  destruct step as [[v|]|sq]; [|done|].
  - intros He Ho. specialize (Hcont Ho He). destruct Hf.
    change (offset q) with (offset p) in Hcont. change (head q) with (head p) in Hcont.
    change (want q) with (want p) in Hcont. change (align q) with (align p) in Hcont.
    rewrite ef_off0, ef_len0, ef_file0, ef_align0 in Hcont. split; [apply Hcont|].
    rewrite ef_file0 in Hlen. intros [Ha|Ha]; apply Hcont; [by left | right; by apply Hlen].
  - destruct Hf, Hsame as (Hsf & _ & _ & _ & Hso & _ & Hsh & Hsw & _ & Hsa).
    constructor; rewrite ?Hsf, ?Hso, ?Hsh, ?Hsw, ?Hsa; done.
Qed.

(** What a consumed completion does to the table and the answers. *)
Lemma reap_served h d w c r' inp q d' w' :
  drive_inv d -> table_open (d_pending d) -> served h (d_pending d) q (w_chan w) ->
  cq_next (d_ring d) = Some (c, r') -> ok inp ->
  reap_one (set_ring d r' (d_backlog d)) w c inp = Some (d', w') ->
  served h (d_pending d') q (w_chan w').
Proof.
  intros Hd Hopen Hs Hnext Hok. destruct (cq_next_content _ _ _ Hnext) as (sq & Hout & Hans & Hk).
  pose proof Hans as [Hud _]. unfold reap_one.
  destruct (consumed_entry d sq r' Hd Hout) as [(id & Hid & ->)|(id & p & Hid & Hp & Hwf & ->)];
    rewrite Hud; simpl.
  { rewrite (proj2 (Z.eqb_neq _ _)) by by apply cancel_user_data. by intros [= <- <-]. }
  rewrite op_id_no_cancel_bit by done. simpl. rewrite Hp.
  destruct (sv_table _ _ _ _ Hs id p Hp) as (a & Ha & Hf).
  unfold reap_entry. rewrite Hud. change (sqe_user_data _) with id. rewrite (Hopen _ _ Hp).
  set (e := mkReapEnv _ _). change (d_shutting_down _) with (d_shutting_down d).
  destruct (reap_read _ _ _ _ e) as [[p' step]|] eqn:Hr; [|done].
  pose proof (reap_answer a p id c _ e p' step Hwf Hf (Hopen _ _ Hp) Hans Hk
    (fun Ht n => Ht inp _ n Hok) Hr) as Hstep.
  destruct (answers_read_bounds _ _ _ Hwf Hans) as (Hres & _).
  destruct (reap_read_step _ id (cqe_result c) (d_shutting_down d) e (kernel_store_wf _ (cqe_addr c) (cqe_stored c) Hwf) Hres)
    as (p1 & st & Heq & Hsame & _).
  rewrite Hr in Heq. injection Heq as <- <-. destruct Hsame as (_ & Hd1 & _).
  simpl in Hd1. rewrite (Hopen _ _ Hp) in Hd1. simpl. destruct step as [r|sq].
  - rewrite Hd1. simpl. rewrite (surjective_pairing (send w id r)). intros [= <- <-].
    apply (served_delete _ _ _ _ id), (served_send _ _ _ _ _ a); [done..|]. intros v -> Hc.
    apply Hstep. simpl. by rewrite Hc.
  - intros [= <- <-]. apply served_entry; eauto.
Qed.

(** ** The runs *)

Record history_inv h s : Prop := {
  hi_used : dom h = sy_used s;
  hi_served : served h (d_pending (sy_drive s)) (sy_queue s) (w_chan (sy_world s))
}.

(** Every transition but a caller's [send] leaves what is asked. *)
Lemma served_step n h s s' :
  sys_inv limit n s -> step_of limit ok s s' -> dom h = sy_used s ->
  served h (d_pending (sy_drive s)) (sy_queue s) (w_chan (sy_world s)) ->
  sy_used s' = sy_used s /\
    served h (d_pending (sy_drive s')) (sy_queue s') (w_chan (sy_world s')) \/
  exists id f off len c pm al, (id ∉ sy_used s) /\ sy_used s' = ({[id]} ∪ sy_used s) /\
    sy_queue s' = sy_queue s ++ [MsgRead id f off len c pm al] /\
    sy_drive s' = sy_drive s /\ sy_world s' = sy_world s /\ os_rx (w_chan (sy_world s)) id = RxEmpty.
Proof.
  intros [Hd Ha _ _] Hstep Hdom Hs.
  destruct Hstep as
    [w' h' e' Hact|id f off len c pm al Hrun Hm Hid Hrx Hcl Hh He|m Hrun Hm|r' Hr
    |m q d' w' b b' addr Hrun Hq Haddr Hi|Hrun|Hrun|c r' inp d' w' Hrun Hnext Hok Hr
    |st prev warn Hrun Hu|env d' w' Hrun Hc|b Hrun|env d' w' Hrun Hc|env d' w' Hrun Hc];
    simpl; [left|right; by eexists _, _, _, _, _, _, _|left..]; (split; [done|]); try done.
  - eapply served_news; [done|]. intros id v Hid Hrx.
    destruct (ca_chan _ _ _ _ _ _ _ Hact id) as [<- _]; [|done].
    rewrite <-Hdom. by apply elem_of_dom.
  - eapply served_queue; [done|]. intros msg Hin. apply elem_of_app in Hin as [?|Hin]; [done|].
    apply list_elem_of_singleton in Hin as ->.
    by destruct m.
  - rewrite Hq in Hs, Ha. eapply intake_served; try done. apply (Forall_inv (ac_msgs _ _ _ _ _ _ _ _ _ Ha)).
  - by rewrite submit_ring_table.
  - eapply reap_served; try done. apply (ac_done _ _ _ _ _ _ _ _ _ Ha). by rewrite Hrun.
  - pose proof (check_exit_cases (sy_drive s) (sy_world s) env) as Hcases. rewrite Hc in Hcases.
    by destruct Hcases as [-> [->|[t ->]]].
  - pose proof (check_exit_cases (sy_drive s) (sy_world s) env) as Hcases. rewrite Hc in Hcases.
    destruct Hcases as (-> & -> & _). eapply served_news; [|apply drop_queue_news].
    eapply served_queue; [done|]. by intros ? []%not_elem_of_nil.
  - pose proof (check_exit_cases (sy_drive s) (sy_world s) env) as Hcases. rewrite Hc in Hcases.
    destruct Hcases as (t & -> & -> & _). eapply served_news; [|apply drop_queue_news].
    eapply served_news; [|apply strand_news]. simpl.
    destruct Hs. constructor; simpl; [by intros ??? []%not_elem_of_nil| |done].
    intros id p0. rewrite lookup_fmap, fmap_Some. intros (p & Hp & ->).
    destruct (sv_table0 id p Hp) as (a & Ha' & Hf). exists a. split; [done|].
    eapply entry_for_same; [done|by right; right|]. apply Hf.
Qed.

Lemma asked_Some q id a :
  asked q !! id = Some a -> exists msg, msg ∈ q /\ asked_by msg = Some (id, a).
Proof.
  intros Hq%elem_of_list_to_map_2. apply list_elem_of_omap in Hq as (msg & ? & ?). eauto.
Qed.

(** What was asked is kept, whatever the queue still holds. *)
Lemma asked_known h q :
  (forall msg id a, msg ∈ q -> asked_by msg = Some (id, a) -> h !! id = Some a) ->
  h ∪ asked q = h.
Proof.
  intros Hq. apply map_eq. intros id. rewrite lookup_union.
  destruct (asked q !! id) as [a|] eqn:Ha; [|by destruct (h !! id)].
  apply asked_Some in Ha as (msg & Hin & Hm). by rewrite (Hq _ _ _ Hin Hm).
Qed.

Lemma asked_new h q id f off len c pm al :
  (forall msg id a, msg ∈ q -> asked_by msg = Some (id, a) -> h !! id = Some a) -> h !! id = None ->
  h ∪ asked (q ++ [MsgRead id f off len c pm al]) = <[id := mkAsked f off len al]> h.
Proof.
  intros Hq Hid. unfold asked. rewrite omap_app, list_to_map_app, (assoc_L (∪)). simpl.
  fold (asked q). rewrite asked_known by done. rewrite insert_empty.
  apply map_eq. intros i. rewrite lookup_union, lookup_singleton, lookup_insert.
  case_decide; subst; [by rewrite Hid|by destruct (h !! i)].
Qed.

Lemma history_invariant n h s : history n h s -> sys_inv limit n s /\ history_inv h s.
Proof.
  induction 1 as [r pool o Hn Hl Hr|h s s' Hh [Hi [Hu Hs]] Hstep].
  { split; [by apply start_inv|]. constructor; [by rewrite dom_empty_L|].
    constructor; simpl; [by intros ??? []%not_elem_of_nil | done | done]. }
  split; [by eapply step_inv|].
  destruct (served_step n h s s' Hi Hstep Hu Hs)
    as [[Hu' Hs']|(id & f & off & len & c & pm & al & Hid & Hu' & Hq & Hd & Hw & Hrx)].
  { rewrite asked_known by apply Hs'. constructor; [congruence|done]. }
  rewrite <-Hu in Hid. apply not_elem_of_dom in Hid.
  rewrite Hq, asked_new by (try apply Hs; done).
  destruct Hs. constructor; [by rewrite dom_insert_L, Hu, Hu'|]. rewrite Hd, Hw, Hq.
  constructor; [|intros i p Hp|intros i a v Hi' Hv].
  - intros msg i a Hin Hm. apply elem_of_app in Hin as [Hin|Hin].
    + specialize (sv_queue0 _ _ _ Hin Hm). by rewrite lookup_insert_ne by congruence.
    + apply list_elem_of_singleton in Hin as ->. injection Hm as <- <-. apply lookup_insert_eq.
  - destruct (sv_table0 _ _ Hp) as (a & ? & ?). exists a.
    by rewrite lookup_insert_ne by congruence.
  - apply lookup_insert_Some in Hi' as [[<- <-]|[_ ?]]; [congruence|eauto].
Qed.

(** Every reachable state has a history. *)
Lemma history_reachable n h s : history n h s -> reachable_of limit ok n s.
Proof.
  induction 1 as [r pool o Hn Hl Hr|h s s' _ IH Hstep]; [|by eapply step_reachable].
  split_and!; [done..|]. by exists r, pool, o.
Qed.

Lemma history_steps n h s s' :
  history n h s -> rtc (step_of limit ok) s s' -> exists h', history n h' s' /\ h ⊆ h'.
Proof.
  intros Hh Hs. revert h Hh. induction Hs as [s|s s1 s' Hstep Hs IH]; intros h Hh; [eauto|].
  destruct (IH _ (HistoryStep _ _ _ _ Hh Hstep)) as (h' & Hh' & Hsub). exists h'. split; [done|].
  etrans; [|done]. apply map_union_subseteq_l.
Qed.

Lemma reachable_history n s :
  reachable_of limit ok n s -> exists h, history n h s /\ dom h = sy_used s.
Proof.
  intros (Hn & Hl & r & pool & o & Hr & Hs).
  destruct (history_steps n ∅ _ s (HistoryStart n r pool o Hn Hl Hr) Hs) as (h & Hh & _).
  exists h. split; [done|]. by destruct (history_invariant _ _ _ Hh) as [_ []].
Qed.

(** Whatever was asked, a successful answer is of the file. *)
Lemma history_answers n h s id a v :
  history n h s -> h !! id = Some a -> os_rx (w_chan (sy_world s)) id = RxValue (Ok v) ->
  answer_of a v.
Proof. intros Hh Ha Hv. destruct (history_invariant _ _ _ Hh) as [_ [_ []]]. eauto. Qed.

(** ** The callers *)

Implicit Types c : Client Sm Ch.

(** What a call that sends a read asks for: a [submit], or the [poll] of a
    handle that waits for its permits. *)
Definition call_asks (x : call (Sm := Sm)) : option Asked :=
  match x with
  | CallSubmit f off len al _ _ => Some (mkAsked f off len al)
  | CallPoll hd =>
      match rh_state hd with
      | WaitingPermit _ f off len al _ => Some (mkAsked f off len al)
      | _ => None
      end
  | _ => None
  end.

(** The handle's read is with the driver thread of shard [i]. *)
Definition sent c (i : nat) (id : Z) (a : Asked) : Prop :=
  exists sh msg, cl_shards c !! i = Some sh /\ sh_alive sh = true /\ msg ∈ sh_queue sh /\
    asked_by msg = Some (id, a).

Lemma send_read_sent c i id f off len dn pm al c' :
  send_read c i id f off len dn pm al = (c', true) ->
  sent (upd_shard c' i shard_signal) i id (mkAsked f off len al) /\
  sent c' i id (mkAsked f off len al).
Proof.
  unfold send_read. destruct (cl_shards c !! i) as [sh|] eqn:Hsh; [|done].
  destruct (sh_alive sh) eqn:Hal; [|done]. intros [= <-].
  assert (Hq : cl_shards (upd_shard c i (shard_send (MsgRead id f off len dn pm al))) !! i =
    Some (shard_send (MsgRead id f off len dn pm al) sh)).
  { simpl. by rewrite list_lookup_alter_eq, Hsh. }
  unfold shard_send in Hq at 2. rewrite Hal in Hq.
  split; eexists _, (MsgRead id f off len dn pm al).
  - split; [simpl; rewrite list_lookup_alter_eq; simpl in Hq; by rewrite Hq|].
    simpl. split_and!; [done| |done]. apply elem_of_app. right. by left.
  - split; [exact Hq|]. simpl. split_and!; [done| |done]. apply elem_of_app. right. by left.
Qed.

Lemma dispatch_sent c id i res f off len al charge notify c' hd :
  dispatch c id i res f off len al charge notify = (c', hd) -> rh_state hd = Submitted ->
  sent c' (rh_shard hd) (rh_id hd) (mkAsked f off len al).
Proof.
  unfold dispatch. destruct res as [pm|[|]]; [|by intros [= <- <-]..].
  destruct (send_read _ _ _ _ _ _ _ _ _) as [c1 took] eqn:Hsend. destruct took.
  - apply send_read_sent in Hsend as [? ?]. intros [= <- <-] _. by destruct notify.
  - unfold reject. by intros [= <- <-].
Qed.

(** A call leaves a handle in the submitted state once its read is sent. *)
Lemma call_sent c x c' hd a :
  run_call c x = Some (c', Some hd) -> call_asks x = Some a ->
  rh_state hd = Submitted -> rh_finished hd = false ->
  sent c' (rh_shard hd) (rh_id hd) a.
Proof.
  destruct x as [f off len al allow notify|h0|h0|]; simpl; [| |done..].
  - unfold submit. case_match; [done|]. case_match; [|by intros [= <- <-]].
    destruct (select_read_shard _ _ _ _) as [[[c1 i] res]|]; [|done]. simpl.
    destruct (dispatch _ _ _ _ _ _ _ _ _ _) as [c2 h2] eqn:Hd. intros [= <- <-] [= <-] Hst _.
    by eapply dispatch_sent.
  - unfold poll. destruct (rh_state h0) as [|acq f off len al dn|] eqn:Hst; [done| |done].
    destruct (cl_shards c !! rh_shard h0); [|intros [= <- <-]; congruence].
    intros Hrun [= <-]. revert Hrun.
    destruct (poll_acquire _ _ _) as [[[sm b1] acq'] res]. destruct res as [|pm|];
      [by intros [= <- <-]| |by intros [= <- <-]].
    destruct (send_read _ _ _ _ _ _ _ _ _) as [c1 took] eqn:Hsend. destruct took; [|by intros [= <- <-]].
    apply send_read_sent in Hsend as [Hs _]. unfold poll_rx. simpl.
    destruct (os_rx _ _); intros [= <- <-] _; simpl; [intros _; exact Hs|done..].
Qed.

Lemma poll_value c hd c' hd' v :
  poll c hd = (c', hd', Some (Ok v)) -> os_rx (cl_chan c) (rh_id hd) = RxValue (Ok v).
Proof.
  assert (Hrx : forall c0 hd0, poll_rx c0 hd0 = (c', hd', Some (Ok v)) ->
    os_rx (cl_chan c0) (rh_id hd0) = RxValue (Ok v)).
  { intros c0 hd0. unfold poll_rx. destruct (os_rx _ _); [done| |done]. by intros [= _ _ ->]. }
  unfold poll. destruct (rh_state hd) as [|acq f off len al dn|]; [apply Hrx| |apply Hrx].
  destruct (cl_shards c !! rh_shard hd); [|done].
  destruct (poll_acquire _ _ _) as [[[sm b1] acq'] res]. destruct res as [|pm|]; [done| |done].
  destruct (send_read _ _ _ _ _ _ _ _ _) as [c1 took] eqn:Hsend. destruct took; [|done].
  intros Hv%Hrx. simpl in Hv. rewrite <-Hv. f_equal. revert Hsend. unfold send_read.
  case_match; [|done]. intros [= <-]. simpl. unfold set_bytes. by repeat case_match.
Qed.

(** ** The property *)

(** [C2] A read returns the bytes of its file. Once a call (a [read_at] or [read_at_direct], or
    the [poll] that sends a read which waited for permits) has handed a read to shard [k],
    then whatever the callers, the kernel and the driver do next, if polling the read's
    handle gives [Ok] with some bytes, they are what [pread] reads of that file at that
    offset and length: all of it for a buffered read, and for an [O_DIRECT] read too if
    [metadata] reports the true lengths of the files (without that, never a byte that is not
    the file's). Reads of other callers, cancels, short reads, transient
    errors and shutdowns may be interleaved in any way. *)
Theorem reads_return_file_bytes n k c x c1 hd a s1 s2 c2 hd2 c3 hd3 v :
  run_call c x = Some (c1, Some hd) -> call_asks x = Some a -> as_off a <> CURRENT_POSITION ->
  rh_state hd = Submitted -> rh_finished hd = false -> rh_shard hd = k ->
  reachable_of limit ok n s1 -> view c1 k s1 -> rtc (step_of limit ok) s1 s2 -> view c2 k s2 ->
  rh_id hd2 = rh_id hd -> poll c2 hd2 = (c3, hd3, Some (Ok v)) ->
  v `prefix_of` file_bytes a /\ (as_align a = 1 \/ true_lengths -> v = file_bytes a).
Proof.
  intros Hrun Ha Ho Hst Hfin <- Hr Hv1 Hs Hv2 Hid Hpoll%poll_value.
  destruct (call_sent _ _ _ _ _ Hrun Ha Hst Hfin) as (sh & msg & Hsh & Hal & Hin & Hmsg).
  destruct (reachable_history _ _ Hr) as (h1 & Hh1 & _).
  destruct (history_steps _ _ _ _ Hh1 Hs) as (h2 & Hh2 & Hsub).
  refine (history_answers n h2 s2 (rh_id hd) a v Hh2 _ _ Ho).
  - eapply lookup_weaken; [|exact Hsub]. destruct (history_invariant _ _ _ Hh1) as [_ [_ Hserved]].
    apply (sv_queue _ _ _ _ Hserved msg); [|done].
    destruct (vw_shard _ _ _ Hv1) as (sh' & Hsh' & _ & _ & Hq).
    rewrite Hsh in Hsh'. injection Hsh' as <-. by rewrite Hq.
  - by rewrite (vw_chan _ _ _ Hv2), <-Hid.
Qed.
End Answers.

(** ** Witness *)

(** Every descriptor is a file of the bytes 0 to 63. *)
Definition demo_contents (fd : Z) : list Byte.byte :=
  (fun i => default Byte.x00 (Byte.of_nat i)) <$> seq 0 64.

(** [metadata] reports their length. *)
Definition demo_lengths (inp : ReapInput) : Prop := forall fd, ri_file_len inp fd = Ok 64.

Definition demo_true_env : TurnEnv :=
  mkTurnEnv (fun _ => 4096) (fun _ => mkReapInput (fun _ => Ok 64) false) 0 0.

(** A caller reads [n] bytes at 10, buffered or aligned to [al]; its read goes
    to the only shard. The two reads considered are a buffered one of 4 bytes
    and one of 100 bytes past the end of the file, aligned to 512. *)
Definition demo_case (n al : Z) : Prop := n = 4 /\ al = 1 \/ n = 100 /\ al = 512.

Definition demo_read (n al : Z) : call (Sm := sem) := CallSubmit demo_file 10 n al false true.

Definition demo_called (n al : Z) : Client sem chans * option (ReadHandle sem) :=
  default (demo_client, None) (run_call demo_client (demo_read n al)).

(** The shard over such files that the caller sees, with the read sent. *)
Definition demo_sent_world (n al : Z) : World sem chans :=
  let c := (demo_called n al).1 in
  mkWorld (mkSem 3 false [] 0) (cl_bytes c) (cl_pool c) (cl_chan c).

Definition demo_charged (n al : Z) : ReadPermits := mkPermits (Some (charge_of 10 n al)) None.

Definition demo_sent (n al : Z) : Sys (file_ring demo_contents) sem chans :=
  mkSys (new_drive (mkFileRing [] [])) (demo_sent_world n al)
    [MsgRead 1 demo_file 10 n 1 (demo_charged n al) al] {[1]} 0 0 Running_.

(** The shard after one turn, and the client that sees it. *)
Definition demo_turned (n al : Z) : Sys (file_ring demo_contents) sem chans :=
  let s := demo_sent n al in
  match turn demo_true_env false (sy_drive s) (sy_world s) (sy_queue s) with
  | TurnEnd e q => turn_sys s e q
  | TurnPanic => s
  end.

Definition demo_answered (n al : Z) : Client sem chans :=
  let w := sy_world (demo_turned n al) in
  set_bytes (set_chan (set_shards (demo_called n al).1 [shard_sem (w_count w) (demo_shard_of 4)])
               (w_chan w))
    (w_bytes w).

Definition demo_started : Sys (file_ring demo_contents) sem chans :=
  start (Some 4096) 4 (mkFileRing [] []) (mkPool 1 1 ∅) ∅.

Lemma demo_started_reachable ok : reachable_of (Some 4096) ok 4 demo_started.
Proof.
  split; [lia|]. split; [by intros ? [= <-]|].
  exists (mkFileRing [] []), (mkPool 1 1 ∅), (∅ : chans). split; [done|apply rtc_refl].
Qed.

Lemma demo_sent_steps ok n al :
  demo_case n al -> rtc (step_of (Some 4096) ok) demo_started (demo_sent n al).
Proof.
  intros Hcase. eapply rtc_l.
  { apply (StepCallers _ _ _ (demo_sent_world n al) 1 (charge_of 10 n al)).
    by destruct Hcase as [[-> ->]|[-> ->]]; constructor; simpl; try (done || lia). }
  eapply rtc_l; [|apply rtc_refl].
  assert (Hend : demo_sent n al = mkSys (new_drive (mkFileRing [] [])) (demo_sent_world n al)
    ([] ++ [MsgRead 1 demo_file 10 n 1 (demo_charged n al) al]) ({[1]} ∪ ∅) (1 - 1)
    (charge_of 10 n al - default 0 (permit_bytes (demo_charged n al))) Running_).
  { by destruct Hcase as [[-> ->]|[-> ->]]; vm_compute. }
  rewrite Hend. apply StepSend; simpl; try (done || lia);
    [|by destruct Hcase as [[-> ->]|[-> ->]]..].
  split; [done|]. split; [done|]. split; [|done].
  split; [done|]. destruct Hcase as [[-> ->]|[-> ->]]; (split; [done|]).
  - exists 10, 0, 4. split_and!; [done | done | by right].
  - exists 0, 10, 512. split_and!; [done | done | by right].
Qed.

Lemma demo_sent_reachable ok n al :
  demo_case n al -> reachable_of (Some 4096) ok 4 (demo_sent n al).
Proof.
  intros Hcase. exact (steps_reachable _ _ _ _ (demo_started_reachable ok) (demo_sent_steps ok n al Hcase)).
Qed.

Lemma demo_sent_view n al : demo_case n al -> view (demo_called n al).1 0 (demo_sent n al).
Proof.
  intros [[-> ->]|[-> ->]]; constructor; simpl; try done;
    try (eexists; split; [vm_compute; reflexivity|]; done);
    intros id ->%elem_of_singleton; by vm_compute.
Qed.

Lemma demo_turned_view n al : demo_case n al -> view (demo_answered n al) 0 (demo_turned n al).
Proof.
  intros Hcase. assert (Hu : sy_used (demo_turned n al) = ({[1]} : gset Z)).
  { by destruct Hcase as [[-> ->]|[-> ->]]; vm_compute. }
  destruct Hcase as [[-> ->]|[-> ->]]; constructor; try (vm_compute; reflexivity);
    try (eexists; split; [vm_compute; reflexivity|]; split; [vm_compute; reflexivity|];
         split; [vm_compute; tauto|]; vm_compute; reflexivity);
    try (rewrite Hu; intros id ->%elem_of_singleton; vm_compute; reflexivity);
    vm_compute; split; discriminate.
Qed.

Lemma demo_turned_steps n al :
  demo_case n al -> rtc (step_of (Some 4096) demo_lengths) (demo_sent n al) (demo_turned n al).
Proof.
  intros Hcase. destruct (turn_spec (Some 4096) 4 demo_true_env false (demo_sent n al)
    (conj (reachable_inv _ _ _ (demo_sent_reachable demo_lengths n al Hcase)) eq_refl)
    (fun _ => ltac:(done)) (ok := demo_lengths) (fun _ _ => eq_refl))
    as (e & q & _ & Ht & Hsteps & _).
  unfold demo_turned. by rewrite Ht.
Qed.

(** The aligned read of 100 bytes at 10 delivers the 54 bytes to the end of
    the file. *)
Definition demo_direct : list Byte.byte := drop 10 (demo_contents 3).

Lemma reads_return_file_bytes_witness :
  let a := mkAsked demo_file 10 100 512 in
  true_lengths demo_contents demo_lengths /\
  demo_direct `prefix_of` file_bytes demo_contents a /\
  (512 = 1 \/ true_lengths demo_contents demo_lengths -> demo_direct = file_bytes demo_contents a).
Proof.
  split; [intros inp fd n Hl Hn; rewrite Hl in Hn; injection Hn as <-; vm_compute; reflexivity|].
  apply (reads_return_file_bytes demo_contents (Some 4096) demo_lengths 4 0 demo_client
    (demo_read 100 512) (demo_called 100 512).1
    (mkHandle 1 0 false true Submitted) (mkAsked demo_file 10 100 512) (demo_sent 100 512)
    (demo_turned 100 512) (demo_answered 100 512)
    (mkHandle 1 0 false true Submitted) (demo_answered 100 512) (mkHandle 1 0 true true Submitted));
    try (vm_compute; reflexivity); try discriminate.
  - apply demo_sent_reachable. by right.
  - apply demo_sent_view. by right.
  - apply demo_turned_steps. by right.
  - apply demo_turned_view. by right.
Defined.
