(* ===== verification/Diagnostics.v ===== *)
(** * Sampled latency histograms

    The histograms, snapshots and sampling of [src/src/diagnostics.rs]: log2
    buckets recorded with wrapping counters, merged across shards and
    subtracted between snapshots. A record whose bucket is out of range is a
    panic, [None]. The clock of a [Trace] is an argument. *)

From S2P Require Import Prelude SubmitRing.

(** [DIAGNOSTICS_SAMPLE_INTERVAL]. *)
Definition DIAGNOSTICS_SAMPLE_INTERVAL : Z := 64.

(** [LatencyHistogram], and [Histogram] at rest. *)
Record LatencyHistogram := mkHistogram { count : Z; total_nanos : Z; buckets : list Z }.

Definition default_histogram : LatencyHistogram := mkHistogram 0 0 (repeat 0 64).

(** [LatencyHistogram::merge]. *)
Definition merge (a b : LatencyHistogram) : LatencyHistogram :=
  mkHistogram (wadd (count a) (count b)) (wadd (total_nanos a) (total_nanos b))
    (zip_with wadd (buckets a) (buckets b)).

(** [LatencyHistogram::since]. *)
Definition since (a earlier : LatencyHistogram) : LatencyHistogram :=
  mkHistogram (wsub (count a) (count earlier)) (wsub (total_nanos a) (total_nanos earlier))
    (zip_with wsub (buckets a) (buckets earlier)).

(** [63 - nanos.max(1).leading_zeros()]. *)
Definition leading_zeros (n : Z) : Z := if n =? 0 then 64 else 63 - Z.log2 n.

Definition bucket_of (nanos : Z) : option Z := checked_sub 63 (leading_zeros (Z.max nanos 1)).

(** [Histogram::record]. [None] is the panic of a bucket that underflows or is
    past the array, before a counter is touched; where overflow checks are off
    the underflow wraps to an index past the array, and panics too. *)
Definition record (h : LatencyHistogram) (nanos : Z) : option LatencyHistogram :=
  bucket ← bucket_of nanos;
  v ← buckets h !! Z.to_nat bucket;
  Some (mkHistogram (wadd (count h) 1) (wadd (total_nanos h) nanos)
          (<[Z.to_nat bucket := wadd v 1]> (buckets h))).

(** [Stage]. *)
Inductive Stage := Admission | Queue | Prepare | Lifetime | Cqe | Resume.

(** [DiagnosticsSnapshot], and [Diagnostics] with its request counter. *)
Record DiagnosticsSnapshot := mkSnapshot {
  admission : LatencyHistogram;
  driver_queue : LatencyHistogram;
  preparation : LatencyHistogram;
  driver_lifetime : LatencyHistogram;
  cqe_processing : LatencyHistogram;
  completion_to_poll : LatencyHistogram
}.

Record Diagnostics := mkDiagnostics { stages : DiagnosticsSnapshot; requests : Z }.

Definition default_snapshot : DiagnosticsSnapshot :=
  mkSnapshot default_histogram default_histogram default_histogram default_histogram
    default_histogram default_histogram.

Definition default_diagnostics : Diagnostics := mkDiagnostics default_snapshot 0.

(** [DiagnosticsSnapshot::merge] and [since], field by field. *)
Definition snapshot_zip (g : LatencyHistogram -> LatencyHistogram -> LatencyHistogram)
    (a b : DiagnosticsSnapshot) : DiagnosticsSnapshot :=
  mkSnapshot (g (admission a) (admission b)) (g (driver_queue a) (driver_queue b))
    (g (preparation a) (preparation b)) (g (driver_lifetime a) (driver_lifetime b))
    (g (cqe_processing a) (cqe_processing b)) (g (completion_to_poll a) (completion_to_poll b)).

Definition snapshot_merge : DiagnosticsSnapshot -> DiagnosticsSnapshot -> DiagnosticsSnapshot :=
  snapshot_zip merge.

Definition snapshot_since : DiagnosticsSnapshot -> DiagnosticsSnapshot -> DiagnosticsSnapshot :=
  snapshot_zip since.

(** [UringDriver::diagnostics] and [shard_diagnostics], of the shards'
    diagnostics. *)
Definition shard_diagnostics (ds : list Diagnostics) : list DiagnosticsSnapshot := stages <$> ds.

Definition diagnostics (ds : list Diagnostics) : DiagnosticsSnapshot :=
  foldl (fun snapshot d => snapshot_merge snapshot (stages d)) default_snapshot ds.

(** [self.stages[stage as usize]], read and written. *)
Definition stage_of (s : DiagnosticsSnapshot) (st : Stage) : LatencyHistogram :=
  match st with
  | Admission => admission s
  | Queue => driver_queue s
  | Prepare => preparation s
  | Lifetime => driver_lifetime s
  | Cqe => cqe_processing s
  | Resume => completion_to_poll s
  end.

Definition set_stage (s : DiagnosticsSnapshot) (st : Stage) (h : LatencyHistogram) :
    DiagnosticsSnapshot :=
  match st with
  | Admission => mkSnapshot h (driver_queue s) (preparation s) (driver_lifetime s)
                   (cqe_processing s) (completion_to_poll s)
  | Queue => mkSnapshot (admission s) h (preparation s) (driver_lifetime s)
               (cqe_processing s) (completion_to_poll s)
  | Prepare => mkSnapshot (admission s) (driver_queue s) h (driver_lifetime s)
                 (cqe_processing s) (completion_to_poll s)
  | Lifetime => mkSnapshot (admission s) (driver_queue s) (preparation s) h
                  (cqe_processing s) (completion_to_poll s)
  | Cqe => mkSnapshot (admission s) (driver_queue s) (preparation s) (driver_lifetime s)
             h (completion_to_poll s)
  | Resume => mkSnapshot (admission s) (driver_queue s) (preparation s) (driver_lifetime s)
                (cqe_processing s) h
  end.

(** [Diagnostics::record]. *)
Definition record_stage (d : Diagnostics) (st : Stage) (nanos : Z) : option Diagnostics :=
  h ← record (stage_of (stages d) st) nanos;
  Some (mkDiagnostics (set_stage (stages d) st h) (requests d)).

(** [Trace]: its start and the times stored by its steps. *)
Record Trace := mkTrace { tr_start : Z; queued : Z; entered : Z; sent : Z }.

(** [Trace::sample_with_start]: the first of every 64 requests of a shard. *)
Definition sample (d : Diagnostics) (start : Z) : Diagnostics * option Trace :=
  (mkDiagnostics (stages d) (wadd (requests d) 1),
   if requests d mod DIAGNOSTICS_SAMPLE_INTERVAL =? 0 then Some (mkTrace start 0 0 0) else None).

(** [Trace::now], with the monotonic clock at [clock] nanoseconds;
    [Instant::elapsed] is zero before the start. *)
Definition now (t : Trace) (clock : Z) : Z := Z.min (Z.max 0 (clock - tr_start t)) (u64_max - 1) + 1.

(** [enqueue], [enter], [prepared], [reaped], [sending] and [received]. *)
Definition enqueue (d : Diagnostics) (t : Trace) (clock : Z) : option (Diagnostics * Trace) :=
  nanos ← checked_sub (now t clock) 1;
  d ← record_stage d Admission nanos;
  Some (d, mkTrace (tr_start t) (now t clock) (entered t) (sent t)).

Definition enter (d : Diagnostics) (t : Trace) (clock : Z) : option (Diagnostics * Trace) :=
  d ← record_stage d Queue (saturating_sub (now t clock) (queued t));
  Some (d, mkTrace (tr_start t) (queued t) (now t clock) (sent t)).

Definition prepared (d : Diagnostics) (t : Trace) (clock : Z) : option Diagnostics :=
  record_stage d Prepare (saturating_sub (now t clock) (entered t)).

Definition reaped (d : Diagnostics) (t : Trace) (clock started : Z) (final_cqe : bool) :
    option Diagnostics :=
  d ← record_stage d Cqe (saturating_sub (now t clock) started);
  if final_cqe then record_stage d Lifetime (saturating_sub started (entered t)) else Some d.

Definition sending (t : Trace) (clock : Z) : Trace :=
  mkTrace (tr_start t) (queued t) (entered t) (now t clock).

Definition received (d : Diagnostics) (t : Trace) (clock : Z) : option Diagnostics :=
  if sent t =? 0 then Some d else record_stage d Resume (saturating_sub (now t clock) (sent t)).

(** ** Well-formed histograms *)

(** 64 buckets of [u64] whose sum is the count, modulo the wrap-around. *)
Record histogram_wf (h : LatencyHistogram) : Prop := {
  hw_buckets : length (buckets h) = 64%nat;
  hw_range : Forall (in_range u64_max) (buckets h);
  hw_count : in_range u64_max (count h) /\ in_range u64_max (total_nanos h);
  hw_sum : count h = wrap u64_max (foldr Z.add 0 (buckets h))
}.

(** The snapshot of a driver is well formed. *)
Definition snapshot_wf (s : DiagnosticsSnapshot) : Prop := forall st, histogram_wf (stage_of s st).

Definition diagnostics_wf (d : Diagnostics) : Prop := snapshot_wf (stages d).

(** The times a trace stores are 64-bit integers. *)
Record trace_wf (t : Trace) : Prop := {
  tw_queued : in_range u64_max (queued t);
  tw_entered : in_range u64_max (entered t);
  tw_sent : in_range u64_max (sent t)
}.

(** ** Lemmas *)

(** The bucket of a duration, and what a record that does not panic leaves. *)
Definition bucket (n : Z) : Z := Z.log2 (Z.max n 1).

Definition recorded (h : LatencyHistogram) (n : Z) : LatencyHistogram :=
  mkHistogram (wadd (count h) 1) (wadd (total_nanos h) n)
    (alter (fun v => wadd v 1) (Z.to_nat (bucket n)) (buckets h)).

Lemma bucket_spec n :
  in_range u64_max n ->
  0 <= bucket n < 64 /\
  (n <= 1 -> bucket n = 0) /\ (1 < n -> 2 ^ bucket n <= n < 2 ^ (bucket n + 1)).
Proof.
  intros [Hn Hm]. unfold bucket.
  assert (Hlog : Z.log2 (Z.max n 1) < 64).
  { apply Z.log2_lt_pow2; [lia|]. unfold u64_max in Hm. lia. }
  pose proof (Z.log2_nonneg (Z.max n 1)). split; [lia|]. split.
  - intros Hle. by rewrite Z.max_r by lia.
  - intros Hlt. rewrite Z.max_l by lia. rewrite Z.add_1_r. apply Z.log2_spec. lia.
Qed.

Lemma wadd_range a b : in_range u64_max (wadd a b).
Proof. unfold wadd, wrap, in_range, u64_max. pose proof (Z.mod_pos_bound (a + b) (2 ^ 64 - 1 + 1)). lia. Qed.

Lemma foldr_alter_wadd l i :
  (i < length l)%nat ->
  exists k, foldr Z.add 0 (alter (fun v => wadd v 1) i l) =
            foldr Z.add 0 l + 1 - k * (u64_max + 1).
Proof.
  revert i. induction l as [|x l IH]; intros [|i] Hi; simpl in *; try lia.
  - exists ((x + 1) / (u64_max + 1)). unfold wadd, wrap.
    pose proof (Z.div_mod (x + 1) (u64_max + 1) ltac:(done)). lia.
  - destruct (IH i ltac:(lia)) as [k Hk]. exists k.
    change (x + foldr Z.add 0 (alter (fun v => wadd v 1) i l) =
            x + foldr Z.add 0 l + 1 - k * (u64_max + 1)).
    rewrite Hk. lia.
Qed.

Lemma wrap_shift n k : wrap u64_max (n - k * (u64_max + 1)) = wrap u64_max n.
Proof.
  unfold wrap. replace (n - k * (u64_max + 1)) with (n + (- k) * (u64_max + 1)) by lia.
  by rewrite Z_mod_plus_full.
Qed.

Lemma recorded_wf h n : histogram_wf h -> in_range u64_max n -> histogram_wf (recorded h n).
Proof.
  intros [Hl Hr Hc Hs] Hn. pose proof (bucket_spec n Hn) as [Hb _].
  constructor; simpl.
  - by rewrite length_alter.
  - apply Forall_alter; [done|]. intros v _ _. apply wadd_range.
  - split; apply wadd_range.
  - destruct (foldr_alter_wadd (buckets h) (Z.to_nat (bucket n))) as [k ->]; [lia|].
    rewrite wrap_shift, Hs. unfold wadd, wrap. by rewrite Z.add_mod_idemp_l by done.
Qed.

Lemma fold_recorded_wf h ns :
  histogram_wf h -> Forall (in_range u64_max) ns -> histogram_wf (foldl recorded h ns).
Proof.
  intros Hwf Hns. revert h Hwf. induction Hns as [|n ns Hn _ IH]; intros h Hwf; simpl; [done|].
  by apply IH, recorded_wf.
Qed.

Lemma default_histogram_wf : histogram_wf default_histogram.
Proof. constructor; simpl; repeat constructor; done. Qed.

Lemma wadd_wsub_l a b c :
  in_range u64_max b -> wadd (wsub a b) c = wsub (wadd a c) b.
Proof. unfold wadd, wsub, wrap, u64_max, in_range. Z.to_euclidean_division_equations. lia. Qed.

Lemma wsub_diag a : wsub a a = 0.
Proof. unfold wsub, wrap. by rewrite Z.sub_diag. Qed.

Lemma zip_wsub_alter i (l l0 : list Z) :
  Forall (in_range u64_max) l0 ->
  zip_with wsub (alter (fun v => wadd v 1) i l) l0 =
  alter (fun v => wadd v 1) i (zip_with wsub l l0).
Proof.
  intros H. revert i l. induction H as [|x l0 Hx H IH]; intros [|i] [|y l]; try done.
  - cbn. f_equal. by rewrite wadd_wsub_l.
  - change (wsub y x :: zip_with wsub (alter (fun v => wadd v 1) i l) l0 =
            wsub y x :: alter (fun v => wadd v 1) i (zip_with wsub l l0)).
    by rewrite IH.
Qed.

Lemma zip_wsub_diag (l : list Z) : zip_with wsub l l = repeat 0 (length l).
Proof. induction l as [|x l IH]; simpl; [done|]. by rewrite wsub_diag, IH. Qed.

(** Subtracting an earlier histogram commutes with later records. *)
Lemma since_record h earlier n :
  histogram_wf earlier -> since (recorded h n) earlier = recorded (since h earlier) n.
Proof.
  intros [_ Hr [Hc Ht] _]. unfold since, recorded; cbn [count total_nanos buckets].
  by rewrite !wadd_wsub_l, zip_wsub_alter by done.
Qed.

Lemma since_diag h : histogram_wf h -> since h h = default_histogram.
Proof.
  intros [Hl _ _ _]. unfold since, default_histogram.
  by rewrite !wsub_diag, zip_wsub_diag, Hl.
Qed.

Lemma bucket_of_ok n : in_range u64_max n -> bucket_of n = Some (bucket n).
Proof.
  intros Hn. pose proof (bucket_spec n Hn) as [Hb _]. unfold bucket_of, leading_zeros, checked_sub.
  fold (bucket n). destruct (Z.max n 1 =? 0) eqn:E0; [lia|]. destruct (_ <=? 63) eqn:E; bools; [f_equal; lia | lia].
Qed.

(** A duration of 64 bits is recorded. *)
Lemma record_ok h n : histogram_wf h -> in_range u64_max n -> record h n = Some (recorded h n).
Proof.
  intros [Hl _ _ _] Hn. pose proof (bucket_spec n Hn) as [Hb _].
  unfold record, recorded. rewrite bucket_of_ok by done. simpl.
  destruct (lookup_lt_is_Some_2 (buckets h) (Z.to_nat (bucket n))) as [v Hv]; [lia|].
  rewrite Hv. simpl. do 2 f_equal. apply list_eq. intros j.
  destruct (decide (Z.to_nat (bucket n) = j)) as [<-|Hne].
  - by rewrite list_lookup_insert_eq, list_lookup_alter_eq, Hv by lia.
  - by rewrite list_lookup_insert_ne, list_lookup_alter_ne.
Qed.

Lemma record_count h n h' : record h n = Some h' -> count h' = wadd (count h) 1.
Proof.
  unfold record. destruct (bucket_of n); simpl; [|done]. destruct (_ !! _); simpl; [|done].
  by intros [= <-].
Qed.

(** ** What a histogram counts *)

(** The durations of a bucket, from its documentation. *)
Definition in_bucket (i n : Z) : bool :=
  if i =? 0 then n <=? 1 else (2 ^ i <=? n) && (n <? 2 ^ (i + 1)).

Definition occurrences (i : Z) (ns : list Z) : Z :=
  Z.of_nat (length (List.filter (in_bucket i) ns)).

Lemma in_bucket_spec i n :
  in_range u64_max n -> 0 <= i < 64 -> in_bucket i n = (bucket n =? i).
Proof.
  intros Hn Hi. pose proof (bucket_spec n Hn) as (Hb & Hlow & Hhigh).
  unfold in_bucket. destruct (Z.le_gt_cases n 1) as [Hle|Hgt].
  - rewrite (Hlow Hle). destruct (Z.eqb_spec i 0) as [->|Hne]; [by apply Z.leb_le|].
    assert (2 ^ 1 <= 2 ^ i) by (apply Z.pow_le_mono_r; lia).
    change (2 ^ 1) with 2 in *. destruct (Z.leb_spec (2 ^ i) n); [lia|].
    symmetry. apply Z.eqb_neq. lia.
  - specialize (Hhigh Hgt). set (b := bucket n) in *.
    destruct (Z.eqb_spec i 0) as [->|Hne].
    + destruct (Z.eqb_spec b 0) as [Hb0|]; [rewrite Hb0 in Hhigh; change (2 ^ (0 + 1)) with 2 in Hhigh; lia | lia].
    + destruct (Z.lt_trichotomy b i) as [Hlt|[->|Hlt]].
      * assert (2 ^ (b + 1) <= 2 ^ i) by (apply Z.pow_le_mono_r; lia). lia.
      * rewrite Z.eqb_refl. apply andb_true_iff. lia.
      * assert (2 ^ (i + 1) <= 2 ^ b) by (apply Z.pow_le_mono_r; lia). lia.
Qed.

Lemma lookup_alter_Z (f : Z -> Z) (i j : nat) (l : list Z) v :
  l !! j = Some v -> alter f i l !! j = Some (if decide (i = j) then f v else v).
Proof.
  intros Hj. destruct (decide (i = j)) as [->|Hne].
  - by rewrite list_lookup_alter_eq, Hj.
  - by rewrite list_lookup_alter_ne.
Qed.

Lemma wadd_wrap_l a b : wadd (wrap u64_max a) b = wrap u64_max (a + b).
Proof. unfold wadd, wrap. by rewrite Z.add_mod_idemp_l by done. Qed.

Lemma occurrences_snoc i ns n :
  occurrences i (ns ++ [n]) = occurrences i ns + (if in_bucket i n then 1 else 0).
Proof.
  unfold occurrences. rewrite List.filter_app, length_app. simpl.
  destruct (in_bucket i n); simpl; lia.
Qed.

Lemma lookup_repeat_0 (n j : nat) : (j < n)%nat -> repeat 0 n !! j = Some 0.
Proof. revert j. induction n as [|n IH]; intros [|j] Hj; simpl; try lia; [done|]. apply IH. lia. Qed.

Lemma wadd_both a b : wadd (wrap u64_max a) (wrap u64_max b) = wrap u64_max (a + b).
Proof. unfold wadd, wrap. by rewrite <-Z.add_mod by done. Qed.

Lemma occurrences_app i ns ms : occurrences i (ns ++ ms) = occurrences i ns + occurrences i ms.
Proof. unfold occurrences. rewrite List.filter_app, length_app. lia. Qed.

(** The histogram of the durations [ns], by the documentation of its fields. *)
Record holds (h : LatencyHistogram) (ns : list Z) : Prop := {
  ho_count : count h = wrap u64_max (Z.of_nat (length ns));
  ho_total : total_nanos h = wrap u64_max (foldr Z.add 0 ns);
  ho_buckets i : 0 <= i < 64 ->
    buckets h !! Z.to_nat i = Some (wrap u64_max (occurrences i ns))
}.

Lemma holds_default : holds default_histogram [].
Proof. constructor; [done..|]. intros i Hi. exact (lookup_repeat_0 64 (Z.to_nat i) ltac:(lia)). Qed.

Lemma holds_recorded h ns n :
  in_range u64_max n -> holds h ns -> holds (recorded h n) (ns ++ [n]).
Proof.
  intros Hn [Hc Ht Hb]. unfold recorded. constructor; cbn [count total_nanos buckets].
  - rewrite Hc, wadd_wrap_l, length_app. f_equal. simpl. lia.
  - rewrite Ht, wadd_wrap_l, foldr_add_app. simpl. by rewrite Z.add_0_r.
  - intros i Hi. rewrite (lookup_alter_Z _ _ _ _ _ (Hb i Hi)). f_equal.
    rewrite occurrences_snoc, in_bucket_spec by done.
    pose proof (bucket_spec n Hn) as [Hrange _].
    destruct (Z.eqb_spec (bucket n) i) as [->|Hne].
    + rewrite decide_True by done. apply wadd_wrap_l.
    + rewrite decide_False by lia. by rewrite Z.add_0_r.
Qed.

Lemma holds_merge a b ns ms : holds a ns -> holds b ms -> holds (merge a b) (ns ++ ms).
Proof.
  intros [Hc Ht Hb] [Hc' Ht' Hb']. unfold merge. constructor; cbn [count total_nanos buckets].
  - rewrite Hc, Hc', wadd_both, length_app. f_equal. lia.
  - by rewrite Ht, Ht', wadd_both, foldr_add_app.
  - intros i Hi. rewrite lookup_zip_with, Hb, Hb' by done. simpl.
    by rewrite wadd_both, occurrences_app.
Qed.

(** The records of one histogram, in order. *)
Fixpoint records (h : LatencyHistogram) (ns : list Z) : option LatencyHistogram :=
  match ns with
  | [] => Some h
  | n :: ns => h ← record h n; records h ns
  end.

(** ** Properties *)

(** Durations of 64 bits are recorded without a panic, and the histogram
    counts them, sums them, and holds in bucket [i] the number of durations
    that the documentation of [buckets] assigns to it, each modulo 2^64. *)
Theorem histogram_is_exact ns :
  Forall (in_range u64_max) ns ->
  exists h, records default_histogram ns = Some h /\ histogram_wf h /\ holds h ns.
Proof.
  intros Hns.
  cut (forall h ms, histogram_wf h -> holds h ms ->
         exists h', records h ns = Some h' /\ histogram_wf h' /\ holds h' (ms ++ ns)).
  { intros Hgen. exact (Hgen _ [] default_histogram_wf holds_default). }
  induction Hns as [|n ns Hn _ IH]; intros h ms Hw Hh; simpl.
  { exists h. by rewrite app_nil_r. }
  rewrite record_ok by done. simpl.
  destruct (IH (recorded h n) (ms ++ [n])) as (h' & ? & ? & Hh');
    [by apply recorded_wf | by apply holds_recorded |].
  exists h'. by rewrite <-app_assoc in Hh'.
Qed.

Lemma histogram_is_exact_witness :
  let ns := [0; 1; 2; 3; 900; 2 ^ 63; u64_max] in
  Forall (in_range u64_max) ns /\ occurrences 63 ns = 2 /\
  exists h, records default_histogram ns = Some h /\ buckets h !! 63%nat = Some 2.
Proof.
  assert (Hr : Forall (in_range u64_max) [0; 1; 2; 3; 900; 2 ^ 63; u64_max])
    by (repeat constructor; vm_compute; discriminate).
  split; [exact Hr|]. split; [vm_compute; reflexivity|].
  destruct (histogram_is_exact _ Hr) as (h & E & _ & Hh). exists h. split; [exact E|].
  exact (ho_buckets _ _ Hh 63 ltac:(lia)).
Defined.

(** ** The records of a run *)

#[export] Instance stage_eq_dec : EqDecision Stage.
Proof. solve_decision. Defined.

(** The records of a run, in order. *)
Fixpoint record_all (d : Diagnostics) (evs : list (Stage * Z)) : option Diagnostics :=
  match evs with
  | [] => Some d
  | ev :: evs => d ← record_stage d ev.1 ev.2; record_all d evs
  end.

(** The durations a run recorded for a stage. *)
Definition durations (st : Stage) (evs : list (Stage * Z)) : list Z :=
  (List.filter (fun ev => bool_decide (ev.1 = st)) evs).*2.

Definition stage_recorded (d : Diagnostics) (st : Stage) (n : Z) : Diagnostics :=
  mkDiagnostics (set_stage (stages d) st (recorded (stage_of (stages d) st) n)) (requests d).

Definition all_recorded (d : Diagnostics) (evs : list (Stage * Z)) : Diagnostics :=
  foldl (fun d ev => stage_recorded d ev.1 ev.2) d evs.

Lemma stage_of_set s st st' h :
  stage_of (set_stage s st h) st' = if decide (st = st') then h else stage_of s st'.
Proof. by destruct st, st'. Qed.

Lemma stages_ext s s' : (forall st, stage_of s st = stage_of s' st) -> s = s'.
Proof.
  intros Heq. pose proof (Heq Admission). pose proof (Heq Queue). pose proof (Heq Prepare).
  pose proof (Heq Lifetime). pose proof (Heq Cqe). pose proof (Heq Resume).
  destruct s, s'; simpl in *. congruence.
Qed.

Lemma default_snapshot_wf : snapshot_wf default_snapshot.
Proof. intros []; exact default_histogram_wf. Qed.

Lemma set_stage_wf s st h : snapshot_wf s -> histogram_wf h -> snapshot_wf (set_stage s st h).
Proof. intros Hs Hh st'. rewrite stage_of_set. by case_decide. Qed.

(** A stage of a well-formed driver records a duration of 64 bits. *)
Lemma record_stage_ok d st n :
  snapshot_wf (stages d) -> in_range u64_max n ->
  record_stage d st n = Some (stage_recorded d st n) /\ snapshot_wf (stages (stage_recorded d st n)).
Proof.
  intros Hw Hn. unfold record_stage. rewrite record_ok by auto. split; [done|].
  apply set_stage_wf; [done|]. by apply recorded_wf.
Qed.

Lemma record_stage_count d st n d' st' :
  record_stage d st n = Some d' ->
  count (stage_of (stages d') st') =
  if decide (st' = st) then wadd (count (stage_of (stages d) st')) 1
  else count (stage_of (stages d) st').
Proof.
  unfold record_stage. destruct (record _ n) as [h|] eqn:Hr; simpl; [|done]. intros [= <-]. simpl.
  apply record_count in Hr. rewrite stage_of_set.
  destruct (decide (st = st')) as [->|Hne]; [by rewrite decide_True | by rewrite decide_False].
Qed.

Definition event_ok (ev : Stage * Z) : Prop := in_range u64_max ev.2.

Lemma record_all_ok d evs :
  snapshot_wf (stages d) -> Forall event_ok evs -> record_all d evs = Some (all_recorded d evs).
Proof.
  intros Hw Hev. revert d Hw. induction Hev as [|ev evs Hn _ IH]; intros d Hw; simpl; [done|].
  destruct (record_stage_ok d ev.1 ev.2 Hw Hn) as [-> Hw']. by apply IH.
Qed.

Lemma all_recorded_holds st d evs ns :
  Forall event_ok evs -> holds (stage_of (stages d) st) ns ->
  holds (stage_of (stages (all_recorded d evs)) st) (ns ++ durations st evs).
Proof.
  intros Hev. revert d ns. induction Hev as [|ev evs Hn _ IH]; intros d ns Hh; simpl.
  { by rewrite app_nil_r. }
  unfold durations; simpl. case_bool_decide as Hst; simpl.
  - rewrite cons_middle, app_assoc. apply IH. simpl. rewrite stage_of_set, decide_True by done.
    rewrite Hst. by apply holds_recorded.
  - apply IH. simpl. by rewrite stage_of_set, decide_False.
Qed.

(** ** The difference of two snapshots *)

Lemma stage_of_zip g a b st :
  stage_of (snapshot_zip g a b) st = g (stage_of a st) (stage_of b st).
Proof. by destruct st. Qed.

Lemma since_stage_recorded d s0 st n :
  snapshot_wf s0 ->
  snapshot_since (stages (stage_recorded d st n)) s0 =
  stages (stage_recorded (mkDiagnostics (snapshot_since (stages d) s0) (requests d)) st n).
Proof.
  intros Hw. apply stages_ext. intros st'. unfold snapshot_since.
  rewrite stage_of_zip. simpl. rewrite !stage_of_set, !stage_of_zip.
  case_decide; [|done]. subst st'. by apply since_record.
Qed.

Lemma all_recorded_stages d d' evs :
  stages d = stages d' -> stages (all_recorded d evs) = stages (all_recorded d' evs).
Proof.
  revert d d'. induction evs as [|ev evs IH]; intros d d' Hd; simpl; [done|].
  apply IH. unfold stage_recorded. by rewrite Hd.
Qed.

Lemma since_all_recorded d s0 evs :
  snapshot_wf s0 ->
  snapshot_since (stages (all_recorded d evs)) s0 =
  stages (all_recorded (mkDiagnostics (snapshot_since (stages d) s0) (requests d)) evs).
Proof.
  intros Hwf. revert d. induction evs as [|ev evs IH]; intros d; simpl; [done|].
  rewrite IH. apply all_recorded_stages. simpl. by apply since_stage_recorded.
Qed.

Lemma since_diag_snapshot s : snapshot_wf s -> snapshot_since s s = default_snapshot.
Proof.
  intros Hw. apply stages_ext. intros st. unfold snapshot_since.
  rewrite stage_of_zip, since_diag by auto. by destruct st.
Qed.

(** The snapshot of one shard, against an earlier one. *)
Lemma shard_since_exact d evs :
  snapshot_wf (stages d) ->
  snapshot_since (stages (all_recorded d evs)) (stages d) =
  stages (all_recorded default_diagnostics evs).
Proof.
  intros Hwf. rewrite since_all_recorded by done. apply all_recorded_stages. simpl.
  by apply since_diag_snapshot.
Qed.

Lemma wsub_wadd a b a' b' : wsub (wadd a' b') (wadd a b) = wadd (wsub a' a) (wsub b' b).
Proof. unfold wadd, wsub, wrap, u64_max. Z.to_euclidean_division_equations. lia. Qed.

Lemma zip_wsub_wadd (a b a' b' : list Z) :
  zip_with wsub (zip_with wadd a' b') (zip_with wadd a b) =
  zip_with wadd (zip_with wsub a' a) (zip_with wsub b' b).
Proof.
  revert b a' b'. induction a as [|x a IH]; intros [|y b] [|x' a'] [|y' b']; try done; simpl.
  by rewrite wsub_wadd, IH.
Qed.

(** Subtraction distributes over the sum of the shards. *)
Lemma since_merge a b a' b' :
  snapshot_since (snapshot_merge a' b') (snapshot_merge a b) =
  snapshot_merge (snapshot_since a' a) (snapshot_since b' b).
Proof.
  unfold snapshot_since, snapshot_merge, snapshot_zip, since, merge; simpl.
  by rewrite !wsub_wadd, !zip_wsub_wadd.
Qed.

Definition merge_shard (s : DiagnosticsSnapshot) (d : Diagnostics) : DiagnosticsSnapshot :=
  snapshot_merge s (stages d).

Lemma since_diagnostics acc acc' ds evss :
  Forall diagnostics_wf ds -> length evss = length ds ->
  snapshot_since (foldl merge_shard acc' (zip_with all_recorded ds evss)) (foldl merge_shard acc ds) =
  foldl merge_shard (snapshot_since acc' acc) (all_recorded default_diagnostics <$> evss).
Proof.
  intros Hwf. revert acc acc' evss.
  induction Hwf as [|d ds Hd _ IH]; intros acc acc' [|evs evss] Hl; try done; simpl.
  rewrite IH by (simpl in Hl; lia). unfold merge_shard at 2 3 5. by rewrite since_merge, shard_since_exact.
Qed.

(** The merged snapshot of fresh shards holds what each of them recorded. *)
Lemma merge_holds st acc evss ns :
  Forall (Forall event_ok) evss -> holds (stage_of acc st) ns ->
  holds (stage_of (foldl merge_shard acc (all_recorded default_diagnostics <$> evss)) st)
    (ns ++ durations st (concat evss)).
Proof.
  intros Hev. revert acc ns. induction Hev as [|evs evss He _ IH]; intros acc ns Hh; simpl.
  { by rewrite app_nil_r. }
  unfold durations. rewrite List.filter_app, fmap_app, app_assoc. apply IH.
  unfold merge_shard, snapshot_merge. rewrite stage_of_zip. apply holds_merge; [done|].
  apply (all_recorded_holds st default_diagnostics evs []); [done|].
  destruct st; exact holds_default.
Qed.

(** The shards after each made the records of a run. *)
Definition record_shards (ds : list Diagnostics) (evss : list (list (Stage * Z))) :
    option (list Diagnostics) :=
  mapM (fun de => record_all de.1 de.2) (zip ds evss).

Lemma record_shards_ok ds evss :
  Forall diagnostics_wf ds -> Forall (Forall event_ok) evss ->
  record_shards ds evss = Some (zip_with all_recorded ds evss).
Proof.
  unfold record_shards. intros Hwf. revert evss.
  induction Hwf as [|d ds Hd _ IH]; intros evss [|evs evss' He Hev]; try done; simpl.
  rewrite record_all_ok by done. simpl. by rewrite IH.
Qed.

(** [C39] The shards' records of 64-bit durations never panic, and the difference of two
    diagnostics snapshots of a driver holds exactly the records made between them, whatever
    was recorded before and even when counters wrapped in between: for each stage, the number
    of durations recorded in all shards, their sum, and in bucket [i] those that its
    documentation assigns to it, modulo 2^64. *)
Theorem since_is_exact ds evss :
  Forall diagnostics_wf ds -> length evss = length ds ->
  Forall (Forall event_ok) evss ->
  exists after, record_shards ds evss = Some after /\
    forall st, holds (stage_of (snapshot_since (diagnostics after) (diagnostics ds)) st)
                 (durations st (concat evss)).
Proof.
  intros Hwf Hl Hev. eexists. split; [by apply record_shards_ok|]. intros st.
  pose proof (since_diagnostics default_snapshot default_snapshot ds evss Hwf Hl) as Hs.
  unfold diagnostics. unfold merge_shard in Hs. rewrite Hs.
  rewrite since_diag_snapshot by exact default_snapshot_wf.
  apply (merge_holds st default_snapshot evss []); [done|]. destruct st; exact holds_default.
Qed.

(** A shard whose admission counters are about to wrap. *)
Definition near_wrap : Diagnostics :=
  mkDiagnostics
    (mkSnapshot (mkHistogram u64_max u64_max (u64_max :: repeat 0 63)) default_histogram
       default_histogram default_histogram default_histogram default_histogram) 0.

Lemma near_wrap_wf : snapshot_wf (stages near_wrap).
Proof.
  intros []; try exact default_histogram_wf.
  constructor; cbn; [reflexivity | | | vm_compute; reflexivity].
  - repeat constructor; vm_compute; discriminate.
  - repeat split; vm_compute; discriminate.
Qed.

Lemma since_is_exact_witness :
  let evss := [[(Admission, 1); (Queue, 5)]; [(Admission, 2)]] in
  exists after, record_shards [near_wrap; near_wrap] evss = Some after /\
    count (admission (diagnostics after)) = 0 /\
    holds (admission (snapshot_since (diagnostics after) (diagnostics [near_wrap; near_wrap]))) [1; 2].
Proof.
  intros evss.
  destruct (since_is_exact [near_wrap; near_wrap] evss
    (Forall_cons_2 diagnostics_wf _ _ near_wrap_wf (Forall_cons_2 diagnostics_wf _ _ near_wrap_wf (Forall_nil_2 _))) eq_refl
    ltac:(repeat constructor; vm_compute; discriminate)) as (after & E & Hh).
  exists after. split; [exact E|]. split; [|exact (Hh Admission)].
  assert (Hc : (fun ds => count (admission (diagnostics ds))) <$>
    record_shards [near_wrap; near_wrap] evss = Some 0) by (vm_compute; reflexivity).
  rewrite E in Hc. by injection Hc.
Defined.

(** ** The life of a sampled request *)

(** The clock readings of a request: sampled, enqueued, taken by the driver,
    prepared, its last completion taken and processed, sent, polled. *)
Record Clocks := mkClocks {
  at_start : Z; at_enqueue : Z; at_enter : Z; at_prepared : Z;
  at_reap : Z; at_reaped : Z; at_sent : Z; at_poll : Z
}.

Definition monotone (c : Clocks) : Prop :=
  at_start c <= at_enqueue c /\ at_enqueue c <= at_enter c /\ at_enter c <= at_prepared c /\
  at_prepared c <= at_reap c /\ at_reap c <= at_reaped c /\ at_reaped c <= at_sent c /\
  at_sent c <= at_poll c.

(** The calls a request with one completion makes on its trace. *)
Definition traced_request (d : Diagnostics) (t : Trace) (c : Clocks) : option Diagnostics :=
  '(d, t) ← enqueue d t (at_enqueue c);
  '(d, t) ← enter d t (at_enter c);
  d ← prepared d t (at_prepared c);
  d ← reaped d t (at_reaped c) (now t (at_reap c)) true;
  received d (sending t (at_sent c)) (at_poll c).

(** The next record of a trace is the interval [e]. *)
Ltac next_record e :=
  match goal with
  | |- context [record_stage ?d ?st ?n] =>
      replace n with e by (unfold saturating_sub; lia);
      destruct (record_stage d st e); simpl; [|done]
  end.

(** The first request of every 64 of a shard is traced, and a traced
    request records, for each stage, exactly the time between the two events
    that delimit it; before the saturation of the clock at 584 years. *)
Lemma trace_records_intervals d c t :
  monotone c -> at_poll c - at_start c < u64_max ->
  (sample d (at_start c)).2 = Some t ->
  requests d mod 64 = 0 /\
  traced_request (sample d (at_start c)).1 t c =
  record_all (mkDiagnostics (stages d) (wadd (requests d) 1))
    [(Admission, at_enqueue c - at_start c); (Queue, at_enter c - at_enqueue c);
     (Prepare, at_prepared c - at_enter c); (Cqe, at_reaped c - at_reap c);
     (Lifetime, at_reap c - at_enter c); (Resume, at_poll c - at_sent c)].
Proof.
  intros (H1 & H2 & H3 & H4 & H5 & H6 & H7) Hsat. unfold sample.
  destruct (_ =? 0) eqn:E; [|done]. intros [= <-]. split; [by apply Z.eqb_eq|].
  unfold traced_request, enqueue, enter, prepared, reaped, sending, received, now.
  cbn [record_all tr_start queued entered sent fst snd].
  assert (Hsub : checked_sub
    (Z.min (Z.max 0 (at_enqueue c - at_start c)) (u64_max - 1) + 1) 1 =
    Some (at_enqueue c - at_start c)).
  { unfold checked_sub. destruct (_ <=? _) eqn:Hb; bools; [f_equal|]; lia. }
  rewrite Hsub. simpl.
  next_record (at_enqueue c - at_start c). next_record (at_enter c - at_enqueue c).
  next_record (at_prepared c - at_enter c). next_record (at_reaped c - at_reap c).
  next_record (at_reap c - at_enter c).
  rewrite (proj2 (Z.eqb_neq _ 0)) by lia. by next_record (at_poll c - at_sent c).
Qed.

Lemma trace_records_intervals_witness :
  let c := mkClocks 10 15 40 42 142 143 150 400 in
  traced_request (mkDiagnostics default_snapshot 65) (mkTrace 10 0 0 0) c =
  record_all (mkDiagnostics default_snapshot 65)
    [(Admission, 5); (Queue, 25); (Prepare, 2); (Cqe, 1); (Lifetime, 102); (Resume, 250)].
Proof.
  exact (proj2 (trace_records_intervals (mkDiagnostics default_snapshot 64)
    (mkClocks 10 15 40 42 142 143 150 400) (mkTrace 10 0 0 0)
    ltac:(unfold monotone; cbn; lia) ltac:(cbn; unfold u64_max; lia) eq_refl)).
Defined.
