(* ===== verification/OrderedReader.v ===== *)
(** * The ordered prefetching reader

    [OrderedReader] of [src/examples/ordered_prefetch/reader.rs]: a window of
    positioned reads polled together and delivered in order. The source of the
    reads and the futures it holds, parameters of the code too, are an
    interface, [ReadSource]; [SourceReads] is what the documentation requires
    of a source of whole-range reads, and [file_source] implements both. *)

From S2P Require Import Prelude IoError Interfaces.

(** [source], the handles it returns, and dropping one: state [W] is what the
    handles share. A poll answers [None] for [Poll::Pending]. *)
Class ReadSource (W F : Type) := {
  rs_start : W -> Z -> Z -> W * F;
  rs_poll : W -> F -> W * F * option read_result;
  rs_drop : W -> F -> W
}.

Definition MAX_WINDOW : Z := 64.
Definition MAX_CHUNK : Z := 8 * 1024 * 1024.

Record Config := mkConfig {
  cf_offset : Z;
  cf_length : Z;
  cf_chunk : Z;
  cf_window : Z;
  cf_max_bytes : Z
}.

(** [Config::validate]: the end of the range. *)
Definition validate (c : Config) : io_result Z :=
  if (cf_chunk c =? 0) || (MAX_CHUNK <? cf_chunk c) || (cf_window c =? 0) ||
     (MAX_WINDOW <? cf_window c)
  then Err (Custom InvalidInput "chunk must be 1..=8 MiB and window 1..=64")
  else if (cf_max_bytes c <? cf_chunk c) || (MAX_WINDOW * MAX_CHUNK <? cf_max_bytes c)
  then Err (Custom InvalidInput "max_bytes must be at least chunk and at most 512 MiB")
  else
    match checked_add u64_max (cf_offset c) (cf_length c) with
    | Some end_ =>
        if end_ <=? i64_max then Ok end_
        else Err (Custom InvalidInput "range end must fit signed file offsets")
    | None => Err (Custom InvalidInput "range end must fit signed file offsets")
    end.

Record Chunk := mkChunk { ch_offset : Z; ch_bytes : list Byte.byte }.

Section Reader.
Context {W F : Type} `{ReadSource W F}.

Inductive SlotState := StPending (h : F) | StReady (r : read_result).

Record Slot := mkSlot { sl_offset : Z; sl_len : Z; sl_state : SlotState }.

Record OrderedReader := mkReader {
  or_config : Config;
  or_end : Z;
  or_next_offset : Z;
  or_reserved : Z;
  or_slots : list Slot;
  or_stop_scheduling : bool;
  or_finished : bool
}.

(** [OrderedReader::new]. *)
Definition new_reader (c : Config) : io_result OrderedReader :=
  io_bind (validate c) (fun end_ => Ok (mkReader c end_ (cf_offset c) 0 [] false false)).

(** [fill_window], out of fuel at [None]. *)
Fixpoint fill_window (fuel : nat) (w : W) (r : OrderedReader) : option (W * OrderedReader) :=
  match fuel with
  | O => None
  | S fuel =>
      if negb (or_stop_scheduling r) && (or_next_offset r <? or_end r) &&
         (zlen (or_slots r) <? cf_window (or_config r))
      then
        let len := Z.min (or_end r - or_next_offset r) (cf_chunk (or_config r)) in
        if cf_max_bytes (or_config r) - or_reserved r <? len then Some (w, r)
        else
          let '(w, handle) := rs_start w (or_next_offset r) len in
          fill_window fuel w
            (mkReader (or_config r) (or_end r) (or_next_offset r + len) (or_reserved r + len)
               (or_slots r ++ [mkSlot (or_next_offset r) len (StPending handle)])
               (or_stop_scheduling r) (or_finished r))
      else Some (w, r)
  end.

(** The check of a ready result's length. *)
Definition checked_result (len : Z) (res : read_result) : read_result :=
  match res with
  | Ok bytes =>
      if len <? zlen bytes
      then Err (Custom InvalidData "source returned more bytes than requested")
      else res
  | Err _ => res
  end.

(** One slot's poll; the handle of a ready slot is dropped. *)
Definition poll_slot (w : W) (s : Slot) : W * Slot :=
  match sl_state s with
  | StPending h =>
      match rs_poll w h with
      | (w, h, Some res) =>
          (rs_drop w h, mkSlot (sl_offset s) (sl_len s) (StReady (checked_result (sl_len s) res)))
      | (w, h, None) => (w, mkSlot (sl_offset s) (sl_len s) (StPending h))
      end
  | StReady _ => (w, s)
  end.

(** An error or a short result: nothing after it can be delivered. *)
Definition terminal (s : Slot) : bool :=
  match sl_state s with
  | StPending _ => false
  | StReady (Ok bytes) => negb (zlen bytes =? sl_len s)
  | StReady (Err _) => true
  end.

(** The polling loop: the slots and the index of the first terminal one. *)
Fixpoint poll_slots (w : W) (slots : list Slot) : W * list Slot * option nat :=
  match slots with
  | [] => (w, [], None)
  | s :: slots =>
      let '(w, s) := poll_slot w s in
      if terminal s then (w, s :: slots, Some 0%nat)
      else
        let '(w, slots, t) := poll_slots w slots in
        (w, s :: slots, S <$> t)
  end.

Definition drop_slot (w : W) (s : Slot) : W :=
  match sl_state s with StPending h => rs_drop w h | StReady _ => w end.

Definition lens (slots : list Slot) : Z := foldr (fun s acc => sl_len s + acc) 0 slots.

(** The slots after the terminal one are dropped, last first. *)
Definition drop_tail (w : W) (slots : list Slot) (reserved : Z) (index : nat) :
    W * list Slot * Z :=
  let tail := drop (S index) slots in
  (fold_left drop_slot (rev tail) w, take (S index) slots, reserved - lens tail).

(** [Poll<io::Result<Option<Chunk>>>]. *)
Inductive next_poll := NextPending | NextReady (r : io_result (option Chunk)).

Definition deliver_front (r : OrderedReader) : OrderedReader * next_poll :=
  match or_slots r with
  | [] =>
      (mkReader (or_config r) (or_end r) (or_next_offset r) (or_reserved r) []
         (or_stop_scheduling r) true, NextReady (Ok None))
  | s :: rest =>
      let popped fin :=
        mkReader (or_config r) (or_end r) (or_next_offset r) (or_reserved r - sl_len s) rest
          (or_stop_scheduling r) fin in
      match sl_state s with
      | StPending _ => (r, NextPending)
      | StReady (Ok bytes) =>
          (popped (or_finished r || (zlen bytes <? sl_len s)),
           NextReady (Ok (if bool_decide (bytes = []) then None
                          else Some (mkChunk (sl_offset s) bytes))))
      | StReady (Err e) => (popped true, NextReady (Err e))
      end
  end.

(** [poll_next]. *)
Definition poll_next (w : W) (r : OrderedReader) : option (W * OrderedReader * next_poll) :=
  if or_finished r then Some (w, r, NextReady (Ok None))
  else
    '(w, r) ← fill_window (S (Z.to_nat (cf_window (or_config r)))) w r;
    let '(w, slots, t) := poll_slots w (or_slots r) in
    let '(w, slots, reserved, stop) :=
      match t with
      | None => (w, slots, or_reserved r, or_stop_scheduling r)
      | Some i =>
          let '(w, slots, reserved) := drop_tail w slots (or_reserved r) i in
          (w, slots, reserved, true)
      end in
    let '(r, out) :=
      deliver_front (mkReader (or_config r) (or_end r) (or_next_offset r) reserved slots stop
                       (or_finished r)) in
    Some (w, r, out).

(** A consumer's polls, the rest of the world acting before each. *)
Fixpoint polls (envs : list (W -> W)) (w : W) (r : OrderedReader) :
    option (W * OrderedReader * list next_poll) :=
  match envs with
  | [] => Some (w, r, [])
  | env :: envs =>
      '(w, r, out) ← poll_next (env w) r;
      '(w, r, outs) ← polls envs w r;
      Some (w, r, out :: outs)
  end.
End Reader.
Arguments SlotState F : clear implicits.
Arguments Slot F : clear implicits.
Arguments OrderedReader F : clear implicits.

(** ** What a reader promises *)

(** The types of a configuration's fields. *)
Definition config_range (c : Config) : Prop :=
  0 <= cf_offset c /\ 0 <= cf_length c /\ 0 <= cf_chunk c /\ 0 <= cf_window c /\
  0 <= cf_max_bytes c.

(** Slots cover the file from [pos] to [stop] without a gap. *)
Fixpoint chain {F} (pos : Z) (slots : list (Slot F)) (stop : Z) : Prop :=
  match slots with
  | [] => pos = stop
  | s :: slots => sl_offset s = pos /\ chain (pos + sl_len s) slots stop
  end.

(** The reader between two polls, when the consumer is at [pos]. *)
Record reader_inv {F} (c : Config) (pos : Z) (r : OrderedReader F) : Prop := {
  ri_config : or_config r = c /\ or_end r = cf_offset c + cf_length c /\ or_end r <= i64_max;
  ri_geometry : 1 <= cf_chunk c <= MAX_CHUNK /\ 1 <= cf_window c <= MAX_WINDOW /\
                cf_chunk c <= cf_max_bytes c;
  ri_pos : cf_offset c <= pos;
  ri_chain : exists stop, chain pos (or_slots r) stop /\ stop <= or_next_offset r <= or_end r /\
               (or_stop_scheduling r = false -> stop = or_next_offset r);
  ri_reserved : or_reserved r = lens (or_slots r) /\ or_reserved r <= cf_max_bytes c;
  ri_window : zlen (or_slots r) <= cf_window c;
  ri_lens : Forall (fun s => 1 <= sl_len s <= cf_chunk c) (or_slots r);
  ri_ready : Forall (fun s => forall bytes, sl_state s = StReady (Ok bytes) ->
                               zlen bytes <= sl_len s) (or_slots r);
  ri_stop : or_finished r = false -> or_stop_scheduling r = true ->
            exists l s, or_slots r = l ++ [s] /\ terminal s = true
}.

(** The chunks a consumer got, their bytes, and whether it saw the end. *)
Definition chunks (outs : list next_poll) : list Chunk :=
  omap (fun o => match o with NextReady (Ok (Some ch)) => Some ch | _ => None end) outs.

Definition bytes_of (cs : list Chunk) : list Byte.byte := mjoin (ch_bytes <$> cs).

(** Consecutive nonempty chunks from [pos] on. *)
Fixpoint in_order (pos : Z) (cs : list Chunk) : Prop :=
  match cs with
  | [] => True
  | ch :: cs => ch_offset ch = pos /\ ch_bytes ch <> [] /\ in_order (pos + zlen (ch_bytes ch)) cs
  end.

(** A source of positioned reads of a file's bytes. It serves the reads in
    flight, each with its offset and length: starting, polling and dropping one
    of them leaves the others served, and a result is an error or the requested
    range, up to the end of the file. [consistent] is what may be assumed of
    the answers given so far. *)
Class SourceReads {W F : Type} `{ReadSource W F} (content : list Byte.byte) := {
  serves : W -> list (Z * Z * F) -> Prop;
  consistent : W -> Prop;
  rs_start_consistent w off len : consistent (rs_start w off len).1 -> consistent w;
  rs_poll_consistent w h : consistent (rs_poll w h).1.1 -> consistent w;
  rs_drop_consistent w h : consistent (rs_drop w h) -> consistent w;
  rs_start_serves w l off len : serves w l -> 1 <= len -> off + len <= i64_max ->
    serves (rs_start w off len).1 (l ++ [(off, len, (rs_start w off len).2)]);
  rs_poll_serves w a off len h b : serves w (a ++ (off, len, h) :: b) ->
    match rs_poll w h with
    | (w', h', None) => serves w' (a ++ (off, len, h') :: b)
    | (w', h', Some res) =>
        serves (rs_drop w' h') (a ++ b) /\
        forall bytes, consistent w' -> res = Ok bytes -> bytes = slice content off len
    end;
  rs_drop_serves w l off len h : serves w (l ++ [(off, len, h)]) -> serves (rs_drop w h) l
}.

(** ** Lemmas *)

Lemma validate_Ok c end_ :
  config_range c -> validate c = Ok end_ ->
  end_ = cf_offset c + cf_length c /\ end_ <= i64_max /\ 1 <= cf_chunk c <= MAX_CHUNK /\
  1 <= cf_window c <= MAX_WINDOW /\ cf_chunk c <= cf_max_bytes c.
Proof.
  intros (? & ? & ? & ? & ?). unfold validate.
  destruct (_ || (MAX_WINDOW <? _)) eqn:E1; [done|].
  destruct (_ || (MAX_WINDOW * MAX_CHUNK <? _)) eqn:E2; [done|]. bools.
  destruct (checked_add _ _ _) as [e|] eqn:Ec; [|done].
  apply checked_add_Some in Ec as [-> _].
  destruct (_ <=? i64_max) eqn:E3; [|done]. intros [= <-]. bools. lia.
Qed.

Lemma lens_app {F} (a b : list (Slot F)) : lens (a ++ b) = lens a + lens b.
Proof. induction a as [|s a IH]; simpl; lia. Qed.

Lemma lens_nonneg {F} n (l : list (Slot F)) :
  Forall (fun s => 1 <= sl_len s <= n) l -> 0 <= lens l.
Proof. induction 1; simpl; lia. Qed.

Lemma chain_app {F} pos (a b : list (Slot F)) stop :
  chain pos (a ++ b) stop <-> chain pos a (pos + lens a) /\ chain (pos + lens a) b stop.
Proof.
  revert pos. induction a as [|s a IH]; intros pos; simpl.
  - rewrite Z.add_0_r. tauto.
  - rewrite IH. replace (pos + sl_len s + lens a) with (pos + (sl_len s + lens a)) by lia. tauto.
Qed.

Lemma chain_stop {F} pos (a : list (Slot F)) stop : chain pos a stop -> stop = pos + lens a.
Proof. revert pos. induction a as [|s a IH]; simpl; intros pos; [lia|]. intros [_ H%IH]. lia. Qed.

Section Polls.
Context {W F : Type} `{ReadSource W F}.
Implicit Types (w : W) (r : OrderedReader F) (s : Slot F).

(** A property of the source and the slots that starting, polling, dropping and
    delivering a read keep. *)
Context (J : W -> list (Slot F) -> Prop).
Context (J_start : forall w l off len, J w l -> 1 <= len -> off + len <= i64_max ->
  J (rs_start w off len).1 (l ++ [mkSlot off len (StPending (rs_start w off len).2)])).
Context (J_poll : forall w a s b, J w (a ++ s :: b) ->
  J (poll_slot w s).1 (a ++ (poll_slot w s).2 :: b)).
Context (J_drop : forall w l s, J w (l ++ [s]) -> J (drop_slot w s) l).
Context (J_pop : forall w s l res, J w (s :: l) -> sl_state s = StReady res -> J w l).

Lemma fill_window_spec c pos fuel w r :
  reader_inv c pos r -> or_finished r = false -> J w (or_slots r) ->
  cf_window c - zlen (or_slots r) < Z.of_nat fuel ->
  exists w' r', fill_window fuel w r = Some (w', r') /\ reader_inv c pos r' /\
    or_finished r' = false /\ J w' (or_slots r') /\
    (or_slots r' = [] -> or_next_offset r' = or_end r').
Proof.
  revert w r. induction fuel as [|fuel IH]; intros w r Hr Hfin HQ Hfuel; simpl.
  { destruct Hr. lia. }
  pose proof Hr as [(Hc & He & Hi) Hg Hp (stop & Hch & Hle & Hst) [Hres Hmax] Hw Hl Hrd Hstop].
  assert (Hempty : or_stop_scheduling r = true -> or_slots r <> []).
  { intros Hs. destruct (Hstop Hfin Hs) as (l & s & -> & _). by destruct l. }
  destruct (negb _ && _ && _) eqn:Econt.
  2: { exists w, r. split_and!; try done. intros Hnil. rewrite Hc in Econt. bools.
       destruct Econt as [Econt|Econt]; bools.
       - destruct Econt as [Econt|Econt]; bools; [by destruct (Hempty Econt) | lia].
       - rewrite Hnil in Econt. unfold zlen in Econt. simpl in Econt. lia. }
  rewrite Hc in Econt |- *. bools.
  destruct (_ - _ <? _) eqn:Eb.
  { exists w, r. split_and!; try done. intros Hnil. bools. rewrite Hnil in Hres. simpl in Hres. lia. }
  bools. set (len := Z.min _ _) in *.
  assert (Hnew := J_start w (or_slots r) (or_next_offset r) len HQ ltac:(lia) ltac:(lia)).
  destruct (rs_start w (or_next_offset r) len) as [w1 h] eqn:Est. simpl in Hnew.
  specialize (Hst ltac:(done)). subst stop.
  apply IH; simpl; try done.
  - constructor; simpl; try done.
    + exists (or_next_offset r + len). rewrite chain_app. simpl.
      pose proof (chain_stop _ _ _ Hch). split_and!; try lia; congruence.
    + rewrite lens_app. simpl. lia.
    + unfold zlen in *. rewrite length_app. simpl. lia.
    + apply Forall_app_2; [done|]. constructor; [simpl; lia | done].
    + apply Forall_app_2; [done|]. by constructor.
    + congruence.
  - unfold zlen in *. rewrite length_app. simpl. lia.
Qed.

Lemma poll_slot_spec w s :
  let s' := (poll_slot w s).2 in
  sl_offset s' = sl_offset s /\ sl_len s' = sl_len s /\ (terminal s = true -> s' = s) /\
  ((forall bytes, sl_state s = StReady (Ok bytes) -> zlen bytes <= sl_len s) ->
    forall bytes, sl_state s' = StReady (Ok bytes) -> zlen bytes <= sl_len s').
Proof.
  unfold poll_slot, terminal. destruct s as [off len [h|res]]; simpl; [|by split_and!].
  destruct (rs_poll w h) as [[w1 h1] [res|]]; simpl; split_and!; try done.
  intros _ bytes. unfold checked_result. destruct res as [b|e]; [|done].
  destruct (len <? zlen b) eqn:E; [done|]. intros [= <-]. by bools.
Qed.

(** What polling keeps of the slots. *)
Definition same_slots (l l' : list (Slot F)) : Prop :=
  lens l' = lens l /\ length l' = length l /\ (forall pos stop, chain pos l stop -> chain pos l' stop) /\
  (forall n, Forall (fun s => 1 <= sl_len s <= n) l -> Forall (fun s => 1 <= sl_len s <= n) l') /\
  (Forall (fun s => forall bytes, sl_state s = StReady (Ok bytes) -> zlen bytes <= sl_len s) l ->
   Forall (fun s => forall bytes, sl_state s = StReady (Ok bytes) -> zlen bytes <= sl_len s) l').

Lemma poll_slots_spec w l w' l' t :
  poll_slots w l = (w', l', t) ->
  same_slots l l' /\ (forall a, J w (a ++ l) -> J w' (a ++ l')) /\
  match t with
  | Some i => exists a s b, l' = a ++ s :: b /\ length a = i /\ terminal s = true
  | None => Forall (fun s => terminal s = false) l
  end.
Proof.
  revert w w' l' t. induction l as [|s l IH]; intros w w' l' t; simpl.
  { intros [= <- <- <-]. split; [|done]. unfold same_slots. by split_and!. }
  pose proof (poll_slot_spec w s) as (Ho & Hl & Ht & Hr).
  pose proof (fun a b => J_poll w a s b) as HJ.
  destruct (poll_slot w s) as [w1 s1]. simpl in *.
  destruct (terminal s1) eqn:Et.
  { intros [= <- <- <-]. split; [|split; [intros a; apply HJ|]].
    - unfold same_slots; simpl. rewrite Ho, Hl. split_and!; try done.
      + intros n [? ?]%Forall_cons. constructor; [by rewrite Hl | done].
      + intros [? ?]%Forall_cons. constructor; [by apply Hr | done].
    - by exists [], s1, l. }
  destruct (poll_slots w1 l) as [[w2 l2] t2] eqn:Ep. intros [= <- <- <-].
  destruct (IH _ _ _ _ Ep) as [(H1 & H2 & H3 & H4 & H5) [HJl Hterm]]. split; [|split].
  - unfold same_slots; simpl. rewrite Ho, Hl, H1, H2. split_and!; try done.
    + intros pos stop [? ?]. by split; [|apply H3].
    + intros n [? ?]%Forall_cons. constructor; [by rewrite Hl | by apply H4].
    + intros [? ?]%Forall_cons. constructor; [by apply Hr | by apply H5].
  - intros a Ha%HJ. rewrite (cons_middle s1 a l2), (app_assoc a). apply HJl.
    by rewrite <-app_assoc.
  - destruct t2 as [i|]; simpl.
    + destruct Hterm as (a & s2 & b & -> & <- & ?). by exists (s1 :: a), s2, b.
    + constructor; [|done]. destruct (terminal s) eqn:Es; [|done]. rewrite Ht in Et; congruence.
Qed.

Lemma drop_slots_spec w l tail :
  J w (l ++ tail) -> J (fold_left drop_slot (rev tail) w) l.
Proof.
  revert w. induction tail as [|s tail IH] using rev_ind; intros w HJ.
  - by rewrite app_nil_r in HJ.
  - rewrite rev_unit. apply IH, J_drop. by rewrite <-app_assoc.
Qed.

(** The polling phase and the cut after the first terminal slot. *)
Lemma poll_phase_inv c pos w r w1 l t :
  reader_inv c pos r -> or_finished r = false -> J w (or_slots r) ->
  poll_slots w (or_slots r) = (w1, l, t) ->
  let r' :=
    match t with
    | None => mkReader (or_config r) (or_end r) (or_next_offset r) (or_reserved r) l
                (or_stop_scheduling r) (or_finished r)
    | Some i => mkReader (or_config r) (or_end r) (or_next_offset r)
                  (or_reserved r - lens (drop (S i) l)) (take (S i) l) true (or_finished r)
    end in
  reader_inv c pos r' /\
  J (match t with None => w1 | Some i => fold_left drop_slot (rev (drop (S i) l)) w1 end)
    (or_slots r').
Proof.
  intros Hr Hfin HQ Hp.
  destruct Hr as [Hc Hg Hpos (stop & Hch & Hle & Hst) [Hres Hmax] Hw Hl Hrd Hstop].
  destruct (poll_slots_spec _ _ _ _ _ Hp) as [(H1 & H2 & H3 & H4 & H5) [H6 Ht]].
  specialize (H3 _ _ Hch). specialize (H4 _ Hl). specialize (H5 Hrd). specialize (H6 [] HQ).
  destruct t as [i|]; simpl.
  - destruct Ht as (a & s & b & Hal & <- & Hterm).
    assert (Hsplit : l = (a ++ [s]) ++ b) by (rewrite Hal, <-app_assoc; done).
    assert (Hlen : length (a ++ [s]) = S (length a)) by (rewrite length_app; simpl; lia).
    rewrite Hsplit, drop_app_length', take_app_length' by (by rewrite Hlen).
    rewrite Hsplit in H3, H4, H5, H6. apply chain_app in H3 as [Ha Hb].
    apply Forall_app in H4 as [H4 H4b], H5 as [H5 _].
    pose proof (lens_nonneg _ _ H4b). apply chain_stop in Hb.
    rewrite Hsplit, lens_app in H1.
    split; [|by apply drop_slots_spec]. constructor; simpl; try done.
    + exists (pos + lens (a ++ [s])). split_and!; [done | lia | lia | done].
    + lia.
    + unfold zlen in *. rewrite <-H2, Hsplit, length_app in Hw. lia.
    + intros _ _. by exists a, s.
  - split; [|done]. constructor; simpl; try done.
    + by exists stop.
    + by rewrite H1.
    + unfold zlen in *. by rewrite H2.
    + intros Hf Hs. destruct (Hstop Hf Hs) as (a & s & Heq & Hterm). exfalso.
      rewrite Heq in Ht. apply Forall_app in Ht as [_ Ht]. apply Forall_cons_1 in Ht as [Ht _].
      congruence.
Qed.

(** What a poll of an unfinished reader at [pos] answers, and where it leaves
    the consumer. *)
Definition next_spec (c : Config) (w : W) (pos pos' : Z) (fin' : bool) (out : next_poll) : Prop :=
  match out with
  | NextPending => pos' = pos /\ fin' = false
  | NextReady (Err _) => fin' = true
  | NextReady (Ok None) =>
      fin' = true /\
      (pos = cf_offset c + cf_length c \/
       exists l s, J w (s :: l) /\ sl_offset s = pos /\ sl_state s = StReady (Ok []) /\
         1 <= sl_len s)
  | NextReady (Ok (Some ch)) =>
      ch_offset ch = pos /\ ch_bytes ch <> [] /\
      exists l s, J w (s :: l) /\ sl_offset s = pos /\ sl_state s = StReady (Ok (ch_bytes ch)) /\
        zlen (ch_bytes ch) <= sl_len s /\ pos' = pos + sl_len s /\
        fin' = (zlen (ch_bytes ch) <? sl_len s)
  end.

Lemma deliver_front_spec c pos w r :
  reader_inv c pos r -> or_finished r = false -> J w (or_slots r) ->
  (or_slots r = [] -> pos = cf_offset c + cf_length c) ->
  exists pos', reader_inv c pos' (deliver_front r).1 /\ J w (or_slots (deliver_front r).1) /\
    pos <= pos' <= cf_offset c + cf_length c /\
    next_spec c w pos pos' (or_finished (deliver_front r).1) (deliver_front r).2.
Proof.
  intros Hr Hfin HQ Hend.
  pose proof Hr as [(Hc & He & Hi) Hg Hpos (stop & Hch & Hle & Hst) [Hres Hmax] Hw Hl Hrd Hstop].
  pose proof (chain_stop _ _ _ Hch) as Hcs. pose proof (lens_nonneg _ _ Hl) as Hnn.
  unfold deliver_front. destruct (or_slots r) as [|s rest] eqn:Hs.
  { exists pos. split_and!; [ | done | lia | lia | by split; [|left; auto]].
    constructor; simpl; try done. by exists stop. }
  simpl in Hch, Hres, Hcs, Hnn. destruct Hch as [Hoff Hch].
  apply Forall_cons in Hl as [Hls Hl], Hrd as [Hrs Hrd].
  pose proof (lens_nonneg _ _ Hl) as Hnr.
  assert (Hrest : forall fin,
    (or_stop_scheduling r = true -> fin = false -> terminal s = false) ->
    reader_inv c (pos + sl_len s)
      (mkReader (or_config r) (or_end r) (or_next_offset r) (or_reserved r - sl_len s) rest
         (or_stop_scheduling r) fin)).
  { intros fin Hterm. constructor; simpl; try done; try lia.
    - by exists stop.
    - unfold zlen in *. simpl in Hw. lia.
    - intros -> Hst'. destruct (Hstop Hfin Hst') as (l & s' & Heq & Ht').
      destruct l as [|s0 l]; injection Heq as <- Heq; [|by exists l, s'].
      rewrite (Hterm Hst' eq_refl) in Ht'. done. }
  destruct (sl_state s) as [h|[bytes|e]] eqn:Est; simpl.
  - exists pos. rewrite Hs. split_and!; [done | done | lia | lia | done | done].
  - exists (pos + sl_len s). specialize (Hrs bytes eq_refl). rewrite Hfin. simpl.
    split_and!; [|by eapply J_pop|lia|lia|].
    + apply Hrest. intros _ Hlt. unfold terminal. rewrite Est. bools.
      apply negb_false_iff, Z.eqb_eq. lia.
    + case_bool_decide as Hb; simpl.
      * subst bytes. unfold zlen in *. simpl. split; [apply Z.ltb_lt; lia|].
        right. exists rest, s. split_and!; (done || lia).
      * split_and!; [done..|]. exists rest, s. by split_and!.
  - exists (pos + sl_len s). split_and!; [|by eapply J_pop|lia|lia|done]. by apply Hrest.
Qed.

Lemma poll_next_spec c pos w r :
  reader_inv c pos r -> or_finished r = false -> J w (or_slots r) ->
  exists w' r' out pos', poll_next w r = Some (w', r', out) /\
    reader_inv c pos' r' /\ J w' (or_slots r') /\ pos <= pos' <= cf_offset c + cf_length c /\
    next_spec c w' pos pos' (or_finished r') out.
Proof.
  intros Hr Hfin HQ. unfold poll_next. rewrite Hfin.
  destruct (fill_window_spec c pos (S (Z.to_nat (cf_window (or_config r)))) w r Hr Hfin HQ)
    as (w1 & r1 & Hfill & Hr1 & Hfin1 & HQ1 & Hempty).
  { destruct Hr as [(-> & _) ? _ _ _ _ _ _ _]. unfold zlen. lia. }
  rewrite Hfill. cbn [mbind option_bind].
  destruct (poll_slots w1 (or_slots r1)) as [[w2 l] t] eqn:Ep.
  pose proof (poll_phase_inv c pos w1 r1 w2 l t Hr1 Hfin1 HQ1 Ep) as [Hr2 HQ2].
  assert (Hnil : (match t with Some i => take (S i) l | None => l end) = [] ->
                 pos = cf_offset c + cf_length c).
  { destruct (poll_slots_spec _ _ _ _ _ Ep) as [(_ & Hlen & _) [_ Ht]]. intros Hl.
    assert (Hs : or_slots r1 = []).
    { destruct t as [i|]; [|subst l; by apply nil_length_inv].
      destruct Ht as (a & s & b & -> & <- & _). by destruct a. }
    destruct Hr1 as [(_ & <- & _) _ _ (stop & Hch & _ & Hst) _ _ _ _ Hstop].
    rewrite <-(Hempty Hs). rewrite Hs in Hch. simpl in Hch. subst stop. apply Hst.
    apply not_true_is_false. intros E.
    destruct (Hstop Hfin1 E) as (a & s & Heq & _). rewrite Hs in Heq. by destruct a. }
  destruct t as [i|]; unfold drop_tail; cbn [fst snd] in *.
  - destruct (deliver_front_spec c pos _ _ Hr2 Hfin1 HQ2 Hnil) as (pos' & H1 & H2 & H3 & H4).
    destruct (deliver_front _) as [r3 out]. by eexists _, r3, out, pos'.
  - destruct (deliver_front_spec c pos _ _ Hr2 Hfin1 HQ2 Hnil) as (pos' & H1 & H2 & H3 & H4).
    destruct (deliver_front _) as [r3 out]. by eexists _, r3, out, pos'.
Qed.
End Polls.

(** ** Runs of polls *)

Definition ends (o : next_poll) : bool :=
  match o with NextReady (Ok None) | NextReady (Err _) => true | _ => false end.

(** After an error or the end, every poll answers the end. *)
Fixpoint fused (outs : list next_poll) : Prop :=
  match outs with
  | [] => True
  | o :: outs => (ends o = true -> Forall (fun o => o = NextReady (Ok None)) outs) /\ fused outs
  end.

Definition failed (outs : list next_poll) : bool :=
  existsb (fun o => match o with NextReady (Err _) => true | _ => false end) outs.

Definition saw_end (outs : list next_poll) : bool :=
  existsb (fun o => match o with NextReady (Ok None) => true | _ => false end) outs.

Section Runs.
Context {W F : Type} `{ReadSource W F}.
Implicit Types (w : W) (r : OrderedReader F).

Lemma new_reader_inv c r :
  config_range c -> new_reader c = Ok r ->
  reader_inv c (cf_offset c) r /\ or_finished r = false /\ or_slots r = [] /\
  cf_offset c + cf_length c <= i64_max.
Proof.
  intros Hc. unfold new_reader. destruct (validate c) as [e|] eqn:Ev; [|done].
  intros [= <-]. destruct (validate_Ok _ _ Hc Ev) as (-> & Hi & Hg).
  destruct Hc as (? & ? & ? & ? & ?). split_and!; try done.
  constructor; simpl; try done; try lia.
  exists (cf_offset c). split_and!; (done || lia).
Qed.

Lemma polls_finished envs w r :
  or_finished r = true ->
  exists w', polls envs w r = Some (w', r, replicate (length envs) (NextReady (Ok None))).
Proof.
  intros Hfin. revert w. induction envs as [|env envs IH]; intros w; simpl; [eauto|].
  unfold poll_next. rewrite Hfin. simpl. destruct (IH (env w)) as [w' ->]. simpl. eauto.
Qed.

Lemma chunks_replicate n : chunks (replicate n (NextReady (Ok None))) = [].
Proof. by induction n. Qed.

Lemma polls_inv c envs pos w r :
  reader_inv c pos r ->
  exists w' r' outs pos', polls envs w r = Some (w', r', outs) /\ reader_inv c pos' r' /\
    length outs = length envs.
Proof.
  revert pos w r. induction envs as [|env envs IH]; intros pos w r Hr; simpl; [by eexists _, r, [], pos|].
  destruct (or_finished r) eqn:Hfin.
  - destruct (polls_finished envs (env w) r Hfin) as [w' Hp]. unfold poll_next. rewrite Hfin.
    simpl. rewrite Hp. eexists _, r, _, pos. split_and!; [done..|].
    simpl. by rewrite length_replicate.
  - destruct (poll_next_spec (fun _ _ => True) ltac:(done) ltac:(done) ltac:(done) ltac:(done)
      c pos (env w) r Hr Hfin) as (w1 & r1 & out & pos1 & -> & Hr1 & _); [done|]. simpl.
    destruct (IH pos1 w1 r1 Hr1) as (w2 & r2 & outs & pos2 & -> & Hr2 & Hl). simpl.
    eexists w2, r2, _, pos2. split_and!; [done..|]. simpl. by rewrite Hl.
Qed.

Context (content : list Byte.byte) `{!SourceReads content}.

(** The reads in flight of some slots. *)
Definition in_flight_of (s : Slot F) : option (Z * Z * F) :=
  match sl_state s with
  | StPending h => Some (sl_offset s, sl_len s, h)
  | StReady _ => None
  end.

(** A result a slot holds is the file's bytes of its range. *)
Definition ready_reads (s : Slot F) : Prop :=
  match sl_state s with
  | StReady (Ok bytes) => bytes = slice content (sl_offset s) (sl_len s)
  | _ => True
  end.

Definition slots_served (w : W) (l : list (Slot F)) : Prop :=
  serves w (omap in_flight_of l) /\ (consistent w -> Forall ready_reads l).

Lemma slots_served_start w l off len :
  slots_served w l -> 1 <= len -> off + len <= i64_max ->
  slots_served (rs_start w off len).1 (l ++ [mkSlot off len (StPending (rs_start w off len).2)]).
Proof.
  intros [Hs Hr] Hl Ho. split.
  - rewrite omap_app. by apply rs_start_serves.
  - intros Hc%rs_start_consistent. apply Forall_app_2; [auto|]. by constructor.
Qed.

Lemma poll_slot_consistent w s : consistent (poll_slot w s).1 -> consistent w.
Proof.
  unfold poll_slot. destruct (sl_state s) as [h|]; [|done].
  pose proof (rs_poll_consistent w h) as Hp. destruct (rs_poll w h) as [[w1 h1] [res|]]; simpl in *;
    [|done]. by intros Hc%rs_drop_consistent%Hp.
Qed.

Lemma drop_slot_consistent w s : consistent (drop_slot w s) -> consistent w.
Proof. unfold drop_slot. destruct (sl_state s); [apply rs_drop_consistent|done]. Qed.

Lemma slots_served_poll w a s b :
  slots_served w (a ++ s :: b) ->
  slots_served (poll_slot w s).1 (a ++ (poll_slot w s).2 :: b).
Proof.
  unfold slots_served. rewrite !omap_app, !Forall_app, !Forall_cons. intros [Hs Hr].
  pose proof (poll_slot_consistent w s) as Hback. revert Hs Hr Hback.
  unfold poll_slot. destruct s as [off len [h|res]]; simpl; [|done].
  intros Hs Hr Hback. apply rs_poll_serves in Hs.
  destruct (rs_poll w h) as [[w1 h1] [res|]]; simpl in *.
  - destruct Hs as [Hs Hres]. split; [done|]. intros Hc. destruct (Hr (Hback Hc)) as (? & _ & ?).
    split_and!; try done. unfold ready_reads, checked_result. simpl.
    destruct res as [bytes|e]; [|done]. destruct (len <? zlen bytes); [done|].
    apply Hres; [|done]. by eapply rs_drop_consistent.
  - split; [done|]. intros Hc. by destruct (Hr (Hback Hc)) as (? & ? & ?).
Qed.

Lemma slots_served_drop w l s : slots_served w (l ++ [s]) -> slots_served (drop_slot w s) l.
Proof.
  unfold slots_served. rewrite omap_app, Forall_app. intros [Hs Hl]. split.
  - unfold drop_slot. destruct s as [off len [h|res]]; simpl in *.
    + by eapply rs_drop_serves.
    + by rewrite app_nil_r in Hs.
  - intros Hc%drop_slot_consistent. by destruct (Hl Hc).
Qed.

Lemma slots_served_pop w s l res :
  slots_served w (s :: l) -> sl_state s = StReady res -> slots_served w l.
Proof.
  unfold slots_served. rewrite Forall_cons. destruct s as [off len st]. simpl.
  intros [Hs Hl] ->. split; [done|]. intros Hc. by destruct (Hl Hc).
Qed.

(** The polls of a reader over such a source. *)
Lemma poll_next_serves c pos w r :
  reader_inv c pos r -> or_finished r = false -> slots_served w (or_slots r) ->
  exists w' r' out pos', poll_next w r = Some (w', r', out) /\
    reader_inv c pos' r' /\ slots_served w' (or_slots r') /\ (consistent w' -> consistent w) /\
    pos <= pos' <= cf_offset c + cf_length c /\
    next_spec slots_served c w' pos pos' (or_finished r') out.
Proof.
  intros Hr Hf Hs.
  destruct (poll_next_spec slots_served slots_served_start slots_served_poll slots_served_drop
    slots_served_pop c pos w r Hr Hf Hs) as (w' & r' & out & pos' & Hp & Hr' & Hs' & Hpos & Hn).
  exists w', r', out, pos'. split_and!; [done..| |lia|lia|done].
  destruct (poll_next_spec (fun w' _ => consistent w' -> consistent w)) with (c := c) (pos := pos)
    (w := w) (r := r) as (w1 & r1 & out1 & pos1 & Hp1 & _ & Hc & _); try done.
  - intros w1 _ off len Hc _ _ Hw. by eapply Hc, rs_start_consistent.
  - intros w1 _ s _ Hc Hw. by eapply Hc, poll_slot_consistent.
  - intros w1 _ s Hc Hw. by eapply Hc, drop_slot_consistent.
  - rewrite Hp in Hp1. by injection Hp1 as <- _ _.
Qed.

Lemma slice_whole (l b : list Byte.byte) p n :
  0 <= p -> 0 <= n -> b = slice l p n -> b = slice l p (zlen b).
Proof.
  intros Hp Hn Hb. pose proof (zlen_slice l p n Hp Hn) as Hz. rewrite <-Hb in Hz.
  destruct (Z.le_gt_cases n (zlen b)) as [Hle|Hgt].
  - rewrite Hb at 1. f_equal. lia.
  - rewrite Hb at 1. apply slice_past_end; lia.
Qed.

Lemma bytes_of_cons ch cs : bytes_of (ch :: cs) = ch_bytes ch ++ bytes_of cs.
Proof. done. Qed.

Lemma zlen_app (a b : list Byte.byte) : zlen (a ++ b) = zlen a + zlen b.
Proof. unfold zlen. rewrite length_app. lia. Qed.

(** What a run delivers, from a consumer at [pos] with [left] bytes to go. *)
Definition delivered (pos left : Z) (outs : list next_poll) : Prop :=
  in_order pos (chunks outs) /\
  bytes_of (chunks outs) = slice content pos (zlen (bytes_of (chunks outs))) /\
  zlen (bytes_of (chunks outs)) <= left /\ fused outs /\
  (saw_end outs = true -> failed outs = false ->
   bytes_of (chunks outs) = slice content pos left).

Lemma delivered_end n pos left out :
  0 <= left -> out = NextReady (Ok None) \/ (exists e, out = NextReady (Err e)) ->
  (out = NextReady (Ok None) -> slice content pos left = []) ->
  delivered pos left (out :: replicate n (NextReady (Ok None))).
Proof.
  intros Hleft Hout Hend.
  assert (Hc : chunks (out :: replicate n (NextReady (Ok None))) = []).
  { destruct Hout as [->|[e ->]]; apply chunks_replicate. }
  assert (Hf : fused (replicate n (NextReady (Ok None)))).
  { clear. induction n as [|n IH]; simpl; [done|]. split; [|done].
    intros _. by apply Forall_replicate. }
  unfold delivered. rewrite Hc. split_and!; try done.
  - split; [intros _; by apply Forall_replicate | done].
  - intros _ Hfail. destruct Hout as [->|[e ->]]; [by rewrite Hend | done].
Qed.

(** A chunk that ends the file is the last one. *)
Lemma delivered_short n pos len left ch :
  0 <= pos -> len <= left -> zlen (ch_bytes ch) < len -> ch_offset ch = pos ->
  ch_bytes ch <> [] -> ch_bytes ch = slice content pos len ->
  delivered pos left (NextReady (Ok (Some ch)) :: replicate n (NextReady (Ok None))).
Proof.
  intros H0 Hle Hshort Hoff Hne Hs. pose proof (zlen_nonneg (ch_bytes ch)).
  assert (Hc : chunks (NextReady (Ok (Some ch)) :: replicate n (NextReady (Ok None))) = [ch])
    by (unfold chunks; simpl; f_equal; apply chunks_replicate).
  destruct (delivered_end n pos 0 (NextReady (Ok None)) ltac:(lia) ltac:(by left)
    ltac:(done)) as (_ & _ & _ & [_ Hfused] & _).
  unfold delivered. rewrite Hc. unfold bytes_of. simpl. rewrite app_nil_r.
  split_and!; try (done || lia); [by apply (slice_whole _ _ _ len); [|lia|]|].
  intros _ _. rewrite Hs at 1. pose proof (zlen_slice content pos len H0 ltac:(lia)) as Hz.
  rewrite <-Hs in Hz. apply slice_past_end; lia.
Qed.

(** A whole chunk is followed by what the rest of the run delivers. *)
Lemma delivered_full pos left ch outs :
  0 <= pos -> ch_offset ch = pos -> ch_bytes ch <> [] ->
  ch_bytes ch = slice content pos (zlen (ch_bytes ch)) -> zlen (ch_bytes ch) <= left ->
  delivered (pos + zlen (ch_bytes ch)) (left - zlen (ch_bytes ch)) outs ->
  delivered pos left (NextReady (Ok (Some ch)) :: outs).
Proof.
  intros H0 Hoff Hne Hw Hle (Hio & Hb & Hl & Hfu & Hend). unfold delivered.
  change (chunks (NextReady (Ok (Some ch)) :: outs)) with (ch :: chunks outs).
  rewrite bytes_of_cons, zlen_app.
  pose proof (zlen_nonneg (ch_bytes ch)). pose proof (zlen_nonneg (bytes_of (chunks outs))).
  split_and!; try (done || lia).
  - rewrite slice_app, <-Hw, <-Hb by lia. done.
  - simpl. intros He Hf. rewrite (Hend He Hf).
    replace left with (zlen (ch_bytes ch) + (left - zlen (ch_bytes ch))) at 2 by lia.
    rewrite slice_app, <-Hw by lia. done.
Qed.

(** What the rest of the world does between two polls keeps the reads served. *)
Definition env_serves (env : W -> W) : Prop :=
  forall w, (forall l, serves w l -> serves (env w) l) /\ (consistent (env w) -> consistent w).

Lemma polls_finished_consistent envs w r :
  Forall env_serves envs -> or_finished r = true ->
  exists w', polls envs w r = Some (w', r, replicate (length envs) (NextReady (Ok None))) /\
    (consistent w' -> consistent w).
Proof.
  intros Henvs Hfin. revert w. induction Henvs as [|env envs Henv _ IH]; intros w; simpl; [eauto|].
  unfold poll_next. rewrite Hfin. simpl. destruct (IH (env w)) as (w' & -> & Hc). simpl.
  exists w'. split; [done|]. intros Hw. by apply Henv, Hc.
Qed.

Lemma polls_deliver c envs pos w r :
  Forall env_serves envs -> 0 <= pos -> pos <= cf_offset c + cf_length c ->
  reader_inv c pos r -> or_finished r = false -> slots_served w (or_slots r) ->
  exists w' r' outs, polls envs w r = Some (w', r', outs) /\ (consistent w' -> consistent w) /\
    (consistent w' -> delivered pos (cf_offset c + cf_length c - pos) outs).
Proof.
  intros Henvs. revert pos w r.
  induction Henvs as [|env envs Henv Henvs IH]; intros pos w r H0 Hle Hr Hfin HQ.
  { eexists w, r, []. split_and!; [done..|]. intros _. unfold delivered. simpl. split_and!; try done.
    unfold zlen. simpl. lia. }
  cbn [polls]. destruct (Henv w) as [Hse Hce].
  assert (HQe : slots_served (env w) (or_slots r)) by (destruct HQ; split; auto).
  destruct (poll_next_serves c pos (env w) r Hr Hfin HQe)
    as (w1 & r1 & out & pos1 & -> & Hr1 & HQ1 & Hc1 & Hpos & Hspec). cbn [mbind option_bind].
  destruct out as [|[[ch|]|e]]; simpl in Hspec.
  - destruct Hspec as [-> Hf1].
    destruct (IH pos w1 r1 H0 Hle Hr1 Hf1 HQ1) as (w2 & r2 & outs & -> & Hc2 & Hd).
    cbn [mbind option_bind]. eexists _, _, _. split_and!; [done|by auto|]. intros Hw.
    destruct (Hd Hw) as (? & ? & ? & ? & ?). unfold delivered. by split_and!.
  - destruct Hspec as (Hoff & Hne & l & s & [_ Hs] & Hso & Hst & Hlen & -> & Hfin1).
    unfold ready_reads in Hs. rewrite Forall_cons, Hst, Hso in Hs.
    destruct (Z.ltb_spec (zlen (ch_bytes ch)) (sl_len s)) as [Hshort|Hfull].
    + destruct (polls_finished_consistent envs w1 r1 Henvs Hfin1) as (w2 & -> & Hc2).
      cbn [mbind option_bind]. eexists _, _, _. split_and!; [done|by auto|]. intros Hw.
      destruct (Hs (Hc2 Hw)). by apply (delivered_short _ _ (sl_len s)); [|lia|..].
    + replace (sl_len s) with (zlen (ch_bytes ch)) in * by lia.
      pose proof (zlen_nonneg (ch_bytes ch)).
      destruct (IH (pos + zlen (ch_bytes ch)) w1 r1 ltac:(lia) ltac:(lia) Hr1 Hfin1 HQ1)
        as (w2 & r2 & outs & -> & Hc2 & Hd). cbn [mbind option_bind].
      eexists _, _, _. split_and!; [done|by auto|]. intros Hw. destruct (Hs (Hc2 Hw)).
      apply delivered_full; try (done || lia). rewrite <-Z.sub_add_distr. by apply Hd.
  - destruct Hspec as [Hfin1 Hwhy].
    destruct (polls_finished_consistent envs w1 r1 Henvs Hfin1) as (w2 & -> & Hc2).
    cbn [mbind option_bind]. eexists _, _, _. split_and!; [done|by auto|]. intros Hw.
    apply delivered_end; [lia | by left |]. intros _.
    destruct Hwhy as [->|(l & s & [_ Hs] & Hso & Hst & Hl)]; [by rewrite Z.sub_diag|].
    unfold ready_reads in Hs. rewrite Forall_cons, Hst, Hso in Hs. destruct (Hs (Hc2 Hw)) as [Hs' _].
    pose proof (zlen_slice content pos (sl_len s) H0 ltac:(lia)) as Hz. rewrite <-Hs' in Hz.
    unfold zlen in Hz at 1. simpl in Hz. by rewrite (slice_past_end content pos _ 0) by lia.
  - destruct (polls_finished_consistent envs w1 r1 Henvs Hspec) as (w2 & -> & Hc2).
    cbn [mbind option_bind]. eexists _, _, _. split_and!; [done|by auto|]. intros Hw.
    apply delivered_end; [lia | right; eauto | done].
Qed.

(** A new reader, polled. *)
Lemma reader_delivers c r0 envs w0 :
  config_range c -> new_reader c = Ok r0 -> serves w0 [] -> Forall env_serves envs ->
  exists w r outs, polls envs w0 r0 = Some (w, r, outs) /\
    (consistent w -> delivered (cf_offset c) (cf_length c) outs).
Proof.
  intros Hc Hnew Hw0 Henvs. destruct (new_reader_inv c r0 Hc Hnew) as (Hr & Hfin & Hs & _).
  pose proof Hc as (? & ? & _).
  destruct (polls_deliver c envs (cf_offset c) w0 r0) as (w & r & outs & Hp & _ & Hd);
    [done | lia | lia | done | done | by rewrite Hs |].
  exists w, r, outs. split; [done|]. by rewrite Z.add_simpl_l in Hd.
Qed.
End Runs.

(** ** Properties *)

(** The prefetch window is bounded, whatever the source answers and the
    consumer does: a reader of a valid configuration polls without panicking,
    the bytes it has reserved are exactly the lengths of the slots it holds and
    never exceed [max_bytes] (so the subtractions on them never underflow), it
    holds at most [window] slots, and each asks for at most one chunk. *)
Theorem prefetch_window_bounded {W F} `{ReadSource W F} c (r0 : OrderedReader F) envs (w0 : W) :
  config_range c -> new_reader c = Ok r0 ->
  exists w r outs, polls envs w0 r0 = Some (w, r, outs) /\ length outs = length envs /\
    or_reserved r = lens (or_slots r) /\ 0 <= or_reserved r <= cf_max_bytes c /\
    zlen (or_slots r) <= cf_window c /\
    Forall (fun s => 1 <= sl_len s <= cf_chunk c) (or_slots r).
Proof.
  intros Hc Hnew. destruct (new_reader_inv c r0 Hc Hnew) as (Hr & _).
  destruct (polls_inv c envs _ w0 r0 Hr) as (w & r & outs & pos & Hp & Hr' & Hl).
  exists w, r, outs. destruct Hr' as [_ _ _ _ [Hres Hmax] Hw Hlens _].
  pose proof (lens_nonneg _ _ Hlens). split_and!; (done || lia).
Qed.

(** Chunks are delivered in order and are the file's: over a source that
    reads ranges of a file, in whatever order its reads complete and fail, the
    chunks of a run of polls are nonempty, consecutive from the configured
    offset, and together a prefix of the configured range; if the run reports
    the end without an error they are the whole range up to the end of the
    file; and after an error or the end every further poll reports the end. *)
Theorem ordered_delivery {W F} `{ReadSource W F} (content : list Byte.byte)
    `{!SourceReads content} c (r0 : OrderedReader F) envs (w0 : W) :
  config_range c -> new_reader c = Ok r0 -> serves w0 [] -> Forall (env_serves content) envs ->
  exists w r outs, polls envs w0 r0 = Some (w, r, outs) /\ (consistent w ->
    in_order (cf_offset c) (chunks outs) /\
    bytes_of (chunks outs) =
      slice content (cf_offset c) (zlen (bytes_of (chunks outs))) /\
    zlen (bytes_of (chunks outs)) <= cf_length c /\
    (saw_end outs = true -> failed outs = false ->
     bytes_of (chunks outs) = slice content (cf_offset c) (cf_length c)) /\
    fused outs).
Proof.
  intros Hc Hnew Hw0 Henvs.
  destruct (reader_delivers content c r0 envs w0 Hc Hnew Hw0 Henvs) as (w & r & outs & Hp & Hd).
  exists w, r, outs. split; [done|]. intros Hw. destruct (Hd Hw) as (? & ? & ? & ? & ?).
  by split_and!.
Qed.

(** ** Witnesses *)

(** A source over fixed bytes; its state lists the offsets whose reads have
    completed. *)
#[export] Instance file_source (content : list Byte.byte) : ReadSource (list Z) (Z * Z) := {|
  rs_start w off len := (w, (off, len));
  rs_poll w h :=
    (w, h, if decide (h.1 ∈ w) then Some (Ok (slice content h.1 h.2)) else None);
  rs_drop w _ := w
|}.

#[export, refine] Instance file_source_reads (content : list Byte.byte) :
    SourceReads (H := file_source content) content := {|
  serves _ l := Forall (fun '(off, len, h) => h = (off, len)) l;
  consistent _ := True
|}.
Proof.
  - done.
  - done.
  - done.
  - intros w l off len Hl _ _. apply Forall_app_2; [done|]. by constructor.
  - intros w a off len h b [Ha [-> Hb]%Forall_cons]%Forall_app. simpl.
    destruct (decide _) as [_|_].
    + split; [by apply Forall_app_2|]. by intros bytes _ [= <-].
    + apply Forall_app_2; [done|]. by constructor.
  - by intros w l off len h [Hl _]%Forall_app.
Defined.

(** Ten bytes in chunks of four, two at a time; the second read of a window
    completes first. *)
Definition demo_config : Config := mkConfig 1 12 4 2 8.

Definition demo_bytes : list Byte.byte :=
  [Byte.x00; Byte.x01; Byte.x02; Byte.x03; Byte.x04; Byte.x05; Byte.x06; Byte.x07; Byte.x08;
   Byte.x09; Byte.x0a].

Definition demo_reader : OrderedReader (Z * Z) := mkReader demo_config 13 1 0 [] false false.

Definition demo_polls : list (list Z -> list Z) :=
  [id; cons 5; cons 1; id; cons 9; id; id].

Lemma demo_config_range : config_range demo_config.
Proof. unfold config_range, demo_config. simpl. lia. Qed.

Lemma demo_polls_serve :
  Forall (env_serves (H := file_source demo_bytes) demo_bytes) demo_polls.
Proof. repeat (apply Forall_cons_2; [by intros ?; split|]). apply Forall_nil_2. Qed.

Lemma prefetch_window_bounded_witness :
  exists w r outs,
    polls (H := file_source demo_bytes) (take 2 demo_polls) [] demo_reader = Some (w, r, outs) /\
    or_reserved r = 8 /\ outs = [NextPending; NextPending] /\ zlen (or_slots r) <= 2.
Proof.
  destruct (prefetch_window_bounded (H := file_source demo_bytes) demo_config demo_reader
    (take 2 demo_polls) [] demo_config_range eq_refl) as (w & r & outs & Hp & _ & _ & _ & Hw & _).
  exists w, r, outs. split; [exact Hp|]. vm_compute in Hp. injection Hp as <- <- <-.
  split; [reflexivity|]. split; [reflexivity | exact Hw].
Defined.

Lemma ordered_delivery_witness :
  exists w r outs,
    polls (H := file_source demo_bytes) demo_polls [] demo_reader = Some (w, r, outs) /\
    (ch_offset <$> chunks outs) = [1; 5; 9] /\
    bytes_of (chunks outs) = slice demo_bytes 1 12.
Proof.
  destruct (ordered_delivery (H := file_source demo_bytes) demo_bytes demo_config demo_reader
    demo_polls [] demo_config_range eq_refl) as (w & r & outs & Hp & Hd);
    [apply Forall_nil_2 | apply demo_polls_serve |].
  exists w, r, outs. split; [exact Hp|]. vm_compute in Hp. injection Hp as <- <- <-.
  split; [reflexivity|]. destruct (Hd I) as (_ & _ & _ & Hall & _).
  exact (Hall eq_refl eq_refl).
Defined.
