(* ===== verification/Prefetch.v ===== *)
(** * The ordered reader over the driver

    The composition of [OrderedReader.v] with the client code of [Client.v], as
    [run] of [src/examples/ordered_prefetch/linux.rs] makes it: the reader's
    source is [driver.read_at] on one file, its handles are [ReadHandle]s.
    Between any two calls of the reader's thread the rest of the process and
    the kernel may act; an execution of the driver's shards that agrees with
    every call is the ghost state the theorem is stated with. *)

From S2P Require Import Prelude IoError Geometry Interfaces Instances SharedBudget Pending ReadRun.
From S2P Require Import World TurnBudget SubmitRing Driver Ownership System Safety Turn.
From S2P Require Import Admission Client Requests ClientRefines Answers OrderedReader.

(** ** The source *)

Section Source.
Context {Sm Ch : Type} `{Semaphore Sm} `{Oneshot Ch} `{Target}.

(** A call of the reader's thread: the driver before and after it. *)
Record Performed := mkPerformed {
  pf_before : Client Sm Ch;
  pf_call : call (Sm := Sm);
  pf_after : Client Sm Ch
}.

(** The driver the reader's thread uses, with the calls it made so far. *)
Record Live := mkLive { lv_client : Client Sm Ch; lv_log : list Performed }.

Context (f : File) (others : nat -> Client Sm Ch -> Client Sm Ch).
Implicit Types w : Live.

(** The driver when the next call is made: the others have acted. *)
Definition current w : Client Sm Ch := others (length (lv_log w)) (lv_client w).

Definition perform w (x : call) (c' : Client Sm Ch) : Live :=
  mkLive c' (lv_log w ++ [mkPerformed (current w) x c']).

(** [driver.read_at(Arc::clone(&file), offset, len)]; a panicking call leaves
    an entry that no execution agrees with. *)
Definition live_start w (off len : Z) : Live * ReadHandle Sm :=
  match read_at (current w) f off len with
  | Some (c', h) => (perform w (CallSubmit f off len 1 false true) c', h)
  | None => (perform w (CallSubmit f off len 1 false true) (current w),
             mkHandle 0 0 true false Inert)
  end.

Definition live_poll w (h : ReadHandle Sm) : Live * ReadHandle Sm * option read_result :=
  let '(c', h', r) := poll (current w) h in (perform w (CallPoll h) c', h', r).

Definition live_drop w (h : ReadHandle Sm) : Live :=
  perform w (CallDrop h) (drop_handle (current w) h).

#[export] Instance live_source : ReadSource Live (ReadHandle Sm) := {|
  rs_start := live_start;
  rs_poll := live_poll;
  rs_drop := live_drop
|}.
End Source.
Arguments Live Sm Ch {_}.
Arguments Performed Sm Ch {_}.

(** ** What the calls leave alone *)

Section Frames.
Context {Sm Ch : Type} `{SemaphoreLaws Sm} `{OneshotLaws Ch} `{Target}.
Implicit Types (c : Client Sm Ch) (h : ReadHandle Sm).

(** A waiting handle holds the sender of its own channel. *)
Definition own_sender h : Prop :=
  match rh_state h with WaitingPermit _ _ _ _ _ dn => dn = rh_id h | _ => True end.

(** Two clients that differ in no channel but that of [id], and draw the same
    operation next. *)
Definition differ_at (id : Z) c c' : Prop :=
  cl_next_id c' = cl_next_id c /\
  forall i, i <> id -> os_rx (cl_chan c') i = os_rx (cl_chan c) i.

Lemma differ_refl id c : differ_at id c c.
Proof. done. Qed.

Lemma differ_trans id c1 c2 c3 : differ_at id c1 c2 -> differ_at id c2 c3 -> differ_at id c1 c3.
Proof. intros [? Ha] [? Hb]. split; [congruence|]. intros i Hi. by rewrite Hb, Ha. Qed.

Lemma differ_same id c c' :
  cl_next_id c' = cl_next_id c -> cl_chan c' = cl_chan c -> differ_at id c c'.
Proof. intros ? Hc. split; [done|]. intros i _. by rewrite Hc. Qed.

Lemma set_bytes_same c b :
  cl_chan (set_bytes c b) = cl_chan c /\ cl_next_id (set_bytes c b) = cl_next_id c.
Proof. destruct c as [? ? [a|] ? ? ? ? ?], b; done. Qed.

Lemma return_permits_same c i pm :
  cl_chan (return_permits c i pm) = cl_chan c /\ cl_next_id (return_permits c i pm) = cl_next_id c.
Proof.
  unfold return_permits. set (c1 := upd_shard c i _). destruct (set_bytes_same c1
    (match permit_bytes pm with
     | Some n => (fun b => sem_release b n) <$> cl_bytes c1
     | None => cl_bytes c1
     end)) as [Ec En]. split; [exact Ec | exact En].
Qed.

Lemma send_read_same c i id f off len dn pm al c' ok :
  send_read c i id f off len dn pm al = (c', ok) ->
  cl_chan c' = cl_chan c /\ cl_next_id c' = cl_next_id c.
Proof. unfold send_read. case_match; by intros [= <- <-]. Qed.

Lemma drop_tx_differ c id : differ_at id c (set_chan c (os_drop_tx (cl_chan c) id)).
Proof. split; [done|]. intros i Hi. simpl. by rewrite os_drop_tx_frame. Qed.

Lemma poll_rx_frame c h c' h' r :
  poll_rx c h = (c', h', r) ->
  c' = c /\ rh_id h' = rh_id h /\ rh_state h' = rh_state h /\
  (r = None -> h' = h) /\ rh_shard h' = rh_shard h.
Proof. unfold poll_rx. case_match; intros [= <- <- <-]; by split_and!. Qed.

(** What a poll that sends nothing leaves of the handle; one that sends leaves
    it submitted. *)
Lemma poll_frame c h c' h' r :
  poll c h = (c', h', r) -> own_sender h ->
  differ_at (rh_id h) c c' /\ rh_id h' = rh_id h /\ own_sender h' /\
  (r = None -> rh_finished h' = rh_finished h /\
     match rh_state h with
     | WaitingPermit _ f off len al dn =>
         rh_state h' = Submitted \/
         exists acq, rh_state h' = WaitingPermit acq f off len al dn /\ cl_chan c' = cl_chan c
     | _ => h' = h /\ c' = c
     end).
Proof.
  intros Hp Hown. unfold poll in Hp. unfold own_sender in Hown.
  destruct (rh_state h) as [|acq f off len al dn|] eqn:Hst.
  - apply poll_rx_frame in Hp as (-> & Hi & Hs & Hn & _). unfold own_sender. rewrite Hs, Hst.
    split_and!; try done. by intros ->%Hn.
  - subst dn. destruct (cl_shards c !! rh_shard h) as [sh|].
    2: { injection Hp as <- <- <-. unfold own_sender. rewrite Hst. split_and!; eauto using differ_refl. }
    destruct (poll_acquire _ _ _) as [[[s1 b1] acq'] res].
    destruct (set_bytes_same (upd_shard c (rh_shard h) (shard_sem s1)) b1) as [Ec En].
    destruct res as [|pm|].
    + injection Hp as <- <- <-. split_and!; [by apply differ_same|done..|]. eauto.
    + destruct (send_read _ _ _ _ _ _ _ _ _) as [c1 ok] eqn:Hs.
      apply send_read_same in Hs as [Ec1 En1]. rewrite Ec in Ec1. rewrite En in En1. destruct ok.
      * apply poll_rx_frame in Hp as (-> & Hi & Hs & Hn & _). unfold own_sender. rewrite Hs.
        split_and!; [by apply differ_same|done..|]. intros ->%Hn. split; [done|by left].
      * injection Hp as <- <- <-. split_and!; [|done..].
        destruct (return_permits_same (set_chan c1 (os_drop_tx (cl_chan c1) (rh_id h)))
          (rh_shard h) pm) as [Er Erc].
        apply (differ_trans _ _ c1); [by apply differ_same|].
        eapply differ_trans; [apply drop_tx_differ|by apply differ_same].
    + injection Hp as <- <- <-. split_and!; [by apply differ_same|done..].
  - apply poll_rx_frame in Hp as (-> & Hi & Hs & Hn & _). unfold own_sender. rewrite Hs, Hst.
    split_and!; try done. by intros ->%Hn.
Qed.

Lemma drop_frame c h : own_sender h -> differ_at (rh_id h) c (drop_handle c h).
Proof.
  intros Hown. unfold own_sender in Hown.
  assert (Hclose : forall c, differ_at (rh_id h) c (set_chan c (os_close (cl_chan c) (rh_id h)))).
  { intros c0. split; [done|]. intros i Hi. simpl. by rewrite os_close_rx. }
  unfold drop_handle, drop_fields. destruct (rh_state h) as [|acq f off len al dn|]; [apply Hclose| |].
  - subst dn. eapply differ_trans; [apply Hclose|]. case_match; [|apply differ_refl].
    destruct (drop_acquire _ _ _) as [s1 b1].
    destruct (set_bytes_same (upd_shard (set_chan c (os_close (cl_chan c) (rh_id h))) (rh_shard h)
      (shard_sem s1)) b1) as [Ec En].
    eapply differ_trans; [|apply drop_tx_differ]. by apply differ_same.
  - case_match; [|apply Hclose]. eapply differ_trans; [apply Hclose|].
    eapply differ_trans; [|apply Hclose]. by apply differ_same.
Qed.

(** What a [read_at] that does not panic leaves. *)
Record started (f : File) (off len : Z) c c' h : Prop := {
  sd_id : rh_id h = cl_next_id c;
  sd_finished : rh_finished h = false;
  sd_sender : own_sender h;
  sd_next : cl_next_id c' = cl_next_id c + 1;
  sd_others : forall i, i <> cl_next_id c -> os_rx (cl_chan c') i = os_rx (cl_chan c) i;
  sd_state : match rh_state h with
    | Submitted => True
    | WaitingPermit _ f' off' len' al _ =>
        (f' = f /\ off' = off /\ len' = len /\ al = 1) /\ os_rx (cl_chan c') (rh_id h) = RxEmpty
    | Inert => exists e, os_rx (cl_chan c') (rh_id h) = RxValue (Err e)
    end
}.

Lemma opened_others c i : i <> cl_next_id c -> os_rx (cl_chan (opened c)) i = os_rx (cl_chan c) i.
Proof. intros Hi. apply (os_channel_frame (cl_chan c) (cl_next_id c) i Hi). Qed.

Lemma rejected_started f off len c c0 c2 st e :
  op_id (cl_next_id c) -> cl_chan c0 = cl_chan (opened c) ->
  cl_chan c2 = cl_chan (reject c0 (cl_next_id c) st e).1 -> cl_next_id c2 = cl_next_id (opened c) ->
  started f off len c c2 (reject c0 (cl_next_id c) st e).2.
Proof.
  intros Hid Ec Ec2 En2. constructor; simpl in *; rewrite ?Ec2, ?Ec; try done.
  - rewrite En2. by apply opened_next.
  - intros i Hi. rewrite os_send_frame by done. by apply opened_others.
  - exists e. apply os_send_value, os_channel_open.
Qed.

Lemma dispatch_started f off len c c1 i res charge c' h :
  op_id (cl_next_id c) -> cl_chan c1 = cl_chan (opened c) -> cl_next_id c1 = cl_next_id (opened c) ->
  dispatch c1 (cl_next_id c) i res f off len 1 charge true = (c', h) ->
  started f off len c c' h.
Proof.
  intros Hid Hc1 Hn1 Hd. destruct res as [pm|[|]]; unfold dispatch in Hd.
  - destruct (send_read _ _ _ _ _ _ _ _ _) as [c2 ok] eqn:Hs.
    apply send_read_same in Hs as [Ec En]. simpl in Ec, En. rewrite Hc1 in Ec. rewrite Hn1 in En.
    destruct ok.
    + injection Hd as <- <-. constructor; simpl; rewrite ?Ec, ?En; try done.
      * by apply opened_next.
      * apply opened_others.
    + destruct (return_permits_same (reject c2 (cl_next_id c) i shut_down_error).1 i
        (with_shared pm (shared_of c1))) as [Er1 Er2].
      injection Hd as <- <-. apply (rejected_started f off len c c2 _ i shut_down_error);
        [done | done | exact Er1 | exact (eq_trans Er2 En)].
  - injection Hd as <- <-. constructor; simpl; rewrite ?Hc1, ?Hn1; try done.
    + by apply opened_next.
    + apply opened_others.
    + split; [done|]. apply os_channel_rx.
  - injection Hd as <- <-. by apply (rejected_started f off len c c1 _ i shut_down_error).
Qed.

Lemma submit_started c f off len c' h :
  0 <= cl_next_id c <= u64_max -> read_at c f off len = Some (c', h) -> started f off len c c' h.
Proof.
  intros Hr. unfold read_at, submit.
  destruct (Z.land (cl_next_id c) CANCEL_BIT =? 0) eqn:Hbit; [|done].
  simpl. bools. assert (Hid : op_id (cl_next_id c)) by by apply op_id_of_counter.
  fold (opened c). set (start := Z.to_nat _).
  destruct (check_request _ _ _ _ _) as [bytes|e].
  2: { intros [= <- <-]. by apply (rejected_started f off len c (opened c) _ start e). }
  destruct (select_read_shard _ _ _ _) as [[[c1 i] res]|] eqn:Hsel; [|done]. simpl.
  destruct (select_read_shard_spec _ _ _ _ _ _ _ Hsel) as (_ & _ & _ & _ & _ & Hn1 & _ & Hc1 & _).
  intros [= Hd]. by eapply dispatch_started.
Qed.
End Frames.

(** ** Executions *)

Section Executions.
Context {R Sm Ch : Type} `{RingLaws R} `{SemaphoreLaws Sm} `{OneshotLaws Ch} `{Target}
  `{HashOrder}.
Context (contents : Z -> list Byte.byte) `{!RegularFiles R contents}.
Context (limit : option Z) (entries : Z) (nshards : nat).
Implicit Types (c : Client Sm Ch) (h : ReadHandle Sm) (log : list (Performed Sm Ch)).

(** The driver's shards, by index. *)
Definition Shards : Type := nat -> Sys R Sm Ch.
Implicit Types S : Shards.

Definition sees c S : Prop :=
  length (cl_shards c) = nshards /\ forall k, (k < nshards)%nat -> view c k (S k).

Definition evolves S S' : Prop :=
  forall k, (k < nshards)%nat -> rtc (step limit) (S k) (S' k).

Definition unsent S (id : Z) : Prop := forall k, (k < nshards)%nat -> id ∉ sy_used (S k).

(** The operations the reader's thread opened. *)
Definition opened_by log : list Z :=
  omap (fun p => match pf_call p with
                 | CallSubmit _ _ _ _ _ _ => Some (cl_next_id (pf_before p))
                 | _ => None
                 end) log.

(** The rest of the process, the driver's threads and the kernel act: they
    send nothing for the reader's handles. *)
Record others_step (ids : list Z) c S c' S' : Prop := {
  ot_sees : sees c' S';
  ot_evolves : evolves S S';
  ot_next : cl_next_id c <= cl_next_id c';
  ot_quiet : forall id, id ∈ ids -> unsent S id ->
    unsent S' id /\ os_rx (cl_chan c') id = os_rx (cl_chan c) id
}.

(** The operation a call sent. *)
Definition sent_by (hd : option (ReadHandle Sm)) : gset Z :=
  match hd with
  | Some h => match rh_state h with Submitted => {[rh_id h]} | _ => ∅ end
  | None => ∅
  end.

(** A call of the reader's thread, with the steps of the shards it is. *)
Record call_step c S (x : call) c' S' : Prop := {
  cs_run : exists hd, run_call c x = Some (c', hd) /\
    forall k, (k < nshards)%nat -> sy_used (S' k) ⊆ sy_used (S k) ∪ sent_by hd;
  cs_sees : sees c' S';
  cs_evolves : evolves S S'
}.

Definition last_client (c0 : Client Sm Ch) log : Client Sm Ch :=
  match last log with Some p => pf_after p | None => c0 end.

(** The shards as they are after a log of calls. *)
Inductive follows (c0 : Client Sm Ch) (S0 : Shards) : list (Performed Sm Ch) -> Shards -> Prop :=
| FollowsStart :
    sees c0 S0 -> (forall k, (k < nshards)%nat -> reachable limit entries (S0 k)) ->
    follows c0 S0 [] S0
| FollowsCall log S p S1 S2 :
    follows c0 S0 log S ->
    others_step (opened_by log) (last_client c0 log) S (pf_before p) S1 ->
    call_step (pf_before p) S1 (pf_call p) (pf_after p) S2 ->
    follows c0 S0 (log ++ [p]) S2.

(** ** The reader's reads in an execution *)

(** A handle of the reader for [len] bytes at [off] of [f]. *)
Record open_read (f : File) c S (ids : list Z) (rd : Z * Z * ReadHandle Sm) : Prop := {
  op_known : rh_id rd.2 ∈ ids /\ rh_id rd.2 < cl_next_id c;
  op_unfinished : rh_finished rd.2 = false;
  op_sender : own_sender rd.2;
  op_range : rd.1.1 <> CURRENT_POSITION;
  op_state :
    match rh_state rd.2 with
    | Submitted => (rh_shard rd.2 < nshards)%nat /\ exists hist,
        history limit any_input entries hist (S (rh_shard rd.2)) /\
        hist !! rh_id rd.2 = Some (mkAsked f rd.1.1 rd.1.2 1)
    | WaitingPermit _ f' off len al _ =>
        (f' = f /\ off = rd.1.1 /\ len = rd.1.2 /\ al = 1) /\ unsent S (rh_id rd.2) /\
        forall v, os_rx (cl_chan c) (rh_id rd.2) <> RxValue (Ok v)
    | Inert => unsent S (rh_id rd.2) /\
        forall v, os_rx (cl_chan c) (rh_id rd.2) <> RxValue (Ok v)
    end
}.

Lemma last_client_snoc c0 log p : last_client c0 (log ++ [p]) = pf_after p.
Proof. unfold last_client. by rewrite last_snoc. Qed.

Lemma opened_by_snoc log p :
  opened_by (log ++ [p]) = opened_by log ++ opened_by [p].
Proof. apply omap_app. Qed.

Lemma follows_snoc c0 S0 log p S2 :
  follows c0 S0 (log ++ [p]) S2 ->
  exists S S1, follows c0 S0 log S /\
    others_step (opened_by log) (last_client c0 log) S (pf_before p) S1 /\
    call_step (pf_before p) S1 (pf_call p) (pf_after p) S2.
Proof.
  remember (log ++ [p]) as l eqn:Hl. intros Hf.
  destruct Hf as [|log' S p' S1 S2 Hf Ho Hc]; [by destruct log|].
  apply app_inj_tail in Hl as [-> ->]. eauto.
Qed.

Lemma follows_reachable c0 S0 log S :
  follows c0 S0 log S -> forall k, (k < nshards)%nat -> reachable limit entries (S k).
Proof.
  induction 1 as [_ Hr|log S p S1 S2 _ IH [] [] ]; [done|]. intros k Hk.
  eapply steps_reachable; [|by apply cs_evolves0]. eapply steps_reachable; [|by apply ot_evolves0].
  by apply IH.
Qed.

(** A read in flight stays one while others act or other reads are called. *)
Lemma open_read_step f c S ids c' S' ids' rd :
  open_read f c S ids rd -> evolves S S' -> cl_next_id c <= cl_next_id c' ->
  rh_id rd.2 ∈ ids' ->
  (unsent S (rh_id rd.2) ->
   unsent S' (rh_id rd.2) /\ os_rx (cl_chan c') (rh_id rd.2) = os_rx (cl_chan c) (rh_id rd.2)) ->
  open_read f c' S' ids' rd.
Proof.
  intros [] He Hn Hi Hq. constructor; try done.
  - split; [done|]. lia.
  - destruct (rh_state rd.2).
    + destruct op_state0 as [Hu Hv]. destruct (Hq Hu) as [Hu' ->]. by split.
    + destruct op_state0 as (? & Hu & Hv). destruct (Hq Hu) as [Hu' ->]. destruct_and?; by split_and!.
    + destruct op_state0 as (Hk & hist & Hh & Ha). split; [done|].
      destruct (history_steps limit any_input entries _ _ _ Hh (He _ Hk)) as (hist' & Hh' & Hsub).
      exists hist'. split; [done|]. by eapply lookup_weaken.
Qed.

Lemma open_read_others f ids c S c' S' rd :
  others_step ids c S c' S' -> open_read f c S ids rd -> open_read f c' S' ids rd.
Proof.
  intros [] Ho. pose proof (proj1 (op_known _ _ _ _ _ Ho)) as Hi. eapply open_read_step; eauto.
Qed.

(** A call on another read. *)
Lemma open_read_call f ids c S x c' S' ids' hd id rd :
  call_step c S x c' S' -> run_call c x = Some (c', hd) -> open_read f c S ids rd ->
  ids ⊆ ids' -> cl_next_id c <= cl_next_id c' ->
  (forall i, i <> id -> os_rx (cl_chan c') i = os_rx (cl_chan c) i) -> sent_by hd ⊆ {[id]} ->
  rh_id rd.2 <> id -> open_read f c' S' ids' rd.
Proof.
  intros [(hd' & Hrun' & Hused) Hsees Hev] Hrun Ho Hsub Hn Hrx Hsent Hne.
  rewrite Hrun in Hrun'. injection Hrun' as <-.
  eapply open_read_step; try done.
  - apply Hsub, Ho.
  - intros Hu. split; [|by apply Hrx]. intros k Hk Hin. apply (Hused k Hk) in Hin.
    specialize (Hu k Hk). set_solver.
Qed.

(** A read in a shard's queue is in the shard's history. *)
Lemma sent_history c S i id a :
  sent c i id a -> sees c S -> (forall k, (k < nshards)%nat -> reachable limit entries (S k)) ->
  (i < nshards)%nat /\ exists hist, history limit any_input entries hist (S i) /\ hist !! id = Some a.
Proof.
  intros (sh & msg & Hsh & Hal & Hin & Hmsg) [Hlen Hv] Hr.
  assert (Hi : (i < nshards)%nat) by (rewrite <-Hlen; by eapply lookup_lt_Some).
  split; [done|]. destruct (reachable_history contents limit any_input entries _ (Hr i Hi)) as (hist & Hh & _).
  exists hist. split; [done|].
  destruct (history_invariant contents limit any_input entries _ _ Hh) as [_ [_ Hserved]].
  apply (sv_queue _ _ _ _ _ _ Hserved msg); [|done].
  destruct (vw_shard _ _ _ (Hv i Hi)) as (sh' & Hsh' & _ & _ & Hq).
  rewrite Hsh in Hsh'. injection Hsh' as <-. by rewrite Hq.
Qed.

Lemma sees_next c S : sees c S -> (0 < nshards)%nat -> 0 <= cl_next_id c <= u64_max.
Proof. intros [_ Hv] Hn. apply (vw_next _ _ _ (Hv _ Hn)). Qed.

(** The read a call of [read_at] opens. *)
Lemma start_opens f c S off len c' h S' ids :
  (0 < nshards)%nat -> sees c S -> off <> CURRENT_POSITION ->
  read_at c f off len = Some (c', h) ->
  call_step c S (CallSubmit f off len 1 false true) c' S' ->
  (forall k, (k < nshards)%nat -> reachable limit entries (S' k)) ->
  open_read f c' S' (ids ++ [cl_next_id c]) (off, len, h).
Proof.
  intros Hn Hsees Hoff Hread [(hd & Hrun & Hused) Hsees' _] Hr.
  destruct (submit_started c f off len c' h (sees_next c S Hsees Hn) Hread)
    as [Hid Hfin Hown Hnext Hrx Hst].
  assert (Hrun' := Hrun). simpl in Hrun. unfold read_at in Hread. rewrite Hread in Hrun.
  injection Hrun as <-.
  assert (Hunsent : sent_by (Some h) = ∅ -> unsent S' (rh_id h)).
  { intros He k Hk Hin. apply (Hused k Hk) in Hin. rewrite He, union_empty_r_L in Hin.
    destruct Hsees as [_ Hv]. pose proof (vw_used _ _ _ (Hv k Hk) _ Hin). lia. }
  constructor; try done; simpl.
  - rewrite Hid, Hnext. split; [apply elem_of_app; right; by left|lia].
  - simpl in Hunsent. destruct (rh_state h) as [|acq f' off' len' al dn|] eqn:Hs.
    + destruct Hst as [e He]. split; [by apply Hunsent|]. intros v. by rewrite He.
    + destruct Hst as [Hsame He]. split; [exact Hsame|]. split; [by apply Hunsent|].
      intros v. by rewrite He.
    + apply (sent_history c' S'); [|done..].
      by apply (call_sent c (CallSubmit f off len 1 false true)).
Qed.

(** A poll that answers gives the file's bytes; one that does not leaves the
    read open. *)
Lemma poll_opens f c S off len h c' h' r S' ids :
  sees c S -> (forall k, (k < nshards)%nat -> reachable limit entries (S' k)) ->
  open_read f c S ids (off, len, h) -> poll c h = (c', h', r) ->
  call_step c S (CallPoll h) c' S' ->
  match r with
  | None => open_read f c' S' ids (off, len, h')
  | Some res => forall v, res = Ok v -> v = slice (contents (raw_fd f)) off len
  end.
Proof.
  intros Hsees Hr [[Hin Hlt] Hfin Hown Hoff Hst] Hpoll Hstep. simpl in *.
  destruct r as [res|].
  - intros v ->. pose proof (poll_value _ _ _ _ _ Hpoll) as Hv. clear Hr.
    destruct (rh_state h) eqn:Hs.
    + destruct Hst as [_ Hne]. by destruct (Hne v).
    + destruct Hst as (_ & _ & Hne). by destruct (Hne v).
    + destruct Hst as (Hk & hist & Hh & Ha). destruct Hsees as [_ Hview].
      rewrite <-(vw_chan _ _ _ (Hview _ Hk)) in Hv.
      destruct (history_answers contents limit any_input entries hist _ _ _ v Hh Ha Hv Hoff) as [_ Hall].
      by rewrite Hall by by left.
  - destruct (poll_frame c h c' h' None Hpoll Hown) as ([Hnx Hrx] & Hid & Hown' & Hnone).
    destruct (Hnone eq_refl) as [Hfin' Hcase].
    assert (Hrun : run_call c (CallPoll h) = Some (c', Some h')) by (simpl; by rewrite Hpoll).
    pose proof Hstep as [(hd & Hrun' & Hused) Hsees' Hev]. rewrite Hrun in Hrun'.
    injection Hrun' as <-.
    assert (Hsame : rh_state h' = rh_state h \/ (exists acq f off len al dn,
              rh_state h' = WaitingPermit acq f off len al dn) ->
              rh_state h <> Submitted -> unsent S (rh_id h) -> unsent S' (rh_id h)).
    { intros Hs Hns Hu k Hk Hi. apply (Hused k Hk) in Hi. specialize (Hu k Hk). revert Hi.
      simpl. destruct Hs as [->|(? & ? & ? & ? & ? & ? & ->)]; [destruct (rh_state h)|]; set_solver. }
    constructor; simpl; rewrite ?Hid, ?Hnx, ?Hfin'; try done.
    destruct (rh_state h) as [|acq f' off' len' al dn|] eqn:Hs.
    + destruct Hcase as [-> ->]. rewrite Hs. destruct Hst as [Hu Hne]. split; [|done].
      apply Hsame; [by left|done..].
    + destruct Hst as ((-> & -> & -> & ->) & Hu & Hne).
      destruct Hcase as [Hsub|(acq' & Hw & Hc)].
      * rewrite Hsub, <-Hid. apply (sent_history c' S'); [|done..].
        apply (call_sent c (CallPoll h)); [done | simpl; by rewrite Hs | done |].
        by rewrite Hfin'.
      * rewrite Hw, Hc. split_and!; try done. apply Hsame; [right; by eauto 10|done..].
    + destruct Hcase as [-> ->]. rewrite Hs. destruct Hst as (Hk & hist & Hh & Ha).
      split; [done|].
      destruct (history_steps limit any_input entries _ _ _ Hh (Hev _ Hk)) as (hist' & Hh' & Hsub).
      exists hist'. split; [done|]. by eapply lookup_weaken.
Qed.

(** ** The driver is a source of the file's bytes *)

Context (f : File) (others : nat -> Client Sm Ch -> Client Sm Ch).
Context (c0 : Client Sm Ch) (S0 : Shards) (shards_pos : (0 < nshards)%nat).
Implicit Types (w : Live Sm Ch) (l : list (Z * Z * ReadHandle Sm)).

Definition read_ids l : list Z := (fun rd => rh_id rd.2) <$> l.

(** In every execution that agrees with the calls made, the reads in flight
    are open, each with an operation of its own. *)
Definition live_serves w l : Prop :=
  lv_client w = last_client c0 (lv_log w) /\
  forall S, follows c0 S0 (lv_log w) S ->
    NoDup (read_ids l) /\ Forall (open_read f (lv_client w) S (opened_by (lv_log w))) l.

(** What an execution is like at the reader's next call. *)
Lemma live_call w l x c' S' :
  live_serves w l -> follows c0 S0 (lv_log (perform others w x c')) S' ->
  exists S, NoDup (read_ids l) /\
    Forall (open_read f (current others w) S (opened_by (lv_log w))) l /\
    sees (current others w) S /\ call_step (current others w) S x c' S' /\
    forall k, (k < nshards)%nat -> reachable limit entries (S' k).
Proof.
  intros [Hc Hl] Hf. pose proof (follows_reachable _ _ _ _ Hf) as Hr.
  apply follows_snoc in Hf as (S & S1 & Hf & Ho & Hcall). destruct (Hl S Hf) as [Hnd Hall].
  exists S1. rewrite <-Hc in Ho. split_and!; try done; [|apply Ho].
  eapply Forall_impl; [done|]. intros rd. by apply open_read_others.
Qed.

Lemma live_others_kept w x c' S S' hd id l :
  call_step (current others w) S x c' S' -> run_call (current others w) x = Some (c', hd) ->
  Forall (open_read f (current others w) S (opened_by (lv_log w))) l ->
  cl_next_id (current others w) <= cl_next_id c' ->
  (forall i, i <> id -> os_rx (cl_chan c') i = os_rx (cl_chan (current others w)) i) ->
  sent_by hd ⊆ {[id]} -> id ∉ read_ids l ->
  Forall (open_read f c' S' (opened_by (lv_log (perform others w x c')))) l.
Proof.
  intros Hcall Hrun Hall Hn Hrx Hsent Hid. rewrite Forall_forall in *. intros rd Hin.
  eapply (open_read_call _ (opened_by (lv_log w))); eauto.
  - simpl. rewrite opened_by_snoc. set_solver.
  - intros <-. apply Hid. apply list_elem_of_fmap. by exists rd.
Qed.

Lemma live_start_serves w l off len :
  live_serves w l -> 1 <= len -> off + len <= i64_max ->
  live_serves (live_start f others w off len).1 (l ++ [(off, len, (live_start f others w off len).2)]).
Proof.
  intros Hl Hlen Hend. unfold live_start.
  assert (Hoff : off <> CURRENT_POSITION) by (unfold CURRENT_POSITION, i64_max, u64_max in *; lia).
  destruct (read_at _ _ _ _) as [[c' h]|] eqn:Hread; (split; [simpl; by rewrite last_client_snoc|]);
    intros S' Hf; destruct (live_call _ _ _ _ _ Hl Hf) as (S & Hnd & Hall & Hsees & Hcall & Hr).
  2: { destruct Hcall as [(hd & Hrun & _) _ _]. simpl in Hrun. unfold read_at in Hread.
       by rewrite Hread in Hrun. }
  destruct (submit_started _ f off len c' h (sees_next _ _ Hsees shards_pos) Hread)
    as [Hid Hfin Hown Hnext Hrx _].
  assert (Hnew : cl_next_id (current others w) ∉ read_ids l).
  { intros (rd & Heq & Hin)%list_elem_of_fmap. rewrite Forall_forall in Hall.
    destruct (op_known _ _ _ _ _ (Hall rd Hin)). lia. }
  split.
  - unfold read_ids. rewrite fmap_app. apply NoDup_app. split; [done|]. simpl. rewrite Hid.
    split; [|apply NoDup_singleton]. intros i Hi ->%list_elem_of_singleton. by apply Hnew.
  - apply Forall_app_2; [|constructor; [|done]].
    + eapply (live_others_kept w _ c' S S' (Some h) (cl_next_id (current others w))); try done; [|lia|].
      * simpl. unfold read_at in Hread. by rewrite Hread.
      * simpl. rewrite <-Hid. destruct (rh_state h); set_solver.
    + cbn [fst snd]. simpl lv_log. rewrite opened_by_snoc. by eapply start_opens.
Qed.

Lemma run_poll c h c' h' r : poll c h = (c', h', r) -> run_call c (CallPoll h) = Some (c', Some h').
Proof. simpl. by intros ->. Qed.

Lemma sent_by_own (h : ReadHandle Sm) id : rh_id h = id -> sent_by (Some h) ⊆ {[id]}.
Proof. intros <-. simpl. destruct (rh_state h); set_solver. Qed.

(** A poll leaves the other reads open. *)
Lemma live_poll_others w a rd b c' h' r S' :
  live_serves w (a ++ rd :: b) -> poll (current others w) rd.2 = (c', h', r) ->
  follows c0 S0 (lv_log (perform others w (CallPoll rd.2) c')) S' ->
  rh_id h' = rh_id rd.2 /\ own_sender h' /\ (rh_id h' ∉ read_ids (a ++ b)) /\
  NoDup (read_ids (a ++ rd :: b)) /\
  let ids := opened_by (lv_log (perform others w (CallPoll rd.2) c')) in
  Forall (open_read f c' S' ids) (a ++ b) /\
  match r with
  | None => open_read f c' S' ids (rd.1, h')
  | Some res => forall v, res = Ok v -> v = slice (contents (raw_fd f)) rd.1.1 rd.1.2
  end.
Proof.
  intros Hl Hp Hf. destruct (live_call _ _ _ _ _ Hl Hf) as (S & Hnd & Hall & Hsees & Hcall & Hr).
  apply Forall_app in Hall as [Ha [Hrd Hb]%Forall_cons].
  destruct (poll_frame _ _ _ _ _ Hp (op_sender _ _ _ _ _ Hrd)) as ([Hn Hrx] & Hid & Hown & _).
  assert (Hnot : rh_id rd.2 ∉ read_ids (a ++ b)).
  { unfold read_ids in *. rewrite fmap_app, fmap_cons, NoDup_app in Hnd.
    destruct Hnd as (_ & Hab & [Hnb _]%NoDup_cons). rewrite fmap_app, not_elem_of_app.
    split; [|done]. intros Hin. apply (Hab _ Hin). by left. }
  rewrite Hid. split_and!; try done. intros ids. split.
  - eapply (live_others_kept w _ c' S S' (Some h') (rh_id rd.2)); try done.
    + by eapply run_poll.
    + by apply Forall_app_2.
    + lia.
    + by apply sent_by_own.
  - destruct rd as [[off len] h]. simpl fst in *. simpl snd in *.
    pose proof (poll_opens _ _ _ _ _ _ _ _ _ _ _ Hsees Hr Hrd Hp Hcall) as Hres.
    destruct r as [res|]; [done|]. unfold ids. simpl lv_log. rewrite opened_by_snoc. simpl. by rewrite app_nil_r.
Qed.

Lemma live_drop_serves w l h :
  live_serves w l ->
  (forall S, follows c0 S0 (lv_log w) S -> own_sender h /\ (rh_id h ∉ read_ids l)) ->
  live_serves (live_drop others w h) l.
Proof.
  intros Hl Hh. split; [simpl; by rewrite last_client_snoc|]. intros S' Hf.
  destruct (live_call _ _ _ _ _ Hl Hf) as (S & Hnd & Hall & Hsees & Hcall & Hr).
  pose proof (follows_snoc _ _ _ _ _ Hf) as (S1 & _ & Hf1 & _).
  destruct (Hh _ Hf1) as [Hown Hid]. destruct (drop_frame (current others w) h Hown) as [Hn Hrx].
  split; [done|].
  eapply (live_others_kept w _ _ S S' None (rh_id h)); try done. simpl in *. lia.
Qed.

Lemma live_poll_serves w a off len h b :
  live_serves w (a ++ (off, len, h) :: b) ->
  match live_poll others w h with
  | (w', h', None) => live_serves w' (a ++ (off, len, h') :: b)
  | (w', h', Some res) =>
      live_serves (live_drop others w' h') (a ++ b) /\
      forall bytes, (exists S, follows c0 S0 (lv_log w') S) -> res = Ok bytes ->
        bytes = slice (contents (raw_fd f)) off len
  end.
Proof.
  intros Hl. unfold live_poll. destruct (poll _ h) as [[c' h'] r] eqn:Hp.
  pose proof (live_poll_others w a (off, len, h) b c' h' r) as Hspec. simpl in Hspec.
  specialize (fun S' => Hspec S' Hl Hp). destruct r as [res|].
  - split.
    + apply live_drop_serves.
      * split; [simpl; by rewrite last_client_snoc|]. intros S' Hf.
        destruct (Hspec S' Hf) as (_ & _ & _ & Hnd & Hall & _). split; [|done].
        unfold read_ids in *. rewrite fmap_app in *. rewrite fmap_cons in Hnd.
        apply NoDup_app in Hnd as (Hna & Hab & [_ Hnb]%NoDup_cons). apply NoDup_app.
        split_and!; try done. intros i Hi Hb. eapply Hab; [done|]. by right.
      * intros S' Hf. by destruct (Hspec S' Hf) as (_ & ? & ? & _).
    + intros bytes [S' Hf]. destruct (Hspec S' Hf) as (_ & _ & _ & _ & _ & Hres). apply Hres.
  - split; [simpl; by rewrite last_client_snoc|]. intros S' Hf.
    destruct (Hspec S' Hf) as (Hid & _ & _ & Hnd & [Ha Hb]%Forall_app & Hrd). split.
    + unfold read_ids in *. rewrite fmap_app, fmap_cons in *. simpl in *. by rewrite Hid.
    + apply Forall_app_2; [done|]. by constructor.
Qed.

#[export, refine] Instance live_reads :
    SourceReads (H := live_source f others) (contents (raw_fd f)) := {|
  serves := live_serves;
  consistent w := exists S, follows c0 S0 (lv_log w) S
|}.
Proof.
  - intros w off len [S Hf]. unfold rs_start in Hf. simpl in Hf. unfold live_start in Hf.
    destruct (read_at _ _ _ _) as [[c' h]|]; apply follows_snoc in Hf as (? & _ & ? & _); eauto.
  - intros w h [S Hf]. unfold rs_poll in Hf. simpl in Hf. unfold live_poll in Hf.
    destruct (poll _ _) as [[c' h'] r]. apply follows_snoc in Hf as (? & _ & ? & _). eauto.
  - intros w h [S Hf]. apply follows_snoc in Hf as (? & _ & ? & _). eauto.
  - apply live_start_serves.
  - apply live_poll_serves.
  - intros w l off len h Hl. apply live_drop_serves.
    + destruct Hl as [Hc Hl]. split; [done|]. intros S Hf. destruct (Hl S Hf) as [Hnd Hall].
      unfold read_ids in *. rewrite fmap_app in Hnd. apply NoDup_app in Hnd as [? _].
      by apply Forall_app in Hall as [? _].
    + intros S Hf. destruct Hl as [_ Hl]. destruct (Hl S Hf) as [Hnd Hall].
      unfold read_ids in *. rewrite fmap_app in Hnd. apply NoDup_app in Hnd as (_ & Hnd & _).
      apply Forall_app in Hall as [_ [Hrd _]%Forall_cons]. split; [apply Hrd|].
      intros Hin. apply (Hnd _ Hin). by left.
Defined.

(** ** The property *)

(** [C3] The ordered reader over the real driver delivers the file. Whatever the driver's
    threads, the kernel and the other callers do between any two of the reader's calls, the
    reader polls without panicking, and its chunks are nonempty, consecutive from the
    configured offset, and together a prefix of what the file holds there; if it reports the
    end without an error they are all of the configured range up to the end of the file, and
    after an error or the end it only reports the end. The executions quantified over are
    those of the shards' transition system that agree with every call's effect on the
    client. *)
Theorem prefetch_reads_file (cfg : Config) (r0 : OrderedReader (ReadHandle Sm)) (n : nat) :
  config_range cfg -> new_reader cfg = Ok r0 ->
  exists w r outs,
    polls (H := live_source f others) (replicate n id) (mkLive c0 []) r0 = Some (w, r, outs) /\
    forall S, follows c0 S0 (lv_log w) S ->
      let F := contents (raw_fd f) in
      in_order (cf_offset cfg) (chunks outs) /\
      bytes_of (chunks outs) = slice F (cf_offset cfg) (zlen (bytes_of (chunks outs))) /\
      zlen (bytes_of (chunks outs)) <= cf_length cfg /\
      (saw_end outs = true -> failed outs = false ->
       bytes_of (chunks outs) = slice F (cf_offset cfg) (cf_length cfg)) /\
      fused outs.
Proof.
  intros Hc Hnew.
  destruct (reader_delivers (H := live_source f others) (contents (raw_fd f)) cfg r0
    (replicate n id) (mkLive c0 []) Hc Hnew) as (w & r & outs & Hp & Hd).
  - split; [done|]. intros S _. split; [apply NoDup_nil_2|done].
  - apply Forall_replicate. by intros w.
  - exists w, r, outs. split; [exact Hp|]. intros S Hf.
    destruct (Hd (ex_intro _ S Hf)) as (? & ? & ? & ? & ?). by split_and!.
Qed.
End Executions.

(** ** Witness *)

(** The reader asks for the four bytes at 10; while its read is in flight the
    shard's thread runs a turn. *)
Definition prefetch_config : Config := mkConfig 10 4 4 1 4.

Definition prefetch_reader : OrderedReader (ReadHandle sem) :=
  mkReader prefetch_config 14 10 0 [] false false.

Definition prefetch_others (t : nat) (c : Client sem chans) : Client sem chans :=
  if bool_decide (t = 1)%nat then demo_answered 4 1 else c.

Definition prefetch_result :=
  polls (H := live_source demo_file prefetch_others) (replicate 2 id) (mkLive demo_client [])
    prefetch_reader.

Lemma demo_started_view : view demo_client 0 demo_started.
Proof. constructor; simpl; try done. eexists. by split. Qed.

(** The conditions of an execution, for one shard. *)
Lemma one_shard c (s : Sys (file_ring demo_contents) sem chans) :
  length (cl_shards c) = 1%nat -> view c 0 s -> sees 1 c (fun _ => s).
Proof. intros Hl Hv. split; [done|]. intros k Hk. by replace k with 0%nat by lia. Qed.

Lemma one_others ids c (s : Sys (file_ring demo_contents) sem chans) c' s' :
  length (cl_shards c') = 1%nat -> view c' 0 s' -> rtc (step (Some 4096)) s s' ->
  cl_next_id c <= cl_next_id c' -> (forall id, id ∈ ids -> id ∈ sy_used s) ->
  others_step (Some 4096) 1 ids c (fun _ => s) c' (fun _ => s').
Proof.
  intros Hl Hv Hs Hn Hu. constructor; [by apply one_shard | by intros k _ | done |].
  intros id Hid Hun. by destruct (Hun 0%nat ltac:(lia) (Hu id Hid)).
Qed.

Lemma one_call c (s : Sys (file_ring demo_contents) sem chans) x c' s' hd :
  length (cl_shards c') = 1%nat -> view c' 0 s' -> rtc (step (Some 4096)) s s' ->
  run_call c x = Some (c', hd) -> sy_used s' ⊆ sy_used s ∪ sent_by hd ->
  call_step (Some 4096) 1 c (fun _ => s) x c' (fun _ => s').
Proof.
  intros Hl Hv Hs Hr Hu. constructor; [|by apply one_shard | by intros k _].
  exists hd. by split.
Qed.

(** The calls the reader makes. *)
Definition prefetch_polled : ReadHandle sem := mkHandle 1 0 true true Submitted.

Definition prefetch_calls : list (Performed sem chans) :=
  [mkPerformed demo_client (demo_read 4 1) (demo_called 4 1).1;
   mkPerformed (demo_answered 4 1) (CallPoll (mkHandle 1 0 false true Submitted)) (demo_answered 4 1);
   mkPerformed (demo_answered 4 1) (CallDrop prefetch_polled)
     (drop_handle (demo_answered 4 1) prefetch_polled)].

(** The buffered read of [Answers.v]. *)
Lemma demo_buffered : demo_case 4 1.
Proof. by left. Qed.

Lemma prefetch_turned : rtc (step (Some 4096)) (demo_sent 4 1) (demo_turned 4 1).
Proof. eapply steps_of_any, demo_turned_steps, demo_buffered. Qed.

Lemma demo_turned_used : sy_used (demo_turned 4 1) = {[1]}.
Proof. vm_compute. reflexivity. Qed.

Lemma prefetch_execution :
  exists S, follows (Some 4096) 4 1 demo_client (fun _ => demo_started) prefetch_calls S.
Proof.
  destruct (close_rx_view (Some 4096) (ok := any_input) 4 0 (demo_turned 4 1) (demo_answered 4 1) 1)
    as (s3 & Hs3 & Hv3 & Hu3 & _).
  { eapply steps_inv; [|exact prefetch_turned].
    eapply reachable_inv, (demo_sent_reachable any_input), demo_buffered. }
  { apply demo_turned_view, demo_buffered. }
  exists (fun _ => s3). change prefetch_calls with (([] ++ take 1 prefetch_calls) ++
    take 1 (drop 1 prefetch_calls) ++ drop 2 prefetch_calls). rewrite app_assoc.
  apply (FollowsCall _ _ _ _ _ _ (fun _ => demo_turned 4 1) _ (fun _ => demo_turned 4 1)).
  1: apply (FollowsCall _ _ _ _ _ _ (fun _ => demo_sent 4 1) _ (fun _ => demo_turned 4 1)).
  1: apply (FollowsCall _ _ _ _ _ _ (fun _ => demo_started) _ (fun _ => demo_started)).
  - constructor; [by apply one_shard; [|apply demo_started_view]|].
    intros k _. apply demo_started_reachable.
  - apply one_others; [done | apply demo_started_view | done | done |].
    by intros id []%not_elem_of_nil.
  - apply (one_call _ _ _ _ _ (Some (mkHandle 1 0 false true Submitted)));
      [done | apply demo_sent_view, demo_buffered | apply demo_sent_steps, demo_buffered | vm_compute; reflexivity |].
    simpl. set_solver.
  - apply one_others;
      [done | apply demo_turned_view, demo_buffered | exact prefetch_turned | vm_compute; discriminate |].
    intros id Hid. apply list_elem_of_singleton in Hid as ->. by apply elem_of_singleton.
  - apply (one_call _ _ _ _ _ (Some prefetch_polled));
      [done | apply demo_turned_view, demo_buffered | done | vm_compute; reflexivity |].
    rewrite demo_turned_used. set_solver.
  - apply one_others; [done | apply demo_turned_view, demo_buffered | done | done |].
    intros id Hid. rewrite demo_turned_used.
    by apply list_elem_of_singleton in Hid as ->; apply elem_of_singleton.
  - apply (one_call _ _ _ _ _ None); [done | exact Hv3 | exact Hs3 | reflexivity |].
    rewrite Hu3. set_solver.
Qed.

Lemma prefetch_reads_file_witness :
  exists w r outs S, prefetch_result = Some (w, r, outs) /\
    follows (Some 4096) 4 1 demo_client (fun _ => demo_started) (lv_log w) S /\
    saw_end outs = true /\ bytes_of (chunks outs) = slice (demo_contents 3) 10 4.
Proof.
  destruct (prefetch_reads_file demo_contents (Some 4096) 4 1 demo_file prefetch_others demo_client
    (fun _ => demo_started) ltac:(lia) prefetch_config prefetch_reader 2)
    as (w & r & outs & Hp & Hall).
  - unfold config_range, prefetch_config. simpl. lia.
  - reflexivity.
  - destruct prefetch_execution as [S HS]. exists w, r, outs, S. unfold prefetch_result.
    split; [exact Hp|].
    assert (Hlog : lv_log w = prefetch_calls /\ saw_end outs = true /\ failed outs = false).
    { vm_compute in Hp. injection Hp as <- _ <-. vm_compute. done. }
    destruct Hlog as (Hlog & He & Hf). rewrite <-Hlog in HS. split; [exact HS|].
    split; [exact He|]. by apply (Hall S HS).
Defined.

