(* ===== verification/Traced.v ===== *)
(** * The driver with diagnostics

    The calls of [src/src/driver.rs] under the [diagnostics] feature: which
    requests are sampled, and what the callers and the driver thread record on
    a sampled read's [Trace]. The functions are those of [Client.v] and
    [Driver.v] with the feature's code in them. The [Option<Arc<Trace>>] that a
    handle, its message and its pending entry share is an entry of a store
    under the read's operation. The panic of a record is [None]. *)

From S2P Require Import Prelude Diagnostics.
From S2P Require Import IoError Geometry Interfaces SharedBudget Pending World.
From S2P Require Import TurnBudget SubmitRing Driver Admission Startup Client.
From S2P Require Import Instances Ownership System Turn Requests.

Open Scope Z_scope.

(** ** A shard's diagnostics and the traces of its reads *)

Record Diag := mkDiag { dg_shard : Diagnostics; dg_traces : gmap Z Trace }.

(** A call on the trace of an operation, if it has one; [None] is its panic. *)
Definition with_trace (id : Z) (g : Diagnostics -> Trace -> option (Diagnostics * Trace)) (D : Diag) :
    option Diag :=
  match dg_traces D !! id with
  | None => Some D
  | Some t => '(s, t') ← g (dg_shard D) t; Some (mkDiag s (<[id := t']> (dg_traces D)))
  end.

(** [Trace::sample] and [Trace::sample_since] for operation [id]. *)
Definition sample_at (id start : Z) (D : Diag) : Diag :=
  let '(s, t) := sample (dg_shard D) start in
  mkDiag s (match t with Some t => <[id := t]> (dg_traces D) | None => dg_traces D end).

Definition enqueue_at (id clock : Z) : Diag -> option Diag :=
  with_trace id (fun s t => enqueue s t clock).

Definition enter_at (id clock : Z) : Diag -> option Diag := with_trace id (fun s t => enter s t clock).

Definition prepared_at (id clock : Z) : Diag -> option Diag :=
  with_trace id (fun s t => s ← Diagnostics.prepared s t clock; Some (s, t)).

(** [started] is read from the clock before the completion is processed. *)
Definition reaped_at (id started clock : Z) (final_cqe : bool) : Diag -> option Diag :=
  with_trace id (fun s t => s ← reaped s t clock (now t started) final_cqe; Some (s, t)).

Definition sending_at (id clock : Z) : Diag -> option Diag :=
  with_trace id (fun s t => Some (s, sending t clock)).

Definition received_at (id clock : Z) : Diag -> option Diag :=
  with_trace id (fun s t => s ← received s t clock; Some (s, t)).

(** A call on the shard [i] of a driver. *)
Definition alter_shard (g : Diag -> option Diag) (i : nat) (Ds : list Diag) : option (list Diag) :=
  match Ds !! i with
  | None => Some Ds
  | Some D => D ← g D; Some (<[i := D]> Ds)
  end.

(** The clock at the calls of one turn: at the intake of a message, numbered
    as the budget counts them, and around the processing of a completion. *)
Record TraceClock := mkTraceClock {
  ck_enter : Z -> Z;
  ck_prepared : Z -> Z;
  ck_started : Z -> Z;
  ck_reaped : Z -> Z;
  ck_sending : Z -> Z
}.

(** ** The driver thread *)

Section Driver.
Context {R Sm Ch : Type} `{Ring R} `{Semaphore Sm} `{Oneshot Ch} `{Target} `{HashOrder}.
Implicit Types (d : Drive R) (w : World Sm Ch) (b : TurnBudget) (D : Diag).

(** [Msg::Read]. *)
Definition intake_read_t (enter_clock prepared_clock : Z) d w b D (addr id : Z) (f : File)
    (off n c : Z) (pm : ReadPermits) (al : Z) : option (Drive R * World Sm Ch * TurnBudget * Diag) :=
  if d_shutting_down d then
    Some (d, refuse w c pm (other "uring driver shutting down"), b, D)
  else
    D ← enter_at id enter_clock D;
    match prepare_read addr f off n al c pm with
    | PrepPanic => None
    | PrepReject e allocated => Some (d, refuse w c pm e, count_allocation b allocated, D)
    | PrepEntry p allocated =>
        D ← prepared_at id prepared_clock D;
        Some (set_table d (<[id := p]> (d_pending d)) (d_backlog d ++ [read_sqe p id])
                (d_queued_cancels d) (count_accepted (d_stats d)),
              w, count_allocation b allocated, D)
    end.

(** One message. *)
Definition intake_msg_t (enter_clock prepared_clock : Z) d w b D (addr : Z) (m : Msg) :
    option (Drive R * World Sm Ch * TurnBudget * Diag) :=
  match m with
  | MsgRead id f off n c pm al =>
      intake_read_t enter_clock prepared_clock d w b D addr id f off n c pm al
  | MsgCancel id => Some (intake_cancel d id, w, b, D)
  | MsgShutdown => Some (cancel_all (set_shutting_down d), w, b, D)
  end.

(** The bounded intake loop. *)
Fixpoint intake_t (fuel : nat) (env : TurnEnv) (ck : TraceClock) (disconnected : bool) d w b D
    (q : list Msg) : option (Drive R * World Sm Ch * TurnBudget * Diag * list Msg) :=
  match fuel with
  | O => Some (d, w, b, D, q)
  | S fuel =>
      if can_take_message b then
        match q with
        | [] => Some (if disconnected then set_shutting_down d else d, w, b, D, [])
        | m :: q =>
            '(d', w', b', D') ← intake_msg_t (ck_enter ck (messages b)) (ck_prepared ck (messages b))
                                  d w (count_message b) D (te_addr env (messages b)) m;
            intake_t fuel env ck disconnected d' w' b' D' q
        end
      else Some (d, w, b, D, q)
  end.

(** A read completion. *)
Definition reap_entry_t (started reaped sending : Z) d w D (p : Pending) (c : Cqe)
    (inp : ReapInput) : option (Drive R * World Sm Ch * Diag) :=
  let id := cqe_user_data c in
  let closed := match done_tx p with
                | None => true
                | Some ch => os_is_closed (w_chan w) ch && negb (ri_race inp)
                end in
  '(p', step) ← reap_read (kernel_store p (cqe_addr c) (cqe_stored c)) id (cqe_result c)
                  (d_shutting_down d) (mkReapEnv closed (ri_file_len inp (raw_fd (file p))));
  D ← reaped_at id started reaped (match step with Finish _ => true | Resubmit _ => false end) D;
  match step with
  | Finish outcome =>
      D ← sending_at id sending D;
      ch ← done_tx p';
      let '(w', ok) := send w ch outcome in
      Some (set_table d (delete id (d_pending d)) (d_backlog d)
              (d_queued_cancels d ∖ {[id]}) (count_finished (d_stats d) ok),
            drop_permits w' (permit p'), D)
  | Resubmit s =>
      Some (set_table d (<[id := p']> (d_pending d)) (d_backlog d ++ [s])
              (d_queued_cancels d) (d_stats d), w, D)
  end.

(** One completion. *)
Definition reap_one_t (started reaped sending : Z) d w D (c : Cqe) (inp : ReapInput) :
    option (Drive R * World Sm Ch * Diag) :=
  if negb (Z.land (cqe_user_data c) CANCEL_BIT =? 0) then
    Some (set_table d (d_pending d) (d_backlog d) (d_queued_cancels d)
            (count_cancel (d_stats d) (cqe_result c)), w, D)
  else match d_pending d !! cqe_user_data c with
       | None => Some (d, w, D)
       | Some p => reap_entry_t started reaped sending d w D p c inp
       end.

(** The bounded reap loop. *)
Fixpoint reap_t (fuel : nat) (env : TurnEnv) (ck : TraceClock) d w b D :
    option (Drive R * World Sm Ch * TurnBudget * Diag) :=
  match fuel with
  | O => Some (d, w, b, D)
  | S fuel =>
      if can_reap b then
        match cq_next (d_ring d) with
        | None => Some (d, w, b, D)
        | Some (c, r') =>
            '(d', w', D') ← reap_one_t (ck_started ck (completions b)) (ck_reaped ck (completions b))
                              (ck_sending ck (completions b)) (set_ring d r' (d_backlog d)) w D c
                              (te_reap env (completions b));
            reap_t fuel env ck d' w' (count_completion b) D'
        end
      else Some (d, w, b, D)
  end.

Inductive turn_result_t :=
| TurnEndT (e : turn_end (R := R) (Sm := Sm) (Ch := Ch)) (q : list Msg) (D : Diag)
| TurnPanicT.

(** One iteration of the loop in [drive]. *)
Definition turn_t (env : TurnEnv) (ck : TraceClock) (disconnected : bool) d w D (q : list Msg) :
    turn_result_t :=
  match intake_t (Z.to_nat TURN_MESSAGES) env ck disconnected d w default_budget D q with
  | None => TurnPanicT
  | Some (d1, w1, b1, D1, q1) =>
      let '(d2, submitted_before) := submit_ring d1 in
      match reap_t (Z.to_nat TURN_COMPLETIONS) env ck d2 w1 b1 D1 with
      | None => TurnPanicT
      | Some (d3, w3, b3, D3) =>
          let '(d4, submitted_after) := submit_ring d3 in
          let '(st, prev, _) := update_cq_overflow (d_stats d4) (d_previous_overflow d4)
                                  (cq_overflow (d_ring d4)) in
          let d5 := set_overflow d4 st prev in
          TurnEndT
            (match check_exit d5 w3 env with
             | Continue d6 w6 =>
                 let ready_cqe := negb (cq_is_empty (d_ring d6)) in
                 let queued := negb (bool_decide (d_backlog d6 = [])) ||
                               negb (sq_is_empty (d_ring d6)) in
                 Continue (set_continue d6
                   (continue_without_wait b3 ready_cqe queued
                      (saturating_add usize_max submitted_before submitted_after))) w6
             | e => e
             end) q1 D3
      end
  end.
End Driver.
Arguments turn_result_t : clear implicits.
Arguments TurnEndT {_ _ _}.
Arguments TurnPanicT {_ _ _}.

(** ** The callers *)

Section Client.
Context {Sm Ch : Type} `{Semaphore Sm} `{Oneshot Ch} `{Target}.
Implicit Types (c : Client Sm Ch) (Ds : list Diag).

(** The clock at the calls of one submission. *)
Record SubmitClock := mkSubmitClock {
  sc_sample : Z;
  sc_selection : Z;
  sc_enqueue : Z
}.

(** The part of [submit] after the shard is selected. *)
Definition dispatch_t (enqueue_clock : Z) c Ds (id : Z) (i : nat) (res : ReadPermits + try_error)
    (f : File) (off len al charge : Z) (notify : bool) :
    option (Client Sm Ch * ReadHandle Sm * list Diag) :=
  match res with
  | inl pm =>
      let pm := with_shared pm (shared_of c) in
      let c := set_pool c (clone_shared (cl_pool c) (shared_of c)) in
      Ds ← alter_shard (enqueue_at id enqueue_clock) i Ds;
      let '(c', ok) := send_read c i id f off len id pm al in
      if ok then
        Some (if notify then upd_shard c' i shard_signal else c',
              mkHandle id i false true Submitted, Ds)
      else
        let '(c', h) := reject c' id i shut_down_error in
        Some (return_permits c' i pm, h, Ds)
  | inr NoPermits =>
      Some (set_pool c (clone_shared (cl_pool c) (shared_of c)),
            mkHandle id i false true
              (WaitingPermit (acquire_read_permits charge (shared_of c)) f off len al id), Ds)
  | inr Closed => Some (reject c id i shut_down_error, Ds)
  end.

(** [submit]: default routing samples a request before it is checked, on the
    shard at the cursor; capacity-aware routing samples an accepted request on
    the shard it is sent to. *)
Definition submit_t (sc : SubmitClock) c Ds (f : File) (off len al : Z) (allow_current notify : bool) :
    option (Client Sm Ch * ReadHandle Sm * list Diag) :=
  let id := cl_next_id c in
  if negb (Z.land id CANCEL_BIT =? 0) then None
  else
    let start := Z.to_nat (cl_rr c mod zlen (cl_shards c)) in
    let c := set_cursors (set_chan c (os_channel (cl_chan c) id))
               (wrap u64_max (cl_next_id c + 1)) (wrap usize_max (cl_rr c + 1)) in
    let capacity_aware := bool_decide (cl_policy c = CapacityAware) && negb allow_current in
    let Ds := if capacity_aware then Ds else alter (sample_at id (sc_sample sc)) start Ds in
    match check_request (cl_limits c) off len al allow_current with
    | inr e => Some (reject c id start e, Ds)
    | inl bytes =>
        let charge := wrap u32_max bytes in
        '(c, i, res) ← select_read_shard c start charge capacity_aware;
        let Ds :=
          if capacity_aware then
            match res with
            | inr Closed => Ds
            | _ => alter (sample_at id (sc_selection sc)) i Ds
            end
          else Ds in
        dispatch_t (sc_enqueue sc) c Ds id i res f off len al charge notify
    end.

(** The end of [poll]. *)
Definition poll_rx_t (clock : Z) c Ds (h : ReadHandle Sm) :
    option (Client Sm Ch * ReadHandle Sm * option read_result * list Diag) :=
  match os_rx (cl_chan c) (rh_id h) with
  | RxEmpty => Some (c, h, None, Ds)
  | v =>
      Ds ← (if rh_finished h then Some Ds
            else alter_shard (received_at (rh_id h) clock) (rh_shard h) Ds);
      Some (c, set_finished h,
            Some (match v with
                  | RxValue v => v
                  | _ => Err (other "uring driver shut down before completion")
                  end), Ds)
  end.

(** [poll], with the clock before the message is sent and after the answer is
    there. *)
Definition poll_t (enqueue_clock received_clock : Z) c Ds (h : ReadHandle Sm) :
    option (Client Sm Ch * ReadHandle Sm * option read_result * list Diag) :=
  match rh_state h with
  | WaitingPermit acquire f off len al done_ =>
      match cl_shards c !! rh_shard h with
      | None => Some (c, h, None, Ds)
      | Some sh =>
          let '(s', b', acquire', res) := poll_acquire (sh_sem sh) (cl_bytes c) acquire in
          let c := set_bytes (upd_shard c (rh_shard h) (shard_sem s')) b' in
          match res with
          | PermitsPending =>
              Some (c, set_state h (WaitingPermit acquire' f off len al done_), None, Ds)
          | PermitsClosed =>
              Some (set_pool c (drop_shared (cl_pool c) (acquire_shared acquire)),
                    set_finished (set_state h (WaitingPermit acquire' f off len al done_)),
                    Some (Err shut_down_error), Ds)
          | PermitsReady pm =>
              Ds ← alter_shard (enqueue_at (rh_id h) enqueue_clock) (rh_shard h) Ds;
              let '(c', ok) := send_read c (rh_shard h) (rh_id h) f off len done_ pm al in
              let h := set_state h Submitted in
              if ok then poll_rx_t received_clock (upd_shard c' (rh_shard h) shard_signal) Ds h
              else
                Some (return_permits (set_chan c' (os_drop_tx (cl_chan c') done_)) (rh_shard h) pm,
                      set_finished h, Some (Err shut_down_error), Ds)
          end
      end
  | _ => poll_rx_t received_clock c Ds h
  end.
End Client.

(** ** Lemmas: a record never panics *)

(** The well-formed diagnostics of a shard and of its traces. *)
Record diag_wf (D : Diag) : Prop := {
  dw_shard : diagnostics_wf (dg_shard D);
  dw_traces : map_Forall (fun _ t => trace_wf t) (dg_traces D)
}.

Lemma default_diag_wf : diag_wf (mkDiag default_diagnostics ∅).
Proof. constructor; [exact default_snapshot_wf | done]. Qed.

(** A call that succeeds on well-formed diagnostics and keeps them so. *)
Definition harmless (g : Diag -> option Diag) : Prop :=
  forall D, diag_wf D -> exists D', g D = Some D' /\ diag_wf D'.

Lemma now_range t clock : 1 <= now t clock <= u64_max.
Proof. unfold now, u64_max. lia. Qed.

Lemma interval_range t clock a :
  in_range u64_max a -> in_range u64_max (saturating_sub (now t clock) a).
Proof. pose proof (now_range t clock). unfold saturating_sub, in_range. lia. Qed.

Lemma with_trace_harmless id g :
  (forall s t, diagnostics_wf s -> trace_wf t ->
     exists s' t', g s t = Some (s', t') /\ diagnostics_wf s' /\ trace_wf t') ->
  harmless (with_trace id g).
Proof.
  intros Hg D [Hs Ht]. unfold with_trace. destruct (dg_traces D !! id) as [t|] eqn:E; [|by eexists].
  destruct (Hg _ _ Hs (Ht _ _ E)) as (s' & t' & -> & Hs' & Ht'). simpl. eexists. split; [done|].
  constructor; simpl; [done|]. by apply map_Forall_insert_2.
Qed.

Lemma record_stage_harmless d st n :
  diagnostics_wf d -> in_range u64_max n ->
  exists d', record_stage d st n = Some d' /\ diagnostics_wf d'.
Proof. intros Hd Hn. destruct (record_stage_ok d st n Hd Hn). eauto. Qed.

Lemma now_in_range t clock : in_range u64_max (now t clock).
Proof. pose proof (now_range t clock). unfold in_range. lia. Qed.

#[local] Hint Resolve interval_range now_in_range : core.

(** The next record of a call. *)
Ltac record_harmless :=
  match goal with
  | |- context [record_stage ?d ?st ?n] =>
      let d' := fresh "d" in let E := fresh "E" in
      destruct (record_stage_harmless d st n) as (d' & E & ?); [by auto..|]; rewrite E; simpl
  end.

(** A call on the trace [t] that stores the time of at most one step. *)
Ltac call_harmless :=
  apply with_trace_harmless; intros s t Hs Ht; pose proof Ht as [? ? ?];
  unfold enqueue, enter, Diagnostics.prepared, reaped, sending, received.

Ltac stored := do 2 eexists; split; [done|]; split; [done|]; first [done | constructor; simpl; auto].

Lemma enqueue_harmless id clock : harmless (enqueue_at id clock).
Proof.
  call_harmless. unfold checked_sub. pose proof (now_range t clock).
  destruct (1 <=? now t clock) eqn:E; bools; [|lia]. simpl.
  destruct (record_stage_harmless s Admission (now t clock - 1)) as (d & -> & ?); [done| |].
  { unfold in_range. lia. }
  simpl. stored.
Qed.

Lemma enter_harmless id clock : harmless (enter_at id clock).
Proof. call_harmless. record_harmless. stored. Qed.

Lemma prepared_harmless id clock : harmless (prepared_at id clock).
Proof. call_harmless. record_harmless. stored. Qed.

Lemma reaped_harmless id started clock final : harmless (reaped_at id started clock final).
Proof. call_harmless. record_harmless. destruct final; [record_harmless|]; stored. Qed.

Lemma sending_harmless id clock : harmless (sending_at id clock).
Proof. call_harmless. stored. Qed.

Lemma received_harmless id clock : harmless (received_at id clock).
Proof. call_harmless. destruct (sent t =? 0); [|record_harmless]; stored. Qed.

Lemma sample_wf id start D : diag_wf D -> diag_wf (sample_at id start D).
Proof.
  intros [Hs Ht]. unfold sample_at, sample. destruct (_ =? 0); constructor; simpl; try done.
  apply map_Forall_insert_2; [|done]. by constructor.
Qed.

Lemma alter_shard_harmless g i Ds :
  harmless g -> Forall diag_wf Ds -> exists Ds', alter_shard g i Ds = Some Ds' /\ Forall diag_wf Ds'.
Proof.
  intros Hg Hds. unfold alter_shard. destruct (Ds !! i) as [D|] eqn:E; [|eauto].
  destruct (Hg D) as (D' & -> & Hd'); [by eapply Forall_lookup_1|]. simpl.
  eexists. split; [done|]. by apply Forall_insert.
Qed.

Lemma alter_sample_wf id start i Ds : Forall diag_wf Ds -> Forall diag_wf (alter (sample_at id start) i Ds).
Proof. intros Hds. apply Forall_alter; [done|]. intros D _. apply sample_wf. Qed.

(** ** Lemmas: each phase with its records *)

(** A phase [p] that takes [D] and runs as the phase [o] without the feature:
    it never panics in a record, and keeps the diagnostics well formed. *)
Definition erases {A B} (D : Diag) (f : B -> A * Diag) (o : option A) (p : option B) : Prop :=
  match p with
  | Some b => o = Some (f b).1 /\ (diag_wf D -> diag_wf (f b).2)
  | None => diag_wf D -> o = None
  end.

(** A record, and what follows it. *)
Lemma erases_call {A B} D g (f : B -> A * Diag) o (k : Diag -> option B) :
  harmless g -> (forall D', erases D' f o (k D')) -> erases D f o (g D ≫= k).
Proof.
  intros Hg Hk. unfold erases in *. destruct (g D) as [D'|] eqn:E; simpl.
  - specialize (Hk D'). destruct (k D') as [b|].
    + destruct Hk as [? Hk]. split; [done|]. intros Hw. destruct (Hg D Hw) as (D1 & ? & ?).
      simplify_eq. auto.
    + intros Hw. destruct (Hg D Hw) as (D1 & ? & ?). simplify_eq. auto.
  - intros Hw. destruct (Hg D Hw) as (D1 & ? & ?). congruence.
Qed.

(** One phase after another. *)
Lemma erases_bind {A B A' B'} D (f : B -> A * Diag) (f' : B' -> A' * Diag) o p ko k :
  erases D f o p -> (forall b, erases (f b).2 f' (ko (f b).1) (k b)) ->
  erases D f' (o ≫= ko) (p ≫= k).
Proof.
  unfold erases. intros Hp Hk. destruct p as [b|]; simpl.
  - destruct Hp as [-> Hw]. simpl. specialize (Hk b). destruct (k b); [destruct Hk|]; auto.
  - intros Hw. by rewrite (Hp Hw).
Qed.

Section DriverLemmas.
Context {R Sm Ch : Type} `{Ring R} `{Semaphore Sm} `{Oneshot Ch} `{Target} `{HashOrder}.
Implicit Types (d : Drive R) (w : World Sm Ch) (b : TurnBudget) (D : Diag).

Lemma intake_msg_erases t1 t2 d w b D addr m :
  erases D (fun '(d, w, b, D) => ((d, w, b), D)) (intake_msg d w b addr m)
    (intake_msg_t t1 t2 d w b D addr m).
Proof.
  destruct m as [id f off n c pm al|id|]; try done. simpl.
  unfold intake_read, intake_read_t. destruct (d_shutting_down d); [done|].
  apply erases_call; [apply enter_harmless|]. intros D1.
  destruct (prepare_read _ _ _ _ _ _ _); try done.
  by apply (erases_call _ _ _ (Some _)); [apply prepared_harmless|].
Qed.

Lemma intake_erases fuel env ck disc d w b D q :
  erases D (fun '(d, w, b, D, q) => ((d, w, b, q), D)) (intake fuel env disc d w b q)
    (intake_t fuel env ck disc d w b D q).
Proof.
  revert d w b D q. induction fuel as [|fuel IH]; intros d w b D q; simpl; [done|].
  destruct (can_take_message b); [|done]. destruct q as [|m q]; [done|].
  eapply erases_bind; [apply intake_msg_erases|]. intros [[[d' w'] b'] D']. apply IH.
Qed.

Lemma reap_one_erases t1 t2 t3 d w D c inp :
  erases D (fun x => x) (reap_one d w c inp) (reap_one_t t1 t2 t3 d w D c inp).
Proof.
  unfold reap_one, reap_one_t. destruct (negb _); [done|].
  destruct (d_pending d !! _) as [p|]; [|done]. unfold reap_entry, reap_entry_t.
  destruct (reap_read _ _ _ _ _) as [[p' step]|]; [|done]. simpl.
  apply erases_call; [apply reaped_harmless|]. intros D1.
  destruct step as [outcome|s]; [|done].
  apply erases_call; [apply sending_harmless|]. intros D2.
  destruct (done_tx p') as [ch|]; simpl; [|done]. by destruct (send w ch outcome).
Qed.

Lemma reap_erases fuel env ck d w b D :
  erases D (fun x => x) (reap fuel env d w b) (reap_t fuel env ck d w b D).
Proof.
  revert d w b D. induction fuel as [|fuel IH]; intros d w b D; simpl; [done|].
  destruct (can_reap b); [|done]. destruct (cq_next _) as [[c r']|]; [|done].
  eapply erases_bind; [apply reap_one_erases|]. intros [[d' w'] D']. apply IH.
Qed.

(** The turn without what it recorded. *)
Lemma turn_erases env ck disc d w D q :
  match turn_t env ck disc d w D q with
  | TurnEndT e q' D' => turn env disc d w q = TurnEnd e q' /\ (diag_wf D -> diag_wf D')
  | TurnPanicT => diag_wf D -> turn env disc d w q = TurnPanic
  end.
Proof.
  unfold turn, turn_t. generalize (Z.to_nat TURN_MESSAGES), (Z.to_nat TURN_COMPLETIONS).
  intros fuel1 fuel2.
  pose proof (intake_erases fuel1 env ck disc d w default_budget D q) as Hi.
  destruct (intake_t _ _ _ _ _ _ _ _ _) as [[[[[d1 w1] b1] D1] q1]|].
  2: { intros Hw. by rewrite (Hi Hw). }
  destruct Hi as [-> Hw1]. simpl in *. destruct (submit_ring d1) as [d2 n1].
  pose proof (reap_erases fuel2 env ck d2 w1 b1 D1) as Hr.
  destruct (reap_t _ _ _ _ _ _ _) as [[[[d3 w3] b3] D3]|].
  2: { intros Hw. by rewrite (Hr (Hw1 Hw)). }
  destruct Hr as [-> Hw3]. simpl in *. destruct (submit_ring d3) as [d4 n2].
  destruct (update_cq_overflow _ _ _) as [[st prev] warn]. auto.
Qed.
End DriverLemmas.

Section ClientLemmas.
Context {Sm Ch : Type} `{Semaphore Sm} `{Oneshot Ch} `{Target}.
Implicit Types (c : Client Sm Ch) (Ds : list Diag).

Lemma dispatch_erases t c Ds id i res f off len al charge notify :
  Forall diag_wf Ds ->
  exists Ds', dispatch_t t c Ds id i res f off len al charge notify =
    Some (dispatch c id i res f off len al charge notify, Ds') /\ Forall diag_wf Ds'.
Proof.
  intros Hds. unfold dispatch, dispatch_t. destruct res as [pm|[]]; [|by eauto..].
  destruct (alter_shard_harmless _ i Ds (enqueue_harmless id t) Hds) as (Ds' & -> & ?). simpl.
  destruct (send_read _ _ _ _ _ _ _ _ _) as [c' []]; eauto.
Qed.

Lemma submit_erases sc c Ds f off len al allow notify :
  Forall diag_wf Ds ->
  match submit_t sc c Ds f off len al allow notify with
  | Some (c', h, Ds') => submit c f off len al allow notify = Some (c', h) /\ Forall diag_wf Ds'
  | None => submit c f off len al allow notify = None
  end.
Proof.
  intros Hds. unfold submit, submit_t. destruct (negb _); [done|]. cbv zeta.
  set (Ds0 := if _ && _ then Ds else _).
  assert (Hds0 : Forall diag_wf Ds0) by (unfold Ds0; destruct (_ && _); auto using alter_sample_wf).
  destruct (check_request _ _ _ _ _); [|done].
  destruct (select_read_shard _ _ _ _) as [[[c1 i] res]|]; [|done]. simpl.
  match goal with |- context [dispatch_t _ _ ?Ds1] => set (Ds2 := Ds1) end.
  assert (Hds2 : Forall diag_wf Ds2).
  { unfold Ds2. destruct (_ && _); [|done]. destruct res as [|[]]; auto using alter_sample_wf. }
  edestruct (dispatch_erases (sc_enqueue sc) c1 Ds2) as (Ds' & -> & ?); [done|].
  by destruct (dispatch _ _ _ _ _ _ _ _ _ _).
Qed.

Lemma poll_rx_erases t c Ds h :
  Forall diag_wf Ds -> exists Ds', poll_rx_t t c Ds h = Some (poll_rx c h, Ds') /\ Forall diag_wf Ds'.
Proof.
  intros Hds. unfold poll_rx, poll_rx_t. destruct (rh_finished h).
  { destruct (os_rx _ _); eauto. }
  destruct (alter_shard_harmless _ (rh_shard h) Ds (received_harmless (rh_id h) t) Hds)
    as (Ds' & -> & ?).
  destruct (os_rx _ _); simpl; eauto.
Qed.

Lemma poll_erases t1 t2 c Ds h :
  Forall diag_wf Ds -> exists Ds', poll_t t1 t2 c Ds h = Some (poll c h, Ds') /\ Forall diag_wf Ds'.
Proof.
  intros Hds. unfold poll, poll_t.
  destruct (rh_state h) as [|acquire f off len al done_|]; try by apply poll_rx_erases.
  destruct (cl_shards c !! rh_shard h) as [sh|]; [|eauto].
  destruct (poll_acquire _ _ _) as [[[s' b'] acquire'] [|pm|]]; [by eauto| |by eauto].
  destruct (alter_shard_harmless _ (rh_shard h) Ds (enqueue_harmless (rh_id h) t1) Hds)
    as (Ds' & -> & ?). simpl.
  destruct (send_read _ _ _ _ _ _ _ _ _) as [c' []]; [by apply poll_rx_erases | eauto].
Qed.
End ClientLemmas.

(** ** What a submission records *)

Section Submission.
Context {Sm Ch : Type} `{Semaphore Sm} `{Oneshot Ch} `{Target}.
Implicit Types (c : Client Sm Ch) (Ds : list Diag).

(** The records of a submission on one shard: the sample, and the enqueueing
    of a read that has its permits. *)
Definition submit_records (id t1 t2 : Z) (D D' : Diag) : Prop :=
  D' = sample_at id t1 D \/ enqueue_at id t2 (sample_at id t1 D) = Some D'.

Lemma dispatch_t_records t c Ds id i res f off len al charge notify c' h Ds' :
  dispatch_t t c Ds id i res f off len al charge notify = Some (c', h, Ds') ->
  rh_shard h = i /\ rh_id h = id /\
  (Ds' = Ds \/ alter_shard (enqueue_at id t) i Ds = Some Ds').
Proof.
  unfold dispatch_t. destruct res as [pm|[]].
  - destruct (alter_shard _ _ _) as [Ds1|]; simpl; [|done].
    destruct (send_read _ _ _ _ _ _ _ _ _) as [c1 []]; intros [= <- <- <-]; simpl; auto.
  - intros [= <- <- <-]; simpl; auto.
  - intros [= <- <- <-]; simpl; auto.
Qed.

Lemma select_default c start charge c' i res :
  select_read_shard c start charge false = Some (c', i, res) -> i = start.
Proof.
  unfold select_read_shard. destruct (cl_shards c !! start); simpl; [|done].
  destruct (try_read_permits _ _ _) as [[s' b'] r]. by intros [= _ <- _].
Qed.

(** [Ds'] is [Ds] but for what was recorded on shard [i]. *)
Definition records_on (i : nat) (id : Z) (sc : SubmitClock) (may_skip : Prop) Ds Ds' : Prop :=
  (forall k, k <> i -> Ds' !! k = Ds !! k) /\
  forall D, Ds !! i = Some D ->
    exists D', Ds' !! i = Some D' /\
      (may_skip /\ D' = D \/ exists t, submit_records id t (sc_enqueue sc) D D').

Lemma alter_shard_lookup g i Ds Ds' :
  alter_shard g i Ds = Some Ds' ->
  (forall k, k <> i -> Ds' !! k = Ds !! k) /\
  forall D, Ds !! i = Some D -> exists D', g D = Some D' /\ Ds' !! i = Some D'.
Proof.
  unfold alter_shard. destruct (Ds !! i) as [D|] eqn:E.
  - destruct (g D) as [D'|] eqn:Eg; simpl; [|done]. intros [= <-]. split.
    + intros k Hk. by rewrite list_lookup_insert_ne.
    + intros D1 [= <-]. exists D'. split; [done|].
      apply list_lookup_insert_eq. by eapply lookup_lt_Some.
  - intros [= <-]. split; [done|]. by rewrite ?E.
Qed.

Lemma records_on_sampled i id t sc P Ds Ds' :
  Ds' = alter (sample_at id t) i Ds \/
  alter_shard (enqueue_at id (sc_enqueue sc)) i (alter (sample_at id t) i Ds) = Some Ds' ->
  records_on i id sc P Ds Ds'.
Proof.
  intros [->|Hds].
  - split; [intros k Hk; by rewrite list_lookup_alter_ne|].
    intros D HD. rewrite list_lookup_alter_eq, HD. simpl. eexists. split; [done|].
    right. exists t. by left.
  - apply alter_shard_lookup in Hds as [Hne Heq]. split.
    + intros k Hk. by rewrite Hne, list_lookup_alter_ne.
    + intros D HD. destruct (Heq (sample_at id t D)) as (D' & He & HD').
      { by rewrite list_lookup_alter_eq, HD. }
      exists D'. split; [done|]. right. exists t. by right.
Qed.

Lemma records_on_none i id sc (P : Prop) Ds : P -> records_on i id sc P Ds Ds.
Proof. intros HP. split; [done|]. eauto. Qed.

(** A submission records on the shard of its handle only, whatever shards the
    selection tried. Default routing samples every request; capacity-aware
    routing skips those that are rejected. *)
Theorem submit_records_on_owner sc c Ds f off len al allow notify c' h Ds' :
  submit_t sc c Ds f off len al allow notify = Some (c', h, Ds') ->
  records_on (rh_shard h) (rh_id h) sc
    (cl_policy c = CapacityAware /\ allow = false /\ rh_state h = Inert) Ds Ds'.
Proof.
  unfold submit_t. destruct (negb _); [done|]. cbv zeta.
  set (start := Z.to_nat _). set (c0 := set_cursors _ _ _).
  change (cl_policy c0) with (cl_policy c).
  destruct (bool_decide (cl_policy c = CapacityAware) && negb allow) eqn:Haware.
  - apply andb_true_iff in Haware as [Hpol%bool_decide_eq_true Hal%negb_true_iff].
    destruct (check_request _ _ _ _ _) as [bytes|e].
    + destruct (select_read_shard _ _ _ _) as [[[c1 i] res]|]; simpl; [|done].
      intros Hd. pose proof (dispatch_t_records _ _ _ _ _ _ _ _ _ _ _ _ _ _ _ Hd) as (<- & <- & Hr).
      destruct res as [pm|[]].
      * eapply (records_on_sampled _ _ (sc_selection sc)). destruct Hr as [->| ->]; auto.
      * eapply (records_on_sampled _ _ (sc_selection sc)). destruct Hr as [->| ->]; auto.
      * simpl in Hd. injection Hd as <- <- <-. by apply records_on_none.
    + intros [= <- <- <-]. by apply records_on_none.
  - destruct (check_request _ _ _ _ _) as [bytes|e].
    + destruct (select_read_shard _ _ _ _) as [[[c1 i] res]|] eqn:Hs; simpl; [|done].
      apply select_default in Hs as ->.
      intros Hd. apply dispatch_t_records in Hd as (<- & <- & Hr).
      eapply (records_on_sampled _ _ (sc_sample sc)). destruct Hr as [->| ->]; auto.
    + intros [= <- <- <-]. eapply (records_on_sampled _ _ (sc_sample sc)). by left.
Qed.
End Submission.

(** ** Properties *)

Section Properties.
Context {R Sm Ch : Type} `{Ring R} `{Semaphore Sm} `{Oneshot Ch} `{Target} `{HashOrder}.

(** [C37] Diagnostics do not interfere: with the feature, from well-formed diagnostics and
    whatever the clock reads, no record panics and the diagnostics stay well formed; a turn of
    the driver thread ends as the turn without the feature does, with the same driver state,
    answers and remaining messages, and a submission and a poll give the same handle and
    answer and leave the same driver. Fresh diagnostics are well formed. *)
Theorem diagnostics_transparent env ck disc (d : Drive R) (w : World Sm Ch) D q
    sc (c : Client Sm Ch) Ds f off len al allow notify h t1 t2 :
  diag_wf D -> Forall diag_wf Ds ->
  match turn_t env ck disc d w D q with
  | TurnEndT e q' D' => turn env disc d w q = TurnEnd e q' /\ diag_wf D'
  | TurnPanicT => turn env disc d w q = TurnPanic
  end /\
  match submit_t sc c Ds f off len al allow notify with
  | Some (c', h', Ds') => submit c f off len al allow notify = Some (c', h') /\ Forall diag_wf Ds'
  | None => submit c f off len al allow notify = None
  end /\
  (exists Ds', poll_t t1 t2 c Ds h = Some (poll c h, Ds') /\ Forall diag_wf Ds') /\
  diag_wf (mkDiag default_diagnostics ∅).
Proof.
  intros Hw Hds. pose proof (turn_erases env ck disc d w D q) as Ht.
  split; [|split; [by apply submit_erases | split; [by apply poll_erases | apply default_diag_wf]]].
  destruct (turn_t _ _ _ _ _ _ _); naive_solver.
Qed.
End Properties.

(** ** Witness *)

(** The read of [Turn.v], sampled by its caller. *)
Definition demo_sampled : Diag := sample_at 0 5 (mkDiag default_diagnostics ∅).

Definition demo_clock : TraceClock :=
  mkTraceClock (fun _ => 10) (fun _ => 11) (fun _ => 20) (fun _ => 21) (fun _ => 22).

#[local] Existing Instance x86_64.

Lemma diagnostics_transparent_witness :
  let s := demo_shard false [] in
  let t := turn_t (demo_env 0) demo_clock false (sy_drive s) (sy_world s) demo_sampled (sy_queue s) in
  diag_wf demo_sampled /\
  match t with
  | TurnEndT e q D =>
      turn (demo_env 0) false (sy_drive s) (sy_world s) (sy_queue s) = TurnEnd e q /\ diag_wf D
  | TurnPanicT => False
  end /\
  match t with
  | TurnEndT _ _ D => count (driver_lifetime (stages (dg_shard D))) = 1
  | TurnPanicT => False
  end.
Proof.
  intros s t. split; [exact (sample_wf 0 5 _ default_diag_wf)|].
  split; [|vm_compute; reflexivity].
  pose proof (diagnostics_transparent (demo_env 0) demo_clock false (sy_drive s) (sy_world s)
    demo_sampled (sy_queue s) (mkSubmitClock 1 2 3) demo_client [] demo_file 10 100 1 false true
    (demo_submitted demo_client 10 100).2 4 5 (sample_wf 0 5 _ default_diag_wf)
    (Forall_nil_2 _)) as [Ht _].
  unfold t. destruct (turn_t _ _ _ _ _ _ _) as [e q D|] eqn:E; [exact Ht|].
  revert E. vm_compute. discriminate.
Defined.
