(* ===== verification/StageCounts.v ===== *)
(** * What the diagnostics count

    A shard running with the [diagnostics] feature: the steps of [System.v]
    with the records of [Traced.v] in them. The counts of the stages are
    related to the reads that are queued, pending, finished and received. *)

From S2P Require Import Prelude Diagnostics.
From S2P Require Import IoError Geometry Interfaces Instances SharedBudget Pending World.
From S2P Require Import TurnBudget SubmitRing Driver Ownership System Safety Turn Admission Client.
From S2P Require Import Requests ClientRefines Traced.

Open Scope Z_scope.

(** ** Stages reached *)

(** The times a trace stores, each zero until its step is reached. *)
Inductive Mark := Enqueued | Entered | Sent.

#[export] Instance mark_eq_dec : EqDecision Mark.
Proof. solve_decision. Defined.

Definition mark_time (t : Trace) (m : Mark) : Z :=
  match m with Enqueued => queued t | Entered => entered t | Sent => sent t end.

Definition reached (m : Mark) (kt : Z * Trace) : Prop := mark_time kt.2 m <> 0.

#[export] Instance reached_dec m kt : Decision (reached m kt).
Proof. unfold reached. apply _. Defined.

(** The sampled operations that reached a step. *)
Definition marked (m : Mark) (D : Diag) : gset Z := dom (filter (reached m) (dg_traces D)).

Definition traced (D : Diag) : gset Z := dom (dg_traces D).

(** The count of a stage in the shard's snapshot. *)
Definition stage_count (D : Diag) (st : Stage) : Z := count (stage_of (stages (dg_shard D)) st).

(** The number of operations in a set, as a [u64] counter holds it. *)
Definition counted (X : gset Z) : Z := wrap u64_max (Z.of_nat (size X)).

(** ** Lemmas: marks and counts *)

Lemma elem_of_marked m D id : id ∈ marked m D <-> exists t, dg_traces D !! id = Some t /\ mark_time t m <> 0.
Proof.
  unfold marked. rewrite elem_of_dom. unfold is_Some. setoid_rewrite map_lookup_filter_Some.
  unfold reached. naive_solver.
Qed.

Lemma marked_traced m D : marked m D ⊆ traced D.
Proof. intros id (t & Ht & _)%elem_of_marked. apply elem_of_dom. eauto. Qed.

Lemma now_marks t clock : now t clock <> 0.
Proof. unfold now, u64_max. lia. Qed.

Lemma counted_add X id : id ∉ X -> counted ({[id]} ∪ X) = wadd (counted X) 1.
Proof.
  intros Hid. unfold counted, wadd. rewrite size_union by set_solver. rewrite size_singleton.
  unfold wrap. rewrite Z.add_mod_idemp_l by done. f_equal. lia.
Qed.

(** What a call on a trace does: it records at the stages [sts] once each and
    stores the time of at most one step. *)
Record trace_call (id : Z) (mk : option Mark) (sts : list Stage) (D D' : Diag) : Prop := {
  tc_traced : traced D' = traced D;
  tc_marked m : marked m D' =
    if decide (mk = Some m) then {[id]} ∪ marked m D else marked m D;
  tc_count st : stage_count D' st =
    if decide (st ∈ sts) then wadd (stage_count D st) 1 else stage_count D st
}.

Lemma trace_call_intro id mk sts D t s' t' :
  dg_traces D !! id = Some t ->
  (forall m, mark_time t' m <> 0 <-> mark_time t m <> 0 \/ mk = Some m) ->
  (forall st, count (stage_of (stages s') st) =
     if decide (st ∈ sts) then wadd (stage_count D st) 1 else stage_count D st) ->
  trace_call id mk sts D (mkDiag s' (<[id := t']> (dg_traces D))).
Proof.
  intros Ht Hm Hc. constructor; [| |done].
  - unfold traced. simpl. rewrite dom_insert_L. apply elem_of_dom_2 in Ht. set_solver.
  - intros m. apply set_eq. intros i.
    assert (Hi : i ∈ (if decide (mk = Some m) then {[id]} ∪ marked m D else marked m D) <->
      i ∈ marked m D \/ mk = Some m /\ i = id) by (case_decide; set_solver).
    rewrite Hi, !elem_of_marked. simpl.
    destruct (decide (i = id)) as [->|Hne].
    + rewrite lookup_insert_eq. setoid_rewrite Ht. specialize (Hm m). naive_solver.
    + rewrite lookup_insert_ne by done. naive_solver.
Qed.

Lemma untraced id g D : id ∉ traced D -> with_trace id g D = Some D.
Proof.
  unfold with_trace. intros Hid. by rewrite (proj1 (not_elem_of_dom (dg_traces D) id) Hid).
Qed.

Lemma traced_lookup id D : id ∈ traced D -> exists t, dg_traces D !! id = Some t.
Proof. unfold traced. by intros [t Ht]%elem_of_dom; eauto. Qed.

(** A call that records at fixed stages. *)
Ltac trace_records t :=
  repeat match goal with
  | |- context [checked_sub ?a ?b] => destruct (checked_sub a b); simpl; [|done]
  | |- context [record_stage ?d ?st ?n] =>
      let E := fresh "E" in destruct (record_stage d st n) eqn:E; simpl; [|done];
      pose proof (fun st' => record_stage_count _ _ _ _ st' E)
  end; intros [= <-]; apply (trace_call_intro _ _ _ _ t);
  [ done | intros []; simpl; naive_solver
  | intros st; simpl; repeat match goal with Hc : forall st' : Stage, _ |- _ => rewrite (Hc st) end;
    by destruct st ].

Ltac trace_call clock :=
  let t := fresh "t" in
  intros [t Ht]%traced_lookup;
  unfold enqueue_at, enter_at, prepared_at, reaped_at, sending_at, with_trace;
  rewrite Ht; pose proof (now_marks t clock);
  unfold enqueue, enter, Diagnostics.prepared, reaped; trace_records t.

Lemma enqueue_call id clock D D' :
  id ∈ traced D -> enqueue_at id clock D = Some D' ->
  trace_call id (Some Enqueued) [Diagnostics.Admission] D D'.
Proof. trace_call clock. Qed.

Lemma enter_call id clock D D' :
  id ∈ traced D -> enter_at id clock D = Some D' -> trace_call id (Some Entered) [Queue] D D'.
Proof. trace_call clock. Qed.

Lemma prepared_call id clock D D' :
  id ∈ traced D -> prepared_at id clock D = Some D' -> trace_call id None [Prepare] D D'.
Proof. trace_call clock. Qed.

Lemma reaped_call id started clock final D D' :
  id ∈ traced D -> reaped_at id started clock final D = Some D' ->
  trace_call id None (if final : bool then [Diagnostics.Cqe; Lifetime] else [Diagnostics.Cqe]) D D'.
Proof. destruct final; trace_call clock. Qed.

Lemma sending_call id clock D D' :
  id ∈ traced D -> sending_at id clock D = Some D' -> trace_call id (Some Sent) [] D D'.
Proof. trace_call clock. Qed.

Lemma received_call id clock D D' :
  id ∈ traced D -> received_at id clock D = Some D' ->
  trace_call id None (if decide (id ∈ marked Sent D) then [Resume] else []) D D'.
Proof.
  intros [t Ht]%traced_lookup.
  assert (Hs : id ∈ marked Sent D <-> sent t <> 0).
  { rewrite elem_of_marked. split; [intros (t' & Ht' & ?); by simplify_eq | eauto]. }
  unfold received_at, with_trace, received. rewrite Ht.
  destruct (sent t =? 0) eqn:Hz; bools; destruct (decide (id ∈ marked Sent D)); try tauto;
    simpl; trace_records t.
Qed.

(** A sample adds an operation with no step reached, or nothing. *)
Lemma sample_marks id start D :
  id ∉ traced D ->
  (forall m, marked m (sample_at id start D) = marked m D) /\
  traced (sample_at id start D) ⊆ {[id]} ∪ traced D /\ traced D ⊆ traced (sample_at id start D) /\
  (forall st, stage_count (sample_at id start D) st = stage_count D st).
Proof.
  intros Hid. unfold sample_at, sample, traced. destruct (_ =? 0); simpl;
    [|split_and!; [done | set_solver.. | done]].
  rewrite dom_insert_L. split_and!; [|set_solver..|done].
  intros m. apply set_eq. intros i. rewrite !elem_of_marked. simpl.
  destruct (decide (i = id)) as [->|Hne]; [|by rewrite lookup_insert_ne].
  rewrite lookup_insert_eq. rewrite (proj1 (not_elem_of_dom (dg_traces D) id) Hid).
  split; [|naive_solver]. intros (t & [= <-] & Ht). by destruct m.
Qed.

(** Two calls for the same operation, of which at most one stores a time. *)
Lemma trace_call_compose id mk1 mk2 sts1 sts2 D D1 D2 :
  trace_call id mk1 sts1 D D1 -> trace_call id mk2 sts2 D1 D2 ->
  mk1 = None \/ mk2 = None -> (forall st, st ∈ sts1 -> st ∉ sts2) ->
  trace_call id (match mk1 with Some m => Some m | None => mk2 end) (sts1 ++ sts2) D D2.
Proof.
  intros [Ht1 Hm1 Hc1] [Ht2 Hm2 Hc2] Hmk Hd. constructor.
  - congruence.
  - intros m. rewrite Hm2, Hm1. destruct Hmk as [-> | ->]; [done|]. by destruct mk1.
  - intros st. rewrite Hc2, Hc1. specialize (Hd st).
    repeat case_decide; set_solver.
Qed.

(** The stages recorded when a step is reached. *)
Definition mark_stages (m : Mark) : list Stage :=
  match m with
  | Enqueued => [Diagnostics.Admission]
  | Entered => [Queue; Prepare]
  | Sent => [Diagnostics.Cqe; Lifetime]
  end.

Lemma intake_calls id t1 t2 D D1 D2 :
  enter_at id t1 D = Some D1 -> prepared_at id t2 D1 = Some D2 -> id ∈ traced D ->
  trace_call id (Some Entered) (mark_stages Entered) D D2.
Proof.
  intros H1 H2 Hid. pose proof (enter_call id t1 D D1 Hid H1) as He.
  apply (trace_call_compose id (Some Entered) None [Queue] [Prepare] D _ _ He);
    [|by right|set_solver].
  eapply prepared_call; [|done]. by rewrite (tc_traced _ _ _ _ _ He).
Qed.

Lemma finish_calls id t1 t2 t3 D D1 D2 :
  reaped_at id t1 t2 true D = Some D1 -> sending_at id t3 D1 = Some D2 -> id ∈ traced D ->
  trace_call id (Some Sent) (mark_stages Sent) D D2.
Proof.
  intros H1 H2 Hid. pose proof (reaped_call id t1 t2 true D D1 Hid H1) as He.
  apply (trace_call_compose id None (Some Sent) [Diagnostics.Cqe; Lifetime] [] D _ _ He);
    [|by left|set_solver].
  eapply sending_call; [|done]. by rewrite (tc_traced _ _ _ _ _ He).
Qed.

(** Nothing is recorded for an operation that is not sampled. *)
Lemma untraced_calls id g1 g2 D D1 D2 :
  with_trace id g1 D = Some D1 -> with_trace id g2 D1 = Some D2 -> id ∉ traced D -> D2 = D.
Proof. intros H1 H2 Ht. rewrite untraced in H1 by done. simplify_eq. by rewrite untraced in H2; simplify_eq. Qed.

(** ** The shard with its diagnostics *)

(** The shard, its diagnostics, and the operations whose handle has taken an
    answer. *)
Record TSys (R Sm Ch : Type) := mkTSys {
  ts_sys : Sys R Sm Ch;
  ts_diag : Diag;
  ts_taken : gset Z
}.
Arguments mkTSys {_ _ _}.
Arguments ts_sys {_ _ _}.
Arguments ts_diag {_ _ _}.
Arguments ts_taken {_ _ _}.

Section Counts.
Context {R Sm Ch : Type} `{RingLaws R} `{SemaphoreLaws Sm} `{OneshotLaws Ch} `{Target}
  `{HashOrder}.
Context (limit : option Z).
Implicit Types (s : Sys R Sm Ch) (D : Diag) (T : gset Z) (x y : TSys R Sm Ch).
Implicit Types (d : Drive R) (w : World Sm Ch).

(** A step that sends no read, takes none from the queue of a running thread
    and reaps no completion. *)
Definition quiet s s' : Prop :=
  step_of limit (fun _ => False) s s' /\ sy_used s' = sy_used s /\
  (sy_status s' = Running_ -> queued_ids (sy_queue s') = queued_ids (sy_queue s)).

(** One action of the shard, its callers or the kernel, with its records. A
    caller samples an operation before it sends it, enqueues it with the
    [send], which fails when the thread is gone, and records the answer once:
    the handle is finished then. *)
Inductive tstep : TSys R Sm Ch -> TSys R Sm Ch -> Prop :=
| TQuiet s s' D T :
    quiet s s' -> tstep (mkTSys s D T) (mkTSys s' D T)
| TSample s D T id start :
    id ∉ sy_used s -> id ∉ traced D ->
    tstep (mkTSys s D T) (mkTSys s (sample_at id start D) T)
| TSend s s' D T id clock D' :
    step_of limit (fun _ => False) s s' -> id ∉ sy_used s -> sy_used s' = ({[id]} ∪ sy_used s) ->
    enqueue_at id clock D = Some D' ->
    tstep (mkTSys s D T) (mkTSys s' D' T)
| TSendLost s D T id clock D' :
    sy_status s <> Running_ -> id ∉ sy_used s -> id ∉ marked Enqueued D ->
    enqueue_at id clock D = Some D' ->
    tstep (mkTSys s D T) (mkTSys s D' T)
| TIntake s D T m q t1 t2 b addr d' w' b' D' :
    sy_status s = Running_ -> sy_queue s = m :: q -> 0 <= addr ->
    intake_msg_t t1 t2 (sy_drive s) (sy_world s) b D addr m = Some (d', w', b', D') ->
    tstep (mkTSys s D T) (mkTSys (with_drive s d' w' q) D' T)
| TReap s D T c r' t1 t2 t3 inp d' w' D' :
    sy_status s = Running_ -> cq_next (d_ring (sy_drive s)) = Some (c, r') ->
    reap_one_t t1 t2 t3 (set_ring (sy_drive s) r' (d_backlog (sy_drive s))) (sy_world s) D c inp =
      Some (d', w', D') ->
    tstep (mkTSys s D T) (mkTSys (with_drive s d' w' (sy_queue s)) D' T)
| TReceive s D T id clock D' :
    id ∈ sy_used s -> id ∉ T -> os_rx (w_chan (sy_world s)) id <> RxEmpty ->
    received_at id clock D = Some D' ->
    tstep (mkTSys s D T) (mkTSys s D' ({[id]} ∪ T)).

(** The states a shard reaches after its start. *)
Definition treachable (entries : Z) x : Prop :=
  0 <= entries /\ (forall total, limit = Some total -> 0 <= total) /\
  exists r pool o, outstanding r = [] /\
    rtc tstep (mkTSys (start limit entries r pool o) (mkDiag default_diagnostics ∅) ∅) x.

(** ** The invariant *)

(** Where the sampled operations are. *)
Record marks_inv s D T : Prop := {
  mi_order : marked Sent D ⊆ marked Entered D /\ marked Entered D ⊆ marked Enqueued D;
  mi_used : marked Entered D ⊆ sy_used s;
  mi_enqueued : sy_status s = Running_ -> marked Enqueued D ⊆ sy_used s;
  mi_queued id : id ∈ queued_ids (sy_queue s) -> id ∈ traced D ->
    id ∈ marked Enqueued D /\ id ∉ marked Entered D;
  mi_pending : dom (d_pending (sy_drive s)) ∩ traced D = (marked Entered D) ∖ (marked Sent D);
  mi_taken id : id ∈ T -> id ∈ sy_used s /\ (id ∉ queued_ids (sy_queue s)) /\
    (sy_status s = Running_ -> id ∉ dom (d_pending (sy_drive s)))
}.

(** What the counts are. *)
Record counts_inv D T : Prop := {
  ci_admission : stage_count D Diagnostics.Admission = counted (marked Enqueued D);
  ci_queue : stage_count D Queue = counted (marked Entered D);
  ci_prepare : stage_count D Prepare = counted (marked Entered D);
  ci_lifetime : stage_count D Lifetime = counted (marked Sent D);
  ci_resume : stage_count D Resume = counted (marked Sent D ∩ T)
}.

(** ** Lemmas: counts *)

Lemma counts_call id m D D' T :
  counts_inv D T -> trace_call id (Some m) (mark_stages m) D D' -> id ∉ marked m D ->
  (m = Sent -> id ∉ T) -> counts_inv D' T.
Proof.
  intros [] [_ Hm Hc] Hid HT.
  destruct m; constructor; rewrite Hc, ?Hm; simpl;
    rewrite ?counted_add by done; try congruence.
  rewrite ci_resume0. f_equal. specialize (HT eq_refl). set_solver.
Qed.

(** A record that reaches no step. *)
Lemma counts_aside id sts D D' T :
  counts_inv D T -> trace_call id None sts D D' -> sts ⊆ [Diagnostics.Cqe] -> counts_inv D' T.
Proof.
  intros [] [_ Hm Hc] Hs.
  assert (Hno : forall st, st <> Diagnostics.Cqe -> stage_count D' st = stage_count D st).
  { intros st Hst. rewrite Hc, decide_False; [done|]. intros Hin. specialize (Hs _ Hin). set_solver. }
  constructor; rewrite Hno, ?Hm by done; done.
Qed.

(** ** Lemmas: steps *)

Lemma tstep_steps x y : tstep x y -> rtc (step limit) (ts_sys x) (ts_sys y).
Proof.
  intros [s s' D T [Hs _]|s D T id st _ _|s s' D T id clock D' Hs _ _ _|s D T id clock D' _ _ _ _
    |s D T m q t1 t2 b addr d' w' b' D' Hr Hq Ha Hi|s D T c r' t1 t2 t3 inp d' w' D' Hr Hn He
    |s D T id clock D' _ _ _ _]; simpl; try apply rtc_refl; apply rtc_once.
  - by eapply step_of_mono.
  - by eapply step_of_mono.
  - pose proof (intake_msg_erases t1 t2 (sy_drive s) (sy_world s) b D addr m) as Hm.
    unfold erases in Hm. rewrite Hi in Hm. destruct Hm as [Hm _]. by eapply StepIntake.
  - pose proof (reap_one_erases t1 t2 t3 (set_ring (sy_drive s) r' (d_backlog (sy_drive s)))
      (sy_world s) D c inp) as Hm.
    unfold erases in Hm. rewrite He in Hm. destruct Hm as [Hm _]. by eapply StepReap.
Qed.

Lemma quiet_frame n s s' :
  sys_inv limit n s -> quiet s s' ->
  dom (d_pending (sy_drive s')) = dom (d_pending (sy_drive s)) /\ sy_used s' = sy_used s /\
  (forall id, id ∈ queued_ids (sy_queue s') -> id ∈ queued_ids (sy_queue s)) /\
  (sy_status s' = Running_ -> sy_status s = Running_).
Proof.
  intros Hi (Hs & Hu & Hq). destruct Hs as
    [w' h' e' Hact|id f off n0 c pm al Hrun Hm Hid Hrx Hcl Hh He|m Hrun Hm|r' Hr
    |m q d' w' b b' addr Hrun Hqs Haddr Hit|Hrun|Hrun|c r' inp d' w' Hrun Hnext [] Hr
    |st prev warn Hrun Hup|env d' w' Hrun Hc|b Hrun|env d' w' Hrun Hc|env d' w' Hrun Hc];
    simpl in *; try by split_and!.
  - set_solver.
  - split_and!; [done..| |done]. intros i. by rewrite Hq.
  - specialize (Hq Hrun). rewrite Hqs in Hq. destruct m as [id f off n0 c pm al|id|].
    + apply (f_equal length) in Hq. simpl in Hq. lia.
    + injection Hit as <- <- <-. split_and!; [|done|by intros i; rewrite Hqs|done].
      unfold intake_cancel. destruct (d_pending (sy_drive s) !! id) as [p|] eqn:Hp; [|done].
      destruct (queue_cancel _ _ _). simpl. apply elem_of_dom_2 in Hp. set_solver.
    + injection Hit as <- <- <-. split_and!; [|done|by intros i; rewrite Hqs|done].
      unfold cancel_all. by destruct (queue_cancels _ _ _).
  - by rewrite submit_ring_table.
  - pose proof (check_exit_cases (sy_drive s) (sy_world s) env) as Hcases. rewrite Hc in Hcases.
    by destruct Hcases as [_ [->|[t ->]]].
  - pose proof (check_exit_cases (sy_drive s) (sy_world s) env) as Hcases. rewrite Hc in Hcases.
    destruct Hcases as (-> & _). split_and!; [done..| |done]. set_solver.
  - pose proof (check_exit_cases (sy_drive s) (sy_world s) env) as Hcases. rewrite Hc in Hcases.
    destruct Hcases as (t & -> & _). simpl. rewrite dom_fmap_L. split_and!; [done..| |done]. set_solver.
Qed.

Lemma send_frame s s' id :
  step_of limit (fun _ => False) s s' -> id ∉ sy_used s -> sy_used s' = {[id]} ∪ sy_used s ->
  sy_drive s' = sy_drive s /\ sy_status s = Running_ /\ sy_status s' = Running_ /\
  queued_ids (sy_queue s') = queued_ids (sy_queue s) ++ [id].
Proof.
  intros Hs Hid Hu. destruct Hs as [| i f off n c pm al Hrun _ Hi| | | | | | | | | | |]; simpl in *;
    try (set_solver + Hid Hu).
  assert (i = id) as -> by set_solver. split_and!; try done.
  unfold queued_ids. by rewrite omap_app.
Qed.

(** The intake of one message: nothing is recorded, or the thread accepts a
    read and records its arrival and its preparation. *)
Lemma intake_frame n s D m q t1 t2 b addr d' w' b' D' :
  sys_inv limit n s -> sy_status s = Running_ -> sy_queue s = m :: q -> 0 <= addr ->
  intake_msg_t t1 t2 (sy_drive s) (sy_world s) b D addr m = Some (d', w', b', D') ->
  D' = D /\ dom (d_pending d') = dom (d_pending (sy_drive s)) \/
  exists id, queued_ids (sy_queue s) = id :: queued_ids q /\
    (exists D1, enter_at id t1 D = Some D1 /\ prepared_at id t2 D1 = Some D') /\
    dom (d_pending d') = {[id]} ∪ dom (d_pending (sy_drive s)).
Proof.
  intros [_ Ha _ _] Hrun Hq Haddr Hi. rewrite Hq in *.
  destruct m as [id f off len c pm al|id|]; simpl in Hi.
  - pose proof (Forall_inv (ac_msgs _ _ _ _ _ _ _ _ _ Ha)) as (_ & -> & Hok & _).
    unfold intake_read_t in Hi. destruct (d_shutting_down _); [left; by simplify_eq|right].
    destruct (enter_at id t1 D) as [D1|] eqn:He; simpl in Hi; [|done].
    destruct (prepare_read_entry addr f off len al id pm Hok Haddr)
      as (p & ko & hd & rl & Hp & _). rewrite Hp in Hi.
    destruct (prepared_at id t2 D1) as [D2|] eqn:He2; simpl in Hi; [|done].
    simplify_eq. exists id. simpl. rewrite dom_insert_L. eauto.
  - left. simplify_eq. split; [done|]. unfold intake_cancel.
    destruct (d_pending (sy_drive s) !! id) as [p|] eqn:Hp; [|done].
    destruct (queue_cancel _ _ _). simpl. apply elem_of_dom_2 in Hp. set_solver.
  - left. simplify_eq. split; [done|]. unfold cancel_all. by destruct (queue_cancels _ _ _).
Qed.

(** One completion: the table keeps its operations and at most its processing
    is recorded, or an entry finishes. *)
Lemma reap_frame d w D c r' t1 t2 t3 inp d' w' D' :
  reap_one_t t1 t2 t3 (set_ring d r' (d_backlog d)) w D c inp = Some (d', w', D') ->
  dom (d_pending d') = dom (d_pending d) /\
    (D' = D \/ exists id, reaped_at id t1 t2 false D = Some D') \/
  exists id, id ∈ dom (d_pending d) /\ dom (d_pending d') = dom (d_pending d) ∖ {[id]} /\
    exists D1, reaped_at id t1 t2 true D = Some D1 /\ sending_at id t3 D1 = Some D'.
Proof.
  unfold reap_one_t. destruct (negb _); [intros [= <- <- <-]; simpl; auto|].
  simpl. destruct (d_pending d !! cqe_user_data c) as [p|] eqn:Hp; [|intros [= <- <- <-]; simpl; auto].
  unfold reap_entry_t. destruct (reap_read _ _ _ _ _) as [[p' [outcome|sq]]|]; simpl; [| |done].
  - destruct (reaped_at _ _ _ _ _) as [D1|] eqn:E1; simpl; [|done].
    destruct (sending_at _ _ _) as [D2|] eqn:E2; simpl; [|done].
    destruct (done_tx p') as [ch|]; simpl; [|done]. destruct (send w ch outcome) as [w1 ok].
    intros [= <- <- <-]. right. simpl. exists (cqe_user_data c).
    rewrite dom_delete_L. apply elem_of_dom_2 in Hp. eauto.
  - destruct (reaped_at _ _ _ _ _) as [D1|] eqn:E1; simpl; [|done].
    intros [= <- <- <-]. left. simpl. apply elem_of_dom_2 in Hp. split; [set_solver|eauto].
Qed.

Definition tinv n x : Prop :=
  sys_inv limit n (ts_sys x) /\ marks_inv (ts_sys x) (ts_diag x) (ts_taken x) /\
  counts_inv (ts_diag x) (ts_taken x).

Lemma tinv_quiet n s s' D T :
  tinv n (mkTSys s D T) -> sys_inv limit n s' -> quiet s s' -> tinv n (mkTSys s' D T).
Proof.
  intros (Hi & [] & Hc) Hi' Hq. destruct (quiet_frame n s s' Hi Hq) as (Hd & Hu & Hqs & Hr).
  split_and!; [done| |done]. constructor; simpl in *; rewrite ?Hd, ?Hu; auto.
  intros id Hid. destruct (mi_taken0 id Hid) as (? & ? & ?). split_and!; auto.
Qed.

Lemma tinv_sample n s D T id start :
  tinv n (mkTSys s D T) -> id ∉ sy_used s -> id ∉ traced D ->
  tinv n (mkTSys s (sample_at id start D) T).
Proof.
  intros (Hi & [] & []) Hu Hid. destruct (sample_marks id start D Hid) as (Hm & Ht1 & Ht2 & Hc).
  pose proof (si_accounts _ _ _ Hi) as Ha.
  assert (Hp : id ∉ dom (d_pending (sy_drive s))) by (pose proof (ac_used _ _ _ _ _ _ _ _ _ Ha); set_solver).
  split_and!; [done| |constructor; by rewrite ?Hc, ?Hm].
  constructor; simpl in *; rewrite ?Hm; auto.
  - intros i Hin Htr. apply mi_queued0; [done|].
    destruct (ac_queued _ _ _ _ _ _ _ _ _ Ha i Hin) as [Hiu _]. set_solver + Htr Ht1 Hu Hiu.
  - rewrite <-mi_pending0. set_solver + Hp Ht1 Ht2.
Qed.

(** A call that marks an operation if it is sampled. *)
Lemma call_marks id m D D' :
  (id ∈ traced D -> trace_call id (Some m) (mark_stages m) D D') -> (id ∉ traced D -> D' = D) ->
  traced D' = traced D /\ marked m D' = ({[id]} ∩ traced D) ∪ marked m D /\
  (forall m', m' <> m -> marked m' D' = marked m' D).
Proof.
  intros Hc Hn. destruct (decide (id ∈ traced D)) as [Ht|Ht].
  - destruct (Hc Ht) as [-> Hm _]. split_and!; [done| |].
    + rewrite Hm, decide_True by done. clear -Ht. set_solver.
    + intros m' Hne. rewrite Hm, decide_False; congruence.
  - rewrite (Hn Ht). split_and!; [done| |done]. clear -Ht. set_solver.
Qed.

Lemma call_counts id m D D' T :
  counts_inv D T -> id ∉ marked m D -> (m = Sent -> id ∉ T) ->
  (id ∈ traced D -> trace_call id (Some m) (mark_stages m) D D') -> (id ∉ traced D -> D' = D) ->
  counts_inv D' T.
Proof.
  intros Hi Hid HT Hc Hn. destruct (decide (id ∈ traced D)) as [Ht|Ht].
  - eapply counts_call; eauto.
  - by rewrite (Hn Ht).
Qed.

(** An operation is enqueued: before the thread has it, or when it is gone. *)
Lemma tinv_enqueue n s s' D T id clock D' :
  tinv n (mkTSys s D T) -> sys_inv limit n s' -> sy_drive s' = sy_drive s ->
  sy_status s' = sy_status s -> id ∉ marked Enqueued D -> id ∉ sy_used s ->
  sy_used s ⊆ sy_used s' -> (sy_status s = Running_ -> id ∈ sy_used s') ->
  (forall i, i ∈ queued_ids (sy_queue s') -> i = id \/ i ∈ queued_ids (sy_queue s)) ->
  enqueue_at id clock D = Some D' ->
  tinv n (mkTSys s' D' T).
Proof.
  intros (Hi & [[Ho1 Ho2] Hmu Hme Hmq Hmp Hmt] & Hcnt) Hi' Hd Hst Hnew Hun Hu Hid Hq HD. simpl in *.
  assert (Hcall : id ∈ traced D -> trace_call id (Some Enqueued) (mark_stages Enqueued) D D').
  { intros Ht. by eapply enqueue_call. }
  assert (Hnone : id ∉ traced D -> D' = D).
  { intros Ht. unfold enqueue_at in HD. rewrite untraced in HD by done. by simplify_eq. }
  destruct (call_marks id Enqueued D _ Hcall Hnone) as (Et & Em & Eo).
  pose proof (Eo Entered ltac:(done)) as Ee. pose proof (Eo Sent ltac:(done)) as Es.
  split_and!; [done| |by eapply call_counts]. simpl.
  constructor; rewrite ?Hd, ?Et, ?Em, ?Ee, ?Es, ?Hst.
  - set_solver + Ho1 Ho2.
  - set_solver + Hmu Hu.
  - intros Hr. specialize (Hme Hr). specialize (Hid Hr). set_solver + Hme Hid Hu.
  - intros i Hin Hit. destruct (Hq i Hin) as [->|Hin'].
    + set_solver + Hit Hun Hmu.
    + specialize (Hmq i Hin' Hit). set_solver + Hmq.
  - done.
  - intros i Hin. destruct (Hmt i Hin) as (Hiu & Hiq & Hip). split_and!; [by apply Hu| |done].
    intros Hin'. destruct (Hq i Hin') as [->|?]; done.
Qed.

(** The thread takes a message from the queue. *)
Lemma tinv_intake n s D T m q t1 t2 b addr d' w' b' D' :
  tinv n (mkTSys s D T) -> sy_status s = Running_ -> sy_queue s = m :: q -> 0 <= addr ->
  intake_msg_t t1 t2 (sy_drive s) (sy_world s) b D addr m = Some (d', w', b', D') ->
  sys_inv limit n (with_drive s d' w' q) ->
  tinv n (mkTSys (with_drive s d' w' q) D' T).
Proof.
  intros (Hi & [[Ho1 Ho2] Hmu Hme Hmq Hmp Hmt] & Hcnt) Hrun Hq Haddr Hstep Hi'. simpl in *.
  assert (Hsub : forall i, i ∈ queued_ids q -> i ∈ queued_ids (sy_queue s)).
  { intros i Hin. rewrite Hq. change (m :: q) with ([m] ++ q). unfold queued_ids.
    rewrite omap_app. set_solver + Hin. }
  pose proof (si_accounts _ _ _ Hi) as Ha.
  destruct (intake_frame n s D m q t1 t2 b addr d' w' b' D' Hi Hrun Hq Haddr Hstep)
    as [[-> Hp]|(id & Hids & (D1 & HD1 & HD2) & Hp)].
  { split_and!; [done| |done]. constructor; simpl; rewrite ?Hp; auto.
    intros i Hin. destruct (Hmt i Hin) as (? & ? & ?). split_and!; auto. }
  assert (Hid : id ∈ queued_ids (sy_queue s)) by (rewrite Hids; by left).
  destruct (ac_queued _ _ _ _ _ _ _ _ _ Ha id Hid) as [Hused _].
  assert (Hnd : id ∉ queued_ids q).
  { pose proof (ac_nodup _ _ _ _ _ _ _ _ _ Ha) as Hnd. rewrite Hids in Hnd. by apply NoDup_cons in Hnd as [? _]. }
  pose proof (intake_calls id t1 t2 D D1 D' HD1 HD2) as Hcall.
  pose proof (untraced_calls id _ _ D D1 D' HD1 HD2) as Hnone.
  destruct (call_marks id Entered D _ Hcall Hnone) as (Et & Em & Eo).
  pose proof (Eo Enqueued ltac:(done)) as Ee. pose proof (Eo Sent ltac:(done)) as Es.
  assert (Hent : id ∈ traced D -> id ∈ marked Enqueued D /\ id ∉ marked Entered D) by (by apply Hmq).
  pose proof (marked_traced Entered D) as Hmt'.
  split_and!; [done| |].
  2: { apply (call_counts id Entered D); [done| |done|done|done].
       intros Hin. destruct (Hent (Hmt' _ Hin)). done. }
  constructor; simpl; rewrite ?Et, ?Em, ?Ee, ?Es, ?Hp.
  - set_solver + Ho1 Ho2 Hent.
  - set_solver + Hmu Hused.
  - done.
  - intros i Hin Hit. pose proof (Hmq i (Hsub i Hin) Hit) as [? ?]. split; [done|].
    assert (i <> id) by congruence. set_solver.
  - set_solver + Hmp Hent Ho1.
  - intros i Hin. destruct (Hmt i Hin) as (Hiu & Hiq & Hip). split_and!; [done|auto|].
    intros Hr. specialize (Hip Hr). assert (i <> id) by congruence. set_solver.
Qed.

(** Marks are kept by a call that reaches no step. *)
Lemma marks_aside s D D' T :
  traced D' = traced D -> (forall m, marked m D' = marked m D) ->
  marks_inv s D T -> marks_inv s D' T.
Proof. intros Ht Hm []. constructor; rewrite ?Ht, ?Hm; auto. Qed.

(** The thread reaps a completion. *)
Lemma tinv_reap n s D T c r' t1 t2 t3 inp d' w' D' :
  tinv n (mkTSys s D T) -> sy_status s = Running_ ->
  reap_one_t t1 t2 t3 (set_ring (sy_drive s) r' (d_backlog (sy_drive s))) (sy_world s) D c inp =
    Some (d', w', D') ->
  sys_inv limit n (with_drive s d' w' (sy_queue s)) ->
  tinv n (mkTSys (with_drive s d' w' (sy_queue s)) D' T).
Proof.
  intros (Hi & Hm & Hcnt) Hrun Hstep Hi'. simpl in *.
  assert (Hkeep : dom (d_pending d') = dom (d_pending (sy_drive s)) ->
    marks_inv (with_drive s d' w' (sy_queue s)) D T).
  { intros Hp. destruct Hm. constructor; simpl; rewrite ?Hp; auto. }
  destruct (reap_frame _ _ _ _ _ _ _ _ _ _ _ _ Hstep)
    as [[Hp [->|[id HD]]]|(id & Hid & Hp & D1 & HD1 & HD2)]; [split_and!; auto| |].
  - destruct (decide (id ∈ traced D)) as [Ht|Ht].
    2: { unfold reaped_at in HD. rewrite (untraced id) in HD by done. simplify_eq. split_and!; auto. }
    pose proof (reaped_call id t1 t2 false D D' Ht HD) as Hcall. split_and!; [done| |]; simpl.
    + destruct Hcall as [Et Em _].
      eapply marks_aside; [exact Et| |by apply Hkeep]. intros m. by rewrite Em.
    + by eapply counts_aside.
  - pose proof (finish_calls id t1 t2 t3 D D1 D' HD1 HD2) as Hcall.
    pose proof (untraced_calls id _ _ D D1 D' HD1 HD2) as Hnone.
    destruct (call_marks id Sent D _ Hcall Hnone) as (Et & Em & Eo).
    pose proof (Eo Enqueued ltac:(done)) as Ee. pose proof (Eo Entered ltac:(done)) as En.
    destruct Hm as [[Ho1 Ho2] Hmu Hme Hmq Hmp Hmt].
    assert (Hnt : id ∉ T) by (intros Hin; by apply Hmt in Hin as (_ & _ & Hin); apply Hin in Hrun).
    pose proof (marked_traced Sent D) as Hst.
    split_and!; [done| |]; simpl.
    + constructor; simpl; rewrite ?Et, ?Em, ?Ee, ?En, ?Hp.
      * set_solver + Ho1 Ho2 Hmp Hid.
      * done.
      * done.
      * done.
      * set_solver + Hmp Hid.
      * intros i Hin. destruct (Hmt i Hin) as (? & ? & Hip). split_and!; [done..|].
        intros Hr. specialize (Hip Hr). set_solver + Hip.
    + apply (call_counts id Sent D); [done| |done|done|done].
      set_solver + Hmp Hid Hst.
Qed.

(** A handle takes its answer. *)
Lemma tinv_receive n s D T id clock D' :
  tinv n (mkTSys s D T) -> id ∈ sy_used s -> id ∉ T -> os_rx (w_chan (sy_world s)) id <> RxEmpty ->
  received_at id clock D = Some D' ->
  tinv n (mkTSys s D' ({[id]} ∪ T)).
Proof.
  intros (Hi & Hm & Hcnt) Hu Hid Hrx HD. simpl in *.
  pose proof (ac_waiting _ _ _ _ _ _ _ _ _ (si_accounts _ _ _ Hi) id Hu) as Hw.
  assert (Hm' : marks_inv s D ({[id]} ∪ T)).
  { destruct Hm. constructor; try done. intros i [->%elem_of_singleton|Hin]%elem_of_union; [|auto].
    split_and!; [done|tauto|]. intros Hr Hin. apply Hrx, Hw. right. by rewrite Hr. }
  destruct (decide (id ∈ traced D)) as [Ht|Ht].
  - destruct (received_call id clock D D' Ht HD) as [Et Em Ec]. split_and!; [done| |]; simpl.
    { eapply marks_aside; [exact Et| |done]. intros m. by rewrite Em. }
    destruct Hcnt. destruct (decide (id ∈ marked Sent D)) as [Hs|Hs];
      constructor; rewrite Ec, ?Em; simpl; try done.
    + rewrite ci_resume0, <-(counted_add _ id) by (set_solver + Hid). f_equal. set_solver + Hs.
    + rewrite ci_resume0. f_equal. set_solver + Hs.
  - unfold received_at in HD. rewrite (untraced id) in HD by done. simplify_eq.
    split_and!; [done|done|]. simpl.
    pose proof (marked_traced Sent D') as Hst. destruct Hcnt. constructor; try done.
    rewrite ci_resume0. f_equal. set_solver + Hst Ht.
Qed.

Lemma tstep_inv n x y : tinv n x -> tstep x y -> tinv n y.
Proof.
  intros Hx Hstep. pose proof (tstep_steps x y Hstep) as Hs. pose proof (proj1 Hx) as Hi.
  pose proof (steps_inv limit n _ _ Hi Hs) as Hi'.
  destruct Hstep as [s s' D T Hq|s D T id st Hu Ht|s s' D T id clock D' Hsd Hid Hu HD
    |s D T id clock D' Hr Hid He HD|s D T m q t1 t2 b addr d' w' b' D' Hr Hq Ha Hin
    |s D T c r' t1 t2 t3 inp d' w' D' Hr Hn He|s D T id clock D' Hu Hid Hrx HD]; simpl in *.
  - by eapply tinv_quiet.
  - by apply tinv_sample.
  - destruct (send_frame s s' id Hsd Hid Hu) as (Hd & Hr & Hr' & Hq).
    pose proof (mi_enqueued _ _ _ (proj1 (proj2 Hx)) Hr) as Henq. simpl in Henq.
    eapply (tinv_enqueue n s s' D T id clock D'); try done; rewrite ?Hu, ?Hr, ?Hr'; try (set_solver + Henq Hid).
    intros i. rewrite Hq, elem_of_app, list_elem_of_singleton. tauto.
  - eapply (tinv_enqueue n s s D T id clock D'); try done. by auto.
  - by eapply tinv_intake.
  - by eapply tinv_reap.
  - by eapply tinv_receive.
Qed.

Lemma treachable_inv n x : treachable n x -> tinv n x.
Proof.
  intros (Hn & Hl & r & pool & o & Hr & Hs).
  assert (Hx : tinv n (mkTSys (start limit n r pool o) (mkDiag default_diagnostics ∅) ∅)).
  { split_and!; simpl; [by apply start_inv| |].
    - constructor; simpl; try set_solver. 
    - constructor; done. }
  revert Hx. induction Hs as [|x y z Hxy _ IH]; [done|]. intros Hx. by apply IH, (tstep_inv n x).
Qed.

(** ** The code's loop *)

Lemma quiet_step s s' D T :
  step_of limit (fun _ => False) s s' -> sy_used s' = sy_used s ->
  (sy_status s' = Running_ -> queued_ids (sy_queue s') = queued_ids (sy_queue s)) ->
  tstep (mkTSys s D T) (mkTSys s' D T).
Proof. intros. by apply TQuiet. Qed.

Lemma intake_t_steps fuel env ck disc s D T b d' w' b' D' q' :
  sy_status s = Running_ -> (forall i, 0 <= te_addr env i) ->
  intake_t fuel env ck disc (sy_drive s) (sy_world s) b D (sy_queue s) =
    Some (d', w', b', D', q') ->
  rtc tstep (mkTSys s D T) (mkTSys (with_drive s d' w' q') D' T).
Proof.
  intros Hs Haddr. revert s b D Hs. induction fuel as [|fuel IH]; intros s b D Hs; simpl.
  { intros [= <- <- <- <- <-]. by rewrite with_drive_id. }
  destruct (can_take_message b); [|intros [= <- <- <- <- <-]; by rewrite with_drive_id].
  destruct (sy_queue s) as [|m q] eqn:Hq.
  { intros [= <- <- <- <- <-]. rewrite <-Hq. destruct disc; [|rewrite with_drive_id; done].
    apply rtc_once, quiet_step; [by apply StepDisconnect | done | done]. }
  destruct (intake_msg_t _ _ _ _ _ _ _ _) as [[[[d1 w1] b1] D1]|] eqn:Hi; simpl; [|done].
  intros Hr. eapply rtc_l; [eapply TIntake; eauto|].
  by apply (IH (with_drive s d1 w1 q) b1 D1).
Qed.

Lemma reap_t_steps fuel env ck s D T b d' w' b' D' :
  sy_status s = Running_ ->
  reap_t fuel env ck (sy_drive s) (sy_world s) b D = Some (d', w', b', D') ->
  rtc tstep (mkTSys s D T) (mkTSys (with_drive s d' w' (sy_queue s)) D' T).
Proof.
  intros Hs. revert s b D Hs. induction fuel as [|fuel IH]; intros s b D Hs; simpl.
  { intros [= <- <- <- <-]. by rewrite with_drive_id. }
  destruct (can_reap b); [|intros [= <- <- <- <-]; by rewrite with_drive_id].
  destruct (cq_next _) as [[c r']|] eqn:Hn; [|intros [= <- <- <- <-]; by rewrite with_drive_id].
  destruct (reap_one_t _ _ _ _ _ _ _ _) as [[[d1 w1] D1]|] eqn:Hi; simpl; [|done].
  intros Hr. eapply rtc_l; [eapply TReap; eauto|].
  by apply (IH (with_drive s d1 w1 (sy_queue s)) (count_completion b) D1).
Qed.

Lemma exit_t_step env s D T :
  sy_status s = Running_ ->
  tstep (mkTSys s D T) (mkTSys (turn_sys s (check_exit (sy_drive s) (sy_world s) env) (sy_queue s)) D T).
Proof.
  intros Hs. pose proof (check_exit_step limit (ok := fun _ => False) env s Hs) as Hc.
  apply quiet_step; [done|by destruct (check_exit _ _ _)|].
  by destruct (check_exit _ _ _).
Qed.

Lemma turn_t_steps env ck disc s D T e q D' :
  sy_status s = Running_ -> (forall i, 0 <= te_addr env i) ->
  turn_t env ck disc (sy_drive s) (sy_world s) D (sy_queue s) = TurnEndT e q D' ->
  rtc tstep (mkTSys s D T) (mkTSys (turn_sys s e q) D' T).
Proof.
  intros Hs Haddr. unfold turn_t. generalize (Z.to_nat TURN_MESSAGES), (Z.to_nat TURN_COMPLETIONS).
  intros fuel1 fuel2.
  destruct (intake_t _ _ _ _ _ _ _ _ _) as [[[[[d1 w1] b1] D1] q1]|] eqn:Hi; [|done].
  apply (intake_t_steps _ _ _ _ _ _ T) in Hi; [|done..].
  set (s1 := with_drive s d1 w1 q1) in *.
  pose proof (quiet_step s1 _ D1 T (StepSubmit _ _ s1 Hs) eq_refl (fun _ => eq_refl)) as Hs1.
  simpl in Hs1. destruct (submit_ring d1) as [d2 n1]. simpl in Hs1.
  destruct (reap_t _ _ _ _ _ _ _) as [[[[d3 w3] b3] D3]|] eqn:Hr; [|done].
  apply (reap_t_steps _ _ _ (with_drive s1 d2 w1 q1) _ T) in Hr; [|done].
  set (s3 := with_drive s d3 w3 q1). change (with_drive _ d3 w3 _) with s3 in Hr.
  pose proof (quiet_step s3 _ D3 T (StepSubmit _ _ s3 Hs) eq_refl (fun _ => eq_refl)) as Hs3.
  simpl in Hs3. destruct (submit_ring d3) as [d4 n2]. simpl in Hs3.
  destruct (update_cq_overflow _ _ _) as [[st prev] warn] eqn:Hov.
  pose proof (quiet_step _ _ D3 T (StepOverflow limit _ (with_drive s3 d4 w3 q1) st prev warn Hs Hov)
    eq_refl (fun _ => eq_refl)) as Hs4.
  set (s5 := with_drive _ (set_overflow _ st prev) _ _) in Hs4.
  pose proof (exit_t_step env s5 D3 T Hs) as Hs5. simpl in Hs5.
  assert (Hrtc : rtc tstep (mkTSys s D T) (mkTSys s5 D3 T)).
  { etrans; [exact Hi|]. eapply rtc_l; [exact Hs1|]. etrans; [exact Hr|].
    eapply rtc_l; [exact Hs3|]. by apply rtc_once. }
  intros [= <- <- <-]. destruct (check_exit _ _ _) as [d6 w6|d6 w6|d6 w6].
  - eapply rtc_r; [eapply rtc_r; [exact Hrtc | exact Hs5]|].
    apply quiet_step; [|done|done]. apply (StepPace limit _ (with_drive s5 d6 w6 q1)). done.
  - eapply rtc_r; [exact Hrtc | exact Hs5].
  - eapply rtc_r; [exact Hrtc | exact Hs5].
Qed.

Lemma turn_treachable n env ck disc s D T e q D' :
  treachable n (mkTSys s D T) -> sy_status s = Running_ -> (forall i, 0 <= te_addr env i) ->
  turn_t env ck disc (sy_drive s) (sy_world s) D (sy_queue s) = TurnEndT e q D' ->
  treachable n (mkTSys (turn_sys s e q) D' T).
Proof.
  intros (Hn & Hl & r & pool & o & Hr & Hs) Hrun Haddr Ht. split_and!; [done..|].
  exists r, pool, o. split; [done|]. etrans; [exact Hs|]. by eapply turn_t_steps.
Qed.

Lemma counted_split (X Y : gset Z) : X ⊆ Y -> counted Y = wadd (counted X) (Z.of_nat (size (Y ∖ X))).
Proof.
  intros Hs. unfold counted, wadd, wrap. rewrite Z.add_mod_idemp_l by done.
  rewrite (union_difference_L X Y Hs) at 1. rewrite size_union by set_solver. f_equal. lia.
Qed.

(** ** Properties *)

(** [C38] The stage counts of a shard's diagnostics are conserved in every state its
    executions reach, modulo the 64-bit wrap-around: as many arrivals are counted as
    preparations; the prepared reads are the finished ones and the sampled reads in the
    pending table; the admitted ones are those that arrived and the sampled ones still queued
    or refused; the finished ones are those whose answer was taken and those whose answer
    waits. At a quiescent point the driver's three stages agree. The loop of the driver
    thread with its records stays within these executions. *)
Theorem stages_conserved n x :
  treachable n x ->
  let s := ts_sys x in
  let D := ts_diag x in
  stage_count D Queue = stage_count D Prepare /\
  stage_count D Prepare = wadd (stage_count D Lifetime)
    (Z.of_nat (size (dom (d_pending (sy_drive s)) ∩ traced D))) /\
  (exists waiting : gset Z, stage_count D Diagnostics.Admission =
       wadd (stage_count D Queue) (Z.of_nat (size waiting)) /\
     waiting ⊆ traced D /\ waiting ## dom (d_pending (sy_drive s)) /\
     forall id, id ∈ queued_ids (sy_queue s) -> id ∈ traced D -> id ∈ waiting) /\
  (exists answered : gset Z, stage_count D Lifetime =
       wadd (stage_count D Resume) (Z.of_nat (size answered)) /\
     answered ⊆ traced D /\ answered ## dom (d_pending (sy_drive s)) /\
     answered ## ts_taken x) /\
  (d_pending (sy_drive s) = ∅ -> stage_count D Prepare = stage_count D Lifetime) /\
  (forall env ck disc e q D', sy_status s = Running_ -> (forall i, 0 <= te_addr env i) ->
     turn_t env ck disc (sy_drive s) (sy_world s) D (sy_queue s) = TurnEndT e q D' ->
     treachable n (mkTSys (turn_sys s e q) D' (ts_taken x))).
Proof.
  intros Hr. pose proof (treachable_inv _ _ Hr) as (_ & [[Ho1 Ho2] _ _ Hq Hp _] & []).
  pose proof (fun m => marked_traced m (ts_diag x)) as Ht.
  pose proof (Ht Enqueued) as Hte. pose proof (Ht Sent) as Hts. cbn zeta. split_and!.
  - congruence.
  - rewrite ci_prepare0, ci_lifetime0, Hp. by apply counted_split.
  - exists (marked Enqueued (ts_diag x) ∖ marked Entered (ts_diag x)). split_and!.
    + rewrite ci_admission0, ci_queue0. by apply counted_split.
    + set_solver + Hte.
    + set_solver + Hp Hte.
    + intros id Hin Htr. apply elem_of_difference. by apply Hq.
  - exists (marked Sent (ts_diag x) ∖ (marked Sent (ts_diag x) ∩ ts_taken x)). split_and!.
    + rewrite ci_lifetime0, ci_resume0. apply counted_split. set_solver +.
    + set_solver + Hts.
    + set_solver + Hp Hts.
    + set_solver +.
  - intros He. rewrite He, dom_empty_L in Hp. rewrite ci_prepare0, ci_lifetime0.
    apply (f_equal counted), set_eq. intros i.
    destruct (decide (i ∈ marked Sent (ts_diag x))); set_solver.
  - intros env ck disc e q D' Hs Ha Hturn. destruct x. by eapply turn_treachable.
Qed.
End Counts.

(** ** Witness *)

(** The sampled read of [Traced.v], enqueued by its caller. *)
Definition demo_traced : Diag := default demo_sampled (enqueue_at 0 7 demo_sampled).

Lemma demo_traced_reachable hold :
  treachable (Some 4096) 4 (mkTSys (demo_shard hold []) demo_traced ∅).
Proof.
  split; [lia|]. split; [by intros ? [= <-]|].
  exists (demo_ring hold), (mkPool 1 1 ∅), (∅ : chans). split; [done|].
  eapply rtc_l; [by apply (TSample _ _ _ _ 0 5); set_solver|].
  eapply rtc_l.
  { apply TQuiet. split; [|split].
    - apply (StepCallers _ _ _ demo_world 1 100). constructor; simpl; try (done || lia).
    - done.
    - done. }
  eapply rtc_l; [|apply rtc_refl].
  assert (Hend : demo_shard hold [] = mkSys (new_drive (demo_ring hold)) demo_world
    ([] ++ [MsgRead 0 demo_file 10 100 0 demo_permits 1]) ({[0]} ∪ ∅) (1 - 1)
    (100 - default 0 (permit_bytes demo_permits)) Running_) by (vm_compute; done).
  apply (TSend _ _ _ _ _ 0 7); simpl; [|set_solver|set_solver|vm_compute; reflexivity].
  rewrite Hend. apply StepSend; simpl; try (done || lia). exact demo_msg_ok.
Qed.

(** The shard after one turn: the read is held by the kernel, or delivered. *)
Definition demo_turned (hold : bool) : TSys ring sem chans :=
  let s := demo_shard hold [] in
  match turn_t (demo_env 0) demo_clock false (sy_drive s) (sy_world s) demo_traced (sy_queue s) with
  | TurnEndT e q D => mkTSys (turn_sys s e q) D ∅
  | TurnPanicT => mkTSys s demo_traced ∅
  end.

Lemma demo_turned_reachable hold : treachable (Some 4096) 4 (demo_turned hold).
Proof.
  unfold demo_turned. cbv zeta. destruct (turn_t _ _ _ _ _ _ _) as [e q D|] eqn:Ht;
    [|apply demo_traced_reachable].
  eapply turn_treachable; [apply demo_traced_reachable | done | apply demo_env_addr | exact Ht].
Qed.

Example demo_counts :
  stage_count (ts_diag (demo_turned true)) <$>
    [Diagnostics.Admission; Queue; Prepare; Lifetime; Diagnostics.Cqe; Resume] = [1; 1; 1; 0; 0; 0] /\
  (fun D => stage_count D <$>
    [Diagnostics.Admission; Queue; Prepare; Lifetime; Diagnostics.Cqe; Resume]) <$>
    received_at 0 40 (ts_diag (demo_turned false)) = Some [1; 1; 1; 1; 1; 1].
Proof. split; vm_compute; reflexivity. Qed.

Lemma stages_conserved_witness :
  let s := ts_sys (demo_turned true) in
  let D := ts_diag (demo_turned true) in
  treachable (Some 4096) 4 (demo_turned true) /\ size (d_pending (sy_drive s)) = 1%nat /\
  stage_count D Prepare = wadd (stage_count D Lifetime)
    (Z.of_nat (size (dom (d_pending (sy_drive s)) ∩ traced D))).
Proof.
  cbn zeta. split; [apply demo_turned_reachable|]. split; [vm_compute; reflexivity|].
  exact (proj1 (proj2 (stages_conserved (Some 4096) 4 (demo_turned true) (demo_turned_reachable true)))).
Defined.
