(* ===== verification/Settings.v ===== *)
(** * Settings of the benchmarks

    [src/examples/common/mod.rs]: bounded settings read from the environment,
    with the standard library's parsing of unsigned decimal numbers. *)

From S2P Require Import Prelude Diagnostics.
From stdpp Require Import pretty.
From Stdlib Require Import Ascii.

Open Scope Z_scope.

(** ** Results

    [Result<A, E>] is [A + E]; [try_] is the [?] operator. *)
Definition try_ {A B E} (r : A + E) (k : A -> B + E) : B + E :=
  match r with inl v => k v | inr e => inr e end.

Definition map_err {A E E'} (f : E -> E') (r : A + E) : A + E' :=
  match r with inl v => inl v | inr e => inr (f e) end.

Definition ok_or {A E} (o : option A) (e : E) : A + E :=
  match o with Some v => inl v | None => inr e end.

Notation "'let!' x := r 'in' k" := (try_ r (fun x => k))
  (at level 10, x pattern, r at level 100, k at level 200) : uring_scope.

(** ** [str::parse] for an unsigned type with the given maximum *)

Definition digit_of (c : Ascii.ascii) : option Z :=
  let n := Z.of_nat (Ascii.nat_of_ascii c) in
  if (48 <=? n) && (n <=? 57) then Some (n - 48) else None.

(** [None] for a character that is no digit or a value out of range. *)
Fixpoint parse_digits (max acc : Z) (s : string) : option Z :=
  match s with
  | EmptyString => Some acc
  | String c s =>
      d ← digit_of c;
      let acc := acc * 10 + d in
      if acc <=? max then parse_digits max acc s else None
  end.

(** A leading plus sign is accepted, a minus sign is not. *)
Definition parse_unsigned (max : Z) (s : string) : option Z :=
  match s with
  | EmptyString => None
  | String c rest =>
      if bool_decide (c = "+"%char)
      then match rest with EmptyString => None | _ => parse_digits max 0 rest end
      else parse_digits max 0 s
  end.

(** ** The environment *)

Inductive env_value := EnvAbsent | EnvNotUnicode | EnvSet (raw : string).

Definition env_is (v : env_value) (s : string) : bool :=
  match v with EnvSet raw => bool_decide (raw = s) | _ => false end.

(** What the code reports as a message. *)
Inductive setting_error :=
| NotAnInteger (name : string)
| NotReadable (name : string)
| OutOfRange (name : string) (lo hi : Z)
| NeedsDiagnostics
| NotAPowerOfTwo (name : string).

Section Settings.
Context `{Target}.
Implicit Types env : string -> env_value.

(** [setting]. *)
Definition setting env (name : string) (default lo hi : Z) : Z + setting_error :=
  let! v :=
    match env name with
    | EnvSet raw => ok_or (parse_unsigned usize_max raw) (NotAnInteger name)
    | EnvAbsent => inl default
    | EnvNotUnicode => inr (NotReadable name)
    end in
  if (lo <=? v) && (v <=? hi) then inl v else inr (OutOfRange name lo hi).

(** [workers], with the [diagnostics] feature and what
    [available_parallelism] answers. *)
Definition workers env (diagnostics : bool) (parallelism : option Z) : Z + setting_error :=
  if env_is (env "BENCH_DIAGNOSTICS") "1" && negb diagnostics then inr NeedsDiagnostics
  else
    let default := match parallelism with Some n => n | None => 1 end in
    setting env "BENCH_WORKERS" default 1 1024.

(** [ring_entries]. *)
Definition ring_entries env (default : Z) : Z + setting_error :=
  let! entries := setting env "BENCH_RING_ENTRIES" default 1 32768 in
  if is_power_of_two entries then inl (wrap u32_max entries)
  else inr (NotAPowerOfTwo "BENCH_RING_ENTRIES").

(** [diagnostics_interval], with the [diagnostics] feature. *)
Definition diagnostics_interval (diagnostics : bool) : Z :=
  if diagnostics then DIAGNOSTICS_SAMPLE_INTERVAL else 0.

(** [{:?}] of an array of [u64]. *)
Definition debug_u64s (l : list Z) : string :=
  ("[" ++ String.concat ", " (pretty <$> l) ++ "]")%string.

(** A line of [report_diagnostics]. *)
Definition diagnostics_line (stage : string) (histogram : LatencyHistogram) : string :=
  ("DIAGNOSTICS stage=" ++ stage ++ " interval=" ++ pretty DIAGNOSTICS_SAMPLE_INTERVAL
   ++ " count=" ++ pretty (count histogram) ++ " total_ns=" ++ pretty (total_nanos histogram)
   ++ " buckets=" ++ debug_u64s (buckets histogram))%string.

(** [report_diagnostics]: the lines it prints. *)
Definition report_diagnostics env (snapshot : DiagnosticsSnapshot) : list string :=
  if negb (env_is (env "BENCH_DIAGNOSTICS") "1") then []
  else
    (fun stage => diagnostics_line stage.1 stage.2) <$>
      [("admission", admission snapshot); ("driver_queue", driver_queue snapshot);
       ("preparation", preparation snapshot); ("driver_lifetime", driver_lifetime snapshot);
       ("cqe_processing", cqe_processing snapshot);
       ("completion_to_poll", completion_to_poll snapshot)].
End Settings.

(** ** Lemmas *)

Example report_first_line :
  (fun d => head (report_diagnostics (fun _ => EnvSet "1") (stages d))) <$>
    record_stage default_diagnostics Admission 0
  = Some (Some (diagnostics_line "admission" (mkHistogram 1 0 (1 :: repeat 0 63)))).
Proof. reflexivity. Qed.

Example diagnostics_line_text :
  diagnostics_line "admission" (mkHistogram 2 30 [0; 2])
  = "DIAGNOSTICS stage=admission interval=64 count=2 total_ns=30 buckets=[0, 2]"%string.
Proof. reflexivity. Qed.

Lemma try_inl {A B E} (r : A + E) (k : A -> B + E) b :
  try_ r k = inl b <-> exists a, r = inl a /\ k a = inl b.
Proof. destruct r; simpl; split; [eauto | by intros (? & [= <-] & ?) | done | by intros (? & ? & _)]. Qed.

Lemma ok_or_inl {A E} (o : option A) (e : E) v : ok_or o e = inl v <-> o = Some v.
Proof. destruct o; simpl; split; congruence. Qed.

Lemma map_err_inl {A E E'} (f : E -> E') (r : A + E) v : map_err f r = inl v <-> r = inl v.
Proof. destruct r; simpl; split; congruence. Qed.

Lemma digit_of_range c d : digit_of c = Some d -> 0 <= d <= 9.
Proof. unfold digit_of. case_match; [|done]. bools. intros [= <-]. lia. Qed.

Lemma parse_digits_range max acc s v :
  0 <= acc <= max -> parse_digits max acc s = Some v -> in_range max v.
Proof.
  revert acc. induction s as [|c s IH]; intros acc Hacc; simpl; [by intros [= <-]|].
  destruct (digit_of c) as [d|] eqn:Hd; [|done]. simpl.
  apply digit_of_range in Hd. case_match; [|done]. bools. apply IH. lia.
Qed.

(** A parsed number is in the range of its type. *)
Lemma parse_unsigned_range max s v : 0 <= max -> parse_unsigned max s = Some v -> in_range max v.
Proof.
  intros Hm. unfold parse_unsigned. destruct s as [|c rest]; [done|].
  case_match; [destruct rest; [done|]|]; apply parse_digits_range; lia.
Qed.

Lemma digit_of_pretty n : (n < 10)%N -> digit_of (pretty_N_char n) = Some (Z.of_N n).
Proof.
  intros Hn. destruct n as [|p]; [done|].
  do 4 (destruct p as [p|p|]; try (done || lia)).
Qed.

(** The digits of [n] in front of [s]. *)
Lemma parse_digits_pretty max n s acc :
  0 <= acc -> (0 < n)%N ->
  exists k, 0 < k /\ parse_digits max acc (pretty_N_go n s) =
    if acc * k + Z.of_N n <=? max then parse_digits max (acc * k + Z.of_N n) s else None.
Proof.
  intros Hacc. revert s. induction (N.lt_wf_0 n) as [n _ IH]. intros s Hn.
  rewrite pretty_N_go_step by done.
  destruct (decide (n < 10)%N) as [Hlt|Hge].
  - rewrite N.div_small, N.mod_small, pretty_N_go_0 by done. exists 10. split; [lia|].
    simpl. rewrite digit_of_pretty by done. done.
  - destruct (IH (n `div` 10)%N) with (s := String (pretty_N_char (n `mod` 10)) s) as (k & Hk & ->).
    { apply N.div_lt; lia. } { apply N.div_str_pos. lia. }
    exists (k * 10). split; [lia|]. simpl.
    rewrite digit_of_pretty by (apply N.mod_lt; lia). simpl.
    replace ((acc * k + Z.of_N (n `div` 10)) * 10 + Z.of_N (n `mod` 10))
      with (acc * (k * 10) + Z.of_N n).
    2: { pose proof (N.div_mod' n 10). lia. }
    case_match eqn:E; [done|]. bools. rewrite (proj2 (Z.leb_gt _ _)); [done|].
    assert (0 <= acc * k) by (apply Z.mul_nonneg_nonneg; lia).
    assert (n `div` 10 <= n)%N by (apply N.Div0.div_le_upper_bound; lia).
    rewrite Z.mul_assoc. lia.
Qed.

(** Printing a number of the type and parsing it gives it back. *)
Lemma parse_pretty max (n : N) : Z.of_N n <= max -> parse_unsigned max (pretty n) = Some (Z.of_N n).
Proof.
  intros Hn. unfold pretty, pretty_N. case_decide as H0; [subst; simpl|].
  { unfold parse_unsigned. simpl. by rewrite (proj2 (Z.leb_le _ _)). }
  destruct (parse_digits_pretty max n "" 0) as (k & _ & Hp); [lia..|].
  rewrite Z.mul_0_l, Z.add_0_l, (proj2 (Z.leb_le _ _)) in Hp by done. simpl in Hp.
  unfold parse_unsigned. destruct (pretty_N_go n "") as [|c rest]; [|case_bool_decide as Hc].
  - injection Hp as Hp. lia.
  - subst c. done.
  - done.
Qed.

Lemma setting_range `{Target} env name default lo hi v :
  setting env name default lo hi = inl v -> lo <= v <= hi.
Proof. intros (a & _ & Ha)%try_inl. case_match; [|done]. bools. injection Ha as <-. lia. Qed.

(** The ring depth a benchmark uses is a power of two that [io_uring] accepts;
    the cast to [u32] keeps it. *)
Lemma ring_entries_ok `{Target} env default v :
  ring_entries env default = inl v -> 1 <= v <= 32768 /\ is_power_of_two v = true.
Proof.
  intros (e & Hs%setting_range & He)%try_inl. case_match; [|done]. injection He as <-.
  rewrite wrap_small by (unfold in_range, u32_max; lia). done.
Qed.

(** A setting that is absent takes its default, if that is in range. *)
Lemma setting_default `{Target} env name default lo hi :
  env name = EnvAbsent -> lo <= default <= hi -> setting env name default lo hi = inl default.
Proof.
  unfold setting. intros -> ?. simpl. by rewrite !(proj2 (Z.leb_le _ _)) by lia.
Qed.
