(* ===== verification/FaultInjection.v ===== *)
(** * Fault injection

    The [fault-injection] feature of [src/src/driver.rs]: the message that
    panics a driver thread, the environment variables that shorten the drain
    deadline and drop completions (those of the start-up are in [Startup.v]).
    The driver's loop with the feature's code in it is related to
    [turn] of [Driver.v], the loop of a default build. *)

From S2P Require Import Prelude IoError Geometry Interfaces Instances SharedBudget.
From S2P Require Import Pending ReadRun World TurnBudget SubmitRing Driver Ownership.
From S2P Require Import System Safety Turn Guarantees Shutdown Startup Client Requests Settings.

Open Scope Z_scope.

(** ** Data *)

(** [Msg] with the variant of the feature. *)
Inductive FaultMsg := Regular (m : Msg) | TestPanic.

Definition regular (m : FaultMsg) : option Msg :=
  match m with Regular m => Some m | TestPanic => None end.

(** What a driver thread reads from the environment when it starts:
    [RUSTFS_URING_FAULT_DRAIN_TIMEOUT_MS] and whether
    [RUSTFS_URING_FAULT_STUCK_DRAIN] is set. *)
Record Faults := mkFaults { drain_timeout_ms : env_value; fault_stuck_drain : bool }.

Definition no_faults : Faults := mkFaults EnvAbsent false.

(** [drain_timeout], in milliseconds. *)
Definition drain_timeout (fl : Faults) : Z :=
  match drain_timeout_ms fl with
  | EnvSet raw => default DRAIN_TIMEOUT (parse_unsigned u64_max raw)
  | _ => DRAIN_TIMEOUT
  end.

Section Faults.
Context {R Sm Ch : Type} `{Ring R} `{Semaphore Sm} `{Oneshot Ch} `{Target} `{HashOrder}.
Implicit Types (d : Drive R) (w : World Sm Ch) (b : TurnBudget) (fl : Faults).

(** ** The loop with the feature's code *)

(** A phase ends with its result or panics in the driver state given. *)
Inductive phase (A : Type) := Ran (a : A) | Panics (d : Drive R).
Arguments Ran {_}.
Arguments Panics {_}.

Definition intake_msg_f d w b (addr : Z) (m : FaultMsg) : option (Drive R * World Sm Ch * TurnBudget) :=
  match m with
  | Regular m => intake_msg d w b addr m
  | TestPanic => None
  end.

Fixpoint intake_f (fuel : nat) (env : TurnEnv) (disconnected : bool) d w b (q : list FaultMsg) :
    phase (Drive R * World Sm Ch * TurnBudget * list FaultMsg) :=
  match fuel with
  | O => Ran (d, w, b, q)
  | S fuel =>
      if can_take_message b then
        match q with
        | [] => Ran (if disconnected then set_shutting_down d else d, w, b, [])
        | m :: q =>
            match intake_msg_f d w (count_message b) (te_addr env (messages b)) m with
            | None => Panics d
            | Some (d', w', b') => intake_f fuel env disconnected d' w' b' q
            end
        end
      else Ran (d, w, b, q)
  end.

(** The completion of a pending read that a stuck drain drops. *)
Definition dropped_by_fault fl d (c : Cqe) : bool :=
  (Z.land (cqe_user_data c) CANCEL_BIT =? 0) && fault_stuck_drain fl &&
  bool_decide (is_Some (d_pending d !! cqe_user_data c)).

Definition reap_one_f fl d w (c : Cqe) (inp : ReapInput) : option (Drive R * World Sm Ch) :=
  if dropped_by_fault fl d c then Some (d, w) else reap_one d w c inp.

Fixpoint reap_f fl (fuel : nat) (env : TurnEnv) d w b : phase (Drive R * World Sm Ch * TurnBudget) :=
  match fuel with
  | O => Ran (d, w, b)
  | S fuel =>
      if can_reap b then
        match cq_next (d_ring d) with
        | None => Ran (d, w, b)
        | Some (c, r') =>
            let d := set_ring d r' (d_backlog d) in
            match reap_one_f fl d w c (te_reap env (completions b)) with
            | None => Panics d
            | Some (d', w') => reap_f fl fuel env d' w' (count_completion b)
            end
        end
      else Ran (d, w, b)
  end.

(** [check_exit] with the configured timeout. *)
Definition check_exit_f fl d w (env : TurnEnv) : turn_end :=
  if d_shutting_down d then
    if bool_decide (d_pending d = ∅) && bool_decide (d_backlog d = []) then
      CleanExit d (close_count w)
    else
      let deadline := match d_drain_deadline d with
                      | Some t => t
                      | None => te_now1 env + drain_timeout fl
                      end in
      let d' := set_deadline d deadline in
      if deadline <=? te_now2 env then
        LeakExit (set_table d' (take_done <$> d_pending d') (d_backlog d')
                    (d_queued_cancels d') (d_stats d'))
          (close_count (strand_callers w (d_pending d')))
      else Continue d' w
  else Continue d w.

Inductive turn_result_f :=
| TurnEndF (e : turn_end (R := R) (Sm := Sm) (Ch := Ch)) (q : list FaultMsg)
| TurnPanicF (d : Drive R).

(** One iteration of the loop in [drive]. *)
Definition turn_f fl (env : TurnEnv) (disconnected : bool) d w (q : list FaultMsg) : turn_result_f :=
  match intake_f (Z.to_nat TURN_MESSAGES) env disconnected d w default_budget q with
  | Panics d => TurnPanicF d
  | Ran (d1, w1, b1, q1) =>
      let '(d2, submitted_before) := submit_ring d1 in
      match reap_f fl (Z.to_nat TURN_COMPLETIONS) env d2 w1 b1 with
      | Panics d => TurnPanicF d
      | Ran (d3, w3, b3) =>
          let '(d4, submitted_after) := submit_ring d3 in
          let '(st, prev, _) := update_cq_overflow (d_stats d4) (d_previous_overflow d4)
                                  (cq_overflow (d_ring d4)) in
          let d5 := set_overflow d4 st prev in
          TurnEndF
            (match check_exit_f fl d5 w3 env with
             | Continue d6 w6 =>
                 let ready_cqe := negb (cq_is_empty (d_ring d6)) in
                 let queued := negb (bool_decide (d_backlog d6 = [])) ||
                               negb (sq_is_empty (d_ring d6)) in
                 Continue (set_continue d6
                   (continue_without_wait b3 ready_cqe queued
                      (saturating_add usize_max submitted_before submitted_after))) w6
             | e => e
             end) q1
      end
  end.

(** How the thread of a turn ends: a panic unwinds into the drop of the
    driver state. *)
Definition unwinds (t : turn_result_f) : option (drop_outcome (R := R)) :=
  match t with
  | TurnPanicF d => Some (drop_driver_state d true)
  | TurnEndF _ _ => None
  end.
End Faults.
Arguments phase : clear implicits.
Arguments turn_result_f : clear implicits.
Arguments TurnEndF {_ _ _}.
Arguments TurnPanicF {_ _ _}.
Arguments Ran {_ _}.
Arguments Panics {_ _}.

(** ** Requesting faults *)

Section Requests.
Context {Sm Ch : Type} `{Semaphore Sm} `{Oneshot Ch} `{Target}.
Implicit Types c : Client Sm Ch.

(** [shard]: round robin over the shards; [None] is the remainder by zero of
    a driver without shards. *)
Definition next_shard c : option (Client Sm Ch * nat) :=
  if bool_decide (cl_shards c = []) then None
  else Some (set_cursors c (cl_next_id c) (wrap usize_max (cl_rr c + 1)),
             Z.to_nat (cl_rr c mod zlen (cl_shards c))).

(** [test_inject_panic]: the shard that is signalled, and whether its thread
    is there to receive the [TestPanic]. *)
Definition test_inject_panic c : option (Client Sm Ch * nat * bool) :=
  '(c', i) ← next_shard c;
  h ← cl_shards c' !! i;
  Some (upd_shard c' i shard_signal, i, sh_alive h).
End Requests.

(** ** Lemmas *)

Section Lemmas.
Context {R Sm Ch : Type} `{RingLaws R} `{SemaphoreLaws Sm} `{OneshotLaws Ch} `{Target}
  `{HashOrder}.
Context (limit : option Z).
Implicit Types (d : Drive R) (w : World Sm Ch) (b : TurnBudget) (s : Sys R Sm Ch) (fl : Faults).

(** *** No fault *)

(** A phase that runs as the one of the default build. *)
Definition runs_as {A B} (f : A -> B) (o : option A) (p : phase R B) : Prop :=
  match o, p with
  | Some a, Ran b => b = f a
  | None, Panics _ => True
  | _, _ => False
  end.

Lemma intake_f_regular fuel env disc d w b q :
  runs_as (fun '(d, w, b, q) => (d, w, b, Regular <$> q)) (intake fuel env disc d w b q)
    (intake_f fuel env disc d w b (Regular <$> q)).
Proof.
  revert d w b q. induction fuel as [|fuel IH]; intros d w b q; simpl; [done|].
  destruct (can_take_message b); [|done]. destruct q as [|m q]; simpl; [done|].
  destruct (intake_msg _ _ _ _ _) as [[[d' w'] b']|]; simpl; [apply IH | done].
Qed.

Lemma reap_f_default fl fuel env d w b :
  fault_stuck_drain fl = false -> runs_as id (reap fuel env d w b) (reap_f fl fuel env d w b).
Proof.
  intros Hf. revert d w b. induction fuel as [|fuel IH]; intros d w b; simpl; [done|].
  destruct (can_reap b); [|done]. destruct (cq_next _) as [[c r']|]; [|done].
  unfold reap_one_f, dropped_by_fault. rewrite Hf, andb_false_r. simpl.
  destruct (reap_one _ _ _ _) as [[d' w']|]; simpl; [apply IH | done].
Qed.

Lemma check_exit_f_default fl d w env :
  drain_timeout fl = DRAIN_TIMEOUT -> check_exit_f fl d w env = check_exit d w env.
Proof. intros Hf. unfold check_exit_f, check_exit. by rewrite Hf. Qed.

(** *** Panics *)

(** Whatever intake does up to a panic is a sequence of steps of the shard. *)
Lemma intake_f_steps n env disc fuel s b q :
  live limit n s -> (forall i, 0 <= te_addr env i) -> omap regular q = sy_queue s ->
  match intake_f fuel env disc (sy_drive s) (sy_world s) b q with
  | Ran (d', w', b', q') => rtc (step limit) s (with_drive s d' w' (omap regular q'))
  | Panics d' => TestPanic ∈ q /\ exists w' q', rtc (step limit) s (with_drive s d' w' q')
  end.
Proof.
  intros Hl Haddr. revert s b q Hl. induction fuel as [|fuel IH]; intros s b q Hl Hq; simpl.
  { rewrite Hq, with_drive_id. done. }
  destruct (can_take_message b); [|by rewrite Hq, with_drive_id].
  destruct q as [|[m|] q]; simpl in *.
  - destruct disc.
    + apply rtc_once. rewrite Hq. apply (StepDisconnect limit any_input s (proj2 Hl)).
    + by rewrite Hq, with_drive_id.
  - symmetry in Hq. change (sy_queue s = m :: omap regular q) in Hq.
    destruct (intake_msg_step limit n (sy_used s) (sy_held s) (sy_elsewhere s) (sy_drive s)
      (sy_world s) (count_message b) (te_addr env (messages b)) m (omap regular q))
      as (d1 & w1 & b1 & Hi & _).
    { rewrite <-Hq. by apply live_table. }
    { apply Haddr. }
    rewrite Hi.
    assert (Hs1 : step limit s (with_drive s d1 w1 (omap regular q)))
      by (eapply StepIntake; eauto; apply Hl).
    pose proof (IH (with_drive s d1 w1 (omap regular q)) b1 q (live_step _ _ _ _ _ _ Hl Hs1) eq_refl)
      as Hn. simpl in Hn.
    destruct (intake_f fuel env disc d1 w1 b1 q) as [[[[d' w'] b'] q']|d'].
    + by eapply rtc_l.
    + destruct Hn as (Hin & w' & q' & Hs). split; [by right|]. exists w', q'. by eapply rtc_l.
  - split; [by left|]. exists (sy_world s), (sy_queue s). by rewrite with_drive_id.
Qed.

(** Reaping never panics in a state the invariant allows. *)
Lemma reap_f_runs n fl env fuel s b :
  live limit n s -> fault_stuck_drain fl = false ->
  match reap_f fl fuel env (sy_drive s) (sy_world s) b with Ran _ => True | Panics _ => False end.
Proof.
  intros Hl Hf. revert s b Hl. induction fuel as [|fuel IH]; intros s b Hl; simpl; [done|].
  destruct (can_reap b); [|done]. destruct (cq_next _) as [[c r']|] eqn:Hn; [|done].
  unfold reap_one_f, dropped_by_fault. rewrite Hf, andb_false_r. simpl.
  destruct (reap_one_step limit n _ _ _ _ _ c r' (te_reap env (completions b)) _
    (live_table _ _ _ Hl) Hn) as (d1 & w1 & Hr & _).
  rewrite Hr. apply (IH (with_drive s d1 w1 (sy_queue s))).
  eapply (live_step limit (ok := any_input)); [exact Hl|]. eapply StepReap; [apply Hl | done | exact I | done].
Qed.

(** *** A stuck drain *)

(** The same operation, file and buffer; only its cancellation may have been
    asked for. *)
Definition kept_entry (p p' : Pending) : Prop := p' = p \/ p' = set_cancel_requested p.

(** Every entry of the table is kept, and none is added. *)
Definition kept (m m' : gmap Z Pending) : Prop :=
  forall id, option_Forall2 kept_entry (m !! id) (m' !! id).

#[local] Instance kept_entry_preorder : PreOrder kept_entry.
Proof.
  split; [by left|]. intros p1 p2 p3 [->| ->] [->| ->]; unfold kept_entry; auto.
Qed.

#[local] Instance kept_preorder : PreOrder kept.
Proof.
  split; [intros m id; reflexivity|]. intros m1 m2 m3 H12 H23 id. etrans; [apply H12 | apply H23].
Qed.

Lemma kept_open m m' : kept m m' -> table_open m -> table_open m'.
Proof.
  intros Hk Ho id p' Hp'. specialize (Hk id). rewrite Hp' in Hk. inversion Hk as [p ? He Hp|].
  symmetry in Hp. apply Ho in Hp. by destruct He as [->| ->].
Qed.

Lemma kept_dom m m' : kept m m' -> dom m' = dom m.
Proof.
  intros Hk. apply set_eq. intros id. rewrite !elem_of_dom.
  specialize (Hk id). inversion Hk; split; intros [? ?]; congruence || eauto.
Qed.

(** Intake while shutting down: reads are refused, nothing panics. *)
Lemma intake_msg_refuses d w b addr m :
  d_shutting_down d = true ->
  exists d' w' b', intake_msg d w b addr m = Some (d', w', b') /\
    kept (d_pending d) (d_pending d').
Proof.
  intros Hs. destruct m as [id f off n c pm al|id|]; simpl.
  - unfold intake_read. rewrite Hs. by eexists _, _, _.
  - eexists _, _, _. split; [done|]. unfold intake_cancel.
    destruct (d_pending d !! id) as [p|] eqn:Hp; [|done].
    destruct (queue_cancel _ _ _). simpl. intros i.
    destruct (decide (i = id)) as [->|Hne].
    + rewrite lookup_insert_eq, Hp. constructor. by right.
    + by rewrite lookup_insert_ne.
  - eexists _, _, _. split; [done|]. unfold cancel_all. by destruct (queue_cancels _ _ _).
Qed.

Lemma intake_f_stuck fuel env disc d w b q :
  d_shutting_down d = true ->
  match intake_f fuel env disc d w b q with
  | Ran (d', _, _, _) => kept (d_pending d) (d_pending d') /\ drains_on d d'
  | Panics d' => TestPanic ∈ q /\ kept (d_pending d) (d_pending d')
  end.
Proof.
  revert d w b q. induction fuel as [|fuel IH]; intros d w b q Hs; simpl; [done|].
  destruct (can_take_message b); [|done]. destruct q as [|[m|] q]; simpl.
  - by destruct disc.
  - destruct (intake_msg_refuses d w (count_message b) (te_addr env (messages b)) m Hs)
      as (d1 & w1 & b1 & Hi & Hk). rewrite Hi.
    pose proof (intake_msg_drains _ _ _ _ _ _ _ _ Hi) as Hd.
    specialize (IH d1 w1 b1 q (proj1 Hd Hs)).
    destruct (intake_f fuel env disc d1 w1 b1 q) as [[[[d' w'] b'] q']|d'].
    + destruct IH. split; by etrans.
    + destruct IH. split; [by right | by etrans].
  - split; [by left | done].
Qed.

(** Reaping in a stuck drain leaves the table as it is. *)
Lemma reap_one_f_stuck fl d w c inp :
  fault_stuck_drain fl = true ->
  exists d', reap_one_f fl d w c inp = Some (d', w) /\ d_pending d' = d_pending d /\ drains_on d d'.
Proof.
  intros Hf. unfold reap_one_f, dropped_by_fault, reap_one. rewrite Hf, andb_true_r.
  destruct (_ =? 0); simpl; [|by eexists].
  destruct (d_pending d !! _) eqn:Hp; simpl; by eexists.
Qed.

Lemma reap_f_stuck fl fuel env d w b :
  fault_stuck_drain fl = true ->
  exists d' b', reap_f fl fuel env d w b = Ran (d', w, b') /\
    d_pending d' = d_pending d /\ drains_on d d'.
Proof.
  intros Hf. revert d b. induction fuel as [|fuel IH]; intros d b; simpl; [by eexists _, _|].
  destruct (can_reap b); [|by eexists _, _]. destruct (cq_next _) as [[c r']|]; [|by eexists _, _].
  destruct (reap_one_f_stuck fl (set_ring d r' (d_backlog d)) w c (te_reap env (completions b)) Hf)
    as (d1 & -> & Hp & Hd).
  destruct (IH d1 (count_completion b)) as (d' & b' & -> & Hp' & Hd').
  exists d', b'. split_and!; [done | by rewrite Hp' | by etrans].
Qed.

(** The exit check at a deadline of the configured timeout. *)
Lemma check_exit_f_cases fl d w env :
  d_shutting_down d = true ->
  let t := default (te_now1 env + drain_timeout fl) (d_drain_deadline d) in
  match check_exit_f fl d w env with
  | Continue d' w' => d' = set_deadline d t /\ w' = w /\ te_now2 env < t
  | CleanExit d' w' => d_pending d = ∅
  | LeakExit d' w' => d_pending d' = take_done <$> d_pending d /\ t <= te_now2 env /\
      w' = close_count (strand_callers w (d_pending d))
  end.
Proof.
  intros Hs. unfold check_exit_f. rewrite Hs. cbn zeta.
  destruct (bool_decide (d_pending d = ∅) && _) eqn:He.
  { apply andb_true_iff in He as [?%bool_decide_eq_true _]. done. }
  destruct (d_drain_deadline d) as [t|]; simpl; destruct (_ <=? te_now2 env) eqn:Ht; bools; done.
Qed.

(** ** Properties *)

(** A build with fault injection and no fault requested is the default build: for every
    state, queue and environment one turn of its loop ends as the turn of the default loop
    does, with the same driver state, answers and remaining messages. A drain timeout that is
    not a number counts as none. *)
Theorem fault_free_turn fl env disc d w q :
  fault_stuck_drain fl = false -> drain_timeout fl = DRAIN_TIMEOUT ->
  match turn env disc d w q, turn_f fl env disc d w (Regular <$> q) with
  | TurnEnd e q1, TurnEndF e' q1' => e' = e /\ q1' = Regular <$> q1
  | TurnPanic, TurnPanicF _ => True
  | _, _ => False
  end.
Proof.
  intros Hf Ht. unfold turn, turn_f.
  pose proof (intake_f_regular (Z.to_nat TURN_MESSAGES) env disc d w default_budget q) as Hi.
  destruct (intake _ _ _ _ _ _ _) as [[[[d1 w1] b1] q1]|], (intake_f _ _ _ _ _ _ _); try done.
  simpl in Hi. subst. destruct (submit_ring d1) as [d2 n1].
  pose proof (reap_f_default fl (Z.to_nat TURN_COMPLETIONS) env d2 w1 b1 Hf) as Hr.
  destruct (reap _ _ _ _ _) as [[[d3 w3] b3]|], (reap_f _ _ _ _ _ _); try done.
  simpl in Hr. subst. destruct (submit_ring d3) as [d4 n2].
  destruct (update_cq_overflow _ _ _) as [[st prev] warn].
  by rewrite check_exit_f_default.
Qed.

(** [C15] A driver thread that panics aborts the process with every buffer the kernel may
    write still allocated: a turn of a reachable shard panics only on an injected panic
    message, in a driver state the shard can reach, and the unwinding drops nothing of it;
    each read outstanding at the abort targets the buffer of a pending entry, inside its
    bounds. The faults may shorten the drain deadline; that no completion is dropped is
    assumed (with drops, [stuck_drain_leaks]). *)
Theorem test_panic_aborts n fl env disc s q o :
  reachable limit n s -> sy_status s = Running_ -> (forall i, 0 <= te_addr env i) ->
  fault_stuck_drain fl = false -> omap regular q = sy_queue s ->
  unwinds (turn_f fl env disc (sy_drive s) (sy_world s) q) = Some o ->
  exists d w q', o = Aborted d /\ TestPanic ∈ q /\ reachable limit n (with_drive s d w q') /\
    forall sqe fd addr len off, sqe ∈ outstanding (d_ring d) -> sqe_op sqe = Read fd addr len off ->
      exists p, d_pending d !! sqe_user_data sqe = Some p /\ fd = raw_fd (file p) /\ 0 <= len /\
        vec_ptr (buf p) <= addr /\ addr + len <= vec_ptr (buf p) + zlen (vec_data (buf p)).
Proof.
  intros Hr Hs Haddr Hf Hq.
  pose proof (conj (reachable_inv _ _ _ Hr) Hs : live limit n s) as Hl. unfold turn_f.
  pose proof (intake_f_steps n env disc (Z.to_nat TURN_MESSAGES) s default_budget q Hl Haddr Hq) as Hi.
  destruct (intake_f _ _ _ _ _ _ _) as [[[[d1 w1] b1] q1]|d].
  - assert (Hl1 : live limit n (with_drive s d1 w1 (omap regular q1))).
    { split; [by eapply steps_inv; [apply Hl|] | done]. }
    pose proof (StepSubmit limit any_input _ (proj2 Hl1)) as Hsub. simpl in Hsub.
    destruct (submit_ring d1) as [d2 n1]. simpl in Hsub.
    pose proof (reap_f_runs n fl env (Z.to_nat TURN_COMPLETIONS) _ b1
      (live_step _ _ _ _ _ _ Hl1 Hsub) Hf) as Hrun. cbn [with_drive sy_drive sy_world sy_queue] in Hrun.
    destruct (reap_f _ _ _ _ _ _) as [[[d3 w3] b3]|]; [|done].
    destruct (submit_ring d3). by destruct (update_cq_overflow _ _ _) as [[st prev] warn].
  - destruct Hi as (Hin & w' & q' & Hsteps). intros [= <-]. exists d, w', q'.
    assert (Hr' : reachable limit n (with_drive s d w' q')) by by eapply steps_reachable.
    split_and!; [done | done | done |]. intros sqe fd addr len off.
    apply outstanding_read_owned. by apply reachable_inv in Hr' as [Hd _ _ _].
Qed.

(** [C16] A drain whose completions are lost never frees a buffer: a turn of a shard that is
    shutting down with reads pending keeps every entry and its buffer, even of a read whose
    completion arrived and was dropped; it goes on until the configured deadline, which does
    not move, and at the deadline leaks the table after answering every caller. It exits
    cleanly only with no read pending. *)
Theorem stuck_drain_leaks fl env disc d w q :
  fault_stuck_drain fl = true -> d_shutting_down d = true -> table_open (d_pending d) ->
  let t := default (te_now1 env + drain_timeout fl) (d_drain_deadline d) in
  match turn_f fl env disc d w q with
  | TurnEndF (Continue d' _) _ =>
      kept (d_pending d) (d_pending d') /\ te_now2 env < t /\ d_drain_deadline d' = Some t
  | TurnEndF (CleanExit _ _) _ => d_pending d = ∅
  | TurnEndF (LeakExit d' w') _ => t <= te_now2 env /\
      (exists m, kept (d_pending d) m /\ d_pending d' = take_done <$> m) /\
      forall id, id ∈ dom (d_pending d) -> answered (w_chan w') id
  | TurnPanicF d' => TestPanic ∈ q /\ kept (d_pending d) (d_pending d')
  end.
Proof.
  intros Hf Hs Ho. unfold turn_f.
  pose proof (intake_f_stuck (Z.to_nat TURN_MESSAGES) env disc d w default_budget q Hs) as Hi.
  destruct (intake_f _ _ _ _ _ _ _) as [[[[d1 w1] b1] q1]|]; [|done]. destruct Hi as [Hk1 Hd1].
  pose proof (submit_ring_table d1) as Ht2. pose proof (submit_ring_drains d1) as Hd2.
  destruct (submit_ring d1) as [d2 n1]. simpl in Ht2, Hd2.
  destruct (reap_f_stuck fl (Z.to_nat TURN_COMPLETIONS) env d2 w1 b1 Hf)
    as (d3 & b3 & -> & Ht3 & Hd3).
  pose proof (submit_ring_table d3) as Ht4. pose proof (submit_ring_drains d3) as Hd4.
  destruct (submit_ring d3) as [d4 n2]. simpl in Ht4, Hd4.
  destruct (update_cq_overflow _ _ _) as [[st prev] warn].
  assert (Hd : drains_on d (set_overflow d4 st prev)).
  { do 4 (etrans; [eassumption|]). done. }
  assert (Hk : kept (d_pending d) (d_pending (set_overflow d4 st prev))).
  { simpl. by rewrite Ht4, Ht3, Ht2. }
  pose proof (check_exit_f_cases fl (set_overflow d4 st prev) w1 env (proj1 Hd Hs)) as Hc.
  rewrite (proj2 Hd) in Hc. cbn zeta in Hc.
  destruct (check_exit_f _ _ _ _) as [d6 w6|d6 w6|d6 w6].
  - destruct Hc as (-> & -> & Hlt). done.
  - rewrite Hc in Hk. apply kept_dom in Hk. rewrite dom_empty_L in Hk.
    by apply dom_empty_iff_L.
  - destruct Hc as (Hm & Hle & ->). split_and!; [done | by eexists |]. intros id Hid. simpl.
    apply strand_fold_spec; [by eapply kept_open|]. right.
    rewrite <-(kept_dom _ _ Hk) in Hid. by rewrite key_order_perm, elem_of_elements.
Qed.
End Lemmas.

(** ** Witnesses *)

(** The environment of [demo_env], and a drain timeout that is no number. *)
Lemma fault_free_turn_witness :
  match turn (demo_env 0) false (sy_drive demo_busy) (sy_world demo_busy) [MsgCancel 0; MsgShutdown],
    turn_f (mkFaults (EnvSet "5s") false) (demo_env 0) false (sy_drive demo_busy)
      (sy_world demo_busy) [Regular (MsgCancel 0); Regular MsgShutdown] with
  | TurnEnd e q1, TurnEndF e' q1' => e' = e /\ q1' = Regular <$> q1
  | TurnPanic, TurnPanicF _ => True
  | _, _ => False
  end.
Proof.
  apply (fault_free_turn (mkFaults (EnvSet "5s") false) (demo_env 0) false (sy_drive demo_busy)
    (sy_world demo_busy) [MsgCancel 0; MsgShutdown]).
  - reflexivity.
  - vm_compute. reflexivity.
Defined.

(** The busy shard of [Turn.v] poisoned while the kernel holds its read. *)
Lemma test_panic_aborts_witness :
  exists d w q', Aborted (sy_drive demo_busy) = Aborted d /\ TestPanic ∈ [TestPanic] /\
    reachable (Some 4096) 4 (with_drive demo_busy d w q') /\
    forall sqe fd addr len off, sqe ∈ outstanding (d_ring d) -> sqe_op sqe = Read fd addr len off ->
      exists p, d_pending d !! sqe_user_data sqe = Some p /\ fd = raw_fd (file p) /\ 0 <= len /\
        vec_ptr (buf p) <= addr /\ addr + len <= vec_ptr (buf p) + zlen (vec_data (buf p)).
Proof.
  apply (test_panic_aborts (Some 4096) 4 no_faults (demo_env 0) false demo_busy [TestPanic]
    (Aborted (sy_drive demo_busy))).
  - apply demo_reachable.
  - vm_compute. reflexivity.
  - exact (demo_env_addr 0).
  - reflexivity.
  - vm_compute. reflexivity.
  - vm_compute. reflexivity.
Defined.

(** The busy shard told to shut down after the kernel completed its read. *)
Definition demo_stuck : Drive ring :=
  set_ring (set_shutting_down (sy_drive demo_busy))
    (mkRing (repeat Byte.x2a 500) 8 [] [] [mkSqe (Read 3 4096 100 10) 0] false []) [].

Definition demo_stuck_turn (fl : Faults) (now : Z) : turn_result_f ring sem chans :=
  turn_f fl (demo_env now) false demo_stuck (sy_world demo_busy) [].

(** Without the fault the read is delivered and the drain is clean; with it the
    drain continues until the configured 200 ms, and then leaks. *)
Example demo_stuck_outcomes :
  match demo_stuck_turn no_faults 199, demo_stuck_turn (mkFaults (EnvSet "200") true) 199,
    demo_stuck_turn (mkFaults (EnvSet "200") true) 200 with
  | TurnEndF (CleanExit _ w) [], TurnEndF (Continue d _) [], TurnEndF (LeakExit d' w') [] =>
      os_rx (w_chan w) 0 = RxValue (Ok (repeat Byte.x2a 100)) /\
      is_Some (d_pending d !! 0) /\ is_Some (d_pending d' !! 0) /\
      os_rx (w_chan w') 0 = RxValue (Err strand_error)
  | _, _, _ => False
  end.
Proof. vm_compute. eauto 10. Qed.

Lemma stuck_drain_leaks_witness :
  match demo_stuck_turn (mkFaults (EnvSet "200") true) 200 with
  | TurnEndF (Continue d' _) _ => kept (d_pending demo_stuck) (d_pending d') /\
      200 < 200 /\ d_drain_deadline d' = Some 200
  | TurnEndF (CleanExit _ _) _ => d_pending demo_stuck = ∅
  | TurnEndF (LeakExit d' w') _ => 200 <= 200 /\
      (exists m, kept (d_pending demo_stuck) m /\ d_pending d' = take_done <$> m) /\
      forall id, id ∈ dom (d_pending demo_stuck) -> answered (w_chan w') id
  | TurnPanicF d' => TestPanic ∈ [] /\ kept (d_pending demo_stuck) (d_pending d')
  end.
Proof.
  apply (stuck_drain_leaks (mkFaults (EnvSet "200") true) (demo_env 200) false demo_stuck
    (sy_world demo_busy) []).
  - reflexivity.
  - reflexivity.
  - apply (ac_done (Some 4096) 4 false (d_pending (sy_drive demo_busy)) (sy_queue demo_busy)
      (sy_world demo_busy) (sy_used demo_busy) (sy_held demo_busy) (sy_elsewhere demo_busy));
      [|reflexivity].
    destruct (reachable_inv (Some 4096) 4 demo_busy (proj1 (proj2 demo_reachable))) as [_ Ha _ _].
    exact Ha.
Defined.

(** A driver with two shards: injected panics poison them in turn. *)
Example demo_inject_round_robin (c : Client sem chans) h0 h1 :
  cl_shards c = [h0; h1] -> cl_rr c = 0 ->
  (fun '(_, i, sent) => (i, sent)) <$> test_inject_panic c = Some (0%nat, sh_alive h0).
Proof. intros Hs Hr. unfold test_inject_panic, next_shard. rewrite Hs, Hr. simpl. by rewrite Hs. Qed.
