(* ===== verification/Pattern.v ===== *)
(** * The files the benchmarks read

    The offset-addressable content of [src/examples/streaming_bench/linux.rs]:
    its generator, the check of what a read delivered, and the creation of the
    file ([concurrent_pread_bench] has the same functions). System calls on the
    path answer from their arguments. *)

From S2P Require Import Prelude IoError.
From S2P Require Import SubmitRing.

Definition wrapping_mul (a b : Z) : Z := wrap u64_max (a * b).

Definition splitmix64 (seed : Z) : Z :=
  let z := wadd seed 0x9e3779b97f4a7c15 in
  let z := wrapping_mul (Z.lxor z (Z.shiftr z 30)) 0xbf58476d1ce4e5b9 in
  let z := wrapping_mul (Z.lxor z (Z.shiftr z 27)) 0x94d049bb133111eb in
  Z.lxor z (Z.shiftr z 31).

(** [to_le_bytes]: the [n] low bytes, lowest first. *)
Fixpoint to_le_bytes (n : nat) (w : Z) : list Byte.byte :=
  match n with
  | O => []
  | S n => default Byte.x00 (Byte.of_N (Z.to_N (w mod 256))) :: to_le_bytes n (Z.shiftr w 8)
  end.

Definition expected_word (idx : Z) : list Byte.byte := to_le_bytes 8 (splitmix64 idx).

Arguments splitmix64 : simpl never.
Arguments expected_word : simpl never.

(** The outcome of [verify_range]; [PosOverflow] is the overflow of
    [offset + i]. *)
Inductive verdict :=
| Verified
| Mismatch (pos : Z) (got want : Byte.byte)
| PosOverflow.

(** The loop of [verify_range] at index [i], with the cached word. *)
Fixpoint verify_from (offset i cached : Z) (word data : list Byte.byte) : verdict :=
  match data with
  | [] => Verified
  | got :: rest =>
      match checked_add u64_max offset i with
      | None => PosOverflow
      | Some pos =>
          let idx := pos / 8 in
          let '(cached, word) := if negb (idx =? cached) then (idx, expected_word idx)
                                 else (cached, word) in
          let want := nth (Z.to_nat (pos mod 8)) word Byte.x00 in
          if bool_decide (got = want) then verify_from offset (i + 1) cached word rest
          else Mismatch pos got want
      end
  end.

Definition verify_range (offset : Z) (data : list Byte.byte) : verdict :=
  verify_from offset 0 u64_max (repeat Byte.x00 8) data.

(** ** Creating the file *)

(** The buffer [create_file] writes from, in bytes. *)
Definition WRITE_BUF : Z := 2 ^ 20.

Definition fill_words (base : Z) (words : nat) : list Byte.byte :=
  flat_map (fun w => expected_word (base + w)) (seqZ 0 (Z.of_nat words)).

(** What one [write_all] does: everything, or an error after [k] bytes. *)
Inductive write_outcome := WriteAll | WriteFails (k : Z) (e : IoError).

(** The loop of [create_file], with the content written so far. *)
Fixpoint write_loop (fuel : nat) (size : Z) (writes : Z -> write_outcome) (sync : io_result unit)
    (written : Z) (content : list Byte.byte) : option (list Byte.byte * io_result unit) :=
  match fuel with
  | O => None
  | S fuel =>
      if written <? size then
        let base := written / 8 in
        let buf := fill_words base (Z.to_nat (WRITE_BUF / 8)) in
        let n := Z.min (size - written) (zlen buf) in
        match writes written with
        | WriteAll => write_loop fuel size writes sync (written + n) (content ++ slice buf 0 n)
        | WriteFails k e => Some (content ++ slice buf 0 (Z.min k n), Err e)
        end
      else Some (content, sync)
  end.

(** Enough iterations for [size] bytes. *)
Definition write_fuel (size : Z) : nat := Z.to_nat (size / WRITE_BUF + 2).

(** What a path names. *)
Inductive path_state := Absent | NotRegular | Regular (content : list Byte.byte).

(** [create_file]: exclusive creation fails on an existing path. *)
Definition create_file (p : path_state) (size : Z) (writes : Z -> write_outcome)
    (sync : io_result unit) : option (path_state * io_result unit) :=
  match p with
  | Absent =>
      '(content, r) ← write_loop (write_fuel size) size writes sync 0 [];
      Some (Regular content, r)
  | _ => Some (p, Err (other "File exists"))
  end.

Inductive ensure_error :=
| NotARegularFile
| WrongSize (found : Z)
| CreateFailed (e : IoError)
| StatFailed (e : IoError).

(** [ensure_file], over the creation [create] of a file at a path: [seen] is
    what [symlink_metadata] answers, an error other than [NotFound] included,
    [now] what the path names when it is created, and [removed] whether
    [remove_file] succeeds. *)
Definition ensure_with (create : path_state -> option (path_state * io_result unit))
    (seen : io_result path_state) (now : path_state) (size : Z) (removed : bool) :
    option (path_state * (unit + ensure_error)) :=
  match seen with
  | Ok NotRegular => Some (now, inr NotARegularFile)
  | Ok (Regular content) =>
      Some (now, if zlen content =? size then inl tt else inr (WrongSize (zlen content)))
  | Ok Absent =>
      '(p, r) ← create now;
      match r with
      | Ok _ => Some (p, inl tt)
      | Err e => Some (if removed then Absent else p, inr (CreateFailed e))
      end
  | Err e => Some (now, inr (StatFailed e))
  end.

Definition ensure_file (seen : io_result path_state) (now : path_state) (size : Z)
    (writes : Z -> write_outcome) (sync : io_result unit) (removed : bool) :
    option (path_state * (unit + ensure_error)) :=
  ensure_with (fun p => create_file p size writes sync) seen now size removed.

(** ** The content by offset *)

Definition pattern_at (pos : Z) : Byte.byte :=
  nth (Z.to_nat (pos mod 8)) (expected_word (pos / 8)) Byte.x00.

Definition pattern (offset n : Z) : list Byte.byte :=
  (fun i => pattern_at (offset + i)) <$> seqZ 0 n.

(** ** Lemmas *)

Lemma length_to_le_bytes n w : length (to_le_bytes n w) = n.
Proof. revert w. induction n as [|n IH]; intros w; simpl; [done|]. by rewrite IH. Qed.

Lemma zlen_pattern off n : 0 <= n -> zlen (pattern off n) = n.
Proof. intros. unfold pattern, zlen. rewrite length_fmap, length_seqZ. lia. Qed.

Lemma pattern_app off n m :
  0 <= n -> 0 <= m -> pattern off (n + m) = pattern off n ++ pattern (off + n) m.
Proof.
  intros Hn Hm. unfold pattern. rewrite seqZ_app, fmap_app by lia. f_equal.
  rewrite Z.add_0_l. rewrite <-(Z.add_0_r n) at 1. rewrite <-fmap_add_seqZ, <-list_fmap_compose.
  apply list_fmap_ext. intros _ i _. simpl. f_equal. lia.
Qed.

Lemma pattern_0 off : pattern off 0 = [].
Proof. done. Qed.

Lemma pattern_cons off n :
  0 < n -> pattern off n = pattern_at off :: pattern (off + 1) (n - 1).
Proof.
  intros Hn. replace n with (1 + (n - 1)) at 1 by lia. rewrite pattern_app by lia.
  unfold pattern at 1. simpl. by rewrite Z.add_0_r.
Qed.

Lemma slice_pattern off n s m :
  0 <= s -> 0 <= m -> s + m <= n -> slice (pattern off n) s m = pattern (off + s) m.
Proof.
  intros Hs Hm Hn. replace n with (s + (m + (n - s - m))) by lia.
  rewrite !pattern_app by lia. unfold slice.
  rewrite drop_app_length' by (pose proof (zlen_pattern off s); unfold zlen in *; lia).
  rewrite take_app_length' by (pose proof (zlen_pattern (off + s) m); unfold zlen in *; lia).
  done.
Qed.

(** A word is eight bytes of the pattern. *)
Lemma expected_word_pattern idx : expected_word idx = pattern (8 * idx) 8.
Proof.
  assert (Hl : length (expected_word idx) = 8%nat) by apply length_to_le_bytes.
  assert (Hw : expected_word idx = (fun i => nth (Z.to_nat i) (expected_word idx) Byte.x00) <$> seqZ 0 8).
  { revert Hl. generalize (expected_word idx) as l. intros l Hl.
    by repeat (destruct l as [|? l]; try discriminate Hl). }
  rewrite Hw at 1. unfold pattern. apply list_fmap_ext. intros k i Hi.
  apply lookup_seqZ in Hi as [-> Hk]. unfold pattern_at.
  replace ((8 * idx + (0 + Z.of_nat k)) mod 8) with (0 + Z.of_nat k)
    by (Z.to_euclidean_division_equations; lia).
  by replace ((8 * idx + (0 + Z.of_nat k)) / 8) with idx
    by (Z.to_euclidean_division_equations; lia).
Qed.

Lemma fill_words_pattern base words :
  fill_words base words = pattern (8 * base) (8 * Z.of_nat words).
Proof.
  unfold fill_words. induction words as [|words IH]; [reflexivity|].
  replace (Z.of_nat (S words)) with (Z.of_nat words + 1) by lia.
  rewrite seqZ_app, flat_map_app, IH by lia.
  rewrite (seqZ_cons (0 + _) 1), (seqZ_nil _ (Z.pred 1)) by lia. cbn [flat_map].
  rewrite app_nil_r, expected_word_pattern.
  replace (8 * (Z.of_nat words + 1)) with (8 * Z.of_nat words + 8) by lia.
  rewrite pattern_app by lia. do 2 f_equal; lia.
Qed.

(** ** [verify_range] *)

(** What a verdict says of the data it was given. *)
Definition verdict_ok (offset : Z) (data : list Byte.byte) (v : verdict) : Prop :=
  match v with
  | Verified => data = pattern offset (zlen data)
  | Mismatch pos got want =>
      exists pre post, data = pre ++ got :: post /\ pre = pattern offset (zlen pre) /\
        pos = offset + zlen pre /\ want = pattern_at pos /\ got <> want
  | PosOverflow => False
  end.

(** The verdict of the rest is the verdict of the whole after a byte that agrees. *)
Lemma verdict_ok_cons offset data v :
  verdict_ok (offset + 1) data v -> verdict_ok offset (pattern_at offset :: data) v.
Proof.
  assert (Hlen : forall b (l : list Byte.byte), zlen (b :: l) = zlen l + 1)
    by (intros; unfold zlen; simpl; lia).
  assert (Hcons : forall l, l = pattern (offset + 1) (zlen l) ->
    pattern_at offset :: l = pattern offset (zlen (pattern_at offset :: l))).
  { intros l Hl. pose proof (zlen_nonneg l). rewrite Hlen, pattern_cons by lia.
    f_equal. rewrite Hl at 1. f_equal. lia. }
  destruct v as [|pos got want|]; simpl; [apply Hcons| |done].
  intros (pre & post & -> & Hpre & -> & Hw & Hne).
  exists (pattern_at offset :: pre), post. split_and!; try done; [by apply Hcons|rewrite Hlen; lia].
Qed.

(** The cache holds no word yet, or the word of its index. *)
Lemma verify_from_spec offset i cached word data :
  0 <= offset -> 0 <= i -> offset + i + zlen data <= u64_max + 1 ->
  cached = u64_max \/ word = expected_word cached ->
  verdict_ok (offset + i) data (verify_from offset i cached word data).
Proof.
  intros Ho. revert i cached word. induction data as [|got rest IH]; intros i cached word Hi Hlen Hc.
  { reflexivity. }
  unfold zlen in Hlen. cbn [length] in Hlen. cbn [verify_from]. unfold checked_add.
  rewrite (proj2 (Z.leb_le _ _)) by lia. set (pos := offset + i) in *.
  assert (Hw : (if negb (pos / 8 =? cached) then (pos / 8, expected_word (pos / 8))
                else (cached, word)) = (pos / 8, expected_word (pos / 8))).
  { destruct (Z.eqb_spec (pos / 8) cached) as [He|Hne]; [|done]. simpl.
    destruct Hc as [Hc|Hc]; [|by rewrite Hc, He].
    unfold u64_max in *. Z.to_euclidean_division_equations. lia. }
  rewrite Hw. fold (pattern_at pos). case_bool_decide as Heq.
  - subst got. apply verdict_ok_cons. replace (pos + 1) with (offset + (i + 1)) by lia.
    apply IH; [lia|unfold zlen; lia|by right].
  - exists [], rest. unfold zlen. simpl. rewrite Z.add_0_r. by split_and!.
Qed.

(** [verify_range] is exact: it accepts the bytes the file has at the offset and nothing else,
    and reports the first byte that differs. *)
Theorem verify_range_exact offset data :
  0 <= offset -> offset + zlen data <= u64_max + 1 ->
  verdict_ok offset data (verify_range offset data).
Proof.
  intros. unfold verify_range. rewrite <-(Z.add_0_r offset) at 1.
  apply verify_from_spec; [lia..| |by left]. lia.
Qed.

Lemma verify_range_Verified offset data :
  0 <= offset -> offset + zlen data <= u64_max + 1 ->
  verify_range offset data = Verified <-> data = pattern offset (zlen data).
Proof.
  intros Ho Hl. pose proof (verify_range_exact offset data Ho Hl) as Hv. split.
  - intros Heq. by rewrite Heq in Hv.
  - intros Hd. destruct (verify_range offset data) as [|pos got want|]; [done| |done].
    destruct Hv as (pre & post & Heq & Hpre & -> & -> & Hne). destruct Hne.
    assert (Hz : zlen data = zlen pre + (1 + zlen post))
      by (rewrite Heq; unfold zlen; rewrite length_app; simpl; lia).
    rewrite Hz in Hd. pose proof (zlen_nonneg pre). pose proof (zlen_nonneg post).
    rewrite pattern_app, <-Hpre, (pattern_cons (offset + zlen pre)) in Hd by lia.
    rewrite Heq in Hd. by apply app_inv_head in Hd as [= ].
Qed.

(** ** [create_file] and [ensure_file] *)

Lemma zlen_fill_words base : zlen (fill_words base (Z.to_nat (WRITE_BUF / 8))) = WRITE_BUF.
Proof.
  rewrite fill_words_pattern, Z2Nat.id by done.
  rewrite zlen_pattern by done. reflexivity.
Qed.

(** What one iteration adds is the file's. *)
Lemma fill_slice written n :
  (8 | written) -> 0 <= n <= WRITE_BUF ->
  slice (fill_words (written / 8) (Z.to_nat (WRITE_BUF / 8))) 0 n = pattern written n.
Proof.
  intros [base ->] Hn. rewrite Z.div_mul, fill_words_pattern by done.
  rewrite slice_pattern; [f_equal; lia | lia | lia |].
  rewrite Z2Nat.id by done. exact (proj2 Hn).
Qed.

Lemma write_loop_all fuel size writes written :
  (forall w, writes w = WriteAll) -> 0 <= written <= size ->
  (8 | written) \/ written = size ->
  0 < Z.of_nat fuel -> size - written <= WRITE_BUF * (Z.of_nat fuel - 1) ->
  write_loop fuel size writes (Ok tt) written (pattern 0 written) = Some (pattern 0 size, Ok tt).
Proof.
  intros Hw. revert written. induction fuel as [|fuel IH]; intros written Hwr Hdiv Hf Hsz; [lia|].
  cbn [write_loop]. destruct (Z.ltb_spec written size) as [Hlt|Hge].
  2: { by replace written with size by lia. }
  destruct Hdiv as [Hdiv|]; [|lia]. rewrite Hw, zlen_fill_words.
  assert (HB : 0 < WRITE_BUF) by done. set (n := Z.min _ WRITE_BUF).
  rewrite fill_slice by (done || lia). rewrite <-(Z.add_0_l written) at 3.
  assert (Hn : n = WRITE_BUF /\ WRITE_BUF <= size - written \/ n = size - written /\ n < WRITE_BUF)
    by (unfold n; lia).
  clearbody n. change WRITE_BUF with 1048576 in *.
  rewrite <-pattern_app by lia. apply IH; [lia| |lia|lia].
  destruct Hn as [[-> _]|[-> _]]; [left|right; lia]. apply Z.divide_add_r; [done|]. by exists (2 ^ 17).
Qed.

(** Creating a file that is not there writes the pattern, whatever its size. *)
Lemma create_file_pattern size writes :
  0 <= size -> (forall w, writes w = WriteAll) ->
  create_file Absent size writes (Ok tt) = Some (Regular (pattern 0 size), Ok tt).
Proof.
  intros Hs Hw. unfold create_file. rewrite <-(pattern_0 0) at 1.
  assert (HB : 0 < WRITE_BUF) by done. pose proof (Z.div_pos size WRITE_BUF Hs HB).
  rewrite write_loop_all; unfold write_fuel; try done; [left; by exists 0|lia|].
  pose proof (Z.div_mod size WRITE_BUF). pose proof (Z.mod_pos_bound size WRITE_BUF). nia.
Qed.

(** A path that is already there is never written or removed, and accepted only as a
    regular file of the right size. *)
Lemma ensure_file_keeps p size writes sync removed :
  p <> Absent ->
  exists r, ensure_file (Ok p) p size writes sync removed = Some (p, r) /\
    (r = inl tt <-> exists content, p = Regular content /\ zlen content = size).
Proof.
  intros Hp. unfold ensure_file, ensure_with. destruct p as [| |content]; [done|..].
  - eexists. split; [done|]. split; [done|]. by intros (? & ? & _).
  - eexists. split; [done|]. case_match; bools; split; eauto; [done|].
    by intros (? & [= <-] & ?).
Qed.

(** A path that is not there is created with the pattern. *)
Lemma ensure_file_creates size writes removed :
  0 <= size -> (forall w, writes w = WriteAll) ->
  ensure_file (Ok Absent) Absent size writes (Ok tt) removed =
    Some (Regular (pattern 0 size), inl tt).
Proof. intros. unfold ensure_file, ensure_with. by rewrite create_file_pattern. Qed.

(** If something creates the path between the check and the creation, the
    creation fails and the file that is now there is removed. *)
Lemma ensure_file_removes_new_file size writes sync content :
  ensure_file (Ok Absent) (Regular content) size writes sync true =
    Some (Absent, inr (CreateFailed (other "File exists"))).
Proof. reflexivity. Qed.

(** What a created file holds at an offset passes [verify_range]. *)
Lemma created_file_verifies size offset n :
  0 <= offset -> 0 <= n -> offset + n <= size -> size <= u64_max ->
  verify_range offset (slice (pattern 0 size) offset n) = Verified.
Proof.
  intros. rewrite slice_pattern, Z.add_0_l by lia.
  apply verify_range_Verified; rewrite ?zlen_pattern; done || lia.
Qed.

(** The generator's published first value. *)
Example splitmix64_0 : splitmix64 0 = 0xe220a8397b1dcdaf.
Proof. vm_compute. reflexivity. Qed.
