(* ===== verification/Streaming.v ===== *)
(** * The streaming benchmark

    [src/examples/streaming_bench/linux.rs]: its arguments and their
    validation, the plan of reads that covers the file, and the three ways it
    reads the file: a buffered loop, an [O_DIRECT] loop, and reads of the driver
    kept in flight at a bounded depth. Clocks are left out; the answers of the
    reads, and which of the reads in flight completes next, are arguments. *)

From S2P Require Import Prelude IoError Pending Settings Pattern.

Inductive Strategy := StdBuffered | StdODirect | UringReadAt | UringReadAtDirect.

#[export] Instance Strategy_eq_dec : EqDecision Strategy.
Proof. solve_decision. Defined.

(** [Strategy::parse]: [None] for an unknown name. *)
Definition parse (s : string) : option Strategy :=
  if bool_decide (s = "std_buffered") then Some StdBuffered
  else if bool_decide (s = "std_odirect") then Some StdODirect
  else if bool_decide (s = "uring_read_at") then Some UringReadAt
  else if bool_decide (s = "uring_read_at_direct") then Some UringReadAtDirect
  else None.

Definition name (s : Strategy) : string :=
  match s with
  | StdBuffered => "std_buffered"
  | StdODirect => "std_odirect"
  | UringReadAt => "uring_read_at"
  | UringReadAtDirect => "uring_read_at_direct"
  end.

Definition is_direct (s : Strategy) : bool :=
  match s with StdODirect | UringReadAtDirect => true | _ => false end.

Definition MAX_QD : Z := 4096.
Definition MIN_ALIGN : Z := 512.
Definition MAX_ALIGN : Z := 2 ^ 20.
Definition MAX_CHUNK : Z := 2 ^ 30.

Record Config := mkConfig {
  sc_strategy : Strategy;
  sc_file : string;
  sc_size : Z;
  sc_chunk : Z;
  sc_qd : Z;
  sc_align : Z;
  sc_verify : bool;
  sc_workers : Z;
  sc_ring_entries : Z;
  sc_warmup_runs : Z
}.

(** The errors of [parse_args] and [validate], reported as messages. *)
Inductive config_error :=
| Usage
| UnknownStrategy (s : string)
| NotANumber (arg raw : string)
| BadSetting (e : setting_error)
| ZeroSize
| SizeTooLarge
| BadChunk
| BadDepth
| BadAlign
| UnalignedChunk
| ChunkOverflow.

Section Streaming.
Context `{Target}.
Implicit Types c : Config.

Definition validate c : unit + config_error :=
  if sc_size c =? 0 then inr ZeroSize
  else if i64_max <? sc_size c then inr SizeTooLarge
  else if (sc_chunk c =? 0) || (MAX_CHUNK <? sc_chunk c) then inr BadChunk
  else if (sc_qd c =? 0) || (MAX_QD <? sc_qd c) then inr BadDepth
  else if negb (is_power_of_two (sc_align c)) || (sc_align c <? MIN_ALIGN) ||
          (MAX_ALIGN <? sc_align c) then inr BadAlign
  else if is_direct (sc_strategy c) && negb (sc_chunk c mod sc_align c =? 0)
  then inr UnalignedChunk
  else match checked_add usize_max (sc_chunk c) (sc_align c) with
       | None => inr ChunkOverflow
       | Some _ => inl tt
       end.

Definition parse_usize (arg raw : string) : Z + config_error :=
  ok_or (parse_unsigned usize_max raw) (NotANumber arg raw).

Definition is_set (v : env_value) : bool := env_is v "1" || env_is v "true".

(** [parse_args] on the arguments after the program's name. *)
Definition parse_args (args : list string) (env : string -> env_value) (diagnostics : bool)
    (parallelism : option Z) : Config + config_error :=
  match args with
  | [s; f; size; chunk; qd; align] =>
      let! strategy := ok_or (parse s) (UnknownStrategy s) in
      let! size := parse_usize "size_bytes" size in
      let! chunk := parse_usize "chunk_bytes" chunk in
      let! qd := parse_usize "qd" qd in
      let! align := parse_usize "align" align in
      let verify := is_set (env "BENCH_VERIFY") in
      let! w := map_err BadSetting (workers env diagnostics parallelism) in
      let! entries := map_err BadSetting (ring_entries env 128) in
      let! warmup := map_err BadSetting (setting env "BENCH_WARMUP_RUNS" 0 0 1000) in
      let c := mkConfig strategy f size chunk qd align verify w entries warmup in
      let! _ := validate c in
      inl c
  | _ => inr Usage
  end.

(** ** The reads *)

(** [(0..size).step_by(chunk)], with the bytes left at each offset. *)
Definition plan (size chunk : Z) : list (Z * Z) :=
  (fun k => (k * chunk, Z.min chunk (size - k * chunk))) <$> seqZ 0 ((size + chunk - 1) / chunk).

(** [aligned_buf]: the buffer's length and padding for a block at [addr];
    [None] is the failed assertion. *)
Definition aligned_buf (len align addr : Z) : option (Z * Z) :=
  let pad := align_offset addr align in
  if pad + len <=? len + align then Some (len + align, pad) else None.

Inductive stream_error :=
| ReadFailed (e : IoError)
| ShortRead (offset got want : Z)
| BadContent (v : verdict)
| JoinFailed
| RewindFailed (e : IoError)
| WrongTotal (total : Z).

(** [if cfg.verify { verify_range(..)? }] *)
Definition checked c (offset : Z) (data : list Byte.byte) : unit + stream_error :=
  if sc_verify c then
    match verify_range offset data with
    | Verified => inl tt
    | v => inr (BadContent v)
    end
  else inl tt.

(** [run_std_buffered]: [read] is what a read answers at a position. *)
Fixpoint run_std_buffered (fuel : nat) c (read : Z -> io_result (list Byte.byte)) (total ops : Z) :
    option ((Z * Z) + stream_error) :=
  match fuel with
  | O => None
  | S fuel =>
      match read total with
      | Err e => Some (inr (ReadFailed e))
      | Ok bytes =>
          if zlen bytes =? 0 then Some (inl (total, ops))
          else match checked c total bytes with
               | inr e => Some (inr e)
               | inl _ => run_std_buffered fuel c read (total + zlen bytes) (ops + 1)
               end
      end
  end.

(** [run_std_odirect]. *)
Fixpoint run_std_odirect (fuel : nat) c (read : Z -> io_result (list Byte.byte))
    (total ops off : Z) : option ((Z * Z) + stream_error) :=
  match fuel with
  | O => None
  | S fuel =>
      if off <? sc_size c then
        match read off with
        | Err e => Some (inr (ReadFailed e))
        | Ok bytes =>
            let n := zlen bytes in
            if n =? 0 then Some (inl (total, ops))
            else
              let logical := Z.min n (sc_size c - off) in
              match checked c off (slice bytes 0 logical) with
              | inr e => Some (inr e)
              | inl _ => run_std_odirect fuel c read (total + logical) (ops + 1) (off + n)
              end
        end
      else Some (inl (total, ops))
  end.

(** What the task spawned for one entry of the plan returns: the bytes it got,
    or an error; [None] is a task that panicked or was aborted. *)
Definition task_result c (read : Z -> Z -> option (io_result (list Byte.byte))) (entry : Z * Z) :
    Z + stream_error :=
  let '(off, len) := entry in
  match read off len with
  | None => inr JoinFailed
  | Some (Err e) => inr (ReadFailed e)
  | Some (Ok bytes) =>
      if sc_verify c then
        if negb (zlen bytes =? len) then inr (ShortRead off (zlen bytes) len)
        else let! _ := checked c off bytes in inl (zlen bytes)
      else inl (zlen bytes)
  end.

(** The tasks in flight, by index in the plan, and the next index. *)
Fixpoint fill (fuel : nat) c (n : nat) (set : list nat) (idx : nat) : list nat * nat :=
  match fuel with
  | O => (set, idx)
  | S fuel =>
      if (zlen set <? sc_qd c) && (idx <? n)%nat then fill fuel c n (set ++ [idx]) (S idx)
      else (set, idx)
  end.

(** Another entry of the plan is spawned, if there is one. *)
Definition spawn_next (n : nat) (set : list nat) (idx : nat) : list nat * nat :=
  if (idx <? n)%nat then (set ++ [idx], S idx) else (set, idx).

(** The loop over [join_next]: [next ops] says which task in flight finishes. *)
Fixpoint drain (fuel : nat) c (entries : list (Z * Z))
    (read : Z -> Z -> option (io_result (list Byte.byte))) (next : Z -> nat)
    (set : list nat) (idx : nat) (total ops : Z) : option ((Z * Z) + stream_error) :=
  match fuel with
  | O => None
  | S fuel =>
      match set !! (next ops mod length set)%nat with
      | None => Some (inl (total, ops))
      | Some i =>
          let set := delete (next ops mod length set)%nat set in
          match task_result c read (nth i entries (0, 0)) with
          | inr e => Some (inr e)
          | inl n =>
              let '(set, idx) := spawn_next (length entries) set idx in
              drain fuel c entries read next set idx (total + n) (ops + 1)
          end
      end
  end.

(** [run_uring]. *)
Definition run_uring c (read : Z -> Z -> option (io_result (list Byte.byte))) (next : Z -> nat) :
    option ((Z * Z) + stream_error) :=
  let entries := plan (sc_size c) (sc_chunk c) in
  let '(set, idx) := fill (length entries) c (length entries) [] 0 in
  drain (S (length entries)) c entries read next set idx 0 0.

(** [run_once]: the reads of the file's position, and those of the driver. *)
Definition run_once (fuel : nat) c (read : Z -> io_result (list Byte.byte))
    (driver : Z -> Z -> option (io_result (list Byte.byte))) (next : Z -> nat) :
    option ((Z * Z) + stream_error) :=
  match sc_strategy c with
  | StdBuffered => run_std_buffered fuel c read 0 0
  | StdODirect => run_std_odirect fuel c read 0 0 0
  | UringReadAt | UringReadAtDirect => run_uring c driver next
  end.

(** A run that did not read the whole file is an error. *)
Definition expect_total c (r : (Z * Z) + stream_error) : (Z * Z) + stream_error :=
  let! (total, ops) := r in
  if total =? sc_size c then inl (total, ops) else inr (WrongTotal total).

(** [run]: the warm-up runs, each with the result of the [rewind] after it, then
    the measured one. *)
Fixpoint run c (warmups : list (((Z * Z) + stream_error) * io_result unit))
    (timed : (Z * Z) + stream_error) : (Z * Z) + stream_error :=
  match warmups with
  | [] => expect_total c timed
  | (r, rewound) :: rest =>
      let! _ := expect_total c r in
      match rewound with
      | Ok _ => run c rest timed
      | Err e => inr (RewindFailed e)
      end
  end.

(** ** Lemmas: names, arguments, plan *)

Lemma parse_name s : parse (name s) = Some s.
Proof. by destruct s. Qed.

Lemma name_parse s st : parse s = Some st -> s = name st.
Proof. unfold parse. repeat (case_bool_decide; [by intros [= <-]|]). done. Qed.

(** What a validated configuration satisfies. *)
Record config_ok c : Prop := {
  co_size : 0 < sc_size c <= i64_max;
  co_chunk : 0 < sc_chunk c <= MAX_CHUNK;
  co_qd : 0 < sc_qd c <= MAX_QD;
  co_align : is_power_of_two (sc_align c) = true /\ MIN_ALIGN <= sc_align c <= MAX_ALIGN;
  co_direct : is_direct (sc_strategy c) = true -> (sc_align c | sc_chunk c)
}.

Lemma validate_ok c :
  0 <= sc_size c -> 0 <= sc_chunk c -> 0 <= sc_qd c ->
  validate c = inl tt <-> config_ok c.
Proof.
  intros Hs Hch Hq. unfold validate.
  assert (Hmax : MAX_CHUNK + MAX_ALIGN <= usize_max).
  { by destruct usize_max_ok as [-> | ->]. }
  assert (Hmod : sc_align c <> 0 -> (sc_chunk c mod sc_align c =? 0) = true <-> (sc_align c | sc_chunk c))
    by (intros; by rewrite Z.eqb_eq, Z.mod_divide).
  assert (HM : MIN_ALIGN = 512) by done.
  split.
  - repeat (case_match; [done|]). bools. intros _.
    repeat match goal with H : (_ =? _) = false |- _ => apply Z.eqb_neq in H end.
    constructor; try lia; [by split; [|lia]|]. intros Hd. apply Hmod; [lia|].
    rewrite Hd in *. destruct (_ mod _ =? 0); naive_solver.
  - intros [? ? ? [Hp ?] Hd]. rewrite Hp.
    rewrite !(proj2 (Z.eqb_neq _ 0)), !(proj2 (Z.ltb_ge _ _)) by lia. simpl.
    destruct (is_direct _); simpl; [rewrite (proj2 (Hmod ltac:(lia)) (Hd eq_refl)); simpl|];
      unfold checked_add; by rewrite (proj2 (Z.leb_le _ _)) by lia.
Qed.

(** The reads of the plan tile the file, in order. *)
Lemma plan_entries size chunk off len :
  0 < chunk -> 0 <= size -> (off, len) ∈ plan size chunk ->
  (chunk | off) /\ 0 <= off /\ 0 < len <= chunk /\ off + len <= size.
Proof.
  intros Hc Hs. unfold plan. rewrite list_elem_of_fmap. intros (k & [= -> ->] & Hk%elem_of_seqZ).
  assert (k * chunk < size) by (Z.to_euclidean_division_equations; nia).
  split_and!; [by exists k|nia|lia..].
Qed.

Lemma plan_prefix size chunk (n : nat) :
  0 < chunk -> 0 <= size -> (Z.of_nat n - 1) * chunk < size \/ n = 0%nat ->
  let entries := (fun k => (k * chunk, Z.min chunk (size - k * chunk))) <$> seqZ 0 (Z.of_nat n) in
  let upto := Z.min size (Z.of_nat n * chunk) in
  concat ((fun '(off, len) => pattern off len) <$> entries) = pattern 0 upto /\
  foldr Z.add 0 (snd <$> entries) = upto.
Proof.
  intros Hc Hs. induction n as [|n IH]; intros Hn entries upto.
  { unfold upto. rewrite Z.min_r by lia. split; reflexivity. }
  unfold entries, upto. clear entries upto. rewrite Nat2Z.inj_succ in *.
  rewrite <-Z.add_1_r, seqZ_app by lia.
  rewrite (seqZ_cons (0 + _) 1), (seqZ_nil _ (Z.pred 1)) by lia.
  rewrite !fmap_app, concat_app. destruct IH as [IHc IHs]; [nia|]. rewrite IHc.
  cbn [fmap list_fmap concat snd]. rewrite app_nil_r, Z.add_0_l.
  assert (Hk : Z.of_nat n * chunk < size) by nia. split.
  - rewrite <-(Z.add_0_l (Z.of_nat n * chunk)) at 2.
    rewrite (Z.min_r size) by lia. rewrite <-pattern_app by nia. f_equal. nia.
  - rewrite foldr_add_app, IHs. cbn [foldr]. nia.
Qed.

Lemma plan_tiles size chunk :
  0 < chunk -> 0 <= size ->
  concat ((fun '(off, len) => pattern off len) <$> plan size chunk) = pattern 0 size /\
  foldr Z.add 0 (snd <$> plan size chunk) = size.
Proof.
  intros Hc Hs. set (n := Z.to_nat ((size + chunk - 1) / chunk)).
  assert (Hq : Z.of_nat n = (size + chunk - 1) / chunk).
  { unfold n. rewrite Z2Nat.id; [done|]. apply Z.div_pos; lia. }
  destruct (plan_prefix size chunk n Hc Hs) as [Hcat Hsum].
  { rewrite Hq. destruct (decide (size = 0)) as [->|?]; [right; unfold n; by rewrite Z.div_small by lia|].
    left. Z.to_euclidean_division_equations. nia. }
  unfold plan. rewrite Hq in *.
  rewrite Z.min_l in Hcat, Hsum by (Z.to_euclidean_division_equations; nia). done.
Qed.

(** The assertion of [aligned_buf] holds, and the buffer is aligned. *)
Lemma aligned_buf_ok len align addr :
  0 < align -> exists pad, aligned_buf len align addr = Some (len + align, pad) /\
    0 <= pad < align /\ (align | addr + pad).
Proof.
  intros Ha. destruct (align_offset_spec addr align Ha). unfold aligned_buf.
  rewrite (proj2 (Z.leb_le _ _)) by lia. eauto.
Qed.

(** ** Lemmas: the sequential loops *)

(** Reads of a file [F]: some bytes at the position, none only at its end. *)
Definition reads_file (F : list Byte.byte) (read : Z -> io_result (list Byte.byte)) : Prop :=
  forall off, 0 <= off -> exists n, read off = Ok (slice F off n) /\ 0 <= n <= zlen F - off /\
    (n = 0 -> zlen F <= off) \/ zlen F <= off /\ read off = Ok [].

Lemma reads_file_at F read off :
  reads_file F read -> 0 <= off <= zlen F ->
  exists n, read off = Ok (slice F off n) /\ zlen (slice F off n) = n /\ 0 <= n <= zlen F - off /\
    (n = 0 -> off = zlen F).
Proof.
  intros Hr Ho. destruct (Hr off) as (n & [(Hn & Hb & Hz)|[Hle Hn]]); [lia| |].
  - exists n. split_and!; [done|rewrite zlen_slice; lia|lia..].
  - exists 0. rewrite slice_0. split_and!; [done|done|lia..].
Qed.

Lemma checked_pattern c size offset n :
  0 <= offset -> 0 <= n -> offset + n <= size -> size <= u64_max ->
  checked c offset (slice (pattern 0 size) offset n) = inl tt.
Proof. intros. unfold checked. rewrite created_file_verifies by done. by case_match. Qed.

(** The buffered loop reads the whole created file, whatever the sizes of its reads. *)
Lemma std_buffered_total c read size fuel total ops :
  reads_file (pattern 0 size) read -> 0 <= total <= size -> size <= u64_max ->
  size - total < Z.of_nat fuel ->
  exists ops', run_std_buffered fuel c read total ops = Some (inl (size, ops')).
Proof.
  intros Hr Ht Hs. revert total ops Ht. induction fuel as [|fuel IH]; intros total ops Ht Hf; [lia|].
  pose proof (zlen_pattern 0 size ltac:(lia)) as Hlen. cbn [run_std_buffered].
  destruct (reads_file_at _ _ total Hr) as (n & -> & Hz & Hn & Hend); [lia|]. rewrite Hz.
  destruct (Z.eqb_spec n 0) as [H0|Hne]; [exists ops; do 3 f_equal; rewrite Hend; done|].
  rewrite checked_pattern with (size := size) by lia. apply IH; lia.
Qed.

(** So does the [O_DIRECT] loop, and of a longer file it counts the part asked for. *)
Lemma std_odirect_total c read fsize fuel ops off :
  reads_file (pattern 0 fsize) read -> 0 <= sc_size c <= fsize -> fsize <= u64_max ->
  0 <= off <= fsize -> 0 < Z.of_nat fuel -> sc_size c - off < Z.of_nat fuel ->
  exists ops', run_std_odirect fuel c read (Z.min off (sc_size c)) ops off =
    Some (inl (sc_size c, ops')).
Proof.
  intros Hr Hs Hmax. revert ops off. induction fuel as [|fuel IH]; intros ops off Ho Hf0 Hf; [lia|].
  pose proof (zlen_pattern 0 fsize ltac:(lia)) as Hlen. cbn [run_std_odirect].
  destruct (Z.ltb_spec off (sc_size c)) as [Hlt|Hge]; [|exists ops; by rewrite Z.min_r by lia].
  destruct (reads_file_at _ _ off Hr) as (n & -> & Hz & Hn & Hend); [lia|]. rewrite Hz.
  destruct (Z.eqb_spec n 0) as [H0|Hne]; [lia|].
  set (logical := Z.min n (sc_size c - off)).
  rewrite slice_slice, Z.add_0_r by lia. rewrite checked_pattern with (size := fsize) by lia.
  destruct (IH (ops + 1) (off + n)) as [ops' Hops]; [lia..|]. exists ops'.
  rewrite <-Hops. f_equal. lia.
Qed.

(** ** Lemmas: the reads in flight *)

Lemma fill_spec fuel c n (set : list nat) idx :
  (n - idx <= fuel)%nat -> (idx <= n)%nat -> set = seq 0 idx -> 0 < sc_qd c -> zlen set <= sc_qd c ->
  exists idx', fill fuel c n set idx = (seq 0 idx', idx') /\ (idx <= idx' <= n)%nat /\
    Z.of_nat idx' <= sc_qd c /\ (idx' = n \/ Z.of_nat idx' = sc_qd c).
Proof.
  intros Hf Hi -> Hq. unfold zlen. rewrite length_seq. revert idx Hf Hi.
  induction fuel as [|fuel IH]; intros idx Hf Hi Hl; cbn [fill]; [exists idx; repeat split; lia|].
  unfold zlen. rewrite length_seq. case_match eqn:E.
  - bools. apply Nat.ltb_lt in H1. replace (seq 0 idx ++ [idx]) with (seq 0 (S idx)) by apply seq_S.
    destruct (IH (S idx)) as (idx' & -> & ? & ? & ?); [lia..|]. exists idx'. repeat split; lia.
  - exists idx. bools. split; [done|]. split; [lia|]. split; [lia|].
    destruct E as [E|E]; bools; [right; lia|]. apply Nat.ltb_ge in E. left. lia.
Qed.

(** A completion frees a place before the next read takes it. *)
Lemma spawn_next_depth n set idx set' idx' k :
  (k < length set)%nat -> spawn_next n (delete k set) idx = (set', idx') ->
  (length set' <= length set)%nat /\ (idx' <= S idx)%nat.
Proof.
  intros Hk. pose proof Hk as [x Hx]%lookup_lt_is_Some.
  pose proof (length_delete set k ltac:(eauto)) as Hl. unfold spawn_next.
  case_match; intros [= <- <-]; rewrite ?length_app; simpl; lia.
Qed.

Lemma spawn_next_perm n set idx set' idx' i k done_ :
  set !! k = Some i -> (idx <= n)%nat -> done_ ++ set ≡ₚ seq 0 idx ->
  spawn_next n (delete k set) idx = (set', idx') ->
  (done_ ++ [i]) ++ set' ≡ₚ seq 0 idx' /\ (idx' <= n)%nat /\ (set' = [] -> idx' = n).
Proof.
  intros Hk Hi Hp. unfold spawn_next.
  assert (Hd : (done_ ++ [i]) ++ delete k set ≡ₚ seq 0 idx).
  { rewrite <-Hp, <-(app_assoc done_). apply Permutation_app_head. simpl.
    symmetry. by apply delete_Permutation. }
  destruct (Nat.ltb_spec idx n) as [Hlt|Hge]; intros [= <- <-].
  - rewrite seq_S, app_assoc, Hd. split_and!; [done|lia|]. intros He.
    apply app_eq_nil in He as [_ ?]. done.
  - split_and!; [done..|lia].
Qed.

(** The bytes an entry's task counted. *)
Definition task_bytes c read (entry : Z * Z) : Z :=
  match task_result c read entry with inl n => n | inr _ => 0 end.

Definition all_bytes c read (entries : list (Z * Z)) (is_ : list nat) : Z :=
  foldr Z.add 0 ((fun i => task_bytes c read (nth i entries (0, 0))) <$> is_).

Lemma drain_spec fuel c entries read next set idx done_ total ops :
  done_ ++ set ≡ₚ seq 0 idx -> (idx <= length entries)%nat -> (set = [] -> idx = length entries) ->
  (length entries - length done_ < fuel)%nat ->
  Forall (fun i => exists n, task_result c read (nth i entries (0, 0)) = inl n) done_ ->
  total = all_bytes c read entries done_ -> ops = zlen done_ ->
  exists r, drain fuel c entries read next set idx total ops = Some r /\
    match r with
    | inl (t, o) =>
        (forall i, (i < length entries)%nat -> exists n, task_result c read (nth i entries (0, 0)) = inl n) /\
        t = all_bytes c read entries (seq 0 (length entries)) /\ o = zlen entries
    | inr e => exists i, (i < length entries)%nat /\ task_result c read (nth i entries (0, 0)) = inr e
    end.
Proof.
  revert set idx done_ total ops. induction fuel as [|fuel IH];
    intros set idx done_ total ops Hp Hi He Hf Hok -> ->; [lia|].
  cbn [drain]. destruct (set !! _) as [i|] eqn:Hk.
  - assert (Hin : i ∈ seq 0 idx).
    { rewrite <-Hp. apply elem_of_app. right. by eapply list_elem_of_lookup_2. }
    apply elem_of_seq in Hin.
    destruct (task_result c read (nth i entries (0, 0))) as [n|e] eqn:Ht.
    2: { eexists. split; [done|]. exists i. split; [lia|done]. }
    destruct (spawn_next _ _ _) as [set' idx'] eqn:Hs.
    destruct (spawn_next_perm _ _ _ _ _ _ _ done_ Hk Hi Hp Hs) as (Hp' & Hi' & He').
    apply (IH set' idx' (done_ ++ [i])); try done.
    + apply Permutation_length in Hp. rewrite length_app in *. rewrite length_seq in Hp.
      apply lookup_lt_Some in Hk. simpl. lia.
    + apply Forall_app. split; [done|]. constructor; [eauto|done].
    + unfold all_bytes. rewrite fmap_app, foldr_add_app. simpl. unfold task_bytes at 3. rewrite Ht. lia.
    + unfold zlen. rewrite length_app. simpl. lia.
  - assert (set = []) as ->.
    { destruct set as [|x set]; [done|]. apply lookup_ge_None in Hk.
      pose proof (Nat.mod_upper_bound (next (zlen done_)) (length (x :: set))). simpl in *. lia. }
    rewrite app_nil_r, (He eq_refl) in Hp. eexists. split; [done|]. split_and!.
    + intros i Hlt. rewrite Forall_forall in Hok. apply Hok. rewrite Hp. apply elem_of_seq. lia.
    + unfold all_bytes. by rewrite Hp.
    + unfold zlen. apply Permutation_length in Hp. rewrite length_seq in Hp. lia.
Qed.

Lemma task_verified c read off len n :
  sc_verify c = true -> 0 <= off -> 0 <= len -> off + len <= u64_max ->
  task_result c read (off, len) = inl n <-> read off len = Some (Ok (pattern off len)) /\ n = len.
Proof.
  intros Hv Ho Hl Hm. unfold task_result, checked. rewrite Hv.
  pose proof (zlen_pattern off len Hl) as Hz.
  destruct (read off len) as [[bytes|e]|]; [|by split; [|intros [? _]]..].
  destruct (Z.eqb_spec (zlen bytes) len) as [Heq|Hne]; simpl.
  2: { split; [done|]. intros [[= ->] _]. done. }
  pose proof (verify_range_Verified off bytes Ho ltac:(lia)) as Hiff. rewrite Heq in Hiff. split.
  - case_match; simpl; [|done..]. intros [= <-]. destruct Hiff as [-> _]; done.
  - intros [[= ->] ->]. destruct Hiff as [_ ->]; [|done]. simpl. by rewrite Hz.
Qed.

(** The plan's entries, one by one. *)
Lemma all_bytes_plan c read entries :
  (forall off len, (off, len) ∈ entries -> task_bytes c read (off, len) = len) ->
  all_bytes c read entries (seq 0 (length entries)) = foldr Z.add 0 (snd <$> entries).
Proof.
  intros Hall. unfold all_bytes. f_equal. apply list_eq. intros i.
  rewrite !list_lookup_fmap. destruct (entries !! i) as [[off len]|] eqn:Hi; simpl.
  - rewrite lookup_seq_lt by by eapply lookup_lt_Some. simpl. f_equal.
    rewrite (nth_lookup_Some _ _ _ _ Hi). apply Hall. by eapply list_elem_of_lookup_2.
  - by rewrite lookup_seq_ge by by apply lookup_ge_None.
Qed.

Lemma run_uring_spec c read next :
  config_ok c ->
  let entries := plan (sc_size c) (sc_chunk c) in
  exists r, run_uring c read next = Some r /\
    match r with
    | inl (t, o) =>
        (forall i, (i < length entries)%nat -> exists n, task_result c read (nth i entries (0, 0)) = inl n) /\
        t = all_bytes c read entries (seq 0 (length entries)) /\ o = zlen entries
    | inr e => exists i, (i < length entries)%nat /\ task_result c read (nth i entries (0, 0)) = inr e
    end.
Proof.
  intros [_ _ Hq _ _] entries. unfold run_uring. fold entries.
  destruct (fill_spec (length entries) c (length entries) [] 0) as (idx & -> & Hi & Hl & Hend);
    [lia..|done|lia|unfold zlen; simpl; lia|].
  apply (drain_spec _ _ _ _ _ _ _ []); try done; [lia| |simpl; lia].
  intros He. apply (f_equal length) in He. rewrite length_seq in He. simpl in He. lia.
Qed.

(** A measurement is of the whole file. *)
Lemma run_total c warmups timed total ops :
  run c warmups timed = inl (total, ops) -> total = sc_size c /\ timed = inl (total, ops).
Proof.
  induction warmups as [|[r rewound] rest IH]; simpl.
  2: { intros ([t o] & _ & Hr)%try_inl. destruct rewound; [auto|done]. }
  unfold expect_total. intros ([t o] & -> & Ht)%try_inl. case_match; [|done]. bools.
  by injection Ht as <- <-.
Qed.

(** On the file [create_file] leaves, the sequential strategies read all of it. *)
Lemma sequential_run_total c read driver next :
  config_ok c -> reads_file (pattern 0 (sc_size c)) read ->
  sc_strategy c = StdBuffered \/ sc_strategy c = StdODirect ->
  exists ops, run_once (S (Z.to_nat (sc_size c))) c read driver next = Some (inl (sc_size c, ops)).
Proof.
  intros [Hs _ _ _ _] Hr Hst. unfold i64_max in *. assert (sc_size c <= u64_max) by (unfold u64_max; lia).
  unfold run_once. destruct Hst as [-> | ->].
  - by apply (std_buffered_total c read (sc_size c)); [| | |lia]; [|lia|].
  - pose proof (std_odirect_total c read (sc_size c) (S (Z.to_nat (sc_size c))) 0 0 Hr) as Ho.
    rewrite Z.min_l in Ho by lia. apply Ho; lia.
Qed.

(** ** Property *)

(** [C40] A verified streaming run succeeds exactly when the driver's reads return the file:
    whatever order the reads in flight complete in, the pipeline ends, and it reports
    success if and only if every read of the plan returned the bytes the file has at its
    offset, all of them; it then counts each read once and exactly the file's size. *)
Theorem verified_stream_exact c read next :
  config_ok c -> sc_verify c = true ->
  let entries := plan (sc_size c) (sc_chunk c) in
  exists r, run_uring c read next = Some r /\
    ((exists t, r = inl t) <->
     forall off len, (off, len) ∈ entries -> read off len = Some (Ok (pattern off len))) /\
    (forall total ops, r = inl (total, ops) -> total = sc_size c /\ ops = zlen entries).
Proof.
  intros Hc Hv entries. destruct (run_uring_spec c read next Hc) as (r & Hr & Hspec).
  fold entries in Hspec. exists r. split; [done|]. destruct Hc as [Hs Hch _ _ _].
  assert (Htask : forall off len n, (off, len) ∈ entries ->
    task_result c read (off, len) = inl n <-> read off len = Some (Ok (pattern off len)) /\ n = len).
  { intros off len n Hin. apply plan_entries in Hin; [|lia..].
    unfold i64_max in *. apply task_verified; unfold u64_max; (done || lia). }
  assert (Hnth : forall i, (i < length entries)%nat -> nth i entries (0, 0) ∈ entries).
  { intros i Hi. apply list_elem_of_In, nth_In, Hi. }
  split.
  - split.
    + intros [[t o] ->] off len Hin. destruct Hspec as [Hall _].
      apply list_elem_of_lookup in Hin as Hi. destruct Hi as [i Hi].
      destruct (Hall i) as [n Hn]; [by eapply lookup_lt_Some|].
      rewrite (nth_lookup_Some _ _ _ _ Hi) in Hn. by apply Htask in Hn as [? _].
    + intros Hall. destruct r as [t|e]; [eauto|]. destruct Hspec as (i & Hi & He).
      specialize (Hnth i Hi). destruct (nth i entries (0, 0)) as [off len].
      rewrite (proj2 (Htask off len len Hnth)) in He; [done|]. split; [by apply Hall|done].
  - intros total ops ->. destruct Hspec as (Hall & -> & ->). split; [|done].
    rewrite all_bytes_plan; [by apply plan_tiles; lia|]. intros off len Hin.
    apply list_elem_of_lookup in Hin as Hi. destruct Hi as [i Hi].
    destruct (Hall i) as [n Hn]; [by eapply lookup_lt_Some|].
    rewrite (nth_lookup_Some _ _ _ _ Hi) in Hn. unfold task_bytes. rewrite Hn.
    by apply Htask in Hn as [_ ->].
Qed.
End Streaming.

(** ** Witness *)

(** Five bytes in reads of two, at most two in flight, completing last first. *)
Definition demo_config : Config :=
  mkConfig UringReadAt "bench" 5 2 2 512 true 1 128 0.

Definition demo_read (off len : Z) : option (io_result (list Byte.byte)) :=
  Some (Ok (pattern off len)).

Lemma demo_config_ok : config_ok demo_config.
Proof. constructor; simpl; unfold i64_max, MAX_CHUNK, MAX_QD, MIN_ALIGN, MAX_ALIGN; (done || lia). Qed.

Lemma verified_stream_exact_witness :
  run_uring demo_config demo_read (fun _ => 1%nat) = Some (inl (5, 3)) /\
  exists r, run_uring demo_config demo_read (fun _ => 1%nat) = Some r /\
    ((exists t, r = inl t) <->
     forall off len, (off, len) ∈ plan 5 2 -> demo_read off len = Some (Ok (pattern off len))) /\
    (forall total ops, r = inl (total, ops) -> total = 5 /\ ops = 3).
Proof.
  split; [vm_compute; reflexivity|].
  exact (verified_stream_exact demo_config demo_read (fun _ => 1%nat) demo_config_ok eq_refl).
Defined.
