(* ===== verification/StreamingMain.v ===== *)
(** * The streaming benchmark's program

    [run] and [main] of [src/examples/streaming_bench/linux.rs]: what a run
    sets up before its reads, and the outcome of the process. Clocks and the
    printed line's floating-point rates are left out; what the operating system
    and the driver's start answer are records of inputs. *)

From S2P Require Import Prelude IoError Pending Startup ProbeFile Settings Pattern Streaming.

Open Scope Z_scope.

(** The flags [open_read] opens the file with, for reading. *)
Definition open_read (direct : bool) : list open_flag :=
  [O_NOFOLLOW; O_CLOEXEC] ++ if direct then [O_DIRECT] else [].

Definition uses_uring (s : Strategy) : bool :=
  match s with UringReadAt | UringReadAtDirect => true | _ => false end.

(** [Prepared]: the file, the buffer's length and padding, whether there is a
    driver, and the plan of its reads. *)
Record Prepared := mkPrepared {
  pr_file : File;
  pr_buf : Z;
  pr_pad : Z;
  pr_driver : bool;
  pr_offsets : list (Z * Z)
}.

(** [run]'s errors, reported as messages. *)
Inductive run_error :=
| RuntimeFailed (e : IoError)
| OpenFailed (e : IoError)
| ProbeFailed (e : ProbeFailure)
| StreamFailed (e : stream_error).

(** What the set-up is answered: the runtime's creation, the opening of the
    file, the driver's start for a number of ring entries, and the address of
    the allocated buffer. *)
Record SetupOs := mkSetupOs {
  so_runtime : io_result unit;
  so_open : list open_flag -> io_result File;
  so_probe : Z -> unit + ProbeFailure;
  so_addr : Z
}.

Definition ok_as {A E} (f : IoError -> E) (r : io_result A) : A + E :=
  match r with Ok v => inl v | Err e => inr (f e) end.

Section Main.
Context `{Target}.

(** The set-up of [run]; [None] is the failed assertion of [aligned_buf]. *)
Definition prepare (c : Config) (os : SetupOs) : option (Prepared + run_error) :=
  let uring := uses_uring (sc_strategy c) in
  let opened :=
    let! _ := if uring then ok_as RuntimeFailed (so_runtime os) else inl tt in
    let! file := ok_as OpenFailed (so_open os (open_read (is_direct (sc_strategy c)))) in
    let! _ := if uring then map_err ProbeFailed (so_probe os (sc_ring_entries c)) else inl tt in
    inl file in
  match opened with
  | inr e => Some (inr e)
  | inl file =>
      '(len, pad) ← match sc_strategy c with
                    | StdBuffered => Some (sc_chunk c, 0)
                    | StdODirect => aligned_buf (sc_chunk c) (sc_align c) (so_addr os)
                    | _ => Some (0, 0)
                    end;
      Some (inl (mkPrepared file len pad uring
                   (if uring then plan (sc_size c) (sc_chunk c) else [])))
  end.

(** [run]: the set-up, then the warm-up runs and the measured one; [once k] is
    what the [k]th [run_once] gives and [rewound k] the [rewind] after it. *)
Definition run_program (c : Config) (os : SetupOs) (once : nat -> (Z * Z) + stream_error)
    (rewound : nat -> io_result unit) : option ((Z * Z) + run_error) :=
  prepared ← prepare c os;
  let warmups := Z.to_nat (sc_warmup_runs c) in
  Some (let! _ := prepared in
        map_err StreamFailed
          (run c ((fun k => (once k, rewound k)) <$> seq 0 warmups) (once warmups))).

(** How the process ends: the header, exit code 2 for a configuration or file
    it cannot use, [FAILURE] for a run that failed, or the line it prints. *)
Inductive exit :=
| Header
| BadConfig (e : config_error)
| BadFile (e : ensure_error)
| RunFailed (e : run_error)
| Reported (c : Config) (total ops : Z).

Definition exit_code (e : exit) : Z :=
  match e with
  | Header | Reported _ _ _ => 0
  | BadConfig _ | BadFile _ => 2
  | RunFailed _ => 1
  end.

(** [main], on the arguments after the program's name; [ensure] is
    [ensure_file] of the path and size it is given, [None] a panic. *)
Definition main (args : list string) (env : string -> env_value) (diagnostics : bool)
    (parallelism : option Z) (ensure : string -> Z -> unit + ensure_error) (os : SetupOs)
    (once : Config -> nat -> (Z * Z) + stream_error) (rewound : nat -> io_result unit) :
    option exit :=
  if bool_decide (args !! 0%nat = Some "--header") then Some Header
  else
    match parse_args args env diagnostics parallelism with
    | inr e => Some (BadConfig e)
    | inl c =>
        match ensure (sc_file c) (sc_size c) with
        | inr e => Some (BadFile e)
        | inl _ =>
            r ← run_program c os (once c) rewound;
            Some match r with
                 | inl (total, ops) => Reported c total ops
                 | inr e => RunFailed e
                 end
        end
    end.

(** ** Lemmas *)

Lemma expect_total_inl c r total ops :
  expect_total c r = inl (total, ops) <-> r = inl (total, ops) /\ total = sc_size c.
Proof.
  unfold expect_total. destruct r as [[t o]|e]; simpl; [|by split; [|intros []]].
  destruct (Z.eqb_spec t (sc_size c)) as [Ht|Hn]; split.
  - by intros [= <- <-].
  - by intros [[= <- <-] _].
  - done.
  - intros [[= <- <-] ?]. done.
Qed.

Lemma run_inl c warmups timed total ops :
  run c warmups timed = inl (total, ops) ->
  timed = inl (total, ops) /\ total = sc_size c /\
  Forall (fun '(r, rewound) => (exists o, r = inl (sc_size c, o)) /\ rewound = Ok tt) warmups.
Proof.
  induction warmups as [|[r rewound] warmups IH]; simpl.
  - intros [-> ->]%expect_total_inl. by split_and!.
  - intros ([t o] & [-> ->]%expect_total_inl & Hr)%try_inl.
    destruct rewound as [[]|e]; [|done]. destruct (IH Hr) as (-> & -> & Hall).
    split_and!; [done..|]. constructor; eauto.
Qed.

(** The set-up of a validated configuration never panics, whatever the address
    of its buffer, and prepares what its strategy uses. *)
Lemma prepare_spec c os :
  config_ok c -> 0 <= so_addr os ->
  exists r, prepare c os = Some r /\
    match r with
    | inl p => pr_driver p = uses_uring (sc_strategy c) /\
        (pr_driver p = true -> pr_offsets p = plan (sc_size c) (sc_chunk c)) /\
        (pr_driver p = false -> pr_pad p + sc_chunk c <= pr_buf p) /\
        (sc_strategy c = StdODirect -> (sc_align c | so_addr os + pr_pad p))
    | inr (StreamFailed _) => False
    | inr _ => True
    end.
Proof.
  intros Hok Haddr. destruct Hok as [_ ? _ [_ ?] _]. unfold prepare.
  set (opened := let! _ := _ in _).
  assert (Ho : match opened with inr (StreamFailed _) => False | _ => True end).
  { subst opened. destruct (uses_uring _); destruct (so_runtime os); simpl; try done;
      destruct (so_open os _); simpl; try done; by destruct (so_probe os _). }
  destruct opened as [file|e]; [|by destruct e; eauto].
  destruct (aligned_buf_ok (sc_chunk c) (sc_align c) (so_addr os)) as (pad & Hp & Hb);
    [unfold MIN_ALIGN in *; lia|].
  destruct (sc_strategy c); simpl; rewrite ?Hp; simpl; eexists; (split; [done|]); simpl;
    split_and!; intros; done || lia || apply Hb.
Qed.

(** The process reports only a run that read the whole file: the line it
    prints is that of a valid configuration, of the file asked for, and of a
    measured run that read all of it, as did every warm-up run before. *)
Lemma streaming_main_reported args env diag par ensure os once rewound c total ops :
  main args env diag par ensure os once rewound = Some (Reported c total ops) ->
  parse_args args env diag par = inl c /\ ensure (sc_file c) (sc_size c) = inl tt /\
  total = sc_size c /\ once c (Z.to_nat (sc_warmup_runs c)) = inl (total, ops) /\
  forall k, (k < Z.to_nat (sc_warmup_runs c))%nat ->
    (exists o, once c k = inl (sc_size c, o)) /\ rewound k = Ok tt.
Proof.
  unfold main. case_bool_decide; [done|].
  destruct (parse_args _ _ _ _) as [c'|]; [|done].
  destruct (ensure _ _) as [[]|] eqn:He; [|done]. unfold run_program.
  destruct (prepare c' os) as [[p|]|]; simpl; [|done..].
  destruct (run c' _ _) as [[t o]|] eqn:Hr; simpl; [|done].
  intros [= -> -> ->]. apply run_inl in Hr as (Ht & -> & Hw). split_and!; try done.
  intros k Hk. rewrite Forall_fmap, Forall_forall in Hw. apply Hw.
  apply elem_of_seq. lia.
Qed.

(** Whatever happens, the process ends with 0, 1 or 2, and with 0 only after
    printing the header or a report. *)
Lemma exit_code_spec e :
  exit_code e = 0 <-> e = Header \/ exists c total ops, e = Reported c total ops.
Proof. destruct e; simpl; split; try done; eauto; intros [?|(? & ? & ? & ?)]; done. Qed.
End Main.
