(* ===== verification/Concurrent.v ===== *)
(** * The concurrent-read benchmark

    [src/examples/concurrent_pread_bench/linux.rs]: its arguments and their
    validation, the offsets it draws, how it splits them over its tasks, and
    one operation of each strategy. System calls, joins and clocks answer from
    records of inputs; percentiles, which are floating point, are left out. *)

From S2P Require Import Prelude IoError Settings Pattern.

Inductive Strategy := StdOpenPread | StdCachedPread | UringOpenRead | UringCachedRead.

(** [Strategy::parse]: [None] for an unknown name. *)
Definition parse (s : string) : option Strategy :=
  if bool_decide (s = "std_open_pread") then Some StdOpenPread
  else if bool_decide (s = "std_cached_pread") then Some StdCachedPread
  else if bool_decide (s = "uring_open_read") then Some UringOpenRead
  else if bool_decide (s = "uring_cached_read") then Some UringCachedRead
  else None.

Definition name (s : Strategy) : string :=
  match s with
  | StdOpenPread => "std_open_pread"
  | StdCachedPread => "std_cached_pread"
  | UringOpenRead => "uring_open_read"
  | UringCachedRead => "uring_cached_read"
  end.

Definition uses_cached_fd (s : Strategy) : bool :=
  match s with StdCachedPread | UringCachedRead => true | _ => false end.

Definition uses_uring (s : Strategy) : bool :=
  match s with UringOpenRead | UringCachedRead => true | _ => false end.

Definition MAX_CONCURRENCY : Z := 4096.
Definition MAX_READ_SIZE : Z := 2 ^ 30.

Record Config := mkConfig {
  cc_strategy : Strategy;
  cc_file : string;
  cc_file_size : Z;
  cc_read_size : Z;
  cc_concurrency : Z;
  cc_total_ops : Z;
  cc_shards : Z;
  cc_verify : bool;
  cc_workers : Z;
  cc_ring_entries : Z;
  cc_warmup_ops : Z
}.

(** The errors of [parse_args] and [validate], reported as messages. *)
Inductive config_error :=
| Usage
| UnknownStrategy (s : string)
| NotANumber (arg raw : string)
| BadSetting (e : setting_error)
| BadReadSize
| FileTooLarge
| FileTooSmall
| BadConcurrency
| ZeroOps
| BadShards.

Section Arguments.
Context `{Target}.
Implicit Types c : Config.

Definition validate c : unit + config_error :=
  if (cc_read_size c =? 0) || (MAX_READ_SIZE <? cc_read_size c) then inr BadReadSize
  else if i64_max <? cc_file_size c then inr FileTooLarge
  else if cc_file_size c <? cc_read_size c + 4096 then inr FileTooSmall
  else if (cc_concurrency c =? 0) || (MAX_CONCURRENCY <? cc_concurrency c) then inr BadConcurrency
  else if cc_total_ops c =? 0 then inr ZeroOps
  else if (cc_shards c =? 0) || (64 <? cc_shards c) then inr BadShards
  else inl tt.

Definition parse_u64 (arg raw : string) : Z + config_error :=
  ok_or (parse_unsigned u64_max raw) (NotANumber arg raw).

(** [parse(..)? as usize]. *)
Definition parse_as_usize (arg raw : string) : Z + config_error :=
  let! v := parse_u64 arg raw in inl (wrap usize_max v).

(** [parse_args] on the arguments after the program's name. *)
Definition parse_args (args : list string) (env : string -> env_value) (diagnostics : bool)
    (parallelism : option Z) : Config + config_error :=
  match args with
  | s :: f :: file_size :: read_size :: concurrency :: total_ops :: more =>
      if (1 <? zlen more) then inr Usage
      else
        let! strategy := ok_or (parse s) (UnknownStrategy s) in
        let! file_size := parse_u64 "file_size" file_size in
        let! read_size := parse_as_usize "read_size" read_size in
        let! concurrency := parse_as_usize "concurrency" concurrency in
        let! total_ops := parse_as_usize "total_ops" total_ops in
        let! shards := match more with
                       | raw :: _ => parse_as_usize "shards" raw
                       | [] => inl 1
                       end in
        let verify := env_is (env "BENCH_VERIFY") "1" || env_is (env "BENCH_VERIFY") "true" in
        let! w := map_err BadSetting (workers env diagnostics parallelism) in
        let! entries := map_err BadSetting (ring_entries env 128) in
        let! warmup := map_err BadSetting (setting env "BENCH_WARMUP_OPS" 0 0 10000000) in
        let c := mkConfig strategy f file_size read_size concurrency total_ops shards verify w
                   entries warmup in
        let! _ := validate c in
        inl c
  | _ => inr Usage
  end.
End Arguments.

(** ** The offsets *)

Definition BLOCK : Z := 4096.

Definition lcg (state : Z) : Z :=
  wrap u64_max (wrapping_mul state 6364136223846793005 + 1442695040888963407).

Fixpoint draw (ops : nat) (blocks state : Z) : list Z :=
  match ops with
  | O => []
  | S ops => let state := lcg state in
             (Z.shiftr state 33 mod blocks) * BLOCK :: draw ops blocks state
  end.

(** [offsets]. *)
Definition offsets (c : Config) (ops : nat) : list Z :=
  let blocks := (cc_file_size c - cc_read_size c) / BLOCK in
  draw ops blocks 0x2545f4914f6cdd1d.

(** ** The operations *)

(** What one operation is answered: whether its blocking task was joined, the
    results of [open_read], [metadata], [read_exact_at] and the driver's read,
    and its latency. *)
Record OpInput := mkOpInput {
  oi_joined : bool;
  oi_open : io_result unit;
  oi_stat : io_result unit;
  oi_pread : io_result (list Byte.byte);
  oi_uring : io_result (list Byte.byte);
  oi_elapsed : Z
}.

Inductive bench_error :=
| JoinFailed
| OpFailed (e : IoError)
| ShortRead (offset got want : Z)
| BadContent (v : verdict).

(** The body of a [spawn_blocking]. *)
Definition blocking {A} (i : OpInput) (r : io_result A) : A + bench_error :=
  if oi_joined i then match r with Ok v => inl v | Err e => inr (OpFailed e) end
  else inr JoinFailed.

Definition fetch (s : Strategy) (i : OpInput) : list Byte.byte + bench_error :=
  let uring := match oi_uring i with Ok v => inl v | Err e => inr (OpFailed e) end in
  match s with
  | StdOpenPread => blocking i (let? _ := oi_open i in oi_pread i)
  | StdCachedPread => blocking i (oi_pread i)
  | UringOpenRead => let! _ := blocking i (let? _ := oi_open i in oi_stat i) in uring
  | UringCachedRead => uring
  end.

(** One turn of a task's loop: its latency. *)
Definition run_op (c : Config) (op : Z * OpInput) : Z + bench_error :=
  let '(off, i) := op in
  let! bytes := fetch (cc_strategy c) i in
  if negb (zlen bytes =? cc_read_size c) then inr (ShortRead off (zlen bytes) (cc_read_size c))
  else if cc_verify c then
    match verify_range off bytes with
    | Verified => inl (oi_elapsed i)
    | v => inr (BadContent v)
    end
  else inl (oi_elapsed i).

Fixpoint run_task (c : Config) (ops : list (Z * OpInput)) : list Z + bench_error :=
  match ops with
  | [] => inl []
  | op :: ops => let! l := run_op c op in let! ls := run_task c ops in inl (l :: ls)
  end.

(** The operations of task [t]. *)
Definition share {A} (concurrency : Z) (ops : list A) (t : Z) : list A :=
  let per_task := (zlen ops + concurrency - 1) / concurrency in
  let start_idx := Z.min (t * per_task) (zlen ops) in
  let end_idx := Z.min (start_idx + per_task) (zlen ops) in
  slice ops start_idx (end_idx - start_idx).

(** The loop over [join_next], in the order the tasks end. *)
Fixpoint join_all (c : Config) (ops : list (Z * OpInput)) (order : list Z) (all : list Z) :
    list Z + bench_error :=
  match order with
  | [] => inl all
  | t :: order =>
      let! lats := run_task c (share (cc_concurrency c) ops t) in
      join_all c ops order (all ++ lats)
  end.

(** ** Lemmas *)

Lemma parse_strategy_name s : parse (name s) = Some s.
Proof. by destruct s. Qed.

Lemma strategy_name_parse s st : parse s = Some st -> s = name st.
Proof. unfold parse. repeat (case_bool_decide; [by intros [= <-]|]). done. Qed.

Lemma draw_spec ops blocks state :
  0 < blocks -> Forall (fun o => (BLOCK | o) /\ 0 <= o <= (blocks - 1) * BLOCK) (draw ops blocks state).
Proof.
  intros Hb. revert state. induction ops as [|ops IH]; intros state; simpl; constructor; [|done].
  pose proof (Z.mod_pos_bound (Z.shiftr (lcg state) 33) blocks Hb). unfold BLOCK.
  split; [eexists; done|lia].
Qed.

Lemma length_draw ops blocks state : length (draw ops blocks state) = ops.
Proof. revert state. induction ops; intros; simpl; auto. Qed.

(** Every offset a validated configuration draws is a block of the file with
    room for a whole read; the generator's modulus is not zero. *)
Lemma offsets_in_file c ops :
  0 <= cc_read_size c -> validate c = inl tt ->
  length (offsets c ops) = ops /\
  Forall (fun o => (BLOCK | o) /\ 0 <= o /\ o + cc_read_size c <= cc_file_size c) (offsets c ops).
Proof.
  intros Hr Hv. unfold offsets. split; [apply length_draw|].
  assert (Hs : cc_read_size c + BLOCK <= cc_file_size c).
  { revert Hv. unfold validate, BLOCK. repeat (case_match; [done|]). bools. lia. }
  assert (Hb : 0 < (cc_file_size c - cc_read_size c) / BLOCK)
    by (apply Z.div_str_pos; unfold BLOCK in *; lia).
  eapply Forall_impl; [by apply draw_spec|]. intros o [Hd Ho]. split; [done|].
  unfold BLOCK in *. Z.to_euclidean_division_equations. lia.
Qed.

(** The tasks' shares are the operations, each once and in order. *)
Lemma shares_prefix {A} concurrency (ops : list A) (n : nat) :
  0 < concurrency ->
  concat (share concurrency ops <$> seqZ 0 (Z.of_nat n)) =
    slice ops 0 (Z.min (Z.of_nat n * ((zlen ops + concurrency - 1) / concurrency)) (zlen ops)).
Proof.
  intros Hc. set (per := (zlen ops + concurrency - 1) / concurrency).
  pose proof (zlen_nonneg ops).
  assert (Hper : 0 <= per) by (apply Z.div_pos; lia).
  induction n as [|n IH]; [by rewrite Z.min_l by lia|].
  rewrite Nat2Z.inj_succ, <-Z.add_1_r, seqZ_app by lia.
  rewrite (seqZ_cons (0 + _) 1), (seqZ_nil _ (Z.pred 1)) by lia.
  rewrite fmap_app, concat_app, IH. cbn [fmap list_fmap concat]. rewrite app_nil_r, Z.add_0_l.
  unfold share. fold per. set (s := Z.min (Z.of_nat n * per) (zlen ops)).
  assert (0 <= s) by (unfold s; nia).
  rewrite <-(Z.add_0_l s) at 2. rewrite <-slice_app by (unfold s; nia). f_equal. unfold s. nia.
Qed.

Lemma shares_cover {A} concurrency (ops : list A) :
  0 < concurrency -> concat (share concurrency ops <$> seqZ 0 concurrency) = ops.
Proof.
  intros Hc. pose proof (shares_prefix concurrency ops (Z.to_nat concurrency) Hc) as Hp.
  rewrite Z2Nat.id in Hp by lia. rewrite Hp. pose proof (zlen_nonneg ops).
  rewrite Z.min_r by (Z.to_euclidean_division_equations; nia).
  unfold slice, zlen. rewrite Nat2Z.id. apply firstn_all.
Qed.

Lemma run_task_inl c ops lats :
  run_task c ops = inl lats <-> Forall2 (fun op l => run_op c op = inl l) ops lats.
Proof.
  revert lats. induction ops as [|op ops IH]; intros lats; simpl.
  - split; [intros [= <-]; constructor | by inversion 1].
  - split.
    + intros (l & Hl & (ls & Hls & [= <-])%try_inl)%try_inl. constructor; [done|]. by apply IH.
    + inversion 1 as [|? l ? ls Hl Hls]; subst. rewrite Hl. simpl. apply IH in Hls. by rewrite Hls.
Qed.

Lemma run_op_elapsed c off i l : run_op c (off, i) = inl l -> l = oi_elapsed i.
Proof.
  unfold run_op. intros (bytes & _ & Hl)%try_inl. repeat case_match; by simplify_eq.
Qed.

Lemma join_all_inl c ops order all lats :
  join_all c ops order all = inl lats ->
  exists new, lats = all ++ new /\
    Forall2 (fun op l => run_op c op = inl l) (concat (share (cc_concurrency c) ops <$> order)) new.
Proof.
  revert all. induction order as [|t order IH]; intros all; simpl.
  - intros [= ->]. exists []. by rewrite app_nil_r.
  - intros (ls & Hls%run_task_inl & Hall)%try_inl. destruct (IH _ Hall) as (new & -> & Hnew).
    exists (ls ++ new). rewrite app_assoc. split; [done|]. by apply Forall2_app.
Qed.

(** A run that succeeds performed every operation exactly once, whatever order
    its tasks ended in: its latencies are those of all operations. *)
Lemma run_covers c ops order lats :
  0 < cc_concurrency c -> order ≡ₚ seqZ 0 (cc_concurrency c) ->
  join_all c ops order [] = inl lats ->
  lats ≡ₚ (oi_elapsed <$> ops.*2) /\ Forall (fun op => run_op c op = inl (oi_elapsed op.2)) ops.
Proof.
  intros Hc Hord (new & -> & Hall)%join_all_inl. simpl.
  assert (Hperm : concat (share (cc_concurrency c) ops <$> order) ≡ₚ ops).
  { rewrite Hord. by rewrite shares_cover. }
  assert (Hnew : new = (fun op => oi_elapsed op.2) <$> concat (share (cc_concurrency c) ops <$> order)).
  { clear Hperm. revert Hall. generalize (concat (share (cc_concurrency c) ops <$> order)).
    induction 1 as [|[off i] l ops' ls Hop Hall IH]; [done|]. simpl. f_equal; [|done].
    by eapply run_op_elapsed. }
  split; [rewrite Hnew, Hperm, <-list_fmap_compose; done|].
  rewrite <-Hperm. eapply Forall2_Forall_l; [exact Hall|]. apply Forall_true.
  intros l [off i] Hop. by pose proof (run_op_elapsed _ _ _ _ Hop) as ->.
Qed.

(** Under verification every operation returned the bytes of the file at its
    offset. *)
Lemma run_op_verified c off i :
  cc_verify c = true -> 0 <= off -> off + cc_read_size c <= u64_max ->
  run_op c (off, i) = inl (oi_elapsed i) <->
  fetch (cc_strategy c) i = inl (pattern off (cc_read_size c)) /\ 0 <= cc_read_size c.
Proof.
  intros Hv Ho Hm. unfold run_op. rewrite Hv.
  destruct (fetch _ _) as [bytes|e]; simpl; [|split; [done|by intros [? _]]].
  pose proof (zlen_nonneg bytes). destruct (Z.eqb_spec (zlen bytes) (cc_read_size c)) as [Heq|Hne]; simpl; [rewrite <-Heq in *|].
  - pose proof (verify_range_Verified off bytes Ho ltac:(lia)) as Hiff. split.
    + case_match; [|done..]. intros _. split; [|done]. f_equal. by apply Hiff.
    + intros [[= Hb] _]. rewrite (proj2 Hiff); done.
  - split; [done|]. intros [[= ->] Hr]. by rewrite zlen_pattern in Hne.
Qed.
