(* ===== verification/ConcurrentMain.v ===== *)
(** * The concurrent-read benchmark's program

    The file creation, the set-up and [main] of
    [src/examples/concurrent_pread_bench/linux.rs]. The file's content and its
    checks are those of [Pattern.v]; the sizes here are 64-bit numbers that the
    creation casts to [usize], which a 32-bit target loses. Clocks, percentiles
    and the printed rates are left out. *)

From S2P Require Import Prelude IoError Pending SubmitRing Startup ProbeFile Settings Pattern Concurrent.

Open Scope Z_scope.

(** ** The file *)

Section File.
Context `{Target}.

(** The loop of [create_file]: what is left to write is cast to [usize] before
    it is capped by the buffer. Writing no byte succeeds. *)
Fixpoint write_loop (fuel : nat) (size : Z) (writes : Z -> write_outcome) (sync : io_result unit)
    (written : Z) (content : list Byte.byte) : option (list Byte.byte * io_result unit) :=
  match fuel with
  | O => None
  | S fuel =>
      if written <? size then
        let base := written / 8 in
        let buf := fill_words base (Z.to_nat (WRITE_BUF / 8)) in
        let n := Z.min (wrap usize_max (size - written)) (zlen buf) in
        match (if n =? 0 then WriteAll else writes written) with
        | WriteAll => write_loop fuel size writes sync (wadd written n) (content ++ slice buf 0 n)
        | WriteFails k e => Some (content ++ slice buf 0 (Z.min k n), Err e)
        end
      else Some (content, sync)
  end.

Definition create_file (fuel : nat) (p : path_state) (size : Z) (writes : Z -> write_outcome)
    (sync : io_result unit) : option (path_state * io_result unit) :=
  match p with
  | Absent =>
      '(content, r) ← write_loop fuel size writes sync 0 [];
      Some (Regular content, r)
  | _ => Some (p, Err (other "File exists"))
  end.

Definition ensure_file (fuel : nat) (seen : io_result path_state) (now : path_state) (size : Z)
    (writes : Z -> write_outcome) (sync : io_result unit) (removed : bool) :
    option (path_state * (unit + ensure_error)) :=
  ensure_with (fun p => create_file fuel p size writes sync) seen now size removed.

(** The flags of [open_read]. *)
Definition open_read : list open_flag := [O_NOFOLLOW; O_CLOEXEC].

(** ** Lemmas *)

(** Where [usize] has 64 bits the creation is the one of [Pattern.v]. *)
Lemma write_loop_wide fuel size writes sync written content :
  usize_max = u64_max -> 0 <= written -> size <= u64_max ->
  write_loop fuel size writes sync written content =
    Pattern.write_loop fuel size writes sync written content.
Proof.
  intros Hu Hw Hs. revert written content Hw.
  induction fuel as [|fuel IH]; intros written content Hw; [done|]. simpl.
  destruct (Z.ltb_spec written size) as [Hlt|]; [|done].
  rewrite Hu, wrap_small by (unfold in_range; lia). rewrite zlen_fill_words.
  assert (HB : 0 < WRITE_BUF) by done.
  rewrite (proj2 (Z.eqb_neq _ 0)) by lia. case_match; [|done].
  unfold wadd. rewrite wrap_small by (unfold in_range; lia). apply IH. lia.
Qed.

(** Where it has 32 bits, a file of 4 GiB or more is never finished: the cast
    reaches zero with bytes left to write, and the loop then writes nothing for
    ever. *)
Lemma write_loop_narrow fuel size writes sync written content :
  usize_max = u32_max -> 0 <= written -> size <= u64_max -> u32_max + 1 <= size - written ->
  (forall w, writes w = WriteAll) ->
  write_loop fuel size writes sync written content = None.
Proof.
  intros Hu Hw Hs Hrem Hall. revert written content Hw Hrem.
  induction fuel as [|fuel IH]; intros written content Hw Hrem; [done|]. simpl.
  assert (HU : 0 < u32_max) by done.
  rewrite (proj2 (Z.ltb_lt _ _)) by lia. rewrite Hu, zlen_fill_words.
  assert (Hn : 0 <= wrap u32_max (size - written) <= size - written - (u32_max + 1)).
  { unfold wrap. pose proof (Z.mod_pos_bound (size - written) (u32_max + 1)).
    split; [lia|]. pose proof (Z.mod_le (size - written - (u32_max + 1)) (u32_max + 1)).
    replace ((size - written) mod (u32_max + 1)) with
      ((size - written - (u32_max + 1)) mod (u32_max + 1)); [lia|].
    rewrite <-(Z_mod_plus_full (size - written - (u32_max + 1)) 1). f_equal. lia. }
  assert (HB : 0 < WRITE_BUF) by done.
  set (n := Z.min _ _). assert (Hn' : 0 <= n <= size - written - (u32_max + 1)) by lia.
  clearbody n. destruct (n =? 0); rewrite ?Hall; unfold wadd;
    rewrite wrap_small by (unfold in_range; lia); apply IH; lia.
Qed.

Lemma create_file_wide size writes :
  usize_max = u64_max -> 0 <= size <= u64_max -> (forall w, writes w = WriteAll) ->
  create_file (write_fuel size) Absent size writes (Ok tt) = Some (Regular (pattern 0 size), Ok tt).
Proof.
  intros Hu Hs Hw. unfold create_file. rewrite write_loop_wide by (done || lia).
  apply (create_file_pattern size writes); [lia|done].
Qed.

Lemma create_file_narrow fuel size writes sync :
  usize_max = u32_max -> u32_max < size <= u64_max -> (forall w, writes w = WriteAll) ->
  create_file fuel Absent size writes sync = None.
Proof. intros. unfold create_file. by rewrite write_loop_narrow by (done || lia). Qed.

(** ** The program *)

(** [Prepared]: the offsets of the measured and of the warm-up run, the path,
    the cached descriptor, and the driver's ring entries and shards. *)
Record Prepared := mkPrepared {
  pr_offsets : list Z;
  pr_warmup_offsets : list Z;
  pr_path : string;
  pr_cached : option File;
  pr_driver : option (Z * Z)
}.

Inductive setup_error :=
| RuntimeFailed (e : IoError)
| OpenFailed (e : IoError)
| ProbeFailed (e : ProbeFailure).

(** What the set-up is answered: the runtime's creation, the opening of the
    file and the driver's start with the given entries and shards. *)
Record SetupOs := mkSetupOs {
  so_runtime : io_result unit;
  so_open : list open_flag -> io_result File;
  so_probe : Z -> Z -> unit + ProbeFailure
}.

Definition ok_as {A E} (f : IoError -> E) (r : io_result A) : A + E :=
  match r with Ok v => inl v | Err e => inr (f e) end.

(** [Prepared::new]. *)
Definition new (c : Config) (os : SetupOs) : Prepared + setup_error :=
  let! cached := if uses_cached_fd (cc_strategy c)
                 then let! f := ok_as OpenFailed (so_open os open_read) in inl (Some f)
                 else inl None in
  let! driver := if uses_uring (cc_strategy c)
                 then let! _ := map_err ProbeFailed (so_probe os (cc_ring_entries c) (cc_shards c)) in
                      inl (Some (cc_ring_entries c, cc_shards c))
                 else inl None in
  inl (mkPrepared (offsets c (Z.to_nat (cc_total_ops c)))
         (offsets c (Z.to_nat (cc_warmup_ops c))) (cc_file c) cached driver).

(** [run] on the given offsets, its operations answered by [answer] and its
    tasks joined in the given order. *)
Definition run (c : Config) (offs : list Z) (answer : Z -> OpInput) (order : list Z) :
    list Z + bench_error :=
  join_all c ((fun o => (o, answer o)) <$> offs) order [].

(** How the process ends: with 2 for arguments it cannot use, with [FAILURE],
    or with the latencies it reports. *)
Inductive exit :=
| Header
| BadConfig (e : config_error)
| BadFile (e : ensure_error)
| SetupFailed (e : setup_error)
| RunFailed (warmup : bool) (e : bench_error)
| Reported (c : Config) (lats : list Z).

Definition exit_code (e : exit) : Z :=
  match e with
  | Header | Reported _ _ => 0
  | BadConfig _ => 2
  | BadFile _ | SetupFailed _ | RunFailed _ _ => 1
  end.

(** [main], on the arguments after the program's name; [warmup] and [measured]
    give each run's answers and its order of joins. *)
Definition main (args : list string) (env : string -> env_value) (diagnostics : bool)
    (parallelism : option Z) (ensure : string -> Z -> unit + ensure_error) (os : SetupOs)
    (warmup measured : (Z -> OpInput) * list Z) : exit :=
  if bool_decide (args !! 0%nat = Some "--header") then Header
  else
    match parse_args args env diagnostics parallelism with
    | inr e => BadConfig e
    | inl c =>
        match ensure (cc_file c) (cc_file_size c) with
        | inr e => BadFile e
        | inl _ =>
            match (let! _ := ok_as RuntimeFailed (so_runtime os) in new c os) with
            | inr e => SetupFailed e
            | inl p =>
                match (if cc_warmup_ops c =? 0 then inl []
                       else run c (pr_warmup_offsets p) warmup.1 warmup.2) with
                | inr e => RunFailed true e
                | inl _ =>
                    match run c (pr_offsets p) measured.1 measured.2 with
                    | inr e => RunFailed false e
                    | inl lats => Reported c lats
                    end
                end
            end
        end
    end.

(** The process reports only a run in which every operation succeeded: as many
    latencies as operations were asked for, each the one of an operation that
    returned the whole block at its offset, and the file's own bytes where they
    are verified. *)
Lemma concurrent_main_reported args env diag par ensure os warmup measured c lats :
  main args env diag par ensure os warmup measured = Reported c lats ->
  measured.2 ≡ₚ seqZ 0 (cc_concurrency c) -> 0 < cc_concurrency c ->
  let offs := offsets c (Z.to_nat (cc_total_ops c)) in
  parse_args args env diag par = inl c /\ ensure (cc_file c) (cc_file_size c) = inl tt /\
  lats ≡ₚ (oi_elapsed ∘ measured.1 <$> offs) /\
  Forall (fun o => run_op c (o, measured.1 o) = inl (oi_elapsed (measured.1 o))) offs.
Proof.
  unfold main. case_bool_decide; [done|].
  destruct (parse_args _ _ _ _) as [c'|]; [|done].
  destruct (ensure _ _) as [[]|] eqn:He; [|done].
  destruct (try_ _ _) as [p|] eqn:Hp; [|done].
  destruct (if _ =? 0 then _ else _); [|done].
  destruct (run c' (pr_offsets p) _ _) as [ls|] eqn:Hr; [|done].
  intros [= -> ->] Hord Hc. apply try_inl in Hp as (_ & _ & Hp).
  assert (Hoffs : pr_offsets p = offsets c (Z.to_nat (cc_total_ops c))).
  { revert Hp. unfold new. intros (? & _ & (? & _ & [= <-])%try_inl)%try_inl. done. }
  rewrite Hoffs in Hr. unfold run in Hr.
  destruct (run_covers _ _ _ _ Hc Hord Hr) as [Hl Hall]. split_and!; try done.
  - rewrite Hl, <-!list_fmap_compose. done.
  - rewrite Forall_fmap in Hall. exact Hall.
Qed.
End File.
