(* ===== verification/Percentile.v ===== *)
(** * The latency percentiles of the concurrent-read benchmark

    [percentile] of [src/examples/concurrent_pread_bench/linux.rs], with
    [f64] as the standard library's [SpecFloat] at binary64: the index it
    computes in floating point is in the bounds of the sorted latencies. *)

From S2P Require Import Prelude Geometry.
From Stdlib Require Import SpecFloat.

Open Scope Z_scope.

(** ** [f64] *)

Definition f64_prec : Z := 53.
Definition f64_emax : Z := 1024.

(** [n as f64] for an unsigned integer: rounded to nearest, ties to even. *)
Definition f64_of_Z (n : Z) : spec_float := binary_normalize f64_prec f64_emax n 0 false.

Definition f64_sub : spec_float -> spec_float -> spec_float := SFsub f64_prec f64_emax.
Definition f64_mul : spec_float -> spec_float -> spec_float := SFmul f64_prec f64_emax.

(** The literal [n / 10^k]: the nearest [f64], which the division of the two
    exact integers rounds to. *)
Definition f64_literal (n d : Z) : spec_float := SFdiv f64_prec f64_emax (f64_of_Z n) (f64_of_Z d).

(** [round]: to the nearest integer, halves away from zero; here of a value that
    is not negative, as an integer. *)
Definition f64_round (m : positive) (e : Z) : Z :=
  if 0 <=? e then Zpos m * 2 ^ e else (Zpos m + 2 ^ (- e - 1)) / 2 ^ (- e).

(** [x.round() as usize] saturates; a negative value and NaN give 0. *)
Definition f64_round_as_usize `{Target} (x : spec_float) : Z :=
  match x with
  | S754_finite false m e => Z.min usize_max (f64_round m e)
  | S754_infinity false => usize_max
  | _ => 0
  end.

(** ** The percentile *)

(** The index [percentile] reads of [len] latencies. *)
Definition percentile_index `{Target} (len : Z) (p : spec_float) : Z :=
  f64_round_as_usize (f64_mul (f64_sub (f64_of_Z len) (f64_of_Z 1)) p).

(** [percentile], of latencies in nanoseconds; [None] is the panic of an index
    out of bounds. *)
Definition percentile `{Target} (sorted : list Z) (p : spec_float) : option Z :=
  match sorted with
  | [] => Some 0
  | _ =>
      nanos ← sorted !! Z.to_nat (percentile_index (zlen sorted) p);
      Some (nanos / 1000)
  end.

(** The percentiles the program prints. *)
Definition p50 : spec_float := f64_literal 50 100.
Definition p99 : spec_float := f64_literal 99 100.
Definition p999 : spec_float := f64_literal 999 1000.

Example literals :
  p50 = S754_finite false 4503599627370496 (-53) /\
  p99 = S754_finite false 8917127262193582 (-53) /\
  p999 = S754_finite false 8998192055486251 (-53).
Proof. split_and!; vm_compute; reflexivity. Qed.

(** ** Lemmas: rounding *)

Lemma digits2_bounds p : 2 ^ (Zpos (digits2_pos p) - 1) <= Zpos p < 2 ^ Zpos (digits2_pos p).
Proof.
  induction p as [p IH|p IH|]; simpl digits2_pos; [| |simpl; lia];
    rewrite Pos2Z.inj_succ; unfold Z.succ; rewrite Z.add_simpl_r;
    rewrite Z.pow_add_r, Z.pow_1_r by lia;
    replace (2 ^ Zpos (digits2_pos p)) with (2 * 2 ^ (Zpos (digits2_pos p) - 1)) in *
      by (rewrite <-Z.pow_succ_r by lia; f_equal; lia); lia.
Qed.

(** The number of digits is the one whose powers of two enclose the number. *)
Lemma digits2_unique p d : 2 ^ (d - 1) <= Zpos p < 2 ^ d -> Zpos (digits2_pos p) = d.
Proof.
  intros [Hl Hu]. pose proof (digits2_bounds p) as [Hl' Hu'].
  destruct (Z.lt_trichotomy (Zpos (digits2_pos p)) d) as [Hlt|[?|Hgt]]; [|done|]; exfalso.
  - assert (2 ^ Zpos (digits2_pos p) <= 2 ^ (d - 1)) by (apply Z.pow_le_mono_r; lia). lia.
  - assert (0 <= d) by (destruct (Z.neg_nonneg_cases d); [rewrite (Z.pow_neg_r 2 d) in Hu by lia; lia|done]).
    assert (2 ^ d <= 2 ^ (Zpos (digits2_pos p) - 1)) by (apply Z.pow_le_mono_r; lia). lia.
Qed.

(** Shifting right by [k] bits keeps the quotient, and the flags say whether
    anything was lost. *)
Definition shifted (m k : Z) (r : shr_record) : Prop :=
  shr_m r = m / 2 ^ k /\ ((shr_r r = false /\ shr_s r = false) <-> (2 ^ k | m)).

Lemma shr_1_shifted m k r : 0 <= m -> 0 <= k -> shifted m k r -> shifted m (k + 1) (shr_1 r).
Proof.
  intros Hm Hk [Hq Hf]. unfold shifted. rewrite Z.pow_add_r, Z.pow_1_r by lia.
  pose proof (Z.pow_pos_nonneg 2 k ltac:(lia) Hk) as Hp.
  rewrite <-Z.div_div by lia.
  assert (Hdiv : (2 ^ k * 2 | m) <-> (2 ^ k | m) /\ (2 | m / 2 ^ k)).
  { split.
    - intros [c ->]. replace (c * (2 ^ k * 2)) with (c * 2 * 2 ^ k) by lia.
      rewrite Z.div_mul by lia. split; [by exists (c * 2)|by exists c].
    - intros [[c ->] [c' Hc']]. rewrite Z.div_mul in Hc' by lia. exists c'. lia. }
  rewrite Hdiv, <-Hf, <-Hq. destruct r as [q fr fs]. simpl in *.
  assert (0 <= q) by (rewrite Hq; apply Z.div_pos; lia).
  destruct q as [|[q|q|]|q]; simpl; [| | | |lia].
  - split; [done|]. rewrite orb_false_iff.
    split; [intros [_ [? ?]]; split; [done|by exists 0] | tauto].
  - split; [by rewrite Pos2Z.inj_xI; apply (Z.div_unique _ 2 _ 1); lia|].
    split; [by intros [? _]|]. intros [_ [c Hc]]. lia.
  - split; [by rewrite Pos2Z.inj_xO; apply (Z.div_unique _ 2 _ 0); lia|].
    rewrite orb_false_iff. split; [intros [_ [? ?]]; split; [done|exists (Zpos q); lia] | tauto].
  - split; [done|]. split; [by intros [? _]|]. intros [_ [c Hc]]. lia.
Qed.

Lemma iter_pos_shifted p m k r :
  0 <= m -> 0 <= k -> shifted m k r -> shifted m (k + Zpos p) (iter_pos shr_1 p r).
Proof.
  intros Hm. revert k r. induction p as [p IH|p IH|]; intros k r Hk Hr; simpl.
  - replace (k + Zpos p~1) with (k + 1 + Zpos p + Zpos p) by lia.
    apply IH; [lia|]. apply IH; [lia|]. by apply shr_1_shifted.
  - replace (k + Zpos p~0) with (k + Zpos p + Zpos p) by lia.
    apply IH; [lia|]. by apply IH.
  - by apply shr_1_shifted.
Qed.

Lemma fexp_normal x : -1000 <= x -> fexp f64_prec f64_emax x = x - 53.
Proof. intros Hx. unfold fexp, emin, f64_prec, f64_emax. lia. Qed.

(** A mantissa that fits is kept. *)
Lemma round_aux_fits m e :
  Zpos (digits2_pos m) = 53 -> -1000 <= e <= 900 ->
  binary_round_aux f64_prec f64_emax false (Zpos m) e loc_Exact = S754_finite false m e.
Proof.
  intros Hd He. unfold binary_round_aux, shr_fexp. cbn [Zdigits2 shr_record_of_loc].
  rewrite Hd, fexp_normal by lia. replace (53 + e - 53 - e) with 0 by lia.
  cbn [shr shr_m loc_of_shr_record round_nearest_even Zdigits2 shr_record_of_loc].
  rewrite Hd, fexp_normal by lia. replace (53 + e - 53 - e) with 0 by lia. cbn [shr shr_m].
  rewrite (proj2 (Z.leb_le _ _)); [done|]. unfold f64_emax, f64_prec. lia.
Qed.

(** After the first shift: the rounded quotient has 53 digits, or is 2^53. *)
Lemma round_aux_renormalise q e :
  2 ^ 52 <= q <= 2 ^ 53 -> -1000 <= e <= 900 ->
  exists m' e',
    (let '(mrs, e') := shr_fexp f64_prec f64_emax q e loc_Exact in
     match shr_m mrs with
     | Z0 => S754_zero false
     | Zpos m => if e' <=? f64_emax - f64_prec then S754_finite false m e' else S754_infinity false
     | Zneg _ => S754_nan
     end) = S754_finite false m' e' /\ e <= e' /\ Zpos m' * 2 ^ (e' - e) = q /\
    2 ^ 52 <= Zpos m'.
Proof.
  intros Hq He. destruct q as [|q|q]; [lia| |lia].
  unfold shr_fexp. cbn [Zdigits2 shr_record_of_loc].
  destruct (Z.eq_dec (Zpos q) (2 ^ 53)) as [Heq|Hne].
  - injection Heq as ->. change (Zpos (digits2_pos _)) with 54. rewrite fexp_normal by lia.
    replace (54 + e - 53 - e) with 1 by lia. cbn [shr iter_pos shr_1 shr_m].
    rewrite (proj2 (Z.leb_le _ _)) by (unfold f64_emax, f64_prec; lia).
    eexists _, _. split; [done|]. split; [lia|]. split; [by replace (e + 1 - e) with 1 by lia|done].
  - rewrite (digits2_unique q 53) by (change (53 - 1) with 52; lia).
    rewrite fexp_normal by lia. replace (53 + e - 53 - e) with 0 by lia. cbn [shr shr_m].
    rewrite (proj2 (Z.leb_le _ _)) by (unfold f64_emax, f64_prec; lia).
    eexists _, _. split; [done|]. split; [lia|]. rewrite Z.sub_diag. change (2 ^ 0) with 1. lia.
Qed.

(** A longer mantissa is cut to 53 digits: to the quotient or the next number,
    exactly when nothing is lost. *)
Lemma round_aux_cuts m e s :
  0 < s -> Zpos (digits2_pos m) = 53 + s -> -1000 <= e -> e + s <= 900 ->
  exists m' e', binary_round_aux f64_prec f64_emax false (Zpos m) e loc_Exact = S754_finite false m' e' /\
    e + s <= e' /\ Zpos m' * 2 ^ (e' - (e + s)) <= Zpos m / 2 ^ s + 1 /\
    ((2 ^ s | Zpos m) -> Zpos m' = Zpos m / 2 ^ s /\ e' = e + s).
Proof.
  intros Hs Hd He Hes. unfold binary_round_aux. unfold shr_fexp at 1.
  cbn [Zdigits2 shr_record_of_loc]. rewrite Hd, fexp_normal by lia.
  replace (53 + s + e - 53 - e) with s by lia. destruct s as [|ps|ps]; [lia| |lia]. cbn [shr].
  pose proof (iter_pos_shifted ps (Zpos m) 0 (Build_shr_record (Zpos m) false false)
    ltac:(lia) ltac:(lia)) as Hshift.
  destruct Hshift as [Hq Hf].
  { split; simpl; [by rewrite Z.div_1_r|]. split; [|done]. intros _. apply Z.divide_1_l. }
  rewrite Z.add_0_l in Hq, Hf. destruct (iter_pos shr_1 ps _) as [q fr fs]. simpl in Hq, Hf.
  cbn [shr_m].
  assert (Hrange : 2 ^ 52 <= q < 2 ^ 53).
  { pose proof (digits2_bounds m) as [Hl Hu]. rewrite Hd in Hl, Hu.
    replace (53 + Zpos ps - 1) with (52 + Zpos ps) in Hl by lia.
    rewrite Z.pow_add_r in Hl, Hu by lia. rewrite Hq.
    split; [apply Z.div_le_lower_bound|apply Z.div_lt_upper_bound]; lia. }
  set (q' := round_nearest_even q _).
  assert (Hq' : q' = q \/ q' = q + 1 /\ ~ (fr = false /\ fs = false)).
  { unfold q'. destruct fr, fs; simpl; try destruct (Z.even q); auto; right; (split; [done|]); by intros [? ?]. }
  destruct (round_aux_renormalise q' (e + Zpos ps)) as (m' & e' & Hr & Hle & Hv & Hm'); [lia|lia|].
  exists m', e'. split; [exact Hr|]. split; [lia|]. rewrite Hv, <-Hq. split; [lia|].
  intros Hdiv. apply Hf in Hdiv. assert (q' = q) as Heq by tauto. rewrite Heq in Hv.
  assert (e' = e + Zpos ps) as ->.
  { destruct (Z.eq_dec e' (e + Zpos ps)) as [|Hne]; [done|exfalso].
    assert (2 ^ 1 <= 2 ^ (e' - (e + Zpos ps))) by (apply Z.pow_le_mono_r; lia).
    change (2 ^ 1) with 2 in *. nia. }
  rewrite Z.sub_diag in Hv. change (2 ^ 0) with 1 in Hv. lia.
Qed.

(** ** Lemmas: integers *)

Lemma iter_xO m k : Zpos (Pos.iter xO m k) = Zpos m * 2 ^ Zpos k.
Proof.
  induction k as [|k IH] using Pos.peano_ind; [simpl; lia|].
  rewrite Pos.iter_succ, Pos2Z.inj_xO, IH, Pos2Z.inj_succ, Z.pow_succ_r by lia. lia.
Qed.

(** A positive integer below 2^53 as an [f64]: 53 digits and its exponent. *)
Definition integral (n : Z) (x : spec_float) : Prop :=
  exists m e, x = S754_finite false m e /\ -52 <= e <= 0 /\ Zpos m = n * 2 ^ (- e) /\
    2 ^ 52 <= Zpos m < 2 ^ 53.

Lemma digits2_small n : Zpos n < 2 ^ 53 -> 1 <= Zpos (digits2_pos n) <= 53.
Proof.
  intros Hn. split; [lia|]. pose proof (digits2_bounds n) as [Hl _].
  destruct (Z.le_gt_cases (Zpos (digits2_pos n)) 53) as [|Hgt]; [done|exfalso].
  assert (2 ^ 53 <= 2 ^ (Zpos (digits2_pos n) - 1)) by (apply Z.pow_le_mono_r; lia). lia.
Qed.

Lemma scaled_digits n d :
  Zpos (digits2_pos n) = d -> 1 <= d <= 53 -> 2 ^ 52 <= Zpos n * 2 ^ (53 - d) < 2 ^ 53.
Proof.
  intros Hd Hr. pose proof (digits2_bounds n) as [Hl Hu]. rewrite Hd in Hl, Hu.
  replace (2 ^ 52) with (2 ^ (d - 1) * 2 ^ (53 - d)) by (rewrite <-Z.pow_add_r by lia; f_equal; lia).
  replace (2 ^ 53) with (2 ^ d * 2 ^ (53 - d)) by (rewrite <-Z.pow_add_r by lia; f_equal; lia).
  pose proof (Z.pow_pos_nonneg 2 (53 - d) ltac:(lia) ltac:(lia)). nia.
Qed.

Lemma f64_of_Z_integral n : 0 < n < 2 ^ 53 -> integral n (f64_of_Z n).
Proof.
  intros Hn. destruct n as [|n|n]; [lia| |lia]. pose proof (digits2_small n ltac:(lia)) as Hd.
  pose proof (scaled_digits n _ eq_refl Hd) as Hs.
  unfold f64_of_Z, binary_normalize, binary_round. rewrite fexp_normal by lia.
  unfold shl_align. set (d := Zpos (digits2_pos n)) in *.
  destruct (d + 0 - 53 - 0) as [|k|k] eqn:Hk; [| lia |].
  - rewrite round_aux_fits by (fold d; lia). exists n, 0. assert (d = 53) as Heq by lia.
    rewrite Heq in Hs. change (53 - 53) with 0 in Hs. change (2 ^ 0) with 1 in Hs.
    split_and!; try done; try lia.
  - pose proof (iter_xO n k) as Hi. replace (Zpos k) with (53 - d) in Hi by lia.
    rewrite round_aux_fits; [|apply digits2_unique; rewrite Hi; done|lia].
    eexists _, _. split; [done|]. split; [lia|]. rewrite Hi. split; [|done]. f_equal. f_equal. lia.
Qed.

(** [n as f64 - 1.0] is exact. *)
Lemma f64_pred n : 1 < n < 2 ^ 53 -> integral (n - 1) (f64_sub (f64_of_Z n) (f64_of_Z 1)).
Proof.
  intros Hn. destruct (f64_of_Z_integral n ltac:(lia)) as (m & e & -> & He & Hm & Hrange).
  change (f64_of_Z 1) with (S754_finite false 4503599627370496 (-52)).
  unfold f64_sub, SFsub. rewrite Z.min_r by lia. cbn [cond_Zopp].
  assert (Hx : Zpos (shl_align m e (-52)).1 = n * 2 ^ 52).
  { unfold shl_align. destruct (-52 - e) as [|k|k] eqn:Hk; simpl fst.
    - rewrite Hm. f_equal. f_equal. lia.
    - lia.
    - rewrite iter_xO, Hm, <-Z.mul_assoc, <-Z.pow_add_r by lia. f_equal. f_equal. lia. }
  rewrite Hx. change (Zpos (shl_align 4503599627370496 (-52) (-52)).1) with (2 ^ 52).
  replace (n * 2 ^ 52 - 2 ^ 52) with ((n - 1) * 2 ^ 52) by lia.
  destruct (n - 1) as [|k|k] eqn:Hk; [lia| |lia].
  pose proof (digits2_small k ltac:(lia)) as Hd.
  pose proof (digits2_bounds k) as [Hl Hu]. set (d := Zpos (digits2_pos k)) in *.
  set (x := (k * 4503599627370496)%positive).
  change (Zpos k * 2 ^ 52) with (Zpos x). cbn [binary_normalize].
  assert (Hxk : Zpos x = Zpos k * 2 ^ 52) by (unfold x; by rewrite Pos2Z.inj_mul).
  assert (Hdx : Zpos (digits2_pos x) = 53 + (d - 1)).
  { apply digits2_unique. rewrite Hxk. replace (53 + (d - 1) - 1) with (d - 1 + 52) by lia.
    replace (53 + (d - 1)) with (d + 52) by lia. rewrite !Z.pow_add_r by lia. lia. }
  unfold binary_round. rewrite Hdx, fexp_normal by lia. unfold shl_align.
  destruct (53 + (d - 1) + -52 - 53 - -52) as [|j|j] eqn:Hj; [| |lia].
  - rewrite round_aux_fits by lia. exists x, (-52). split; [done|]. split; [lia|].
    rewrite Hxk. assert (d = 1) as Heq by lia. rewrite Heq in Hu.
    change (2 ^ 1) with 2 in Hu. split; [done|lia].
  - destruct (round_aux_cuts x (-52) (d - 1)) as (m' & e' & -> & _ & _ & Hex);
      [lia|done|lia|lia|].
    assert (Hsplit : 2 ^ 52 = 2 ^ (53 - d) * 2 ^ (d - 1))
      by (rewrite <-Z.pow_add_r by lia; f_equal; lia).
    assert (Hdiv : Zpos x = Zpos k * 2 ^ (53 - d) * 2 ^ (d - 1)) by (rewrite Hxk, Hsplit; apply Z.mul_assoc).
    destruct Hex as [Hm' ->]; [by exists (Zpos k * 2 ^ (53 - d))|].
    rewrite Hdiv, Z.div_mul in Hm' by (apply Z.pow_nonzero; lia).
    exists m', (-52 + (d - 1)). split; [done|]. split; [lia|].
    rewrite Hm'. replace (- (-52 + (d - 1))) with (53 - d) by lia. split; [done|].
    by apply scaled_digits.
Qed.

(** A product with a number below one, rounded to an integer, does not exceed
    the integer. *)
Lemma f64_mul_round_le n x mp :
  0 < n < 2 ^ 53 -> integral n x -> 2 ^ 52 <= Zpos mp < 2 ^ 53 ->
  exists m e, f64_mul x (S754_finite false mp (-53)) = S754_finite false m e /\
    0 <= f64_round m e <= n.
Proof.
  intros Hn (mx & ex & -> & Hex & Hmx & Hrx) Hmp. unfold f64_mul, SFmul. cbn [xorb].
  set (P := (mx * mp)%positive). assert (HP : Zpos P = Zpos mx * Zpos mp) by done.
  assert (Hd : exists s, (s = 52 \/ s = 53) /\ Zpos (digits2_pos P) = 53 + s).
  { destruct (Z.lt_ge_cases (Zpos P) (2 ^ 105)) as [Hlt|Hge]; [exists 52|exists 53];
      (split; [auto|]); apply digits2_unique.
    - change (53 + 52 - 1) with (52 + 52). change (53 + 52) with 105.
      rewrite Z.pow_add_r by lia. split; [nia|lia].
    - change (53 + 53 - 1) with 105. rewrite Z.pow_add_r by lia. split; [lia|nia]. }
  destruct Hd as (s & Hs & Hd).
  destruct (round_aux_cuts P (ex + -53) s) as (m & e & -> & Hle & Hv & _); [lia..|].
  exists m, e. split; [done|]. set (B := ex + -53 + s) in *.
  pose proof (Z.pow_pos_nonneg 2 (- B) ltac:(lia) ltac:(lia)) as HB.
  assert (Hbound : Zpos m * 2 ^ (e - B) <= n * 2 ^ (- B)).
  { etrans; [exact Hv|]. destruct Hs as [-> | ->].
    - assert (Zpos P / 2 ^ 52 < 2 ^ 53 \/ 2 ^ 105 <= Zpos P).
      { destruct (Z.lt_ge_cases (Zpos P) (2 ^ 105)); [left|by right].
        apply Z.div_lt_upper_bound; lia. }
      assert (Zpos P < 2 ^ 105).
      { pose proof (digits2_bounds P) as [_ Hu]. rewrite Hd in Hu. exact Hu. }
      replace (- B) with (- ex + 1) by (unfold B; lia). rewrite Z.pow_add_r by lia. lia.
    - replace (- B) with (- ex) by (unfold B; lia). rewrite <-Hmx.
      enough (Zpos P / 2 ^ 53 < Zpos mx) by lia. apply Z.div_lt_upper_bound; [lia|nia]. }
  unfold f64_round. destruct (Z.leb_spec 0 e) as [He|He].
  - replace (e - B) with (e + - B) in Hbound by lia. rewrite Z.pow_add_r in Hbound by lia.
    pose proof (Z.pow_pos_nonneg 2 e ltac:(lia) ltac:(lia)). nia.
  - replace (- B) with (- e + (e - B)) in Hbound by lia. rewrite Z.pow_add_r in Hbound by lia.
    pose proof (Z.pow_pos_nonneg 2 (e - B) ltac:(lia) ltac:(lia)) as Hp.
    pose proof (Z.pow_pos_nonneg 2 (- e - 1) ltac:(lia) ltac:(lia)) as Hh.
    assert (Htwo : 2 ^ (- e) = 2 * 2 ^ (- e - 1))
      by (rewrite <-Z.pow_succ_r by lia; f_equal; lia).
    assert (Zpos m <= n * 2 ^ (- e)) by nia.
    split; [apply Z.div_pos; lia|]. apply Z.lt_succ_r, Z.div_lt_upper_bound; lia.
Qed.

(** A quantile in [1/2, 1). *)
Definition below_one (p : spec_float) : Prop :=
  exists mp, p = S754_finite false mp (-53) /\ 2 ^ 52 <= Zpos mp < 2 ^ 53.

Lemma percentile_index_bounds `{Target} len p :
  0 < len < 2 ^ 53 -> below_one p -> 0 <= percentile_index len p < len.
Proof.
  intros Hlen (mp & -> & Hmp). unfold percentile_index.
  destruct (Z.eq_dec len 1) as [->|Hne]; [vm_compute; split; [discriminate|done]|].
  pose proof (f64_pred len ltac:(lia)) as Hpred.
  destruct (f64_mul_round_le (len - 1) _ mp ltac:(lia) Hpred Hmp) as (m & e & -> & Hr).
  unfold f64_round_as_usize. pose proof usize_max_ok. unfold u32_max, u64_max in *. lia.
Qed.

Lemma printed_below_one p : p ∈ [p50; p99; p999] -> below_one p.
Proof.
  destruct literals as (E1 & E2 & E3). intros [Hp|[Hp|[Hp|[]]]]%list_elem_of_In; rewrite <-Hp;
    [rewrite E1|rewrite E2|rewrite E3]; eexists; (split; [reflexivity|lia]).
Qed.

(** [percentile] does not panic, for fewer than 2^53 latencies and each
    percentile the program prints: it is 0 of none, and one of the latencies, in
    microseconds, otherwise. *)
Theorem percentile_total `{Target} sorted p :
  zlen sorted < 2 ^ 53 -> p ∈ [p50; p99; p999] ->
  exists v, percentile sorted p = Some v /\ (sorted = [] -> v = 0) /\
    (sorted <> [] -> exists nanos, nanos ∈ sorted /\ v = nanos / 1000).
Proof.
  intros Hlen Hp%printed_below_one.
  destruct sorted as [|x l]; [by exists 0|].
  pose proof (percentile_index_bounds (zlen (x :: l)) p) as Hi.
  destruct Hi as [Hi0 Hi]; [unfold zlen in *; simpl in *; lia|done|].
  destruct (lookup_lt_is_Some_2 (x :: l) (Z.to_nat (percentile_index (zlen (x :: l)) p)))
    as [v Hv]; [unfold zlen in *; lia|].
  exists (v / 1000). unfold percentile. rewrite Hv. simpl. split; [done|]. split; [done|].
  intros _. exists v. split; [|done]. by eapply list_elem_of_lookup_2.
Qed.

Example percentile_of_1000 :
  (fun p => @percentile_index x86_64 1000 p) <$> [p50; p99; p999] = [500; 989; 998].
Proof. vm_compute. reflexivity. Qed.

Lemma percentile_total_witness :
  exists v, @percentile x86_64 [1000; 2000; 9000] p99 = Some v /\
    ([1000; 2000; 9000] = [] -> v = 0) /\
    ([1000; 2000; 9000] <> [] -> exists nanos, nanos ∈ [1000; 2000; 9000] /\ v = nanos / 1000).
Proof.
  apply percentile_total; [vm_compute; reflexivity | right; left].
Defined.
