(* ===== verification/OrderedMain.v ===== *)
(** * The ordered-prefetch example's program

    [src/examples/ordered_prefetch/linux.rs]: its arguments, the positioned
    reference read, and the loop that compares what the reader of
    [OrderedReader.v] delivers with it. What the reader and the file answer are
    arguments. *)

From S2P Require Import Prelude IoError Interfaces Pending ReadRun SubmitRing Admission Startup.
From S2P Require Import ProbeFile Settings OrderedReader.

Open Scope Z_scope.

(** [invalid] and [number], for a type with the given maximum. *)
Definition invalid (message : string) : IoError := Custom InvalidInput message.

Definition number (max : Z) (name value : string) : io_result Z :=
  match parse_unsigned max value with
  | Some v => Ok v
  | None => Err (invalid ("invalid " +:+ name +:+ ": " +:+ value))
  end.

(** The configuration of [run], on the arguments after the program's name. *)
Definition arguments `{Target} (args : list string) : io_result Config :=
  match args with
  | [_; offset; length_; chunk; window; max_bytes] =>
      let? offset := number u64_max "OFFSET" offset in
      let? length_ := number u64_max "LENGTH" length_ in
      let? chunk := number usize_max "CHUNK" chunk in
      let? window := number usize_max "WINDOW" window in
      let? max_bytes := number usize_max "MAX_BYTES" max_bytes in
      Ok (mkConfig offset length_ chunk window max_bytes)
  | _ => Err (invalid "usage: ordered_prefetch FILE OFFSET LENGTH CHUNK WINDOW MAX_BYTES")
  end.

(** [ErrorKind::Interrupted]. *)
Definition is_interrupted (e : IoError) : bool := bool_decide (raw_os_error e = Some EINTR).

(** [reference_read]: [read k off n] is what the [k]th [read_at] of at most [n]
    bytes at [off] answers; [bytes] is what is read so far. *)
Fixpoint reference_loop (fuel k : nat) (read : nat -> Z -> Z -> io_result (list Byte.byte))
    (offset len : Z) (bytes : list Byte.byte) : option (io_result (list Byte.byte)) :=
  match fuel with
  | O => None
  | S fuel =>
      if zlen bytes <? len then
        match read k (offset + zlen bytes) (len - zlen bytes) with
        | Ok more =>
            if zlen more =? 0 then Some (Ok bytes)
            else reference_loop fuel (S k) read offset len (bytes ++ more)
        | Err e =>
            if is_interrupted e then reference_loop fuel (S k) read offset len bytes
            else Some (Err e)
        end
      else Some (Ok bytes)
  end.

Definition reference_read (fuel : nat) (read : nat -> Z -> Z -> io_result (list Byte.byte))
    (offset len : Z) : option (io_result (list Byte.byte)) :=
  reference_loop fuel 0 read offset len [].

(** ** The comparing loop of [run]

    [chunks] are the results of [reader.next()] up to its [None];
    [reference] is [reference_read] of the file. *)
Fixpoint compare_chunks (c : Config) (end_ : Z) (reference : Z -> Z -> io_result (list Byte.byte))
    (chunks : list (io_result Chunk)) (delivered count : Z) : io_result (Z * Z) :=
  match chunks with
  | [] =>
      if cf_offset c + delivered <? end_ then
        let? probe := reference (cf_offset c + delivered) 1 in
        if zlen probe =? 0 then Ok (delivered, count)
        else Err (other "ordered reader terminated before reference EOF")
      else Ok (delivered, count)
  | Err e :: _ => Err e
  | Ok chunk :: rest =>
      let expected_offset := cf_offset c + delivered in
      if negb (ch_offset chunk =? expected_offset)
      then Err (other "non-contiguous output offsets")
      else
        let want := Z.min (end_ - expected_offset) (cf_chunk c) in
        let? bytes := reference expected_offset want in
        if bool_decide (ch_bytes chunk = bytes)
        then compare_chunks c end_ reference rest (delivered + zlen (ch_bytes chunk)) (count + 1)
        else Err (other "byte mismatch against positioned std read")
  end.

(** The check of the driver's counters after its shutdown; [None] is the
    overflow of a sum. *)
Definition drained (st : Stats) : option bool :=
  if negb (in_flight st =? 0) then Some false
  else
    sum ← checked_add u64_max (SubmitRing.delivered st) (orphan_reclaimed st);
    Some (submitted st =? sum).

(** The result of [run] once the driver is shut down. *)
Definition run_result (r : io_result (Z * Z)) (st : Stats) : option (io_result (Z * Z)) :=
  match r with
  | Err e => Some (Err e)
  | Ok v =>
      match drained st with
      | None => None
      | Some true => Some (Ok v)
      | Some false => Some (Err (other "driver did not drain with read conservation intact"))
      end
  end.

(** ** The set-up of [run] *)

(** What the set-up is answered: opening the file, whether its descriptor is a
    regular file, the driver's start, the runtime's creation. *)
Record SetupOs := mkSetupOs {
  so_open : list open_flag -> io_result File;
  so_is_file : io_result bool;
  so_driver : Z -> Z -> ReadLimits -> unit + ProbeFailure;
  so_runtime : io_result unit
}.

(** The limits of the driver: one chunk of one read at a time. *)
Definition tight_limits (c : Config) : ReadLimits :=
  mkLimits (Some (cf_chunk c)) (Some (cf_chunk c)).

Section Run.
Context `{Target} {F : Type} (show : IoError -> string).

(** The configuration, the end of its range and the new reader; [show] is the
    text of an [io::Error]. *)
Definition setup (args : list string) (os : SetupOs) :
    io_result (Config * Z * OrderedReader F) :=
  let? cfg := arguments args in
  let? end_ := validate cfg in
  let? _ := so_open os [O_NOFOLLOW; O_NONBLOCK] in
  let? regular := so_is_file os in
  if negb regular then Err (invalid "FILE must be an existing regular file")
  else
    let? _ := match so_driver os 2 1 (tight_limits cfg) with
              | inl _ => Ok tt
              | inr e => Err (other (display show e))
              end in
    let? _ := so_runtime os in
    let? reader := new_reader cfg in
    Ok (cfg, end_, reader).

(** [run]: the bytes and chunks it prints; [chunks] is what the reader delivers
    and [st] the counters of the driver's shutdown. [None] is a panic. *)
Definition run (args : list string) (os : SetupOs) (reference : Z -> Z -> io_result (list Byte.byte))
    (chunks : OrderedReader F -> list (io_result Chunk)) (st : Stats) :
    option (io_result (Z * Z)) :=
  match setup args os with
  | Err e => Some (Err e)
  | Ok (cfg, end_, reader) => run_result (compare_chunks cfg end_ reference (chunks reader) 0 0) st
  end.
End Run.

(** ** Lemmas *)

(** Positioned reads of a file [F]: some bytes at the offset, none only at its
    end, or an error. *)
Definition positioned (F : list Byte.byte) (read : nat -> Z -> Z -> io_result (list Byte.byte)) : Prop :=
  forall k off n bytes, 0 <= off -> 0 < n -> read k off n = Ok bytes ->
    bytes = slice F off (zlen bytes) /\ zlen bytes <= n /\ (zlen bytes = 0 -> zlen F <= off).

(** What is appended continues the file. *)
Lemma slice_extend {A} (F : list A) off n bytes :
  0 <= off -> 0 <= n -> bytes = slice F (off + n) (zlen bytes) ->
  slice F off n ++ bytes = slice F off (n + zlen bytes).
Proof. intros Ho Hn Hb. rewrite slice_app by (done || apply zlen_nonneg). by rewrite <-Hb. Qed.

Lemma reference_loop_pread F read fuel k offset len bytes r :
  positioned F read -> 0 <= offset -> 0 <= len ->
  bytes = slice F offset (zlen bytes) -> zlen bytes <= len ->
  reference_loop fuel k read offset len bytes = Some (Ok r) -> r = pread F offset len.
Proof.
  intros Hp Ho Hl. revert k bytes. induction fuel as [|fuel IH]; intros k bytes Hb Hz; [done|].
  cbn [reference_loop]. pose proof (zlen_nonneg bytes) as H0. unfold pread in *.
  destruct (Z.ltb_spec (zlen bytes) len) as [Hlt|Hge].
  2: { intros [= <-]. by replace len with (zlen bytes) by lia. }
  destruct (read _ _ _) as [more|e] eqn:Hr; [|case_match; [by apply IH|done]].
  destruct (Hp k (offset + zlen bytes) (len - zlen bytes) more ltac:(lia) ltac:(lia) Hr) as (Hm & Hmn & Hend).
  destruct (Z.eqb_spec (zlen more) 0) as [Hz0|Hnz].
  - intros [= <-]. rewrite Hb. specialize (Hend Hz0). apply slice_past_end; lia.
  - assert (Hlen : zlen (bytes ++ more) = zlen bytes + zlen more) by (unfold zlen; rewrite length_app; lia).
    apply IH; rewrite Hlen; [|lia].
    transitivity (slice F offset (zlen bytes) ++ more); [by rewrite <-Hb|].
    by apply slice_extend.
Qed.

(** If at most the first [m] calls are interrupted, the loop ends within
    [m + len] of them. *)
Lemma reference_loop_ends read m fuel k offset len bytes :
  (forall j off n e, (m <= j)%nat -> read j off n = Err e -> is_interrupted e = false) ->
  Z.of_nat m - Z.of_nat k <= Z.of_nat fuel - 1 - (len - zlen bytes) ->
  0 < Z.of_nat fuel -> len - zlen bytes < Z.of_nat fuel ->
  exists r, reference_loop fuel k read offset len bytes = Some r.
Proof.
  intros Hm. revert k bytes. induction fuel as [|fuel IH]; intros k bytes Hb Hf Hl; [lia|].
  cbn [reference_loop]. destruct (Z.ltb_spec (zlen bytes) len) as [Hlt|Hge]; [|eauto].
  destruct (read _ _ _) as [more|e] eqn:Hr.
  - pose proof (zlen_nonneg more). destruct (Z.eqb_spec (zlen more) 0) as [?|Hnz]; [eauto|].
    assert (Hlen : zlen (bytes ++ more) = zlen bytes + zlen more) by (unfold zlen; rewrite length_app; lia).
    apply IH; rewrite ?Hlen; lia.
  - destruct (is_interrupted e) eqn:He; [|eauto].
    destruct (decide (m <= k)%nat) as [Hk|Hk]; [by rewrite (Hm _ _ _ _ Hk Hr) in He|].
    apply IH; lia.
Qed.

(** [reference_read] is [pread], and it ends. *)
Lemma reference_read_pread F read m offset len :
  positioned F read -> 0 <= offset -> 0 <= len ->
  (forall j off n e, (m <= j)%nat -> read j off n = Err e -> is_interrupted e = false) ->
  exists r, reference_read (m + Z.to_nat len + 1) read offset len = Some r /\
    forall bytes, r = Ok bytes -> bytes = pread F offset len.
Proof.
  intros Hp Ho Hl Hm. unfold reference_read.
  destruct (reference_loop_ends read m (m + Z.to_nat len + 1) 0 offset len [] Hm) as [r Hr];
    [unfold zlen; simpl; lia..|].
  exists r. split; [done|]. intros bytes ->.
  eapply (reference_loop_pread F read _ 0 offset len [] bytes); try done.
Qed.

(** The comparing loop accepts only chunks that are the file, in order and
    without a gap, up to the end of the range or of the file. *)
Lemma compare_chunks_pread F c end_ reference chunks delivered_ count d n :
  (forall off len bytes, 0 <= off -> reference off len = Ok bytes -> bytes = pread F off len) ->
  0 <= cf_offset c -> 0 <= delivered_ ->
  compare_chunks c end_ reference chunks delivered_ count = Ok (d, n) ->
  delivered_ <= d /\ n = count + zlen chunks /\
  (exists got, chunks = Ok <$> got /\
     concat (ch_bytes <$> got) = slice F (cf_offset c + delivered_) (d - delivered_)) /\
  (end_ <= cf_offset c + d \/ zlen F <= cf_offset c + d).
Proof.
  intros Href Ho. revert delivered_ count. induction chunks as [|r chunks IH];
    intros delivered_ count Hd; cbn [compare_chunks].
  - assert (Hnil : exists got : list Chunk, [] = Ok <$> got /\
      concat (ch_bytes <$> got) = slice F (cf_offset c + delivered_) (delivered_ - delivered_)).
    { exists []. by rewrite Z.sub_diag, slice_0. }
    destruct (Z.ltb_spec (cf_offset c + delivered_) end_) as [Hlt|Hge].
    2: { intros [= <- <-]. unfold zlen. simpl. split_and!; [lia..|done|by left]. }
    intros (probe & Hp & He)%io_bind_Ok. case_match eqn:Hz; [|done]. bools. injection He as <- <-.
    unfold zlen in Hz |- *. simpl. split_and!; [lia..|done|right].
    apply Href in Hp; [|lia]. pose proof (zlen_slice F (cf_offset c + delivered_) 1 ltac:(lia)) as Hs.
    rewrite Hp in Hz. unfold zlen, pread in *. lia.
  - destruct r as [chunk|e]; [|done].
    destruct (Z.eqb_spec (ch_offset chunk) (cf_offset c + delivered_)) as [Heq|]; [|done].
    intros (bytes & Hb & Hrest)%io_bind_Ok. case_bool_decide as Hsame; [|done]. subst bytes.
    pose proof (zlen_nonneg (ch_bytes chunk)) as H0. apply Href in Hb; [|lia].
    destruct (IH (delivered_ + zlen (ch_bytes chunk)) (count + 1) ltac:(lia) Hrest) as (Hle & -> & (got & -> & Hgot) & Hend).
    split; [lia|]. split; [unfold zlen; simpl; lia|]. split; [|done].
    exists (chunk :: got). split; [done|]. rewrite fmap_cons. cbn [concat]. rewrite Hgot.
    assert (Hw : ch_bytes chunk = slice F (cf_offset c + delivered_) (zlen (ch_bytes chunk))).
    { rewrite Hb at 1. unfold pread, slice. rewrite Hb. unfold pread, slice, zlen.
      rewrite Nat2Z.id, length_take, <-take_take, firstn_all. done. }
    rewrite Hw at 1. rewrite Z.add_assoc, <-slice_app by lia. f_equal. lia.
Qed.

Lemma number_range max name_ value v : 0 <= max -> number max name_ value = Ok v -> 0 <= v <= max.
Proof.
  unfold number. destruct (parse_unsigned max value) eqn:Hp; [|done]. intros Hm [= <-].
  by apply (parse_unsigned_range max value).
Qed.

Lemma arguments_range `{Target} args c :
  arguments args = Ok c -> 0 <= cf_offset c /\ 0 <= cf_chunk c.
Proof.
  unfold arguments. do 7 (destruct args as [|? args]; try done).
  assert (0 <= usize_max) by (destruct usize_max_ok as [-> | ->]; done).
  intros (o & Ho & (? & _ & (ch & Hc & (? & _ & (? & _ & [= <-])%io_bind_Ok)%io_bind_Ok)%io_bind_Ok)%io_bind_Ok)%io_bind_Ok.
  apply number_range in Ho, Hc; simpl; done || lia.
Qed.

(** The set-up accepts only a valid configuration, and the limits it starts
    the driver with are valid for any driver that allows a whole chunk. *)
Lemma setup_ok `{Target} {F} show args os c end_ (r : OrderedReader F) :
  setup show args os = Ok (c, end_, r) ->
  arguments args = Ok c /\ validate c = Ok end_ /\ so_is_file os = Ok true /\
  so_driver os 2 1 (tight_limits c) = inl tt /\ new_reader c = Ok r.
Proof.
  unfold setup.
  intros (c' & Ha & (e' & Hv & (f & _ & (reg & Hr & Hs)%io_bind_Ok)%io_bind_Ok)%io_bind_Ok)%io_bind_Ok.
  destruct reg; [|done]. simpl in Hs.
  apply io_bind_Ok in Hs as (u & Hd & (? & _ & (r' & Hn & Hs)%io_bind_Ok)%io_bind_Ok).
  injection Hs as -> -> ->. destruct (so_driver _ _ _ _) as [[]|] eqn:Hdr; [|done].
  by split_and!.
Qed.

Lemma tight_limits_valid c end_ max_permits :
  validate c = Ok end_ -> MAX_CHUNK <= max_permits ->
  validate_read_limits max_permits (tight_limits c) = inl tt.
Proof.
  unfold validate, validate_read_limits, tight_limits. simpl.
  destruct (cf_chunk c =? 0); simpl; [done|]. destruct (Z.ltb_spec MAX_CHUNK (cf_chunk c)); simpl; [done|].
  intros _ Hm. by rewrite (proj2 (Z.ltb_ge _ _)) by lia.
Qed.

(** The program succeeds only when what its reader delivered is, byte for byte,
    what positioned reads of the file give from the offset on, up to the end of
    the range or of the file, and the driver answered every read it accepted. *)
Lemma run_checks `{Target} {F} show contents args os reference
    (chunks : OrderedReader F -> list (io_result Chunk)) st d n :
  (forall off len bytes, 0 <= off -> reference off len = Ok bytes -> bytes = pread contents off len) ->
  run show args os reference chunks st = Some (Ok (d, n)) ->
  exists c end_ r got, setup show args os = Ok (c, end_, r) /\ chunks r = Ok <$> got /\
    n = zlen got /\ concat (ch_bytes <$> got) = slice contents (cf_offset c) d /\
    (end_ <= cf_offset c + d \/ zlen contents <= cf_offset c + d) /\ drained st = Some true.
Proof.
  intros Href. unfold run. destruct (setup show args os) as [[[c end_] r]|e] eqn:Hs; [|done].
  pose proof (setup_ok _ _ _ _ _ _ Hs) as (Ha & _).
  assert (Ho : 0 <= cf_offset c).
  { by eapply arguments_range. }
  unfold run_result. destruct (compare_chunks _ _ _ _ _ _) as [[d' n']|e] eqn:Hc; [|done].
  destruct (drained st) as [[]|] eqn:Hd; try done. intros [= -> ->].
  destruct (compare_chunks_pread _ _ _ _ _ _ _ _ _ Href Ho (Z.le_refl 0) Hc)
    as (_ & -> & (got & Hg & Hcat) & Hend).
  exists c, end_, r, got. rewrite Z.add_0_r, Z.sub_0_r in Hcat. split_and!; try done.
  rewrite Hg. unfold zlen. rewrite length_fmap. lia.
Qed.
